(* ===== verification/_CoqProject ===== *)
-Q . S2P
Prelude.v
GoTime.v
GoError.v
GoRuntime.v
GoText.v
DriverSpec.v
Memdriver.v
MemdriverFacts.v
MemdriverProps.v
MemdriverReads.v
Aliasing.v
Queues.v
Retry.v
Inflight.v
Metrics.v
Middleware.v
Cron.v
TimeText.v
Enqueue.v
Client.v
Loop.v
Scheduler.v
Pool.v
Example.v
StatsRefresher.v
JsonValid.v
Inspector.v
Postgres.v
SqlTypes.v
Pgdriver.v
PgdriverFacts.v
PgdriverProps.v
Producers.v
Cluster.v
Outcomes.v
Attempts.v
Progress.v
PgParity.v
PgSession.v
Ticks.v
Migrate.v
GoFlag.v
GoURL.v
GoHTTP.v
Web.v
Cli.v
Ops.v
Shutdown.v
Percentile.v
Bench.v
Testdb.v
