(* ===== verification/Prelude.v ===== *)
(** * drover: a verification development

    drover is a job queue for Go: clients insert jobs into a store, a pool of
    workers claims and runs them under leases, a heartbeat renews the leases, a
    rescuer takes over jobs whose worker died, a scheduler enqueues periodic
    jobs, and an inspector, a command line and a web console let an operator look and
    intervene.  The store is a Postgres table in production and a map in the unit tests.

    ** The parts and their files

    Go itself:
    - Prelude: results, machine integers, durations, comparators and sorting, and the lists, options
      and automation every file uses.
    - GoTime: civil dates, locations with their offsets, [time.Date], rounding, RFC 3339 text.
      TimeText: its injectivity.
    - GoError: error trees, [errors.Is] and [errors.As]; errors.go, the sentinels, [Cancel],
      [Snooze] and the classification of a worker's error.
    - GoRuntime: panics, contexts with deadlines, the log and the clock, binary64 arithmetic.
    - GoText: the functions of strings and strconv that the parsers call.
    - JsonValid: [json.Valid].  GoFlag: the flag package.  GoURL: query strings of net/url, with
      their round trip.  GoHTTP: requests, answers and the mux of net/http.

    The store:
    - DriverSpec (internal/driver): rows, leases and parameters; the interface as the class
      [Driver], and [DriverLaws], what the client relies on; the life of a job as the abstract
      relation [lifecycle].
    - Memdriver (internal/memdriver): every method on the source's state, a counter and a map
      of rows.  MemdriverFacts: invariant and lemmas.  MemdriverProps and MemdriverReads: its
      theorems and its instance of the two classes.  Aliasing: [copyRow] and [Row] on a heap, where
      slices and pointers can be shared.
    - Postgres (internal/dbsqlc): the table, its constraints and what each generated query does
      to its rows.  SqlTypes: how its state type crosses database/sql.  Pgdriver (internal/pgdriver): every method over those statements.  PgdriverFacts
      and PgdriverProps: invariant, theorems, and the instance of the two classes.  PgParity: the two drivers
      compared.  PgSession: leadership by advisory lock, notification and listening.
    - Migrate (internal/migrate): reading and applying the schema migrations.

    The library:
    - Retry (retry.go), Queues (queues.go), Inflight (inflight.go, heartbeat.go), Metrics
      (metrics.go), Middleware (middleware.go, worker.go, and [execute] and [dispatch] of
      loop.go), Cron (internal/cron), Enqueue and Client (client.go, periodic.go), Loop (loop.go,
      rescue.go), Scheduler (scheduler.go), Pool (pool.go, [Start] and [Stop] of loop.go),
      StatsRefresher (stats.go), Inspector (inspector.go), Ops (ops.go), Shutdown ([start],
      [watch], [stop] and [drain] of pool.go, over Pool and Ops).

    The library at work:
    - Producers: what inserting, cancelling and redriving promise to the holders of leases, as
      the class [ProducerLaws], with an instance per driver.
    - Cluster: several workers, producers and operators over one store.  Outcomes: the same with
      nothing assumed of any of them.  Attempts: all claims of one job.  Progress: what claims and sweeps
      reach, over the class [FetchCompletes].  Ticks: the schedulers of a fleet and their lock.
    - Example (examples/email): the example application.  Testdb (internal/testdb): the databases of
      the integration tests.

    The commands:
    - Web (cmd/drover/web.go, cmd_web.go) and Cli (the rest of cmd/drover), over any driver;
      Bench and Percentile (cmd/drover-bench).

    ** How the code is rendered

    A [float64] is a mantissa and an exponent, rounded as binary64 is.  An [int64], a [Time] (nanoseconds since year 1, UTC) and a [Duration] are integers; wrap-around
    is written out where the code can reach it (cron steps, comparators that subtract, float
    conversions, batch positions).  A method that changes an object returns its new value.  A Go error result is
    [res] or [option error]; a panic is an [outcome].  The clock, random draws, what a lock
    answers, and what other goroutines do between two calls are arguments, so that every
    interleaving is quantified over.  Where the interleaving is the point there is a step relation: the fetch
    loop and its workers ([Pool.step]), a whole run with its shutdown ([Shutdown.runStep]), the
    fleet of processes that compete for leadership ([PgSession.fleetStep]), the benchmark's
    worker ([Bench.workStep]), a cluster of workers over one store ([Cluster.clusterStep]), and the
    schedulers of a fleet ([Ticks.tenureStep]).  The
    cluster's members crash by stopping; a living member's renewals land at most [gap] apart, and [gap] is
    shorter than the leases; an operator redrives a job when no lease of it is in use; and the writes by which a
    shutdown hands jobs back land.  A redrive under a lease
    in use, or a snooze by a handler that outlived its lease, defeats the fence, as the findings show.  The client's operations take any store with a [Driver] instance, and
    their theorems assume [DriverLaws] only; both drivers discharge it.

    A statement sent to Postgres meets a [fault]: it is delivered, refused, or run with its answer
    lost; a [World] says which, what the database clock reads, and what other sessions do
    before each statement, which may be anything that keeps the table well formed.  What Postgres does to timestamps (microseconds), intervals and JSON is
    the record [PgEnv] with the laws [PgEnvOk]; [demoEnv] shows that they can hold.

    ** What the theorems show

    - The in-memory driver does what the contract says: from an empty store every call is a
      step of [lifecycle]; guarded writes land exactly on the attempt the lease names, and a stale
      holder is refused for good unless the job is redriven; claims, takeovers, batch inserts, unique slots,
      readings and operator actions are characterized on every branch.
    - The Postgres driver does so too, over a network that loses statements and answers and with
      other sessions acting in between; claims that run at the same time are disjoint; its rows fit their
      columns; and within what both stores can represent it agrees call by call with the in-memory driver,
      so that what the unit tests see is what production does.
    - At most one scheduler leads, whatever becomes of its connections; a notification cannot cost
      a caller its transaction; migrations are applied in order, each with its record, and once.
    - A job's outcome is recorded: [runJob] over any lawful driver applies the verdict of the
      chain to the row it holds, and nothing otherwise; rescue and shutdown hand jobs back and touch nothing
      else; a job that beats is not rescued.
    - Whatever workers do over one store, no job is held by two living ones, and a dead one's jobs come
      back: a sweep of any survivor, unless a fetch of it fails, it is stopped, or it reaches its bound, returns every
      job whose lease has lapsed, and it never touches a job that is held.  A fetch round that leaves a worker
      idle was stopped, failed and says so, or has left no due job behind.
    - With nothing assumed of heartbeats, clocks or callers, an attempt is ended at most once and a completed
      job's row never changes again; and a job spends its attempts one failure or crash at a time, snoozes
      being free, until it is dead.
    - The schedulers of a fleet together enqueue no tick twice, where a leader that lost its
      session notices before it leads again.
    - A row the in-memory driver hands out shares no memory with the one it keeps.
    - The pool never claims more than it can run, tracks exactly what it holds, and visits every queue;
      its shutdown ends things in the order that keeps leases renewed and probes answered, and can
      always complete.
    - Schedules denote what their fields say and fire at the earliest matching minute; a leader's
      turn catches up and never replays.
    - Construction, insertion, middleware, gauges and the operator API behave as documented,
      errors and panics included.  The console changes a job only for a request from its own pages, and its
      links lead back to what they show; the command line's flags, exit status and effects are
      as documented; the benchmark's percentiles are nearest-rank in spite of their floats.
    - Where the code departs from what it promises, a closed theorem exhibits the run: redrives and
      snoozes that defeat the fence ([redrive_reopens_the_fence], [snooze_race_defeats_the_fence]), redriving into a
      taken slot ([redrive_breaks_unique_slots], [drivers_differ]), schedules that stall when clocks go back
      ([cronNext_stalls_at_repeated_hour], [scheduler_never_returns_at_dst_end]), a step that
      panics the parser ([huge_step_panics]), an alignment that is not the documented one
      ([every_not_epoch_aligned]), an option the inspector drops ([enqueue_ignores_unique_key]), a
      clean verdict over a claim in flight ([stop_says_done_over_a_claim]), a leader that replays the ticks
      of another ([regained_lock_replays_tick]), and a lock key that is not the
      documented one ([advisory_key_shift]).

    ** Bounds

    Loops are structural except: [Cron.scan], whose bound [maxScanMinutes] is the source's own;
    [Cron.addLoop], with 64 turns, more than a field has values; [Cron.everyLoop], which provably
    takes no turn; [Scheduler.tickLoop], where running out is the result [None] and
    the theorem gives a bound that is enough, or shows that none is;
    [JsonValid.readValue], with twice the length of its text; and [Bench.insertLoop], which takes at most one turn
    per job.  The retries of operator actions in Pgdriver are the source's own, one.

    ** What is not modelled, and what is next

    Prometheus's histogram buckets and what its registry refuses, the rendering of the console's page, the host that
    [url.Parse] reads, the bytes of JSON output, and the sockets of the HTTP servers are
    arguments or left to their libraries.  Of Postgres: text encodings, the range of timestamptz, locks held by
    statements that wait, and crashes of the server.  The payload that Insert stores
    is the caller's slice, which the heap model does not follow into the callers.  doc.go is
    documentation, and the interfaces and option types have no behaviour beyond their methods.  Log records keep their level, their
    text and the job they are about, not their other attributes.  The scheduler's turns in Ticks are
    atomic: a leader that stalls between the answer of its lock and its clock reading is not considered. *)

From stdpp Require Export prelude gmap strings list sorting pretty.
From Stdlib Require Export Ascii ZArith Lia.

#[global] Open Scope stdpp_scope.
#[global] Open Scope list_scope.
#[global] Open Scope Z_scope.

(** ** Results

    A Go function that returns [(T, error)] returns a [res T]: the error is a
    value of its own type, declared in GoError. *)

Inductive res (E A : Type) : Type :=
| Ok (a : A)
| Err (e : E).
Arguments Ok {E A} a.
Arguments Err {E A} e.

Definition res_bind {E A B} (r : res E A) (f : A -> res E B) : res E B :=
  match r with Ok a => f a | Err e => Err e end.

Definition is_ok {E A} (r : res E A) : bool :=
  match r with Ok _ => true | Err _ => false end.

Declare Scope go_scope.
Delimit Scope go_scope with go.
Notation "'let?' x ':=' c 'in' k" := (res_bind c (fun x => k))
  (at level 10, x pattern, c at level 100, k at level 200) : go_scope.
#[global] Open Scope go_scope.

(** ** Machine integers and durations *)

(** [int64] arithmetic wraps around. *)
Definition wrap64 (z : Z) : Z := (z + 2 ^ 63) mod 2 ^ 64 - 2 ^ 63.

Definition MaxInt32 : Z := 2 ^ 31 - 1.
Definition MaxInt64 : Z := 2 ^ 63 - 1.

(** A [time.Duration] counts nanoseconds. *)
Definition Nanosecond : Z := 1.
Definition Microsecond : Z := 1000.
Definition Millisecond : Z := 1000000.
Definition Second : Z := 1000 * Millisecond.
Definition Minute : Z := 60 * Second.
Definition Hour : Z := 60 * Minute.

(** A [time.Time] is the number of nanoseconds since Go's zero time,
    January 1 of year 1, 00:00:00 UTC; so the zero value is [0]. *)
Abbreviation Time := Z (only parsing).
Abbreviation Duration := Z (only parsing).

Definition zeroTime : Time := 0.
Definition IsZero (t : Time) : bool := t =? 0.
Definition After (t u : Time) : bool := u <? t.
Definition Before (t u : Time) : bool := t <? u.

(** ** Comparators and [slices.SortFunc]

    A comparator returns a negative, zero or positive number.  The sort of the
    Go library is not stable, so its result is determined only when the
    comparator separates distinct elements; [SortFunc_unique] is the lemma the
    components use to show that theirs does. *)

Class Comparator {A} (cmp : A -> A -> Z) : Prop := {
  cmp_flip : forall a b, 0 <= cmp a b <-> cmp b a <= 0;
  cmp_trans : forall a b c, cmp a b <= 0 -> cmp b c <= 0 -> cmp a c <= 0
}.

Definition cmp_le {A} (cmp : A -> A -> Z) (a b : A) : Prop := cmp a b <= 0.

#[export] Instance cmp_le_dec {A} (cmp : A -> A -> Z) a b : Decision (cmp_le cmp a b).
Proof. unfold cmp_le. apply _. Defined.

Definition SortFunc {A} (cmp : A -> A -> Z) (l : list A) : list A :=
  merge_sort (cmp_le cmp) l.

(** [cmp.Compare] on integers and instants, [strings.Compare] on strings. *)
Definition compareZ (a b : Z) : Z :=
  if a <? b then -1 else if b <? a then 1 else 0.

Definition compareString (a b : string) : Z :=
  match String.compare a b with Lt => -1 | Eq => 0 | Gt => 1 end.

(** The idiom [if c := cmp1(a, b); c != 0 { return c }; return cmp2(a, b)]. *)
Definition thenBy {A} (c1 c2 : A -> A -> Z) (a b : A) : Z :=
  if c1 a b =? 0 then c2 a b else c1 a b.

Definition onKey {A B} (f : A -> B) (c : B -> B -> Z) (a b : A) : Z := c (f a) (f b).

(** ** Automation *)

Create HintDb drover.

(** Split a conjunction goal and finish the easy parts. *)
Ltac split_all := repeat match goal with |- _ /\ _ => split end.

(** Case analysis on the scrutinee of the first [match] or [if] of the goal. *)
Ltac casematch :=
  match goal with
  | |- context [match ?x with _ => _ end] =>
      lazymatch x with
      | context [match _ with _ => _ end] => fail
      | _ => destruct x eqn:?
      end
  end.

(** The same, on a hypothesis. *)
Ltac casematch_in H :=
  match type of H with
  | context [match ?x with _ => _ end] =>
      lazymatch x with
      | context [match _ with _ => _ end] => fail
      | _ => destruct x eqn:?
      end
  end.

(** Turn boolean tests into propositions. *)
Ltac unbool :=
  repeat match goal with
  | H : andb _ _ = true |- _ => apply andb_true_iff in H as [? ?]
  | H : orb _ _ = false |- _ => apply orb_false_iff in H as [? ?]
  | H : negb _ = true |- _ => apply negb_true_iff in H
  | H : negb _ = false |- _ => apply negb_false_iff in H
  | H : bool_decide _ = true |- _ => apply bool_decide_eq_true_1 in H
  | H : bool_decide _ = false |- _ => apply bool_decide_eq_false_1 in H
  | H : (_ =? _)%string = true |- _ => apply String.eqb_eq in H
  | H : (_ =? _)%string = false |- _ => apply String.eqb_neq in H
  end.

(** ** Generic lemmas *)

Lemma wrap64_small z : - 2 ^ 63 <= z < 2 ^ 63 -> wrap64 z = z.
Proof. intros H. unfold wrap64. rewrite Z.mod_small; lia. Qed.

Lemma wrap64_range z : - 2 ^ 63 <= wrap64 z < 2 ^ 63.
Proof.
  unfold wrap64. pose proof (Z.mod_pos_bound (z + 2 ^ 63) (2 ^ 64) ltac:(lia)). lia.
Qed.

Lemma compareZ_le a b : compareZ a b <= 0 <-> a <= b.
Proof. unfold compareZ. destruct (Z.ltb_spec a b), (Z.ltb_spec b a); lia. Qed.

Lemma compareZ_0 a b : compareZ a b = 0 <-> a = b.
Proof. unfold compareZ. destruct (Z.ltb_spec a b), (Z.ltb_spec b a); lia. Qed.

#[export] Instance compareZ_comparator : Comparator compareZ.
Proof.
  split.
  - intros a b. unfold compareZ. destruct (Z.ltb_spec a b), (Z.ltb_spec b a); lia.
  - intros a b c. rewrite !compareZ_le. lia.
Qed.

Lemma compareString_le a b : compareString a b <= 0 <-> String.leb a b = true.
Proof. unfold compareString, String.leb. destruct (String.compare a b); lia || split; done || lia. Qed.

Lemma compareString_0 a b : compareString a b = 0 <-> a = b.
Proof.
  unfold compareString. split.
  - destruct (String.compare a b) eqn:E; [intros _; by apply String.compare_eq_iff | lia | lia].
  - intros ->. destruct (String.leb_total b b) as [H | H]; revert H;
      unfold String.leb; pose proof (String.compare_antisym b b) as H;
      destruct (String.compare b b); done.
Qed.

#[export] Instance compareString_comparator : Comparator compareString.
Proof.
  split.
  - intros a b. unfold compareString. rewrite (String.compare_antisym b a).
    destruct (String.compare a b); simpl; lia.
  - intros a b c. rewrite !compareString_le. intros H1 H2.
    pose proof (transitivity (R := String.le) (x := a) (y := b) (z := c)) as T.
    unfold String.le in T. apply Is_true_true in H1, H2. apply Is_true_true. auto.
Qed.

#[export] Instance onKey_comparator {A B} (f : A -> B) c :
  Comparator c -> Comparator (onKey f c).
Proof.
  intros [Hf Ht]. split; unfold onKey; [auto | intros a b d; apply Ht].
Qed.

#[export] Instance thenBy_comparator {A} (c1 c2 : A -> A -> Z) :
  Comparator c1 -> Comparator c2 -> Comparator (thenBy c1 c2).
Proof.
  intros [F1 T1] [F2 T2]. split.
  - intros a b. unfold thenBy.
    pose proof (F1 a b). pose proof (F1 b a). pose proof (F2 a b).
    destruct (Z.eqb_spec (c1 a b) 0), (Z.eqb_spec (c1 b a) 0); lia.
  - intros a b d. unfold thenBy.
    pose proof (F1 a b). pose proof (F1 b a). pose proof (F1 b d). pose proof (F1 d b).
    pose proof (F1 a d). pose proof (F1 d a).
    pose proof (T1 a b d). pose proof (T1 d a b). pose proof (T1 b d a). pose proof (T2 a b d).
    destruct (Z.eqb_spec (c1 a b) 0), (Z.eqb_spec (c1 b d) 0), (Z.eqb_spec (c1 a d) 0); lia.
Qed.

Section SortFunc.
Context {A} (cmp : A -> A -> Z) `{Hcmp : !Comparator cmp}.

#[local] Instance cmp_le_total : Total (cmp_le cmp).
Proof.
  intros a b. unfold cmp_le. pose proof (cmp_flip b a).
  destruct (Z.le_ge_cases (cmp a b) 0); [by left | right].
  apply (cmp_flip (cmp := cmp) a b). lia.
Qed.

#[local] Instance cmp_le_transitive : Transitive (cmp_le cmp).
Proof. intros a b c. apply cmp_trans. Qed.

Lemma SortFunc_perm l : SortFunc cmp l ≡ₚ l.
Proof. apply merge_sort_Permutation. Qed.

Lemma SortFunc_sorted l : StronglySorted (cmp_le cmp) (SortFunc cmp l).
Proof. apply StronglySorted_merge_sort; apply _. Qed.

Lemma SortFunc_elem x l : x ∈ SortFunc cmp l <-> x ∈ l.
Proof. by rewrite SortFunc_perm. Qed.

Lemma SortFunc_length l : length (SortFunc cmp l) = length l.
Proof. by rewrite SortFunc_perm. Qed.

(** A comparator that separates the elements of the list determines the
    sorted result, whatever order the elements come in. *)
Lemma SortFunc_unique l1 l2 :
  (forall a b, a ∈ l1 -> b ∈ l1 -> cmp a b = 0 -> a = b) ->
  l1 ≡ₚ l2 -> StronglySorted (cmp_le cmp) l2 -> SortFunc cmp l1 = l2.
Proof.
  intros Hsep Hp Hs.
  apply (StronglySorted_unique_strong (cmp_le cmp)).
  - intros a b Ha Hb Hab Hba. unfold cmp_le in *.
    apply Hsep.
    + by rewrite SortFunc_elem in Ha.
    + rewrite Hp. done.
    + pose proof (cmp_flip (cmp := cmp) a b). lia.
  - apply SortFunc_sorted.
  - done.
  - by rewrite SortFunc_perm.
Qed.
End SortFunc.

(** Two comparators that agree on the elements of a list sort it alike. *)
Section SortExt.
Context {A} (c1 c2 : A -> A -> Z) (P : A -> Prop).
Hypothesis agree : forall a b, P a -> P b -> (c1 a b <= 0 <-> c2 a b <= 0).

Lemma list_merge_ext l1 l2 :
  Forall P l1 -> Forall P l2 -> list_merge (cmp_le c1) l1 l2 = list_merge (cmp_le c2) l1 l2.
Proof.
  intros H1. revert l2. induction H1 as [|a l1 Ha H1 IH1]; intros l2 H2; [by destruct l2|].
  induction H2 as [|b l2 Hb H2 IH2]; [done|]. simpl. pose proof (agree a b Ha Hb) as Hab.
  destruct (decide (cmp_le c1 a b)), (decide (cmp_le c2 a b)); unfold cmp_le in *; try tauto.
  - f_equal. apply IH1. by constructor.
  - f_equal. exact IH2.
Qed.

Lemma list_merge_Forall (R : relation A) `{forall x y, Decision (R x y)} l1 l2 :
  Forall P l1 -> Forall P l2 -> Forall P (list_merge R l1 l2).
Proof. intros. rewrite merge_Permutation. by apply Forall_app. Qed.

Definition stackOk : list (option (list A)) -> Prop :=
  Forall (fun o => match o with Some l => Forall P l | None => True end).

Lemma merge_list_to_stack_ext st l :
  stackOk st -> Forall P l ->
  merge_list_to_stack (cmp_le c1) st l = merge_list_to_stack (cmp_le c2) st l /\
  stackOk (merge_list_to_stack (cmp_le c2) st l).
Proof.
  intros Hst. revert l. induction Hst as [|[l'|] st Ho Hst IH]; intros l Hl; simpl.
  - split; [done|]. by repeat constructor.
  - rewrite (list_merge_ext l' l Ho Hl).
    destruct (IH (list_merge (cmp_le c2) l' l)) as [-> ?]; [by apply list_merge_Forall|].
    split; [done|]. by constructor.
  - split; [done|]. by constructor.
Qed.

Lemma merge_stack_ext st :
  stackOk st ->
  merge_stack (cmp_le c1) st = merge_stack (cmp_le c2) st /\ Forall P (merge_stack (cmp_le c2) st).
Proof.
  induction 1 as [|[l|] st Ho Hst IH]; simpl; [done| |done].
  destruct IH as [-> Hf]. rewrite (list_merge_ext l _ Ho Hf). split; [done|].
  by apply list_merge_Forall.
Qed.

Lemma merge_sort_aux_ext l st :
  stackOk st -> Forall P l ->
  merge_sort_aux (cmp_le c1) st l = merge_sort_aux (cmp_le c2) st l.
Proof.
  intros Hst Hl. revert st Hst. induction Hl as [|a l Ha Hl IH]; intros st Hst; simpl.
  - by apply merge_stack_ext.
  - destruct (merge_list_to_stack_ext st [a] Hst) as [-> ?]; [by repeat constructor|]. by apply IH.
Qed.

Lemma SortFunc_ext l : Forall P l -> SortFunc c1 l = SortFunc c2 l.
Proof. intros. unfold SortFunc, merge_sort. by apply merge_sort_aux_ext; [constructor|]. Qed.
End SortExt.

Lemma StronglySorted_mono {A} (R1 R2 : relation A) l :
  (forall a b, R1 a b -> R2 a b) -> StronglySorted R1 l -> StronglySorted R2 l.
Proof.
  intros HR H. induction H as [|a l _ IH Ha]; constructor; [done|].
  eapply Forall_impl; [exact Ha|]. auto.
Qed.

Lemma StronglySorted_take {A} (R : relation A) n l :
  StronglySorted R l -> StronglySorted R (take n l).
Proof.
  intros H. rewrite <- (take_drop n l) in H. exact (StronglySorted_app_1_l _ _ _ H).
Qed.

Lemma StronglySorted_take_drop {A} (R : relation A) n l x y :
  StronglySorted R l -> x ∈ take n l -> y ∈ drop n l -> R x y.
Proof.
  intros H. rewrite <- (take_drop n l) in H.
  exact (StronglySorted_app_1_elem_of _ _ _ x y H).
Qed.

Lemma take_elem {A} (x : A) n l : x ∈ take n l -> x ∈ l.
Proof. rewrite elem_of_take. intros (i & H & _). by eapply list_elem_of_lookup_2. Qed.

#[export] Hint Resolve SortFunc_perm wrap64_range : drover.
