(* ===== verification/GoTime.v ===== *)
(** * GoTime: the parts of Go's [time] package the program uses

    The civil calendar, locations and [time.Date], [Time.Truncate],
    [Duration.String] and the RFC 3339 layout with nanoseconds.  Nothing here
    maps to a line of the repository: it is the standard library as the
    scheduler and the cron package call it.  The calendar is proved to be a
    bijection ([civil_round_trip]), which is what the cron theorems rest on. *)

From S2P Require Import Prelude.

(** ** Decimal text *)

Definition digit (n : Z) : ascii := ascii_of_nat (48 + Z.to_nat n).

(** The last [w] decimal digits of [n], zero padded. *)
Fixpoint digits (w : nat) (n : Z) : string :=
  match w with
  | O => ""
  | S w' => digits w' (n / 10) +:+ String (digit (n mod 10)) ""
  end.

(** [strconv.Itoa] and the [%d] verb. *)
Definition itoa (n : Z) : string := pretty n.

(** [appendInt(b, n, 4)]: at least four digits. *)
Definition year4 (y : Z) : string :=
  if y <? 0 then "-" +:+ (if -10000 <? y then digits 4 (- y) else itoa (- y))
  else if y <? 10000 then digits 4 y else itoa y.

(** Drop trailing zeros of a digit string. *)
Fixpoint trimZeros (s : string) : string :=
  match s with
  | "" => ""
  | String c s' =>
      match trimZeros s' with
      | "" => if Ascii.eqb c "0"%char then "" else String c ""
      | t => String c t
      end
  end.

(** A fraction of [w] digits: nothing when it is zero, else a point and the
    digits without trailing zeros. *)
Definition fraction (w : nat) (n : Z) : string :=
  if n =? 0 then "" else String "."%char (trimZeros (digits w n)).

(** [Duration.String] *)
Definition durationString (d : Z) : string :=
  if d =? 0 then "0s"
  else
    let u := Z.abs d in
    let body :=
      if u <? 1000 then itoa u +:+ "ns"
      else if u <? Millisecond then itoa (u / 1000) +:+ fraction 3 (u mod 1000) +:+ "µs"
      else if u <? Second then itoa (u / Millisecond) +:+ fraction 6 (u mod Millisecond) +:+ "ms"
      else
        let s := u / Second in
        let sec := itoa (s mod 60) +:+ fraction 9 (u mod Second) +:+ "s" in
        let m := s / 60 in
        if m =? 0 then sec
        else
          let ms := itoa (m mod 60) +:+ "m" +:+ sec in
          if m / 60 =? 0 then ms else itoa (m / 60) +:+ "h" +:+ ms in
    if d <? 0 then "-" +:+ body else body.

(** ** The civil calendar

    Days are counted from 1 January of year 1.  Years are taken to start in
    March, so that the leap day comes last; an era is 400 years. *)

Definition daysPerEra : Z := 146097.

Definition marchDay (day : Z) : Z := day + 306.

(** Cut off 100-year, 4-year and 1-year cycles. *)
Definition centuryOfEra (doe : Z) : Z := Z.min (doe / 36524) 3.
Definition quadOfEra (doe : Z) : Z := (doe - 36524 * centuryOfEra doe) / 1461.
Definition yearOfQuad (doe : Z) : Z :=
  Z.min ((doe - 36524 * centuryOfEra doe - 1461 * quadOfEra doe) / 365) 3.

Definition yearOfEra (doe : Z) : Z :=
  100 * centuryOfEra doe + 4 * quadOfEra doe + yearOfQuad doe.

Definition dayOfYear (doe : Z) : Z :=
  doe - 36524 * centuryOfEra doe - 1461 * quadOfEra doe - 365 * yearOfQuad doe.

Definition monthIndex (doy : Z) : Z := (5 * doy + 2) / 153.

(** The date of a day number: year, month and day of the month. *)
Definition civilOfDays (day : Z) : Z * Z * Z :=
  let z := marchDay day in
  let era := z / daysPerEra in
  let doe := z mod daysPerEra in
  let doy := dayOfYear doe in
  let mp := monthIndex doy in
  let d := doy - (153 * mp + 2) / 5 + 1 in
  let m := if mp <? 10 then mp + 3 else mp - 9 in
  (yearOfEra doe + era * 400 + (if m <=? 2 then 1 else 0), m, d).

Definition daysOfCivil (y m d : Z) : Z :=
  let y' := if m <=? 2 then y - 1 else y in
  let era := y' / 400 in
  let yoe := y' mod 400 in
  let mp := if 2 <? m then m - 3 else m + 9 in
  let doy := (153 * mp + 2) / 5 + d - 1 in
  era * daysPerEra + (yoe * 365 + yoe / 4 - yoe / 100 + doy) - 306.

(** [time.Weekday]: Sunday is 0; 1 January of year 1 was a Monday. *)
Definition weekdayOfDays (day : Z) : Z := (day + 1) mod 7.

(** ** Locations and instants *)

(** [Time.Sub]: a difference that does not fit a [Duration] stops at its ends. *)
Definition Sub (t u : Time) : Duration := Z.max (- 2 ^ 63) (Z.min (t - u) (2 ^ 63 - 1)).

(** Seconds between the zero time and the Unix epoch. *)
Definition unixToInternal : Z := 62135596800.

(** [Location.lookup]: the zone offset in force at a Unix second, and the
    half-open interval of seconds in which it is. *)
Record zone := Zone { offset : Z; zstart : Z; zend : Z }.

Record Location := { lookupZone : Z -> zone }.

Definition UTC : Location :=
  {| lookupZone := fun _ => Zone 0 (- 2 ^ 63) (2 ^ 63 - 1) |}.

(** A location with one change of offset, at the Unix second [at]. *)
Definition oneTransition (before after at_ : Z) : Location :=
  {| lookupZone := fun s => if s <? at_ then Zone before (- 2 ^ 63) at_
                            else Zone after at_ (2 ^ 63 - 1) |}.

(** Seconds since the zero time. *)
Definition secOf (t : Time) : Z := t / Second.

Definition unixOf (t : Time) : Z := secOf t - unixToInternal.

(** Local seconds since the zero time, the quantity [Date] and [Clock] read. *)
Definition localSec (loc : Location) (t : Time) : Z :=
  secOf t + offset (lookupZone loc (unixOf t)).

Definition localDays (loc : Location) (t : Time) : Z := localSec loc t / 86400.
Definition secOfDay (loc : Location) (t : Time) : Z := localSec loc t mod 86400.

Definition dateIn (loc : Location) (t : Time) : Z * Z * Z := civilOfDays (localDays loc t).
Definition hourIn (loc : Location) (t : Time) : Z := secOfDay loc t / 3600.
Definition minuteIn (loc : Location) (t : Time) : Z := secOfDay loc t mod 3600 / 60.
Definition secondIn (loc : Location) (t : Time) : Z := secOfDay loc t mod 60.
Definition monthIn (loc : Location) (t : Time) : Z := (dateIn loc t).1.2.
Definition dayIn (loc : Location) (t : Time) : Z := (dateIn loc t).2.
Definition weekdayIn (loc : Location) (t : Time) : Z := weekdayOfDays (localDays loc t).

(** [time.Date]: the wall clock read as UTC gives a first guess of the zone;
    when the instant it leads to lies outside that zone, the zone in force at
    that instant is used instead. *)
Definition timeDate (y m d h mi s ns : Z) (loc : Location) : Time :=
  let unix := daysOfCivil y m d * 86400 + h * 3600 + mi * 60 + s - unixToInternal in
  let z := lookupZone loc unix in
  let unix' :=
    if offset z =? 0 then unix
    else
      let utc := unix - offset z in
      if (utc <? zstart z) || (zend z <=? utc)
      then unix - offset (lookupZone loc utc)
      else unix - offset z in
  (unix' + unixToInternal) * Second + ns.

(** [Time.Truncate]: down to a multiple of [d] since the zero time. *)
Definition truncate (t d : Z) : Time := if d <=? 0 then t else t - t mod d.

(** [t.UTC().Format(time.RFC3339Nano)] *)
Definition formatRFC3339Nano (t : Time) : string :=
  let '(y, m, d) := dateIn UTC t in
  year4 y +:+ "-" +:+ digits 2 m +:+ "-" +:+ digits 2 d +:+ "T" +:+
  digits 2 (hourIn UTC t) +:+ ":" +:+ digits 2 (minuteIn UTC t) +:+ ":" +:+
  digits 2 (secondIn UTC t) +:+ fraction 9 (t mod Second) +:+ "Z".

(** [Time.MarshalJSON] refuses a year outside [0, 9999]. *)
Definition jsonYearOk (t : Time) : bool :=
  let '(y, _, _) := dateIn UTC t in (0 <=? y) && (y <=? 9999).

(** ** The calendar is a bijection *)

Ltac divmod := Z.div_mod_to_equations; lia.

Lemma eraParts_bound doe :
  0 <= doe < daysPerEra ->
  0 <= centuryOfEra doe <= 3 /\ 0 <= quadOfEra doe <= 24 /\ 0 <= yearOfQuad doe <= 3 /\
  0 <= dayOfYear doe <= 365.
Proof.
  unfold dayOfYear, yearOfQuad, quadOfEra, centuryOfEra, daysPerEra. intros H.
  set (c := Z.min (doe / 36524) 3).
  assert (0 <= c <= 3 /\ 0 <= doe - 36524 * c <= 36524) as [Hc Hdoc] by (subst c; divmod).
  set (q := (doe - 36524 * c) / 1461).
  assert (0 <= q <= 24 /\ 0 <= doe - 36524 * c - 1461 * q <= 1460) as [Hq Hdoq]
    by (subst q; divmod).
  set (y := Z.min ((doe - 36524 * c - 1461 * q) / 365) 3).
  assert (0 <= y <= 3 /\ 0 <= doe - 36524 * c - 1461 * q - 365 * y <= 365) as [Hy Hd]
    by (subst y; divmod).
  split_all; lia.
Qed.

Lemma monthIndex_bound doy :
  0 <= doy <= 365 ->
  0 <= monthIndex doy <= 11 /\ 1 <= doy - (153 * monthIndex doy + 2) / 5 + 1 <= 31.
Proof. unfold monthIndex. intros H. divmod. Qed.

(** The leap days before a year of an era. *)
Lemma leapDays doe :
  0 <= doe < daysPerEra ->
  let yoe := yearOfEra doe in
  0 <= yoe < 400 /\ yoe * 365 + yoe / 4 - yoe / 100 + dayOfYear doe = doe.
Proof.
  intros H. pose proof (eraParts_bound doe H) as (Hc & Hq & Hy & Hd).
  unfold yearOfEra, dayOfYear in *. split; [lia|].
  revert Hc Hq Hy Hd. generalize (centuryOfEra doe) (quadOfEra doe) (yearOfQuad doe).
  intros c q y Hc Hq Hy Hd.
  replace ((100 * c + 4 * q + y) / 4) with (25 * c + q) by divmod.
  replace ((100 * c + 4 * q + y) / 100) with c by divmod. lia.
Qed.

(** Every day has a date with its month and day in range, and the date leads
    back to the day. *)
Lemma civil_round_trip day :
  let '(y, m, d) := civilOfDays day in
  1 <= m <= 12 /\ 1 <= d <= 31 /\ daysOfCivil y m d = day.
Proof.
  unfold civilOfDays.
  pose proof (Z.mod_pos_bound (marchDay day) daysPerEra ltac:(unfold daysPerEra; lia)) as Hb.
  pose proof (Z.div_mod (marchDay day) daysPerEra ltac:(unfold daysPerEra; lia)) as Hdm.
  revert Hb Hdm. generalize (marchDay day / daysPerEra) as era.
  generalize (marchDay day mod daysPerEra) as doe. intros doe era Hb Hdm.
  pose proof (leapDays doe Hb) as [Hy Hl].
  pose proof (eraParts_bound doe Hb) as (_ & _ & _ & Hd).
  pose proof (monthIndex_bound (dayOfYear doe) Hd) as [Hm Hday].
  revert Hy Hl Hm Hday. generalize (yearOfEra doe) (monthIndex (dayOfYear doe)).
  intros y mp Hy Hl Hm Hday. unfold daysOfCivil, marchDay in *.
  destruct (Z.ltb_spec mp 10).
  - destruct (Z.leb_spec (mp + 3) 2); [lia|].
    rewrite Z.add_0_r. destruct (Z.ltb_spec 2 (mp + 3)); [|lia].
    rewrite Z_mod_plus_full, Z_div_plus_full, (Z.mod_small y), (Z.div_small y 400) by lia.
    replace (mp + 3 - 3) with mp by lia. lia.
  - destruct (Z.leb_spec (mp - 9) 2); [|lia].
    replace (y + era * 400 + 1 - 1) with (y + era * 400) by lia.
    destruct (Z.ltb_spec 2 (mp - 9)); [lia|].
    rewrite Z_mod_plus_full, Z_div_plus_full, (Z.mod_small y), (Z.div_small y 400) by lia.
    replace (mp - 9 + 9) with mp by lia. lia.
Qed.

(** ** Wall clocks *)

Lemma Second_pos : 0 < Second.
Proof. unfold Second, Millisecond. lia. Qed.

Lemma Minute_eq : Minute = 60 * Second.
Proof. reflexivity. Qed.

Lemma secOfDay_bound loc t : 0 <= secOfDay loc t < 86400.
Proof. unfold secOfDay. apply Z.mod_pos_bound. lia. Qed.

Lemma clock_fields loc t :
  0 <= hourIn loc t < 24 /\ 0 <= minuteIn loc t < 60 /\ 0 <= secondIn loc t < 60 /\
  secOfDay loc t = hourIn loc t * 3600 + minuteIn loc t * 60 + secondIn loc t.
Proof.
  unfold hourIn, minuteIn, secondIn. pose proof (secOfDay_bound loc t) as H.
  revert H. generalize (secOfDay loc t) as s. intros s H.
  pose proof (Z.div_mod s 3600 ltac:(lia)). pose proof (Z.mod_pos_bound s 3600 ltac:(lia)).
  pose proof (Z.div_mod (s mod 3600) 60 ltac:(lia)).
  pose proof (Z.mod_pos_bound (s mod 3600) 60 ltac:(lia)).
  assert (s mod 60 = s mod 3600 mod 60) as ->.
  { rewrite Z.mod_mod_divide; [done | by exists 60]. }
  assert (0 <= s / 3600 < 24) by (split; [apply Z.div_pos | apply Z.div_lt_upper_bound]; lia).
  assert (0 <= s mod 3600 / 60 < 60)
    by (split; [apply Z.div_pos | apply Z.div_lt_upper_bound]; lia).
  split_all; lia.
Qed.

(** The wall clock of an instant, put together again. *)
Definition wallSec (loc : Location) (t : Time) : Z :=
  let '(y, m, d) := dateIn loc t in
  daysOfCivil y m d * 86400 + hourIn loc t * 3600 + minuteIn loc t * 60.

Lemma wallSec_local loc t : wallSec loc t = localSec loc t - secondIn loc t.
Proof.
  unfold wallSec, dateIn. pose proof (civil_round_trip (localDays loc t)) as H.
  destruct (civilOfDays (localDays loc t)) as [[y m] d]. destruct H as (_ & _ & ->).
  pose proof (clock_fields loc t) as (_ & _ & _ & Hs).
  unfold localDays, secOfDay in *.
  pose proof (Z.div_mod (localSec loc t) 86400 ltac:(lia)). lia.
Qed.
