(* ===== verification/GoError.v ===== *)
(** * GoError: error values and their classification

    Models errors.go, the sentinels of internal/driver, rescue.go and pool.go,
    and the recovered-panic error of middleware.go.  An error is a tree: a
    sentinel, a text, a [fmt.Errorf] with its [%w] operands, a snooze, or a
    recovered panic.  [errors.Is] and [errors.As] walk the tree in pre-order,
    as the standard library does. *)

From S2P Require Import Prelude GoTime.

(** ** Error values *)

(** The values made once by [errors.New]; they are compared by identity. *)
Inductive sentinel :=
| DrvInvalidTransition | DrvNotFound | DrvTxUnsupported | DrvLeaseLost | DrvDuplicateJob
| ErrInvalidKind | ErrDuplicateJob | ErrNotFound | ErrInvalidTransition
| ErrAlreadyStarted | ErrNotStarted | ErrDrainIncomplete | ErrCancelled | ErrSnoozed
| ErrLeaseExpired | ErrShutdownRequeued
| ErrInvalidSpec
| ContextCanceled | ContextDeadlineExceeded
| Foreign (name : string).

#[export] Instance sentinel_eq_dec : EqDecision sentinel.
Proof. solve_decision. Defined.

Definition sentinelText (s : sentinel) : string :=
  match s with
  | DrvInvalidTransition => "driver: invalid job state transition"
  | DrvNotFound => "driver: job not found"
  | DrvTxUnsupported => "driver: transactional insert not supported"
  | DrvLeaseLost => "driver: job reclaimed by another worker"
  | DrvDuplicateJob => "driver: job with this unique key already exists"
  | ErrInvalidKind => "drover: job kind must be non-empty"
  | ErrDuplicateJob => "drover: job with this unique key already exists"
  | ErrNotFound => "drover: job not found"
  | ErrInvalidTransition => "drover: invalid job state transition"
  | ErrAlreadyStarted => "drover: client already started"
  | ErrNotStarted => "drover: client not started"
  | ErrDrainIncomplete => "drover: shutdown deadline reached"
  | ErrCancelled => "drover: job cancelled by handler"
  | ErrSnoozed => "drover: job snoozed by handler"
  | ErrLeaseExpired => "drover: lease expired, worker presumed dead"
  | ErrShutdownRequeued => "drover: worker shut down before this attempt finished"
  | ErrInvalidSpec => "cron: invalid spec"
  | ContextCanceled => "context canceled"
  | ContextDeadlineExceeded => "context deadline exceeded"
  | Foreign name => name
  end.

Inductive error :=
| Sent (s : sentinel)
| Msg (text : string)
| Wrapf (text : string) (operands : list error)
| snoozeError (d : Duration)
| panicError (value stack : string).

(** The [Error] method. *)
Definition errorText (e : error) : string :=
  match e with
  | Sent s => sentinelText s
  | Msg t => t
  | Wrapf t _ => t
  | snoozeError d => "drover: job snoozed for " +:+ durationString d
  | panicError v _ => "job panicked: " +:+ v
  end.

(** [errors.Is] against a sentinel; a [snoozeError] unwraps to [ErrSnoozed]. *)
Fixpoint errorsIs (e : error) (s : sentinel) : bool :=
  match e with
  | Sent s' => bool_decide (s' = s)
  | Msg _ => false
  | Wrapf _ es => existsb (fun e' => errorsIs e' s) es
  | snoozeError _ => bool_decide (ErrSnoozed = s)
  | panicError _ _ => false
  end.

Definition firstSome {A B} (f : A -> option B) : list A -> option B :=
  fix go l :=
    match l with
    | [] => None
    | x :: l' => match f x with Some b => Some b | None => go l' end
    end.

(** [errors.As] for a [snoozeError]: the first one in pre-order. *)
Fixpoint asSnooze (e : error) : option Duration :=
  match e with
  | snoozeError d => Some d
  | Wrapf _ es => firstSome asSnooze es
  | _ => None
  end.

(** [errors.As] for a [panicError], with the stack it carries. *)
Fixpoint asPanic (e : error) : option string :=
  match e with
  | panicError _ stack => Some stack
  | Wrapf _ es => firstSome asPanic es
  | _ => None
  end.

(** [stackOf]: the trace a recovered panic carries, nil (here empty) otherwise. *)
Definition stackOf (e : error) : string :=
  match asPanic e with Some stack => stack | None => "" end.

(** ** What a worker returns *)

Definition Cancel (reason : option error) : error :=
  match reason with
  | None => Sent ErrCancelled
  | Some r => Wrapf (errorText (Sent ErrCancelled) +:+ ": " +:+ errorText r)
                    [Sent ErrCancelled; r]
  end.

Definition Snooze (d : Duration) : error :=
  snoozeError (if d <? 0 then 0 else d).

Inductive jobOutcome := outcomeFailed | outcomeCancelled | outcomeSnoozed.

#[export] Instance jobOutcome_eq_dec : EqDecision jobOutcome.
Proof. solve_decision. Defined.

Definition classifyOutcome (e : error) : jobOutcome * Duration :=
  if errorsIs e ErrCancelled then (outcomeCancelled, 0)
  else match asSnooze e with
       | Some d => (outcomeSnoozed, d)
       | None => if errorsIs e ErrSnoozed then (outcomeSnoozed, 0)
                 else (outcomeFailed, 0)
       end.

(** [newPanicError] of a recovered value; the stack is what [debug.Stack]
    printed. *)
Definition newPanicError (value stack : string) : error := panicError value stack.

(** ** Induction and occurrence *)

Section error_ind.
Variable P : error -> Prop.
Hypothesis HSent : forall s, P (Sent s).
Hypothesis HMsg : forall t, P (Msg t).
Hypothesis HWrapf : forall t es, Forall P es -> P (Wrapf t es).
Hypothesis HSnooze : forall d, P (snoozeError d).
Hypothesis HPanic : forall v st, P (panicError v st).

Fixpoint error_nested_ind (e : error) : P e :=
  match e with
  | Sent s => HSent s
  | Msg t => HMsg t
  | Wrapf t es =>
      HWrapf t es ((fix go l : Forall P l :=
                      match l with
                      | [] => Forall_nil_2 _
                      | x :: l' => Forall_cons_2 _ _ _ (error_nested_ind x) (go l')
                      end) es)
  | snoozeError d => HSnooze d
  | panicError v st => HPanic v st
  end.
End error_ind.

(** [occurs x e]: [x] is a node of the tree [e] reached by unwrapping. *)
Inductive occurs (x : error) : error -> Prop :=
| occurs_here : occurs x x
| occurs_under t es e : e ∈ es -> occurs x e -> occurs x (Wrapf t es).

Lemma firstSome_Some {A B} (f : A -> option B) l b :
  firstSome f l = Some b -> exists x, x ∈ l /\ f x = Some b.
Proof.
  induction l as [|x l IH]; simpl; [done|]. destruct (f x) eqn:E.
  - intros [= ->]. exists x. split; [left|done].
  - intros H. destruct (IH H) as (y & ? & ?). exists y. split; [by right|done].
Qed.

Lemma firstSome_None {A B} (f : A -> option B) l :
  firstSome f l = None <-> Forall (fun x => f x = None) l.
Proof.
  induction l as [|x l IH]; simpl; [by split; constructor|]. rewrite Forall_cons.
  destruct (f x); [split; [done|naive_solver]|]. rewrite IH. naive_solver.
Qed.

Lemma errorsIs_iff e s :
  errorsIs e s = true <->
  occurs (Sent s) e \/ (s = ErrSnoozed /\ exists d, occurs (snoozeError d) e).
Proof.
  induction e as [s'|t|t es IH|d|v st] using error_nested_ind; simpl.
  - rewrite bool_decide_eq_true. split.
    + intros ->. left. constructor.
    + intros [H|(-> & d & H)]; inversion H; done.
  - split; [done|]. intros [H|(-> & d & H)]; inversion H.
  - rewrite existsb_exists. rewrite Forall_forall in IH. split.
    + intros (x & Hx & Hs). apply list_elem_of_In in Hx.
      apply (IH x Hx) in Hs as [H|(-> & d & H)]; [left|right; split; [done|exists d]];
        by econstructor.
    + intros H. assert (exists x, x ∈ es /\
        (occurs (Sent s) x \/ (s = ErrSnoozed /\ exists d, occurs (snoozeError d) x)))
        as (x & Hx & Ho).
      { destruct H as [H|(-> & d & H)]; inversion H; subst; eauto 10. }
      exists x. split; [by apply list_elem_of_In|]. by apply IH.
  - rewrite bool_decide_eq_true. split.
    + intros <-. right. split; [done|]. exists d. constructor.
    + intros [H|(-> & d' & H)]; inversion H; done.
  - split; [done|]. intros [H|(-> & d & H)]; inversion H.
Qed.

Lemma asSnooze_occurs e d : asSnooze e = Some d -> occurs (snoozeError d) e.
Proof.
  induction e as [s'|t|t es IH|d'|v st] using error_nested_ind; simpl; try done.
  - intros H. apply firstSome_Some in H as (x & Hx & Hs).
    rewrite Forall_forall in IH. econstructor; [done|]. by apply IH.
  - intros [= ->]. constructor.
Qed.

Lemma asSnooze_None e : asSnooze e = None -> forall d, ~ occurs (snoozeError d) e.
Proof.
  induction e as [s'|t|t es IH|d'|v st] using error_nested_ind; simpl; intros H d Ho;
    inversion Ho; subst; try done.
  apply firstSome_None in H. rewrite Forall_forall in H, IH. naive_solver.
Qed.

Lemma asPanic_occurs e st : asPanic e = Some st -> exists v, occurs (panicError v st) e.
Proof.
  induction e as [s'|t|t es IH|d'|v st'] using error_nested_ind; simpl; try done.
  - intros H. apply firstSome_Some in H as (x & Hx & Hs).
    rewrite Forall_forall in IH. destruct (IH x Hx Hs) as [v Hv]. exists v. by econstructor.
  - intros [= ->]. exists v. constructor.
Qed.

(** The durations inside an error are the ones [Snooze] put there: the type is
    not exported, so no other package can build a negative one. *)
Definition snoozesFromSnooze (e : error) : Prop :=
  forall d, occurs (snoozeError d) e -> 0 <= d.

(** ** Theorems *)

(** Classification reads the whole error tree and nothing else: a job is cancelled exactly
    when [ErrCancelled] is somewhere under the error, whatever else is there; it is
    snoozed exactly when it is not cancelled and a snooze or [ErrSnoozed] is there; otherwise
    it failed.  The deferral is never negative, and is zero unless the job is snoozed. *)
Theorem classifyOutcome_spec e :
  ((classifyOutcome e).1 = outcomeCancelled <-> occurs (Sent ErrCancelled) e) /\
  ((classifyOutcome e).1 = outcomeSnoozed <->
     ~ occurs (Sent ErrCancelled) e /\
     (occurs (Sent ErrSnoozed) e \/ exists d, occurs (snoozeError d) e)) /\
  ((classifyOutcome e).1 <> outcomeSnoozed -> (classifyOutcome e).2 = 0) /\
  (snoozesFromSnooze e -> 0 <= (classifyOutcome e).2).
Proof.
  pose proof (errorsIs_iff e ErrCancelled) as HC. pose proof (errorsIs_iff e ErrSnoozed) as HS.
  unfold classifyOutcome. destruct (errorsIs e ErrCancelled); simpl in *.
  - assert (occurs (Sent ErrCancelled) e) by naive_solver. split_all; naive_solver lia.
  - assert (~ occurs (Sent ErrCancelled) e) by naive_solver.
    destruct (asSnooze e) as [d|] eqn:E; simpl.
    + apply asSnooze_occurs in E. unfold snoozesFromSnooze. split_all; naive_solver.
    + pose proof (asSnooze_None e E) as HN.
      destruct (errorsIs e ErrSnoozed); simpl; split_all; naive_solver lia.
Qed.

(** Adding context with one [%w] never changes what an error asks for, nor the
    panic trace it carries, and what [Cancel] and [Snooze] build is classified as
    what it says, also when a cancelled job's reason is itself a snooze. *)
Theorem wrapping_preserves_outcome t e d reason :
  classifyOutcome (Wrapf t [e]) = classifyOutcome e /\
  stackOf (Wrapf t [e]) = stackOf e /\
  classifyOutcome (Cancel reason) = (outcomeCancelled, 0) /\
  classifyOutcome (Snooze d) = (outcomeSnoozed, Z.max 0 d).
Proof.
  unfold classifyOutcome, stackOf, Cancel, Snooze. simpl. rewrite !orb_false_r.
  split_all.
  - by destruct (errorsIs e ErrCancelled), (asSnooze e).
  - by destruct (asPanic e).
  - by destruct reason.
  - destruct (Z.ltb_spec d 0); f_equal; lia.
Qed.
