(* ===== verification/GoRuntime.v ===== *)
(** * GoRuntime: panics, contexts, logs and floating point

    What the client uses of the Go runtime: a call that returns or panics,
    [recover], a context with its deadline, the records a logger receives, and
    IEEE 754 binary64 arithmetic. *)

From S2P Require Import Prelude GoTime.

(** ** Panics *)

(** A call returns, or unwinds with a panic value (kept as its text). *)
Inductive outcome (A : Type) :=
| Returns (a : A)
| Panics (value : string).
Arguments Returns {A} _.
Arguments Panics {A} _.

(** ** Contexts *)

Record Ctx := MkCtx { ctxCancelled : bool; ctxDeadline : option Time }.

Definition Background : Ctx := MkCtx false None.

(** [ctx.Err() != nil] at the instant [now]. *)
Definition ctxDone (now : Time) (c : Ctx) : bool :=
  ctxCancelled c || match ctxDeadline c with Some t => t <=? now | None => false end.

(** [context.WithTimeout]: never later than the parent's deadline. *)
Definition WithTimeout (now : Time) (c : Ctx) (d : Duration) : Ctx :=
  MkCtx (ctxCancelled c)
    (Some (match ctxDeadline c with Some t => Z.min t (now + d) | None => now + d end)).

(** [context.WithoutCancel]: neither the cancellation nor the deadline of the
    parent. *)
Definition WithoutCancel (c : Ctx) : Ctx := MkCtx false None.

(** ** Logs *)

Inductive Level := LevelDebug | LevelInfo | LevelWarn | LevelError.

(** A record as far as the theorems speak of it: of its attributes, the id of the job it is about. *)
Record LogRecord := { logLevel : Level; logMsg : string; logJob : option Z }.

(** What a goroutine observes besides shared state: the clock, and the records
    its logger has received. *)
Record World := MkWorld { clock : Time; logs : list LogRecord }.

Definition logTo (w : World) (l : Level) (msg : string) (job : option Z) : World :=
  MkWorld (clock w) (logs w ++ [{| logLevel := l; logMsg := msg; logJob := job |}]).

(** ** Quoted text *)

Definition hexDigit (n : Z) : ascii :=
  if n <? 10 then digit n else ascii_of_nat (87 + Z.to_nat n).

Definition quoteChar (c : ascii) : string :=
  let n := Z.of_nat (nat_of_ascii c) in
  let bs := ascii_of_nat 92 in
  let esc (x : ascii) := String bs (String x "") in
  if n =? 34 then esc c
  else if n =? 92 then esc c
  else if n =? 7 then esc "a"%char
  else if n =? 8 then esc "b"%char
  else if n =? 12 then esc "f"%char
  else if n =? 10 then esc "n"%char
  else if n =? 13 then esc "r"%char
  else if n =? 9 then esc "t"%char
  else if n =? 11 then esc "v"%char
  else if (n <? 32) || (n =? 127)
  then esc "x"%char +:+ String (hexDigit (n / 16)) (String (hexDigit (n mod 16)) "")
  else String c "".

Fixpoint quoteBody (s : string) : string :=
  match s with
  | "" => ""
  | String c s' => quoteChar c +:+ quoteBody s'
  end.

(** The [%q] verb; bytes above 127 are kept as they are. *)
Definition quote (s : string) : string :=
  let q := String (ascii_of_nat 34) "" in q +:+ quoteBody s +:+ q.

(** ** binary64

    A finite float is [mant * 2 ^ expo].  Results round to 53 significant bits,
    ties to even.  Overflow to infinity and the subnormal range are out of
    reach of what the source computes. *)

Record float64 := MkFloat { mant : Z; expo : Z }.

(** [m / 2^k] rounded to nearest, ties to even. *)
Definition rne (m k : Z) : Z :=
  let q := m / 2 ^ k in
  let r := m mod 2 ^ k in
  let half := 2 ^ (k - 1) in
  if r <? half then q
  else if half <? r then q + 1
  else if Z.even q then q else q + 1.

Definition fround (f : float64) : float64 :=
  let k := Z.log2 (Z.abs (mant f)) - 52 in
  if k <=? 0 then f else MkFloat (rne (mant f) k) (expo f + k).

Definition fmul (f g : float64) : float64 :=
  fround (MkFloat (mant f * mant g) (expo f + expo g)).

Definition fadd (f g : float64) : float64 :=
  let e := Z.min (expo f) (expo g) in
  fround (MkFloat (mant f * 2 ^ (expo f - e) + mant g * 2 ^ (expo g - e)) e).

(** The quotient, with a last bit that stands for what is left of it. *)
Definition fdiv (f g : float64) : float64 :=
  let num := mant f * 2 ^ 120 in
  let q := num / mant g in
  fround (MkFloat (2 * q + if num mod mant g =? 0 then 0 else 1) (expo f - expo g - 121)).

(** [float64(n)] *)
Definition ofInt (n : Z) : float64 := fround (MkFloat n 0).

Definition fzero : float64 := MkFloat 0 0.

(** [Duration.Seconds]: whole seconds and the rest, each converted and then added. *)
Definition Seconds (d : Duration) : float64 :=
  fadd (ofInt (d ÷ Second)) (fdiv (ofInt (Z.rem d Second)) (ofInt Second)).

(** [int64(f)]: towards zero.  A value that does not fit is left to the
    machine; amd64 answers the smallest integer. *)
Definition toInt64 (f : float64) : Z :=
  let z := if 0 <=? expo f then mant f * 2 ^ expo f else mant f ÷ 2 ^ (- expo f) in
  if (- 2 ^ 63 <=? z) && (z <? 2 ^ 63) then z else - 2 ^ 63.

(** *** Rounding error *)

(** The value scaled by [2^200], an integer for every exponent used here. *)
Definition scaled (f : float64) : Z := mant f * 2 ^ (expo f + 200).

Definition fine (f : float64) : Prop := -200 <= expo f.

Lemma rne_err m k : 0 < k -> 2 * Z.abs (rne m k * 2 ^ k - m) <= 2 ^ k.
Proof.
  intros Hk. unfold rne.
  assert (2 ^ k = 2 * 2 ^ (k - 1)) as Hh
    by (rewrite <- Z.pow_succ_r by lia; f_equal; lia).
  assert (0 < 2 ^ (k - 1)) as Hpos by (apply Z.pow_pos_nonneg; lia).
  pose proof (Z.div_mod m (2 ^ k)) as Hdm.
  pose proof (Z.mod_pos_bound m (2 ^ k)) as Hmb.
  set (q := m / 2 ^ k) in *. set (r := m mod 2 ^ k) in *. set (h := 2 ^ (k - 1)) in *.
  rewrite Hh in *. destruct (Z.ltb_spec r h); [nia|].
  destruct (Z.ltb_spec h r); [nia|]. destruct (Z.even q); nia.
Qed.

(** Rounding is within one part in [2^53]. *)
Lemma fround_err f :
  fine f -> fine (fround f) /\
  2 ^ 53 * Z.abs (scaled (fround f) - scaled f) <= Z.abs (scaled f).
Proof.
  intros Hf. unfold fround, fine, scaled in *.
  destruct (Z.leb_spec (Z.log2 (Z.abs (mant f)) - 52) 0) as [Hk|Hk];
    [split; [done|]; rewrite Z.sub_diag; simpl; lia|].
  set (k := Z.log2 (Z.abs (mant f)) - 52) in *. cbn [mant expo]. split; [lia|].
  assert (mant f <> 0) as Hm0 by (intros H0; subst k; rewrite H0 in Hk; simpl in Hk; lia).
  pose proof (rne_err (mant f) k Hk) as He.
  assert (2 ^ (k + 52) <= Z.abs (mant f)) as Hlow.
  { replace (k + 52) with (Z.log2 (Z.abs (mant f))) by (subst k; lia). apply Z.log2_spec. lia. }
  rewrite Z.pow_add_r in Hlow by lia.
  replace (expo f + k + 200) with (k + (expo f + 200)) by lia. rewrite (Z.pow_add_r 2 k) by lia.
  assert (0 < 2 ^ (expo f + 200)) as Hs by (apply Z.pow_pos_nonneg; lia).
  set (S := 2 ^ (expo f + 200)) in *. set (p := 2 ^ k) in *. set (x := rne (mant f) k) in *.
  replace (x * (p * S) - mant f * S) with ((x * p - mant f) * S) by ring.
  rewrite !Z.abs_mul, (Z.abs_eq S) by lia. nia.
Qed.

(** A number of at most 53 bits is exact. *)
Lemma fround_exact f : Z.abs (mant f) < 2 ^ 53 -> fround f = f.
Proof.
  intros H. unfold fround. destruct (Z.leb_spec (Z.log2 (Z.abs (mant f)) - 52) 0); [done|].
  assert (Z.abs (mant f) <> 0) by (intros E; rewrite E in *; simpl in *; lia).
  assert (Z.log2 (Z.abs (mant f)) < 53) by (apply Z.log2_lt_pow2; lia). lia.
Qed.

Lemma fmul_exact a b : Z.abs (a * b) < 2 ^ 53 -> fmul (MkFloat a 0) (MkFloat b 0) = MkFloat (a * b) 0.
Proof. intros H. unfold fmul. simpl. by apply fround_exact. Qed.
