(* ===== verification/GoText.v ===== *)
(** * GoText: the string functions the cron grammar reads with

    [strings.Fields], [strings.Cut], [strings.Split], [strings.Join],
    [strconv.Atoi] and [time.ParseDuration], on byte strings.  White space is the
    ASCII one. *)

From S2P Require Import Prelude GoTime GoRuntime.

(** ** Splitting *)

Definition isSpace (c : ascii) : bool :=
  let n := nat_of_ascii c in
  bool_decide (n = 32 \/ 9 <= n <= 13)%nat.

(** [cur] is the field being read. *)
Fixpoint fieldsFrom (cur : string) (s : string) : list string :=
  match s with
  | "" => if String.eqb cur "" then [] else [cur]
  | String c s' =>
      if isSpace c
      then if String.eqb cur "" then fieldsFrom "" s' else cur :: fieldsFrom "" s'
      else fieldsFrom (cur +:+ String c "") s'
  end.

Definition Fields (s : string) : list string := fieldsFrom "" s.

(** [strings.Cut] around one byte. *)
Fixpoint Cut (sep : ascii) (s : string) : string * string * bool :=
  match s with
  | "" => ("", "", false)
  | String c s' =>
      if Ascii.eqb c sep then ("", s', true)
      else let '(before, after, found) := Cut sep s' in (String c before, after, found)
  end.

(** [strings.SplitSeq]: always at least one part. *)
Fixpoint Split (sep : ascii) (s : string) : list string :=
  match s with
  | "" => [""]
  | String c s' =>
      if Ascii.eqb c sep then "" :: Split sep s'
      else match Split sep s' with
           | p :: ps => String c p :: ps
           | [] => [String c ""]
           end
  end.

Fixpoint Join (sep : string) (parts : list string) : string :=
  match parts with
  | [] => ""
  | [p] => p
  | p :: rest => p +:+ sep +:+ Join sep rest
  end.

(** ** Numbers *)

Definition digitVal (c : ascii) : option Z :=
  let n := Z.of_nat (nat_of_ascii c) in
  if (48 <=? n) && (n <=? 57) then Some (n - 48) else None.

(** The value of a non-empty string of digits. *)
Fixpoint decimal (acc : Z) (s : string) : option Z :=
  match s with
  | "" => Some acc
  | String c s' =>
      match digitVal c with
      | Some d => decimal (acc * 10 + d) s'
      | None => None
      end
  end.

(** [strconv.Atoi]: an optional sign and decimal digits, within [int64]. *)
Definition Atoi (s : string) : option Z :=
  let '(neg, body) :=
    match s with
    | String c s' => if Ascii.eqb c "-"%char then (true, s')
                     else if Ascii.eqb c "+"%char then (false, s') else (false, s)
    | "" => (false, s)
    end in
  if String.eqb body "" then None
  else match decimal 0 body with
       | None => None
       | Some n =>
           let v := if neg : bool then - n else n in
           if (- 2 ^ 63 <=? v) && (v <? 2 ^ 63) then Some v else None
       end.

(** ** Durations *)

(** [leadingInt]: the digits at the front; [None] on overflow. *)
Fixpoint leadingInt (x : Z) (s : string) : option (Z * string) :=
  match s with
  | "" => Some (x, s)
  | String c s' =>
      match digitVal c with
      | None => Some (x, s)
      | Some d =>
          if 2 ^ 63 / 10 <? x then None
          else let x' := x * 10 + d in
               if 2 ^ 63 <? x' then None else leadingInt x' s'
      end
  end.

(** [leadingFraction]: the digits that fit, and the power of ten they count in. *)
Fixpoint leadingFraction (x scale : Z) (overflow : bool) (s : string) : Z * Z * string :=
  match s with
  | "" => (x, scale, s)
  | String c s' =>
      match digitVal c with
      | None => (x, scale, s)
      | Some d =>
          if overflow then leadingFraction x scale true s'
          else if (2 ^ 63 - 1) / 10 <? x then leadingFraction x scale true s'
          else let y := x * 10 + d in
               if 2 ^ 63 <? y then leadingFraction x scale true s'
               else leadingFraction y (scale * 10) false s'
      end
  end.

Definition startsNumber (c : ascii) : bool :=
  Ascii.eqb c "."%char || match digitVal c with Some _ => true | None => false end.

(** The unit: everything up to the next digit or point. *)
Fixpoint takeUnit (s : string) : string * string :=
  match s with
  | "" => ("", "")
  | String c s' =>
      if startsNumber c then ("", s)
      else let '(u, rest) := takeUnit s' in (String c u, rest)
  end.

Definition unitMap (u : string) : option Z :=
  if String.eqb u "ns" then Some 1
  else if String.eqb u "us" || String.eqb u "µs" || String.eqb u "μs" then Some 1000
  else if String.eqb u "ms" then Some Millisecond
  else if String.eqb u "s" then Some Second
  else if String.eqb u "m" then Some Minute
  else if String.eqb u "h" then Some Hour
  else None.

(** [float64(f) * (float64(unit) / scale)], truncated. *)
Definition fractionOf (f unit scale : Z) : Z :=
  toInt64 (fmul (ofInt f) (fdiv (ofInt unit) (ofInt scale))).

(** One number with its unit, in nanoseconds, and the rest. *)
Definition durationPart (s : string) : option (Z * string) :=
  match s with
  | "" => None
  | String c _ =>
      if negb (startsNumber c) then None
      else match leadingInt 0 s with
           | None => None
           | Some (v, s1) =>
               let pre := negb (String.eqb s s1) in
               let '(f, scale, s2, post) :=
                 match s1 with
                 | String c1 s1' =>
                     if Ascii.eqb c1 "."%char
                     then let '(f, scale, s2) := leadingFraction 0 1 false s1' in
                          (f, scale, s2, negb (String.eqb s1' s2))
                     else (0, 1, s1, false)
                 | "" => (0, 1, s1, false)
                 end in
               if negb pre && negb post then None
               else
                 let '(u, rest) := takeUnit s2 in
                 match unitMap u with
                 | None => None
                 | Some unit =>
                     if 2 ^ 63 / unit <? v then None
                     else
                       let v' := v * unit + (if 0 <? f then fractionOf f unit scale else 0) in
                       if 2 ^ 63 <? v' then None else Some (v', rest)
                 end
           end
  end.

(** The loop over the parts; each consumes a byte at least, so the length of
    the text is enough fuel. *)
Fixpoint durationParts (fuel : nat) (d : Z) (s : string) : option Z :=
  match s with
  | "" => Some d
  | _ =>
      match fuel with
      | O => None
      | S fuel' =>
          match durationPart s with
          | None => None
          | Some (v, rest) => if 2 ^ 63 <? d + v then None else durationParts fuel' (d + v) rest
          end
      end
  end.

Definition ParseDuration (text : string) : option Duration :=
  let '(neg, s) :=
    match text with
    | String c s' => if Ascii.eqb c "-"%char then (true, s')
                     else if Ascii.eqb c "+"%char then (false, s') else (false, text)
    | "" => (false, text)
    end in
  if String.eqb s "0" then Some 0
  else if String.eqb s "" then None
  else match durationParts (String.length s) 0 s with
       | None => None
       | Some d => if neg : bool then Some (- d)
                   else if 2 ^ 63 - 1 <? d then None else Some d
       end.

Example parse_mixed : ParseDuration "1h15m30.918s" = Some (75 * Minute + 30918 * Millisecond).
Proof. vm_compute. reflexivity. Qed.

Example parse_half : ParseDuration "-1.5h" = Some (- (90 * Minute)).
Proof. vm_compute. reflexivity. Qed.

Example parse_bad : (ParseDuration "1", ParseDuration "1d", ParseDuration ".s") = (None, None, None).
Proof. vm_compute. reflexivity. Qed.

Example atoi_signs : (Atoi "-12", Atoi "+7", Atoi "9223372036854775808") = (Some (-12), Some 7, None).
Proof. vm_compute. reflexivity. Qed.

(** ** What [itoa] prints, [Atoi] reads *)

Lemma digitVal_char d : (d < 10)%N -> digitVal (pretty_N_char d) = Some (Z.of_N d).
Proof.
  intros Hd. assert (d ∈ [0; 1; 2; 3; 4; 5; 6; 7; 8; 9]%N) as Hin
    by (rewrite !elem_of_cons; lia).
  repeat (apply elem_of_cons in Hin as [->|Hin]; [reflexivity|]). by apply elem_of_nil in Hin.
Qed.

Lemma decimal_go n s : decimal 0 (pretty_N_go n s) = decimal (Z.of_N n) s.
Proof.
  revert s. induction (N.lt_wf_0 n) as [n _ IH]. intros s.
  destruct (N.eq_dec n 0) as [->|Hn]; [by rewrite pretty_N_go_0|].
  rewrite pretty_N_go_step, IH by (lia || apply N.div_lt; lia).
  cbn [decimal]. rewrite digitVal_char by (apply N.mod_lt; lia).
  f_equal. pose proof (N.div_mod n 10). lia.
Qed.

(** It starts with a digit. *)
Lemma pretty_go_digit n s : (0 < n)%N -> exists d t, (d < 10)%N /\ pretty_N_go n s = String (pretty_N_char d) t.
Proof.
  revert s. induction (N.lt_wf_0 n) as [n _ IH]. intros s Hn. rewrite pretty_N_go_step by done.
  destruct (N.eq_dec (n / 10) 0) as [H0|H0].
  - rewrite H0, pretty_N_go_0. exists (n mod 10)%N, s. split; [apply N.mod_lt; lia | done].
  - apply IH; [apply N.div_lt; lia | by apply N.neq_0_lt_0].
Qed.

Lemma char_no_sign d : (d < 10)%N ->
  Ascii.eqb (pretty_N_char d) "-" = false /\ Ascii.eqb (pretty_N_char d) "+" = false.
Proof.
  intros Hd. assert (d ∈ [0; 1; 2; 3; 4; 5; 6; 7; 8; 9]%N) as Hin
    by (rewrite !elem_of_cons; lia).
  repeat (apply elem_of_cons in Hin as [->|Hin]; [by split|]). by apply elem_of_nil in Hin.
Qed.

Lemma Atoi_itoa n : - 2 ^ 63 <= n < 2 ^ 63 -> Atoi (itoa n) = Some n.
Proof.
  intros Hn. unfold itoa, pretty, pretty_Z, pretty, pretty_positive, pretty, pretty_N.
  destruct n as [|p|p]; [reflexivity| |]; rewrite decide_False by done.
  - destruct (pretty_go_digit (N.pos p) "" ltac:(lia)) as (d & t & Hd & Ht).
    pose proof (decimal_go (N.pos p) "") as Hdec. rewrite Ht in *. destruct (char_no_sign d Hd) as [H1 H2].
    unfold Atoi. rewrite H1, H2, Hdec. cbn [decimal String.eqb]. change (Z.of_N (N.pos p)) with (Z.pos p).
    destruct (Z.leb_spec (- 2 ^ 63) (Z.pos p)); [|lia]. destruct (Z.ltb_spec (Z.pos p) (2 ^ 63)); [done|lia].
  - destruct (pretty_go_digit (N.pos p) "" ltac:(lia)) as (d & t & Hd & Ht).
    pose proof (decimal_go (N.pos p) "") as Hdec. rewrite Ht in *.
    change ("-" +:+ String (pretty_N_char d) t) with (String "-" (String (pretty_N_char d) t)).
    unfold Atoi. rewrite Ascii.eqb_refl, Hdec. cbn [decimal String.eqb]. change (Z.of_N (N.pos p)) with (Z.pos p).
    change (- Z.pos p) with (Z.neg p).
    destruct (Z.leb_spec (- 2 ^ 63) (Z.neg p)); [|lia]. destruct (Z.ltb_spec (Z.neg p) (2 ^ 63)); [done|lia].
Qed.

Lemma itoa_ne n : itoa n <> "".
Proof.
  unfold itoa, pretty, pretty_Z, pretty, pretty_positive, pretty, pretty_N.
  destruct n as [|p|p]; [done| |done]. rewrite decide_False by done.
  by destruct (pretty_go_digit (N.pos p) "" ltac:(lia)) as (d & t & _ & ->).
Qed.
