(* ===== verification/DriverSpec.v ===== *)
(** * DriverSpec: the storage contract

    Models internal/driver/driver.go: the rows, leases and parameters that
    cross the contract, and the contract itself as a type class.  The laws of
    the class are what the client relies on; both drivers discharge them. *)

From S2P Require Import Prelude GoTime GoError GoRuntime.

(** ** Job states *)

Inductive JobState :=
| StateAvailable | StateScheduled | StateRunning | StateRetryable
| StateCompleted | StateCancelled | StateDead.

#[export] Instance JobState_eq_dec : EqDecision JobState.
Proof. solve_decision. Defined.

Definition stateString (s : JobState) : string :=
  match s with
  | StateAvailable => "available"
  | StateScheduled => "scheduled"
  | StateRunning => "running"
  | StateRetryable => "retryable"
  | StateCompleted => "completed"
  | StateCancelled => "cancelled"
  | StateDead => "dead"
  end.

(** ** JSON payloads

    A [json.RawMessage] is known by the value it denotes, or is a text that is
    not JSON.  Unmarshalling into a [[]json.RawMessage] accepts an array and
    null; marshalling one fails when an element is not JSON. *)

Inductive json :=
| JNull
| JBool (b : bool)
| JNumber (n : Z)
| JString (s : string)
| JArray (l : list json)
| JObject (fields : list (string * json)).

Inductive RawMessage :=
| Raw (j : json)
| Garbage (text : string).

Definition unmarshalList (m : RawMessage) : option (list RawMessage) :=
  match m with
  | Raw (JArray l) => Some (Raw <$> l)
  | Raw JNull => Some []
  | _ => None
  end.

Definition rawValue (m : RawMessage) : option json :=
  match m with Raw j => Some j | Garbage _ => None end.

Definition marshalList (l : list RawMessage) : option RawMessage :=
  match mapM rawValue l with
  | Some js => Some (Raw (JArray js))
  | None => None
  end.

(** ** Rows *)

Record Lease := MkLease { leaseID : Z; leaseAttempt : Z }.

#[export] Instance Lease_eq_dec : EqDecision Lease.
Proof. solve_decision. Defined.

Record InsertParams := {
  ipKind : string;
  ipQueue : string;
  ipArgs : string;
  ipScheduledAt : Time;
  ipUniqueKey : string
}.

Record JobRow := MkJobRow {
  ID : Z;
  Kind : string;
  Queue : string;
  Args : string;
  State : JobState;
  Attempt : Z;
  MaxAttempts : Z;
  Errors : RawMessage;
  ScheduledAt : Time;
  LeasedUntil : option Time;
  CreatedAt : Time;
  FinalizedAt : option Time;
  UniqueKey : string
}.

(** One recorded failure, and its JSON encoding: [Time.MarshalJSON] refuses a
    year outside 0 to 9999, and an empty trace is omitted. *)
Record AttemptError := {
  aeAttempt : Z;
  aeAt : Time;
  aeError : string;
  aeTrace : string
}.

Definition attemptFields (a : AttemptError) : list (string * json) :=
  [("attempt", JNumber (aeAttempt a));
   ("at", JString (formatRFC3339Nano (aeAt a)));
   ("error", JString (aeError a))] ++
  (if String.eqb (aeTrace a) "" then [] else [("trace", JString (aeTrace a))]).

Definition marshalAttemptError (a : AttemptError) : res error RawMessage :=
  if jsonYearOk (aeAt a) then Ok (Raw (JObject (attemptFields a)))
  else Err (Msg "json: error calling MarshalJSON for type time.Time").

Record QueueDepth := { qdQueue : string; qdState : string; qdCount : Z }.

Record QueueAge := { qaQueue : string; AgeSeconds : float64 }.

Record Stats := { Depths : list QueueDepth; Oldest : list QueueAge }.

Record ListJobsParams := { ljQueue : string; ljState : string; ljLimit : Z }.

(** [DefaultLeaseDuration] *)
Definition DefaultLeaseDuration : Duration := Minute.

(** ** Row updates *)

Definition setState (s : JobState) (r : JobRow) : JobRow :=
  MkJobRow (ID r) (Kind r) (Queue r) (Args r) s (Attempt r) (MaxAttempts r) (Errors r)
    (ScheduledAt r) (LeasedUntil r) (CreatedAt r) (FinalizedAt r) (UniqueKey r).
Definition setAttempt (a : Z) (r : JobRow) : JobRow :=
  MkJobRow (ID r) (Kind r) (Queue r) (Args r) (State r) a (MaxAttempts r) (Errors r)
    (ScheduledAt r) (LeasedUntil r) (CreatedAt r) (FinalizedAt r) (UniqueKey r).
Definition setErrors (e : RawMessage) (r : JobRow) : JobRow :=
  MkJobRow (ID r) (Kind r) (Queue r) (Args r) (State r) (Attempt r) (MaxAttempts r) e
    (ScheduledAt r) (LeasedUntil r) (CreatedAt r) (FinalizedAt r) (UniqueKey r).
Definition setScheduledAt (t : Time) (r : JobRow) : JobRow :=
  MkJobRow (ID r) (Kind r) (Queue r) (Args r) (State r) (Attempt r) (MaxAttempts r) (Errors r)
    t (LeasedUntil r) (CreatedAt r) (FinalizedAt r) (UniqueKey r).
Definition setLeasedUntil (t : option Time) (r : JobRow) : JobRow :=
  MkJobRow (ID r) (Kind r) (Queue r) (Args r) (State r) (Attempt r) (MaxAttempts r) (Errors r)
    (ScheduledAt r) t (CreatedAt r) (FinalizedAt r) (UniqueKey r).
Definition setFinalizedAt (t : option Time) (r : JobRow) : JobRow :=
  MkJobRow (ID r) (Kind r) (Queue r) (Args r) (State r) (Attempt r) (MaxAttempts r) (Errors r)
    (ScheduledAt r) (LeasedUntil r) (CreatedAt r) t (UniqueKey r).

(** The lease a claimed row gives its holder. *)
Definition leaseOf (r : JobRow) : Lease := MkLease (ID r) (Attempt r).

(** ** The lifecycle of a job, abstractly

    What the contract lets happen to one row.  The detailed drivers are shown
    to do nothing else. *)

Definition waitingState (s : JobState) : Prop :=
  s = StateAvailable \/ s = StateRetryable \/ s = StateScheduled.

Definition finalState (s : JobState) : Prop :=
  s = StateCompleted \/ s = StateCancelled \/ s = StateDead.

(** The array of recorded errors grew by one entry, or did not change. *)
Definition errorsGrow (e e' : RawMessage) : Prop :=
  e' = e \/ exists l d, e = Raw (JArray l) /\ e' = Raw (JArray (l ++ [d])).

(** What no operation of the contract changes. *)
Definition sameJob (r r' : JobRow) : Prop :=
  ID r' = ID r /\ Kind r' = Kind r /\ Queue r' = Queue r /\ Args r' = Args r /\
  MaxAttempts r' = MaxAttempts r /\ CreatedAt r' = CreatedAt r /\ UniqueKey r' = UniqueKey r.

Inductive lifecycle (r r' : JobRow) : Prop :=
| lc_claim until_ :
    waitingState (State r) -> State r' = StateRunning -> Attempt r' = Attempt r + 1 ->
    LeasedUntil r' = Some until_ -> Errors r' = Errors r -> ScheduledAt r' = ScheduledAt r ->
    FinalizedAt r' = FinalizedAt r -> lifecycle r r'
| lc_lease until_ :
    State r = StateRunning -> State r' = StateRunning -> Attempt r' = Attempt r ->
    LeasedUntil r' = Some until_ -> Errors r' = Errors r -> ScheduledAt r' = ScheduledAt r ->
    FinalizedAt r' = FinalizedAt r -> lifecycle r r'
| lc_finalize at_ :
    State r = StateRunning -> finalState (State r') -> Attempt r' = Attempt r ->
    LeasedUntil r' = None -> errorsGrow (Errors r) (Errors r') ->
    ScheduledAt r' = ScheduledAt r -> FinalizedAt r' = Some at_ -> lifecycle r r'
| lc_retry :
    State r = StateRunning -> State r' = StateRetryable -> Attempt r' = Attempt r ->
    LeasedUntil r' = None -> errorsGrow (Errors r) (Errors r') ->
    FinalizedAt r' = FinalizedAt r -> lifecycle r r'
| lc_snooze :
    State r = StateRunning -> State r' = StateScheduled -> Attempt r' = Z.max (Attempt r - 1) 0 ->
    LeasedUntil r' = None -> Errors r' = Errors r -> FinalizedAt r' = FinalizedAt r ->
    lifecycle r r'
| lc_operator_cancel at_ :
    (waitingState (State r) \/ State r = StateDead) -> State r' = StateCancelled ->
    Attempt r' = Attempt r -> LeasedUntil r' = None -> Errors r' = Errors r ->
    ScheduledAt r' = ScheduledAt r -> FinalizedAt r' = Some at_ -> lifecycle r r'
| lc_redrive :
    State r = StateDead -> State r' = StateAvailable -> Attempt r' = 0 ->
    LeasedUntil r' = None -> Errors r' = Errors r -> FinalizedAt r' = None -> lifecycle r r'.

(** One operation changes a row by one such step, or not at all. *)
Definition lifecycleStep (r r' : JobRow) : Prop :=
  r' = r \/ (sameJob r r' /\ lifecycle r r').

(** ** The contract as a class *)

(** A store with the operations the client and the inspector call; [now] is
    the store's own clock.  [rowAt] is the stored row of an id.  The two Tx methods act on the
    store as the caller's transaction sees it.  A store need not keep an instant, a lease
    duration or a JSON value to the last bit: [drvTime], [drvSpan] and [drvDoc] say what it
    keeps of them.  [drvUsesCtx]: whether its methods look at the context they are given. *)
Class Driver (S : Type) := {
  rowAt : S -> Z -> option JobRow;
  drvTime : Time -> Time;
  drvSpan : Duration -> Duration;
  drvDoc : json -> json;
  drvUsesCtx : bool;
  drvInsert : Time -> InsertParams -> S -> S * res error JobRow;
  drvInsertTx : Time -> InsertParams -> S -> S * res error JobRow;
  drvInsertMany : Time -> list InsertParams -> S -> S * res error (list JobRow);
  drvInsertManyTx : Time -> list InsertParams -> S -> S * res error (list JobRow);
  drvFetchAvailable : Time -> string -> Duration -> Z -> S -> S * res error (list JobRow);
  drvFetchExpired : Time -> Duration -> Z -> S -> S * res error (list JobRow);
  drvExtendLeases : Time -> list Lease -> Duration -> S -> S * option error;
  drvMarkCompleted : Time -> Lease -> S -> S * option error;
  drvMarkRetryable : Time -> Lease -> Time -> option RawMessage -> S -> S * option error;
  drvMarkDead : Time -> Lease -> option RawMessage -> S -> S * option error;
  drvMarkCancelled : Time -> Lease -> option RawMessage -> S -> S * option error;
  drvMarkSnoozed : Time -> Lease -> Time -> S -> S * option error;
  drvStats : Time -> S -> res error Stats;
  drvListJobs : ListJobsParams -> S -> res error (list JobRow);
  drvGetJob : Z -> S -> res error JobRow;
  drvOperatorCancel : Time -> Z -> S -> S * res error JobRow;
  drvRedriveDead : Time -> Z -> S -> S * res error JobRow
}.

Arguments drvTime S {_} _.
Arguments drvSpan S {_} _.
Arguments drvDoc S {_} _.
Arguments drvUsesCtx S {_}.

(** The job is running on exactly the attempt the lease names. *)
Definition leaseHeld {S} `{Driver S} (s : S) (l : Lease) (r : JobRow) : Prop :=
  rowAt s (leaseID l) = Some r /\ State r = StateRunning /\ Attempt r = leaseAttempt l.

(** Why a guarded write is refused. *)
Definition refusal (row : option JobRow) (l : Lease) : sentinel :=
  match row with
  | None => DrvNotFound
  | Some r => if decide (State r = StateRunning) then DrvLeaseLost else DrvInvalidTransition
  end.

Definition sameRows {S} `{Driver S} (s s' : S) : Prop := forall id, rowAt s' id = rowAt s id.

(** Only the row [id] changed, to [r]. *)
Definition onlyRow {S} `{Driver S} (s s' : S) (id : Z) (r : JobRow) : Prop :=
  rowAt s' id = Some r /\ forall id', id' <> id -> rowAt s' id' = rowAt s id'.

Definition appendDetail (j : json) (r : JobRow) : JobRow :=
  match Errors r with
  | Raw (JArray l) => setErrors (Raw (JArray (l ++ [j]))) r
  | _ => r
  end.

Definition completedRow (now : Time) (r : JobRow) : JobRow :=
  setLeasedUntil None (setFinalizedAt (Some now) (setState StateCompleted r)).
Definition finalizedRow (s : JobState) (now : Time) (j : json) (r : JobRow) : JobRow :=
  setLeasedUntil None (setFinalizedAt (Some now) (setState s (appendDetail j r))).
Definition retryRow (at_ : Time) (j : json) (r : JobRow) : JobRow :=
  setLeasedUntil None (setScheduledAt at_ (setState StateRetryable (appendDetail j r))).
Definition snoozedRow (at_ : Time) (r : JobRow) : JobRow :=
  setLeasedUntil None (setAttempt (Z.max (Attempt r - 1) 0)
    (setScheduledAt at_ (setState StateScheduled r))).

Definition claimedRow (now : Time) (d : Duration) (r : JobRow) : JobRow :=
  setLeasedUntil (Some (now + d)) (setAttempt (Attempt r + 1) (setState StateRunning r)).

(** Waiting in [queue] and due. *)
Definition dueIn (queue : string) (now : Time) (r : JobRow) : Prop :=
  waitingState (State r) /\ Queue r = queue /\ ScheduledAt r <= now.

(** The row a heartbeat for [ls] leaves behind. *)
Definition renewedBy (now : Time) (d : Duration) (ls : list Lease) (r : JobRow) : JobRow :=
  if decide (State r = StateRunning /\ leaseOf r ∈ ls) then setLeasedUntil (Some (now + d)) r else r.

(** An attempt number as a store hands it out. *)
Definition int32Attempt (a : Z) : Prop := 0 <= a <= MaxInt32.

(** A guarded write: applied to the held row, refused and without effect
    otherwise. *)
Definition markSpec {S} `{Driver S} (apply : JobRow -> JobRow) (l : Lease)
    (s : S) (out : S * option error) : Prop :=
  (forall r, leaseHeld s l r -> out.2 = None /\ onlyRow s out.1 (leaseID l) (apply r)) /\
  ((forall r, ~ leaseHeld s l r) -> int32Attempt (leaseAttempt l) ->
     out.1 = s /\ exists e, out.2 = Some e /\ errorsIs e (refusal (rowAt s (leaseID l)) l) = true).

(** The laws the client relies on.  [drvWf] is the store's own invariant, [drvTick] the
    resolution of its clock; errors are recorded as JSON objects. *)
Class DriverLaws (S : Type) `{Driver S} := {
  drvWf : S -> Prop;
  drvTick : Duration;
  drvTime_near : forall t, t - drvTick <= drvTime S t <= t;
  drvSpan_near : forall d, 0 <= d <= 365 * 24 * Hour -> d - drvTick <= drvSpan S d;
  rowAt_id : forall s id r, drvWf s -> rowAt s id = Some r -> ID r = id;
  running_has_lease : forall s id r, drvWf s -> rowAt s id = Some r ->
    (State r = StateRunning <-> LeasedUntil r <> None);
  markCompleted_law : forall now l s, drvWf s ->
    markSpec (completedRow (drvTime S now)) l s (drvMarkCompleted now l s);
  markRetryable_law : forall now l at_ fs s, drvWf s ->
    markSpec (retryRow (drvTime S at_) (drvDoc S (JObject fs))) l s
      (drvMarkRetryable now l at_ (Some (Raw (JObject fs))) s);
  markDead_law : forall now l fs s, drvWf s ->
    markSpec (finalizedRow StateDead (drvTime S now) (drvDoc S (JObject fs))) l s
      (drvMarkDead now l (Some (Raw (JObject fs))) s);
  markCancelled_law : forall now l fs s, drvWf s ->
    markSpec (finalizedRow StateCancelled (drvTime S now) (drvDoc S (JObject fs))) l s
      (drvMarkCancelled now l (Some (Raw (JObject fs))) s);
  markSnoozed_law : forall now l at_ s, drvWf s ->
    markSpec (snoozedRow (drvTime S at_)) l s (drvMarkSnoozed now l at_ s);
  markCompleted_wf : forall now l s, drvWf s -> drvWf (drvMarkCompleted now l s).1;
  markRetryable_wf : forall now l at_ fs s, drvWf s ->
    drvWf (drvMarkRetryable now l at_ (Some (Raw (JObject fs))) s).1;
  markDead_wf : forall now l fs s, drvWf s -> drvWf (drvMarkDead now l (Some (Raw (JObject fs))) s).1;
  markCancelled_wf : forall now l fs s, drvWf s ->
    drvWf (drvMarkCancelled now l (Some (Raw (JObject fs))) s).1;
  markSnoozed_wf : forall now l at_ s, drvWf s -> drvWf (drvMarkSnoozed now l at_ s).1;
  fetchExpired_law : forall now d limit s rows s', drvWf s ->
    drvFetchExpired now d limit s = (s', Ok rows) ->
    let until_ := drvTime S now + drvSpan S d in
    drvWf s' /\ NoDup (ID <$> rows) /\
    (forall r, r ∈ rows -> rowAt s' (ID r) = Some r /\ State r = StateRunning /\
       LeasedUntil r = Some until_ /\
       exists r0 t, rowAt s (ID r) = Some r0 /\ State r0 = StateRunning /\
         LeasedUntil r0 = Some t /\ t <= drvTime S now /\ r = setLeasedUntil (Some until_) r0) /\
    (forall id, id ∉ ID <$> rows -> rowAt s' id = rowAt s id);
  fetchExpired_err : forall now d limit s s' e, drvWf s ->
    drvFetchExpired now d limit s = (s', Err e) -> s' = s;
  fetchAvailable_law : forall now q d limit s rows s', drvWf s ->
    drvFetchAvailable now q d limit s = (s', Ok rows) ->
    drvWf s' /\ NoDup (ID <$> rows) /\
    (0 <= limit -> Z.of_nat (length rows) <= limit) /\
    (forall r, r ∈ rows -> rowAt s' (ID r) = Some r /\
       exists r0, rowAt s (ID r) = Some r0 /\ dueIn q (drvTime S now) r0 /\
         r = claimedRow (drvTime S now) (drvSpan S d) r0) /\
    (forall id, id ∉ ID <$> rows -> rowAt s' id = rowAt s id);
  fetchAvailable_err : forall now q d limit s s' e, drvWf s ->
    drvFetchAvailable now q d limit s = (s', Err e) -> s' = s;
  extendLeases_law : forall now ls d s, drvWf s ->
    Forall (fun l => int32Attempt (leaseAttempt l)) ls ->
    drvWf (drvExtendLeases now ls d s).1 /\
    ((drvExtendLeases now ls d s).2 = None -> forall id,
       rowAt (drvExtendLeases now ls d s).1 id =
       renewedBy (drvTime S now) (drvSpan S d) ls <$> rowAt s id);
  extendLeases_err : forall now ls d s s' e, drvExtendLeases now ls d s = (s', Some e) -> s' = s
}.
