(* ===== verification/Memdriver.v ===== *)
(** * Memdriver: the in-memory driver

    Models internal/memdriver/memdriver.go.  The state is the source's: the
    next id and the map from id to row.  Every method locks the mutex for its
    whole body, so a method is one step on that state; the two operator methods
    release it between a refusal and the second look, and take what other
    callers do there as arguments.  [time.Now] is the argument [now].  A row
    returned to the caller is a copy, which for values is the row itself. *)

From S2P Require Import Prelude GoTime GoError GoRuntime DriverSpec.

(** ** State *)

Record MemDriver := MkDriver { nextID : Z; jobs : gmap Z JobRow }.

Definition New : MemDriver := MkDriver 0 ∅.

(** The rows of [range d.jobs]; Go leaves their order open, and so does
    everything below that uses them. *)
Definition rows (d : MemDriver) : list JobRow := (map_to_list (jobs d)).*2.

(** ** Error values *)

Definition errNotFound (id : Z) : error :=
  Wrapf ("job " +:+ itoa id +:+ ": " +:+ sentinelText DrvNotFound) [Sent DrvNotFound].

Definition errWant (id : Z) (state : JobState) (want : string) : error :=
  Wrapf ("job " +:+ itoa id +:+ " is " +:+ stateString state +:+ ", want " +:+ want +:+ ": "
         +:+ sentinelText DrvInvalidTransition) [Sent DrvInvalidTransition].

Definition errLeaseLost (id attempt held : Z) : error :=
  Wrapf ("job " +:+ itoa id +:+ " is on attempt " +:+ itoa attempt +:+ ", held attempt "
         +:+ itoa held +:+ ": " +:+ sentinelText DrvLeaseLost) [Sent DrvLeaseLost].

(** ** Insertion *)

Definition jobFromParams (id : Z) (p : InsertParams) (now : Time) : JobRow :=
  let scheduledAt := if IsZero (ipScheduledAt p) then now else ipScheduledAt p in
  let state := if After scheduledAt now then StateScheduled else StateAvailable in
  {| ID := id; Kind := ipKind p; Queue := ipQueue p; Args := ipArgs p; State := state;
     Attempt := 0; MaxAttempts := 25; Errors := Raw (JArray []);
     ScheduledAt := scheduledAt; LeasedUntil := None; CreatedAt := now;
     FinalizedAt := None; UniqueKey := ipUniqueKey p |}.

Definition uniqueActive (s : JobState) : bool :=
  match s with
  | StateAvailable | StateScheduled | StateRetryable | StateRunning => true
  | _ => false
  end.

Definition sameSlot (queue kind key : string) (r : JobRow) : bool :=
  String.eqb (UniqueKey r) key && String.eqb (Queue r) queue && String.eqb (Kind r) kind.

Definition uniqueConflict (d : MemDriver) (queue kind key : string) (extra : list JobRow) : bool :=
  if String.eqb key "" then false
  else existsb (fun r => sameSlot queue kind key r && uniqueActive (State r)) (rows d)
       || existsb (sameSlot queue kind key) extra.

Definition Insert (now : Time) (p : InsertParams) (d : MemDriver) : MemDriver * res error JobRow :=
  if uniqueConflict d (ipQueue p) (ipKind p) (ipUniqueKey p) []
  then (d, Err (Sent DrvDuplicateJob))
  else
    let id := nextID d + 1 in
    let row := jobFromParams id p now in
    (MkDriver id (<[ID row := row]> (jobs d)), Ok row).

(** There is no transaction to join in memory. *)
Definition InsertTx (p : InsertParams) (d : MemDriver) : MemDriver * res error JobRow :=
  (d, Err (Sent DrvTxUnsupported)).

(** The first loop of [InsertMany]: the rows of the batch, or the conflict;
    [i] rows are already pending. *)
Fixpoint pendingRows (d : MemDriver) (now : Time) (i : nat) (pending : list JobRow)
    (batch : list InsertParams) : option (list JobRow) :=
  match batch with
  | [] => Some pending
  | p :: rest =>
      if uniqueConflict d (ipQueue p) (ipKind p) (ipUniqueKey p) pending then None
      else pendingRows d now (S i)
             (pending ++ [jobFromParams (nextID d + Z.of_nat i + 1) p now]) rest
  end.

Definition InsertMany (now : Time) (batch : list InsertParams) (d : MemDriver)
    : MemDriver * res error (list JobRow) :=
  match batch with
  | [] => (d, Ok [])
  | _ =>
      match pendingRows d now 0 [] batch with
      | None => (d, Err (Sent DrvDuplicateJob))
      | Some pending =>
          (MkDriver (nextID d + Z.of_nat (length batch))
                    (foldl (fun m r => <[ID r := r]> m) (jobs d) pending),
           Ok pending)
      end
  end.

Definition InsertManyTx (batch : list InsertParams) (d : MemDriver)
    : MemDriver * res error (list JobRow) :=
  (d, Err (Sent DrvTxUnsupported)).

(** ** Claims *)

Definition waiting (s : JobState) : bool :=
  match s with
  | StateAvailable | StateRetryable | StateScheduled => true
  | _ => false
  end.

Definition byScheduledAt (r : JobRow) : Time := ScheduledAt r.

Definition byLeasedUntil (r : JobRow) : Time :=
  match LeasedUntil r with None => zeroTime | Some t => t end.

Definition rowCmp (order : JobRow -> Time) : JobRow -> JobRow -> Z :=
  thenBy (onKey order compareZ) (onKey ID compareZ).

Definition selectRows (d : MemDriver) (order : JobRow -> Time) (keep : JobRow -> bool)
    : list JobRow :=
  SortFunc (rowCmp order) (List.filter keep (rows d)).

(** The loop of both fetches: it stops when [limit] rows are claimed, and
    changes each row in place, through the pointer the map holds. *)
Fixpoint claimLoop (f : JobRow -> JobRow) (limit : Z) (due claimed : list JobRow)
    (m : gmap Z JobRow) : gmap Z JobRow * list JobRow :=
  match due with
  | [] => (m, claimed)
  | row :: rest =>
      if Z.of_nat (length claimed) =? limit then (m, claimed)
      else claimLoop f limit rest (claimed ++ [f row]) (<[ID row := f row]> m)
  end.

Definition claimRow (now leaseFor : Z) (r : JobRow) : JobRow :=
  setLeasedUntil (Some (now + leaseFor)) (setAttempt (Attempt r + 1) (setState StateRunning r)).

Definition claimable (now : Time) (queue : string) (r : JobRow) : bool :=
  waiting (State r) && String.eqb (Queue r) queue && negb (After (ScheduledAt r) now).

Definition FetchAvailable (now : Time) (queue : string) (leaseFor : Duration) (limit : Z)
    (d : MemDriver) : MemDriver * res error (list JobRow) :=
  let due := selectRows d byScheduledAt (claimable now queue) in
  let '(m, claimed) := claimLoop (claimRow now leaseFor) limit due [] (jobs d) in
  (MkDriver (nextID d) m, Ok claimed).

Definition renewRow (until_ : Time) (r : JobRow) : JobRow := setLeasedUntil (Some until_) r.

Definition expired (now : Time) (r : JobRow) : bool :=
  match State r, LeasedUntil r with
  | StateRunning, Some t => negb (After t now)
  | _, _ => false
  end.

Definition FetchExpired (now : Time) (leaseFor : Duration) (limit : Z) (d : MemDriver)
    : MemDriver * res error (list JobRow) :=
  let due := selectRows d byLeasedUntil (expired now) in
  let '(m, reclaimed) := claimLoop (renewRow (now + leaseFor)) limit due [] (jobs d) in
  (MkDriver (nextID d) m, Ok reclaimed).

Definition extendOne (until_ : Time) (m : gmap Z JobRow) (held : Lease) : gmap Z JobRow :=
  match m !! leaseID held with
  | None => m
  | Some row =>
      if bool_decide (State row = StateRunning) && (Attempt row =? leaseAttempt held)
      then <[leaseID held := renewRow until_ row]> m
      else m
  end.

Definition ExtendLeases (now : Time) (leases : list Lease) (leaseFor : Duration) (d : MemDriver)
    : MemDriver * option error :=
  (MkDriver (nextID d) (foldl (extendOne (now + leaseFor)) (jobs d) leases), None).

(** ** Guarded transitions *)

(** [appendError]: a nil detail records nothing.  What encoding/json says of a text it cannot read or
    write is left out of the error. *)
Definition appendError (r : JobRow) (detail : option RawMessage) : res error JobRow :=
  match detail with
  | None => Ok r
  | Some e =>
      match unmarshalList (Errors r) with
      | None => Err (Msg ("decode errors array for job " +:+ itoa (ID r)))
      | Some l =>
          match marshalList (l ++ [e]) with
          | None => Err (Msg ("encode errors array for job " +:+ itoa (ID r)))
          | Some merged => Ok (setErrors merged r)
          end
      end
  end.

Definition transition (l : Lease) (apply : JobRow -> res error JobRow) (d : MemDriver)
    : MemDriver * option error :=
  match jobs d !! leaseID l with
  | None => (d, Some (errNotFound (leaseID l)))
  | Some row =>
      if negb (bool_decide (State row = StateRunning))
      then (d, Some (errWant (leaseID l) (State row) "running"))
      else if negb (Attempt row =? leaseAttempt l)
      then (d, Some (errLeaseLost (leaseID l) (Attempt row) (leaseAttempt l)))
      else match apply row with
           | Err e => (d, Some e)
           | Ok row' =>
               (MkDriver (nextID d) (<[leaseID l := setLeasedUntil None row']> (jobs d)), None)
           end
  end.

Definition finalize (now : Time) (l : Lease) (state : JobState) (detail : option RawMessage)
    : MemDriver -> MemDriver * option error :=
  transition l (fun row =>
    let? row' := appendError row detail in
    Ok (setFinalizedAt (Some now) (setState state row'))).

Definition MarkCompleted (now : Time) (l : Lease) : MemDriver -> MemDriver * option error :=
  finalize now l StateCompleted None.

Definition MarkDead (now : Time) (l : Lease) (detail : option RawMessage)
    : MemDriver -> MemDriver * option error :=
  finalize now l StateDead detail.

Definition MarkCancelled (now : Time) (l : Lease) (detail : option RawMessage)
    : MemDriver -> MemDriver * option error :=
  finalize now l StateCancelled detail.

Definition MarkRetryable (l : Lease) (retryAt : Time) (detail : option RawMessage)
    : MemDriver -> MemDriver * option error :=
  transition l (fun row =>
    let? row' := appendError row detail in
    Ok (setScheduledAt retryAt (setState StateRetryable row'))).

Definition MarkSnoozed (l : Lease) (runAt : Time) : MemDriver -> MemDriver * option error :=
  transition l (fun row =>
    Ok (setAttempt (Z.max (Attempt row - 1) 0)
         (setScheduledAt runAt (setState StateScheduled row)))).

(** ** Readings *)

Definition counted (s : JobState) : bool :=
  match s with
  | StateAvailable | StateScheduled | StateRetryable | StateRunning | StateDead => true
  | _ => false
  end.

(** One turn of the loop of [Stats] over the two maps it fills. *)
Definition statsTurn (now : Time)
    (acc : gmap (string * string) Z * gmap string Time) (row : JobRow)
    : gmap (string * string) Z * gmap string Time :=
  let '(counts, oldest) := acc in
  let key := (Queue row, stateString (State row)) in
  let counts' :=
    if counted (State row) then <[key := default 0 (counts !! key) + 1]> counts else counts in
  let oldest' :=
    if negb (waiting (State row)) || After (ScheduledAt row) now then oldest
    else match oldest !! Queue row with
         | Some since => if Before (ScheduledAt row) since
                         then <[Queue row := ScheduledAt row]> oldest else oldest
         | None => <[Queue row := ScheduledAt row]> oldest
         end in
  (counts', oldest').

Definition depthCmp : QueueDepth -> QueueDepth -> Z :=
  thenBy (onKey qdQueue compareString) (onKey qdState compareString).

Definition ageCmp : QueueAge -> QueueAge -> Z := onKey qaQueue compareString.

Definition statsOf (now : Time) (rs : list JobRow) : Stats :=
  let '(counts, oldest) := foldl (statsTurn now) (∅, ∅) rs in
  {| Depths := SortFunc depthCmp
       ((fun kv : string * string * Z =>
           {| qdQueue := kv.1.1; qdState := kv.1.2; qdCount := kv.2 |}) <$> map_to_list counts);
     Oldest := SortFunc ageCmp
       ((fun kv : string * Time =>
           {| qaQueue := kv.1; AgeSeconds := Seconds (Sub now kv.2) |}) <$> map_to_list oldest) |}.

Definition StatsOp (now : Time) (d : MemDriver) : res error Stats := Ok (statsOf now (rows d)).

Definition listKeep (p : ListJobsParams) (r : JobRow) : bool :=
  (String.eqb (ljQueue p) "" || String.eqb (Queue r) (ljQueue p)) &&
  (String.eqb (ljState p) "" || String.eqb (stateString (State r)) (ljState p)).

(** Newest id first. *)
Definition newestFirst (a b : JobRow) : Z := compareZ (ID b) (ID a).

Definition ListJobs (p : ListJobsParams) (d : MemDriver) : res error (list JobRow) :=
  if ljLimit p <=? 0
  then Err (Msg ("list limit must be positive, got " +:+ itoa (ljLimit p)))
  else
    let matched := SortFunc newestFirst (List.filter (listKeep p) (rows d)) in
    Ok (if ljLimit p <? Z.of_nat (length matched)
        then take (Z.to_nat (ljLimit p)) matched else matched).

Definition GetJob (id : Z) (d : MemDriver) : res error JobRow :=
  match jobs d !! id with
  | None => Err (errNotFound id)
  | Some row => Ok row
  end.

Definition Row (id : Z) (d : MemDriver) : option JobRow := jobs d !! id.

(** ** Operator actions *)

Definition cancellable (s : JobState) : bool :=
  match s with
  | StateAvailable | StateScheduled | StateRetryable | StateDead => true
  | _ => false
  end.

(** [retry] is [None] when [allowRetry] is false.  [reread] and [redo] are what
    other callers do while the mutex is free: before the second look, and
    before the retry takes it again. *)
Definition afterOperatorMiss (reread redo : MemDriver -> MemDriver) (id : Z) (observed : JobState)
    (want : string) (eligible : JobState -> bool)
    (retry : option (MemDriver -> MemDriver * res error JobRow)) (d : MemDriver)
    : MemDriver * res error JobRow :=
  match retry with
  | None => (d, Err (errWant id observed want))
  | Some again =>
      let d1 := reread d in
      match jobs d1 !! id with
      | None => (d1, Err (errNotFound id))
      | Some row =>
          if eligible (State row) then again (redo d1)
          else (d1, Err (errWant id (State row) want))
      end
  end.

Definition cancelRow (now : Time) (r : JobRow) : JobRow :=
  setLeasedUntil None (setFinalizedAt (Some now) (setState StateCancelled r)).

(** [retries] is 1 when [allowRetry] is set and 0 when it is not. *)
Fixpoint operatorCancel (reread redo : MemDriver -> MemDriver) (now : Time) (id : Z)
    (retries : nat) (d : MemDriver) : MemDriver * res error JobRow :=
  match jobs d !! id with
  | None => (d, Err (errNotFound id))
  | Some row =>
      if negb (cancellable (State row)) then
        afterOperatorMiss reread redo id (State row) "cancellable" cancellable
          (match retries with
           | O => None
           | S k => Some (operatorCancel reread redo now id k)
           end) d
      else
        (MkDriver (nextID d) (<[id := cancelRow now row]> (jobs d)), Ok (cancelRow now row))
  end.

Definition OperatorCancel (reread redo : MemDriver -> MemDriver) (now : Time) (id : Z)
    : MemDriver -> MemDriver * res error JobRow :=
  operatorCancel reread redo now id 1.

Definition redriveRow (now : Time) (r : JobRow) : JobRow :=
  setScheduledAt now (setFinalizedAt None (setLeasedUntil None
    (setAttempt 0 (setState StateAvailable r)))).

Definition isDead (s : JobState) : bool :=
  match s with StateDead => true | _ => false end.

Fixpoint redriveDead (reread redo : MemDriver -> MemDriver) (now : Time) (id : Z)
    (retries : nat) (d : MemDriver) : MemDriver * res error JobRow :=
  match jobs d !! id with
  | None => (d, Err (errNotFound id))
  | Some row =>
      if negb (isDead (State row)) then
        afterOperatorMiss reread redo id (State row) "dead" isDead
          (match retries with
           | O => None
           | S k => Some (redriveDead reread redo now id k)
           end) d
      else
        (MkDriver (nextID d) (<[id := redriveRow now row]> (jobs d)), Ok (redriveRow now row))
  end.

Definition RedriveDead (reread redo : MemDriver -> MemDriver) (now : Time) (id : Z)
    : MemDriver -> MemDriver * res error JobRow :=
  redriveDead reread redo now id 1.

(** ** One trace of calls *)

(** The calls that write, as labels, so that traces of them can be reasoned
    about. *)
Inductive call :=
| CInsert (p : InsertParams)
| CInsertMany (batch : list InsertParams)
| CFetchAvailable (queue : string) (leaseFor : Duration) (limit : Z)
| CFetchExpired (leaseFor : Duration) (limit : Z)
| CExtendLeases (leases : list Lease) (leaseFor : Duration)
| CMarkCompleted (l : Lease)
| CMarkRetryable (l : Lease) (retryAt : Time) (detail : option RawMessage)
| CMarkDead (l : Lease) (detail : option RawMessage)
| CMarkCancelled (l : Lease) (detail : option RawMessage)
| CMarkSnoozed (l : Lease) (runAt : Time)
| COperatorCancel (id : Z)
| CRedriveDead (id : Z).

Definition exec (now : Time) (c : call) (d : MemDriver) : MemDriver :=
  match c with
  | CInsert p => (Insert now p d).1
  | CInsertMany batch => (InsertMany now batch d).1
  | CFetchAvailable q lf limit => (FetchAvailable now q lf limit d).1
  | CFetchExpired lf limit => (FetchExpired now lf limit d).1
  | CExtendLeases ls lf => (ExtendLeases now ls lf d).1
  | CMarkCompleted l => (MarkCompleted now l d).1
  | CMarkRetryable l t e => (MarkRetryable l t e d).1
  | CMarkDead l e => (MarkDead now l e d).1
  | CMarkCancelled l e => (MarkCancelled now l e d).1
  | CMarkSnoozed l t => (MarkSnoozed l t d).1
  | COperatorCancel id => (OperatorCancel Datatypes.id Datatypes.id now id d).1
  | CRedriveDead id => (RedriveDead Datatypes.id Datatypes.id now id d).1
  end.

(** A trace: each call with the instant it runs at. *)
Definition run (tr : list (Time * call)) (d : MemDriver) : MemDriver :=
  foldl (fun d tc => exec tc.1 tc.2 d) d tr.
