(* ===== verification/MemdriverFacts.v ===== *)
(** * MemdriverFacts: the invariants of the in-memory driver

    The store's well-formedness, the refinement of every call to the job
    lifecycle of DriverSpec, and the facts about claims that the theorems of
    the later files share. *)

From S2P Require Import Prelude GoTime GoError DriverSpec Memdriver.

(** ** Invariants *)

(** A row: a lease exactly while running, a finalization time exactly when
    finalized, and the recorded errors as an array. *)
Record rowWf (r : JobRow) : Prop := {
  rw_attempt : 0 <= Attempt r;
  rw_running_attempt : State r = StateRunning -> 1 <= Attempt r;
  rw_lease : State r = StateRunning <-> LeasedUntil r <> None;
  rw_final : finalState (State r) <-> FinalizedAt r <> None;
  rw_errors : exists l, Errors r = Raw (JArray l);
  rw_max : MaxAttempts r = 25
}.

Record wf (d : MemDriver) : Prop := {
  wf_next : 0 <= nextID d;
  wf_key : forall id r, jobs d !! id = Some r -> ID r = id;
  wf_range : forall id r, jobs d !! id = Some r -> 1 <= id <= nextID d;
  wf_row : forall id r, jobs d !! id = Some r -> rowWf r
}.

(** No two live rows of a queue and kind share a non-empty unique key. *)
Definition uniqueSlots (d : MemDriver) : Prop :=
  forall id1 id2 r1 r2, jobs d !! id1 = Some r1 -> jobs d !! id2 = Some r2 ->
    UniqueKey r1 <> "" -> UniqueKey r1 = UniqueKey r2 -> Queue r1 = Queue r2 ->
    Kind r1 = Kind r2 -> uniqueActive (State r1) = true -> uniqueActive (State r2) = true ->
    id1 = id2.

(** ** Maps of rows *)

Definition writeRows (f : JobRow -> JobRow) (m : gmap Z JobRow) (l : list JobRow)
    : gmap Z JobRow :=
  foldl (fun m r => <[ID r := f r]> m) m l.

Lemma writeRows_notin f l m id :
  id ∉ ID <$> l -> writeRows f m l !! id = m !! id.
Proof.
  unfold writeRows. revert m. induction l as [|r l IH]; intros m H; [done|].
  simpl. rewrite IH by set_solver. apply lookup_insert_ne. set_solver.
Qed.

Lemma writeRows_in f l m r :
  NoDup (ID <$> l) -> r ∈ l -> writeRows f m l !! ID r = Some (f r).
Proof.
  unfold writeRows. revert m. induction l as [|r' l IH]; intros m Hnd Hin; [set_solver|].
  simpl in *. apply NoDup_cons in Hnd as [Hn Hnd].
  apply elem_of_cons in Hin as [->|Hin]; [|by apply IH].
  change (foldl _ _ l) with (writeRows f (<[ID r' := f r']> m) l).
  rewrite writeRows_notin by done. apply lookup_insert_eq.
Qed.

Lemma elem_of_rows d r : r ∈ rows d <-> exists id, jobs d !! id = Some r.
Proof.
  unfold rows. rewrite list_elem_of_fmap. split.
  - intros ([id r'] & -> & H). exists id. by apply elem_of_map_to_list in H.
  - intros [id H]. exists (id, r). split; [done|]. by apply elem_of_map_to_list.
Qed.

Lemma rows_keys d :
  (forall id r, jobs d !! id = Some r -> ID r = id) -> ID <$> rows d = (map_to_list (jobs d)).*1.
Proof.
  intros Hk. unfold rows. rewrite <- list_fmap_compose. apply list_fmap_ext.
  intros i [id r] H. simpl. apply Hk. apply elem_of_map_to_list, list_elem_of_lookup. eauto.
Qed.

Lemma rows_NoDup d :
  (forall id r, jobs d !! id = Some r -> ID r = id) -> NoDup (ID <$> rows d).
Proof. intros Hk. rewrite rows_keys by done. apply NoDup_fst_map_to_list. Qed.

Lemma NoDup_fmap_filter {A B} (f : A -> B) (p : A -> bool) l :
  NoDup (f <$> l) -> NoDup (f <$> List.filter p l).
Proof.
  induction l as [|x l IH]; simpl; [done|]. rewrite NoDup_cons. intros [Hn Hd].
  destruct (p x); simpl; [|by apply IH]. apply NoDup_cons. split; [|by apply IH].
  intros Hin. apply Hn. apply list_elem_of_fmap in Hin as (y & -> & Hy).
  apply list_elem_of_fmap. exists y. split; [done|].
  apply list_elem_of_In, List.filter_In in Hy as [Hy _]. by apply list_elem_of_In.
Qed.

(** ** The claim loop *)

(** How many of the due rows a claim takes: a negative limit never stops it. *)
Definition budget (limit : Z) (due : list JobRow) : nat :=
  if limit <? 0 then length due else Z.to_nat limit.

Lemma claimLoop_gen f limit due claimed m :
  claimLoop f limit due claimed m =
  let n := if limit <? Z.of_nat (length claimed) then length due
           else Z.to_nat (limit - Z.of_nat (length claimed)) in
  (writeRows f m (take n due), claimed ++ (f <$> take n due)).
Proof.
  revert claimed m. induction due as [|r due IH]; intros claimed m; simpl.
  - rewrite take_nil. by rewrite app_nil_r.
  - destruct (Z.eqb_spec (Z.of_nat (length claimed)) limit) as [E|E].
    + destruct (Z.ltb_spec limit (Z.of_nat (length claimed))); [lia|].
      rewrite E, Z.sub_diag. simpl. by rewrite app_nil_r.
    + rewrite IH. rewrite length_app. simpl.
      destruct (Z.ltb_spec limit (Z.of_nat (length claimed))).
      * destruct (Z.ltb_spec limit (Z.of_nat (length claimed + 1))); [|lia].
        simpl. by rewrite <- app_assoc.
      * destruct (Z.ltb_spec limit (Z.of_nat (length claimed + 1))); [lia|].
        replace (Z.to_nat (limit - Z.of_nat (length claimed)))
          with (S (Z.to_nat (limit - Z.of_nat (length claimed + 1)))) by lia.
        simpl. by rewrite <- app_assoc.
Qed.

Lemma claimLoop_eq f limit due m :
  claimLoop f limit due [] m =
  (writeRows f m (take (budget limit due) due), f <$> take (budget limit due) due).
Proof.
  rewrite claimLoop_gen. simpl. unfold budget. by rewrite Z.sub_0_r.
Qed.

Section Selection.
Context (d : MemDriver) (Hd : wf d) (order : JobRow -> Time) (keep : JobRow -> bool).

Lemma selectRows_elem r :
  r ∈ selectRows d order keep <-> jobs d !! ID r = Some r /\ keep r = true.
Proof.
  unfold selectRows. rewrite SortFunc_elem, list_elem_of_In, List.filter_In.
  rewrite <- list_elem_of_In, elem_of_rows. split.
  - intros [[id H] Hk]. split; [|done]. by rewrite (wf_key d Hd id r H).
  - intros [H Hk]. split; [by exists (ID r)|done].
Qed.

Lemma selectRows_NoDup : NoDup (ID <$> selectRows d order keep).
Proof.
  unfold selectRows. rewrite SortFunc_perm. apply NoDup_fmap_filter, rows_NoDup, Hd.
Qed.

Lemma selectRows_sorted : StronglySorted (cmp_le (rowCmp order)) (selectRows d order keep).
Proof. apply SortFunc_sorted. unfold rowCmp. apply _. Qed.

Lemma selected_NoDup n : NoDup (ID <$> take n (selectRows d order keep)).
Proof.
  rewrite fmap_take. eapply sublist_NoDup; [apply selectRows_NoDup|]. apply sublist_take.
Qed.

(** A claim changes the selected rows and no other. *)
Lemma claim_lookup f n id :
  writeRows f (jobs d) (take n (selectRows d order keep)) !! id =
  if decide (id ∈ ID <$> take n (selectRows d order keep))
  then f <$> jobs d !! id else jobs d !! id.
Proof.
  case_decide as Hin.
  - apply list_elem_of_fmap in Hin as (r & -> & Hr).
    rewrite writeRows_in by (done || apply selected_NoDup).
    assert (r ∈ selectRows d order keep) as Hs by (by eapply take_elem).
    apply selectRows_elem in Hs as [-> _]. done.
  - by apply writeRows_notin.
Qed.
End Selection.

(** ** Guarded transitions *)

Lemma transition_cases l apply d :
  ((transition l apply d).1 = d /\ exists e, (transition l apply d).2 = Some e) \/
  exists r r', jobs d !! leaseID l = Some r /\ State r = StateRunning /\
    Attempt r = leaseAttempt l /\ apply r = Ok r' /\
    transition l apply d =
      (MkDriver (nextID d) (<[leaseID l := setLeasedUntil None r']> (jobs d)), None).
Proof.
  unfold transition. destruct (jobs d !! leaseID l) as [r|] eqn:E; [|left; eauto].
  case_bool_decide as Hs; simpl; [|left; eauto].
  destruct (Z.eqb_spec (Attempt r) (leaseAttempt l)) as [Ha|Ha]; simpl; [|left; eauto].
  destruct (apply r) as [r'|e] eqn:Hap; [|left; eauto].
  right. exists r, r'. done.
Qed.

Lemma mapM_rawValue l e :
  mapM rawValue ((Raw <$> l) ++ [e]) = (fun j => l ++ [j]) <$> rawValue e.
Proof.
  induction l as [|x l IH]; [simpl; by destruct (rawValue e)|].
  change ((k ← mapM rawValue ((Raw <$> l) ++ [e]); mret (M:=option) (x :: k)) =
          (fun j => (x :: l) ++ [j]) <$> rawValue e).
  rewrite IH. by destruct (rawValue e).
Qed.

(** Appending to an array of errors adds one entry or fails. *)
Lemma appendError_array r l j :
  Errors r = Raw (JArray l) ->
  appendError r (Some (Raw j)) = Ok (setErrors (Raw (JArray (l ++ [j]))) r).
Proof.
  intros H. unfold appendError. rewrite H. simpl. unfold marshalList.
  by rewrite mapM_rawValue.
Qed.

Lemma appendError_inv r detail r' :
  rowWf r -> appendError r detail = Ok r' ->
  r' = r \/ exists l j, detail = Some (Raw j) /\ Errors r = Raw (JArray l) /\
                        r' = setErrors (Raw (JArray (l ++ [j]))) r.
Proof.
  intros Hr. destruct (rw_errors r Hr) as [l Hl].
  destruct detail as [[j|t]|]; [| |intros [= ->]; by left].
  - rewrite (appendError_array r l j Hl). intros [= <-]. right. eauto.
  - unfold appendError. rewrite Hl. simpl. unfold marshalList. by rewrite mapM_rawValue.
Qed.

(** ** Refinement to the lifecycle *)

Definition freshRow (id : Z) (r : JobRow) : Prop :=
  ID r = id /\ Attempt r = 0 /\ MaxAttempts r = 25 /\ Errors r = Raw (JArray []) /\
  LeasedUntil r = None /\ FinalizedAt r = None /\
  (State r = StateAvailable \/ State r = StateScheduled).

(** [d'] holds every row of [d], each changed by a step of [R] at most, and
    new rows under new ids. *)
Definition evolvesBy (R : JobRow -> JobRow -> Prop) (d d' : MemDriver) : Prop :=
  nextID d <= nextID d' /\
  forall id,
    match jobs d !! id, jobs d' !! id with
    | Some r, Some r' => R r r'
    | None, Some r' => nextID d < id <= nextID d' /\ freshRow id r'
    | Some _, None => False
    | None, None => True
    end.

(** Each row changed by one lifecycle step at most. *)
Definition evolves : MemDriver -> MemDriver -> Prop := evolvesBy lifecycleStep.

(** The steps of every call but a redrive: none of them makes a row available. *)
Definition quietStep (r r' : JobRow) : Prop :=
  r' = r \/ (sameJob r r' /\ lifecycle r r' /\ State r' <> StateAvailable).

Definition quiet : MemDriver -> MemDriver -> Prop := evolvesBy quietStep.

Lemma lifecycleStep_refl r : lifecycleStep r r.
Proof. by left. Qed.

Lemma quietStep_refl r : quietStep r r.
Proof. by left. Qed.
#[export] Hint Resolve lifecycleStep_refl quietStep_refl : drover.

Lemma evolvesBy_mono (R1 R2 : JobRow -> JobRow -> Prop) d d' :
  (forall r r', R1 r r' -> R2 r r') -> evolvesBy R1 d d' -> evolvesBy R2 d d'.
Proof.
  intros HR [Hn H]. split; [done|]. intros id. specialize (H id).
  destruct (jobs d !! id), (jobs d' !! id); auto.
Qed.

Lemma quiet_evolves d d' : quiet d d' -> evolves d d'.
Proof. apply evolvesBy_mono. intros r r' [->|(? & ? & _)]; [by left | by right]. Qed.

Lemma quiet_refl d : quiet d d.
Proof. split; [lia|]. intros id. destruct (jobs d !! id); auto with drover. Qed.
#[export] Hint Resolve quiet_refl : drover.

Section evolvesBy.
Context (R : JobRow -> JobRow -> Prop) (HR : forall r, R r r).

Lemma evolves_pointwise d m :
  (forall id r, jobs d !! id = Some r -> exists r', m !! id = Some r' /\ R r r') ->
  (forall id, jobs d !! id = None -> m !! id = None) ->
  evolvesBy R d (MkDriver (nextID d) m).
Proof.
  intros H1 H2. split; simpl; [lia|]. intros id.
  destruct (jobs d !! id) as [r|] eqn:E.
  - destruct (H1 id r E) as (r' & -> & ?). done.
  - by rewrite (H2 id E).
Qed.

Lemma evolves_update d id r r' :
  jobs d !! id = Some r -> R r r' ->
  evolvesBy R d (MkDriver (nextID d) (<[id := r']> (jobs d))).
Proof.
  intros Hr Hs. apply evolves_pointwise.
  - intros id' r1 H1. destruct (decide (id = id')) as [<-|Hne].
    + exists r'. rewrite lookup_insert_eq. split; [done|]. congruence.
    + exists r1. rewrite lookup_insert_ne by done. auto.
  - intros id' H. rewrite lookup_insert_ne; [done|]. congruence.
Qed.
End evolvesBy.

Lemma rowWf_fresh id r : freshRow id r -> rowWf r.
Proof.
  intros (_ & Ha & Hm & He & Hl & Hf & Hs). split.
  - lia.
  - intros H. destruct Hs; congruence.
  - rewrite Hl. split; [intros H; destruct Hs; congruence | done].
  - rewrite Hf. unfold finalState. split; [|done]. intros H.
    destruct Hs as [Hs|Hs]; rewrite Hs in H; by destruct H as [H|[H|H]].
  - eauto.
  - done.
Qed.

Lemma errorsGrow_array e e' : errorsGrow e e' -> (exists l, e = Raw (JArray l)) ->
  exists l', e' = Raw (JArray l').
Proof. intros [->|(l & x & -> & ->)] H; eauto. Qed.

(** The lifecycle keeps rows well formed. *)
Lemma is_None_cases {A} (o : option A) : (o <> None <-> False) \/ (o <> None <-> True).
Proof. destruct o; [right|left]; split; done. Qed.

Lemma lifecycleStep_wf r r' : rowWf r -> lifecycleStep r r' -> rowWf r'.
Proof.
  intros Hr [->|[Hsame Hlc]]; [done|]. destruct Hr as [Ha Hra Hl Hf He Hm].
  destruct Hsame as (_ & _ & _ & _ & Hmax & _).
  destruct Hlc; unfold waitingState, finalState in *; destruct_or?;
    (split; unfold finalState;
     repeat match goal with
     | H : State r = _ |- _ => rewrite H in Hra, Hl, Hf; clear H
     | H : State r' = _ |- _ => rewrite H; clear H
     | H : LeasedUntil r' = _ |- _ => rewrite H; clear H
     | H : FinalizedAt r' = _ |- _ => rewrite H; clear H
     | H : Errors r' = _ |- _ => rewrite H; clear H
     | H : Attempt r' = _ |- _ => rewrite H; clear H
     end);
    try lia; try congruence; try done; try (by eapply errorsGrow_array);
    try (destruct (is_None_cases (LeasedUntil r)), (is_None_cases (FinalizedAt r));
         intuition congruence); try (intros _; specialize (Hra eq_refl); lia).
Qed.

Lemma sameJob_id r r' : lifecycleStep r r' -> ID r' = ID r.
Proof. intros [->|[(H & _) _]]; done. Qed.

Lemma evolves_wf d d' : wf d -> evolves d d' -> wf d'.
Proof.
  intros Hd [Hn He]. pose proof (wf_next d Hd).
  assert (forall id r', jobs d' !! id = Some r' ->
            ID r' = id /\ 1 <= id <= nextID d' /\ rowWf r') as Hall.
  { intros id r' H'. specialize (He id). rewrite H' in He.
    destruct (jobs d !! id) as [r|] eqn:E.
    - split_all.
      + rewrite (sameJob_id _ _ He). by eapply wf_key.
      + pose proof (wf_range d Hd id r E). lia.
      + pose proof (wf_range d Hd id r E). lia.
      + eapply lifecycleStep_wf; [by eapply wf_row|done].
    - destruct He as [Hb Hf]. split_all; [apply Hf | lia | lia | by eapply rowWf_fresh]. }
  split; [lia | intros id r' H'; apply Hall in H' as (? & ? & ?); done ..].
Qed.

(** ** Every call refines the lifecycle *)

(** A claim-style call: the selected rows change by [f]. *)
Lemma claim_evolves d order keep f limit :
  wf d ->
  (forall r, rowWf r -> keep r = true -> quietStep r (f r)) ->
  quiet d (MkDriver (nextID d)
    (claimLoop f limit (selectRows d order keep) [] (jobs d)).1).
Proof.
  intros Hd Hf. rewrite claimLoop_eq. simpl.
  apply (evolves_pointwise quietStep).
  - intros id r Hr. rewrite claim_lookup by done. rewrite Hr.
    case_decide as Hin; [|eauto with drover].
    apply list_elem_of_fmap in Hin as (r0 & -> & Hr0).
    apply take_elem, selectRows_elem in Hr0 as [Hl Hk]; [|done].
    assert (r0 = r) as -> by congruence. simpl. eexists. split; [done|].
    apply Hf; [by eapply wf_row|done].
  - intros id Hn. rewrite claim_lookup by done. rewrite Hn. by case_decide.
Qed.

Lemma claimable_waiting now queue r :
  claimable now queue r = true ->
  waitingState (State r) /\ Queue r = queue /\ ScheduledAt r <= now.
Proof.
  unfold claimable, waitingState, After. intros H. unbool.
  split_all; [destruct (State r); naive_solver | done | lia].
Qed.

Lemma expired_spec now r :
  expired now r = true <-> State r = StateRunning /\ exists t, LeasedUntil r = Some t /\ t <= now.
Proof.
  unfold expired, After. split.
  - destruct (State r); try done. destruct (LeasedUntil r) as [t|]; [|done].
    intros H. split; [done|]. exists t. split; [done|lia].
  - intros (-> & t & -> & H). lia.
Qed.

Lemma FetchAvailable_evolves now q lf limit d :
  wf d -> quiet d (FetchAvailable now q lf limit d).1.
Proof.
  intros Hd. unfold FetchAvailable.
  rewrite (surjective_pairing (claimLoop _ _ _ _ _)). cbn [fst].
  apply claim_evolves; [done|]. intros r Hr Hk.
  apply claimable_waiting in Hk as (Hw & _ & _). right. split_all; [done | by eapply lc_claim | done].
Qed.

Lemma FetchExpired_evolves now lf limit d :
  wf d -> quiet d (FetchExpired now lf limit d).1.
Proof.
  intros Hd. unfold FetchExpired.
  rewrite (surjective_pairing (claimLoop _ _ _ _ _)). cbn [fst].
  apply claim_evolves; [done|]. intros r Hr Hk.
  apply expired_spec in Hk as (Hs & _). right. split_all; [done | by eapply lc_lease |]. simpl. congruence.
Qed.

(** What a round of heartbeats does to a row. *)
Definition renewed (leases : list Lease) (r : JobRow) : bool :=
  bool_decide (State r = StateRunning) &&
  existsb (fun l => (leaseID l =? ID r) && (Attempt r =? leaseAttempt l)) leases.

Lemma extendOne_lookup u m l id r :
  (forall id r, m !! id = Some r -> ID r = id) -> m !! id = Some r ->
  extendOne u m l !! id = Some (if renewed [l] r then renewRow u r else r).
Proof.
  intros Hk Hr. unfold extendOne, renewed. simpl. rewrite orb_false_r.
  pose proof (Hk id r Hr) as Hid.
  destruct (Z.eqb_spec (leaseID l) (ID r)) as [E|E]; simpl.
  - rewrite E, Hid, Hr. destruct (bool_decide (State r = StateRunning) && _);
      [by rewrite lookup_insert_eq | done].
  - rewrite andb_false_r. destruct (m !! leaseID l) as [r1|]; [|done].
    destruct (bool_decide _ && _); [|done]. rewrite lookup_insert_ne; congruence.
Qed.

Lemma extend_lookup u ls m id r :
  (forall id r, m !! id = Some r -> ID r = id) -> m !! id = Some r ->
  foldl (extendOne u) m ls !! id = Some (if renewed ls r then renewRow u r else r).
Proof.
  revert m r. induction ls as [|l ls IH]; intros m r Hk Hr.
  - simpl. unfold renewed. simpl. by rewrite andb_false_r.
  - simpl. rewrite (IH _ (if renewed [l] r then renewRow u r else r)).
    + unfold renewed. simpl. rewrite orb_false_r.
      destruct (bool_decide (State r = StateRunning)) eqn:Hs; simpl; [|by rewrite Hs].
      destruct ((leaseID l =? ID r) && (Attempt r =? leaseAttempt l)); simpl;
        rewrite Hs; simpl; [by destruct (existsb _ _)|done].
    + intros id' r' H'. unfold extendOne in H'.
      destruct (m !! leaseID l) as [r1|] eqn:E1; [|by apply Hk].
      destruct (bool_decide _ && _); [|by apply Hk].
      destruct (decide (leaseID l = id')) as [<-|Hne].
      * rewrite lookup_insert_eq in H'. injection H' as <-. simpl. by apply Hk.
      * rewrite lookup_insert_ne in H' by done. by apply Hk.
    + by apply extendOne_lookup.
Qed.

Lemma extend_lookup_None u ls m id : m !! id = None -> foldl (extendOne u) m ls !! id = None.
Proof.
  revert m. induction ls as [|l ls IH]; intros m Hn; [done|]. simpl. apply IH.
  unfold extendOne. destruct (m !! leaseID l) as [r1|] eqn:E1; [|done].
  destruct (bool_decide _ && _); [|done]. rewrite lookup_insert_ne; congruence.
Qed.

Lemma renewed_running ls r : renewed ls r = true -> State r = StateRunning.
Proof. unfold renewed. intros H. unbool. done. Qed.

Lemma ExtendLeases_evolves now ls lf d : wf d -> quiet d (ExtendLeases now ls lf d).1.
Proof.
  intros Hd. unfold ExtendLeases. simpl. apply (evolves_pointwise quietStep).
  - intros id r Hr. rewrite (extend_lookup _ _ _ id r (wf_key d Hd) Hr).
    eexists. split; [done|]. destruct (renewed ls r) eqn:E; [|auto with drover].
    apply renewed_running in E. right. split_all; [done | by eapply lc_lease |]. simpl. congruence.
  - intros id Hn. by apply extend_lookup_None.
Qed.

Lemma finalize_evolves now l s detail d :
  wf d -> finalState s -> quiet d (finalize now l s detail d).1.
Proof.
  intros Hd Hs. unfold finalize.
  destruct (transition_cases l (fun row => let? row' := appendError row detail in
    Ok (setFinalizedAt (Some now) (setState s row'))) d)
    as [[-> _]|(r & r' & Hr & Hrun & Ha & Hap & ->)]; [auto with drover|].
  simpl. apply (evolves_update quietStep) with (r := r); auto with drover.
  destruct (appendError r detail) as [r1|e] eqn:E; simpl in Hap; [|done].
  injection Hap as <-. right.
  apply appendError_inv in E as [->|(li & j & _ & He & ->)]; [| |by eapply wf_row].
  - split_all; [done | eapply lc_finalize; try done; by left | by simpl; destruct Hs as [->|[->| ->]]].
  - split_all; [done | eapply lc_finalize; try done; right; eauto | by simpl; destruct Hs as [->|[->| ->]]].
Qed.

Lemma MarkRetryable_evolves l t detail d : wf d -> quiet d (MarkRetryable l t detail d).1.
Proof.
  intros Hd. unfold MarkRetryable.
  destruct (transition_cases l (fun row => let? row' := appendError row detail in
    Ok (setScheduledAt t (setState StateRetryable row'))) d)
    as [[-> _]|(r & r' & Hr & Hrun & Ha & Hap & ->)]; [auto with drover|].
  simpl. apply (evolves_update quietStep) with (r := r); auto with drover.
  destruct (appendError r detail) as [r1|e] eqn:E; simpl in Hap; [|done].
  injection Hap as <-. right.
  apply appendError_inv in E as [->|(li & j & _ & He & ->)]; [| |by eapply wf_row].
  - split_all; [done | apply lc_retry; try done; by left | done].
  - split_all; [done | apply lc_retry; try done; right; eauto | done].
Qed.

Lemma MarkSnoozed_evolves l t d : quiet d (MarkSnoozed l t d).1.
Proof.
  unfold MarkSnoozed.
  destruct (transition_cases l (fun row => Ok (setAttempt (Z.max (Attempt row - 1) 0)
         (setScheduledAt t (setState StateScheduled row)))) d)
    as [[-> _]|(r & r' & Hr & Hrun & Ha & Hap & ->)]; [auto with drover|].
  simpl. apply (evolves_update quietStep) with (r := r); auto with drover. injection Hap as <-.
  right. split_all; [done | by apply lc_snooze | done].
Qed.

Lemma jobFromParams_fresh id p now : freshRow id (jobFromParams id p now).
Proof. unfold freshRow, jobFromParams. simpl. split_all; try done. destruct (After _ _); auto. Qed.

Lemma wf_no_next d id : wf d -> nextID d < id -> jobs d !! id = None.
Proof.
  intros Hd Hlt. destruct (jobs d !! id) as [r|] eqn:E; [|done].
  pose proof (wf_range d Hd id r E). lia.
Qed.

Lemma Insert_evolves now p d : wf d -> quiet d (Insert now p d).1.
Proof.
  intros Hd. unfold Insert. destruct (uniqueConflict _ _ _ _ _); simpl; [auto with drover|].
  split; simpl; [lia|]. intros id. destruct (decide (nextID d + 1 = id)) as [<-|Hne].
  - rewrite lookup_insert_eq, wf_no_next by (done || lia). split; [lia|]. apply jobFromParams_fresh.
  - rewrite lookup_insert_ne by done. destruct (jobs d !! id); auto with drover.
Qed.

(** The rows a batch makes, whatever the conflicts. *)
Fixpoint batchRows (now : Time) (id : Z) (batch : list InsertParams) : list JobRow :=
  match batch with
  | [] => []
  | p :: rest => jobFromParams (id + 1) p now :: batchRows now (id + 1) rest
  end.

Lemma batchRows_ids now id batch r :
  r ∈ batchRows now id batch ->
  id < ID r <= id + Z.of_nat (length batch) /\ freshRow (ID r) r.
Proof.
  revert id. induction batch as [|p batch IH]; intros id; simpl; [set_solver|].
  rewrite elem_of_cons. intros [->|H].
  - split; [simpl; lia|]. apply jobFromParams_fresh.
  - apply IH in H as [? ?]. split; [lia|done].
Qed.

Lemma batchRows_NoDup now id batch : NoDup (ID <$> batchRows now id batch).
Proof.
  revert id. induction batch as [|p batch IH]; intros id; simpl; constructor; [|apply IH].
  intros Hin. apply list_elem_of_fmap in Hin as (r & Hid & Hr).
  apply batchRows_ids in Hr as [Hb _]. simpl in *. lia.
Qed.

Lemma batchRows_length now id batch : length (batchRows now id batch) = length batch.
Proof. revert id. induction batch; intros; simpl; auto. Qed.

Lemma pendingRows_spec d now batch i pending out :
  pendingRows d now i pending batch = Some out ->
  out = pending ++ batchRows now (nextID d + Z.of_nat i) batch.
Proof.
  revert i pending. induction batch as [|p batch IH]; intros i pending; simpl.
  - intros [= ->]. by rewrite app_nil_r.
  - destruct (uniqueConflict _ _ _ _ _); [done|]. intros H. apply IH in H as ->.
    rewrite <- app_assoc. simpl. do 3 f_equal. lia.
Qed.

Lemma InsertMany_ok now batch d d' out :
  InsertMany now batch d = (d', Ok out) ->
  out = batchRows now (nextID d) batch /\
  d' = MkDriver (nextID d + Z.of_nat (length batch)) (writeRows (fun r => r) (jobs d) out).
Proof.
  unfold InsertMany. destruct batch as [|p batch].
  - intros [= <- <-]. simpl. split; [done|]. rewrite Z.add_0_r. by destruct d.
  - destruct (pendingRows d now 0 [] (p :: batch)) as [pending|] eqn:E; [|done].
    intros [= <- <-]. apply pendingRows_spec in E as ->.
    rewrite Z.add_0_r. done.
Qed.

Lemma InsertMany_evolves now batch d : wf d -> quiet d (InsertMany now batch d).1.
Proof.
  intros Hd. destruct (InsertMany now batch d) as [d' [out|e]] eqn:E.
  - apply InsertMany_ok in E as [-> ->]. split; simpl; [lia|]. intros id.
    destruct (decide (id ∈ ID <$> batchRows now (nextID d) batch)) as [Hin|Hnin].
    + apply list_elem_of_fmap in Hin as (r & -> & Hr).
      rewrite writeRows_in by (done || apply batchRows_NoDup).
      apply batchRows_ids in Hr as [Hb Hf].
      rewrite wf_no_next by (done || lia). split; [lia|done].
    + rewrite writeRows_notin by done. destruct (jobs d !! id); auto with drover.
  - unfold InsertMany in E. destruct batch; [done|].
    destruct (pendingRows _ _ _ _ _); [done|]. injection E as <- _. apply quiet_refl.
Qed.

Lemma cancellable_spec s : cancellable s = true <-> waitingState s \/ s = StateDead.
Proof.
  unfold waitingState. destruct s; simpl; split; intros H; auto; destruct_or?; discriminate.
Qed.

Lemma OperatorCancel_evolves now id d :
  quiet d (OperatorCancel Datatypes.id Datatypes.id now id d).1.
Proof.
  unfold OperatorCancel. simpl. destruct (jobs d !! id) as [r|] eqn:E; [|auto with drover].
  destruct (cancellable (State r)) eqn:Hc; simpl.
  - apply (evolves_update quietStep) with (r := r); auto with drover. apply cancellable_spec in Hc.
    right. split_all; [done | by eapply lc_operator_cancel | done].
  - change (Datatypes.id d) with d. auto with drover.
Qed.

Lemma RedriveDead_evolves now id d :
  evolves d (RedriveDead Datatypes.id Datatypes.id now id d).1.
Proof.
  unfold RedriveDead. simpl. destruct (jobs d !! id) as [r|] eqn:E; simpl;
    [|apply quiet_evolves; auto with drover].
  destruct (isDead (State r)) eqn:Hc; simpl.
  - apply (evolves_update lifecycleStep) with (r := r); auto with drover.
    right. split; [done|]. apply lc_redrive; try done. by destruct (State r).
  - change (Datatypes.id d) with d. apply quiet_evolves. auto with drover.
Qed.

Lemma RedriveDead_other now id d id' :
  id' <> id -> jobs (RedriveDead Datatypes.id Datatypes.id now id d).1 !! id' = jobs d !! id'.
Proof.
  intros Hne. unfold RedriveDead. simpl. destruct (jobs d !! id) as [r|] eqn:E; simpl; [|done].
  destruct (isDead (State r)) eqn:Hc; simpl; [by rewrite lookup_insert_ne | done].
Qed.

#[export] Hint Resolve Insert_evolves InsertMany_evolves FetchAvailable_evolves
  FetchExpired_evolves ExtendLeases_evolves MarkRetryable_evolves MarkSnoozed_evolves
  OperatorCancel_evolves RedriveDead_evolves : drover.

(** Not a redrive of this job. *)
Definition notRedrive (id : Z) (c : call) : Prop :=
  match c with CRedriveDead i => i <> id | _ => True end.

Lemma exec_quiet now c d :
  wf d -> match c with CRedriveDead _ => True | _ => quiet d (exec now c d) end.
Proof.
  intros Hd. destruct c; cbn [exec]; eauto 2 with drover;
    apply finalize_evolves; unfold finalState; auto.
Qed.

Lemma exec_evolves now c d : wf d -> evolves d (exec now c d).
Proof.
  intros Hd. pose proof (exec_quiet now c d Hd). destruct c; try (by apply quiet_evolves).
  apply RedriveDead_evolves.
Qed.

(** The row of a job that is not redriven takes a quiet step. *)
Lemma exec_row_quiet now c d id r :
  wf d -> notRedrive id c -> jobs d !! id = Some r ->
  exists r', jobs (exec now c d) !! id = Some r' /\ quietStep r r'.
Proof.
  intros Hd Hn Hr. pose proof (exec_quiet now c d Hd) as Hq. destruct c;
    lazymatch type of Hq with
    | quiet _ _ => destruct Hq as [_ Hq]; specialize (Hq id); rewrite Hr in Hq;
                   destruct (jobs (exec now _ d) !! id) as [r'|] eqn:E; [exists r'; done | done]
    | _ => idtac
    end.
  exists r. cbn [exec]. rewrite RedriveDead_other by (simpl in Hn; done). auto with drover.
Qed.

Lemma exec_wf now c d : wf d -> wf (exec now c d).
Proof. intros Hd. eapply evolves_wf; [done|]. by apply exec_evolves. Qed.

Lemma New_wf : wf New.
Proof. split; simpl; [lia | intros id r H; by rewrite lookup_empty in H ..]. Qed.

Lemma run_wf tr d : wf d -> wf (run tr d).
Proof.
  unfold run. revert d. induction tr as [|[t c] tr IH]; intros d Hd; [done|].
  simpl. apply IH. by apply exec_wf.
Qed.

#[export] Hint Resolve exec_wf run_wf New_wf : drover.
