(* ===== verification/MemdriverProps.v ===== *)
(** * MemdriverProps: the theorems about the in-memory driver

    Claims, renewals, the attempt fence, unique keys, guarded transitions,
    readings and operator actions of internal/memdriver, and the instance of
    the storage contract. *)

From S2P Require Import Prelude GoTime GoError DriverSpec Memdriver MemdriverFacts.

(** ** Shared lemmas *)

(** Due time first, ties by id. *)
Definition dueBefore (order : JobRow -> Time) (a b : JobRow) : Prop :=
  order a < order b \/ (order a = order b /\ ID a <= ID b).

Lemma rowCmp_dueBefore order a b : cmp_le (rowCmp order) a b <-> dueBefore order a b.
Proof.
  unfold cmp_le, rowCmp, thenBy, onKey, dueBefore, compareZ.
  destruct (Z.ltb_spec (order a) (order b)), (Z.ltb_spec (order b) (order a)),
    (Z.ltb_spec (ID a) (ID b)), (Z.ltb_spec (ID b) (ID a)); simpl; lia.
Qed.

Lemma selectRows_dueBefore d order keep :
  StronglySorted (dueBefore order) (selectRows d order keep).
Proof.
  pose proof (selectRows_sorted d order keep) as H.
  induction H as [|x l H IH Hx]; constructor; [done|].
  rewrite Forall_forall in Hx |- *. intros y Hy. apply rowCmp_dueBefore. auto.
Qed.

Lemma waiting_spec s : waiting s = true <-> waitingState s.
Proof.
  unfold waitingState. destruct s; simpl; split; intros H; auto; destruct_or?; discriminate.
Qed.

Lemma claimable_spec now q r :
  claimable now q r = true <-> waitingState (State r) /\ Queue r = q /\ ScheduledAt r <= now.
Proof.
  unfold claimable, After. rewrite !andb_true_iff, waiting_spec, negb_true_iff, String.eqb_eq,
    Z.ltb_ge. tauto.
Qed.

Lemma evolves_lookup d d' id r :
  evolves d d' -> jobs d !! id = Some r -> exists r', jobs d' !! id = Some r' /\ lifecycleStep r r'.
Proof. intros [_ H] Hr. specialize (H id). rewrite Hr in H. destruct (jobs d' !! id); eauto. done. Qed.

(** A property of one row that every call keeps holds through a trace. *)
Lemma run_row (P : JobRow -> Prop) (ok : call -> Prop) id :
  (forall now c d r, wf d -> ok c -> jobs d !! id = Some r -> P r ->
     exists r', jobs (exec now c d) !! id = Some r' /\ P r') ->
  forall tr d r, wf d -> Forall (fun tc => ok tc.2) tr -> jobs d !! id = Some r -> P r ->
  exists r', jobs (run tr d) !! id = Some r' /\ P r'.
Proof.
  intros Hstep tr. induction tr as [|[t c] tr IH]; intros d r Hd Hok Hr HP; [eauto|].
  apply Forall_cons in Hok as [Hc Htr]. simpl in Hc.
  destruct (Hstep t c d r Hd Hc Hr HP) as (r1 & Hr1 & HP1).
  by apply (IH (exec t c d) r1); [apply exec_wf | | |].
Qed.

(** ** The lifecycle and the claims *)

(** C2: From an empty store, after any calls at any instants, the store is well formed (a row has
    a lease exactly while it runs, a finalization time exactly when it is
    finalized, its id is its key, its errors are an array) and the next call
    changes every row by one step of the job lifecycle at most, never removes
    one, and adds rows only under new ids, in their initial form. *)
Theorem memdriver_refines_lifecycle tr now c :
  let d := run tr New in wf d /\ evolves d (exec now c d).
Proof.
  intros d. assert (wf d) as Hd by (subst d; auto with drover).
  split; [done|]. by apply exec_evolves.
Qed.

(** A completed or cancelled job never changes again, whatever calls
    follow. *)
Theorem terminal_rows_absorb tr d id r :
  wf d -> jobs d !! id = Some r ->
  State r = StateCompleted \/ State r = StateCancelled ->
  jobs (run tr d) !! id = Some r.
Proof.
  intros Hd Hr Hs.
  destruct (run_row (fun r' => r' = r) (fun _ => True) id) with (tr := tr) (d := d) (r := r)
    as (r' & H & ->); try done.
  - intros now c d0 r1 Hd0 _ Hr1 ->.
    destruct (evolves_lookup _ _ _ _ (exec_evolves now c d0 Hd0) Hr1) as (r2 & Hr2 & [->|[_ Hlc]]);
      [by exists r|]. exfalso.
    destruct Hlc; unfold waitingState in *; destruct Hs; destruct_or?; congruence.
  - by apply Forall_true.
Qed.

(** C18: [FetchAvailable] claims from the waiting, due rows of the queue, ordered by
    due time and then id, the first [limit] (all of them for a negative limit);
    what it returns are those rows as the store then holds them ([claimedRow]): running, with
    the attempt raised by one and leased until [leaseFor] from now, otherwise unchanged; every
    other row is as before. *)
Theorem FetchAvailable_claims now q lf limit d :
  wf d ->
  exists due,
    let taken := take (budget limit due) due in
    (FetchAvailable now q lf limit d).2 = Ok (claimedRow now lf <$> taken) /\
    StronglySorted (dueBefore ScheduledAt) due /\ NoDup (ID <$> due) /\
    (forall r, r ∈ due <-> jobs d !! ID r = Some r /\ waitingState (State r) /\
                           Queue r = q /\ ScheduledAt r <= now) /\
    forall id, jobs (FetchAvailable now q lf limit d).1 !! id =
      if decide (id ∈ ID <$> taken) then claimedRow now lf <$> jobs d !! id else jobs d !! id.
Proof.
  intros Hd. exists (selectRows d byScheduledAt (claimable now q)). simpl.
  unfold FetchAvailable. rewrite claimLoop_eq. simpl. split_all.
  - done.
  - apply (selectRows_dueBefore d byScheduledAt).
  - by apply selectRows_NoDup.
  - intros r. rewrite selectRows_elem by done. by rewrite claimable_spec.
  - intros id. by apply claim_lookup.
Qed.

(** [FetchExpired] takes over the running rows whose lease has passed, oldest lease first,
    up to [limit], giving each a fresh lease and leaving its attempt alone; every other row is
    as before. *)
Theorem FetchExpired_reclaims now lf limit d :
  wf d ->
  exists due,
    let taken := take (budget limit due) due in
    (FetchExpired now lf limit d).2 = Ok (renewRow (now + lf) <$> taken) /\
    StronglySorted (dueBefore byLeasedUntil) due /\ NoDup (ID <$> due) /\
    (forall r, r ∈ due <-> jobs d !! ID r = Some r /\ State r = StateRunning /\
                           exists t, LeasedUntil r = Some t /\ t <= now) /\
    forall id, jobs (FetchExpired now lf limit d).1 !! id =
      if decide (id ∈ ID <$> taken) then renewRow (now + lf) <$> jobs d !! id else jobs d !! id.
Proof.
  intros Hd. exists (selectRows d byLeasedUntil (expired now)). simpl.
  unfold FetchExpired. rewrite claimLoop_eq. simpl. split_all.
  - done.
  - apply selectRows_dueBefore.
  - by apply selectRows_NoDup.
  - intros r. rewrite selectRows_elem by done. by rewrite expired_spec.
  - intros id. by apply claim_lookup.
Qed.

(** ** The attempt fence *)

(** The five writes that end an attempt. *)
Inductive marks (l : Lease) : call -> Prop :=
| marks_completed : marks l (CMarkCompleted l)
| marks_retryable t e : marks l (CMarkRetryable l t e)
| marks_dead e : marks l (CMarkDead l e)
| marks_cancelled e : marks l (CMarkCancelled l e)
| marks_snoozed t : marks l (CMarkSnoozed l t).

Lemma transition_not_held l apply d :
  (forall r, jobs d !! leaseID l = Some r -> ~ (State r = StateRunning /\ Attempt r = leaseAttempt l)) ->
  (transition l apply d).1 = d.
Proof.
  intros H. destruct (transition_cases l apply d)
    as [[-> _]|(r & r' & Hr & Hs & Ha & _)]; [done|]. by destruct (H r Hr).
Qed.

Lemma marks_not_held l c now d :
  marks l c ->
  (forall r, jobs d !! leaseID l = Some r -> ~ (State r = StateRunning /\ Attempt r = leaseAttempt l)) ->
  exec now c d = d.
Proof. intros Hm H. destruct Hm; cbn [exec]; by apply transition_not_held. Qed.

Lemma extend_not_held l now lf d :
  wf d ->
  (forall r, jobs d !! leaseID l = Some r -> ~ (State r = StateRunning /\ Attempt r = leaseAttempt l)) ->
  exec now (CExtendLeases [l] lf) d = d.
Proof.
  intros Hd H. unfold exec, ExtendLeases. destruct d as [n m]. simpl in *. f_equal.
  unfold extendOne. destruct (m !! leaseID l) as [r|] eqn:E; [|done].
  case_bool_decide as Hs; simpl; [|done].
  destruct (Z.eqb_spec (Attempt r) (leaseAttempt l)); [|done]. by destruct (H r eq_refl).
Qed.

(** The holder of attempt [a] lost the job: the row is past that attempt, or on
    it and not running. *)
Definition fenced (a : Z) (r : JobRow) : Prop :=
  a <= Attempt r /\ (State r <> StateRunning \/ a < Attempt r).

Lemma quiet_fenced a r r' : quietStep r r' -> fenced a r -> fenced a r'.
Proof.
  intros [->|(_ & Hlc & Hna)] [Ha Hs]; [done|].
  destruct Hlc; unfold fenced, waitingState, finalState in *; destruct_or?;
    try congruence; split; try lia; try (left; congruence); right; lia.
Qed.

(** The attempt fence.  Once a job was returned to the queue (by the rescuer, a
    shutdown, a retry), or claimed again, the holder of attempt [a] can never
    record anything: after any further calls other than a redrive of this job,
    each of the five Mark calls on its lease, and a renewal of it, leaves the store
    as it is. *)
Theorem fence_refuses_stale_holder id a d r tr now c :
  wf d -> jobs d !! id = Some r -> fenced a r ->
  Forall (fun tc => notRedrive id tc.2) tr -> marks (MkLease id a) c ->
  exec now c (run tr d) = run tr d /\
  forall lf, exec now (CExtendLeases [MkLease id a] lf) (run tr d) = run tr d.
Proof.
  intros Hd Hr Hf Htr Hm.
  destruct (run_row (fenced a) (notRedrive id) id) with (tr := tr) (d := d) (r := r)
    as (r' & Hr' & [Hle Hs]); try done.
  { intros t c0 d0 r0 Hd0 Hn Hr0 Hf0.
    destruct (exec_row_quiet t c0 d0 id r0 Hd0 Hn Hr0) as (r1 & ? & ?).
    exists r1. split; [done|]. by eapply quiet_fenced. }
  assert (forall r, jobs (run tr d) !! id = Some r ->
            ~ (State r = StateRunning /\ Attempt r = a)) as Hno.
  { intros r0 Hr0 [? ?]. assert (r0 = r') as -> by congruence. destruct Hs; [done|lia]. }
  split; [by eapply marks_not_held|]. intros lf. apply extend_not_held; auto with drover.
Qed.

(** *** Where the fence stops *)

Definition demoParams (key : string) : InsertParams :=
  {| ipKind := "k"; ipQueue := "default"; ipArgs := "{}"; ipScheduledAt := 0;
     ipUniqueKey := key |}.

Definition demoLease : Duration := 60.

(** One worker claims the job at [t] and dies; the rescuer takes the job over
    after the lease, and hands it back or buries it. *)
Definition abandonedAttempt (t attempt : Z) (last : bool) : list (Time * call) :=
  let l := MkLease 1 attempt in
  [(t, CFetchAvailable "default" demoLease 1);
   (t + 100, CFetchExpired demoLease 100);
   (t + 100, if last then CMarkDead l (Some (Raw JNull))
             else CMarkRetryable l (t + 100) (Some (Raw JNull)))].

Fixpoint abandonedAttempts (n : nat) (t attempt : Z) : list (Time * call) :=
  match n with
  | O => []
  | S n' => abandonedAttempt t attempt (attempt =? 25) ++
            abandonedAttempts n' (t + 1000) (attempt + 1)
  end.

(** All 25 attempts abandoned, the job dead, redriven by the operator, and
    claimed once more: attempt 1 again. *)
Definition redriveTrace : list (Time * call) :=
  (1000, CInsert (demoParams "")) :: abandonedAttempts 25 2000 1 ++
  [(100000, CRedriveDead 1); (100001, CFetchAvailable "default" demoLease 1)].

(** A redrive resets the attempt, so the fence does not hold across one: a worker that
    claimed attempt 1 and hung while the job went through its 25 attempts, died and was
    redriven, completes the attempt 1 that another worker is now running. *)
Theorem redrive_reopens_the_fence :
  let d := run redriveTrace New in
  (exists r, jobs d !! 1 = Some r /\ State r = StateRunning /\ Attempt r = 1) /\
  exists r, jobs (exec 100002 (CMarkCompleted (MkLease 1 1)) d) !! 1 = Some r /\
            State r = StateCompleted.
Proof. split; eexists; vm_compute; eauto. Qed.

(** The first worker claims attempt 1 and stalls past its lease; the rescuer
    takes the job over, on the same attempt; the worker comes back and snoozes
    the job, which gives the attempt back; a second worker claims attempt 1. *)
Definition snoozeRaceTrace : list (Time * call) :=
  [(1000, CInsert (demoParams ""));
   (2000, CFetchAvailable "default" demoLease 1);
   (2100, CFetchExpired demoLease 100);
   (2101, CMarkSnoozed (MkLease 1 1) 2101);
   (2102, CFetchAvailable "default" demoLease 1)].

(** The rescuer takes a job over without a new attempt number, so the worker it presumed
    dead shares its lease.  If that worker snoozes the job before the rescuer has
    disposed of it, the next claim gets the same number again, and the rescuer's write
    lands on the new holder's attempt. *)
Theorem snooze_race_defeats_the_fence :
  let d := run snoozeRaceTrace New in
  (exists r, jobs d !! 1 = Some r /\ State r = StateRunning /\ Attempt r = 1 /\
             LeasedUntil r = Some (2102 + demoLease)) /\
  exists r, jobs (exec 2103 (CMarkRetryable (MkLease 1 1) 2103 (Some (Raw JNull))) d) !! 1
              = Some r /\ State r = StateRetryable.
Proof. split; eexists; vm_compute; eauto. Qed.

(** ** Unique keys *)

(** The row occupies the unique slot of this queue, kind and key. *)
Definition occupies (d : MemDriver) (q k key : string) : Prop :=
  key <> "" /\ exists id r, jobs d !! id = Some r /\ uniqueActive (State r) = true /\
    UniqueKey r = key /\ Queue r = q /\ Kind r = k.

Definition inSlot (q k key : string) (r : JobRow) : Prop :=
  UniqueKey r = key /\ Queue r = q /\ Kind r = k.

Lemma sameSlot_spec q k key r : sameSlot q k key r = true <-> inSlot q k key r.
Proof. unfold sameSlot, inSlot. rewrite !andb_true_iff, !String.eqb_eq. tauto. Qed.

Lemma existsb_elem {A} (f : A -> bool) l : existsb f l = true <-> exists x, x ∈ l /\ f x = true.
Proof. rewrite existsb_exists. by setoid_rewrite <- list_elem_of_In. Qed.

Lemma uniqueConflict_spec d q k key extra :
  uniqueConflict d q k key extra = true <->
  occupies d q k key \/ (key <> "" /\ exists r, r ∈ extra /\ inSlot q k key r).
Proof.
  unfold uniqueConflict, occupies. destruct (String.eqb_spec key "") as [->|Hne].
  - split; [done|]. intros [[H _]|[H _]]; done.
  - rewrite orb_true_iff, !existsb_elem. split.
    + intros [(r & Hr & [Hs Ha]%andb_true_iff)|(r & Hr & Hs)]; apply sameSlot_spec in Hs.
      * apply elem_of_rows in Hr as [id Hr]. destruct Hs as (? & ? & ?).
        left. split; [done|]. exists id, r. auto.
      * right. split; [done|]. by exists r.
    + intros [(_ & id & r & H & ? & ? & ? & ?)|(_ & r & Hr & Hs)].
      * left. exists r. rewrite andb_true_iff, sameSlot_spec, elem_of_rows.
        unfold inSlot. split_all; eauto.
      * right. exists r. by rewrite sameSlot_spec.
Qed.

(** [Insert] refuses exactly a job whose non-empty unique key is held by a live job of
    its queue and kind, and then changes nothing; otherwise it stores one row under the
    next id, available when it is due and scheduled when its time is still to
    come, with the zero time read as now. *)
Theorem Insert_spec now p d :
  (occupies d (ipQueue p) (ipKind p) (ipUniqueKey p) /\
     Insert now p d = (d, Err (Sent DrvDuplicateJob))) \/
  (~ occupies d (ipQueue p) (ipKind p) (ipUniqueKey p) /\
   exists row,
     Insert now p d = (MkDriver (nextID d + 1) (<[nextID d + 1 := row]> (jobs d)), Ok row) /\
     freshRow (nextID d + 1) row /\ Kind row = ipKind p /\ Queue row = ipQueue p /\
     Args row = ipArgs p /\ UniqueKey row = ipUniqueKey p /\ CreatedAt row = now /\
     ScheduledAt row = (if decide (ipScheduledAt p = 0) then now else ipScheduledAt p) /\
     (State row = StateScheduled <-> now < ScheduledAt row)).
Proof.
  pose proof (uniqueConflict_spec d (ipQueue p) (ipKind p) (ipUniqueKey p) []) as HU.
  unfold Insert. destruct (uniqueConflict _ _ _ _ _).
  - left. split; [|done].
    destruct (proj1 HU eq_refl) as [|(_ & r & Hr & _)]; [done|]. by apply not_elem_of_nil in Hr.
  - right. split.
    + intros Hocc. assert (false = true) by (apply HU; by left). done.
    + eexists. split; [done|]. split; [apply jobFromParams_fresh|].
      unfold jobFromParams, IsZero, After. simpl. split_all; try done.
      * case_decide; destruct (Z.eqb_spec (ipScheduledAt p) 0); congruence.
      * destruct (Z.ltb_spec now (if ipScheduledAt p =? 0 then now else ipScheduledAt p));
          split; intros; (discriminate || lia || done).
Qed.

(** The items of a batch collide: with a live row, or with an earlier item. *)
Fixpoint batchConflict (d : MemDriver) (earlier batch : list InsertParams) : Prop :=
  match batch with
  | [] => False
  | p :: rest =>
      occupies d (ipQueue p) (ipKind p) (ipUniqueKey p) \/
      (ipUniqueKey p <> "" /\ exists p0, p0 ∈ earlier /\ ipUniqueKey p0 = ipUniqueKey p /\
         ipQueue p0 = ipQueue p /\ ipKind p0 = ipKind p) \/
      batchConflict d (earlier ++ [p]) rest
  end.

(** The pending rows stand for the items before them. *)
Definition standsFor (r : JobRow) (p : InsertParams) : Prop :=
  inSlot (ipQueue p) (ipKind p) (ipUniqueKey p) r.

Lemma pendingRows_conflict d now batch i pending earlier :
  Forall2 standsFor pending earlier ->
  pendingRows d now i pending batch = None <-> batchConflict d earlier batch.
Proof.
  revert i pending earlier. induction batch as [|p batch IH]; intros i pending earlier HF;
    simpl; [done|].
  pose proof (uniqueConflict_spec d (ipQueue p) (ipKind p) (ipUniqueKey p) pending) as HU.
  assert ((exists r, r ∈ pending /\ inSlot (ipQueue p) (ipKind p) (ipUniqueKey p) r) <->
          (exists p0, p0 ∈ earlier /\ ipUniqueKey p0 = ipUniqueKey p /\
             ipQueue p0 = ipQueue p /\ ipKind p0 = ipKind p)) as HE.
  { clear -HF. induction HF as [|r p0 l l' (H1 & H2 & H3) HF IH].
    - split; intros (x & Hx & _); by apply not_elem_of_nil in Hx.
    - split; intros (x & [->|Hx]%elem_of_cons & Hs).
      + destruct Hs as (? & ? & ?). exists p0. rewrite elem_of_cons. split_all; auto; congruence.
      + destruct (proj1 IH) as (y & ? & ?); [by exists x|]. exists y. rewrite elem_of_cons. auto.
      + destruct Hs as (? & ? & ?). exists r. rewrite elem_of_cons. unfold inSlot.
        split_all; auto; congruence.
      + destruct (proj2 IH) as (y & ? & ?); [by exists x|]. exists y. rewrite elem_of_cons. auto. }
  destruct (uniqueConflict _ _ _ _ _).
  - split; [intros _|done]. destruct (proj1 HU eq_refl) as [|[? ?]]; [by left|].
    right; left. split; [done|]. by apply HE.
  - rewrite (IH _ _ (earlier ++ [p])).
    + split; [auto|]. intros [H|[[H1 H2]|H]]; [| |done].
      * assert (false = true) by (apply HU; by left). done.
      * assert (false = true) by (apply HU; right; split; [done|by apply HE]). done.
    + apply Forall2_app; [done|]. constructor; [by unfold standsFor, inSlot, jobFromParams|constructor].
Qed.

(** C23: [InsertMany] is all or nothing.  It fails exactly when an item collides with a live
    row or with an earlier item, and then changes nothing; otherwise it returns one row per
    item in input order, under consecutive new ids, and stores exactly those beside the rows
    already there. *)
Theorem InsertMany_atomic now batch d :
  wf d ->
  (batchConflict d [] batch /\ InsertMany now batch d = (d, Err (Sent DrvDuplicateJob))) \/
  (~ batchConflict d [] batch /\
   exists d', InsertMany now batch d = (d', Ok (batchRows now (nextID d) batch)) /\
     nextID d' = nextID d + Z.of_nat (length batch) /\
     (forall r, r ∈ batchRows now (nextID d) batch -> jobs d' !! ID r = Some r) /\
     (forall id, id <= nextID d -> jobs d' !! id = jobs d !! id)).
Proof.
  intros Hd. pose proof (pendingRows_conflict d now batch 0 [] [] (List.Forall2_nil standsFor)) as HC.
  destruct (InsertMany now batch d) as [d' [out|e]] eqn:E.
  - right. split.
    + intros Hc. apply HC in Hc. unfold InsertMany in E. destruct batch; [done|].
      by rewrite Hc in E.
    + apply InsertMany_ok in E as [-> ->]. eexists. split_all; [done|done| |]; simpl.
      * intros r Hr. rewrite writeRows_in by (done || apply batchRows_NoDup). done.
      * intros id Hid. apply writeRows_notin. intros Hin.
        apply list_elem_of_fmap in Hin as (r & -> & Hr).
        apply batchRows_ids in Hr as [? _]. lia.
  - left. unfold InsertMany in E. destruct batch; [done|].
    destruct (pendingRows _ _ _ _ _) eqn:EP; [done|]. injection E as <- <-.
    split; [by apply HC|done].
Qed.

(** *** The unique-slot invariant *)

Lemma quiet_active r r' :
  quietStep r r' -> uniqueActive (State r') = true -> uniqueActive (State r) = true.
Proof.
  intros [->|(_ & Hlc & Hna)] Ha; [done|].
  destruct Hlc; unfold waitingState, finalState in *; destruct_or?;
    repeat match goal with H : State _ = _ |- _ => rewrite H in * end; done.
Qed.

Lemma quiet_slot r r' :
  quietStep r r' -> UniqueKey r' = UniqueKey r /\ Queue r' = Queue r /\ Kind r' = Kind r.
Proof. intros [->|((? & ? & ? & ? & ? & ? & ?) & _ & _)]; done. Qed.

(** Calls that only change rows keep the slots unique. *)
Lemma quiet_unique d d' :
  quiet d d' -> nextID d' = nextID d -> uniqueSlots d -> uniqueSlots d'.
Proof.
  intros [_ Hq] Hn HU id1 id2 r1' r2' H1 H2 Hk Hkk Hqq Hkd Ha1 Ha2.
  assert (forall id r', jobs d' !! id = Some r' ->
            exists r, jobs d !! id = Some r /\ quietStep r r') as Hold.
  { intros id r' H. specialize (Hq id). rewrite H in Hq.
    destruct (jobs d !! id) as [r|]; [eauto|]. destruct Hq. lia. }
  destruct (Hold id1 r1' H1) as (r1 & E1 & Q1), (Hold id2 r2' H2) as (r2 & E2 & Q2).
  pose proof (quiet_slot _ _ Q1) as (? & ? & ?). pose proof (quiet_slot _ _ Q2) as (? & ? & ?).
  apply (HU id1 id2 r1 r2 E1 E2); try congruence; by eapply quiet_active.
Qed.

(** One more row, in a free slot. *)
Lemma insert_unique d n row :
  uniqueSlots d -> ~ occupies d (Queue row) (Kind row) (UniqueKey row) ->
  jobs d !! ID row = None ->
  uniqueSlots (MkDriver n (<[ID row := row]> (jobs d))).
Proof.
  intros HU Hno Hnone id1 id2 r1 r2 H1 H2 Hk Hkk Hq Hkd Ha1 Ha2. simpl in *.
  rewrite lookup_insert_Some in H1, H2.
  destruct H1 as [[<- <-]|[Hn1 H1]], H2 as [[<- <-]|[Hn2 H2]]; [done| | |by eapply HU].
  - exfalso. apply Hno. split; [done|]. exists id2, r2. auto.
  - exfalso. apply Hno. split; [congruence|]. exists id1, r1. auto.
Qed.

Lemma writeRows_origin m l id r :
  writeRows (fun r => r) m l !! id = Some r -> r ∈ l \/ m !! id = Some r.
Proof.
  unfold writeRows. revert m. induction l as [|x l IH]; intros m; simpl; [auto|].
  intros H. apply IH in H as [H|H]; [left; by right|].
  apply lookup_insert_Some in H as [[_ ->]|[_ H]]; [left; by left | by right].
Qed.

(** The first loop of [InsertMany] checks each item against the rows the
    earlier items will store. *)
Lemma pendingRows_unique d now batch i pending out n :
  wf d -> Forall (fun r => ID r <= nextID d + Z.of_nat i) pending ->
  pendingRows d now i pending batch = Some out ->
  uniqueSlots (MkDriver n (writeRows (fun r => r) (jobs d) pending)) ->
  uniqueSlots (MkDriver n (writeRows (fun r => r) (jobs d) out)).
Proof.
  intros Hd. revert i pending. induction batch as [|p batch IH]; intros i pending Hid; simpl.
  - by intros [= ->].
  - pose proof (uniqueConflict_spec d (ipQueue p) (ipKind p) (ipUniqueKey p) pending) as HU.
    destruct (uniqueConflict _ _ _ _ _); [done|]. intros Hp Hus.
    eapply IH; [|exact Hp|]; clear IH.
    + rewrite Forall_app, Forall_singleton. split; [|simpl; lia].
      eapply Forall_impl; [done|]. simpl. lia.
    + unfold writeRows at 1. rewrite foldl_app. simpl.
      set (row := jobFromParams _ _ _). set (m := foldl _ _ _).
      apply (insert_unique (MkDriver n m)).
      * done.
      * intros (Hk & id & r & Hr & Ha & Hs). simpl in Hr.
        apply writeRows_origin in Hr. assert (false = true); [|done]. apply HU.
        destruct Hr as [Hr|Hr]; [right|left]; (split; [done|]); eauto 10.
      * change (m !! ID row = None). assert (m !! ID row = jobs d !! ID row) as ->.
        { apply writeRows_notin. intros Hin. apply list_elem_of_fmap in Hin as (r & Heq & Hr).
          rewrite Forall_forall in Hid. apply Hid in Hr. subst row. simpl in *. lia. }
        apply wf_no_next; [done|]. subst row. simpl. lia.
Qed.

Lemma InsertMany_unique now batch d :
  wf d -> uniqueSlots d -> uniqueSlots (InsertMany now batch d).1.
Proof.
  intros Hd HU. unfold InsertMany. destruct batch as [|p batch]; [done|].
  destruct (pendingRows d now 0 [] (p :: batch)) as [out|] eqn:E; [|done].
  eapply pendingRows_unique; [done | | done |]; [constructor|]. by destruct d.
Qed.

Definition noRedrive (c : call) : Prop :=
  match c with CRedriveDead _ => False | _ => True end.

Lemma quiet_nextID now c d :
  match c with CInsert _ | CInsertMany _ | CRedriveDead _ => True
             | _ => nextID (exec now c d) = nextID d end.
Proof.
  destruct c; try done; cbn [exec];
    try (unfold FetchAvailable, FetchExpired; by destruct (claimLoop _ _ _ _ _));
    try (unfold MarkCompleted, MarkDead, MarkCancelled, finalize, MarkRetryable, MarkSnoozed;
         match goal with |- context [transition ?l ?f ?d] =>
           destruct (transition_cases l f d) as [[-> _]|(? & ? & _ & _ & _ & _ & ->)] end; done).
  unfold OperatorCancel. simpl. destruct (jobs d !! id) as [r|]; [|done].
  by destruct (cancellable (State r)).
Qed.

Lemma exec_unique now c d : wf d -> noRedrive c -> uniqueSlots d -> uniqueSlots (exec now c d).
Proof.
  intros Hd Hc HU. pose proof (exec_quiet now c d Hd) as Hq.
  pose proof (quiet_nextID now c d) as Hn.
  destruct c as [p|batch| | | | | | | | | | ]; try (by eapply quiet_unique).
  - cbn [exec]. unfold Insert.
    pose proof (uniqueConflict_spec d (ipQueue p) (ipKind p) (ipUniqueKey p) []) as HC.
    destruct (uniqueConflict _ _ _ _ _); [done|]. apply insert_unique; [done| |].
    + intros Ho. assert (false = true); [|done]. apply HC. by left.
    + simpl. apply wf_no_next; [done|lia].
  - by apply InsertMany_unique.
Qed.

(** C13: Without redrives, no reachable store holds two live jobs of one queue and kind with the
    same non-empty unique key. *)
Theorem unique_slots_invariant tr :
  Forall (fun tc => noRedrive tc.2) tr -> uniqueSlots (run tr New).
Proof.
  assert (uniqueSlots New) as H0.
  { intros id1 id2 r1 r2 H. simpl in H. by rewrite lookup_empty in H. }
  revert H0. pose proof New_wf as Hw. revert Hw. generalize New.
  induction tr as [|[t c] tr IH]; intros d Hw HU Htr; [done|].
  apply Forall_cons in Htr as [Hc Htr]. simpl. apply IH; [by apply exec_wf| |done].
  by apply exec_unique.
Qed.

Definition uniqueWitnessTrace : list (Time * call) :=
  [(10, CInsert (demoParams "a")); (11, CInsert (demoParams "a"));
   (12, CFetchAvailable "default" demoLease 1); (13, CMarkCompleted (MkLease 1 1));
   (14, CInsertMany [demoParams "a"; demoParams "b"])].

Lemma unique_slots_witness :
  Forall (fun tc => noRedrive tc.2) uniqueWitnessTrace /\
  uniqueSlots (run uniqueWitnessTrace New) /\ nextID (run uniqueWitnessTrace New) = 3.
Proof.
  assert (Forall (fun tc => noRedrive tc.2) uniqueWitnessTrace) as H
    by (repeat constructor).
  split; [exact H|]. split; [|vm_compute; reflexivity].
  exact (unique_slots_invariant uniqueWitnessTrace H).
Defined.

(** A unique job dies, its key is taken by a new job, and the operator
    redrives the dead one. *)
Definition redriveUniqueTrace : list (Time * call) :=
  [(10, CInsert (demoParams "a"));
   (12, CFetchAvailable "default" demoLease 1);
   (13, CMarkDead (MkLease 1 1) (Some (Raw JNull)));
   (14, CInsert (demoParams "a"));
   (15, CRedriveDead 1)].

(** [RedriveDead] does not look at unique keys: redriving a dead job whose key was
    taken meanwhile leaves two live jobs in one unique slot. *)
Theorem redrive_breaks_unique_slots : ~ uniqueSlots (run redriveUniqueTrace New).
Proof.
  intros H. assert (1 = 2) as E; [|done].
  eapply H; [vm_compute; reflexivity | vm_compute; reflexivity | done ..].
Qed.

(** ** The storage contract *)

#[export] Instance memDriverOps : Driver MemDriver := {
  rowAt := fun d id => jobs d !! id;
  drvTime := fun t => t;
  drvSpan := fun d => d;
  drvDoc := fun j => j;
  drvUsesCtx := false;
  drvInsert := Insert;
  drvInsertTx := fun _ => InsertTx;
  drvInsertMany := InsertMany;
  drvInsertManyTx := fun _ => InsertManyTx;
  drvFetchAvailable := FetchAvailable;
  drvFetchExpired := FetchExpired;
  drvExtendLeases := ExtendLeases;
  drvMarkCompleted := MarkCompleted;
  drvMarkRetryable := fun _ => MarkRetryable;
  drvMarkDead := MarkDead;
  drvMarkCancelled := MarkCancelled;
  drvMarkSnoozed := fun _ => MarkSnoozed;
  drvStats := StatsOp;
  drvListJobs := ListJobs;
  drvGetJob := GetJob;
  drvOperatorCancel := OperatorCancel Datatypes.id Datatypes.id;
  drvRedriveDead := RedriveDead Datatypes.id Datatypes.id
}.

(** A guarded transition whose body succeeds on well-formed rows meets the
    contract's specification of a mark. *)
Lemma transition_mark l ap (f g : JobRow -> JobRow) d :
  wf d -> (forall r, rowWf r -> ap r = Ok (g r)) -> (forall r, setLeasedUntil None (g r) = f r) ->
  markSpec f l d (transition l ap d).
Proof.
  intros Hd Hap Hfg. split.
  - intros r (Hr & Hs & Ha). simpl in Hr. unfold transition. rewrite Hr.
    rewrite bool_decide_eq_true_2 by done. simpl. rewrite Ha, Z.eqb_refl. simpl.
    rewrite Hap by (by eapply wf_row). simpl. rewrite Hfg. split; [done|].
    split; simpl; [apply lookup_insert_eq|]. intros id' Hne. by rewrite lookup_insert_ne.
  - intros Hno _. unfold transition, refusal. simpl.
    destruct (jobs d !! leaseID l) as [r|] eqn:E; [|simpl; split; [done|]; eexists; split; done].
    case_bool_decide as Hs; simpl.
    + destruct (Z.eqb_spec (Attempt r) (leaseAttempt l)); simpl.
      * exfalso. apply (Hno r). done.
      * split; [done|]. eexists. split; [done|]. by rewrite decide_True.
    + split; [done|]. eexists. split; [done|]. by rewrite decide_False.
Qed.

Lemma appendError_detail r j : rowWf r -> appendError r (Some (Raw j)) = Ok (appendDetail j r).
Proof.
  intros Hr. destruct (rw_errors r Hr) as [l Hl]. rewrite (appendError_array r l j Hl).
  unfold appendDetail. by rewrite Hl.
Qed.

Lemma MarkCompleted_mark now l d : wf d -> markSpec (completedRow now) l d (MarkCompleted now l d).
Proof. intros Hd. by eapply transition_mark. Qed.

Lemma finalize_mark now l s j d :
  wf d -> markSpec (finalizedRow s now j) l d (finalize now l s (Some (Raw j)) d).
Proof.
  intros Hd. eapply (transition_mark _ _ _
    (fun r => setFinalizedAt (Some now) (setState s (appendDetail j r)))); [done| |done].
  intros r Hr. by rewrite appendError_detail.
Qed.

Lemma MarkRetryable_mark l t j d :
  wf d -> markSpec (retryRow t j) l d (MarkRetryable l t (Some (Raw j)) d).
Proof.
  intros Hd. eapply (transition_mark _ _ _
    (fun r => setScheduledAt t (setState StateRetryable (appendDetail j r)))); [done| |done].
  intros r Hr. by rewrite appendError_detail.
Qed.

Lemma MarkSnoozed_mark l t d : wf d -> markSpec (snoozedRow t) l d (MarkSnoozed l t d).
Proof. intros Hd. by eapply transition_mark. Qed.

Lemma FetchExpired_contract now lf limit s rows_ s' :
  wf s -> FetchExpired now lf limit s = (s', Ok rows_) ->
  wf s' /\ NoDup (ID <$> rows_) /\
  (forall r, r ∈ rows_ -> jobs s' !! ID r = Some r /\ State r = StateRunning /\
     LeasedUntil r = Some (now + lf) /\
     exists r0 t, jobs s !! ID r = Some r0 /\ State r0 = StateRunning /\
       LeasedUntil r0 = Some t /\ t <= now /\ r = setLeasedUntil (Some (now + lf)) r0) /\
  (forall id, id ∉ ID <$> rows_ -> jobs s' !! id = jobs s !! id).
Proof.
  intros Hd H. unfold FetchExpired in H. rewrite claimLoop_eq in H.
  set (due := selectRows s byLeasedUntil (expired now)) in *.
  set (taken := take (budget limit due) due) in *. injection H as <- <-.
  assert (ID <$> (renewRow (now + lf) <$> taken) = ID <$> taken) as Hids
    by (by rewrite <- list_fmap_compose).
  assert (forall id, writeRows (renewRow (now + lf)) (jobs s) taken !! id =
    if decide (id ∈ ID <$> taken) then renewRow (now + lf) <$> jobs s !! id else jobs s !! id)
    as Hl by (intros id; by apply claim_lookup).
  rewrite Hids. split_all.
  - pose proof (FetchExpired_evolves now lf limit s Hd) as He. unfold FetchExpired in He.
    rewrite claimLoop_eq in He. eapply evolves_wf; [done|]. by apply quiet_evolves.
  - by apply selected_NoDup.
  - intros r Hr. apply list_elem_of_fmap in Hr as (r0 & -> & Hr0). simpl.
    pose proof (take_elem _ _ _ Hr0) as Hsel. apply selectRows_elem in Hsel as [Hlk Hex]; [|done].
    apply expired_spec in Hex as (Hrun & t & Ht & Hle). rewrite Hl.
    rewrite decide_True by (apply list_elem_of_fmap; eauto). rewrite Hlk. simpl.
    split_all; try done. exists r0, t. done.
  - intros id Hid. simpl. rewrite Hl. by rewrite decide_False.
Qed.

Lemma FetchAvailable_contract now q lf limit s rows_ s' :
  wf s -> FetchAvailable now q lf limit s = (s', Ok rows_) ->
  wf s' /\ NoDup (ID <$> rows_) /\
  (0 <= limit -> Z.of_nat (length rows_) <= limit) /\
  (forall r, r ∈ rows_ -> jobs s' !! ID r = Some r /\
     exists r0, jobs s !! ID r = Some r0 /\ dueIn q now r0 /\ r = claimedRow now lf r0) /\
  (forall id, id ∉ ID <$> rows_ -> jobs s' !! id = jobs s !! id).
Proof.
  intros Hd H. unfold FetchAvailable in H. rewrite claimLoop_eq in H.
  set (due := selectRows s byScheduledAt (claimable now q)) in *.
  set (taken := take (budget limit due) due) in *. injection H as <- <-.
  assert (ID <$> (claimRow now lf <$> taken) = ID <$> taken) as Hids
    by (by rewrite <- list_fmap_compose).
  assert (forall id, writeRows (claimRow now lf) (jobs s) taken !! id =
    if decide (id ∈ ID <$> taken) then claimRow now lf <$> jobs s !! id else jobs s !! id)
    as Hl by (intros id; by apply claim_lookup).
  rewrite Hids. split_all.
  - pose proof (FetchAvailable_evolves now q lf limit s Hd) as He. unfold FetchAvailable in He.
    rewrite claimLoop_eq in He. eapply evolves_wf; [done|]. by apply quiet_evolves.
  - by apply selected_NoDup.
  - intros Hlim. rewrite length_fmap. unfold taken, budget. rewrite length_take.
    destruct (Z.ltb_spec limit 0); lia.
  - intros r Hr. apply list_elem_of_fmap in Hr as (r0 & -> & Hr0). simpl.
    pose proof (take_elem _ _ _ Hr0) as Hsel. apply selectRows_elem in Hsel as [Hlk Hex]; [|done].
    apply claimable_spec in Hex. rewrite Hl.
    rewrite decide_True by (apply list_elem_of_fmap; eauto). rewrite Hlk. simpl.
    split; [done|]. exists r0. done.
  - intros id Hid. simpl. rewrite Hl. by rewrite decide_False.
Qed.

(** The in-memory fetches do not fail. *)
Lemma FetchExpired_no_err now lf limit s s' e :
  wf s -> FetchExpired now lf limit s = (s', Err e) -> s' = s.
Proof. intros _. unfold FetchExpired. by destruct (claimLoop _ _ _ _ _). Qed.

Lemma FetchAvailable_no_err now q lf limit s s' e :
  wf s -> FetchAvailable now q lf limit s = (s', Err e) -> s' = s.
Proof. intros _. unfold FetchAvailable. by destruct (claimLoop _ _ _ _ _). Qed.

Lemma renewed_spec ls r :
  renewed ls r = true <-> State r = StateRunning /\ leaseOf r ∈ ls.
Proof.
  unfold renewed. rewrite andb_true_iff, bool_decide_eq_true, existsb_elem. f_equiv. split.
  - intros ([i a] & Hin & H). unbool. simpl in *. unfold leaseOf.
    assert (i = ID r) as -> by lia. assert (a = Attempt r) as -> by lia. done.
  - intros Hin. eexists. split; [done|]. simpl. by rewrite !Z.eqb_refl.
Qed.

Lemma ExtendLeases_contract now ls lf s :
  wf s -> Forall (fun l => int32Attempt (leaseAttempt l)) ls ->
  wf (ExtendLeases now ls lf s).1 /\
  ((ExtendLeases now ls lf s).2 = None -> forall id,
     jobs (ExtendLeases now ls lf s).1 !! id = renewedBy now lf ls <$> jobs s !! id).
Proof.
  intros Hd _. split; [exact (exec_wf now (CExtendLeases ls lf) s Hd)|]. intros _ id. simpl.
  destruct (jobs s !! id) as [r|] eqn:E; [|by rewrite extend_lookup_None].
  rewrite (extend_lookup _ _ _ _ _ (wf_key s Hd) E). simpl. f_equal. unfold renewedBy.
  pose proof (renewed_spec ls r) as Hn. case_decide as H.
  - by rewrite (proj2 Hn H).
  - destruct (renewed ls r); [|done]. exfalso. apply H, Hn, eq_refl.
Qed.

Lemma ExtendLeases_no_err now ls lf s s' e : ExtendLeases now ls lf s = (s', Some e) -> s' = s.
Proof. done. Qed.

Lemma exact_near (t : Z) : t - 0 <= t <= t.
Proof. lia. Qed.

Lemma exact_span (d : Z) : 0 <= d <= 365 * 24 * Hour -> d - 0 <= d.
Proof. lia. Qed.

#[export] Instance memDriverLaws : DriverLaws MemDriver := {
  drvWf := wf;
  drvTick := 0;
  drvTime_near := exact_near;
  drvSpan_near := exact_span;
  rowAt_id := fun s id r Hd => wf_key s Hd id r;
  running_has_lease := fun s id r Hd Hr => rw_lease r (wf_row s Hd id r Hr);
  markCompleted_law := MarkCompleted_mark;
  markRetryable_law := fun _ l t fs => MarkRetryable_mark l t (JObject fs);
  markDead_law := fun now l fs => finalize_mark now l StateDead (JObject fs);
  markCancelled_law := fun now l fs => finalize_mark now l StateCancelled (JObject fs);
  markSnoozed_law := fun _ => MarkSnoozed_mark;
  markCompleted_wf := fun now l => exec_wf now (CMarkCompleted l);
  markRetryable_wf := fun now l t j => exec_wf now (CMarkRetryable l t (Some (Raw (JObject j))));
  markDead_wf := fun now l j => exec_wf now (CMarkDead l (Some (Raw (JObject j))));
  markCancelled_wf := fun now l j => exec_wf now (CMarkCancelled l (Some (Raw (JObject j))));
  markSnoozed_wf := fun now l t => exec_wf now (CMarkSnoozed l t);
  fetchExpired_law := FetchExpired_contract;
  fetchExpired_err := FetchExpired_no_err;
  fetchAvailable_law := FetchAvailable_contract;
  fetchAvailable_err := FetchAvailable_no_err;
  extendLeases_law := ExtendLeases_contract;
  extendLeases_err := ExtendLeases_no_err
}.

(** C6: Every Mark call is applied exactly when the job is running on the attempt its lease
    names: then it succeeds, changes that row as the contract says (state, schedule, recorded
    error, attempt, lease cleared) and no other.  Otherwise it changes nothing and reports
    why: not found, not running, or on another attempt. *)
Theorem marks_guarded now l t j d :
  wf d ->
  markSpec (completedRow now) l d (MarkCompleted now l d) /\
  markSpec (retryRow t j) l d (MarkRetryable l t (Some (Raw j)) d) /\
  markSpec (finalizedRow StateDead now j) l d (MarkDead now l (Some (Raw j)) d) /\
  markSpec (finalizedRow StateCancelled now j) l d (MarkCancelled now l (Some (Raw j)) d) /\
  markSpec (snoozedRow t) l d (MarkSnoozed l t d).
Proof.
  intros Hd. split_all; auto using MarkCompleted_mark, MarkRetryable_mark, MarkSnoozed_mark;
    by apply finalize_mark.
Qed.

(** A heartbeat renews exactly the running rows whose id and attempt are among the leases,
    all to the same instant, and touches nothing else; it never fails. *)
Theorem ExtendLeases_renews now ls lf d id r :
  wf d -> jobs d !! id = Some r ->
  (ExtendLeases now ls lf d).2 = None /\
  (State r = StateRunning /\ MkLease id (Attempt r) ∈ ls ->
     jobs (ExtendLeases now ls lf d).1 !! id = Some (setLeasedUntil (Some (now + lf)) r)) /\
  (~ (State r = StateRunning /\ MkLease id (Attempt r) ∈ ls) ->
     jobs (ExtendLeases now ls lf d).1 !! id = Some r).
Proof.
  intros Hd Hr. pose proof (wf_key d Hd id r Hr) as Hid. split; [done|].
  unfold ExtendLeases. simpl. rewrite (extend_lookup _ _ _ id r (wf_key d Hd) Hr).
  pose proof (renewed_spec ls r) as Hn. unfold leaseOf in Hn. rewrite Hid in Hn.
  destruct (renewed ls r); split; intros H; try done.
  - exfalso. apply H. by apply Hn.
  - apply Hn in H. done.
Qed.

(** ** Operator actions, with other callers in between *)

(** What an operator action promises: [eligible] states are changed by [f].
    It writes at most once, to the row as it is when it writes. *)
Definition operatorSpec (eligible : JobState -> Prop) (f : JobRow -> JobRow)
    (reread redo : MemDriver -> MemDriver) (id : Z) (d : MemDriver)
    (result : MemDriver * res error JobRow) : Prop :=
  match result.2 with
  | Ok row =>
      exists d0 r0, (d0 = d \/ d0 = redo (reread d)) /\ jobs d0 !! id = Some r0 /\
        eligible (State r0) /\ row = f r0 /\
        result.1 = MkDriver (nextID d0) (<[id := row]> (jobs d0))
  | Err e =>
      (forall r, jobs d !! id = Some r -> ~ eligible (State r)) /\
      (result.1 = d \/ result.1 = reread d \/ result.1 = redo (reread d)) /\
      (errorsIs e DrvNotFound = true /\ jobs result.1 !! id = None \/
       errorsIs e DrvInvalidTransition = true /\
       exists r, jobs result.1 !! id = Some r /\ ~ eligible (State r))
  end.

(** The common shape of the two operator methods. *)
Fixpoint guardedUpdate (eligible : JobState -> bool) (f : JobRow -> JobRow) (want : string)
    (reread redo : MemDriver -> MemDriver) (id : Z) (retries : nat) (d : MemDriver)
    : MemDriver * res error JobRow :=
  match jobs d !! id with
  | None => (d, Err (errNotFound id))
  | Some row =>
      if negb (eligible (State row)) then
        afterOperatorMiss reread redo id (State row) want eligible
          (match retries with
           | O => None
           | S k => Some (guardedUpdate eligible f want reread redo id k)
           end) d
      else (MkDriver (nextID d) (<[id := f row]> (jobs d)), Ok (f row))
  end.

Lemma OperatorCancel_guarded reread redo now id d :
  OperatorCancel reread redo now id d =
  guardedUpdate cancellable (cancelRow now) "cancellable" reread redo id 1 d.
Proof. reflexivity. Qed.

Lemma RedriveDead_guarded reread redo now id d :
  RedriveDead reread redo now id d =
  guardedUpdate isDead (redriveRow now) "dead" reread redo id 1 d.
Proof. reflexivity. Qed.

Lemma guardedUpdate_spec eligible (P : JobState -> Prop) f want reread redo id d :
  (forall s, eligible s = true <-> P s) ->
  operatorSpec P f reread redo id d (guardedUpdate eligible f want reread redo id 1 d).
Proof.
  intros HP. assert (forall s, eligible s = false -> ~ P s) as HN
    by (intros s Hs Hp; apply HP in Hp; congruence).
  unfold operatorSpec. simpl. destruct (jobs d !! id) as [r|] eqn:E; simpl; [|split_all; auto; done].
  destruct (eligible (State r)) eqn:Hc; simpl.
  { exists d, r. rewrite <- HP. auto. }
  assert (forall r0, Some r = Some r0 -> ~ P (State r0)) as H0 by (intros r0 [= <-]; auto).
  destruct (jobs (reread d) !! id) as [r1|] eqn:E1; simpl; [|auto].
  destruct (eligible (State r1)) eqn:Hc1; simpl; [|rewrite E1; eauto 10].
  destruct (jobs (redo (reread d)) !! id) as [r2|] eqn:E2; simpl; [|auto].
  destruct (eligible (State r2)) eqn:Hc2; simpl.
  - exists (redo (reread d)), r2. rewrite <- HP. auto.
  - rewrite E2. eauto 10.
Qed.

Lemma isDead_spec s : isDead s = true <-> s = StateDead.
Proof. destruct s; simpl; split; done. Qed.

(** The operator actions under interference, with other callers free to run between the
    refusal and the second look and before the retry.  Cancelling applies to
    waiting and dead jobs, redriving to dead ones (attempt 0, available now, errors kept).  On success
    exactly that row was changed, as it was when the call wrote; on failure the call
    wrote nothing, the job was not eligible when it was first seen, and the error says
    whether the id is missing or in another state. *)
Theorem operator_actions_spec reread redo now id d :
  operatorSpec (fun s => waitingState s \/ s = StateDead) (cancelRow now) reread redo id d
    (OperatorCancel reread redo now id d) /\
  operatorSpec (fun s => s = StateDead) (redriveRow now) reread redo id d
    (RedriveDead reread redo now id d).
Proof.
  rewrite OperatorCancel_guarded, RedriveDead_guarded.
  split; apply guardedUpdate_spec; [apply cancellable_spec | apply isDead_spec].
Qed.

(** ** Witnesses

    A store in which one job ran and completed, one is running on its second
    attempt, one waits and one holds an expired lease. *)

Definition witnessTrace : list (Time * call) :=
  [(1000, CInsert (demoParams ""));
   (1001, CFetchAvailable "default" demoLease 1);
   (1002, CMarkCompleted (MkLease 1 1));
   (1003, CInsertMany [demoParams "a"; demoParams "b"; demoParams "c"]);
   (1004, CFetchAvailable "default" demoLease 2);
   (1005, CMarkRetryable (MkLease 2 1) 1005 (Some (Raw JNull)));
   (1100, CFetchAvailable "default" demoLease 1);
   (1101, CFetchAvailable "default" demoLease 1)].

Definition witnessStore : MemDriver := run witnessTrace New.

Definition witnessRow (id : Z) : JobRow :=
  default (jobFromParams 0 (demoParams "") 0) (jobs witnessStore !! id).

Lemma witnessStore_wf : wf witnessStore.
Proof. apply run_wf, New_wf. Qed.

Lemma terminal_rows_absorb_witness :
  State (witnessRow 1) = StateCompleted /\
  jobs (run [(2000, CFetchAvailable "default" demoLease 10); (2001, CRedriveDead 1);
             (2002, COperatorCancel 1)] witnessStore) !! 1 = Some (witnessRow 1).
Proof.
  split; [vm_compute; reflexivity|].
  apply terminal_rows_absorb; [apply witnessStore_wf | vm_compute; reflexivity|].
  left. vm_compute. reflexivity.
Defined.

(** Three jobs wait, and two may be claimed. *)
Definition waitingStore : MemDriver :=
  run [(1000, CInsert (demoParams "")); (1001, CInsert (demoParams "")); (1002, CInsert (demoParams ""))] New.

Lemma waitingStore_wf : wf waitingStore.
Proof. apply run_wf, New_wf. Qed.

Lemma FetchAvailable_claims_witness :
  ((fun r => (ID r, State r, Attempt r, LeasedUntil r)) <$>
     match (FetchAvailable 2000 "default" demoLease 2 waitingStore).2 with Ok rows => rows | Err _ => [] end) =
    [(1, StateRunning, 1, Some (2000 + demoLease)); (2, StateRunning, 1, Some (2000 + demoLease))] /\
  exists due,
    let taken := take (budget 2 due) due in
    (FetchAvailable 2000 "default" demoLease 2 waitingStore).2
      = Ok (claimedRow 2000 demoLease <$> taken) /\
    StronglySorted (dueBefore ScheduledAt) due /\ NoDup (ID <$> due) /\
    (forall r, r ∈ due <-> jobs waitingStore !! ID r = Some r /\ waitingState (State r) /\
                           Queue r = "default" /\ ScheduledAt r <= 2000) /\
    forall id, jobs (FetchAvailable 2000 "default" demoLease 2 waitingStore).1 !! id =
      if decide (id ∈ ID <$> taken) then claimedRow 2000 demoLease <$> jobs waitingStore !! id
      else jobs waitingStore !! id.
Proof.
  split; [vm_compute; reflexivity|].
  exact (FetchAvailable_claims 2000 "default" demoLease 2 waitingStore waitingStore_wf).
Defined.

Lemma FetchExpired_reclaims_witness :
  (ID <$> selectRows witnessStore byLeasedUntil (expired 1100)) = [3] /\
  exists due,
    let taken := take (budget 100 due) due in
    (FetchExpired 1100 demoLease 100 witnessStore).2 = Ok (renewRow (1100 + demoLease) <$> taken) /\
    StronglySorted (dueBefore byLeasedUntil) due /\ NoDup (ID <$> due) /\
    (forall r, r ∈ due <-> jobs witnessStore !! ID r = Some r /\ State r = StateRunning /\
                           exists t, LeasedUntil r = Some t /\ t <= 1100) /\
    forall id, jobs (FetchExpired 1100 demoLease 100 witnessStore).1 !! id =
      if decide (id ∈ ID <$> taken) then renewRow (1100 + demoLease) <$> jobs witnessStore !! id
      else jobs witnessStore !! id.
Proof.
  split; [vm_compute; reflexivity|].
  exact (FetchExpired_reclaims 1100 demoLease 100 witnessStore witnessStore_wf).
Defined.

(** The worker of attempt 1 of job 2 wakes up while attempt 2 runs. *)
Lemma fence_refuses_stale_holder_witness :
  exec 3001 (CMarkCompleted (MkLease 2 1)) (run [(3000, CRedriveDead 3)] witnessStore)
    = run [(3000, CRedriveDead 3)] witnessStore /\
  forall lf, exec 3001 (CExtendLeases [MkLease 2 1] lf) (run [(3000, CRedriveDead 3)] witnessStore)
    = run [(3000, CRedriveDead 3)] witnessStore.
Proof.
  apply (fence_refuses_stale_holder 2 1 witnessStore (witnessRow 2)).
  - apply witnessStore_wf.
  - vm_compute. reflexivity.
  - split; [vm_compute; discriminate | right; vm_compute; reflexivity].
  - repeat constructor. simpl. lia.
  - constructor.
Defined.

Lemma InsertMany_atomic_witness :
  let batch := [demoParams "z"; demoParams "z"] in
  (batchConflict witnessStore [] batch /\
     InsertMany 4000 batch witnessStore = (witnessStore, Err (Sent DrvDuplicateJob))) \/
  (~ batchConflict witnessStore [] batch /\
   exists d', InsertMany 4000 batch witnessStore
                = (d', Ok (batchRows 4000 (nextID witnessStore) batch)) /\
     nextID d' = nextID witnessStore + Z.of_nat (length batch) /\
     (forall r, r ∈ batchRows 4000 (nextID witnessStore) batch -> jobs d' !! ID r = Some r) /\
     (forall id, id <= nextID witnessStore -> jobs d' !! id = jobs witnessStore !! id)).
Proof. exact (InsertMany_atomic 4000 _ witnessStore witnessStore_wf). Defined.

Lemma marks_guarded_witness :
  State (witnessRow 2) = StateRunning /\ Attempt (witnessRow 2) = 2 /\
  markSpec (completedRow 5000) (MkLease 2 2) witnessStore
    (MarkCompleted 5000 (MkLease 2 2) witnessStore) /\
  markSpec (retryRow 5001 JNull) (MkLease 2 2) witnessStore
    (MarkRetryable (MkLease 2 2) 5001 (Some (Raw JNull)) witnessStore) /\
  markSpec (finalizedRow StateDead 5000 JNull) (MkLease 2 2) witnessStore
    (MarkDead 5000 (MkLease 2 2) (Some (Raw JNull)) witnessStore) /\
  markSpec (finalizedRow StateCancelled 5000 JNull) (MkLease 2 2) witnessStore
    (MarkCancelled 5000 (MkLease 2 2) (Some (Raw JNull)) witnessStore) /\
  markSpec (snoozedRow 5001) (MkLease 2 2) witnessStore
    (MarkSnoozed (MkLease 2 2) 5001 witnessStore).
Proof.
  split; [vm_compute; reflexivity|]. split; [vm_compute; reflexivity|].
  exact (marks_guarded 5000 (MkLease 2 2) 5001 JNull witnessStore witnessStore_wf).
Defined.

Lemma ExtendLeases_renews_witness :
  let ls := [MkLease 1 1; MkLease 2 2] in
  let out := ExtendLeases 6000 ls demoLease witnessStore in
  out.2 = None /\
  (State (witnessRow 2) = StateRunning /\ MkLease 2 (Attempt (witnessRow 2)) ∈ ls ->
     jobs out.1 !! 2 = Some (setLeasedUntil (Some (6000 + demoLease)) (witnessRow 2))) /\
  (~ (State (witnessRow 2) = StateRunning /\ MkLease 2 (Attempt (witnessRow 2)) ∈ ls) ->
     jobs out.1 !! 2 = Some (witnessRow 2)).
Proof.
  apply (ExtendLeases_renews 6000 [MkLease 1 1; MkLease 2 2] demoLease witnessStore 2).
  - apply witnessStore_wf.
  - vm_compute. reflexivity.
Defined.
