(* ===== verification/MemdriverReads.v ===== *)
(** * MemdriverReads: the readings of the in-memory driver

    [Stats] and [ListJobs] of internal/memdriver, against what they mean: counts
    of rows, the oldest claimable row, the newest matching rows.  The map walk
    of the source has no order; the theorems show that the answers do not
    depend on it. *)

From S2P Require Import Prelude GoTime GoError GoRuntime DriverSpec Memdriver MemdriverFacts MemdriverProps.

(** ** Counting *)

(** How many rows of a list sit on queue [q] in state [s]. *)
Definition depthOf (q s : string) (rs : list JobRow) : Z :=
  Z.of_nat (length (List.filter (fun r =>
    counted (State r) && String.eqb (Queue r) q && String.eqb (stateString (State r)) s) rs)).

(** [t] is the earliest due time of the rows of [q] claimable at [now]. *)
Definition oldestOf (now : Time) (q : string) (rs : list JobRow) (t : Time) : Prop :=
  (exists r, r ∈ rs /\ claimable now q r = true /\ ScheduledAt r = t) /\
  forall r, r ∈ rs -> claimable now q r = true -> t <= ScheduledAt r.

Lemma depthOf_snoc q s rs r :
  depthOf q s (rs ++ [r]) = depthOf q s rs +
  (if counted (State r) && String.eqb (Queue r) q && String.eqb (stateString (State r)) s
   then 1 else 0).
Proof.
  unfold depthOf. rewrite List.filter_app, length_app. simpl.
  destruct (counted (State r) && _ && _); simpl; lia.
Qed.

Lemma depthOf_nonneg q s rs : 0 <= depthOf q s rs.
Proof. unfold depthOf. lia. Qed.

(** What the two maps of [Stats] hold after a list of rows. *)
Definition countsOk (rs : list JobRow) (counts : gmap (string * string) Z) : Prop :=
  forall q s, counts !! (q, s) = if depthOf q s rs =? 0 then None else Some (depthOf q s rs).

Definition oldestOk (now : Time) (rs : list JobRow) (oldest : gmap string Time) : Prop :=
  forall q, match oldest !! q with
            | Some t => oldestOf now q rs t
            | None => forall r, r ∈ rs -> claimable now q r = false
            end.

Lemma statsTurn_counts now rs counts oldest r :
  countsOk rs counts -> countsOk (rs ++ [r]) (statsTurn now (counts, oldest) r).1.
Proof.
  intros H q s. specialize (H q s). rewrite depthOf_snoc. simpl.
  pose proof (depthOf_nonneg q s rs).
  destruct (counted (State r)); simpl; [|rewrite Z.add_0_r; done].
  destruct (String.eqb_spec (Queue r) q) as [<-|Hq]; simpl.
  - destruct (String.eqb_spec (stateString (State r)) s) as [<-|Hs]; simpl.
    + rewrite lookup_insert_eq, H.
      destruct (Z.eqb_spec (depthOf (Queue r) (stateString (State r)) rs) 0) as [E|E]; simpl.
      * rewrite E. done.
      * destruct (Z.eqb_spec (depthOf (Queue r) (stateString (State r)) rs + 1) 0); [lia|done].
    + rewrite lookup_insert_ne by congruence. by rewrite Z.add_0_r.
  - rewrite lookup_insert_ne by congruence. by rewrite Z.add_0_r.
Qed.

Lemma claimable_queue now q r :
  claimable now q r = true <->
  Queue r = q /\ negb (waiting (State r)) || After (ScheduledAt r) now = false.
Proof.
  unfold claimable. rewrite !andb_true_iff, String.eqb_eq, orb_false_iff, !negb_true_iff,
    negb_false_iff. tauto.
Qed.

Lemma oldestOf_snoc_other now q rs r t :
  claimable now q r = false -> oldestOf now q rs t -> oldestOf now q (rs ++ [r]) t.
Proof.
  intros Hr [(r0 & Hin & Hc & Ht) Hmin]. split.
  - exists r0. split_all; auto. apply elem_of_app. by left.
  - intros r1 [H|H]%elem_of_app Hc1; [auto|]. apply list_elem_of_singleton in H as ->. congruence.
Qed.

Lemma oldestOf_snoc_min now q rs r t :
  claimable now q r = true -> oldestOf now q rs t ->
  oldestOf now q (rs ++ [r]) (Z.min (ScheduledAt r) t).
Proof.
  intros Hr [(r0 & Hin & Hc & Ht) Hmin]. split.
  - destruct (Z.min_spec (ScheduledAt r) t) as [[? ->]|[? ->]].
    + exists r. split_all; auto. apply elem_of_app. right. by left.
    + exists r0. split_all; auto. apply elem_of_app. by left.
  - intros r1 [H|H]%elem_of_app Hc1.
    + specialize (Hmin r1 H Hc1). lia.
    + apply list_elem_of_singleton in H as ->. lia.
Qed.

Lemma oldestOf_first now q rs r :
  claimable now q r = true -> (forall r, r ∈ rs -> claimable now q r = false) ->
  oldestOf now q (rs ++ [r]) (ScheduledAt r).
Proof.
  intros Hr Hno. split.
  - exists r. split_all; auto. apply elem_of_app. right. by left.
  - intros r1 [H|H]%elem_of_app Hc1; [rewrite Hno in Hc1; done|].
    apply list_elem_of_singleton in H as ->. lia.
Qed.

Lemma none_snoc now q rs r :
  claimable now q r = false -> (forall r, r ∈ rs -> claimable now q r = false) ->
  forall r0, r0 ∈ rs ++ [r] -> claimable now q r0 = false.
Proof. intros Hr H r0 [H0|H0]%elem_of_app; [auto|]. by apply list_elem_of_singleton in H0 as ->. Qed.

Lemma statsTurn_oldest now rs counts oldest r :
  oldestOk now rs oldest -> oldestOk now (rs ++ [r]) (statsTurn now (counts, oldest) r).2.
Proof.
  intros H q. specialize (H q). pose proof (claimable_queue now q r) as HQ.
  cbn [statsTurn snd]. destruct (negb (waiting (State r)) || After (ScheduledAt r) now) eqn:E.
  - assert (claimable now q r = false) as Hn.
    { apply not_true_iff_false. intros Hc. apply HQ in Hc as [_ Hc]. congruence. }
    destruct (oldest !! q); [by apply oldestOf_snoc_other | by apply none_snoc].
  - destruct (decide (Queue r = q)) as [<-|Hne].
    + assert (claimable now (Queue r) r = true) as Hc by (by apply HQ).
      destruct (oldest !! Queue r) as [t|] eqn:Et.
      * unfold Before. pose proof (oldestOf_snoc_min now _ rs r t Hc H) as Hm.
        destruct (Z.ltb_spec (ScheduledAt r) t).
        -- rewrite lookup_insert_eq. by rewrite Z.min_l in Hm by lia.
        -- rewrite Et. by rewrite Z.min_r in Hm by lia.
      * rewrite lookup_insert_eq. by apply oldestOf_first.
    + assert (claimable now q r = false) as Hn.
      { apply not_true_iff_false. intros Hc. apply HQ in Hc as [Hc _]. congruence. }
      assert ((match oldest !! Queue r with
               | Some since => if Before (ScheduledAt r) since
                               then <[Queue r := ScheduledAt r]> oldest else oldest
               | None => <[Queue r := ScheduledAt r]> oldest end) !! q = oldest !! q) as ->.
      { destruct (oldest !! Queue r); [destruct (Before _ _)|]; try done;
          by rewrite lookup_insert_ne. }
      destruct (oldest !! q); [by apply oldestOf_snoc_other | by apply none_snoc].
Qed.

Lemma statsFold_ok now rs :
  countsOk rs (foldl (statsTurn now) (∅, ∅) rs).1 /\
  oldestOk now rs (foldl (statsTurn now) (∅, ∅) rs).2.
Proof.
  induction rs as [|r rs IH] using rev_ind.
  - split; [intros q s | intros q]; simpl; rewrite lookup_empty; [done|].
    intros r Hr. by apply not_elem_of_nil in Hr.
  - rewrite foldl_app. simpl.
    destruct (foldl (statsTurn now) (∅, ∅) rs) as [counts oldest]. destruct IH as [IH1 IH2].
    split; [by apply statsTurn_counts | by apply statsTurn_oldest].
Qed.

(** ** What a reading reports *)

Lemma SortFunc_fmap_elem {A B} (cmp : B -> B -> Z) (f : A -> B) l y :
  y ∈ SortFunc cmp (f <$> l) <-> exists x, y = f x /\ x ∈ l.
Proof. rewrite SortFunc_elem. apply list_elem_of_fmap. Qed.

Lemma oldestOf_unique now q rs t t' : oldestOf now q rs t -> oldestOf now q rs t' -> t = t'.
Proof.
  intros [(r & Hi & Hc & <-) Hm] [(r' & Hi' & Hc' & <-) Hm'].
  pose proof (Hm r' Hi' Hc'). pose proof (Hm' r Hi Hc). lia.
Qed.

(** A [Stats] reading reports, for each queue and published state that has rows, exactly
    their number, ordered by queue and state, and for each queue with claimable rows the
    time since the earliest of them was due, ordered by queue; a queue with nothing
    claimable has no age. *)
Theorem Stats_reading now d :
  exists st, StatsOp now d = Ok st /\
  StronglySorted (cmp_le depthCmp) (Depths st) /\ StronglySorted (cmp_le ageCmp) (Oldest st) /\
  (forall q s n, {| qdQueue := q; qdState := s; qdCount := n |} ∈ Depths st <->
                 n = depthOf q s (rows d) /\ 0 < n) /\
  (forall q a, {| qaQueue := q; AgeSeconds := a |} ∈ Oldest st <->
     exists since, oldestOf now q (rows d) since /\ a = Seconds (Sub now since)).
Proof.
  exists (statsOf now (rows d)). split; [done|]. unfold statsOf.
  pose proof (statsFold_ok now (rows d)) as [HC HO].
  destruct (foldl (statsTurn now) (∅, ∅) (rows d)) as [counts oldest]. simpl in *.
  split_all.
  - apply SortFunc_sorted. apply _.
  - apply SortFunc_sorted. apply _.
  - intros q s n. rewrite SortFunc_fmap_elem. specialize (HC q s).
    pose proof (depthOf_nonneg q s (rows d)). split.
    + intros ([[q' s'] n'] & [= -> -> ->] & Hin). simpl in *.
      apply elem_of_map_to_list in Hin. rewrite Hin in HC.
      destruct (Z.eqb_spec (depthOf q' s' (rows d)) 0); [done|]. injection HC as ->. lia.
    + intros [-> Hpos]. exists (q, s, depthOf q s (rows d)). split; [done|].
      apply elem_of_map_to_list. rewrite HC.
      destruct (Z.eqb_spec (depthOf q s (rows d)) 0); [lia|done].
  - intros q a. rewrite SortFunc_fmap_elem. specialize (HO q). split.
    + intros ([q' t] & [= -> ->] & Hin). simpl in *.
      apply elem_of_map_to_list in Hin. rewrite Hin in HO. by exists t.
    + intros (since & Ho & ->). exists (q, since). split; [done|].
      apply elem_of_map_to_list. destruct (oldest !! q) as [t|].
      * f_equal. by eapply oldestOf_unique.
      * destruct Ho as [(r & Hin & Hc & _) _]. rewrite HO in Hc; done.
Qed.

Lemma depthOf_perm q s rs rs' : rs ≡ₚ rs' -> depthOf q s rs = depthOf q s rs'.
Proof.
  intros HP. unfold depthOf. f_equal. induction HP as [|x l l' HP IH|x y l|l1 l2 l3]; simpl.
  - done.
  - destruct (_ && _ && _); simpl; congruence.
  - destruct (counted (State x) && _ && _), (counted (State y) && _ && _); done.
  - congruence.
Qed.

Lemma oldestOk_perm now rs rs' o o' :
  rs ≡ₚ rs' -> oldestOk now rs o -> oldestOk now rs' o' -> o = o'.
Proof.
  intros HP H H'. apply map_eq. intros q. specialize (H q). specialize (H' q).
  assert (forall t, oldestOf now q rs' t -> oldestOf now q rs t) as Hw.
  { intros t [(r & ? & ? & ?) Hm]. split; [exists r; by rewrite HP|].
    intros r0 Hr0. rewrite HP in Hr0. auto. }
  destruct (o !! q) as [t|], (o' !! q) as [t'|]; [| | |done].
  - f_equal. eapply oldestOf_unique; eauto.
  - destruct H as [(r & Hr & Hc & _) _]. rewrite HP in Hr. rewrite H' in Hc; done.
  - destruct H' as [(r & Hr & Hc & _) _]. rewrite <- HP in Hr. rewrite H in Hc; done.
Qed.

(** A reading depends only on which rows the store holds, not on the order in which the
    map walk meets them. *)
Theorem Stats_order_independent now rs rs' : rs ≡ₚ rs' -> statsOf now rs = statsOf now rs'.
Proof.
  intros HP. unfold statsOf.
  pose proof (statsFold_ok now rs) as [HC HO]. pose proof (statsFold_ok now rs') as [HC' HO'].
  destruct (foldl (statsTurn now) (∅, ∅) rs) as [c o].
  destruct (foldl (statsTurn now) (∅, ∅) rs') as [c' o']. simpl in *.
  assert (c = c') as ->.
  { apply map_eq. intros [q s]. rewrite HC, HC'. by rewrite (depthOf_perm q s rs rs' HP). }
  assert (o = o') as -> by (by eapply oldestOk_perm). done.
Qed.

(** ** Listings *)

#[export] Instance newestFirst_comparator : Comparator newestFirst.
Proof.
  split; unfold newestFirst.
  - intros a b. apply (cmp_flip (cmp := compareZ)).
  - intros a b c H1 H2. by eapply (cmp_trans (cmp := compareZ)).
Qed.

(** [ListJobs] refuses a non-positive limit; otherwise it returns rows matching the
    filters (an empty filter matches all), newest id first, each once, at most [limit]; every
    matching row it leaves out has a smaller id than all it returns, and none is left out
    unless the limit is reached. *)
Lemma listing_spec p d :
  wf d ->
  (ljLimit p <= 0 -> exists e, ListJobs p d = Err e) /\
  (0 < ljLimit p -> exists out, ListJobs p d = Ok out /\
     StronglySorted (fun a b => ID b <= ID a) out /\ NoDup (ID <$> out) /\
     Z.of_nat (length out) <= ljLimit p /\
     (forall r, r ∈ out -> jobs d !! ID r = Some r /\ listKeep p r = true) /\
     (forall r, jobs d !! ID r = Some r -> listKeep p r = true -> r ∉ out ->
        Z.of_nat (length out) = ljLimit p /\ forall r', r' ∈ out -> ID r < ID r')).
Proof.
  intros Hd. unfold ListJobs. split; intros Hl;
    destruct (Z.leb_spec (ljLimit p) 0); try lia; [eauto|].
  set (matched := SortFunc newestFirst (List.filter (listKeep p) (rows d))).
  assert (forall r, r ∈ matched <-> jobs d !! ID r = Some r /\ listKeep p r = true) as Hm.
  { intros r. unfold matched. rewrite SortFunc_elem, list_elem_of_In, List.filter_In,
      <- list_elem_of_In, elem_of_rows. split.
    - intros [[id H0] ?]. by rewrite (wf_key d Hd id r H0).
    - intros [? ?]. eauto. }
  assert (NoDup (ID <$> matched)) as Hnd.
  { unfold matched. rewrite SortFunc_perm. apply NoDup_fmap_filter, rows_NoDup, Hd. }
  assert (StronglySorted (cmp_le newestFirst) matched) as Hs by (apply SortFunc_sorted; apply _).
  set (n := Z.to_nat (ljLimit p)).
  assert ((if ljLimit p <? Z.of_nat (length matched) then take n matched else matched)
          = take n matched) as ->.
  { destruct (Z.ltb_spec (ljLimit p) (Z.of_nat (length matched))); [done|].
    rewrite take_ge; [done|]. unfold n. lia. }
  exists (take n matched). split_all.
  - done.
  - pose proof (StronglySorted_take _ n _ Hs) as Ht. clear -Ht.
    induction Ht as [|x l Ht IH Hx]; constructor; [done|].
    rewrite Forall_forall in Hx |- *. intros y Hy. specialize (Hx y Hy).
    unfold cmp_le, newestFirst in Hx. exact (proj1 (compareZ_le _ _) Hx).
  - rewrite fmap_take. eapply sublist_NoDup; [exact Hnd|]. apply sublist_take.
  - rewrite length_take. unfold n. lia.
  - intros r Hr. apply Hm. by eapply take_elem.
  - intros r Hr Hk Hnin. assert (r ∈ drop n matched) as Hdr.
    { assert (r ∈ matched) as Hin by (by apply Hm).
      rewrite <- (take_drop n matched) in Hin. apply elem_of_app in Hin as [|]; done. }
    split.
    + rewrite length_take. assert (length (drop n matched) <> 0)%nat as Hlen
        by (intros Hz; apply length_zero_iff_nil in Hz; rewrite Hz in Hdr; by apply not_elem_of_nil in Hdr).
      rewrite length_drop in Hlen. unfold n in *. lia.
    + intros r' Hr'. pose proof (StronglySorted_take_drop _ n _ r' r Hs Hr' Hdr) as Hle.
      unfold cmp_le, newestFirst in Hle. apply (proj1 (compareZ_le _ _)) in Hle.
      destruct (decide (ID r = ID r')) as [E|E]; [|lia]. exfalso. apply Hnin.
      pose proof (proj1 (Hm r') (take_elem _ _ _ Hr')) as [H1 _].
      assert (r = r') as -> by congruence. done.
Qed.

(** ** Witnesses *)

Definition readRow (id : Z) (queue : string) : JobRow :=
  jobFromParams id {| ipKind := "k"; ipQueue := queue; ipArgs := "{}"; ipScheduledAt := 0;
                      ipUniqueKey := "" |} (1000 + id).

Lemma Stats_order_independent_witness :
  statsOf 2000 [readRow 1 "a"; readRow 2 "b"; readRow 3 "a"] =
  statsOf 2000 [readRow 2 "b"; readRow 1 "a"; readRow 3 "a"].
Proof. apply Stats_order_independent. apply Permutation_swap. Defined.
