(* ===== verification/Aliasing.v ===== *)
(** * Aliasing: rows on the heap, and what [copyRow] promises

    The in-memory driver keeps its rows behind pointers and its callers write to what they are
    given.  Memdriver models rows as values; this file models the heap beneath them, for
    [copyRow] and [Row] of memdriver.go, and shows why values are enough: what a caller gets shares
    no memory with what the driver keeps. *)

From S2P Require Import Prelude GoTime GoError DriverSpec Memdriver MemdriverFacts MemdriverProps.

(** ** The heap *)

Abbreviation loc := positive.

(** A [driver.JobRow] as it lies in memory: the byte slices and the times that may be missing are
    pointers, nil when absent; a slice is its array and its length. *)
Record slice := MkSlice { sArray : loc; sLen : nat }.

Record rowStruct := MkRow {
  fID : Z; fKind : string; fQueue : string; fState : JobState; fAttempt : Z; fMaxAttempts : Z;
  fScheduledAt : Time; fCreatedAt : Time; fUniqueKey : string;
  fArgs : option slice; fErrors : option slice;
  fLeasedUntil : option loc; fFinalizedAt : option loc
}.

Inductive object :=
| OBytes (b : list ascii)
| OTime (t : Time)
| ORow (r : rowStruct).

#[export] Instance slice_eq_dec : EqDecision slice.
Proof. solve_decision. Defined.
#[export] Instance rowStruct_eq_dec : EqDecision rowStruct.
Proof. solve_decision. Defined.
#[export] Instance object_eq_dec : EqDecision object.
Proof. solve_decision. Defined.

Abbreviation heap := (gmap loc object).

(** [new]: an address not in use. *)
Definition alloc (o : object) (h : heap) : heap * loc :=
  let l := fresh (dom h) in (<[l := o]> h, l).
Arguments alloc : simpl never.

Definition bytesAt (h : heap) (s : slice) : list ascii :=
  match h !! sArray s with Some (OBytes b) => take (sLen s) b | _ => [] end.

Definition timeAt (h : heap) (l : loc) : option Time :=
  match h !! l with Some (OTime t) => Some t | _ => None end.

(** ** The code *)

(** [slices.Clone]: nil stays nil; an empty slice is kept, as it has no element to share. *)
Definition Clone (h : heap) (s : option slice) : heap * option slice :=
  match s with
  | None => (h, None)
  | Some s =>
      if (sLen s =? 0)%nat then (h, Some (MkSlice (sArray s) 0))
      else let '(h', l) := alloc (OBytes (bytesAt h s)) h in (h', Some (MkSlice l (sLen s)))
  end.

(** [t := *p; out.Field = &t]; [None] for the result is the panic of a nil dereference. *)
Definition clonePtr (h : heap) (p : option loc) : option (heap * option loc) :=
  match p with
  | None => Some (h, None)
  | Some l =>
      match timeAt h l with
      | None => None
      | Some t => let '(h', l') := alloc (OTime t) h in Some (h', Some l')
      end
  end.

Definition setPointers (args errors : option slice) (lease final : option loc) (r : rowStruct) : rowStruct :=
  MkRow (fID r) (fKind r) (fQueue r) (fState r) (fAttempt r) (fMaxAttempts r) (fScheduledAt r)
    (fCreatedAt r) (fUniqueKey r) args errors lease final.

Definition copyRow (h : heap) (row : loc) : option (heap * loc) :=
  match h !! row with
  | Some (ORow r) =>
      let '(h1, args) := Clone h (fArgs r) in
      let '(h2, errors) := Clone h1 (fErrors r) in
      match clonePtr h2 (fLeasedUntil r) with
      | None => None
      | Some (h3, lease) =>
          match clonePtr h3 (fFinalizedAt r) with
          | None => None
          | Some (h4, final) => Some (alloc (ORow (setPointers args errors lease final r)) h4)
          end
      end
  | _ => None
  end.

(** The driver of the heap: its map from ids to row pointers. *)
Definition Row (h : heap) (jobs : gmap Z loc) (id : Z) : option (heap * option loc) :=
  match jobs !! id with
  | None => Some (h, None)
  | Some row => match copyRow h row with Some (h', out) => Some (h', Some out) | None => None end
  end.

(** ** What a pointer to a row denotes *)

(** The contents of a row, all pointers followed. *)
Record rowValue := MkValue {
  vFields : rowStruct;
  vArgs : option (list ascii); vErrors : option (list ascii);
  vLeasedUntil : option Time; vFinalizedAt : option Time
}.

Definition rowValueAt (h : heap) (row : loc) : option rowValue :=
  match h !! row with
  | Some (ORow r) =>
      Some (MkValue (setPointers None None None None r)
              (bytesAt h <$> fArgs r) (bytesAt h <$> fErrors r)
              (fLeasedUntil r ≫= timeAt h) (fFinalizedAt r ≫= timeAt h))
  | _ => None
  end.

(** A slice or pointer that is there points to an object of its kind. *)
Definition sliceOk (h : heap) (s : option slice) : Prop :=
  forall x, s = Some x -> exists b, h !! sArray x = Some (OBytes b) /\ (sLen x <= length b)%nat.
Definition ptrOk (h : heap) (p : option loc) : Prop := forall l, p = Some l -> is_Some (timeAt h l).

Definition rowOk (h : heap) (row : loc) : Prop :=
  exists r, h !! row = Some (ORow r) /\ sliceOk h (fArgs r) /\ sliceOk h (fErrors r) /\
    ptrOk h (fLeasedUntil r) /\ ptrOk h (fFinalizedAt r).

(** The addresses whose contents the row at [row] shows: the struct, the arrays with an element in
    reach, the times. *)
Definition arrayOf (s : option slice) : gset loc :=
  match s with Some x => if (sLen x =? 0)%nat then ∅ else {[ sArray x ]} | None => ∅ end.
Definition cellOf (p : option loc) : gset loc := match p with Some l => {[ l ]} | None => ∅ end.

Definition footprint (h : heap) (row : loc) : gset loc :=
  match h !! row with
  | Some (ORow r) =>
      {[ row ]} ∪ arrayOf (fArgs r) ∪ arrayOf (fErrors r) ∪ cellOf (fLeasedUntil r) ∪ cellOf (fFinalizedAt r)
  | _ => ∅
  end.

(** Any writes to the addresses of [ls], and allocation. *)
Definition writesOnly (ls : gset loc) (h h' : heap) : Prop :=
  forall l, l ∈ dom h -> l ∉ ls -> h' !! l = h !! l.

(** ** Lemmas *)

Lemma alloc_spec o h :
  let '(h', l) := alloc o h in (l ∉ dom h) /\ h' !! l = Some o /\ h ⊆ h' /\ dom h' = {[ l ]} ∪ dom h.
Proof.
  unfold alloc. assert (fresh (dom h) ∉ dom h) as Hf by apply is_fresh. split_all.
  - done.
  - apply lookup_insert_eq.
  - apply insert_subseteq. by apply not_elem_of_dom.
  - apply dom_insert_L.
Qed.

(** A value is what the addresses of its footprint hold. *)
Lemma rowValueAt_agree h h' row :
  rowOk h row -> (forall l, l ∈ footprint h row -> h' !! l = h !! l) -> rowValueAt h' row = rowValueAt h row.
Proof.
  intros (r & Hr & Ha & He & Hl & Hf) Hag. unfold footprint, rowValueAt in *. rewrite Hr in *.
  rewrite (Hag row) by set_solver. rewrite Hr.
  assert (forall s, arrayOf s ⊆ {[ row ]} ∪ arrayOf (fArgs r) ∪ arrayOf (fErrors r) ∪ cellOf (fLeasedUntil r)
            ∪ cellOf (fFinalizedAt r) -> bytesAt h' <$> s = bytesAt h <$> s) as Hs.
  { intros [x|] Hx; [|done]. simpl in *. f_equal. unfold bytesAt. destruct (Nat.eqb_spec (sLen x) 0) as [->|_].
    - by repeat casematch.
    - by rewrite Hag by set_solver. }
  assert (forall p, cellOf p ⊆ {[ row ]} ∪ arrayOf (fArgs r) ∪ arrayOf (fErrors r) ∪ cellOf (fLeasedUntil r)
            ∪ cellOf (fFinalizedAt r) -> p ≫= timeAt h' = p ≫= timeAt h) as Hp.
  { intros [l|] Hx; [|done]. simpl in *. unfold timeAt. by rewrite Hag by set_solver. }
  rewrite !Hs, !Hp by set_solver. done.
Qed.

Lemma bytesAt_grows h h' x b :
  h ⊆ h' -> h !! sArray x = Some (OBytes b) -> bytesAt h' x = bytesAt h x.
Proof. intros Hs Hb. unfold bytesAt. by rewrite Hb, (lookup_weaken _ _ _ _ Hb Hs). Qed.

Lemma sliceOk_grows h h' s : h ⊆ h' -> sliceOk h s -> sliceOk h' s /\ bytesAt h' <$> s = bytesAt h <$> s.
Proof.
  intros Hs Hok. split.
  - intros x ->. destruct (Hok x eq_refl) as (b & Hb & Hl). exists b. split; [by eapply lookup_weaken | done].
  - destruct s as [x|]; [|done]. simpl. f_equal. destruct (Hok x eq_refl) as (b & Hb & _). by eapply bytesAt_grows.
Qed.

Lemma ptrOk_grows h h' p : h ⊆ h' -> ptrOk h p -> ptrOk h' p /\ p ≫= timeAt h' = p ≫= timeAt h.
Proof.
  intros Hs Hok. destruct p as [l|]; [|by split]. destruct (Hok l eq_refl) as [t Ht]. simpl.
  assert (timeAt h' l = Some t) as Ht'.
  { unfold timeAt in *. destruct (h !! l) as [o|] eqn:Eo; [|done]. by rewrite (lookup_weaken _ _ _ _ Eo Hs). }
  rewrite Ht, Ht'. split; [|done]. intros x [= <-]. eauto.
Qed.

Lemma Clone_spec h s :
  sliceOk h s ->
  let '(h', s') := Clone h s in
  h ⊆ h' /\ sliceOk h' s' /\ bytesAt h' <$> s' = bytesAt h <$> s /\ arrayOf s' ## dom h.
Proof.
  intros Hok. unfold Clone. destruct s as [[a n]|]; [|simpl; split_all; [done|done|done|set_solver]].
  destruct (Hok _ eq_refl) as (b & Hb & Hl). cbn [sArray sLen] in *. destruct (Nat.eqb_spec n 0) as [->|Hn].
  - split_all; [done| |done|simpl; set_solver]. intros x [= <-]. exists b. split; [done | simpl; lia].
  - pose proof (alloc_spec (OBytes (bytesAt h (MkSlice a n))) h) as Hal.
    assert (bytesAt h (MkSlice a n) = take n b) as Eb by (unfold bytesAt; simpl; by rewrite Hb).
    destruct (alloc _ h) as [h' l]. destruct Hal as (Hf & Hat & Hsub & _). rewrite Eb in *. split_all.
    + done.
    + intros x [= <-]. exists (take n b). split; [done|]. simpl. rewrite length_take. lia.
    + simpl. f_equal. rewrite Eb. unfold bytesAt. simpl. rewrite Hat. apply take_ge. rewrite length_take. lia.
    + simpl. destruct (Nat.eqb_spec n 0); [done|]. set_solver.
Qed.

Lemma clonePtr_spec h p :
  ptrOk h p -> exists h' p', clonePtr h p = Some (h', p') /\
    h ⊆ h' /\ ptrOk h' p' /\ p' ≫= timeAt h' = p ≫= timeAt h /\ cellOf p' ## dom h.
Proof.
  intros Hok. unfold clonePtr. destruct p as [l|]; [|exists h, None; split_all; try done; set_solver].
  destruct (Hok l eq_refl) as [t Ht]. rewrite Ht. pose proof (alloc_spec (OTime t) h) as Hal.
  destruct (alloc (OTime t) h) as [h' l']. destruct Hal as (Hf & Hat & Hsub & _).
  assert (timeAt h' l' = Some t) as Ht' by (unfold timeAt; by rewrite Hat).
  exists h', (Some l'). split_all; [done | done | | simpl; by rewrite Ht', Ht | simpl; set_solver].
  intros x [= <-]. eauto.
Qed.

(** The copy has the contents of the row, in memory of its own. *)
Lemma copyRow_spec h row :
  rowOk h row -> exists h' out, copyRow h row = Some (h', out) /\
    h ⊆ h' /\ rowOk h' out /\ rowValueAt h' out = rowValueAt h row /\ footprint h' out ## dom h.
Proof.
  intros (r & Hr & Ha & He & Hl & Hf). unfold copyRow. rewrite Hr.
  pose proof (Clone_spec h (fArgs r) Ha) as C1. destruct (Clone h (fArgs r)) as [h1 args].
  destruct C1 as (S1 & A1 & V1 & D1).
  destruct (sliceOk_grows h h1 (fErrors r) S1 He) as [He1 Ve1].
  pose proof (Clone_spec h1 (fErrors r) He1) as C2. destruct (Clone h1 (fErrors r)) as [h2 errors].
  destruct C2 as (S2 & A2 & V2 & D2).
  assert (h ⊆ h2) as S02 by (by transitivity h1).
  destruct (ptrOk_grows h h2 (fLeasedUntil r) S02 Hl) as [Hl2 Vl2].
  destruct (clonePtr_spec h2 (fLeasedUntil r) Hl2) as (h3 & lease & -> & S3 & A3 & V3 & D3).
  assert (h ⊆ h3) as S03 by (by transitivity h2).
  destruct (ptrOk_grows h h3 (fFinalizedAt r) S03 Hf) as [Hf3 Vf3].
  destruct (clonePtr_spec h3 (fFinalizedAt r) Hf3) as (h4 & final & -> & S4 & A4 & V4 & D4).
  set (o := ORow _). pose proof (alloc_spec o h4) as Hal. destruct (alloc o h4) as [h5 out].
  destruct Hal as (Hout & Hat & S5 & _). exists h5, out.
  assert (h2 ⊆ h5) as S25 by (transitivity h3; [done|]; by transitivity h4).
  assert (h1 ⊆ h5) as S15 by (by transitivity h2). assert (h3 ⊆ h5) as S35 by (by transitivity h4).
  assert (h ⊆ h5) as S05 by (by transitivity h1).
  destruct (sliceOk_grows h1 h5 args S15 A1) as [Ka Kva].
  destruct (sliceOk_grows h2 h5 errors S25 A2) as [Ke Kve].
  destruct (ptrOk_grows h3 h5 lease S35 A3) as [Kl Kvl].
  destruct (ptrOk_grows h4 h5 final S5 A4) as [Kf Kvf].
  split_all; [done | done | | |].
  - exists (setPointers args errors lease final r). by split_all.
  - unfold rowValueAt. rewrite Hat, Hr. unfold o. cbn [fArgs fErrors fLeasedUntil fFinalizedAt setPointers].
    by rewrite Kva, V1, Kve, V2, Ve1, Kvl, V3, Vl2, Kvf, V4, Vf3.
  - unfold footprint. rewrite Hat. simpl.
    pose proof (subseteq_dom _ _ S1). pose proof (subseteq_dom _ _ S02). pose proof (subseteq_dom _ _ S03).
    pose proof (subseteq_dom _ _ S4). set_solver.
Qed.

Lemma footprint_dom h row : rowOk h row -> footprint h row ⊆ dom h.
Proof.
  intros (r & Hr & Ha & He & Hl & Hf). unfold footprint. rewrite Hr.
  assert (forall s, sliceOk h s -> arrayOf s ⊆ dom h) as Hs.
  { intros [x|] Hs; simpl; [|set_solver]. destruct (sLen x =? 0)%nat; [set_solver|].
    destruct (Hs x eq_refl) as (b & Hb & _). apply elem_of_dom_2 in Hb. set_solver. }
  assert (forall p, ptrOk h p -> cellOf p ⊆ dom h) as Hp.
  { intros [l|] Hp; simpl; [|set_solver]. destruct (Hp l eq_refl) as [t Ht]. unfold timeAt in Ht.
    destruct (h !! l) eqn:E; [|done]. apply elem_of_dom_2 in E. set_solver. }
  apply Hs in Ha, He. apply Hp in Hl, Hf. apply elem_of_dom_2 in Hr. set_solver.
Qed.

(** ** Properties *)

(** C14: what the driver hands out shares no memory with what it keeps.  The copy shows the
    contents of the row; whatever its receiver writes through it, to the struct, the bytes of
    its args and errors or the times behind its pointers, every row there was before shows
    what it showed; and whatever the driver later writes to its own memory, the copy stays as it was
    given. *)
Theorem copyRow_detached h row :
  rowOk h row -> exists h' out, copyRow h row = Some (h', out) /\ rowValueAt h' out = rowValueAt h row /\
    (forall h'', writesOnly (footprint h' out) h' h'' ->
       forall x, rowOk h x -> rowValueAt h'' x = rowValueAt h x) /\
    (forall h'', writesOnly (dom h) h' h'' -> rowValueAt h'' out = rowValueAt h row).
Proof.
  intros Hok. destruct (copyRow_spec h row Hok) as (h' & out & Hc & Hsub & Hok' & Hv & Hd).
  exists h', out. split_all; [done | done | |].
  - intros h'' Hw x Hx. apply rowValueAt_agree; [done|]. intros l Hl.
    apply footprint_dom in Hx as Hfd. assert (l ∈ dom h) as Hin by set_solver.
    assert (is_Some (h !! l)) as [o Ho] by (by apply elem_of_dom).
    rewrite Hw; [|by apply (subseteq_dom _ _ Hsub)|set_solver]. rewrite Ho. by eapply lookup_weaken.
  - intros h'' Hw. rewrite <- Hv. apply rowValueAt_agree; [done|]. intros l Hl.
    apply Hw; [by apply (footprint_dom h' out Hok') | set_solver].
Qed.

(** Clearing the first byte of the args and the lease of the copy of a running row leaves
    the row as it was. *)
Definition demoHeap : heap :=
  {[ 1%positive := OBytes ["{"%char; "}"%char]; 2%positive := OBytes ["["%char; "]"%char];
     3%positive := OTime 2000;
     4%positive := ORow (MkRow 7 "email" "default" StateRunning 1 25 1000 1000 ""
       (Some (MkSlice 1 2)) (Some (MkSlice 2 2)) (Some 3%positive) None) ]}.

Lemma demoHeap_ok : rowOk demoHeap 4.
Proof.
  eexists. split; [vm_compute; reflexivity|]. split_all.
  - intros x [= <-]. eexists. split; [vm_compute; reflexivity|]. simpl. lia.
  - intros x [= <-]. eexists. split; [vm_compute; reflexivity|]. simpl. lia.
  - intros l [= <-]. vm_compute. eauto.
  - by intros l.
Qed.

Definition demoCopy : heap * loc := default (demoHeap, 1%positive) (copyRow demoHeap 4).

Definition scribbled : heap :=
  match demoCopy.1 !! demoCopy.2 with
  | Some (ORow r) =>
      match fArgs r, fLeasedUntil r with
      | Some s, Some p => <[p := OTime 0]> (<[sArray s := OBytes [" "%char; "}"%char]]>
                            (<[demoCopy.2 := ORow (setPointers None None None None r)]> demoCopy.1))
      | _, _ => demoCopy.1
      end
  | _ => demoCopy.1
  end.

Lemma copyRow_detached_witness :
  exists h' out, copyRow demoHeap 4 = Some (h', out) /\ (h', out) = demoCopy /\
    rowValueAt scribbled 4 = rowValueAt demoHeap 4 /\ rowValueAt scribbled out <> rowValueAt demoHeap 4.
Proof.
  destruct (copyRow_detached demoHeap 4 demoHeap_ok) as (h' & out & Hc & _ & Hcaller & _).
  exists h', out. assert ((h', out) = demoCopy) as E by (unfold demoCopy; by rewrite Hc).
  assert (h' = demoCopy.1 /\ out = demoCopy.2) as [-> ->] by (by rewrite <- E).
  split_all; [done | done | | vm_compute; discriminate].
  apply Hcaller; [|exact demoHeap_ok]. intros l Hl Hno.
  assert (forallb (fun l => bool_decide (l ∈ footprint demoCopy.1 demoCopy.2)
            || bool_decide (scribbled !! l = demoCopy.1 !! l)) (elements (dom demoCopy.1)) = true) as Hall.
  { vm_compute. reflexivity. }
  rewrite forallb_forall in Hall. specialize (Hall l). rewrite <- list_elem_of_In, elem_of_elements in Hall.
  specialize (Hall Hl). apply orb_true_iff in Hall as [Hx|Hx]; apply bool_decide_eq_true in Hx; done.
Defined.
