(* ===== verification/Queues.v ===== *)
(** * Queues: the weighted queue order of a fetch round

    Models queues.go.  A panic is an [Err] that carries its text.  The random
    source is the argument [draw]: [draw i n] is the [i]-th call of
    [rand.Int64N(n)], which lies in [[0, n)] and panics unless [n] is positive. *)

From S2P Require Import Prelude GoTime GoText.

Definition maxQueueWeight : Z := 100000.

Definition defaultQueue : string := "default".

Record weightedQueue := { qname : string; qweight : Z }.

#[export] Instance weightedQueue_eq_dec : EqDecision weightedQueue.
Proof. solve_decision. Defined.

(** The correction of a configured weight. *)
Definition checkedWeight (weight : Z) : Z :=
  if weight <? 1 then 1
  else if maxQueueWeight <? weight then maxQueueWeight
  else weight.

(** The loop over the configured map. *)
Fixpoint checkedLoop (entries : list (string * Z)) : res string (list weightedQueue) :=
  match entries with
  | [] => Ok []
  | (name, weight) :: rest =>
      if String.eqb name "" then Err "drover: Config.Queues contains an empty queue name"
      else
        let? out := checkedLoop rest in
        Ok ({| qname := name; qweight := checkedWeight weight |} :: out)
  end.

Definition nameCmp : weightedQueue -> weightedQueue -> Z := onKey qname compareString.

Definition checkedQueues (queues : gmap string Z) : res string (list weightedQueue) :=
  if bool_decide (size queues = 0%nat)
  then Ok [{| qname := defaultQueue; qweight := 1 |}]
  else
    let? out := checkedLoop (map_to_list queues) in
    Ok (SortFunc nameCmp out).

(** [var total int64; for ... total += int64(q.weight)] *)
Definition totalWeight (qs : list weightedQueue) : Z :=
  foldl (fun total q => wrap64 (total + qweight q)) 0 qs.

(** The scan for the drawn queue: the first index at which the running sum
    exceeds the draw. *)
Fixpoint pickIndex (pick acc : Z) (i : nat) (remaining : list weightedQueue) : option nat :=
  match remaining with
  | [] => None
  | q :: rest =>
      let acc' := wrap64 (acc + qweight q) in
      if pick <? acc' then Some i else pickIndex pick acc' (S i) rest
  end.

(** [remaining[idx] = remaining[len-1]; remaining = remaining[:len-1]] *)
Definition swapRemove (idx : nat) (remaining : list weightedQueue) : list weightedQueue :=
  match last remaining with
  | None => remaining
  | Some q => take (length remaining - 1) (<[idx := q]> remaining)
  end.

(** The selection loop.  It ends when [remaining] is empty; [fuel] bounds the
    number of turns and running out of it is reported as an error. *)
Fixpoint orderLoop (draw : nat -> Z -> Z) (fuel turn : nat) (total : Z)
    (remaining : list weightedQueue) (dst : list string) : res string (list string) :=
  match remaining with
  | [] => Ok dst
  | _ =>
      match fuel with
      | O => Err "out of fuel"
      | S fuel' =>
          if total <=? 0 then Err "invalid argument to Int64N"
          else
            let idx := default (length remaining - 1)%nat
                         (pickIndex (draw turn total) 0 0 remaining) in
            match remaining !! idx with
            | None => Err "index out of range"
            | Some q =>
                orderLoop draw fuel' (S turn) (wrap64 (total - qweight q))
                  (swapRemove idx remaining) (dst ++ [qname q])
            end
      end
  end.

Definition weightedOrder (draw : nat -> Z -> Z) (qs : list weightedQueue)
    : res string (list string) :=
  match qs with
  | [] => Ok []
  | [q] => Ok [qname q]
  | _ => orderLoop draw (length qs) 0 (totalWeight qs) qs []
  end.

Definition queueNames (qs : list weightedQueue) : string :=
  Join "," ((fun q => qname q +:+ "=" +:+ itoa (qweight q)) <$> qs).

(** ** Weights and sums *)

Definition weightsOk (qs : list weightedQueue) : Prop :=
  Forall (fun q => 1 <= qweight q <= maxQueueWeight) qs.

(** More queues than any map can hold; the sum then stays below [2^63]. *)
Definition fewQueues (qs : list weightedQueue) : Prop := (Z.of_nat (length qs) <= 2 ^ 46).

Fixpoint weightSum (qs : list weightedQueue) : Z :=
  match qs with [] => 0 | q :: rest => qweight q + weightSum rest end.

Lemma weightSum_app l1 l2 : weightSum (l1 ++ l2) = weightSum l1 + weightSum l2.
Proof. induction l1; simpl; lia. Qed.

Lemma weightSum_perm l1 l2 : l1 ≡ₚ l2 -> weightSum l1 = weightSum l2.
Proof. induction 1; simpl; lia. Qed.

Lemma weightSum_bound qs :
  weightsOk qs -> Z.of_nat (length qs) <= weightSum qs <= maxQueueWeight * Z.of_nat (length qs).
Proof. induction 1 as [|q qs Hq _ IH]; simpl; unfold maxQueueWeight in *; lia. Qed.

Lemma weightSum_small qs : weightsOk qs -> fewQueues qs -> 0 <= weightSum qs < 2 ^ 63.
Proof.
  intros Hw Hf. pose proof (weightSum_bound qs Hw). unfold fewQueues, maxQueueWeight in *. lia.
Qed.

Lemma totalWeight_gen qs acc :
  weightsOk qs -> 0 <= acc -> acc + weightSum qs < 2 ^ 63 ->
  foldl (fun total q => wrap64 (total + qweight q)) acc qs = acc + weightSum qs.
Proof.
  intros Hw. revert acc. induction Hw as [|q qs Hq Hw IH]; intros acc Ha Hs; simpl in *; [lia|].
  pose proof (weightSum_bound qs Hw). rewrite wrap64_small by lia. rewrite IH; lia.
Qed.

(** The running total cannot overflow: it is the sum of the weights. *)
Lemma totalWeight_sum qs : weightsOk qs -> fewQueues qs -> totalWeight qs = weightSum qs.
Proof.
  intros Hw Hf. unfold totalWeight. pose proof (weightSum_small qs Hw Hf).
  rewrite totalWeight_gen; [lia|done|lia|lia].
Qed.

(** ** Picks *)

(** A draw below the total hits exactly one index, the one whose share of the
    sum it falls into. *)
Lemma pickIndex_gen qs pick acc i :
  weightsOk qs -> 0 <= acc -> acc + weightSum qs < 2 ^ 63 -> acc <= pick < acc + weightSum qs ->
  exists k q, pickIndex pick acc i qs = Some (i + k)%nat /\ qs !! k = Some q /\
    acc + weightSum (take k qs) <= pick < acc + weightSum (take k qs) + qweight q.
Proof.
  intros Hw. revert acc i. induction Hw as [|q qs Hq Hw IH]; intros acc i Ha Hs Hp; simpl in *; [lia|].
  pose proof (weightSum_bound qs Hw). rewrite wrap64_small by lia.
  destruct (Z.ltb_spec pick (acc + qweight q)).
  - exists 0%nat, q. rewrite Nat.add_0_r. simpl. split_all; done || lia.
  - destruct (IH (acc + qweight q) (S i)) as (k & q' & Hk & Hl & Hr); try lia.
    exists (S k), q'. simpl. split_all; [|done|lia|lia]. rewrite Hk. f_equal. lia.
Qed.

Lemma weightSum_take_S qs k q :
  qs !! k = Some q -> weightSum (take (S k) qs) = weightSum (take k qs) + qweight q.
Proof. intros H. rewrite (take_S_r _ _ _ H), weightSum_app. simpl. lia. Qed.

Lemma weightSum_take_mono qs j k :
  weightsOk qs -> (j <= k)%nat -> weightSum (take j qs) <= weightSum (take k qs).
Proof.
  intros Hw Hjk. rewrite <- (take_drop j (take k qs)), weightSum_app, take_take, Nat.min_l by done.
  assert (weightsOk (drop j (take k qs))) as Hd by (by apply Forall_drop, Forall_take).
  pose proof (weightSum_bound _ Hd). lia.
Qed.

(** Two intervals that share a point belong to the same index. *)
Lemma weightSum_inj qs j k q q' x :
  weightsOk qs -> qs !! j = Some q -> qs !! k = Some q' ->
  weightSum (take j qs) <= x < weightSum (take j qs) + qweight q ->
  weightSum (take k qs) <= x < weightSum (take k qs) + qweight q' -> j = k.
Proof.
  intros Hw Hj Hk H1 H2. rewrite <- (weightSum_take_S _ _ _ Hj) in H1.
  rewrite <- (weightSum_take_S _ _ _ Hk) in H2.
  destruct (lt_eq_lt_dec j k) as [[Hlt|?]|Hlt]; [|done|];
    pose proof (weightSum_take_mono qs _ _ Hw Hlt); lia.
Qed.

Lemma swapRemove_perm idx qs q :
  qs !! idx = Some q -> q :: swapRemove idx qs ≡ₚ qs.
Proof.
  intros Hq. unfold swapRemove. destruct (last qs) as [z|] eqn:El.
  - apply last_Some in El as [l ->]. rewrite length_app. simpl.
    replace (length l + 1 - 1)%nat with (length l) by lia.
    destruct (decide (idx < length l)%nat) as [Hlt|Hge].
    + rewrite insert_app_l by done. rewrite take_app_le by (rewrite length_insert; lia).
      rewrite take_ge by (rewrite length_insert; lia).
      rewrite lookup_app_l in Hq by done.
      rewrite (insert_take_drop l idx z) by done.
      assert (l ++ [z] ≡ₚ z :: l) as -> by (symmetry; apply Permutation_cons_append).
      assert (l ≡ₚ q :: take idx l ++ drop (S idx) l) as HP.
      { rewrite <- (take_drop_middle l idx q Hq) at 1. by rewrite <- Permutation_middle. }
      rewrite <- Permutation_middle. etrans; [apply Permutation_swap|].
      apply Permutation_skip. by symmetry.
    + assert (idx = length l) as ->.
      { apply lookup_lt_Some in Hq. rewrite length_app in Hq. simpl in Hq. lia. }
      rewrite insert_app_r_alt by lia. rewrite take_app_length.
      rewrite lookup_app_r, Nat.sub_diag in Hq by lia. injection Hq as ->.
      by rewrite <- Permutation_cons_append.
  - apply last_None in El as ->. done.
Qed.

Lemma orderLoop_perm draw fuel turn total qs dst :
  (forall i n, 0 < n -> 0 <= draw i n < n) ->
  weightsOk qs -> fewQueues qs -> total = weightSum qs -> (length qs <= fuel)%nat ->
  exists out, orderLoop draw fuel turn total qs dst = Ok (dst ++ out) /\ out ≡ₚ qname <$> qs.
Proof.
  intros Hdraw. revert turn total qs dst.
  induction fuel as [|fuel IH]; intros turn total qs dst Hw Hf -> Hlen.
  - destruct qs; [|simpl in Hlen; lia]. exists []. simpl. by rewrite app_nil_r.
  - destruct qs as [|q0 qs0] eqn:Eqs; [exists []; simpl; by rewrite app_nil_r|].
    rewrite <- Eqs in *. assert (0 < weightSum qs) as Hpos.
    { pose proof (weightSum_bound qs Hw). rewrite Eqs in *. simpl in *. lia. }
    pose proof (weightSum_small qs Hw Hf).
    assert (orderLoop draw (S fuel) turn (weightSum qs) qs dst =
      let idx := default (length qs - 1)%nat (pickIndex (draw turn (weightSum qs)) 0 0 qs) in
      match qs !! idx with
      | None => Err "index out of range"
      | Some q => orderLoop draw fuel (S turn) (wrap64 (weightSum qs - qweight q))
                    (swapRemove idx qs) (dst ++ [qname q])
      end) as ->.
    { rewrite Eqs. simpl. rewrite <- Eqs in *. destruct (Z.leb_spec (qweight q0 + weightSum qs0) 0); [|done].
      rewrite Eqs in Hpos. simpl in Hpos. lia. }
    destruct (pickIndex_gen qs (draw turn (weightSum qs)) 0 0) as (k & q & Hk & Hq & _); try done; try lia.
    { pose proof (Hdraw turn (weightSum qs) Hpos). lia. }
    rewrite Hk. simpl. rewrite Hq. pose proof (swapRemove_perm k qs q Hq) as HP.
    assert (weightsOk (q :: swapRemove k qs)) as [Hqw Hw']%Forall_cons
      by (unfold weightsOk; by rewrite HP).
    pose proof (weightSum_perm _ _ HP) as Hsum. simpl in Hsum.
    pose proof (Permutation_length HP) as Hlen'. simpl in Hlen'.
    pose proof (weightSum_bound _ Hw'). rewrite wrap64_small by lia.
    destruct (IH (S turn) (weightSum qs - qweight q) (swapRemove k qs) (dst ++ [qname q]))
      as (out & Hout & Hperm); [done | unfold fewQueues in *; lia | lia | lia |].
    exists (qname q :: out). rewrite Hout. split; [by rewrite <- app_assoc|].
    rewrite Hperm. exact (fmap_Permutation qname _ _ HP).
Qed.

(** ** The configured queues *)

Definition configured (queues : gmap string Z) : list weightedQueue :=
  (fun '(name, weight) => {| qname := name; qweight := checkedWeight weight |})
    <$> map_to_list queues.

Lemma checkedWeight_range w : 1 <= checkedWeight w <= maxQueueWeight.
Proof.
  unfold checkedWeight, maxQueueWeight.
  destruct (Z.ltb_spec w 1); [lia|]. destruct (Z.ltb_spec 100000 w); lia.
Qed.

Lemma checkedLoop_ok entries :
  Forall (fun e => e.1 <> "") entries ->
  checkedLoop entries = Ok ((fun '(name, weight) =>
    {| qname := name; qweight := checkedWeight weight |}) <$> entries).
Proof.
  induction 1 as [|[name weight] rest Hn _ IH]; [done|]. simpl in *.
  destruct (String.eqb_spec name ""); [done|]. by rewrite IH.
Qed.

Lemma checkedLoop_err entries :
  Exists (fun e => e.1 = "") entries ->
  checkedLoop entries = Err "drover: Config.Queues contains an empty queue name".
Proof.
  induction entries as [|[name weight] rest IH]; intros H; inversion H; simpl in *; subst; [done|].
  destruct (String.eqb_spec name ""); [done|]. by rewrite IH.
Qed.

Lemma configured_elem queues name w :
  {| qname := name; qweight := w |} ∈ configured queues <->
  exists w0, queues !! name = Some w0 /\ w = checkedWeight w0.
Proof.
  unfold configured. rewrite list_elem_of_fmap. split.
  - intros ([n w0] & Heq & Hin). simplify_eq. exists w0. by rewrite <- elem_of_map_to_list.
  - intros (w0 & Hq & ->). exists (name, w0). by rewrite elem_of_map_to_list.
Qed.

Lemma configured_NoDup queues : NoDup (qname <$> configured queues).
Proof.
  unfold configured. rewrite <- list_fmap_compose.
  rewrite (list_fmap_ext _ fst) by (by intros ? []). apply NoDup_fst_map_to_list.
Qed.

Lemma configured_weightsOk queues : weightsOk (configured queues).
Proof.
  apply Forall_forall. intros [n w] (w0 & _ & ->)%configured_elem. apply checkedWeight_range.
Qed.

Lemma checkedQueues_cases queues :
  (queues = ∅ /\ checkedQueues queues = Ok [{| qname := defaultQueue; qweight := 1 |}]) \/
  (is_Some (queues !! "") /\
     checkedQueues queues = Err "drover: Config.Queues contains an empty queue name") \/
  (queues <> ∅ /\ queues !! "" = None /\ checkedQueues queues = Ok (SortFunc nameCmp (configured queues))).
Proof.
  unfold checkedQueues. case_bool_decide as Hsz.
  - left. by apply map_size_empty_iff in Hsz.
  - right. rewrite map_size_empty_iff in Hsz. destruct (queues !! "") as [w|] eqn:E.
    + left. split; [done|]. rewrite checkedLoop_err; [done|].
      apply Exists_exists. exists ("", w). by rewrite elem_of_map_to_list.
    + right. split_all; [done|done|]. rewrite checkedLoop_ok; [done|].
      apply Forall_forall. intros [n w] Hin%elem_of_map_to_list ?. simpl in *. congruence.
Qed.

(** What the fetch loop may rely on: no name twice, every weight in range. *)
Lemma checkedQueues_ok queues qs :
  checkedQueues queues = Ok qs ->
  weightsOk qs /\ NoDup (qname <$> qs) /\ qs <> [] /\
  StronglySorted (cmp_le nameCmp) qs /\ (length qs <= S (size queues))%nat.
Proof.
  destruct (checkedQueues_cases queues) as [(-> & ->)|[(_ & ->)|(Hne & _ & ->)]];
    intros [= <-].
  - split_all; [by repeat constructor | apply NoDup_singleton | done | by repeat constructor | simpl; lia].
  - assert (SortFunc nameCmp (configured queues) ≡ₚ configured queues) as HP by apply SortFunc_perm.
    assert (length (configured queues) = size queues) as Hl
      by (unfold configured; by rewrite length_fmap, length_map_to_list).
    split_all.
    + unfold weightsOk. rewrite HP. apply configured_weightsOk.
    + eapply NoDup_Permutation_proper; [exact (fmap_Permutation qname _ _ HP)|].
      apply configured_NoDup.
    + intros H0. rewrite H0 in HP. apply Permutation_nil_l in HP.
      rewrite <- HP in Hl. simpl in Hl. symmetry in Hl. by apply map_size_empty_iff in Hl.
    + apply SortFunc_sorted, _.
    + rewrite HP, Hl. lia.
Qed.

(** The head of the order is the entry the first draw falls on. *)
Lemma orderLoop_head draw fuel turn total qs q0 dst out :
  orderLoop draw fuel turn total qs (q0 :: dst) = Ok out -> head out = Some q0.
Proof.
  revert turn total qs dst. induction fuel as [|fuel IH]; intros turn total [|q qs] dst; simpl;
    try (by intros [= <-]). casematch; [done|]. destruct (_ !! _); [|done]. apply IH.
Qed.

(** On checked weights the order never panics and lists every queue once. *)
Lemma weightedOrder_perm draw qs :
  (forall i n, 0 < n -> 0 <= draw i n < n) -> weightsOk qs -> fewQueues qs ->
  exists out, weightedOrder draw qs = Ok out /\ out ≡ₚ qname <$> qs.
Proof.
  intros Hd Hw Hf.
  destruct (orderLoop_perm draw (length qs) 0 (totalWeight qs) qs [] Hd Hw Hf) as (o & Ho & HP);
    [by apply totalWeight_sum | done |].
  destruct qs as [|q [|q' qs']]; [by exists [] | by exists [qname q] | by exists o].
Qed.

(** ** Properties *)

(** [checkedQueues] serves the default queue with weight one when nothing
    is configured, panics exactly when an empty queue name is configured, and
    otherwise returns every configured queue once, sorted by name, with its
    weight corrected into [[1, maxQueueWeight]]. *)
Theorem checkedQueues_spec queues :
  (queues = ∅ -> checkedQueues queues = Ok [{| qname := defaultQueue; qweight := 1 |}]) /\
  (is_Some (queues !! "") <-> exists e, checkedQueues queues = Err e) /\
  (queues <> ∅ -> queues !! "" = None -> exists qs,
     checkedQueues queues = Ok qs /\
     StronglySorted (cmp_le nameCmp) qs /\ NoDup (qname <$> qs) /\
     forall q, q ∈ qs <-> exists w, queues !! qname q = Some w /\
       qweight q = checkedWeight w /\ 1 <= qweight q <= maxQueueWeight).
Proof.
  destruct (checkedQueues_cases queues) as [(-> & E)|[(Hs & E)|(Hne & Hn & E)]].
  - rewrite E, lookup_empty. split_all; [done | split; by intros [? ?] | done].
  - rewrite E. split_all; [|by split; eauto|].
    + intros ->. rewrite lookup_empty in Hs. by destruct Hs.
    + intros _ H. rewrite H in Hs. by destruct Hs.
  - rewrite E, Hn. split_all; [done | split; by intros [? ?] |].
    intros _ _.
    destruct (checkedQueues_ok _ _ E) as (_ & Hnd & _ & Hsrt & _).
    exists (SortFunc nameCmp (configured queues)). split_all; try done.
    intros [n w]. rewrite SortFunc_elem, configured_elem. simpl. split.
    + intros (w0 & ? & ->). exists w0. split_all; [done|done|apply checkedWeight_range..].
    + intros (w0 & ? & ? & _). eauto.
Qed.

(** C20: starvation freedom.  On the queues a client is configured with, one
    fetch round always ends, never reaches the panic of the random source and
    never indexes out of range, whatever is drawn, and the order it returns
    holds every queue exactly once. *)
Theorem weightedOrder_starvation_free draw queues qs :
  (forall i n, 0 < n -> 0 <= draw i n < n) ->
  Z.of_nat (size queues) < 2 ^ 46 ->
  checkedQueues queues = Ok qs ->
  exists out, weightedOrder draw qs = Ok out /\ out ≡ₚ qname <$> qs /\ NoDup out.
Proof.
  intros Hd Hsz Hq. destruct (checkedQueues_ok _ _ Hq) as (Hw & Hnd & Hne & _ & Hlen).
  destruct (weightedOrder_perm draw qs Hd Hw) as (out & Ho & HP); [unfold fewQueues; lia|].
  exists out. split_all; [done | done | by rewrite HP].
Qed.

(** the shares of a round.  With two queues or more, the queue at index
    [k] is tried first exactly when the first draw falls into its own interval
    of the total weight, an interval whose length is its weight. *)
Theorem weightedOrder_share draw queues qs k q out :
  (forall i n, 0 < n -> 0 <= draw i n < n) ->
  Z.of_nat (size queues) < 2 ^ 46 ->
  checkedQueues queues = Ok qs -> (2 <= length qs)%nat -> qs !! k = Some q ->
  weightedOrder draw qs = Ok out ->
  head out = Some (qname q) <->
  weightSum (take k qs) <= draw 0%nat (weightSum qs) < weightSum (take k qs) + qweight q.
Proof.
  intros Hd Hsz Hq H2 Hk Hout. destruct (checkedQueues_ok _ _ Hq) as (Hw & Hnd & Hne & _ & Hlen).
  assert (fewQueues qs) as Hf by (unfold fewQueues; lia).
  pose proof (weightSum_bound qs Hw). pose proof (weightSum_small qs Hw Hf).
  pose proof (Hd 0%nat (weightSum qs)).
  destruct (pickIndex_gen qs (draw 0%nat (weightSum qs)) 0 0) as (j & q' & Hj & Hq' & Hr); try done; try lia.
  assert (head out = Some (qname q')) as ->.
  { assert (orderLoop draw (length qs) 0 (weightSum qs) qs [] = Ok out) as Hl.
    { rewrite <- totalWeight_sum by done. destruct qs as [|? [|? ?]]; simpl in H2; [lia|lia|done]. }
    destruct qs as [|a l] eqn:Eqs; [done|]. simpl length in Hl. cbn [orderLoop] in Hl.
    destruct (Z.leb_spec (weightSum (a :: l)) 0); [lia|].
    rewrite Hj in Hl. cbn [default from_option id Nat.add] in Hl. rewrite Hq' in Hl.
    by apply orderLoop_head in Hl. }
  destruct (decide (j = k)) as [->|Hjk].
  - rewrite Hk in Hq'. simplify_eq. split; [lia | done].
  - split.
    + intros [= Hn]. exfalso. apply Hjk.
      eapply (NoDup_lookup (qname <$> qs)); [done | |]; rewrite list_lookup_fmap.
      * rewrite Hq'. simpl. by rewrite Hn.
      * by rewrite Hk.
    + intros Hb. exfalso. apply Hjk. eapply weightSum_inj; eauto; lia.
Qed.

Definition demoQueues : gmap string Z := {[ "bulk" := 0; "mail" := 7 ]}.

Definition demoDraw (i : nat) (n : Z) : Z := n - 1.

Lemma weightedOrder_starvation_free_witness :
  exists out, weightedOrder demoDraw
    [{| qname := "bulk"; qweight := 1 |}; {| qname := "mail"; qweight := 7 |}] = Ok out /\
    out ≡ₚ ["bulk"; "mail"] /\ NoDup out.
Proof.
  apply (weightedOrder_starvation_free demoDraw demoQueues).
  - unfold demoDraw. lia.
  - vm_compute. done.
  - vm_compute. done.
Defined.

Lemma weightedOrder_share_witness :
  head ["mail"; "bulk"] = Some "mail" <-> 1 <= demoDraw 0 8 < 8.
Proof.
  apply (weightedOrder_share demoDraw demoQueues
    [{| qname := "bulk"; qweight := 1 |}; {| qname := "mail"; qweight := 7 |}] 1
    {| qname := "mail"; qweight := 7 |}).
  - unfold demoDraw. lia.
  - vm_compute. done.
  - vm_compute. done.
  - simpl. lia.
  - done.
  - vm_compute. done.
Defined.
