(* ===== verification/Retry.v ===== *)
(** * Retry: when a failed job runs again

    Models retry.go.  [rand.Float64] is [k / 2^53] for a drawn [k] in
    [[0, 2^53)], which is an argument; a policy is user code that returns a time
    or panics.  The two clock readings of [retryAt] are arguments: the caller's
    [now], and [later], what [time.Now] says when the default schedule stands in. *)

From S2P Require Import Prelude GoTime GoRuntime DriverSpec.

(** The constants 0.9 and 0.2 as binary64. *)
Definition float0_9 : float64 := MkFloat 8106479329266893 (-53).
Definition float0_2 : float64 := MkFloat 7205759403792794 (-55).

Definition randFloat64 (k : Z) : float64 := MkFloat k (-53).

Definition exponentialDelay (k : Z) (attempt : Z) : Duration :=
  let n := ofInt attempt in
  let seconds := fmul (fmul (fmul (fmul n n) n) n)
                   (fadd float0_9 (fmul float0_2 (randFloat64 k))) in
  toInt64 (fmul seconds (ofInt Second)).

Definition RetryPolicy : Type := JobRow -> outcome Time.

(** [ExponentialRetryPolicy.NextRetry], called when the clock says [now]. *)
Definition NextRetry (k : Z) (now : Time) (job : JobRow) : Time :=
  now + exponentialDelay k (Attempt job).

(** The deferred [recover]: the time, or the recovered value. *)
Definition safeNextRetry (p : RetryPolicy) (job : JobRow) : Time * option string :=
  match p job with
  | Returns t => (t, None)
  | Panics v => (zeroTime, Some v)
  end.

Definition retryAt (k : Z) (p : RetryPolicy) (job : JobRow) (now later : Time) : Time :=
  let '(at0, recovered) := safeNextRetry p job in
  let at1 := match recovered with Some _ => NextRetry k later job | None => at0 end in
  if Before at1 now then now else at1.

(** ** The spread of the default schedule *)

Lemma power4_exact n :
  1 <= n <= 300 ->
  let f := ofInt n in fmul (fmul (fmul f f) f) f = MkFloat (n * n * n * n) 0.
Proof.
  intros Hn f. unfold f, ofInt.
  assert (n * n <= 90000) by nia. assert (n * n * n <= 27000000) by nia.
  assert (n * n * n * n <= 8100000000) by nia.
  rewrite (fround_exact (MkFloat n 0)) by (simpl; lia).
  rewrite fmul_exact by lia. rewrite fmul_exact by nia. rewrite fmul_exact by nia. done.
Qed.

(** The jitter factor, scaled by [2^200]: within rounding of [[0.9, 1.1)]. *)
Lemma jitter_bound k :
  0 <= k < 2 ^ 53 ->
  let b := fadd float0_9 (fmul float0_2 (randFloat64 k)) in
  fine b /\ 9 * 2 ^ 200 - 2 ^ 152 <= 10 * scaled b <= 11 * 2 ^ 200 + 2 ^ 152.
Proof.
  intros Hk b. unfold b, fmul, fadd.
  set (p := MkFloat (mant float0_2 * mant (randFloat64 k)) (expo float0_2 + expo (randFloat64 k))).
  assert (fine p) as Hp by (unfold fine, p; simpl; lia).
  destruct (fround_err p Hp) as [Hf1 He1].
  assert (scaled p = 7205759403792794 * k * 2 ^ 92) as Hsp by (unfold scaled, p; simpl; lia).
  set (a := fround p) in *.
  set (e := Z.min (expo float0_9) (expo a)).
  set (s := MkFloat (mant float0_9 * 2 ^ (expo float0_9 - e) + mant a * 2 ^ (expo a - e)) e).
  assert (fine s) as Hs by (unfold fine, s, e in *; simpl in *; lia).
  assert (scaled s = 8106479329266893 * 2 ^ 147 + scaled a) as Hss.
  { unfold scaled, s, e. cbn [mant expo]. unfold fine in Hf1.
    rewrite Z.mul_add_distr_r, <- !Z.mul_assoc, <- !Z.pow_add_r by (cbn in *; lia).
    f_equal; [f_equal; f_equal; cbn; lia | f_equal; f_equal; lia]. }
  destruct (fround_err s Hs) as [Hf2 He2]. split; [done|].
  rewrite Hss in He2. rewrite Hsp in He1. lia.
Qed.

Lemma trunc_bound f lo hi :
  fine f -> 0 <= lo -> hi < 2 ^ 63 -> lo * 2 ^ 200 <= scaled f < (hi + 1) * 2 ^ 200 ->
  lo <= toInt64 f <= hi.
Proof.
  intros Hf Hlo Hhi Hs. unfold toInt64. unfold fine, scaled in *.
  set (z := if 0 <=? expo f then mant f * 2 ^ expo f else mant f ÷ 2 ^ (- expo f)).
  assert (lo <= z <= hi) as Hz.
  { unfold z. destruct (Z.leb_spec 0 (expo f)).
    - rewrite Z.pow_add_r, Z.mul_assoc in Hs by lia. set (y := mant f * 2 ^ expo f) in *. lia.
    - assert (2 ^ 200 = 2 ^ (expo f + 200) * 2 ^ (- expo f)) as E
        by (rewrite <- Z.pow_add_r by lia; f_equal; lia).
      assert (0 < 2 ^ (- expo f)) by (apply Z.pow_pos_nonneg; lia).
      assert (0 < 2 ^ (expo f + 200)) by (apply Z.pow_pos_nonneg; lia).
      rewrite E in Hs. set (P := 2 ^ (- expo f)) in *. set (S := 2 ^ (expo f + 200)) in *.
      assert (lo * P <= mant f < (hi + 1) * P) as Hm by nia.
      rewrite Z.quot_div_nonneg by nia. split.
      + apply Z.div_le_lower_bound; nia.
      + assert (mant f / P < hi + 1); [apply Z.div_lt_upper_bound; nia | lia]. }
  destruct (Z.leb_spec (-2 ^ 63) z); [|lia]. destruct (Z.ltb_spec z (2 ^ 63)); simpl; lia.
Qed.

(** Multiplying by an exact integer. *)
Lemma fmul_int_err c f :
  0 <= c -> fine f -> 0 <= scaled f ->
  fine (fmul (MkFloat c 0) f) /\
  2 ^ 53 * Z.abs (scaled (fmul (MkFloat c 0) f) - c * scaled f) <= c * scaled f.
Proof.
  intros Hc Hf Hs. unfold fmul. cbn [mant expo]. rewrite Z.add_0_l.
  destruct (fround_err (MkFloat (c * mant f) (expo f)) Hf) as [Hf' He].
  assert (scaled (MkFloat (c * mant f) (expo f)) = c * scaled f) as E
    by (unfold scaled; cbn [mant expo]; lia).
  rewrite E in He. rewrite (Z.abs_eq (c * scaled f)) in He by nia. done.
Qed.

Lemma fmul_comm f g : fmul f g = fmul g f.
Proof. unfold fmul. by rewrite (Z.mul_comm (mant f)), (Z.add_comm (expo f)). Qed.

Lemma exponentialDelay_bound k n :
  0 <= k < 2 ^ 53 -> 1 <= n <= 300 ->
  let n4 := n * n * n * n in
  9 * n4 * 10 ^ 8 - n4 / 10 ^ 6 - 1 <= exponentialDelay k n <= 11 * n4 * 10 ^ 8 + n4 / 10 ^ 6 + 1.
Proof.
  intros Hk Hn n4. unfold exponentialDelay. rewrite (power4_exact n Hn). fold n4.
  assert (1 <= n4 <= 8100000000) as Hn4.
  { unfold n4. assert (1 <= n * n <= 90000) by nia. assert (1 <= n * n * n <= 27000000) by nia. nia. }
  clearbody n4. destruct (jitter_bound k Hk) as [Hfb Hb].
  set (b := fadd float0_9 (fmul float0_2 (randFloat64 k))) in *.
  destruct (fmul_int_err n4 b) as [Hfp Hep]; [lia|done|lia|].
  set (p := fmul (MkFloat n4 0) b) in *.
  assert (ofInt Second = MkFloat (10 ^ 9) 0) as -> by (vm_compute; reflexivity).
  rewrite fmul_comm.
  assert (9 * n4 * 2 ^ 200 - n4 * 2 ^ 153 <= 10 * scaled p <= 11 * n4 * 2 ^ 200 + n4 * 2 ^ 153) as Hp.
  { assert (9 * (n4 * 2 ^ 200) - n4 * 2 ^ 152 <= 10 * (n4 * scaled b) <= 11 * (n4 * 2 ^ 200) + n4 * 2 ^ 152)
      as Hnb by nia.
    set (y := n4 * scaled b) in *. clearbody y. lia. }
  destruct (fmul_int_err (10 ^ 9) p) as [Hfs Hes]; [lia|done|lia|].
  set (s := fmul (MkFloat (10 ^ 9) 0) p) in *.
  pose proof (Z.div_mod n4 (10 ^ 6)). pose proof (Z.mod_pos_bound n4 (10 ^ 6)).
  pose proof (Z.div_pos n4 (10 ^ 6)).
  apply trunc_bound; [done|lia|lia|]. lia.
Qed.

(** ** Properties *)

(** C39: the default schedule.  For attempts 1 to 300 and any draw, the wait after attempt [n]
    is [n^4] seconds within 10 per cent, up to the rounding of binary64 (one
    nanosecond, and one more per million of [n^4]); it never overflows a [Duration]. *)
Theorem exponentialDelay_jitter k n :
  0 <= k < 2 ^ 53 -> 1 <= n <= 300 ->
  let nominal := n * n * n * n * Second in
  let slack := n * n * n * n / 10 ^ 6 + 1 in
  nominal - nominal / 10 - slack <= exponentialDelay k n <= nominal + nominal / 10 + slack /\
  0 < exponentialDelay k n < 2 ^ 63.
Proof.
  intros Hk Hn nominal slack. pose proof (exponentialDelay_bound k n Hk Hn) as H. cbv zeta in H.
  assert (1 <= n * n * n * n <= 8100000000) as Hn4.
  { assert (1 <= n * n <= 90000) by nia. assert (1 <= n * n * n <= 27000000) by nia. nia. }
  unfold nominal, slack. set (n4 := n * n * n * n) in *. clearbody n4.
  pose proof (Z.div_mod n4 (10 ^ 6)). pose proof (Z.mod_pos_bound n4 (10 ^ 6)).
  pose proof (Z.div_pos n4 (10 ^ 6)).
  replace (n4 * Second) with (n4 * 10 ^ 8 * 10) by (change Second with (10 ^ 9); lia).
  rewrite Z.div_mul by lia. lia.
Qed.

Lemma exponentialDelay_jitter_witness :
  let nominal := 25 * 25 * 25 * 25 * Second in
  let slack := 25 * 25 * 25 * 25 / 10 ^ 6 + 1 in
  nominal - nominal / 10 - slack <= exponentialDelay 4503599627370496 25
    <= nominal + nominal / 10 + slack /\
  0 < exponentialDelay 4503599627370496 25 < 2 ^ 63.
Proof. apply (exponentialDelay_jitter 4503599627370496 25); lia. Defined.

(** [retryAt] never schedules before [now] and never panics.  It is the policy's answer when that is
    not in the past, [now] when it is, and when the policy panics the default schedule
    read from the later clock, under the same floor. *)
Theorem retryAt_spec k p job now later :
  now <= retryAt k p job now later /\
  match p job with
  | Returns t => retryAt k p job now later = Z.max now t
  | Panics _ => retryAt k p job now later = Z.max now (later + exponentialDelay k (Attempt job))
  end.
Proof.
  unfold retryAt, safeNextRetry, NextRetry, Before.
  destruct (p job); casematch; unbool; lia.
Qed.
