(* ===== verification/Inflight.v ===== *)
(** * Inflight: the leases a client executes under, and the heartbeat

    Models inflight.go and heartbeat.go.  The set is the map from job id to
    attempt; each method holds the lock for its whole body.  The heartbeat is
    stated over any driver that keeps the contract. *)

From S2P Require Import Prelude GoTime GoError GoRuntime DriverSpec.
From S2P Require Import Memdriver MemdriverFacts MemdriverProps.

Abbreviation inflightSet := (gmap Z Z).

Definition newInflightSet : inflightSet := ∅.

Definition add (lease : Lease) (s : inflightSet) : inflightSet :=
  <[leaseID lease := leaseAttempt lease]> s.

Definition remove (lease : Lease) (s : inflightSet) : inflightSet :=
  match s !! leaseID lease with
  | Some held => if held =? leaseAttempt lease then delete (leaseID lease) s else s
  | None => s
  end.

(** [int(a.ID - b.ID)] *)
Definition leaseCmp (a b : Lease) : Z := wrap64 (leaseID a - leaseID b).

Definition snapshot (s : inflightSet) : list Lease :=
  if bool_decide (size s = 0%nat) then []
  else SortFunc leaseCmp ((fun kv : Z * Z => MkLease kv.1 kv.2) <$> map_to_list s).

(** ** Lemmas *)

(** The set tracks exactly this attempt of this job. *)
Definition tracked (l : Lease) (s : inflightSet) : Prop := s !! leaseID l = Some (leaseAttempt l).

#[export] Instance tracked_dec l s : Decision (tracked l s).
Proof. unfold tracked. apply _. Defined.

Lemma tracked_add l l' s :
  tracked l (add l' s) <-> l = l' \/ (leaseID l <> leaseID l' /\ tracked l s).
Proof.
  unfold tracked, add. destruct l as [i a], l' as [i' a']. simpl. split.
  - destruct (decide (i = i')) as [->|Hne].
    + rewrite lookup_insert_eq. intros [= ->]. by left.
    + rewrite lookup_insert_ne by congruence. by right.
  - intros [[= -> ->]|[Hne Ht]]; [apply lookup_insert_eq|].
    by rewrite lookup_insert_ne by congruence.
Qed.

Lemma tracked_remove l l' s : tracked l (remove l' s) <-> l <> l' /\ tracked l s.
Proof.
  unfold tracked, remove. destruct l as [i a], l' as [i' a']. simpl.
  destruct (s !! i') as [held|] eqn:E.
  - destruct (Z.eqb_spec held a') as [->|Hne].
    + destruct (decide (i = i')) as [->|Hi].
      * rewrite lookup_delete_eq, E. split; [done|]. intros [H [= ->]]. done.
      * rewrite lookup_delete_ne by congruence. split; [|tauto]. intros ?. split; congruence.
    + split; [|tauto]. intros H. split; [|done]. congruence.
  - split; [|tauto]. intros H. split; [|done]. congruence.
Qed.

(** Ids are positive: the comparator cannot wrap on them. *)
Definition idsOk (s : inflightSet) : Prop := forall id a, s !! id = Some a -> 0 <= id < 2 ^ 63.

Lemma entries_elem (s : inflightSet) l :
  l ∈ (fun kv : Z * Z => MkLease kv.1 kv.2) <$> map_to_list s <-> tracked l s.
Proof.
  rewrite list_elem_of_fmap. unfold tracked. split.
  - intros ([i a] & -> & H). by apply elem_of_map_to_list in H.
  - intros H. exists (leaseID l, leaseAttempt l). destruct l. by rewrite elem_of_map_to_list.
Qed.

Lemma snapshot_elem s l : l ∈ snapshot s <-> tracked l s.
Proof.
  unfold snapshot. case_bool_decide as Hs.
  - apply map_size_empty_iff in Hs as ->. unfold tracked. rewrite lookup_empty.
    split; [by intros ?%not_elem_of_nil | done].
  - unfold SortFunc. rewrite merge_sort_Permutation. apply entries_elem.
Qed.

Lemma snapshot_sort s :
  idsOk s ->
  SortFunc leaseCmp ((fun kv : Z * Z => MkLease kv.1 kv.2) <$> map_to_list s) =
  SortFunc (onKey leaseID compareZ) ((fun kv : Z * Z => MkLease kv.1 kv.2) <$> map_to_list s).
Proof.
  intros Hs. apply (SortFunc_ext _ _ (fun l => 0 <= leaseID l < 2 ^ 63)).
  - intros a b Ha Hb. unfold leaseCmp, onKey. rewrite compareZ_le, wrap64_small by lia. lia.
  - apply Forall_forall. intros l Hl%entries_elem. exact (Hs _ _ Hl).
Qed.

(** ** The heartbeat *)

Section Heartbeat.
Context {S : Type} `{Laws : DriverLaws S}.

(** One beat: the store after it, and the records it logged. *)
Definition extendLeases (now : Time) (leaseDuration : Duration) (inflight : inflightSet)
    (s : S) (w : World) : S * World :=
  match snapshot inflight with
  | [] => (s, w)
  | leases =>
      let '(s', err) := drvExtendLeases now leases leaseDuration s in
      match err with
      | Some _ => (s', logTo w LevelError "drover: extend job leases" None)
      | None => (s', logTo w LevelDebug "drover: extended job leases" None)
      end
  end.

(** [heartbeat] over the beats before it is stopped: when each falls, what the client holds
    then, and what others did to the store since the last. *)
Fixpoint heartbeat (leaseDuration : Duration) (beats : list (Time * inflightSet * (S -> S)))
    (s : S) (w : World) : S * World :=
  match beats with
  | [] => (s, w)
  | (now, inflight, others) :: rest =>
      let '(s', w') := extendLeases now leaseDuration inflight (others s) w in
      heartbeat leaseDuration rest s' w'
  end.

(** The driver accepted the renewal. *)
Definition beatLanded (now : Time) (leaseDuration : Duration) (inflight : inflightSet) (s : S) : Prop :=
  (drvExtendLeases now (snapshot inflight) leaseDuration s).2 = None.

Lemma extendLeases_rows now d inflight s w :
  drvWf s -> beatLanded now d inflight s ->
  (forall l, tracked l inflight -> int32Attempt (leaseAttempt l)) ->
  drvWf (extendLeases now d inflight s w).1 /\
  forall id, rowAt (extendLeases now d inflight s w).1 id =
             renewedBy (drvTime S now) (drvSpan S d) (snapshot inflight) <$> rowAt s id.
Proof.
  intros Hwf Hb Hatt. unfold extendLeases, beatLanded in *.
  destruct (extendLeases_law now (snapshot inflight) d s Hwf) as [Hwf' Hrows].
  { apply Forall_forall. intros l Hl. apply Hatt. by apply snapshot_elem. }
  destruct (snapshot inflight) as [|l ls] eqn:Es.
  - split; [done|]. intros id. simpl. destruct (rowAt s id) as [r|]; [|done]. simpl. f_equal.
    unfold renewedBy. rewrite decide_False; [done|]. intros [_ ?%not_elem_of_nil]. done.
  - destruct (drvExtendLeases now (l :: ls) d s) as [s' err] eqn:E. simpl in *. subst err.
    simpl. split; [done|]. exact (Hrows eq_refl).
Qed.
End Heartbeat.

(** ** Properties *)

(** the snapshot lists exactly the tracked leases, in ascending id order,
    each id once: a lease is in it from the [add] of its claim until the [remove] of
    that same attempt; removing an older attempt leaves a later claim of the job tracked. *)
Theorem snapshot_tracks s l :
  idsOk s -> 0 <= leaseID l < 2 ^ 63 ->
  StronglySorted (fun a b => leaseID a < leaseID b) (snapshot s) /\
  l ∈ snapshot (add l s) /\ l ∉ snapshot (remove l s) /\
  (forall l', l' <> l -> (l' ∈ snapshot (remove l s) <-> l' ∈ snapshot s)) /\
  (forall l', leaseID l' <> leaseID l -> (l' ∈ snapshot (add l s) <-> l' ∈ snapshot s)).
Proof.
  intros Hs Hl. split_all.
  - unfold snapshot. case_bool_decide; [constructor|]. rewrite (snapshot_sort s Hs).
    set (es := (fun kv : Z * Z => MkLease kv.1 kv.2) <$> map_to_list s).
    assert (NoDup (leaseID <$> SortFunc (onKey leaseID compareZ) es)) as Hnd.
    { rewrite SortFunc_perm. unfold es. rewrite <- list_fmap_compose. apply NoDup_fst_map_to_list. }
    pose proof (SortFunc_sorted (onKey leaseID compareZ) es) as Hsrt.
    induction Hsrt as [|a l0 Hsrt IH Hall]; [constructor|].
    apply NoDup_cons in Hnd as [Hna Hnd]. constructor; [by apply IH|].
    rewrite Forall_forall in Hall |- *. intros b Hb. specialize (Hall b Hb).
    unfold cmp_le, onKey in Hall. apply (proj1 (compareZ_le _ _)) in Hall.
    assert (leaseID a <> leaseID b); [|lia]. intros E. apply Hna. rewrite E.
    apply list_elem_of_fmap. eauto.
  - rewrite snapshot_elem, tracked_add. by left.
  - rewrite snapshot_elem, tracked_remove. tauto.
  - intros l' Hne. rewrite !snapshot_elem, tracked_remove. tauto.
  - intros l' Hne. rewrite !snapshot_elem, tracked_add. intuition congruence.
Qed.

Lemma snapshot_tracks_witness :
  snapshot (add (MkLease 3 1) (add (MkLease 7 2) newInflightSet)) = [MkLease 3 1; MkLease 7 2] /\
  MkLease 3 1 ∈ snapshot (add (MkLease 3 1) (add (MkLease 7 2) newInflightSet)).
Proof.
  split; [vm_compute; reflexivity|].
  refine (proj1 (proj2 (snapshot_tracks (add (MkLease 7 2) newInflightSet) (MkLease 3 1) _ _)));
    [|simpl; lia].
  intros id a. unfold add. simpl. intros H. apply lookup_insert_Some in H as [[<- _]|[_ H]]; [lia|].
  unfold newInflightSet in H. by rewrite lookup_empty in H.
Defined.

(** C19: a job that beats is not rescued.  Over any driver that keeps its contract, once a beat
    landed at [t], a job this client runs holds its lease, and a rescue sweep by anyone up to the
    next beat neither returns nor changes that job.  The interval must be shorter than the lease by
    two ticks of the store's clock, which a microsecond clock leaves to every configured client. *)
Theorem heartbeat_outpaces_rescue {S} `{DriverLaws S} inflight l r t lease interval limit t'
    (s s' : S) w rows :
  drvWf s -> leaseHeld s l r -> tracked l inflight ->
  (forall l, tracked l inflight -> int32Attempt (leaseAttempt l)) ->
  interval + 2 * drvTick < lease -> lease <= 365 * 24 * Hour -> t <= t' <= t + interval ->
  beatLanded t lease inflight s ->
  drvFetchExpired t' lease limit (extendLeases t lease inflight s w).1 = (s', Ok rows) ->
  leaseHeld s' l (setLeasedUntil (Some (drvTime S t + drvSpan S lease)) r) /\ leaseID l ∉ ID <$> rows.
Proof.
  intros Hwf [Hr [Hrun Hatt]] Htr Hint Hlt Hyear Ht Hb Hfetch.
  destruct (extendLeases_rows t lease inflight s w Hwf Hb Hint) as [Hwf1 Hrows].
  set (s1 := (extendLeases t lease inflight s w).1) in *.
  assert (rowAt s1 (leaseID l) = Some (setLeasedUntil (Some (drvTime S t + drvSpan S lease)) r)) as H1.
  { rewrite Hrows, Hr. simpl. f_equal. unfold renewedBy. rewrite decide_True; [done|].
    split; [done|]. apply snapshot_elem. unfold leaseOf. rewrite (rowAt_id s _ _ Hwf Hr), Hatt.
    by destruct l. }
  destruct (fetchExpired_law _ _ _ _ _ _ Hwf1 Hfetch) as (_ & _ & Hin & Hout).
  assert (leaseID l ∉ ID <$> rows) as Hnot.
  { intros (x & Hx & Hxin)%list_elem_of_fmap.
    destruct (Hin x Hxin) as (_ & _ & _ & r0 & u & Hr0 & _ & Hu & Hle & _).
    rewrite <- Hx, H1 in Hr0. injection Hr0 as <-. simpl in Hu. injection Hu as <-.
    pose proof (drvTime_near (S := S) t). pose proof (drvTime_near (S := S) t').
    pose proof (drvSpan_near (S := S) lease). lia. }
  split; [|done]. split; [by rewrite Hout | done].
Qed.

Definition beatInflight : inflightSet := add (MkLease 2 2) newInflightSet.

Definition beatWorld : World := MkWorld 0 [].

Lemma heartbeat_outpaces_rescue_witness :
  let s1 := (extendLeases 1150 demoLease beatInflight witnessStore beatWorld).1 in
  let out := FetchExpired 1165 demoLease 100 s1 in
  leaseHeld out.1 (MkLease 2 2)
    (setLeasedUntil (Some (drvTime MemDriver 1150 + drvSpan MemDriver demoLease)) (witnessRow 2)) /\
  2 ∉ ID <$> (match out.2 with Ok rows => rows | Err _ => [] end).
Proof.
  apply (heartbeat_outpaces_rescue beatInflight (MkLease 2 2) (witnessRow 2) 1150 demoLease 20 100
           1165 witnessStore _ beatWorld).
  - apply witnessStore_wf.
  - split; [|split]; vm_compute; reflexivity.
  - vm_compute. reflexivity.
  - intros [i a] Ht. unfold tracked, beatInflight, add, newInflightSet in Ht. simpl in Ht.
    apply lookup_insert_Some in Ht as [[_ <-]|[_ Ht]]; [vm_compute; split; discriminate|].
    by rewrite lookup_empty in Ht.
  - vm_compute. reflexivity.
  - vm_compute. discriminate.
  - lia.
  - vm_compute. reflexivity.
  - vm_compute. reflexivity.
Defined.
