(* ===== verification/Metrics.v ===== *)
(** * Metrics: the collectors a client publishes

    Models metrics.go.  The collectors are Prometheus's; what the code relies on
    is that resolving a series fails for a label value it refuses, which
    [validLabel] decides, and that registering a collector fails when the registry refuses it, which
    [register] decides.  A series is absent until it is first resolved. *)

From S2P Require Import Prelude GoTime GoRuntime.

(** Counters and the gauges of one process hold numbers of jobs; durations and ages are in
    seconds. *)
Record metricSet := {
  completed : gmap string Z;
  failed : gmap string Z;
  duration : gmap string (list float64);
  executing : Z;
  poolConcurrency : Z;
  depth : gmap (string * string) float64;
  oldestAge : gmap string float64
}.

(** The collectors as they are created, with the pool gauge set. *)
Definition newCollectors (concurrency : Z) : metricSet :=
  {| completed := ∅; failed := ∅; duration := ∅; executing := 0;
     poolConcurrency := concurrency; depth := ∅; oldestAge := ∅ |}.

(** ** Registration *)

(** What a collector declares of itself. *)
Record collector := { colName : string; colHelp : string; colLabels : list string }.

(** A [prometheus.Registry]: the collectors registered on it, oldest first. *)
Abbreviation Registry := (list collector).

Definition NewRegistry : Registry := [].

(** The collectors of a client, in the order [newMetricSet] registers them. *)
Definition droverCollectors : list collector :=
  [{| colName := "drover_jobs_completed_total";
      colHelp := "Job executions that returned no error, by queue."; colLabels := ["queue"] |};
   {| colName := "drover_jobs_failed_total";
      colHelp := "Job executions that returned an error, including recovered panics, by queue. Counts attempts, not jobs that died.";
      colLabels := ["queue"] |};
   {| colName := "drover_job_duration_seconds";
      colHelp := "Wall-clock time one job execution took, successful or not, by queue."; colLabels := ["queue"] |};
   {| colName := "drover_jobs_executing";
      colHelp := "Job executions currently inside the middleware chain."; colLabels := [] |};
   {| colName := "drover_pool_concurrency";
      colHelp := "Worker count this client is configured to run, so saturation is computable from one scrape.";
      colLabels := [] |};
   {| colName := "drover_queue_depth";
      colHelp := "Jobs held in one state on one queue."; colLabels := ["queue"; "state"] |};
   {| colName := "drover_oldest_job_age_seconds";
      colHelp := "How long the oldest job claimable now has been waiting, by queue; zero when none is.";
      colLabels := ["queue"] |}].

Section Registration.
(** Why a registry refuses a collector, if it does. *)
Variable register : Registry -> collector -> option string.

(** [MustRegister]: the first refusal panics. *)
Fixpoint MustRegister (reg : Registry) (cs : list collector) : outcome Registry :=
  match cs with
  | [] => Returns reg
  | c :: rest =>
      match register reg c with
      | Some err => Panics err
      | None => MustRegister (reg ++ [c]) rest
      end
  end.

Definition newMetricSet (reg : Registry) (concurrency : Z) : outcome (Registry * metricSet) :=
  match MustRegister reg droverCollectors with
  | Panics v => Panics v
  | Returns reg' => Returns (reg', newCollectors concurrency)
  end.

(** What is documented of a registry: it refuses a collector equal to one it has, and takes one
    whose name none of its own has. *)
Record registryLaws : Prop := {
  register_again : forall reg c, c ∈ reg -> is_Some (register reg c);
  register_new : forall reg c, colName c ∉ colName <$> reg -> register reg c = None
}.

(** The [k]-th of the collectors is refused once those before it are registered. *)
Definition refusedAt (reg : Registry) (cs : list collector) (k : nat) : Prop :=
  exists c, cs !! k = Some c /\ is_Some (register (reg ++ take k cs) c).

Lemma MustRegister_cases reg cs :
  (MustRegister reg cs = Returns (reg ++ cs) /\ forall k, ~ refusedAt reg cs k) \/
  ((exists v, MustRegister reg cs = Panics v) /\ exists k, refusedAt reg cs k).
Proof.
  revert reg. induction cs as [|c cs IH]; intros reg; simpl.
  - left. rewrite app_nil_r. split; [done|]. by intros k (c & Hc & _).
  - destruct (register reg c) as [err|] eqn:E.
    + right. split; [eauto|]. exists 0%nat, c. simpl. rewrite app_nil_r, E. eauto.
    + destruct (IH (reg ++ [c])) as [[Hr Hk]|[Hp [k (c' & Hc & Hs)]]].
      * left. rewrite Hr, <- app_assoc. split; [done|]. intros [|k] (c' & Hc & Hs); simpl in *.
        { rewrite app_nil_r in Hs. injection Hc as <-. rewrite E in Hs. by destruct Hs. }
        apply (Hk k). exists c'. by rewrite <- app_assoc.
      * right. split; [done|]. exists (S k), c'. split; [done|]. by rewrite <- app_assoc in Hs.
Qed.

Lemma newMetricSet_panics reg n :
  (exists v, newMetricSet reg n = Panics v) <-> exists k, refusedAt reg droverCollectors k.
Proof.
  unfold newMetricSet. destruct (MustRegister_cases reg droverCollectors) as [[-> Hk]|[[v ->] Hk]].
  - split; [by intros [? ?] | intros [k Hr]; by destruct (Hk k)].
  - split; eauto.
Qed.

Lemma newMetricSet_returns reg n reg' m :
  newMetricSet reg n = Returns (reg', m) -> reg' = reg ++ droverCollectors /\ m = newCollectors n.
Proof.
  unfold newMetricSet. destruct (MustRegister_cases reg droverCollectors) as [[-> _]|[[v ->] _]]; [|done].
  by intros [= <- <-].
Qed.

(** A registry of the client's own never refuses, and one that has a collector of the
    client's does. *)
Lemma droverCollectors_apart : NoDup (colName <$> droverCollectors).
Proof. by apply (bool_decide_unpack _). Qed.

Lemma fresh_registry_accepts reg :
  registryLaws -> (forall c, c ∈ droverCollectors -> colName c ∉ colName <$> reg) ->
  forall k, ~ refusedAt reg droverCollectors k.
Proof.
  intros Hlaws Hfresh k (c & Hc & Hs). rewrite register_new in Hs; [by destruct Hs | done |].
  rewrite fmap_app, not_elem_of_app. split; [apply Hfresh; by eapply list_elem_of_lookup_2|].
  intros (c' & Hn & Hin)%list_elem_of_fmap. apply list_elem_of_lookup in Hin as [i Hi].
  apply lookup_take_Some in Hi as [Hi Hlt].
  assert (k = i) by (eapply (NoDup_lookup (colName <$> droverCollectors));
    [apply droverCollectors_apart | by rewrite list_lookup_fmap, Hc | by rewrite list_lookup_fmap, Hi, Hn]).
  lia.
Qed.

Lemma used_registry_refuses reg c :
  registryLaws -> c ∈ droverCollectors -> c ∈ reg -> exists k, refusedAt reg droverCollectors k.
Proof.
  intros Hlaws [k Hk]%list_elem_of_lookup Hr. exists k, c. split; [done|].
  apply register_again; [done|]. set_solver.
Qed.
End Registration.

Definition withExecuting (n : Z) (m : metricSet) : metricSet :=
  {| completed := completed m; failed := failed m; duration := duration m;
     executing := n; poolConcurrency := poolConcurrency m; depth := depth m;
     oldestAge := oldestAge m |}.

Definition withDepth (d : gmap (string * string) float64) (m : metricSet) : metricSet :=
  {| completed := completed m; failed := failed m; duration := duration m;
     executing := executing m; poolConcurrency := poolConcurrency m; depth := d;
     oldestAge := oldestAge m |}.

Definition withOldestAge (a : gmap string float64) (m : metricSet) : metricSet :=
  {| completed := completed m; failed := failed m; duration := duration m;
     executing := executing m; poolConcurrency := poolConcurrency m; depth := depth m;
     oldestAge := a |}.

(** [counter.Inc()] of one series. *)
Definition incSeries (queue : string) (c : gmap string Z) : gmap string Z :=
  <[queue := default 0 (c !! queue) + 1]> c.

Definition observeSeries (queue : string) (d : float64) (h : gmap string (list float64))
    : gmap string (list float64) :=
  <[queue := default [] (h !! queue) ++ [d]]> h.

Section Labels.
Variable validLabel : string -> bool.

Definition skipSeries (w : World) : World :=
  logTo w LevelWarn "drover: queue name cannot be used as a metric label; skipping its series" None.

Definition observeExecution (queue : string) (d : Duration) (failed_ : bool)
    (m : metricSet) (w : World) : metricSet * World :=
  if validLabel queue then
    ({| completed := if failed_ then completed m else incSeries queue (completed m);
        failed := if failed_ then incSeries queue (failed m) else failed m;
        duration := observeSeries queue (Seconds d) (duration m);
        executing := executing m; poolConcurrency := poolConcurrency m;
        depth := depth m; oldestAge := oldestAge m |}, w)
  else (m, skipSeries w).

Definition setDepth (queue state : string) (n : float64) (m : metricSet) (w : World) : metricSet * World :=
  if validLabel queue && validLabel state
  then (withDepth (<[(queue, state) := n]> (depth m)) m, w)
  else (m, skipSeries w).

Definition setOldestAge (queue : string) (seconds : float64) (m : metricSet) (w : World)
    : metricSet * World :=
  if validLabel queue
  then (withOldestAge (<[queue := seconds]> (oldestAge m)) m, w)
  else (m, skipSeries w).
End Labels.

Definition deleteDepth (queue state : string) (m : metricSet) : metricSet :=
  withDepth (delete (queue, state) (depth m)) m.

Definition deleteOldestAge (queue : string) (m : metricSet) : metricSet :=
  withOldestAge (delete queue (oldestAge m)) m.
