(* ===== verification/Middleware.v ===== *)
(** * Middleware: handlers, the chain around them, and the registry

    Models middleware.go, worker.go, [metricsMiddleware] of metrics.go, and
    [execute] and [dispatch] of loop.go.  A handler is a function of its context, the
    job and what it can observe (clock, log, metrics); it returns nil, an error,
    or panics.  User handlers and middleware are arbitrary such functions. *)

From S2P Require Import Prelude GoTime GoError GoRuntime DriverSpec Metrics.

(** What a running handler observes and changes.  [locals] is what user handlers and middleware
    keep in counters of their own; nothing of the client touches it. *)
Record Env := MkEnv { world : World; metrics : metricSet; locals : gmap string Z }.

Definition logEnv (e : Env) (l : Level) (msg : string) (job : option Z) : Env :=
  MkEnv (logTo (world e) l msg job) (metrics e) (locals e).

Definition Handler : Type := Ctx -> JobRow -> Env -> Env * outcome (option error).

Definition Middleware : Type := Handler -> Handler.

(** [for _, mw := range slices.Backward(mws) { h = mw(h) }] *)
Definition wrap (h : Handler) (mws : list Middleware) : Handler :=
  foldl (fun h mw => mw h) h (rev mws).

Definition Timeout (d : Duration) : Middleware := fun next =>
  if d <=? 0 then next
  else fun ctx job e => next (WithTimeout (clock (world e)) ctx d) job e.

(** The record that ends an execution. *)
Definition finishLevel (err : option error) : Level :=
  match err with Some _ => LevelWarn | None => LevelInfo end.

Definition finishMsg (err : option error) : string :=
  match err with
  | Some _ => "drover: job execution failed"
  | None => "drover: job execution finished"
  end.

Definition Logging : Middleware := fun next ctx job e =>
  let e1 := logEnv e LevelInfo "drover: job started" (Some (ID job)) in
  match next ctx job e1 with
  | (e2, Returns err) => (logEnv e2 (finishLevel err) (finishMsg err) (Some (ID job)), Returns err)
  | (e2, Panics v) => (e2, Panics v)
  end.

Definition setMetrics (m : metricSet) (e : Env) : Env := MkEnv (world e) m (locals e).

(** The gauge is decremented by a defer, on a return and on a panic. *)
Definition metricsMiddleware (validLabel : string -> bool) : Middleware := fun next ctx job e =>
  let e1 := setMetrics (withExecuting (executing (metrics e) + 1) (metrics e)) e in
  let start := clock (world e1) in
  let decrement (e : Env) := setMetrics (withExecuting (executing (metrics e) - 1) (metrics e)) e in
  match next ctx job e1 with
  | (e2, Returns err) =>
      let '(m, w) := observeExecution validLabel (Queue job) (Sub (clock (world e2)) start)
                       (match err with Some _ => true | None => false end)
                       (metrics e2) (world e2) in
      (decrement (MkEnv w m (locals e2)), Returns err)
  | (e2, Panics v) => (decrement e2, Panics v)
  end.

(** ** The registry *)

Abbreviation Workers := (gmap string Handler).

Definition NewWorkers : Workers := ∅.

Definition handler (w : Workers) (kind : string) : option Handler := w !! kind.

(** [Job[T]], with the decoded args. *)
Record Job (T : Type) := MkJob { jobID : Z; jobAttempt : Z; jobCreatedAt : Time; jobArgs : T }.
Arguments MkJob {T} _ _ _ _.

(** The handler [Register] builds: [unmarshal] is [json.Unmarshal] into the
    worker's type, [work] its [Work] method. *)
Definition workerHandler {T} (unmarshal : string -> res error T)
    (work : Ctx -> Job T -> Env -> Env * outcome (option error)) : Handler := fun ctx job e =>
  match unmarshal (Args job) with
  | Err err =>
      (e, Returns (Some (Wrapf ("decode args for job " +:+ itoa (ID job) +:+ " (kind "
                                +:+ quote (Kind job) +:+ "): " +:+ errorText err) [err])))
  | Ok args => work ctx (MkJob (ID job) (Attempt job) (CreatedAt job) args) e
  end.

Definition Register {T} (kind : string) (unmarshal : string -> res error T)
    (work : Ctx -> Job T -> Env -> Env * outcome (option error)) (ws : Workers) : outcome Workers :=
  match ws !! kind with
  | Some _ => Panics ("drover: worker already registered for kind " +:+ quote kind)
  | None => Returns (<[kind := workerHandler unmarshal work]> ws)
  end.

(** ** Running a job *)

(** A deferred [recover] that turns a panic into the named error; [stack] is
    what [debug.Stack] prints in that frame. *)
Definition recovered (stack : string) (r : Env * outcome (option error)) : Env * option error :=
  match r with
  | (e, Returns err) => (e, err)
  | (e, Panics v) => (e, Some (newPanicError v stack))
  end.

Definition dispatch (stack : string) (ws : Workers) : Handler := fun ctx job e =>
  let '(e', err) := recovered stack
    (match handler ws (Kind job) with
     | None => (e, Returns (Some (Msg ("no worker registered for kind " +:+ quote (Kind job)))))
     | Some fn => fn ctx job e
     end) in
  (e', Returns err).

Definition execute (stack : string) (chain : Handler) (ctx : Ctx) (job : JobRow) (e : Env)
    : Env * option error :=
  recovered stack (chain ctx job e).

(** The chain [newClient] composes around [dispatch]. *)
Definition clientChain (stack : string) (validLabel : string -> bool) (ws : Workers)
    (mws : list Middleware) : Handler :=
  wrap (dispatch stack ws) ([Logging; metricsMiddleware validLabel] ++ mws).

(** ** Lemmas *)

(** The first middleware is outermost. *)
Lemma wrap_cons h mw mws : wrap h (mw :: mws) = mw (wrap h mws).
Proof. unfold wrap. simpl. by rewrite foldl_app. Qed.

Lemma classify_wrapped t err : classifyOutcome (Wrapf t [err]) = classifyOutcome err.
Proof.
  unfold classifyOutcome. simpl. rewrite !orb_false_r.
  by destruct (errorsIs err ErrCancelled), (asSnooze err).
Qed.

Lemma classify_panic v stack : classifyOutcome (newPanicError v stack) = (outcomeFailed, 0).
Proof. done. Qed.

(** ** Properties *)

(** C33: the chain a client runs.  Logging and metrics stand outermost, whatever the
    configuration adds.  The rest of the chain runs once, after a record that the job started
    and with one more job on the in-flight gauge.  When it returns, its verdict is the
    verdict of the attempt and the last record tells it: finished (INFO) on nil, failed
    (WARN) on an error; where the queue is an acceptable label exactly the matching counter
    goes up by one and one duration is recorded, and where it is not a warning says so and
    nothing is counted.  When it panics (a middleware, since [dispatch] recovers a
    handler's), the attempt is an ordinary failure carrying the panic and its
    trace, but it is counted nowhere and no record ends it.  Either way the gauge is back where the
    inner chain left it, less the one this execution added. *)
Theorem chain_observes_verdict stack validLabel ws mws ctx job e :
  let chain := clientChain stack validLabel ws mws in
  let q := Queue job in
  let record lvl msg := {| logLevel := lvl; logMsg := msg; logJob := Some (ID job) |} in
  let ended err := match err with
    | None => record LevelInfo "drover: job execution finished"
    | Some _ => record LevelWarn "drover: job execution failed"
    end in
  let m := metrics e in
  let e1 := MkEnv (MkWorld (clock (world e)) (logs (world e) ++ [record LevelInfo "drover: job started"]))
                  {| completed := completed m; failed := failed m; duration := duration m;
                     executing := executing m + 1; poolConcurrency := poolConcurrency m;
                     depth := depth m; oldestAge := oldestAge m |} (locals e) in
  match wrap (dispatch stack ws) mws ctx job e1 with
  | (e2, Returns err) =>
      let m2 := metrics e2 in
      exists e', execute stack chain ctx job e = (e', err) /\
        executing (metrics e') = executing m2 - 1 /\ locals e' = locals e2 /\
        (validLabel q = true ->
           logs (world e') = logs (world e2) ++ [ended err] /\
           duration (metrics e') = <[q := default [] (duration m2 !! q)
             ++ [Seconds (Sub (clock (world e2)) (clock (world e)))]]> (duration m2) /\
           match err with
           | None => completed (metrics e') = <[q := default 0 (completed m2 !! q) + 1]> (completed m2) /\
                     failed (metrics e') = failed m2
           | Some _ => failed (metrics e') = <[q := default 0 (failed m2 !! q) + 1]> (failed m2) /\
                       completed (metrics e') = completed m2
           end) /\
        (validLabel q = false ->
           (exists warning, logs (world e') = logs (world e2) ++ [warning; ended err] /\
                            logLevel warning = LevelWarn) /\
           completed (metrics e') = completed m2 /\ failed (metrics e') = failed m2 /\
           duration (metrics e') = duration m2)
  | (e2, Panics v) =>
      exists e' perr, execute stack chain ctx job e = (e', Some perr) /\
        errorText perr = "job panicked: " +:+ v /\ stackOf perr = stack /\
        errorsIs perr ErrCancelled = false /\ asSnooze perr = None /\
        executing (metrics e') = executing (metrics e2) - 1 /\
        completed (metrics e') = completed (metrics e2) /\ failed (metrics e') = failed (metrics e2) /\
        duration (metrics e') = duration (metrics e2) /\ world e' = world e2 /\ locals e' = locals e2
  end.
Proof.
  intros chain q record ended m e1. unfold execute, chain, clientChain. simpl app. rewrite !wrap_cons.
  unfold Logging, metricsMiddleware, logEnv, setMetrics. simpl.
  match goal with |- context [recovered _ (match match wrap _ _ _ _ ?e0 with _ => _ end with _ => _ end)] =>
    change e0 with e1 end.
  destruct (wrap (dispatch stack ws) mws ctx job e1) as [e2 [err|v]]; simpl.
  - unfold observeExecution. destruct (validLabel (Queue job)) eqn:Ev; fold q in Ev; simpl;
      (eexists; split; [reflexivity|]); simpl; rewrite Ev; split_all; try done; intros _.
    + split_all; [by destruct err | done | by destruct err].
    + split_all; [|done..]. eexists. rewrite <- app_assoc. split; [by destruct err | done].
  - eexists _, _. split; [reflexivity|]. by split_all.
Qed.

(** [dispatch] never panics.  A kind nobody registered, args that do not
    decode and a panicking worker all come back as errors: the first and the last as ordinary
    failures, to be retried; a worker that returns is passed through.  [Register] adds
    the handler of its kind, keeps every other, and panics on a second registration. *)
Theorem dispatch_spec {T} stack ws kind (unmarshal : string -> res error T) work ctx job e :
  (exists e' err, dispatch stack ws ctx job e = (e', Returns err)) /\
  (ws !! Kind job = None ->
     exists err, dispatch stack ws ctx job e = (e, Returns (Some err)) /\
                 classifyOutcome err = (outcomeFailed, 0)) /\
  (forall v, ws !! kind = Some v -> exists msg, Register kind unmarshal work ws = Panics msg) /\
  (ws !! kind = None -> exists ws',
     Register kind unmarshal work ws = Returns ws' /\
     (forall k, k <> kind -> ws' !! k = ws !! k) /\
     (Kind job = kind ->
        match unmarshal (Args job) with
        | Err err => exists err', dispatch stack ws' ctx job e = (e, Returns (Some err')) /\
                                  classifyOutcome err' = classifyOutcome err
        | Ok args =>
            match work ctx (MkJob (ID job) (Attempt job) (CreatedAt job) args) e with
            | (e', Returns r) => dispatch stack ws' ctx job e = (e', Returns r)
            | (e', Panics v) =>
                dispatch stack ws' ctx job e = (e', Returns (Some (newPanicError v stack))) /\
                classifyOutcome (newPanicError v stack) = (outcomeFailed, 0)
            end
        end)).
Proof.
  split_all.
  - unfold dispatch. destruct (recovered _ _) as [e' err]. eauto.
  - intros Hn. unfold dispatch, handler. rewrite Hn. simpl. eauto.
  - intros v Hv. unfold Register. rewrite Hv. eauto.
  - intros Hn. unfold Register. rewrite Hn. eexists. split_all; [reflexivity| |].
    + intros k Hk. by rewrite lookup_insert_ne by congruence.
    + intros <-. unfold dispatch, handler. rewrite lookup_insert_eq. unfold workerHandler.
      destruct (unmarshal (Args job)) as [args|err]; simpl.
      * destruct (work _ _ _) as [e' [r|v]]; simpl; [done|]. by split.
      * eexists. split; [reflexivity|]. apply classify_wrapped.
Qed.
