(* ===== verification/Cron.v ===== *)
(** * Cron: schedules

    Models internal/cron/cron.go: the five-field grammar and [@every], the bit
    sets of a field, and the next fire of either schedule.  Parsing returns a
    schedule, an error, or panics; the result types keep the three apart. *)

From S2P Require Import Prelude GoTime GoError GoRuntime GoText.

(** ** Fields *)

(** [bits] is a [uint64]. *)
Record field := MkField { bits : Z }.

Definition has (f : field) (v : Z) : bool :=
  if (v <? 0) || (63 <? v) then false else Z.testbit (bits f) v.

Definition atoiErr (text : string) (s : string) : res error Z :=
  match Atoi s with
  | Some n => Ok n
  | None => Err (Msg text)
  end.

Definition parseRange (tok : string) (minVal maxVal : Z) : res error (Z * Z) :=
  if String.eqb tok "*" then Ok (minVal, maxVal)
  else
    let '(low, high, ranged) := Cut "-"%char tok in
    let? start := atoiErr ("invalid value " +:+ quote tok) low in
    let? end_ := if ranged : bool then atoiErr ("invalid range " +:+ quote tok) high else Ok start in
    if (start <? minVal) || (maxVal <? end_) || (end_ <? start)
    then Err (Msg ("value " +:+ quote tok +:+ " out of range " +:+ itoa minVal +:+ "-" +:+ itoa maxVal))
    else Ok (start, end_).

(** [for v := start; v <= end; v += step]: [v] is a 64-bit [int] and wraps; a
    shift by a negative count panics.  The bound on the turns is never reached:
    [v] grows by one at least, or wraps and panics. *)
Fixpoint addLoop (turns : nat) (v end_ step : Z) (wrap7 : bool) (b : Z) : outcome Z :=
  if v <=? end_ then
    match turns with
    | O => Panics "out of turns"
    | S turns' =>
        let bit := if wrap7 && (v =? 7) then 0 else v in
        if bit <? 0 then Panics "runtime error: negative shift amount"
        else addLoop turns' (wrap64 (v + step)) end_ step wrap7
               (Z.lor b (Z.shiftl 1 bit mod 2 ^ 64))
    end
  else Returns b.

Definition parseStep (stepTok : string) (stepped : bool) : res error Z :=
  if stepped then
    match Atoi stepTok with
    | Some n => if n <=? 0 then Err (Msg ("invalid step " +:+ quote stepTok)) else Ok n
    | None => Err (Msg ("invalid step " +:+ quote stepTok))
    end
  else Ok 1.

Definition addPart (f : field) (part : string) (minVal maxVal : Z) (wrap7 : bool)
    : outcome (res error field) :=
  let '(rangeTok, stepTok, stepped) := Cut "/"%char part in
  match parseStep stepTok stepped with
  | Err e => Returns (Err e)
  | Ok step =>
      match parseRange rangeTok minVal maxVal with
      | Err e => Returns (Err e)
      | Ok (start, end_) =>
          match addLoop 64 start end_ step wrap7 (bits f) with
          | Panics p => Panics p
          | Returns b => Returns (Ok (MkField b))
          end
      end
  end.

Fixpoint addParts (f : field) (parts : list string) (minVal maxVal : Z) (wrap7 : bool)
    : outcome (res error field) :=
  match parts with
  | [] => Returns (Ok f)
  | part :: rest =>
      if String.eqb part "" then Returns (Err (Msg "empty list item"))
      else match addPart f part minVal maxVal wrap7 with
           | Panics p => Panics p
           | Returns (Err e) => Returns (Err e)
           | Returns (Ok f') => addParts f' rest minVal maxVal wrap7
           end
  end.

Definition parseField (tok : string) (minVal maxVal : Z) (wrap7 : bool)
    : outcome (res error field) :=
  if String.eqb tok "" then Returns (Err (Msg "empty field"))
  else match addParts (MkField 0) (Split ","%char tok) minVal maxVal wrap7 with
       | Panics p => Panics p
       | Returns (Err e) => Returns (Err e)
       | Returns (Ok f) =>
           if bits f =? 0 then Returns (Err (Msg "no valid values")) else Returns (Ok f)
       end.

(** ** Schedules *)

Record cronSchedule := {
  csMinute : field; csHour : field; csDom : field; csMonth : field; csDow : field;
  csDomStar : bool; csDowStar : bool; csLoc : Location
}.

Inductive Schedule :=
| CronSchedule (s : cronSchedule)
| EverySchedule (d : Duration).

Definition invalidSpec (detail : string) (operands : list error) : error :=
  Wrapf (sentinelText ErrInvalidSpec +:+ ": " +:+ detail) (Sent ErrInvalidSpec :: operands).

Definition parseEvery (rest : list string) : res error Schedule :=
  match rest with
  | [] => Err (invalidSpec "empty @every duration" [])
  | _ =>
      match ParseDuration (Join " " rest) with
      | None => Err (invalidSpec "@every duration" [Msg "time: invalid duration"])
      | Some d =>
          if d <=? 0 then Err (invalidSpec "@every duration must be positive" [])
          else Ok (EverySchedule d)
      end
  end.

(** One field of five, under its name. *)
Definition namedField (name tok : string) (minVal maxVal : Z) (wrap7 : bool)
    (k : field -> outcome (res error Schedule)) : outcome (res error Schedule) :=
  match parseField tok minVal maxVal wrap7 with
  | Panics p => Panics p
  | Returns (Err e) => Returns (Err (invalidSpec (name +:+ ": " +:+ errorText e) [e]))
  | Returns (Ok f) => k f
  end.

Definition ParseIn (spec : string) (loc_ : option Location) : outcome (res error Schedule) :=
  let l := default UTC loc_ in
  match Fields spec with
  | "@every" :: rest => Returns (parseEvery rest)
  | [t0; t1; t2; t3; t4] =>
      namedField "minute" t0 0 59 false (fun minute_ =>
      namedField "hour" t1 0 23 false (fun hour_ =>
      namedField "day of month" t2 1 31 false (fun dom_ =>
      namedField "month" t3 1 12 false (fun month_ =>
      namedField "day of week" t4 0 7 true (fun dow_ =>
        Returns (Ok (CronSchedule
          {| csMinute := minute_; csHour := hour_; csDom := dom_; csMonth := month_; csDow := dow_;
             csDomStar := String.eqb t2 "*"; csDowStar := String.eqb t4 "*"; csLoc := l |})))))))
  | fields => Returns (Err (invalidSpec ("want 5 fields, got "
                              +:+ itoa (Z.of_nat (length fields))) []))
  end.

Definition Parse (spec : string) : outcome (res error Schedule) := ParseIn spec (Some UTC).

(** ** The next fire *)

Definition maxScanMinutes : positive := 5 * 366 * 24 * 60.

Definition matches (s : cronSchedule) (t : Time) : bool :=
  if negb (has (csMinute s) (minuteIn (csLoc s) t)) || negb (has (csHour s) (hourIn (csLoc s) t))
     || negb (has (csMonth s) (monthIn (csLoc s) t))
  then false
  else
    let domOk := has (csDom s) (dayIn (csLoc s) t) in
    let dowOk := has (csDow s) (weekdayIn (csLoc s) t) in
    if negb (csDomStar s) && negb (csDowStar s) then domOk || dowOk else domOk && dowOk.

(** [n] turns of the scan from [t]: the first match, or the instant reached. *)
Fixpoint scan (s : cronSchedule) (n : positive) (t : Time) : Time + Time :=
  match n with
  | xH => if matches s t then inl t else inr (t + Minute)
  | xO n' =>
      match scan s n' t with
      | inl r => inl r
      | inr t' => scan s n' t'
      end
  | xI n' =>
      if matches s t then inl t
      else match scan s n' (t + Minute) with
           | inl r => inl r
           | inr t' => scan s n' t'
           end
  end.

(** The start of the minute [t] reads on the wall, put through [time.Date]. *)
Definition wallMinute (l : Location) (t : Time) : Time :=
  let '(y, m, d) := dateIn l t in timeDate y m d (hourIn l t) (minuteIn l t) 0 0 l.

Definition cronNext (s : cronSchedule) (t : Time) : Time :=
  match scan s maxScanMinutes (wallMinute (csLoc s) t + Minute) with
  | inl r => r
  | inr _ => zeroTime
  end.

(** The loop after the truncation runs at most once more; [everyNext_after]
    shows that it does not run at all. *)
Fixpoint everyLoop (turns : nat) (next t : Time) (d : Duration) : Time :=
  match turns with
  | O => next
  | S k => if negb (After next t) then everyLoop k (next + d) t d else next
  end.

Definition everyNext (d : Duration) (t : Time) : Time := everyLoop 2 (truncate t d + d) t d.

Definition Next (s : Schedule) (t : Time) : Time :=
  match s with
  | CronSchedule c => cronNext c t
  | EverySchedule d => everyNext d t
  end.

(** ** What a field denotes *)

(** The values of one part: every [step]-th from [start] to [end_], with 7 read
    as Sunday in the day of the week. *)
Definition partDenotes (start end_ step : Z) (wrap7 : bool) (i : Z) : Prop :=
  exists v, start <= v <= end_ /\ (v - start) mod step = 0 /\
            i = if wrap7 && (v =? 7) then 0 else v.

(** How a part reads: its range and step. *)
Definition partReads (part : string) (minVal maxVal start end_ step : Z) : Prop :=
  let '(rangeTok, stepTok, stepped) := Cut "/"%char part in
  parseStep stepTok stepped = Ok step /\ parseRange rangeTok minVal maxVal = Ok (start, end_).

Lemma parseStep_range tok stepped step :
  parseStep tok stepped = Ok step -> 1 <= step < 2 ^ 63.
Proof.
  unfold parseStep. destruct stepped; [|intros [= <-]; lia].
  destruct (Atoi tok) as [n|] eqn:E; [|done]. destruct (Z.leb_spec n 0); [done|]. intros [= <-].
  unfold Atoi in E. repeat casematch_in E; try done; injection E as <-; unbool; lia.
Qed.

Lemma parseRange_range tok lo hi start end_ :
  lo <= hi -> parseRange tok lo hi = Ok (start, end_) -> lo <= start <= end_ /\ end_ <= hi.
Proof.
  intros Hlh. unfold parseRange. destruct (String.eqb tok "*"); [intros [= <- <-]; lia|].
  destruct (Cut _ _) as [[low high] ranged].
  destruct (atoiErr _ low) as [a|]; simpl; [|done].
  destruct (if ranged then _ else _) as [b|]; simpl; [|done].
  destruct ((a <? lo) || (hi <? b) || (b <? a)) eqn:E; [done|]. intros [= <- <-]. unbool. lia.
Qed.

Lemma setBit_testbit b k i :
  0 <= k < 64 -> 0 <= i ->
  Z.testbit (Z.lor b (Z.shiftl 1 k mod 2 ^ 64)) i = Z.testbit b i || (i =? k).
Proof.
  intros Hk Hi. rewrite Z.lor_spec. f_equal. rewrite Z.shiftl_1_l.
  rewrite Z.mod_small by (split; [apply Z.pow_nonneg; lia | apply Z.pow_lt_mono_r; lia]).
  rewrite Z.pow2_bits_eqb by lia. by rewrite Z.eqb_sym.
Qed.

(** Stepping off the first value. *)
Lemma partDenotes_step v end_ step w i :
  v <= end_ -> 1 <= step ->
  partDenotes v end_ step w i <->
  i = (if w && (v =? 7) then 0 else v) \/ partDenotes (v + step) end_ step w i.
Proof.
  intros Hv Hs. unfold partDenotes. split.
  - intros (x & Hx & Hm & ->). destruct (decide (x = v)) as [->|Hne]; [by left|]. right.
    exists x. apply Z.mod_divide in Hm as [q Hq]; [|lia].
    assert (0 < q * step) by lia. assert (1 <= q) by nia. assert (step <= q * step) by nia.
    split; [lia|]. split; [|done].
    apply Z.mod_divide; [lia|]. exists (q - 1). lia.
  - intros [->|(x & Hx & Hm & ->)].
    + exists v. rewrite Z.sub_diag, Z.mod_0_l by lia. split_all; [lia|lia|done|done].
    + exists x. apply Z.mod_divide in Hm as [q Hq]; [|lia]. split_all; [lia|lia| |done].
      apply Z.mod_divide; [lia|]. exists (q + 1). lia.
Qed.

(** If the loop returns, it set exactly the bits its part denotes. *)
Lemma addLoop_denotes turns v end_ step w b b' :
  0 <= v -> end_ < 64 -> 1 <= step < 2 ^ 63 ->
  addLoop turns v end_ step w b = Returns b' ->
  forall i, 0 <= i -> Z.testbit b' i = true <-> Z.testbit b i = true \/ partDenotes v end_ step w i.
Proof.
  revert v b. induction turns as [|turns IH]; intros v b Hv He Hs; simpl;
    destruct (Z.leb_spec v end_) as [Hle|Hgt]; try done.
  - intros [= <-] i Hi. split; [by left|]. intros [?|(x & Hx & _)]; [done|lia].
  - set (bit := if w && (v =? 7) then 0 else v).
    assert (0 <= bit < 64) as Hb by (unfold bit; destruct (w && (v =? 7)); lia).
    destruct (Z.ltb_spec bit 0); [lia|].
    destruct (decide (v + step < 2 ^ 63)) as [Hno|Hov].
    + rewrite (wrap64_small (v + step)) by lia. intros H1 i Hi.
      rewrite (IH (v + step) _ ltac:(lia) He Hs H1 i Hi), (partDenotes_step v) by lia.
      rewrite setBit_testbit, orb_true_iff, Z.eqb_eq by lia. fold bit. tauto.
    + assert (wrap64 (v + step) < 0) as Hneg.
      { unfold wrap64. rewrite <- (Z.mod_unique (v + step + 2 ^ 63) (2 ^ 64) 1 (v + step - 2 ^ 63)); lia. }
      destruct turns; simpl; destruct (Z.leb_spec (wrap64 (v + step)) end_); try done; try lia.
      destruct (w && (wrap64 (v + step) =? 7)) eqn:E; [unbool; lia|].
      destruct (Z.ltb_spec (wrap64 (v + step)) 0); [done|lia].
  - intros [= <-] i Hi. split; [by left|]. intros [?|(x & Hx & _)]; [done|lia].
Qed.

(** Enough turns: a step that cannot overflow never panics. *)
Lemma addLoop_total turns v end_ step w b :
  0 <= v -> end_ < 64 -> 1 <= step -> step < 2 ^ 63 - 64 -> end_ - v < Z.of_nat turns ->
  exists b', addLoop turns v end_ step w b = Returns b'.
Proof.
  revert v b. induction turns as [|turns IH]; intros v b Hv He H1 H2 Hm; simpl;
    destruct (Z.leb_spec v end_); eauto; [lia|].
  set (bit := if w && (v =? 7) then 0 else v).
  assert (0 <= bit) by (unfold bit; destruct (w && (v =? 7)); lia).
  destruct (Z.ltb_spec bit 0); [lia|]. rewrite wrap64_small by lia. apply IH; lia.
Qed.

Lemma addPart_denotes f part lo hi w f' :
  0 <= lo <= hi -> hi < 64 -> addPart f part lo hi w = Returns (Ok f') ->
  exists start end_ step, partReads part lo hi start end_ step /\
    forall i, 0 <= i -> Z.testbit (bits f') i = true <->
                        Z.testbit (bits f) i = true \/ partDenotes start end_ step w i.
Proof.
  intros Hlo Hhi. unfold addPart, partReads. destruct (Cut _ part) as [[r st] sd].
  destruct (parseStep st sd) as [step|] eqn:Es; [|done].
  destruct (parseRange r lo hi) as [[start end_]|] eqn:Er; [|done].
  destruct (addLoop 64 start end_ step w (bits f)) as [b|] eqn:El; [|done]. intros [= <-].
  apply parseStep_range in Es as Hs. apply parseRange_range in Er as Hr; [|lia].
  exists start, end_, step. split; [done|]. eapply addLoop_denotes; eauto; lia.
Qed.

Definition partsDenote (parts : list string) (lo hi : Z) (w : bool) (i : Z) : Prop :=
  exists part start end_ step, part ∈ parts /\ partReads part lo hi start end_ step /\
                               partDenotes start end_ step w i.

Lemma addParts_denote f parts lo hi w f' :
  0 <= lo <= hi -> hi < 64 -> addParts f parts lo hi w = Returns (Ok f') ->
  forall i, 0 <= i -> Z.testbit (bits f') i = true <->
                      Z.testbit (bits f) i = true \/ partsDenote parts lo hi w i.
Proof.
  intros Hlo Hhi. revert f. induction parts as [|part parts IH]; intros f; simpl.
  - intros [= <-] i _. split; [by left|]. intros [?|(? & ? & ? & ? & Hin & _)]; [done|].
    by apply not_elem_of_nil in Hin.
  - destruct (String.eqb part ""); [done|].
    destruct (addPart f part lo hi w) as [[f1|]|] eqn:E; try done. intros H i Hi.
    rewrite (IH f1 H i Hi).
    destruct (addPart_denotes _ _ _ _ _ _ Hlo Hhi E) as (start & end_ & step & Hp & Hd).
    rewrite (Hd i Hi). unfold partsDenote. split.
    + intros [[?|?]|(p & s & e & st & Hin & ?)]; [by left| |].
      * right. exists part, start, end_, step. split; [left|done].
      * right. exists p, s, e, st. split; [by right|done].
    + intros [?|(p & s & e & st & Hin & Hr & Hden)]; [by left; left|].
      apply elem_of_cons in Hin as [->|Hin]; [|right; by exists p, s, e, st].
      left. right. unfold partReads in *. destruct (Cut _ part) as [[r0 s0] d0].
      destruct Hp as [H1 H2], Hr as [H3 H4]. congruence.
Qed.

(** A part whose step stays clear of the top of [int64]. *)
Definition smallStep (part : string) : Prop :=
  let '(_, stepTok, stepped) := Cut "/"%char part in
  forall step, parseStep stepTok stepped = Ok step -> step < 2 ^ 63 - 64.

Lemma addParts_total f parts lo hi w :
  0 <= lo <= hi -> hi < 64 -> Forall smallStep parts ->
  exists r, addParts f parts lo hi w = Returns r.
Proof.
  intros Hlo Hhi Hp. revert f. induction Hp as [|part parts Hs Hp IH]; intros f; simpl; [eauto|].
  destruct (String.eqb part ""); [eauto|]. unfold addPart, smallStep in *.
  destruct (Cut _ part) as [[r st] sd]. destruct (parseStep st sd) as [step|] eqn:Es; [|eauto].
  destruct (parseRange r lo hi) as [[start end_]|] eqn:Er; [|eauto].
  apply parseStep_range in Es as Hs'. apply parseRange_range in Er as Hr; [|lia].
  specialize (Hs step eq_refl).
  destruct (addLoop_total 64 start end_ step w (bits f)) as [b ->]; try lia. eauto.
Qed.

(** ** The scan *)

(** What [n] turns from [t] promise. *)
Definition scanned (s : cronSchedule) (n t : Z) (out : Time + Time) : Prop :=
  match out with
  | inl r => exists k, 0 <= k < n /\ r = t + k * Minute /\ matches s r = true /\
               forall j, 0 <= j < k -> matches s (t + j * Minute) = false
  | inr t' => t' = t + n * Minute /\
               forall j, 0 <= j < n -> matches s (t + j * Minute) = false
  end.

(** A stretch without a match, followed by [n] turns. *)
Lemma scanned_join s m n t t1 out :
  0 <= m -> t1 = t + m * Minute ->
  (forall j, 0 <= j < m -> matches s (t + j * Minute) = false) ->
  scanned s n t1 out -> scanned s (m + n) t out.
Proof.
  intros Hm -> Hn. destruct out as [r|t']; simpl.
  - intros (k & Hk & -> & Hr & Hlt). exists (m + k). split_all; [lia|lia|lia|done|].
    intros j Hj. destruct (decide (j < m)); [apply Hn; lia|].
    replace (t + j * Minute) with (t + m * Minute + (j - m) * Minute) by lia. apply Hlt. lia.
  - intros [-> Hlt]. split; [lia|]. intros j Hj. destruct (decide (j < m)); [apply Hn; lia|].
    replace (t + j * Minute) with (t + m * Minute + (j - m) * Minute) by lia. apply Hlt. lia.
Qed.

Lemma scanned_here s n t : 0 < n -> matches s t = true -> scanned s n t (inl t).
Proof.
  intros Hn Hm. exists 0. rewrite Z.mul_0_l, Z.add_0_r. split_all; [lia|lia|done|done|lia].
Qed.

Lemma scanned_first s t : matches s t = false -> forall j, 0 <= j < 1 -> matches s (t + j * Minute) = false.
Proof. intros Hm j Hj. assert (j = 0) as -> by lia. by rewrite Z.mul_0_l, Z.add_0_r. Qed.

Lemma scanned_weaken s m n t r : m <= n -> scanned s m t (inl r) -> scanned s n t (inl r).
Proof. intros Hmn (k & Hk & H). exists k. split; [lia|done]. Qed.

Lemma scan_spec s n t : scanned s (Zpos n) t (scan s n t).
Proof.
  revert t. induction n as [n IH|n IH|]; intros t; simpl.
  - destruct (matches s t) eqn:Em; [by apply scanned_here|].
    replace (Z.pos n~1) with (1 + (Z.pos n + Z.pos n)) by lia.
    apply (scanned_join s 1 _ t (t + Minute)); [lia|lia|by apply scanned_first|].
    pose proof (IH (t + Minute)) as H1. destruct (scan s n (t + Minute)) as [r|t1].
    + eapply scanned_weaken; [|done]. lia.
    + destruct H1 as [-> Hn]. eapply scanned_join; [| |exact Hn|apply IH]; lia.
  - replace (Z.pos n~0) with (Z.pos n + Z.pos n) by lia.
    pose proof (IH t) as H1. destruct (scan s n t) as [r|t1].
    + eapply scanned_weaken; [|done]. lia.
    + destruct H1 as [-> Hn]. eapply scanned_join; [| |exact Hn|apply IH]; lia.
  - destruct (matches s t) eqn:Em; [by apply scanned_here|].
    split; [lia|]. by apply scanned_first.
Qed.


(** ** Wall minutes *)

(** The instant at which the wall minute of [t] began, if the offset did not
    change since. *)
Definition minuteFloor (l : Location) (t : Time) : Time :=
  t - secondIn l t * Second - t mod Second.

(** [time.Date] of the wall minute leads back to it: the reading is neither
    repeated nor shifted by a change of offset. *)
Definition clearWall (l : Location) (t : Time) : Prop := wallMinute l t = minuteFloor l t.

Lemma timeDate_fixed l off y m d h mi s ns :
  (forall u, offset (lookupZone l u) = off) ->
  timeDate y m d h mi s ns l =
  (daysOfCivil y m d * 86400 + h * 3600 + mi * 60 + s - off) * Second + ns.
Proof.
  intros Ho. unfold timeDate. rewrite !Ho.
  generalize (daysOfCivil y m d * 86400 + h * 3600 + mi * 60 + s) as u. intros u.
  f_equal. f_equal. destruct (Z.eqb_spec off 0) as [->|]; [lia|]. destruct (_ || _); lia.
Qed.

Lemma wallMinute_fixed l off t :
  (forall u, offset (lookupZone l u) = off) -> wallMinute l t = (wallSec l t - off) * Second.
Proof.
  intros Ho. unfold wallMinute, wallSec. destruct (dateIn l t) as [[y m] d].
  rewrite (timeDate_fixed l off) by done. by rewrite !Z.add_0_r.
Qed.

Lemma wallSec_fixed l off t :
  (forall u, offset (lookupZone l u) = off) -> wallSec l t - off = t / Second - secondIn l t.
Proof.
  intros Ho. rewrite wallSec_local. unfold localSec, secOf. rewrite Ho.
  generalize (t / Second) (secondIn l t). lia.
Qed.

Lemma minuteFloor_seconds l t : minuteFloor l t = (t / Second - secondIn l t) * Second.
Proof.
  unfold minuteFloor. pose proof (Z.div_mod t Second) as H. revert H. pose proof Second_pos.
  generalize (t / Second) (t mod Second) (secondIn l t). intros. lia.
Qed.

Lemma fixedOffset_clear l off t :
  (forall s, offset (lookupZone l s) = off) -> clearWall l t.
Proof.
  intros Ho. unfold clearWall.
  by rewrite (wallMinute_fixed l off), (wallSec_fixed l off), minuteFloor_seconds.
Qed.

Lemma minuteFloor_bound l t : minuteFloor l t <= t < minuteFloor l t + Minute.
Proof.
  unfold minuteFloor. pose proof (clock_fields l t) as (_ & _ & Hs & _).
  pose proof (Z.mod_pos_bound t Second Second_pos). rewrite Minute_eq. nia.
Qed.

(** ** Properties *)

Lemma some_bit b : b <> 0 -> exists i, 0 <= i /\ Z.testbit b i = true.
Proof.
  intros Hb. destruct (Z.lt_ge_cases 0 b) as [Hp|Hn].
  - exists (Z.log2 b). split; [apply Z.log2_nonneg | by apply Z.bit_log2].
  - exists (Z.max 0 (Z.succ (Z.log2 (Z.pred (- b))))). split; [lia|].
    apply Z.bits_above_log2_neg; lia.
Qed.

(** C29: what a field accepts is what it denotes.  When [parseField] reads a field, the value [v] is in
    it exactly when a part of the list denotes it: every [step]-th value of its range
    (7 counting as Sunday where the field wraps); it never panics when the steps are
    far from the top of [int64]. *)
Theorem parseField_denotes tok lo hi w :
  0 <= lo <= hi -> hi < 64 ->
  (forall f, parseField tok lo hi w = Returns (Ok f) ->
     (exists v, has f v = true) /\
     forall v, has f v = true <-> 0 <= v /\ partsDenote (Split ","%char tok) lo hi w v) /\
  (Forall smallStep (Split ","%char tok) -> exists r, parseField tok lo hi w = Returns r).
Proof.
  intros Hlo Hhi. unfold parseField. split.
  - intros f. destruct (String.eqb tok ""); [done|].
    destruct (addParts (MkField 0) _ lo hi w) as [[f1|]|] eqn:E; try done.
    destruct (Z.eqb_spec (bits f1) 0) as [|Hnz]; [done|]. intros [= <-].
    pose proof (addParts_denote _ _ _ _ _ _ Hlo Hhi E) as Hd. simpl in Hd.
    assert (forall v, 0 <= v -> partsDenote (Split ","%char tok) lo hi w v -> v <= 63) as H63.
    { intros v Hv (p & a & b & st & _ & Hr & x & Hx & _ & ->). unfold partReads in Hr.
      destruct (Cut _ p) as [[r0 s0] d0]. destruct Hr as [_ Hr].
      apply parseRange_range in Hr; [|lia]. destruct (w && (x =? 7)); lia. }
    assert (forall v, has f1 v = true <-> 0 <= v /\ partsDenote (Split ","%char tok) lo hi w v) as Hh.
    { intros v. unfold has. destruct (Z.ltb_spec v 0); simpl; [split; [done|lia]|].
      specialize (Hd v ltac:(lia)). rewrite Z.bits_0 in Hd.
      destruct (Z.ltb_spec 63 v); simpl; [|intuition congruence].
      split; [done|]. intros [_ Hp]. specialize (H63 v ltac:(lia) Hp). lia. }
    split; [|done]. destruct (some_bit (bits f1) Hnz) as (v & Hv & Ht).
    assert (partsDenote (Split ","%char tok) lo hi w v) as Hp
      by (apply Hd in Ht as [Ht|?]; [by rewrite Z.bits_0 in Ht | done | done]).
    exists v. by apply Hh.
  - intros Hs. destruct (String.eqb tok ""); [eauto|].
    destruct (addParts_total (MkField 0) _ lo hi w Hlo Hhi Hs) as [r ->].
    destruct r as [f|e]; [destruct (bits f =? 0)|]; eauto.
Qed.

Lemma parseField_denotes_witness :
  (exists f, parseField "1-5/2,7" 0 7 true = Returns (Ok f) /\ has f 3 = true /\ has f 0 = true /\
             has f 2 = false) /\
  exists r, parseField "1-5/2,7" 0 7 true = Returns r.
Proof.
  split; [eexists; split; [vm_compute; reflexivity | vm_compute; done]|].
  apply (proj2 (parseField_denotes "1-5/2,7" 0 7 true ltac:(lia) ltac:(lia))).
  change (Split ","%char "1-5/2,7") with ["1-5/2"; "7"].
  apply Forall_cons; split; [|apply Forall_cons; split; [|apply Forall_nil_2]];
    intros step H; vm_compute in H; injection H as <-; reflexivity.
Defined.

(** C28: a schedule fires at the earliest matching minute strictly after [t].  Where
    [time.Date] leads back to the wall minute of [t] (always in UTC and in a zone without changes of
    offset), [Next] is the first minute after [t] that matches, or the zero time when
    none of the [maxScanMinutes] scanned does. *)
Theorem cronNext_earliest s t :
  clearWall (csLoc s) t ->
  let r := cronNext s t in
  let minuteAt k := minuteFloor (csLoc s) t + k * Minute in
  (t < r /\ (exists k, r = minuteAt k) /\ matches s r = true /\
     forall k, t < minuteAt k < r -> matches s (minuteAt k) = false) \/
  (r = zeroTime /\ forall k, 1 <= k <= Zpos maxScanMinutes -> matches s (minuteAt k) = false).
Proof.
  intros Hc r minuteAt.
  assert (r = match scan s maxScanMinutes (minuteFloor (csLoc s) t + Minute) with
              | inl x => x | inr _ => zeroTime end) as -> by (unfold r, cronNext; by rewrite Hc).
  pose proof (minuteFloor_bound (csLoc s) t) as Hb.
  pose proof (scan_spec s maxScanMinutes (minuteFloor (csLoc s) t + Minute)) as Hs.
  assert (0 < Minute) as HM by (rewrite Minute_eq; pose proof Second_pos; lia).
  assert (forall k, minuteFloor (csLoc s) t + Minute + (k - 1) * Minute = minuteAt k) as Hk
    by (intros k; unfold minuteAt; lia).
  destruct (scan s maxScanMinutes _) as [x|x]; [left|right]; simpl in Hs.
  - destruct Hs as (k & Hk0 & Hx & Hm & Hn).
    assert (x = minuteAt (k + 1)) as Hx' by (rewrite Hx, <- Hk; f_equal; lia).
    split_all; [unfold minuteAt in Hx'; nia | exists (k + 1); exact Hx' | exact Hm |].
    intros j Hj. rewrite <- Hk. apply Hn. rewrite Hx' in Hj. unfold minuteAt in Hj. nia.
  - destruct Hs as [_ Hn]. split; [done|]. intros k Hk'. rewrite <- Hk. apply Hn. lia.
Qed.

Definition atUTC (y m d h mi s : Z) : Time := timeDate y m d h mi s 0 UTC.

Definition weekdaysAtNine : cronSchedule :=
  {| csMinute := MkField 1; csHour := MkField (2 ^ 9); csDom := MkField (2 ^ 32 - 2);
     csMonth := MkField (2 ^ 13 - 2); csDow := MkField 62;
     csDomStar := true; csDowStar := false; csLoc := UTC |}.

(** On a Friday, half an hour before nine. *)
Lemma cronNext_earliest_witness :
  let t := atUTC 2026 7 31 8 30 0 in
  let r := cronNext weekdaysAtNine t in
  let minuteAt k := minuteFloor UTC t + k * Minute in
  Parse "0 9 * * 1-5" = Returns (Ok (CronSchedule weekdaysAtNine)) /\
  r = atUTC 2026 7 31 9 0 0 /\
  ((t < r /\ (exists k, r = minuteAt k) /\ matches weekdaysAtNine r = true /\
     forall k, t < minuteAt k < r -> matches weekdaysAtNine (minuteAt k) = false) \/
  (r = zeroTime /\
     forall k, 1 <= k <= Zpos maxScanMinutes -> matches weekdaysAtNine (minuteAt k) = false)).
Proof.
  intros t r minuteAt. split; [reflexivity|]. split; [vm_compute; reflexivity|].
  apply (cronNext_earliest weekdaysAtNine t). apply (fixedOffset_clear UTC 0). done.
Defined.

(** [@every d] fires at the first multiple of [d], counted from the zero time,
    strictly after [t]; where [d] divides a day that is also a multiple counted
    from the Unix epoch.  The loop after the truncation never runs. *)
Theorem everyNext_spec d t :
  0 < d ->
  let r := everyNext d t in
  r = truncate t d + d /\ t < r <= t + d /\ r mod d = 0 /\
  (forall x, t < x < r -> x mod d <> 0) /\
  ((24 * Hour) mod d = 0 -> (r - unixToInternal * Second) mod d = 0).
Proof.
  intros Hd r. unfold r, everyNext.
  assert (truncate t d = d * (t / d)) as Ht.
  { unfold truncate. destruct (Z.leb_spec d 0); [lia|]. pose proof (Z.div_mod t d). lia. }
  pose proof (Z.mod_pos_bound t d Hd). pose proof (Z.div_mod t d ltac:(lia)).
  assert (t < truncate t d + d) as Hlt by lia.
  assert (everyLoop 2 (truncate t d + d) t d = truncate t d + d) as ->.
  { cbn [everyLoop]. unfold After. destruct (Z.ltb_spec t (truncate t d + d)); [done|lia]. }
  assert ((truncate t d + d) mod d = 0) as Hm
    by (apply Z.mod_divide; [lia|]; exists (t / d + 1); rewrite Ht; ring).
  split_all; [done|lia|lia|done| |].
  - intros x Hx Hxm. apply Z.mod_divide in Hxm as [q Hq]; [|lia]. rewrite Ht in Hx.
    set (z := t / d) in *. assert (z < q) by nia. assert (q < z + 1) by nia. lia.
  - intros Hday. apply Z.mod_divide in Hday as [q Hq]; [|lia].
    apply Z.mod_divide in Hm as [p Hp]; [|lia]. apply Z.mod_divide; [lia|].
    exists (p - 719162 * q).
    assert (unixToInternal * Second = 719162 * (24 * Hour)) as -> by reflexivity. rewrite Hp, Hq. lia.
Qed.

Lemma everyNext_spec_witness :
  let r := everyNext (15 * Minute) (atUTC 2026 1 1 10 7 0) in
  r = truncate (atUTC 2026 1 1 10 7 0) (15 * Minute) + 15 * Minute /\
  atUTC 2026 1 1 10 7 0 < r <= atUTC 2026 1 1 10 7 0 + 15 * Minute /\ r mod (15 * Minute) = 0 /\
  (forall x, atUTC 2026 1 1 10 7 0 < x < r -> x mod (15 * Minute) <> 0) /\
  ((24 * Hour) mod (15 * Minute) = 0 -> (r - unixToInternal * Second) mod (15 * Minute) = 0).
Proof. apply (everyNext_spec (15 * Minute) (atUTC 2026 1 1 10 7 0)). reflexivity. Defined.

(** *** Where the code and its comments part *)

(** [@every 7h] is not aligned to the Unix epoch: its fires are multiples of
    seven hours from the zero time, a different grid. *)
Theorem every_not_epoch_aligned :
  exists s, ParseIn "@every 7h" None = Returns (Ok s) /\
    forall t, (Next s t - unixToInternal * Second) mod (7 * Hour) <> 0.
Proof.
  eexists. split; [vm_compute; reflexivity|]. intros t. cbn [Next].
  change 25200000000000 with (7 * Hour).
  unfold everyNext, truncate. cbn [everyLoop]. unfold After.
  set (r := t - t mod (7 * Hour) + 7 * Hour).
  assert (7 * Hour <= 0 -> False) as Hh by (intros H; vm_compute in H; congruence).
  destruct (Z.leb_spec (7 * Hour) 0); [by exfalso; apply Hh|]. fold r.
  pose proof (Z.mod_pos_bound t (7 * Hour) ltac:(lia)).
  destruct (Z.ltb_spec t r) as [_|Hle]; [|unfold r in Hle; lia]. simpl.
  intros Hm. apply Z.mod_divide in Hm as [q Hq]; [|lia].
  pose proof (Z.div_mod t (7 * Hour) ltac:(lia)) as Hdm.
  assert (unixToInternal * Second = 7 * Hour * (t / (7 * Hour) + 1 - q)) as Hx by (unfold r in Hq; lia).
  assert ((unixToInternal * Second) mod (7 * Hour) = 0) as Hz
    by (rewrite Hx, Z.mul_comm; apply Z.mod_mul; lia).
  vm_compute in Hz. done.
Qed.

(** New York around the end of daylight saving time in 2026: from four to five
    hours behind at 06:00 UTC on 1 November. *)
Definition newYork2026 : Location :=
  oneTransition (-14400) (-18000) (unixOf (atUTC 2026 11 1 6 0 0)).

(** "30 1 * * *" there. *)
Definition halfPastOne : cronSchedule :=
  {| csMinute := MkField (2 ^ 30); csHour := MkField 2; csDom := MkField (2 ^ 32 - 2);
     csMonth := MkField (2 ^ 13 - 2); csDow := MkField 127;
     csDomStar := true; csDowStar := true; csLoc := newYork2026 |}.

(** Where a wall minute repeats, [Next] can return the instant it was given:
    in New York, asked for the fire after the second 01:30 of the night the clocks go back,
    "30 1 * * *" answers that same instant. *)
Theorem cronNext_stalls_at_repeated_hour :
  let t := atUTC 2026 11 1 6 30 0 in
  ParseIn "30 1 * * *" (Some newYork2026) = Returns (Ok (CronSchedule halfPastOne)) /\
  Next (CronSchedule halfPastOne) t = t.
Proof. split; [reflexivity | vm_compute; reflexivity]. Qed.

(** A step near the top of [int64] makes the parser panic instead of returning
    [ErrInvalidSpec]: the loop variable wraps and is used as a shift count. *)
Theorem huge_step_panics :
  Parse "0 0 */9223372036854775807 * *" = Panics "runtime error: negative shift amount".
Proof. vm_compute. reflexivity. Qed.
