(* ===== verification/TimeText.v ===== *)
(** * TimeText: formatted instants are distinct

    Facts on the decimal texts of GoTime: fixed-width digits, trimmed
    fractions and the RFC 3339 form, which names each instant of the years 0 to 9999
    differently. *)

From S2P Require Import Prelude GoTime.

(** ** Concatenation *)

Lemma app_inj_length (a b x y : string) :
  String.length a = String.length b -> a +:+ x = b +:+ y -> a = b /\ x = y.
Proof.
  revert b. induction a as [|c a IH]; intros [|c' b]; simpl; try done. intros [= Hl] [= -> Heq].
  destruct (IH b Hl Heq) as [-> ->]. done.
Qed.

Lemma strlen_app a b : String.length (a +:+ b) = (String.length a + String.length b)%nat.
Proof. induction a as [|c a IH]; simpl; [done|]. by rewrite IH. Qed.

Lemma app_inj_tail (a b x : string) : a +:+ x = b +:+ x -> a = b.
Proof.
  intros Heq. assert (String.length a = String.length b) as Hl.
  { apply (f_equal String.length) in Heq. rewrite !strlen_app in Heq. lia. }
  by destruct (app_inj_length a b x x Hl Heq).
Qed.

Fixpoint noSlash (s : string) : bool :=
  match s with
  | "" => true
  | String c s' => negb (Ascii.eqb c "/"%char) && noSlash s'
  end.

Lemma noSlash_app a b : noSlash (a +:+ b) = noSlash a && noSlash b.
Proof. induction a as [|c a IH]; [done|]. simpl. rewrite IH. by destruct (Ascii.eqb c "/"%char). Qed.

(** The last slash separates. *)
Lemma slash_split a b x y :
  noSlash x = true -> noSlash y = true -> a +:+ String "/"%char x = b +:+ String "/"%char y -> a = b /\ x = y.
Proof.
  intros Hx Hy. revert b. induction a as [|c a IH]; intros [|c' b]; simpl.
  - by intros [= ->].
  - intros [= _ ->]. rewrite noSlash_app in Hx. simpl in Hx. by rewrite andb_false_r in Hx.
  - intros [= _ <-]. rewrite noSlash_app in Hy. simpl in Hy. by rewrite andb_false_r in Hy.
  - intros [= -> Heq]. destruct (IH b Heq) as [-> ->]. done.
Qed.

(** ** Digits *)

Lemma digit_inj a b : 0 <= a < 10 -> 0 <= b < 10 -> digit a = digit b -> a = b.
Proof.
  unfold digit. intros Ha Hb Heq. apply (f_equal nat_of_ascii) in Heq.
  rewrite !nat_ascii_embedding in Heq by lia. lia.
Qed.

Lemma digit_noSlash a : 0 <= a < 10 -> Ascii.eqb (digit a) "/"%char = false.
Proof.
  intros Ha. apply Ascii.eqb_neq. intros Heq. apply (f_equal nat_of_ascii) in Heq. unfold digit in Heq.
  rewrite nat_ascii_embedding in Heq by lia. change (nat_of_ascii "/"%char) with 47%nat in Heq. lia.
Qed.

Lemma digits_length w n : String.length (digits w n) = w.
Proof.
  revert n. induction w as [|w IH]; intros n; [done|]. simpl. rewrite strlen_app, IH. simpl. lia.
Qed.

Lemma digits_inj w n m :
  0 <= n < 10 ^ Z.of_nat w -> 0 <= m < 10 ^ Z.of_nat w -> digits w n = digits w m -> n = m.
Proof.
  revert n m. induction w as [|w IH]; intros n m Hn Hm; [simpl in *; lia|].
  rewrite Nat2Z.inj_succ, Z.pow_succ_r in Hn, Hm by lia. simpl. intros Heq.
  apply app_inj_length in Heq as [Hq Hr]; [|by rewrite !digits_length]. injection Hr as Hr.
  pose proof (Z.mod_pos_bound n 10). pose proof (Z.mod_pos_bound m 10).
  apply digit_inj in Hr; [|lia|lia].
  pose proof (Z.div_mod n 10). pose proof (Z.div_mod m 10).
  assert (n / 10 = m / 10); [|lia]. apply IH; [| |done].
  - split; [apply Z.div_pos; lia | apply Z.div_lt_upper_bound; lia].
  - split; [apply Z.div_pos; lia | apply Z.div_lt_upper_bound; lia].
Qed.

Lemma digits_noSlash w n : noSlash (digits w n) = true.
Proof.
  revert n. induction w as [|w IH]; intros n; [done|]. cbn [digits]. rewrite noSlash_app, IH. cbn [noSlash].
  rewrite digit_noSlash by (apply Z.mod_pos_bound; lia). done.
Qed.

(** ** Trimmed fractions *)

Fixpoint zeros (k : nat) : string :=
  match k with O => "" | S k' => String "0"%char (zeros k') end.

Lemma trimZeros_pad s :
  exists k, s = trimZeros s +:+ zeros k /\ String.length s = (String.length (trimZeros s) + k)%nat.
Proof.
  induction s as [|c s (k & Hs & Hl)]; [by exists 0%nat|]. simpl.
  destruct (trimZeros s) as [|c' t'] eqn:Et.
  - change (s = zeros k) in Hs. simpl in Hl. destruct (Ascii.eqb_spec c "0"%char) as [->|Hne].
    + exists (S k). split; [by rewrite Hs | simpl; lia].
    + exists k. split; [by rewrite Hs | simpl; lia].
  - exists k. split; [by rewrite Hs at 1 | simpl in *; lia].
Qed.

Lemma trimZeros_inj a b : String.length a = String.length b -> trimZeros a = trimZeros b -> a = b.
Proof.
  intros Hl Ht. destruct (trimZeros_pad a) as (k & Ha & Hka), (trimZeros_pad b) as (j & Hb & Hjb).
  assert (k = j) as -> by (rewrite Ht in Hka; lia). by rewrite Ha, Hb, Ht.
Qed.

Lemma trimZeros_noSlash s : noSlash s = true -> noSlash (trimZeros s) = true.
Proof.
  intros Hs. destruct (trimZeros_pad s) as (k & Heq & _). rewrite Heq, noSlash_app in Hs.
  by apply andb_true_iff in Hs as [? _].
Qed.

Lemma fraction_inj w n m x :
  0 <= n < 10 ^ Z.of_nat w -> 0 <= m < 10 ^ Z.of_nat w ->
  fraction w n +:+ String x "" = fraction w m +:+ String x "" -> n = m.
Proof.
  intros Hn Hm Heq. apply app_inj_tail in Heq. unfold fraction in Heq.
  destruct (Z.eqb_spec n 0) as [->|], (Z.eqb_spec m 0) as [->|]; try done.
  injection Heq as Heq. apply trimZeros_inj in Heq; [|by rewrite !digits_length].
  by apply (digits_inj w).
Qed.

Lemma fraction_noSlash w n : noSlash (fraction w n) = true.
Proof.
  unfold fraction. destruct (n =? 0); [done|]. simpl. apply trimZeros_noSlash, digits_noSlash.
Qed.

(** ** Instants *)

Lemma year4_digits y : 0 <= y <= 9999 -> year4 y = digits 4 y.
Proof. intros Hy. unfold year4. destruct (Z.ltb_spec y 0), (Z.ltb_spec y 10000); done || lia. Qed.

(** The instant its UTC fields denote. *)
Lemma fields_inj t u :
  dateIn UTC t = dateIn UTC u -> hourIn UTC t = hourIn UTC u -> minuteIn UTC t = minuteIn UTC u ->
  secondIn UTC t = secondIn UTC u -> t mod Second = u mod Second -> t = u.
Proof.
  intros Hd Hh Hm Hs Hn.
  assert (wallSec UTC t = wallSec UTC u) as Hw by (unfold wallSec; by rewrite Hd, Hh, Hm).
  rewrite !wallSec_local, Hs in Hw. unfold localSec, secOf, UTC in Hw. simpl in Hw.
  assert (t / Second = u / Second) as Hq by lia. pose proof Second_pos as Hp.
  rewrite (Z.div_mod t Second), (Z.div_mod u Second) by lia. by rewrite Hq, Hn.
Qed.

Lemma date_bounds t y m d : dateIn UTC t = (y, m, d) -> 1 <= m <= 12 /\ 1 <= d <= 31.
Proof.
  unfold dateIn. intros Hd. pose proof (civil_round_trip (localDays UTC t)) as Hc.
  rewrite Hd in Hc. tauto.
Qed.

Lemma formatRFC3339Nano_noSlash t : jsonYearOk t = true -> noSlash (formatRFC3339Nano t) = true.
Proof.
  unfold jsonYearOk, formatRFC3339Nano. destruct (dateIn UTC t) as [[y m] d]. intros Hy. unbool.
  rewrite year4_digits by lia. rewrite !noSlash_app, !digits_noSlash, fraction_noSlash. done.
Qed.

(** Within the years JSON can carry, the text determines the instant. *)
Lemma formatRFC3339Nano_inj t u :
  jsonYearOk t = true -> jsonYearOk u = true ->
  formatRFC3339Nano t = formatRFC3339Nano u -> t = u.
Proof.
  unfold jsonYearOk, formatRFC3339Nano.
  destruct (dateIn UTC t) as [[y m] d] eqn:Et, (dateIn UTC u) as [[y' m'] d'] eqn:Eu.
  intros Hy Hy' Heq. unbool. rewrite !year4_digits in Heq by lia.
  pose proof (date_bounds _ _ _ _ Et). pose proof (date_bounds _ _ _ _ Eu).
  pose proof (clock_fields UTC t) as (Hh & Hmi & Hse & _).
  pose proof (clock_fields UTC u) as (Hh' & Hmi' & Hse' & _).
  pose proof (Z.mod_pos_bound t Second Second_pos) as Ht.
  pose proof (Z.mod_pos_bound u Second Second_pos) as Hu.
  repeat (apply app_inj_length in Heq as [?E Heq]; [|by rewrite ?digits_length]).
  apply fraction_inj in Heq; [|exact Ht|exact Hu].
  repeat match goal with E : digits ?w _ = digits ?w _ |- _ => apply digits_inj in E; [|simpl Z.of_nat; lia..] end.
  apply fields_inj; congruence.
Qed.
