(* ===== verification/Enqueue.v ===== *)
(** * Enqueue: inserting jobs through the client

    Models the insertion half of client.go: the parameters built from args and
    options, the four Insert methods over any driver, the translation of driver
    errors, and the wake-up of an idle fetch loop.  [json.Marshal] of the args is
    the field [argJSON]; whether the driver can notify, and what that call
    answers, is the argument [notifier]. *)

From S2P Require Import Prelude GoTime GoError GoRuntime DriverSpec Metrics Middleware Inflight.
From S2P Require Import Queues.

(** ** Parameters *)

Record JobArgs := { argKind : string; argJSON : res error string }.

Record InsertOpts := { optQueue : string; optScheduledAt : Time; optUniqueKey : string }.

Record InsertItem := { itemArgs : option JobArgs; itemOpts : option InsertOpts }.

Definition insertParamsFor (args : option JobArgs) (opts : option InsertOpts)
    : res error InsertParams :=
  match args with
  | None => Err (Sent ErrInvalidKind)
  | Some a =>
      let kind := argKind a in
      if String.eqb kind "" then Err (Sent ErrInvalidKind)
      else match argJSON a with
           | Err e => Err (Wrapf ("drover: marshal args for kind " +:+ quote kind +:+ ": "
                                  +:+ errorText e) [e])
           | Ok encoded =>
               Ok match opts with
                  | None => {| ipKind := kind; ipQueue := defaultQueue; ipArgs := encoded;
                               ipScheduledAt := zeroTime; ipUniqueKey := "" |}
                  | Some o =>
                      {| ipKind := kind;
                         ipQueue := if String.eqb (optQueue o) "" then defaultQueue else optQueue o;
                         ipArgs := encoded; ipScheduledAt := optScheduledAt o;
                         ipUniqueKey := optUniqueKey o |}
                  end
           end
  end.

(** [i] items were read before. *)
Fixpoint insertParamsForMany (i : nat) (items : list InsertItem) : res error (list InsertParams) :=
  match items with
  | [] => Ok []
  | item :: rest =>
      match insertParamsFor (itemArgs item) (itemOpts item) with
      | Err e => Err (Wrapf ("item " +:+ itoa (Z.of_nat i) +:+ ": " +:+ errorText e) [e])
      | Ok p =>
          let? ps := insertParamsForMany (S i) rest in
          Ok (p :: ps)
      end
  end.

Definition publicInsertErr (e : error) : error :=
  if errorsIs e DrvDuplicateJob then Sent ErrDuplicateJob else e.

(** The public row has the driver row's fields. *)
Definition rowFromDriver (row : JobRow) : JobRow :=
  {| ID := ID row; Kind := Kind row; Queue := Queue row; Args := Args row; State := State row;
     Attempt := Attempt row; MaxAttempts := MaxAttempts row; Errors := Errors row;
     ScheduledAt := ScheduledAt row; LeasedUntil := LeasedUntil row;
     CreatedAt := CreatedAt row; FinalizedAt := FinalizedAt row; UniqueKey := UniqueKey row |}.

Definition rowsFromDriver (rows : list JobRow) : list JobRow := rowFromDriver <$> rows.

(** ** The client's state *)

(** What the goroutines of one client share: the store, the in-flight leases,
    the wake channel (of capacity one: full or not), the log and the metrics. *)
Record ClientState (S : Type) := MkState {
  cStore : S;
  cInflight : inflightSet;
  cWake : bool;
  cEnv : Env
}.
Arguments MkState {S} _ _ _ _.
Arguments cStore {S} _.
Arguments cInflight {S} _.
Arguments cWake {S} _.
Arguments cEnv {S} _.

Definition setStore {S} (s : S) (st : ClientState S) : ClientState S :=
  MkState s (cInflight st) (cWake st) (cEnv st).
Definition setInflight {S} (f : inflightSet) (st : ClientState S) : ClientState S :=
  MkState (cStore st) f (cWake st) (cEnv st).
Definition setWake {S} (b : bool) (st : ClientState S) : ClientState S :=
  MkState (cStore st) (cInflight st) b (cEnv st).
Definition setEnv {S} (e : Env) (st : ClientState S) : ClientState S :=
  MkState (cStore st) (cInflight st) (cWake st) e.

Definition logState {S} (l : Level) (msg : string) (job : option Z) (st : ClientState S)
    : ClientState S := setEnv (logEnv (cEnv st) l msg job) st.

(** ** Waking the fetch loop *)

(** The non-blocking send: a full channel stays full. *)
Definition nudge {S} (st : ClientState S) : ClientState S := setWake true st.

(** [None]: the driver has no notifier.  Otherwise what [Notify] answers. *)
Definition notify {S} (notifier : option (option error)) (st : ClientState S) : ClientState S :=
  match notifier with
  | Some (Some _) => logState LevelError "drover: notify listeners of insert" None st
  | _ => st
  end.

Definition wakeAfterInsert {S} (notifyWakeup : bool) (notifier : option (option error))
    (st : ClientState S) : ClientState S :=
  if notifyWakeup then notify notifier (nudge st) else st.

Definition notifyTx {S} (notifyWakeup : bool) (notifier : option (option error))
    (st : ClientState S) : ClientState S :=
  if notifyWakeup then notify notifier st else st.

(** ** The four Insert methods *)

Section Insert.
Context {S : Type} `{Driver S}.
Variables (notifyWakeup : bool) (notifier : option (option error)).

Definition clientInsert (now : Time) (args : option JobArgs) (opts : option InsertOpts)
    (st : ClientState S) : ClientState S * res error JobRow :=
  match insertParamsFor args opts with
  | Err e => (st, Err e)
  | Ok params =>
      let '(s', r) := drvInsert now params (cStore st) in
      match r with
      | Err e =>
          let e' := publicInsertErr e in
          (setStore s' st, Err (Wrapf ("drover: insert job kind " +:+ quote (ipKind params) +:+ ": "
                                       +:+ errorText e') [e']))
      | Ok row => (wakeAfterInsert notifyWakeup notifier (setStore s' st), Ok (rowFromDriver row))
      end
  end.

Definition clientInsertTx (now : Time) (args : option JobArgs) (opts : option InsertOpts)
    (st : ClientState S) : ClientState S * res error JobRow :=
  match insertParamsFor args opts with
  | Err e => (st, Err e)
  | Ok params =>
      let '(s', r) := drvInsertTx now params (cStore st) in
      match r with
      | Err e =>
          let e' := publicInsertErr e in
          (setStore s' st, Err (Wrapf ("drover: insert job kind " +:+ quote (ipKind params)
                                       +:+ " in tx: " +:+ errorText e') [e']))
      | Ok row => (notifyTx notifyWakeup notifier (setStore s' st), Ok (rowFromDriver row))
      end
  end.

Definition clientInsertMany (now : Time) (items : list InsertItem) (st : ClientState S)
    : ClientState S * res error (list JobRow) :=
  match insertParamsForMany 0 items with
  | Err e => (st, Err e)
  | Ok [] => (st, Ok [])
  | Ok batch =>
      let '(s', r) := drvInsertMany now batch (cStore st) in
      match r with
      | Err e =>
          let e' := publicInsertErr e in
          (setStore s' st, Err (Wrapf ("drover: insert jobs: " +:+ errorText e') [e']))
      | Ok rows => (wakeAfterInsert notifyWakeup notifier (setStore s' st), Ok (rowsFromDriver rows))
      end
  end.

Definition clientInsertManyTx (now : Time) (items : list InsertItem) (st : ClientState S)
    : ClientState S * res error (list JobRow) :=
  match insertParamsForMany 0 items with
  | Err e => (st, Err e)
  | Ok [] => (st, Ok [])
  | Ok batch =>
      let '(s', r) := drvInsertManyTx now batch (cStore st) in
      match r with
      | Err e =>
          let e' := publicInsertErr e in
          (setStore s' st, Err (Wrapf ("drover: insert jobs in tx: " +:+ errorText e') [e']))
      | Ok rows => (notifyTx notifyWakeup notifier (setStore s' st), Ok (rowsFromDriver rows))
      end
  end.
End Insert.

(** ** Lemmas *)

Lemma rowFromDriver_id row : rowFromDriver row = row.
Proof. by destruct row. Qed.

Lemma rowsFromDriver_id rows : rowsFromDriver rows = rows.
Proof.
  unfold rowsFromDriver. rewrite (list_fmap_ext _ id); [apply list_fmap_id|].
  intros. apply rowFromDriver_id.
Qed.

Lemma wakeAfterInsert_store {S} b n (st : ClientState S) :
  cStore (wakeAfterInsert b n st) = cStore st /\ cInflight (wakeAfterInsert b n st) = cInflight st /\
  cWake (wakeAfterInsert b n st) = b || cWake st.
Proof. by destruct b, n as [[]|]. Qed.

(** Args no job can be made of: nil, of no kind, or that do not encode; with the error that says so. *)
Definition refused (args : option JobArgs) (e : error) : Prop :=
  ((args = None \/ exists a, args = Some a /\ argKind a = "") /\ e = Sent ErrInvalidKind) \/
  (exists a cause, args = Some a /\ argKind a <> "" /\ argJSON a = Err cause /\
     errorText e = "drover: marshal args for kind " +:+ quote (argKind a) +:+ ": " +:+ errorText cause /\
     forall x, errorsIs e x = errorsIs cause x).

(** The job [args] and [opts] ask for. *)
Definition asks (args : option JobArgs) (opts : option InsertOpts) (p : InsertParams) : Prop :=
  exists a encoded, args = Some a /\ argKind a <> "" /\ argJSON a = Ok encoded /\
    p = {| ipKind := argKind a;
           ipQueue := (match opts with
                       | Some o => if String.eqb (optQueue o) "" then defaultQueue else optQueue o
                       | None => defaultQueue end);
           ipArgs := encoded;
           ipScheduledAt := (match opts with Some o => optScheduledAt o | None => zeroTime end);
           ipUniqueKey := (match opts with Some o => optUniqueKey o | None => "" end) |}.

Lemma insertParamsFor_spec args opts :
  match insertParamsFor args opts with
  | Err e => refused args e
  | Ok p => asks args opts p
  end.
Proof.
  unfold insertParamsFor, refused. destruct args as [a|]; [|by left; split; [left|]].
  destruct (String.eqb_spec (argKind a) ""); [left; split; [right; by exists a | done]|].
  destruct (argJSON a) as [enc|err] eqn:E.
  - exists a, enc. by destruct opts.
  - right. exists a, err. split_all; try done. intros x. simpl. apply orb_false_r.
Qed.

Lemma insertParamsForMany_ok i items ps :
  insertParamsForMany i items = Ok ps ->
  Forall2 (fun it p => asks (itemArgs it) (itemOpts it) p) items ps.
Proof.
  revert i ps. induction items as [|it items IH]; intros i ps; simpl; [intros [= <-]; constructor|].
  pose proof (insertParamsFor_spec (itemArgs it) (itemOpts it)) as Hp.
  destruct (insertParamsFor _ _) as [p|e]; [|done].
  destruct (insertParamsForMany (S i) items) as [ps'|e] eqn:Em; simpl; [|done].
  intros [= <-]. constructor; [done | by apply (IH (S i))].
Qed.

(** The first item of a batch that cannot be made a job names itself. *)
Lemma insertParamsForMany_err i items e :
  insertParamsForMany i items = Err e ->
  exists k it cause, items !! k = Some it /\ refused (itemArgs it) cause /\
    (forall k' it', (k' < k)%nat -> items !! k' = Some it' ->
       exists p, asks (itemArgs it') (itemOpts it') p) /\
    errorText e = "item " +:+ itoa (Z.of_nat (i + k)) +:+ ": " +:+ errorText cause /\
    forall x, errorsIs e x = errorsIs cause x.
Proof.
  revert i. induction items as [|it items IH]; intros i; simpl; [done|].
  pose proof (insertParamsFor_spec (itemArgs it) (itemOpts it)) as Hp.
  destruct (insertParamsFor _ _) as [p|e0].
  - destruct (insertParamsForMany (S i) items) as [ps|e0] eqn:Em; simpl; [done|]. intros [= ->].
    destruct (IH _ Em) as (k & it' & cause & Hk & Hr & Hb & Ht & Hx).
    exists (S k), it', cause. split_all; try done.
    + intros [|k'] it1 Hlt; simpl; [intros [= <-]; eauto|]. intros H1. apply (Hb k'); [lia | done].
    + by rewrite Ht, <- Nat.add_succ_comm.
  - intros [= <-]. exists 0%nat, it, e0. split_all; try done; [lia | by rewrite Nat.add_0_r |].
    intros x. simpl. apply orb_false_r.
Qed.

Lemma publicInsertErr_is t e x :
  errorsIs (Wrapf t [publicInsertErr e]) x =
  if errorsIs e DrvDuplicateJob then bool_decide (ErrDuplicateJob = x) else errorsIs e x.
Proof. simpl. rewrite orb_false_r. unfold publicInsertErr. by destruct (errorsIs e DrvDuplicateJob). Qed.

(** ** Properties *)

(** What the client makes of a driver's answer.  On success: the rows as they are, the wake
    channel filled if [woke], and, if the listeners were [told] and could not be, one record of
    it.  On failure: an error in which the driver's duplicate is the public one and every other
    error is still recognised, and nobody is woken or told. *)
Definition answered {S A} (woke told : bool) (nf : option (option error)) (st st' : ClientState S)
    (s' : S) (r : res error A) (out : res error A) : Prop :=
  cStore st' = s' /\ cInflight st' = cInflight st /\
  match r with
  | Ok rows =>
      out = Ok rows /\ cWake st' = woke || cWake st /\
      cEnv st' = match told, nf with
                 | true, Some (Some _) =>
                     logEnv (cEnv st) LevelError "drover: notify listeners of insert" None
                 | _, _ => cEnv st
                 end
  | Err e =>
      cWake st' = cWake st /\ cEnv st' = cEnv st /\ exists e', out = Err e' /\
      (errorsIs e DrvDuplicateJob = true ->
         errorsIs e' ErrDuplicateJob = true /\ errorsIs e' DrvDuplicateJob = false) /\
      (errorsIs e DrvDuplicateJob = false -> forall x, errorsIs e' x = errorsIs e x)
  end.

Lemma answered_ok {S A} nw nf (st : ClientState S) s' (rows : A) :
  answered nw nw nf st (wakeAfterInsert nw nf (setStore s' st)) s' (Ok rows) (Ok rows) /\
  answered false nw nf st (notifyTx nw nf (setStore s' st)) s' (Ok rows) (Ok rows).
Proof. destruct nw, nf as [[]|]; by repeat split. Qed.

Lemma answered_err {S A} woke told nf (st : ClientState S) s' t e :
  answered woke told nf st (setStore s' st) s' (@Err error A e) (Err (Wrapf t [publicInsertErr e])).
Proof.
  unfold answered. split_all; [done..|]. eexists. split; [reflexivity|].
  split; intros E; [by rewrite !publicInsertErr_is, E|]. intros x. by rewrite publicInsertErr_is, E.
Qed.

(** C37: inserting through the client, alone or in the caller's transaction, one job or a batch.  Nil args, an
    empty kind (both [ErrInvalidKind]) and args that do not encode (an error that wraps
    the encoder's) never reach the driver and change nothing; a batch fails on its first such item, which
    the error numbers.  Otherwise the driver is asked once, for the jobs the args and options say, in
    input order and on the default queue where none is named; its rows are returned as they are and its
    duplicate error comes back as the public one.  With wake-ups on, a successful insert
    outside a transaction wakes the local fetch loop, every successful one notifies the
    other processes, and a failed notification is only logged.  An empty batch asks the driver nothing. *)
Theorem client_insert_contract {S} `{Driver S} nw nf now args opts items (st : ClientState S) :
  ((exists e, refused args e /\ clientInsert nw nf now args opts st = (st, Err e) /\
              clientInsertTx nw nf now args opts st = (st, Err e)) \/
   (exists p, asks args opts p /\
      (let '(s', r) := drvInsert now p (cStore st) in
       let '(st', out) := clientInsert nw nf now args opts st in answered nw nw nf st st' s' r out) /\
      (let '(s', r) := drvInsertTx now p (cStore st) in
       let '(st', out) := clientInsertTx nw nf now args opts st in answered false nw nf st st' s' r out))) /\
  ((exists k it cause e, items !! k = Some it /\ refused (itemArgs it) cause /\
      (forall k' it', (k' < k)%nat -> items !! k' = Some it' ->
         exists p, asks (itemArgs it') (itemOpts it') p) /\
      errorText e = "item " +:+ itoa (Z.of_nat k) +:+ ": " +:+ errorText cause /\
      (forall x, errorsIs e x = errorsIs cause x) /\
      clientInsertMany nw nf now items st = (st, Err e) /\
      clientInsertManyTx nw nf now items st = (st, Err e)) \/
   (items = [] /\ clientInsertMany nw nf now items st = (st, Ok []) /\
      clientInsertManyTx nw nf now items st = (st, Ok [])) \/
   (items <> [] /\ exists batch,
      Forall2 (fun it p => asks (itemArgs it) (itemOpts it) p) items batch /\
      (let '(s', r) := drvInsertMany now batch (cStore st) in
       let '(st', out) := clientInsertMany nw nf now items st in answered nw nw nf st st' s' r out) /\
      (let '(s', r) := drvInsertManyTx now batch (cStore st) in
       let '(st', out) := clientInsertManyTx nw nf now items st in answered false nw nf st st' s' r out))).
Proof.
  split.
  - pose proof (insertParamsFor_spec args opts) as Hp. unfold clientInsert, clientInsertTx.
    destruct (insertParamsFor args opts) as [p|e]; [right; exists p | left; by exists e].
    split_all; [done| |].
    + destruct (drvInsert now p (cStore st)) as [s' [row|e]]; [|apply answered_err].
      rewrite rowFromDriver_id. apply answered_ok.
    + destruct (drvInsertTx now p (cStore st)) as [s' [row|e]]; [|apply answered_err].
      rewrite rowFromDriver_id. apply answered_ok.
  - unfold clientInsertMany, clientInsertManyTx.
    destruct (insertParamsForMany 0 items) as [batch|e] eqn:E; [right | left].
    + pose proof (insertParamsForMany_ok _ _ _ E) as Hb.
      destruct Hb as [|it p items batch Hp Hb]; [by left | right].
      split; [done|]. exists (p :: batch). split_all; [by constructor| |].
      * destruct (drvInsertMany now (p :: batch) (cStore st)) as [s' [rows|e]]; [|apply answered_err].
        rewrite rowsFromDriver_id. apply answered_ok.
      * destruct (drvInsertManyTx now (p :: batch) (cStore st)) as [s' [rows|e]]; [|apply answered_err].
        rewrite rowsFromDriver_id. apply answered_ok.
    + destruct (insertParamsForMany_err _ _ _ E) as (k & it & cause & Hk & Hr & Hb & Ht & Hx).
      exists k, it, cause, e. by split_all.
Qed.
