(* ===== verification/Client.v ===== *)
(** * Client: building a client from its configuration

    Models the configuration half of client.go ([newClient], [checkedMiddleware])
    and periodic.go.  A programmer error panics; a tuning value out of range is
    corrected, with a warning where the source logs one.  What the metrics registry refuses is the
    argument [register]. *)

From S2P Require Import Prelude GoTime GoError GoRuntime GoText DriverSpec Metrics Middleware.
From S2P Require Import Retry Queues Enqueue Cron.

(** ** Periodic jobs *)

Record PeriodicJob := {
  pjID : string;
  pjCron : string;
  pjArgs : option JobArgs;
  pjOpts : option InsertOpts;
  pjLocation : option Location
}.

Record periodicEntry := { peJob : PeriodicJob; peSchedule : Schedule }.

(** The loop over the jobs; [seen] maps each id met to its index, [i] is the
    index reached. *)
Fixpoint checkedPeriodic (i : nat) (seen : gmap string nat) (jobs : list PeriodicJob)
    : outcome (list periodicEntry) :=
  match jobs with
  | [] => Returns []
  | job :: rest =>
      let index (n : nat) := "PeriodicJobs[" +:+ itoa (Z.of_nat n) +:+ "]" in
      let at_ := "drover: Config." +:+ index i in
      let named := at_ +:+ " (id " +:+ quote (pjID job) +:+ ")" in
      if String.eqb (pjID job) "" then Panics (at_ +:+ " has an empty ID")
      else match seen !! pjID job with
           | Some prev =>
               Panics (at_ +:+ " duplicates ID " +:+ quote (pjID job) +:+ " from " +:+ index prev)
           | None =>
               match pjArgs job with
               | None => Panics (named +:+ " has nil Args")
               | Some args =>
                   if String.eqb (argKind args) "" then Panics (named +:+ " has an empty kind")
                   else match ParseIn (pjCron job) (pjLocation job) with
                        | Panics v => Panics v
                        | Returns (Err e) =>
                            Panics (named +:+ " has an invalid cron " +:+ quote (pjCron job) +:+ ": "
                                    +:+ errorText e)
                        | Returns (Ok s) =>
                            match checkedPeriodic (S i) (<[pjID job := i]> seen) rest with
                            | Panics v => Panics v
                            | Returns out => Returns ({| peJob := job; peSchedule := s |} :: out)
                            end
                        end
               end
           end
  end.

Definition checkedPeriodicJobs (jobs : list PeriodicJob) : outcome (list periodicEntry) :=
  checkedPeriodic 0 ∅ jobs.

(** ** Configuration *)

Inductive policy := Exponential | Custom (p : RetryPolicy).

Record Config := {
  cfgWorkers : option Workers;
  cfgPollInterval : Duration;
  cfgNotifyWakeup : bool;
  cfgRetryPolicy : option RetryPolicy;
  cfgMiddleware : list (option Middleware);
  cfgQueues : gmap string Z;
  cfgConcurrency : Z;
  cfgLeaseDuration : Duration;
  cfgHeartbeatInterval : Duration;
  cfgRescueInterval : Duration;
  cfgMetricsRegistry : option Registry;
  cfgStatsInterval : Duration;
  cfgOpsAddr : string;
  cfgPeriodicJobs : list PeriodicJob
}.

Record Client := {
  workers : Workers;
  pollInterval : Duration;
  notifyWakeup : bool;
  retryPolicy : policy;
  leaseDuration : Duration;
  heartbeatInterval : Duration;
  rescueInterval : Duration;
  concurrency : Z;
  statsInterval : Duration;
  registry : Registry;
  opsAddr : string;
  clientMetrics : metricSet;
  queues : list weightedQueue;
  chain : Handler;
  periodic : list periodicEntry
}.

Definition defaultPollInterval : Duration := Second.
Definition defaultConcurrency : Z := 10.
Definition heartbeatsPerLease : Z := 3.
Definition minLeaseDuration : Duration := Millisecond.
Definition defaultStatsInterval : Duration := 15 * Second.

(** [nil] elements panic with their index. *)
Fixpoint checkedMiddleware (i : nat) (mws : list (option Middleware)) : outcome (list Middleware) :=
  match mws with
  | [] => Returns []
  | None :: _ => Panics ("drover: Config.Middleware[" +:+ itoa (Z.of_nat i) +:+ "] is nil")
  | Some mw :: rest =>
      match checkedMiddleware (S i) rest with
      | Panics v => Panics v
      | Returns out => Returns (mw :: out)
      end
  end.

(** The warnings of the corrections, in the order they are logged. *)
Definition warnIf (b : bool) (msg : string) (w : World) : World :=
  if b then logTo w LevelWarn msg None else w.

(** What [checkedQueues] logs of the weights it corrects. *)
Definition weightWarnings (queues : gmap string Z) (w : World) : World :=
  foldl (fun w kv =>
    if kv.2 <? 1
    then logTo w LevelWarn "drover: queue weight must be at least one; using one instead" None
    else warnIf (maxQueueWeight <? kv.2)
           "drover: queue weight is above the maximum; using the maximum instead" w)
    w (map_to_list queues).

(** [stack] and [validLabel] are what the chain's recover and metrics use.  [registry] is the
    registry once the collectors are on it, and [clientMetrics] the collectors as they are then. *)
Definition newClient (stack : string) (validLabel : string -> bool)
    (register : Registry -> collector -> option string) (cfg : Config) (w : World)
    : outcome (Client * World) :=
  let ws := default NewWorkers (cfgWorkers cfg) in
  let poll := if cfgPollInterval cfg <=? 0 then defaultPollInterval else cfgPollInterval cfg in
  let pol := match cfgRetryPolicy cfg with Some p => Custom p | None => Exponential end in
  let lease := if cfgLeaseDuration cfg <? minLeaseDuration then DefaultLeaseDuration
               else cfgLeaseDuration cfg in
  let tooSlow := lease <=? cfgHeartbeatInterval cfg in
  let w1 := warnIf tooSlow
    "drover: heartbeat interval must be shorter than the lease; using the default instead" w in
  let beat := if tooSlow then 0 else cfgHeartbeatInterval cfg in
  let beat := if beat <=? 0 then lease ÷ heartbeatsPerLease else beat in
  let rescue := if cfgRescueInterval cfg <=? 0 then lease else cfgRescueInterval cfg in
  let conc := if cfgConcurrency cfg <=? 0 then defaultConcurrency else cfgConcurrency cfg in
  let w2 := warnIf (cfgStatsInterval cfg <? 0)
    "drover: stats interval must be positive; using the default instead" w1 in
  let stats := if cfgStatsInterval cfg <? 0 then defaultStatsInterval
               else if cfgStatsInterval cfg =? 0 then defaultStatsInterval
               else cfgStatsInterval cfg in
  match checkedQueues (cfgQueues cfg) with
  | Err p => Panics p
  | Ok qs =>
  match newMetricSet register (default NewRegistry (cfgMetricsRegistry cfg)) conc with
  | Panics p => Panics p
  | Returns (reg, mset) =>
  match checkedMiddleware 0 (cfgMiddleware cfg) with
  | Panics p => Panics p
  | Returns mws =>
  match checkedPeriodicJobs (cfgPeriodicJobs cfg) with
  | Panics p => Panics p
  | Returns entries =>
      Returns ({| workers := ws; pollInterval := poll; notifyWakeup := cfgNotifyWakeup cfg;
         retryPolicy := pol; leaseDuration := lease; heartbeatInterval := beat;
         rescueInterval := rescue; concurrency := conc; statsInterval := stats;
         registry := reg; opsAddr := cfgOpsAddr cfg; clientMetrics := mset; queues := qs;
         chain := clientChain stack validLabel ws mws; periodic := entries |},
         weightWarnings (cfgQueues cfg) w2)
  end end end end.

(** The public constructor: a nil pool is the one error it returns. *)
Definition NewClient (nilPool : bool) (stack : string) (validLabel : string -> bool)
    (register : Registry -> collector -> option string) (cfg : Config)
    (w : World) : outcome (res error (Client * World)) :=
  if nilPool then Returns (Err (Msg "drover: pool must not be nil"))
  else match newClient stack validLabel register cfg w with
       | Panics v => Panics v
       | Returns c => Returns (Ok c)
       end.

(** ** Lemmas *)

(** What a list of periodic entries promises the scheduler. *)
Definition periodicOk (seen : gmap string nat) (jobs : list PeriodicJob) (entries : list periodicEntry)
    : Prop :=
  peJob <$> entries = jobs /\
  NoDup (pjID <$> jobs) /\ Forall (fun j => pjID j <> "" /\ seen !! pjID j = None) jobs /\
  Forall (fun e => (exists a, pjArgs (peJob e) = Some a /\ argKind a <> "") /\
                   ParseIn (pjCron (peJob e)) (pjLocation (peJob e)) = Returns (Ok (peSchedule e)))
         entries.

Lemma checkedPeriodic_ok i seen jobs entries :
  checkedPeriodic i seen jobs = Returns entries -> periodicOk seen jobs entries.
Proof.
  revert i seen entries. induction jobs as [|job jobs IH]; intros i seen entries; simpl.
  - intros [= <-]. unfold periodicOk. split_all; [done | apply NoDup_nil_2 | constructor | constructor].
  - destruct (String.eqb_spec (pjID job) ""); [done|].
    destruct (seen !! pjID job) eqn:Es; [done|]. destruct (pjArgs job) as [a|] eqn:Ea; [|done].
    destruct (String.eqb_spec (argKind a) ""); [done|].
    destruct (ParseIn _ _) as [[s|]|] eqn:Ep; try done.
    destruct (checkedPeriodic _ _ jobs) as [out|] eqn:Ec; [|done]. intros [= <-].
    destruct (IH _ _ _ Ec) as (Hj & Hnd & Hall & He). unfold periodicOk. split_all; simpl.
    + change (job :: (peJob <$> out) = job :: jobs). by rewrite Hj.
    + apply NoDup_cons. split; [|done]. intros (j & Hid & Hin)%list_elem_of_fmap.
      rewrite Forall_forall in Hall. destruct (Hall j Hin) as [_ Hns]. rewrite <- Hid, lookup_insert_eq in Hns. done.
    + constructor; [done|]. eapply Forall_impl; [exact Hall|]. intros j [? Hn]. split; [done|].
      by apply lookup_insert_None in Hn as [? _].
    + constructor; [|done]. simpl. eauto.
Qed.

(** A periodic job that can never be enqueued: without an id, args, a kind or a schedule. *)
Definition badJob (j : PeriodicJob) : Prop :=
  pjID j = "" \/ pjArgs j = None \/ (exists a, pjArgs j = Some a /\ argKind a = "") \/
  (forall s, ParseIn (pjCron j) (pjLocation j) <> Returns (Ok s)).

Lemma checkedPeriodic_panics i seen jobs :
  (exists v, checkedPeriodic i seen jobs = Panics v) <->
  ~ NoDup (pjID <$> jobs) \/ Exists badJob jobs \/ Exists (fun j => is_Some (seen !! pjID j)) jobs.
Proof.
  revert i seen. induction jobs as [|job jobs IH]; intros i seen; cbn [checkedPeriodic].
  - split; [by intros [? ?] | intros [H|[H|H]]; [by destruct H; apply NoDup_nil_2 | inversion H..]].
  - rewrite !Exists_cons, fmap_cons, NoDup_cons.
    destruct (String.eqb_spec (pjID job) ""); [split; [|eauto]; intros _; right; left; left; by left|].
    destruct (seen !! pjID job) as [prev|] eqn:Es;
      [split; [|eauto]; intros _; right; right; left; eauto|].
    destruct (pjArgs job) as [a|] eqn:Ea;
      [|split; [|eauto]; intros _; right; left; left; right; left; done].
    destruct (String.eqb_spec (argKind a) "");
      [split; [|eauto]; intros _; right; left; left; right; right; left; eauto|].
    destruct (ParseIn (pjCron job) (pjLocation job)) as [[s|e]|v] eqn:Ep.
    2, 3: split; [|eauto]; intros _; right; left; left; right; right; right; by rewrite Ep.
    assert (~ badJob job) as Hgood.
    { unfold badJob. rewrite Ea, Ep. intros [?|[?|[(? & [= <-] & ?)|Hn]]]; try done. by apply (Hn s). }
    assert ((exists v, match checkedPeriodic (S i) (<[pjID job := i]> seen) jobs with
              | Panics v => Panics v
              | Returns out => Returns ({| peJob := job; peSchedule := s |} :: out)
              end = Panics v) <-> exists v, checkedPeriodic (S i) (<[pjID job := i]> seen) jobs = Panics v) as ->.
    { destruct (checkedPeriodic _ _ jobs); split; intros [? ?]; eauto; done. }
    rewrite (IH (S i)).
    assert (Exists (fun j => is_Some (<[pjID job := i]> seen !! pjID j)) jobs <->
            pjID job ∈ pjID <$> jobs \/ Exists (fun j => is_Some (seen !! pjID j)) jobs) as ->.
    { rewrite list_elem_of_fmap, !Exists_exists. setoid_rewrite lookup_insert_is_Some'. naive_solver. }
    assert (~ is_Some (@None nat)) by (by intros [? ?]).
    destruct (decide (pjID job ∈ pjID <$> jobs)), (decide (NoDup (pjID <$> jobs))); tauto.
Qed.

Lemma checkedMiddleware_ok i mws out :
  checkedMiddleware i mws = Returns out <-> mws = Some <$> out.
Proof.
  revert i out. induction mws as [|[mw|] mws IH]; intros i out; simpl.
  - split; [by intros [= <-] | by destruct out].
  - destruct (checkedMiddleware (S i) mws) as [o|v] eqn:E.
    + split; [intros [= <-]; simpl; f_equal; by apply (IH (S i))|].
      destruct out as [|m out]; [done|]. intros [= -> Hm]. apply (IH (S i)) in Hm. congruence.
    + split; [done|]. destruct out as [|m out]; [done|]. intros [= -> Hm].
      apply (IH (S i)) in Hm. congruence.
  - split; [done|]. by destruct out.
Qed.

Lemma checkedMiddleware_panic i mws :
  (exists v, checkedMiddleware i mws = Panics v) <-> None ∈ mws.
Proof.
  revert i. induction mws as [|[mw|] mws IH]; intros i; simpl.
  - split; [by intros [? ?] | by intros ?%not_elem_of_nil].
  - rewrite elem_of_cons, <- (IH (S i)). destruct (checkedMiddleware (S i) mws).
    + split; [by intros [? ?] | intros [?|[? ?]]; done].
    + split; eauto.
  - split; [intros _; left | eauto].
Qed.

(** The corrected lease and heartbeat. *)
Lemma interval_bounds lease0 beat0 :
  let lease := if lease0 <? minLeaseDuration then DefaultLeaseDuration else lease0 in
  let tooSlow := lease <=? beat0 in
  let beat1 := if tooSlow then 0 else beat0 in
  let beat := if beat1 <=? 0 then lease ÷ heartbeatsPerLease else beat1 in
  minLeaseDuration <= lease /\ 0 < beat < lease /\ (0 < beat0 < lease -> beat = beat0).
Proof.
  intros lease tooSlow beat1 beat.
  assert (minLeaseDuration <= lease) as Hl.
  { unfold lease. destruct (Z.ltb_spec lease0 minLeaseDuration); [vm_compute; discriminate|done]. }
  assert (1000000 <= lease) as Hm by exact Hl.
  assert (0 < lease ÷ heartbeatsPerLease < lease) as Hq.
  { unfold heartbeatsPerLease. rewrite Z.quot_div_nonneg by lia.
    pose proof (Z.div_mod lease 3). pose proof (Z.mod_pos_bound lease 3). lia. }
  unfold beat, beat1, tooSlow. split; [done|].
  destruct (Z.leb_spec lease beat0); [split; [done|lia]|].
  destruct (Z.leb_spec beat0 0); [split; [done|lia]|]. lia.
Qed.

(** ** Properties *)

(** What a running client relies on. *)
Definition clientOk (c : Client) : Prop :=
  0 < pollInterval c /\ minLeaseDuration <= leaseDuration c /\
  0 < heartbeatInterval c < leaseDuration c /\ 0 < rescueInterval c /\
  0 < concurrency c /\ 0 < statsInterval c /\
  queues c <> [] /\ weightsOk (queues c) /\ NoDup (qname <$> queues c) /\
  NoDup (pjID ∘ peJob <$> periodic c).

Ltac clientFields :=
  cbn [workers pollInterval notifyWakeup retryPolicy leaseDuration heartbeatInterval rescueInterval
       concurrency statsInterval registry opsAddr clientMetrics queues chain periodic].

Section Build.
Variables (stack : string) (validLabel : string -> bool).
Variable register : Registry -> collector -> option string.

(** A periodic job no client accepts, or two under one id. *)
Definition badSchedules (jobs : list PeriodicJob) : Prop :=
  ~ NoDup (pjID <$> jobs) \/ Exists badJob jobs.

Lemma newClient_panics cfg w :
  (exists v, newClient stack validLabel register cfg w = Panics v) <->
  is_Some (cfgQueues cfg !! "") \/
  (exists k, refusedAt register (default NewRegistry (cfgMetricsRegistry cfg)) droverCollectors k) \/
  None ∈ cfgMiddleware cfg \/ badSchedules (cfgPeriodicJobs cfg).
Proof.
  assert (badSchedules (cfgPeriodicJobs cfg) <->
          exists v, checkedPeriodicJobs (cfgPeriodicJobs cfg) = Panics v) as ->.
  { unfold checkedPeriodicJobs, badSchedules. rewrite checkedPeriodic_panics, Exists_exists with (l := cfgPeriodicJobs cfg).
    setoid_rewrite lookup_empty. assert (forall P : Prop, P \/ (exists j, j ∈ cfgPeriodicJobs cfg /\ is_Some (@None nat)) <-> P) as H
      by (intros P; split; [intros [?|(? & _ & ? & [=])]; done | auto]).
    rewrite Exists_exists. rewrite <- (H (exists x, _)). tauto. }
  unfold newClient.
  set (conc := if cfgConcurrency cfg <=? 0 then defaultConcurrency else cfgConcurrency cfg).
  rewrite <- (newMetricSet_panics register _ conc), <- (checkedMiddleware_panic 0).
  destruct (checkedQueues_cases (cfgQueues cfg)) as [(-> & ->)|[(Hs & ->)|(_ & Hn & ->)]];
    [rewrite lookup_empty | naive_solver | rewrite Hn].
  all: assert (is_Some (@None Z) <-> False) as -> by (by split; [intros [? ?]|]).
  all: destruct (newMetricSet register _ conc) as [[reg m]|]; [|naive_solver].
  all: destruct (checkedMiddleware 0 (cfgMiddleware cfg)); [|naive_solver].
  all: destruct (checkedPeriodicJobs (cfgPeriodicJobs cfg)); naive_solver.
Qed.

(** A client that is built has what it was configured with, corrected. *)
Lemma newClient_built cfg w c w' :
  newClient stack validLabel register cfg w = Returns (c, w') ->
  clientOk c /\
  (0 < cfgPollInterval cfg -> pollInterval c = cfgPollInterval cfg) /\
  (minLeaseDuration <= cfgLeaseDuration cfg -> leaseDuration c = cfgLeaseDuration cfg) /\
  (0 < cfgHeartbeatInterval cfg < leaseDuration c -> heartbeatInterval c = cfgHeartbeatInterval cfg) /\
  (0 < cfgRescueInterval cfg -> rescueInterval c = cfgRescueInterval cfg) /\
  (0 < cfgConcurrency cfg -> concurrency c = cfgConcurrency cfg) /\
  (0 < cfgStatsInterval cfg -> statsInterval c = cfgStatsInterval cfg) /\
  (forall mws, cfgMiddleware cfg = Some <$> mws ->
     chain c = clientChain stack validLabel (workers c) mws) /\
  periodicOk ∅ (cfgPeriodicJobs cfg) (periodic c) /\
  registry c = default NewRegistry (cfgMetricsRegistry cfg) ++ droverCollectors /\
  clientMetrics c = newCollectors (concurrency c).
Proof.
  unfold newClient. destruct (checkedQueues (cfgQueues cfg)) as [qs|] eqn:Eq; [|done].
  destruct (newMetricSet _ _ _) as [[reg mset]|] eqn:Er; [|done].
  destruct (checkedMiddleware 0 (cfgMiddleware cfg)) as [mws|] eqn:Em; [|done].
  destruct (checkedPeriodicJobs (cfgPeriodicJobs cfg)) as [es|] eqn:Ep; [|done].
  intros [= <- _]. clientFields.
  apply newMetricSet_returns in Er as [-> ->].
  destruct (checkedQueues_ok _ _ Eq) as (Hw & Hnd & Hne & _ & _).
  pose proof (checkedPeriodic_ok _ _ _ _ Ep) as Hp.
  destruct (interval_bounds (cfgLeaseDuration cfg) (cfgHeartbeatInterval cfg)) as (H1 & H2 & H3). cbv zeta in H1, H2, H3.
  split; [unfold clientOk; clientFields; split_all; try done; try apply H2|].
  + destruct (Z.leb_spec (cfgPollInterval cfg) 0); [reflexivity|done].
  + destruct (Z.leb_spec (cfgRescueInterval cfg) 0); [|done]. unfold minLeaseDuration in *.
    assert (0 < Millisecond) by reflexivity. lia.
  + destruct (Z.leb_spec (cfgConcurrency cfg) 0); [reflexivity|done].
  + destruct (Z.ltb_spec (cfgStatsInterval cfg) 0); [reflexivity|].
    destruct (Z.eqb_spec (cfgStatsInterval cfg) 0); [reflexivity|lia].
  + destruct Hp as (Hj & Hid & _). rewrite list_fmap_compose, Hj. done.
  + split_all; try done.
    * intros Hx. destruct (Z.leb_spec (cfgPollInterval cfg) 0); [lia|done].
    * intros Hx. destruct (Z.ltb_spec (cfgLeaseDuration cfg) minLeaseDuration); [lia|done].
    * intros Hx. destruct (Z.leb_spec (cfgRescueInterval cfg) 0); [lia|done].
    * intros Hx. destruct (Z.leb_spec (cfgConcurrency cfg) 0); [lia|done].
    * intros Hx. destruct (Z.ltb_spec (cfgStatsInterval cfg) 0); [lia|].
      destruct (Z.eqb_spec (cfgStatsInterval cfg) 0); [lia|done].
    * intros mws' Hm. apply (checkedMiddleware_ok 0) in Hm. assert (mws' = mws) as -> by congruence. done.
Qed.

(** C34: a client that is built is usable whatever it was configured with: positive intervals, a
    heartbeat shorter than the lease it renews, at least one worker and one queue,
    distinct schedules; a configured value in range is kept as it is; its collectors, all at
    zero but the pool gauge, are on its registry.  Building one panics exactly on an empty queue name, a
    registry that refuses one of the seven collectors, a nil middleware, two periodic jobs under one id, or
    one without an id, args, a kind or a schedule that parses.  A registry of the client's own, or one
    where their names are free, refuses none; a registry another client was built on always does. *)
Theorem newClient_usable cfg w :
  registryLaws register ->
  let shared := default [] (cfgMetricsRegistry cfg) in
  (forall c w', newClient stack validLabel register cfg w = Returns (c, w') ->
     clientOk c /\
     (0 < cfgPollInterval cfg -> pollInterval c = cfgPollInterval cfg) /\
     (minLeaseDuration <= cfgLeaseDuration cfg -> leaseDuration c = cfgLeaseDuration cfg) /\
     (0 < cfgHeartbeatInterval cfg < leaseDuration c ->
        heartbeatInterval c = cfgHeartbeatInterval cfg) /\
     (0 < cfgRescueInterval cfg -> rescueInterval c = cfgRescueInterval cfg) /\
     (0 < cfgConcurrency cfg -> concurrency c = cfgConcurrency cfg) /\
     (0 < cfgStatsInterval cfg -> statsInterval c = cfgStatsInterval cfg) /\
     (forall mws, cfgMiddleware cfg = Some <$> mws ->
        chain c = clientChain stack validLabel (workers c) mws) /\
     periodicOk ∅ (cfgPeriodicJobs cfg) (periodic c) /\
     registry c = shared ++ droverCollectors /\ clientMetrics c = newCollectors (concurrency c) /\
     (forall cfg2 w2, cfgMetricsRegistry cfg2 = Some (registry c) ->
        exists v, newClient stack validLabel register cfg2 w2 = Panics v)) /\
  ((exists v, newClient stack validLabel register cfg w = Panics v) <->
     is_Some (cfgQueues cfg !! "") \/
     (exists k, refusedAt register shared droverCollectors k) \/
     None ∈ cfgMiddleware cfg \/
     ~ NoDup (pjID <$> cfgPeriodicJobs cfg) \/ Exists badJob (cfgPeriodicJobs cfg)) /\
  ((forall c, c ∈ droverCollectors -> colName c ∉ colName <$> shared) ->
     forall k, ~ refusedAt register shared droverCollectors k).
Proof.
  intros Hlaws shared. split_all.
  - intros c w' Hc. pose proof (newClient_built _ _ _ _ Hc) as Hb. destruct_and! Hb. split_all; try done.
    intros cfg2 w2 Hreg. apply newClient_panics. right. left. rewrite Hreg. simpl.
    set (c0 := {| colName := "drover_jobs_executing";
                  colHelp := "Job executions currently inside the middleware chain."; colLabels := [] |}).
    assert (c0 ∈ droverCollectors) as Hin by (unfold droverCollectors, c0; set_solver).
    apply (used_registry_refuses _ _ c0); [done..|].
    match goal with H : registry c = _ |- _ => rewrite H end. set_solver.
  - apply newClient_panics.
  - by apply fresh_registry_accepts.
Qed.
End Build.

(** A registry that goes by names alone. *)
Definition registerByName (reg : Registry) (c : collector) : option string :=
  if decide (colName c ∈ colName <$> reg)
  then Some "duplicate metrics collector registration attempted" else None.

Lemma registerByName_laws : registryLaws registerByName.
Proof.
  constructor; intros reg c Hc; unfold registerByName.
  - rewrite decide_True; [eauto|]. by apply list_elem_of_fmap_2.
  - by rewrite decide_False.
Qed.

Definition plainConfig (reg : option Registry) : Config :=
  {| cfgWorkers := None; cfgPollInterval := 0; cfgNotifyWakeup := false; cfgRetryPolicy := None;
     cfgMiddleware := []; cfgQueues := ∅; cfgConcurrency := 2; cfgLeaseDuration := 0;
     cfgHeartbeatInterval := 0; cfgRescueInterval := 0; cfgMetricsRegistry := reg;
     cfgStatsInterval := 0; cfgOpsAddr := ""; cfgPeriodicJobs := [] |}.

(** Two clients on one registry: the first is built, the second panics; on registries of their own
    both are built. *)
Lemma newClient_usable_witness :
  let build cfg := newClient "stack" (fun _ => true) registerByName cfg (MkWorld 0 []) in
  exists c w', build (plainConfig None) = Returns (c, w') /\ clientOk c /\
    length (registry c) = 7%nat /\
    (exists v, build (plainConfig (Some (registry c))) = Panics v) /\
    ~ exists v, build (plainConfig None) = Panics v.
Proof.
  destruct (newClient_usable "stack" (fun _ => true) registerByName (plainConfig None) (MkWorld 0 [])
              registerByName_laws) as (H1 & H2 & H3).
  eexists _, _. split; [reflexivity|]. destruct (H1 _ _ eq_refl) as (Hok & Hrest). split; [exact Hok|].
  split; [reflexivity|]. destruct_and! Hrest. split; [match goal with H : forall cfg2 w2, _ |- _ => apply H; reflexivity end|].
  intros [v Hv]. discriminate Hv.
Defined.
