(* ===== verification/Loop.v ===== *)
(** * Loop: running a claimed job and recording what became of it

    Models [runJob], [finalizeContext], [dispose] and [writeFailed] of loop.go,
    [requeue] of pool.go and [rescueOnce] of rescue.go, over any driver that keeps the
    contract.  The clock readings of one call are an argument: [tick i] is the
    [i]-th of them.  Other goroutines act between a handler's start and the write
    of its outcome; what they do to the shared state is the argument [others]. *)

From S2P Require Import Prelude GoTime GoError GoRuntime DriverSpec Metrics Middleware Inflight.
From S2P Require Import Retry Enqueue Client Queues Memdriver MemdriverFacts MemdriverProps.

(** [ctx.Err()] of a context that has ended. *)
Definition ctxErr (ctx : Ctx) : error :=
  Sent (if ctxCancelled ctx then ContextCanceled else ContextDeadlineExceeded).

(** A store call on a context that has ended: a query fails without effect; a driver that does not
    look at its context goes on. *)
Definition underCtx {S} `{Driver S} (now : Time) (ctx : Ctx) (op : S -> S * option error) (s : S)
    : S * option error :=
  if drvUsesCtx S && ctxDone now ctx then (s, Some (ctxErr ctx)) else op s.

Lemma underCtx_open {S} `{Driver S} now ctx op (s : S) :
  ctxDone now ctx = false -> underCtx now ctx op s = op s.
Proof. intros Hc. unfold underCtx. by rewrite Hc, andb_false_r. Qed.

(** The call goes out, or its context has ended. *)
Lemma underCtx_cases {S} `{Driver S} now ctx op (s : S) :
  underCtx now ctx op s = op s \/ underCtx now ctx op s = (s, Some (ctxErr ctx)).
Proof. unfold underCtx. destruct (drvUsesCtx S && ctxDone now ctx); auto. Qed.

Definition finalizeContext (c : Client) (now : Time) (jobCtx : Ctx) : Ctx :=
  WithTimeout now (WithoutCancel jobCtx) (leaseDuration c).

(** The schedule in force, with the draw and the clock reading of the default one. *)
Definition policyFn (pol : policy) (k : Z) (t : Time) : RetryPolicy :=
  match pol with
  | Custom p => p
  | Exponential => fun job => Returns (NextRetry k t job)
  end.

Section Loop.
Context {S : Type} `{Ops : Driver S}.

Definition lostOwnership (e : error) : bool :=
  errorsIs e DrvLeaseLost || errorsIs e DrvInvalidTransition.

Definition writeFailed (row : JobRow) (e : error) (st : ClientState S) : ClientState S :=
  if lostOwnership e
  then logState LevelWarn "drover: job is no longer this worker's to finish, discarding this outcome"
         (Some (ID row)) st
  else logState LevelError "drover: finalize job" (Some (ID row)) st.

(** One state change, with what is logged of it. *)
Definition record (now : Time) (ctx : Ctx) (row : JobRow) (op : S -> S * option error)
    (level : Level) (msg : string) (st : ClientState S) : ClientState S :=
  let '(s', err) := underCtx now ctx op (cStore st) in
  match err with
  | Some e => writeFailed row e (setStore s' st)
  | None => logState level msg (Some (ID row)) (setStore s' st)
  end.

(** Readings: 0 for the snooze or the record of the error, 1 for the retry, 2 for
    the default schedule, 3 when the store writes. *)
Definition dispose (pol : policy) (k : Z) (tick : nat -> Time) (ctx : Ctx) (row : JobRow)
    (jobErr : error) (st : ClientState S) : ClientState S :=
  let lease := MkLease (ID row) (Attempt row) in
  let '(outcome_, snooze) := classifyOutcome jobErr in
  match outcome_ with
  | outcomeSnoozed =>
      let runAt := tick 0%nat + snooze in
      record (tick 3%nat) ctx row (drvMarkSnoozed (tick 3%nat) lease runAt)
        LevelInfo "drover: job snoozed" st
  | _ =>
      match marshalAttemptError {| aeAttempt := Attempt row; aeAt := tick 0%nat;
                                   aeError := errorText jobErr; aeTrace := stackOf jobErr |} with
      | Err _ => logState LevelError "drover: encode job error" (Some (ID row)) st
      | Ok detail =>
          if bool_decide (outcome_ = outcomeCancelled) then
            record (tick 3%nat) ctx row (drvMarkCancelled (tick 3%nat) lease (Some detail))
              LevelWarn "drover: job cancelled" st
          else if MaxAttempts row <=? Attempt row then
            record (tick 3%nat) ctx row (drvMarkDead (tick 3%nat) lease (Some detail))
              LevelError "drover: job dead" st
          else
            let at_ := retryAt k (policyFn pol k (tick 2%nat)) (rowFromDriver row)
                         (tick 1%nat) (tick 2%nat) in
            record (tick 3%nat) ctx row (drvMarkRetryable (tick 3%nat) lease at_ (Some detail))
              LevelWarn "drover: job failed, retry scheduled" st
      end
  end.

(** The end of [runJob], once the handler has returned [err]: the outcome is written and the
    lease tracked no more.  Reading 4: when the finalizing context starts. *)
Definition finishJob (c : Client) (k : Z) (tick : nat -> Time) (jobCtx : Ctx) (row : JobRow)
    (err : option error) (st : ClientState S) : ClientState S :=
  let lease := MkLease (ID row) (Attempt row) in
  let ctx := finalizeContext c (tick 4%nat) jobCtx in
  let st' :=
    match err with
    | Some e => dispose (retryPolicy c) k tick ctx row e st
    | None =>
        let '(s', werr) := underCtx (tick 3%nat) ctx (drvMarkCompleted (tick 3%nat) lease)
                             (cStore st) in
        match werr with
        | Some e => writeFailed row e (setStore s' st)
        | None => setStore s' st
        end
    end in
  setInflight (remove lease (cInflight st')) st'.

Definition runJob (c : Client) (stack : string) (k : Z) (tick : nat -> Time)
    (others : ClientState S -> ClientState S) (jobCtx : Ctx) (row : JobRow) (st : ClientState S)
    : ClientState S :=
  let lease := MkLease (ID row) (Attempt row) in
  let st1 := setInflight (add lease (cInflight st)) st in
  let '(env, err) := execute stack (chain c) jobCtx (rowFromDriver row) (cEnv st1) in
  finishJob c k tick jobCtx row err (others (setEnv env st1)).

(** [requeue] of a lease, at the reading 0 for the record and 1 for the schedule. *)
Definition requeue (tick : nat -> Time) (ctx : Ctx) (lease : Lease) (s : S) : S * option error :=
  match marshalAttemptError {| aeAttempt := leaseAttempt lease; aeAt := tick 0%nat;
                               aeError := sentinelText ErrShutdownRequeued; aeTrace := "" |} with
  | Err e => (s, Some (Wrapf ("drover: encode requeue reason for job " +:+ itoa (leaseID lease)
                              +:+ ": " +:+ errorText e) [e]))
  | Ok detail =>
      underCtx (tick 1%nat) ctx (drvMarkRetryable (tick 1%nat) lease (tick 1%nat) (Some detail)) s
  end.

(** ** The rescue sweep *)

Definition rescueBatch : Z := 100.
Definition rescueRounds : nat := 10.

Definition errLeaseExpired : error := Sent ErrLeaseExpired.

(** The rows of one round, each disposed of under a context without
    cancellation; the draws and readings of a row are found by its id. *)
Definition disposeAll (pol : policy) (k : Z -> Z) (tick : Z -> nat -> Time) (rows : list JobRow)
    (st : ClientState S) : ClientState S :=
  foldl (fun st row =>
    dispose pol (k (ID row)) (tick (ID row)) Background row errLeaseExpired
      (logState LevelWarn "drover: job lease expired, worker presumed dead" (Some (ID row)) st))
    st rows.

(** [round i] is when round [i] fetches, [stopped i] whether the sweep's context
    has ended when round [i] is over. *)
Fixpoint sweepLoop (c : Client) (k : Z -> Z) (tick : Z -> nat -> Time) (round : nat -> Time)
    (stopped : nat -> bool) (left_ i : nat) (rescued : nat) (st : ClientState S)
    : ClientState S * nat * option error :=
  match left_ with
  | O => (st, rescued, None)
  | Datatypes.S left' =>
      let '(s', r) := drvFetchExpired (round i) (leaseDuration c) rescueBatch (cStore st) in
      match r with
      | Err e => (setStore s' st, rescued, Some e)
      | Ok rows =>
          let st' := disposeAll (retryPolicy c) k tick rows (setStore s' st) in
          let rescued' := (rescued + length rows)%nat in
          if (Z.of_nat (length rows) <? rescueBatch) || stopped i then (st', rescued', None)
          else sweepLoop c k tick round stopped left' (Datatypes.S i) rescued' st'
      end
  end.

Definition rescueOnce (c : Client) (k : Z -> Z) (tick : Z -> nat -> Time) (round : nat -> Time)
    (stopped : nat -> bool) (st : ClientState S) : ClientState S * nat * option error :=
  sweepLoop c k tick round stopped rescueRounds 0 0 st.

(** One tick of the rescuer, with the draws and readings of its sweep, and whether
    the loop's context has ended when the sweep returns. *)
Record sweepTick := MkSweep {
  swDraw : Z -> Z;
  swTick : Z -> nat -> Time;
  swRound : nat -> Time;
  swStopped : nat -> bool;
  swEnded : bool
}.

(** [rescueLoop] over the ticks that arrive before its context ends. *)
Fixpoint rescueLoop (c : Client) (ticks : list sweepTick) (st : ClientState S) : ClientState S :=
  match ticks with
  | [] => st
  | t :: rest =>
      let '(st', _, err) := rescueOnce c (swDraw t) (swTick t) (swRound t) (swStopped t) st in
      match err with
      | None => rescueLoop c rest st'
      | Some _ =>
          if swEnded t then st'
          else rescueLoop c rest (logState LevelError "drover: rescue expired jobs" None st')
      end
  end.
End Loop.

(** ** What becomes of a row *)

Definition detailOf (a : AttemptError) : json := JObject (attemptFields a).

(** The error an attempt of [row] leaves in its history. *)
Definition failureDetail (tick : nat -> Time) (row : JobRow) (e : error) : json :=
  detailOf {| aeAttempt := Attempt row; aeAt := tick 0%nat; aeError := errorText e;
              aeTrace := stackOf e |}.

(** The disposition the documentation of [dispose] promises, on the stored row [r], as far as
    the store keeps instants and documents. *)
Definition fate S `{Driver S} (pol : policy) (k : Z) (tick : nat -> Time) (row : JobRow) (err : option error)
    (r : JobRow) : JobRow :=
  match err with
  | None => completedRow (drvTime S (tick 3%nat)) r
  | Some e =>
      match classifyOutcome e with
      | (outcomeSnoozed, d) => snoozedRow (drvTime S (tick 0%nat + d)) r
      | (outcomeCancelled, _) =>
          finalizedRow StateCancelled (drvTime S (tick 3%nat)) (drvDoc S (failureDetail tick row e)) r
      | (outcomeFailed, _) =>
          if MaxAttempts row <=? Attempt row
          then finalizedRow StateDead (drvTime S (tick 3%nat)) (drvDoc S (failureDetail tick row e)) r
          else retryRow (drvTime S (retryAt k (policyFn pol k (tick 2%nat)) (rowFromDriver row)
                                            (tick 1%nat) (tick 2%nat)))
                        (drvDoc S (failureDetail tick row e)) r
      end
  end.

(** The held row is changed by [f] and no other; nothing is when a lease the store gave out is gone. *)
Definition settles {S} `{Driver S} (f : JobRow -> JobRow) (l : Lease) (s s' : S) : Prop :=
  (forall r, leaseHeld s l r -> onlyRow s s' (leaseID l) (f r)) /\
  ((forall r, ~ leaseHeld s l r) -> int32Attempt (leaseAttempt l) -> s' = s).

Lemma marshal_detail a :
  jsonYearOk (aeAt a) = true -> marshalAttemptError a = Ok (Raw (detailOf a)).
Proof. intros H. unfold detailOf, marshalAttemptError. by rewrite H. Qed.

(** What a state change touches of the client: the store and the log. *)
Definition onlyLogged {S} (st st' : ClientState S) : Prop :=
  cInflight st' = cInflight st /\ cWake st' = cWake st /\
  clock (world (cEnv st')) = clock (world (cEnv st)) /\ metrics (cEnv st') = metrics (cEnv st).

#[export] Instance onlyLogged_preorder S : PreOrder (@onlyLogged S).
Proof. split; [by intros st | intros a b c; unfold onlyLogged; intuition congruence]. Qed.

Lemma logState_only {S} l msg job (st : ClientState S) : onlyLogged st (logState l msg job st).
Proof. done. Qed.

Section Settle.
Context {S : Type} `{Laws : DriverLaws S}.

Lemma writeFailed_logged row e (st : ClientState S) :
  onlyLogged st (writeFailed row e st) /\ cStore (writeFailed row e st) = cStore st.
Proof. unfold writeFailed. by destruct (lostOwnership e). Qed.

Lemma record_settles now ctx row op level msg f l (st : ClientState S) :
  underCtx now ctx op (cStore st) = op (cStore st) -> markSpec f l (cStore st) (op (cStore st)) ->
  drvWf (op (cStore st)).1 ->
  let st' := record now ctx row op level msg st in
  settles f l (cStore st) (cStore st') /\ drvWf (cStore st') /\ onlyLogged st st'.
Proof.
  intros Hc [Hheld Hnot] Hwf st'. unfold st', record. rewrite Hc.
  destruct (op (cStore st)) as [s' err] eqn:E. simpl in *. destruct err as [e|].
  - destruct (writeFailed_logged row e (setStore s' st)) as [Hl ->]. simpl. split_all; [|done|done].
    split; [intros r Hr; by destruct (Hheld r Hr)|]. intros Hn Ha. by destruct (Hnot Hn Ha).
  - simpl. split_all; [|done|done].
    split; [intros r Hr; by destruct (Hheld r Hr)|]. intros Hn Ha. by destruct (Hnot Hn Ha).
Qed.

Lemma dispose_settles pol k tick ctx row e (st : ClientState S) :
  drvWf (cStore st) -> ctxDone (tick 3%nat) ctx = false -> jsonYearOk (tick 0%nat) = true ->
  let st' := dispose pol k tick ctx row e st in
  settles (fate S pol k tick row (Some e)) (leaseOf row) (cStore st) (cStore st') /\
  drvWf (cStore st') /\ onlyLogged st st'.
Proof.
  intros Hwf Hc Hy st'. unfold st', dispose, fate.
  set (a := {| aeAttempt := Attempt row; aeAt := tick 0%nat; aeError := errorText e;
               aeTrace := stackOf e |}).
  assert (marshalAttemptError a = Ok (Raw (failureDetail tick row e))) as Hm by (by apply marshal_detail).
  rewrite Hm. destruct (classifyOutcome e) as [[] d]; simpl.
  - destruct (MaxAttempts row <=? Attempt row); apply record_settles; try (by apply underCtx_open).
    + apply markDead_law, Hwf.
    + apply markDead_wf, Hwf.
    + apply markRetryable_law, Hwf.
    + apply markRetryable_wf, Hwf.
  - apply record_settles; [by apply underCtx_open | apply markCancelled_law, Hwf | apply markCancelled_wf, Hwf].
  - apply record_settles; [by apply underCtx_open | apply markSnoozed_law, Hwf | apply markSnoozed_wf, Hwf].
Qed.

(** The finalizing context has ended neither by the handler's cancellation nor by
    its deadline. *)
Lemma finalizeContext_open c now jobCtx t :
  t < now + leaseDuration c -> ctxDone t (finalizeContext c now jobCtx) = false.
Proof. intros Hlt. unfold ctxDone. simpl. apply Z.leb_gt. lia. Qed.

(** The write of an outcome settles the job, and the lease is untracked. *)
Lemma finishJob_settles c k tick jobCtx row err (st : ClientState S) :
  drvWf (cStore st) -> jsonYearOk (tick 0%nat) = true -> tick 3%nat < tick 4%nat + leaseDuration c ->
  let st' := finishJob c k tick jobCtx row err st in
  settles (fate S (retryPolicy c) k tick row err) (leaseOf row) (cStore st) (cStore st') /\
  drvWf (cStore st') /\ cInflight st' = remove (leaseOf row) (cInflight st).
Proof.
  intros Hwf Hy Ht st'. unfold st', finishJob. fold (leaseOf row).
  pose proof (finalizeContext_open c (tick 4%nat) jobCtx _ Ht) as Hc.
  set (ctx := finalizeContext c (tick 4%nat) jobCtx) in *. cbn [cStore cInflight setInflight].
  destruct err as [e|].
  - destruct (dispose_settles (retryPolicy c) k tick ctx row e st Hwf Hc Hy) as (? & ? & Hi & _).
    by rewrite Hi.
  - rewrite underCtx_open by done.
    destruct (markCompleted_law (tick 3%nat) (leaseOf row) (cStore st) Hwf) as [Hheld Hnot].
    pose proof (markCompleted_wf (tick 3%nat) (leaseOf row) (cStore st) Hwf) as Hwf'.
    destruct (drvMarkCompleted (tick 3%nat) (leaseOf row) (cStore st)) as [s' werr]. simpl in *.
    assert (settles (completedRow (drvTime S (tick 3%nat))) (leaseOf row) (cStore st) s') as Hset.
    { split; [intros r Hr; by destruct (Hheld r Hr)|]. intros Hn Ha. by destruct (Hnot Hn Ha). }
    destruct werr as [e|]; [|done].
    destruct (writeFailed_logged row e (setStore s' st)) as [(Hi & _) ->]. by rewrite Hi.
Qed.

(** A write that does not go out, because its context has ended or its error cannot be encoded,
    leaves the store alone. *)
Lemma record_safe now ctx row op level msg f l (st : ClientState S) :
  drvWf (cStore st) -> markSpec f l (cStore st) (op (cStore st)) -> drvWf (op (cStore st)).1 ->
  let st' := record now ctx row op level msg st in
  (cStore st' = cStore st \/ settles f l (cStore st) (cStore st')) /\
  drvWf (cStore st') /\ cInflight st' = cInflight st.
Proof.
  intros Hwf Hm Hw st'. destruct (underCtx_cases now ctx op (cStore st)) as [Hc|Hc].
  2: { unfold st', record. rewrite Hc.
       destruct (writeFailed_logged row (ctxErr ctx) (setStore (cStore st) st)) as [(-> & _) ->]. auto. }
  - destruct (record_settles now ctx row op level msg f l st Hc Hm Hw) as (Hs & Hw' & Hi & _).
    split_all; [by right | done | done].
Qed.

Lemma dispose_safe pol k tick ctx row e (st : ClientState S) :
  drvWf (cStore st) ->
  let st' := dispose pol k tick ctx row e st in
  (cStore st' = cStore st \/
   settles (fate S pol k tick row (Some e)) (leaseOf row) (cStore st) (cStore st')) /\
  drvWf (cStore st') /\ cInflight st' = cInflight st.
Proof.
  intros Hwf st'. unfold st', dispose, fate.
  set (a := {| aeAttempt := Attempt row; aeAt := tick 0%nat; aeError := errorText e;
               aeTrace := stackOf e |}).
  destruct (marshalAttemptError a) as [detail|err] eqn:Hm.
  - assert (detail = Raw (failureDetail tick row e)) as ->.
    { unfold marshalAttemptError in Hm. destruct (jsonYearOk (aeAt a)); [|done]. by injection Hm as <-. }
    destruct (classifyOutcome e) as [[] d]; simpl.
    + destruct (MaxAttempts row <=? Attempt row); apply record_safe; try done.
      * apply markDead_law, Hwf.
      * apply markDead_wf, Hwf.
      * apply markRetryable_law, Hwf.
      * apply markRetryable_wf, Hwf.
    + apply record_safe; [done | apply markCancelled_law, Hwf | apply markCancelled_wf, Hwf].
    + apply record_safe; [done | apply markSnoozed_law, Hwf | apply markSnoozed_wf, Hwf].
  - destruct (classifyOutcome e) as [[] d]; simpl; [auto..|].
    apply record_safe; [done | apply markSnoozed_law, Hwf | apply markSnoozed_wf, Hwf].
Qed.

Lemma finishJob_safe c k tick jobCtx row err (st : ClientState S) :
  drvWf (cStore st) ->
  let st' := finishJob c k tick jobCtx row err st in
  (cStore st' = cStore st \/
   settles (fate S (retryPolicy c) k tick row err) (leaseOf row) (cStore st) (cStore st')) /\
  drvWf (cStore st') /\ cInflight st' = remove (leaseOf row) (cInflight st).
Proof.
  intros Hwf st'. unfold st', finishJob. fold (leaseOf row).
  set (ctx := finalizeContext c (tick 4%nat) jobCtx) in *. cbn [cStore cInflight setInflight].
  destruct err as [e|].
  - destruct (dispose_safe (retryPolicy c) k tick ctx row e st Hwf) as (? & ? & Hi). by rewrite Hi.
  - destruct (record_safe (tick 3%nat) ctx row (drvMarkCompleted (tick 3%nat) (leaseOf row)) LevelInfo ""
      (completedRow (drvTime S (tick 3%nat))) (leaseOf row) st) as (Hs & Hw & Hi);
      [done | apply markCompleted_law, Hwf | apply markCompleted_wf, Hwf|].
    unfold record in Hs, Hw, Hi. destruct (underCtx _ _ _ _) as [s' [e|]]; by rewrite ?Hi.
Qed.

(** Recording an outcome touches nothing of what the handlers keep. *)
Lemma record_locals now ctx row op level msg (st : ClientState S) :
  locals (cEnv (record now ctx row op level msg st)) = locals (cEnv st).
Proof.
  unfold record, writeFailed. destruct (underCtx _ _ _ _) as [s' [e|]]; [|done]. by destruct (lostOwnership e).
Qed.

Lemma finishJob_locals c k tick jobCtx row err (st : ClientState S) :
  locals (cEnv (finishJob c k tick jobCtx row err st)) = locals (cEnv st).
Proof.
  unfold finishJob. cbn [cEnv setInflight]. destruct err as [e|].
  - unfold dispose. repeat casematch; try done; apply record_locals.
  - destruct (underCtx _ _ _ _) as [s' [e|]]; [|done]. unfold writeFailed. by destruct (lostOwnership e).
Qed.
End Settle.

(** ** Properties *)

(** C8: the outcome of a job is recorded, whatever happened to its handler's context and
    whatever other goroutines did meanwhile.  If the lease is still held when the
    handler returns, that row becomes what the verdict asks for (completed, snoozed, cancelled,
    dead on its last attempt, retried otherwise) and no other row changes; if the lease was lost,
    the store is left alone.  Either way the lease is tracked no more. *)
Theorem runJob_records_outcome {S} `{DriverLaws S} c stack k tick others jobCtx row (st : ClientState S) :
  let e0 := execute stack (chain c) jobCtx row (cEnv st) in
  let st2 := others (setEnv e0.1 (setInflight (add (leaseOf row) (cInflight st)) st)) in
  drvWf (cStore st2) -> jsonYearOk (tick 0%nat) = true ->
  tick 3%nat < tick 4%nat + leaseDuration c ->
  let st' := runJob c stack k tick others jobCtx row st in
  settles (fate S (retryPolicy c) k tick row e0.2) (leaseOf row) (cStore st2) (cStore st') /\
  drvWf (cStore st') /\ ~ tracked (leaseOf row) (cInflight st') /\
  (forall l, l <> leaseOf row -> (tracked l (cInflight st') <-> tracked l (cInflight st2))).
Proof.
  intros e0 st2 Hwf Hy Ht st'. unfold st', runJob. rewrite rowFromDriver_id.
  change (cEnv (setInflight (add (MkLease (ID row) (Attempt row)) (cInflight st)) st)) with (cEnv st).
  fold e0. destruct e0 as [env err] eqn:E0. simpl in st2. fold (leaseOf row). fold st2.
  destruct (finishJob_settles c k tick jobCtx row err st2 Hwf Hy Ht) as (Hs & Hw & Hi).
  rewrite Hi. split_all; [done|done| |].
  - rewrite tracked_remove. tauto.
  - intros l Hl. rewrite tracked_remove. tauto.
Qed.

(** *** The sweep *)

Section Rescue.
Context {S : Type} `{Laws : DriverLaws S}.
Variables (pol : policy) (k : Z -> Z) (tick : Z -> nat -> Time).
Hypothesis years : forall id, jsonYearOk (tick id 0%nat) = true.

(** What a rescued row becomes. *)
Definition rescuedRow (r : JobRow) : JobRow :=
  fate S pol (k (ID r)) (tick (ID r)) r (Some errLeaseExpired) r.

Lemma disposeAll_rescues rows (st : ClientState S) :
  drvWf (cStore st) -> NoDup (ID <$> rows) ->
  (forall r, r ∈ rows -> rowAt (cStore st) (ID r) = Some r /\ State r = StateRunning) ->
  let st' := disposeAll pol k tick rows st in
  drvWf (cStore st') /\ onlyLogged st st' /\
  (forall r, r ∈ rows -> rowAt (cStore st') (ID r) = Some (rescuedRow r)) /\
  (forall id, id ∉ ID <$> rows -> rowAt (cStore st') id = rowAt (cStore st) id).
Proof.
  revert st. induction rows as [|row rows IH]; intros st Hwf Hnd Hin; simpl.
  { split_all; try done. by intros r ?%not_elem_of_nil. }
  apply NoDup_cons in Hnd as [Hni Hnd].
  set (st0 := logState _ _ _ st).
  destruct (dispose_settles pol (k (ID row)) (tick (ID row)) Background row errLeaseExpired st0)
    as ([Hheld _] & Hwf1 & Hlog1); [done|done|apply years|].
  set (st1 := dispose _ _ _ _ row _ st0) in *.
  destruct (Hin row) as [Hrow Hrun]; [left|].
  destruct (Hheld row) as [Hat Hoth]; [done|]. simpl in Hat, Hoth.
  destruct (IH st1) as (Hwf2 & Hlog2 & Hrows & Hrest); [done|done| |].
  { intros r Hr. destruct (Hin r) as [? ?]; [by right|]. rewrite Hoth; [done|].
    intros E. apply Hni. rewrite <- E. apply list_elem_of_fmap. eauto. }
  split_all.
  - done.
  - trans st0; [apply logState_only|]. by trans st1.
  - intros r Hr. apply elem_of_cons in Hr as [->|Hr]; [|by apply Hrows].
    rewrite Hrest by done. exact Hat.
  - intros id Hid. apply not_elem_of_cons in Hid as [Hne Hid]. rewrite Hrest by done. by apply Hoth.
Qed.

(** What a sweep may have done between two stores: the rows [ids], running on a
    lease that had lapsed when one of the rounds fetched, are rescued, and nothing else changed. *)
Definition sweeps (round : nat -> Time) (ids : list Z) (s s' : S) : Prop :=
  NoDup ids /\
  (forall id, id ∈ ids -> exists r r' t, rowAt s id = Some r /\ State r = StateRunning /\
     LeasedUntil r = Some t /\ (exists i, t <= drvTime S (round i)) /\ rowAt s' id = Some r' /\
     State r' = (if MaxAttempts r <=? Attempt r then StateDead else StateRetryable) /\
     Attempt r' = Attempt r /\ LeasedUntil r' = None) /\
  (forall id, id ∉ ids -> rowAt s' id = rowAt s id).

Lemma rescuedRow_state r :
  State (rescuedRow r) = (if MaxAttempts r <=? Attempt r then StateDead else StateRetryable) /\
  Attempt (rescuedRow r) = Attempt r /\ LeasedUntil (rescuedRow r) = None.
Proof.
  unfold rescuedRow, fate. simpl. destruct (MaxAttempts r <=? Attempt r); simpl;
    unfold appendDetail; (split; [|split]); try done; by repeat casematch.
Qed.

Lemma sweeps_refl round s : sweeps round [] s s.
Proof. split; [constructor|]. split; [by intros id ?%not_elem_of_nil | done]. Qed.

Lemma sweeps_app round ids1 ids2 s1 s2 s3 :
  sweeps round ids1 s1 s2 -> sweeps round ids2 s2 s3 -> sweeps round (ids1 ++ ids2) s1 s3.
Proof.
  intros (Hn1 & H1 & U1) (Hn2 & H2 & U2).
  assert (forall id, id ∈ ids1 -> id ∉ ids2) as Hd.
  { intros id Hi1 Hi2. destruct (H1 id Hi1) as (r & r' & t & _ & _ & _ & _ & Hr' & Hs & _).
    destruct (H2 id Hi2) as (r2 & _ & _ & Hr2 & Hrun & _). rewrite Hr' in Hr2. simplify_eq.
    rewrite Hs in Hrun. by destruct (_ <=? _). }
  unfold sweeps. split_all.
  - apply NoDup_app. split_all; [done | by intros id ?; apply Hd | done].
  - intros id Hid. apply elem_of_app in Hid as [Hi|Hi].
    + rewrite (U2 id) by auto. by apply H1.
    + rewrite <- (U1 id); [by apply H2|]. intros Hi1. by apply (Hd id).
  - intros id Hid. apply not_elem_of_app in Hid as [? ?]. by rewrite U2, U1.
Qed.
End Rescue.

Lemma sweepLoop_sweeps {S} `{Laws : DriverLaws S} c k tick round stopped left_ i n (st : ClientState S) :
  (forall id, jsonYearOk (tick id 0%nat) = true) -> drvWf (cStore st) ->
  let '(st', n', err) := sweepLoop c k tick round stopped left_ i n st in
  exists ids, sweeps round ids (cStore st) (cStore st') /\ n' = (n + length ids)%nat /\
    drvWf (cStore st') /\ onlyLogged st st'.
Proof.
  intros Hy. revert i n st. induction left_ as [|left_ IH]; intros i n st Hwf; simpl.
  { exists []. split_all; [apply sweeps_refl | simpl; lia | done | done]. }
  destruct (drvFetchExpired _ _ _ _) as [s1 [rows|e]] eqn:E.
  2:{ apply fetchExpired_err in E; [|done]. subst s1. exists []. simpl.
      split_all; [apply sweeps_refl | lia | done | done]. }
  destruct (fetchExpired_law _ _ _ _ _ _ Hwf E) as (Hwf1 & Hnd & Hin & Hout).
  destruct (disposeAll_rescues (retryPolicy c) k tick Hy rows (setStore s1 st)) as (Hwf2 & Hlog & Hr & Hu);
    [done|done| |].
  { intros r Hr. destruct (Hin r Hr) as (? & ? & _). done. }
  set (st1 := disposeAll _ _ _ rows (setStore s1 st)) in *.
  assert (sweeps round (ID <$> rows) (cStore st) (cStore st1)) as Hsw.
  { split; [done|]. split.
    - intros id (r & -> & Hrin)%list_elem_of_fmap.
      destruct (Hin r Hrin) as (_ & _ & _ & r0 & t & Hr0 & Hrun0 & Ht & Hle' & Heq).
      destruct (rescuedRow_state (retryPolicy c) k tick r) as (Hst & Hat & Hle).
      exists r0, (rescuedRow (retryPolicy c) k tick r), t. rewrite (Hr r Hrin).
      split_all; try done; [by exists i | rewrite Heq in Hst, Hat |- *; done ..].
    - intros id Hid. rewrite Hu by done. by apply Hout. }
  destruct ((Z.of_nat (length rows) <? rescueBatch) || stopped i).
  - exists (ID <$> rows). rewrite length_fmap. split_all; done.
  - specialize (IH (Datatypes.S i) (n + length rows)%nat st1 Hwf2).
    destruct (sweepLoop c k tick round stopped left_ _ _ st1) as [[st' n'] err].
    destruct IH as (ids & Hs & -> & Hw & Hl). exists ((ID <$> rows) ++ ids).
    rewrite length_app, length_fmap. split_all; [by eapply sweeps_app | lia | done |].
    trans st1; [|done]. exact Hlog.
Qed.

(** C15: a sweep rescues and does nothing else.  Every row a sweep counts was running on a
    lease that had lapsed, and is now retryable, or dead when that was its last attempt, with its attempt kept and
    its lease cleared; every other row is as before, also when a fetch fails midway and the
    sweep stops with what it rescued so far recorded. *)
Theorem rescueOnce_sweeps {S} `{DriverLaws S} c k tick round stopped (st : ClientState S) :
  (forall id, jsonYearOk (tick id 0%nat) = true) -> drvWf (cStore st) ->
  let '(st', rescued, err) := rescueOnce c k tick round stopped st in
  exists ids, sweeps round ids (cStore st) (cStore st') /\ rescued = length ids /\
    drvWf (cStore st') /\ cInflight st' = cInflight st.
Proof.
  intros Hy Hwf. unfold rescueOnce.
  pose proof (sweepLoop_sweeps c k tick round stopped rescueRounds 0 0 st Hy Hwf) as Hl.
  destruct (sweepLoop _ _ _ _ _ _ _ _ st) as [[st' n] err].
  destruct Hl as (ids & Hs & -> & Hw & Hi & _). by exists ids.
Qed.

(** ** Witnesses *)

Definition demoConfig : Config :=
  {| cfgWorkers := None; cfgPollInterval := 0; cfgNotifyWakeup := false; cfgRetryPolicy := None;
     cfgMiddleware := []; cfgQueues := ∅; cfgConcurrency := 2; cfgLeaseDuration := 0;
     cfgHeartbeatInterval := 0; cfgRescueInterval := 0; cfgMetricsRegistry := None; cfgStatsInterval := 0; cfgOpsAddr := "";
     cfgPeriodicJobs := [] |}.

Definition demoClient : Client :=
  {| workers := NewWorkers; pollInterval := Second; notifyWakeup := false;
     retryPolicy := Exponential; leaseDuration := Minute; heartbeatInterval := 20 * Second;
     rescueInterval := Minute; concurrency := 2; statsInterval := 15 * Second; registry := droverCollectors; opsAddr := "";
     clientMetrics := newCollectors 2; queues := [{| qname := "default"; qweight := 1 |}];
     chain := clientChain "stack" (fun _ => true) NewWorkers []; periodic := [] |}.

Example demoClient_built :
  newClient "stack" (fun _ => true) registerByName demoConfig (MkWorld 0 []) = Returns (demoClient, MkWorld 0 []).
Proof. reflexivity. Qed.

Definition demoState : ClientState MemDriver :=
  MkState witnessStore newInflightSet false (MkEnv (MkWorld 0 []) (newCollectors 2) ∅).

Definition demoTick (i : nat) : Time := 2000 + Z.of_nat i.

(** A claimed job of a kind nobody registered: its second attempt fails and is
    retried. *)
Lemma runJob_records_outcome_witness :
  let row := witnessRow 2 in
  let e0 := execute "stack" (chain demoClient) Background row (cEnv demoState) in
  let st2 := id (setEnv e0.1 (setInflight (add (leaseOf row) (cInflight demoState)) demoState)) in
  let st' := runJob demoClient "stack" 7 demoTick id Background row demoState in
  settles (fate MemDriver (retryPolicy demoClient) 7 demoTick row e0.2) (leaseOf row)
    (cStore st2) (cStore st') /\
  drvWf (cStore st') /\ ~ tracked (leaseOf row) (cInflight st') /\
  (forall l, l <> leaseOf row -> (tracked l (cInflight st') <-> tracked l (cInflight st2))).
Proof.
  exact (runJob_records_outcome demoClient "stack" 7 demoTick id Background (witnessRow 2) demoState
           witnessStore_wf eq_refl eq_refl).
Defined.

Lemma rescueOnce_sweeps_witness :
  let '(st', rescued, err) := rescueOnce demoClient (fun _ => 7) (fun _ => demoTick)
    (fun i => 2000 + Z.of_nat i) (fun _ => false) demoState in
  exists ids, sweeps (fun i => 2000 + Z.of_nat i) ids (cStore demoState) (cStore st') /\ rescued = length ids /\
    drvWf (cStore st') /\ cInflight st' = cInflight demoState.
Proof.
  apply (rescueOnce_sweeps demoClient (fun _ => 7) (fun _ => demoTick)
    (fun i => 2000 + Z.of_nat i) (fun _ => false) demoState).
  - intros id. vm_compute. reflexivity.
  - exact witnessStore_wf.
Defined.
