(* ===== verification/Scheduler.v ===== *)
(** * Scheduler: enqueueing periodic jobs

    Models scheduler.go.  The inner loop of [enqueueDuePeriodic] runs until the next
    fire lies in the future; it takes a bound on its turns, and reaching the bound is the
    result [None].  Whether the fetch context has ended is asked of [stop i fire],
    before and after the insert of the fire of entry [i].  A turn of the leader loop is one
    step; what the lock answers and the clock says is its input. *)

From S2P Require Import Prelude GoTime GoError GoRuntime DriverSpec Metrics Middleware Inflight.
From S2P Require Import Queues Enqueue Cron Client TimeText.
From S2P Require Import Memdriver MemdriverFacts MemdriverProps.

Definition periodicUniqueKey (id : string) (fire : Time) : string :=
  id +:+ "/" +:+ formatRFC3339Nano fire.

(** The options of one tick. *)
Definition tickOpts (job : PeriodicJob) (fire : Time) : InsertOpts :=
  {| optQueue := match pjOpts job with Some o => optQueue o | None => "" end;
     optScheduledAt := fire;
     optUniqueKey := periodicUniqueKey (pjID job) fire |}.

Section Scheduler.
Context {S : Type} `{Ops : Driver S}.
Variable (c : Client) (notifier : option (option error)) (stop : nat -> Time -> bool).

(** [true]: the watermark advances. *)
Definition insertPeriodicTick (now : Time) (i : nat) (entry : periodicEntry) (fire : Time)
    (st : ClientState S) : ClientState S * bool :=
  let '(st', r) := clientInsert (notifyWakeup c) notifier now (pjArgs (peJob entry))
                     (Some (tickOpts (peJob entry) fire)) st in
  match r with
  | Ok _ => (st', true)
  | Err e =>
      if stop i fire then (st', false)
      else if errorsIs e ErrDuplicateJob
      then (logState LevelDebug "drover: skipped duplicate periodic tick" None st', true)
      else (logState LevelError "drover: enqueue periodic job" None st', false)
  end.

(** How the loop over one entry's fires ends: with the next fire, or by an early
    return. *)
Inductive ticks := Ticked (st : ClientState S) (last fire : Time) | Stopped (st : ClientState S) (last : Time).

Fixpoint tickLoop (turns : nat) (now : Time) (i : nat) (entry : periodicEntry) (last fire : Time)
    (st : ClientState S) : option ticks :=
  if negb (IsZero fire) && negb (After fire now) then
    match turns with
    | O => None
    | Datatypes.S turns' =>
        if stop i fire then Some (Stopped st last)
        else
          let '(st', ok) := insertPeriodicTick now i entry fire st in
          if ok : bool
          then tickLoop turns' now i entry fire (Next (peSchedule entry) fire) st'
          else Some (Ticked st' last fire)
    end
  else Some (Ticked st last fire).

(** The loop over the entries, with the watermarks it leaves and the soonest
    next fire; the zero time stands for none. *)
Fixpoint entryLoop (turns : nat) (now : Time) (i : nat) (entries : list periodicEntry)
    (lasts : list Time) (soonest : Time) (st : ClientState S)
    : option (ClientState S * list Time * option Time) :=
  match entries, lasts with
  | entry :: entries', last :: lasts' =>
      match tickLoop turns now i entry last (Next (peSchedule entry) last) st with
      | None => None
      | Some (Stopped st' last') => Some (st', last' :: lasts', None)
      | Some (Ticked st' last' fire) =>
          let soonest' := if IsZero fire then soonest
                          else if IsZero soonest || Before fire soonest then fire else soonest in
          match entryLoop turns now (Datatypes.S i) entries' lasts' soonest' st' with
          | None => None
          | Some (st'', lasts'', s) => Some (st'', last' :: lasts'', s)
          end
      end
  | _, _ => Some (st, lasts, Some soonest)
  end.

(** The store after the turn, the watermarks, and how long to wait. *)
Definition enqueueDuePeriodic (turns : nat) (now : Time) (lastFire : list Time) (st : ClientState S)
    : option (ClientState S * list Time * Duration) :=
  match entryLoop turns now 0 (periodic c) lastFire zeroTime st with
  | None => None
  | Some (st', lasts, None) => Some (st', lasts, 0)
  | Some (st', lasts, Some soonest) =>
      Some (st', lasts, if IsZero soonest then pollInterval c else Sub soonest now)
  end.

(** ** The leader loop *)

Inductive lockAnswer := LockErr (e : error) | LockHeld | LockFree.

Record schedState := MkSched { wasLeader : bool; lastFire : list Time }.

Definition schedInit : schedState := MkSched false (replicate (length (periodic c)) zeroTime).

Definition loseLeadership (ss : schedState) (st : ClientState S) : schedState * ClientState S :=
  if wasLeader ss
  then (MkSched false (lastFire ss),
        logState LevelInfo "drover: lost periodic scheduler leadership" None st)
  else (ss, st).

(** One turn: [gained] and [now] are its two clock readings; a driver without a
    locker always answers [LockHeld]. *)
Definition scheduleTurn (turns : nat) (answer : lockAnswer) (gained now : Time)
    (ss : schedState) (st : ClientState S) : option (schedState * ClientState S * Duration) :=
  match answer with
  | LockErr _ =>
      let '(ss', st') := loseLeadership ss
        (logState LevelError "drover: acquire periodic scheduler lock" None st) in
      Some (ss', st', pollInterval c)
  | LockFree =>
      let '(ss', st') := loseLeadership ss st in Some (ss', st', pollInterval c)
  | LockHeld =>
      let '(lasts, st1) :=
        if wasLeader ss then (lastFire ss, st)
        else (replicate (length (lastFire ss)) gained,
              logState LevelInfo "drover: became periodic scheduler leader" None st) in
      match enqueueDuePeriodic turns now lasts st1 with
      | None => None
      | Some (st', lasts', wait) => Some (MkSched true lasts', st', wait)
      end
  end.

(** [waitFetch] sleeps for a non-negative duration. *)
Definition waitFetch (d : Duration) : Duration := if d <? 0 then 0 else d.

(** [schedulePeriodic] over the turns it takes before its context ends: what the lock answers, and
    how late after the wait and after each other the two clock readings of the turn are; the
    wait of each turn carries the clock to the next. *)
Fixpoint schedulePeriodic (turns : nat) (answers : list (lockAnswer * Duration * Duration))
    (clock : Time) (ss : schedState) (st : ClientState S) : option (schedState * ClientState S) :=
  match answers with
  | [] => Some (ss, st)
  | (answer, late, between) :: rest =>
      let gained := clock + late in
      let now := gained + between in
      match scheduleTurn turns answer gained now ss st with
      | None => None
      | Some (ss', st', wait) => schedulePeriodic turns rest (now + waitFetch wait) ss' st'
      end
  end.
End Scheduler.

Arguments Ticked {S} _ _ _.
Arguments Stopped {S} _ _.

(** ** Fires *)

(** The fires after [a] up to [b], at most [n] of them. *)
Fixpoint firesFrom (n : nat) (s : Schedule) (fire b : Time) : list Time :=
  match n with
  | O => []
  | Datatypes.S n' =>
      if negb (IsZero fire) && negb (After fire b)
      then fire :: firesFrom n' s (Next s fire) b
      else []
  end.

Definition dueFires (s : Schedule) (a b : Time) : list Time :=
  firesFrom (Z.to_nat (b - a)) s (Next s a) b.

(** The schedule moves on from every instant of [[a, b]] its fires pass. *)
Definition advances (s : Schedule) (a b : Time) : Prop :=
  forall t, a <= t <= b -> Next s t = zeroTime \/ t < Next s t.

Lemma every_advances d a b : 0 < d -> advances (EverySchedule d) a b.
Proof.
  intros Hd t _. right. simpl. unfold everyNext, everyLoop, truncate, After.
  destruct (Z.leb_spec d 0); [lia|]. pose proof (Z.mod_pos_bound t d Hd).
  destruct (Z.ltb_spec t (t - t mod d + d)); simpl; lia.
Qed.

Lemma firesFrom_sorted n s fire b a :
  advances s a b -> a < fire \/ fire = zeroTime ->
  StronglySorted Z.lt (firesFrom n s fire b) /\ Forall (fun f => a < f <= b /\ fire <= f) (firesFrom n s fire b).
Proof.
  intros Hadv. revert fire. induction n as [|n IH]; intros fire Hf; simpl; [split; constructor|].
  destruct (IsZero fire) eqn:Ez; simpl; [split; constructor|]. unfold IsZero in Ez. unbool.
  destruct (After fire b) eqn:Ea; simpl; [split; constructor|]. unfold After in Ea. unbool.
  assert (a < fire) as Haf by (destruct Hf as [|Hf]; [done | unfold zeroTime in Hf; lia]).
  destruct (Hadv fire) as [Hn|Hn]; [lia| |].
  - assert (firesFrom n s (Next s fire) b = []) as -> by (rewrite Hn; by destruct n).
    split; [repeat constructor | constructor; [lia|constructor]].
  - destruct (IH (Next s fire)) as [Hs Hall]; [left; lia|]. split.
    + constructor; [done|]. eapply Forall_impl; [exact Hall|]. simpl. lia.
    + constructor; [lia|]. eapply Forall_impl; [exact Hall|]. simpl. lia.
Qed.

Lemma dueFires_spec s a b :
  a <= b -> advances s a b ->
  StronglySorted Z.lt (dueFires s a b) /\ Forall (fun f => a < f <= b) (dueFires s a b).
Proof.
  intros Hab Hadv.
  destruct (firesFrom_sorted (Z.to_nat (b - a)) s (Next s a) b a Hadv) as [Hs Hall].
  - destruct (Hadv a) as [?|?]; [lia | by right | by left].
  - split; [done|]. eapply Forall_impl; [exact Hall|]. simpl. tauto.
Qed.

(** Whether the loop goes on with [fire]. *)
Definition goesOn (fire b : Time) : bool := negb (IsZero fire) && negb (After fire b).

Lemma goesOn_spec fire b : goesOn fire b = true <-> fire <> zeroTime /\ fire <= b.
Proof.
  unfold goesOn, IsZero, After, zeroTime.
  destruct (Z.eqb_spec fire 0), (Z.ltb_spec b fire); simpl; split; intros; try done; lia.
Qed.

Lemma advances_next s a b :
  a <= b -> advances s a b -> goesOn (Next s a) b = true ->
  a < Next s a <= b /\ advances s (Next s a) b.
Proof.
  intros Hab Hadv [Hz Hle]%goesOn_spec. destruct (Hadv a) as [?|Hlt]; [lia|done|].
  split; [lia|]. intros t Ht. apply Hadv. lia.
Qed.

(** Any bound of at least [b - a] turns lists the same fires. *)
Lemma firesFrom_enough n m s a b :
  a <= b -> advances s a b -> (Z.to_nat (b - a) <= n)%nat -> (Z.to_nat (b - a) <= m)%nat ->
  firesFrom n s (Next s a) b = firesFrom m s (Next s a) b.
Proof.
  revert m a. induction n as [|n IH]; intros [|m] a Hab Hadv Hn Hm; [done|..]; simpl;
    fold (goesOn (Next s a) b); destruct (goesOn (Next s a) b) eqn:E; try done;
    destruct (advances_next s a b Hab Hadv E) as [Hlt Hadv']; try lia.
  f_equal. apply IH; [lia | done | lia | lia].
Qed.

Lemma last_cons_fires (l : list Time) f d : List.last (f :: l) d = List.last l f.
Proof.
  revert f d. induction l as [|x l IH]; intros f d; [done|].
  change (List.last (f :: x :: l) d) with (List.last (x :: l) d). by rewrite !IH.
Qed.

Section Healthy.
Context {S : Type} `{Ops : Driver S}.
Variable (c : Client) (notifier : option (option error)).
Let go := insertPeriodicTick (S := S) c notifier (fun _ _ => false).

(** Inserts of [entry] answer: a new row, or one that is already there. *)
Definition healthy (now : Time) (i : nat) (entry : periodicEntry) : Prop :=
  forall fire st, (go now i entry fire st).2 = true.

(** The store after the inserts of the given fires. *)
Definition tickAll (now : Time) (i : nat) (entry : periodicEntry) (fires : list Time)
    (st : ClientState S) : ClientState S :=
  foldl (fun st f => (go now i entry f st).1) st fires.

Lemma tickLoop_fires turns now i entry last st :
  last <= now -> advances (peSchedule entry) last now -> healthy now i entry ->
  (Z.to_nat (now - last) <= turns)%nat ->
  let s := peSchedule entry in
  let fires := firesFrom turns s (Next s last) now in
  let last' := List.last fires last in
  tickLoop c notifier (fun _ _ => false) turns now i entry last (Next s last) st
    = Some (Ticked (tickAll now i entry fires st) last' (Next s last')) /\
  goesOn (Next s last') now = false /\ last <= last' <= now.
Proof.
  intros Hle Hadv Hh. revert last st Hle Hadv. induction turns as [|turns IH];
    intros last st Hle Hadv Ht; simpl; fold (goesOn (Next (peSchedule entry) last) now);
    destruct (goesOn (Next (peSchedule entry) last) now) eqn:E; simpl.
  - destruct (advances_next _ _ _ Hle Hadv E). lia.
  - split_all; [done|done|lia|lia].
  - destruct (advances_next _ _ _ Hle Hadv E) as [Hlt Hadv'].
    set (fire := Next (peSchedule entry) last) in *. pose proof (Hh fire st) as Hok.
    fold go. destruct (go now i entry fire st) as [st1 ok] eqn:Eg. simpl in Hok. subst ok.
    destruct (IH fire st1) as (-> & Hg & Hb); [lia|done|lia|].
    set (fs := firesFrom turns _ _ _) in *.
    assert (match fs with [] => fire | _ :: _ => List.last fs last end = List.last fs fire) as ->
      by exact (last_cons_fires fs fire last).
    split_all; [done|done|lia|lia].
  - split_all; [done|done|lia|lia].
Qed.
(** An entry whose fires since its watermark can be enqueued in [turns] turns. *)
Definition ready (turns : nat) (now : Time) (entry : periodicEntry) (last : Time) : Prop :=
  last <= now /\ advances (peSchedule entry) last now /\ (forall i, healthy now i entry) /\
  (Z.to_nat (now - last) <= turns)%nat.

(** Every due fire of every entry enqueued, in order, and the watermarks moved to
    the last of them. *)
Fixpoint caughtUp (now : Time) (i : nat) (entries : list periodicEntry) (lasts : list Time)
    (st : ClientState S) : ClientState S * list Time :=
  match entries, lasts with
  | entry :: entries', last :: lasts' =>
      let fires := dueFires (peSchedule entry) last now in
      let '(st', lasts'') := caughtUp now (Datatypes.S i) entries' lasts' (tickAll now i entry fires st) in
      (st', List.last fires last :: lasts'')
  | _, _ => (st, lasts)
  end.

Lemma entryLoop_caughtUp turns now i entries lasts soonest st :
  Forall2 (ready turns now) entries lasts -> soonest = zeroTime \/ now < soonest ->
  exists soonest',
    entryLoop c notifier (fun _ _ => false) turns now i entries lasts soonest st
      = Some (caughtUp now i entries lasts st, Some soonest') /\
    (soonest' = zeroTime \/ now < soonest').
Proof.
  intros Hr. revert i soonest st. induction Hr as [|entry last entries lasts Hrd Hr IH];
    intros i soonest st Hs; simpl; [by exists soonest|].
  destruct Hrd as (Hle & Hadv & Hh & Ht).
  destruct (tickLoop_fires turns now i entry last st Hle Hadv (Hh i) Ht) as (-> & Hg & Hb).
  rewrite (firesFrom_enough turns (Z.to_nat (now - last))) in Hg |- * by (done || lia).
  fold (dueFires (peSchedule entry) last now) in Hg |- *.
  set (fires := dueFires (peSchedule entry) last now) in *.
  set (fire := Next (peSchedule entry) (List.last fires last)) in *.
  set (soonest1 := if IsZero fire then _ else _).
  destruct (IH (Datatypes.S i) soonest1 (tickAll now i entry fires st)) as (so & -> & Hso).
  - unfold soonest1, IsZero. destruct (Z.eqb_spec fire 0) as [|Hz]; [done|].
    destruct ((soonest =? 0) || Before fire soonest); [|done]. right.
    destruct (Z.le_gt_cases fire now) as [Hf|]; [|done]. exfalso.
    assert (goesOn fire now = true) as Hx by (apply goesOn_spec; unfold zeroTime; lia). congruence.
  - exists so. destruct (caughtUp now (Datatypes.S i) entries lasts _) as [st' ls']. done.
Qed.

(** The watermarks a leading turn starts from. *)
Definition startMarks (ss : schedState) (gained : Time) : list Time :=
  if wasLeader ss then lastFire ss else replicate (length (lastFire ss)) gained.

(** A leading turn returns, having caught up from its watermarks. *)
Lemma scheduleTurn_leads turns gained now ss (st : ClientState S) :
  Forall2 (ready turns now) (periodic c) (startMarks ss gained) ->
  exists ss' st' wait st1,
    scheduleTurn c notifier (fun _ _ => false) turns LockHeld gained now ss st = Some (ss', st', wait) /\
    wasLeader ss' = true /\ (st', lastFire ss') = caughtUp now 0 (periodic c) (startMarks ss gained) st1.
Proof.
  intros Hr. unfold scheduleTurn.
  set (st1 := if wasLeader ss then st
              else logState LevelInfo "drover: became periodic scheduler leader" None st).
  assert ((if wasLeader ss then (lastFire ss, st)
           else (replicate (length (lastFire ss)) gained,
                 logState LevelInfo "drover: became periodic scheduler leader" None st))
          = (startMarks ss gained, st1)) as -> by (unfold startMarks, st1; by destruct (wasLeader ss)).
  unfold enqueueDuePeriodic.
  destruct (entryLoop_caughtUp turns now 0 (periodic c) (startMarks ss gained) zeroTime st1 Hr)
    as (so & -> & _); [by left|].
  destruct (caughtUp _ _ _ _ st1) as [st2 ls] eqn:E. eexists (MkSched true ls), st2, _, st1.
  by split_all.
Qed.
End Healthy.

(** ** Properties *)

(** C24: a leader's turn catches up.  With schedules that move on, watermarks not in the future and a
    store that answers, a turn returns; it enqueues exactly the fires of each entry
    after its watermark up to now, in ascending order, moves the watermark to the last of them,
    and then waits a positive time. *)
Theorem enqueueDue_catches_up {S} `{Driver S} c notifier turns now lasts (st : ClientState S) :
  0 < pollInterval c -> Forall2 (ready c notifier turns now) (periodic c) lasts ->
  exists wait,
    enqueueDuePeriodic c notifier (fun _ _ => false) turns now lasts st
      = Some (caughtUp c notifier now 0 (periodic c) lasts st, wait) /\ 0 < wait /\
    forall entry last, ready (S := S) c notifier turns now entry last ->
      StronglySorted Z.lt (dueFires (peSchedule entry) last now) /\
      Forall (fun f => last < f <= now) (dueFires (peSchedule entry) last now).
Proof.
  intros Hp Hr. unfold enqueueDuePeriodic.
  destruct (entryLoop_caughtUp c notifier turns now 0 (periodic c) lasts zeroTime st Hr) as (so & -> & Hso);
    [by left|].
  destruct (caughtUp _ _ _ _ _ _ st) as [st' ls]. eexists. split; [reflexivity|]. split.
  - unfold IsZero. destruct (Z.eqb_spec so 0); [done|]. destruct Hso as [?|?]; [done | unfold Sub; lia].
  - intros entry last (Hle & Hadv & _). by apply dueFires_spec.
Qed.

(** the key of a tick names one fire of one schedule: two ticks with the
    same key are the same fire of the same id, whatever characters the ids hold. *)
Theorem periodicUniqueKey_inj id id' fire fire' :
  jsonYearOk fire = true -> jsonYearOk fire' = true ->
  periodicUniqueKey id fire = periodicUniqueKey id' fire' -> id = id' /\ fire = fire'.
Proof.
  intros Hf Hf' Heq. unfold periodicUniqueKey in Heq. apply slash_split in Heq as [Hi Ht];
    [|by apply formatRFC3339Nano_noSlash..].
  split; [done|]. by apply formatRFC3339Nano_inj.
Qed.

Lemma periodicUniqueKey_inj_witness :
  "a/b" = "a/b" /\ atUTC 2026 1 1 10 0 0 = atUTC 2026 1 1 10 0 0.
Proof.
  apply (periodicUniqueKey_inj "a/b" "a/b" (atUTC 2026 1 1 10 0 0) (atUTC 2026 1 1 10 0 0));
    vm_compute; reflexivity.
Defined.

Lemma List_last_elem (l : list Time) d : List.last l d = d \/ List.last l d ∈ l.
Proof.
  revert d. induction l as [|x l IH]; intros d; [by left|]. right. rewrite last_cons_fires.
  destruct (IH x) as [->|Hin]; [left | by right].
Qed.

Lemma caughtUp_after {S} `{Driver S} c notifier turns now i entries lasts (st : ClientState S) since :
  Forall2 (ready (S := S) c notifier turns now) entries lasts -> Forall (fun l => since <= l) lasts ->
  Forall (fun l => since <= l) (caughtUp c notifier now i entries lasts st).2.
Proof.
  intros Hr. revert i st. induction Hr as [|e l es ls Hrd Hr IH]; intros i st Hs; simpl; [done|].
  inversion Hs as [|? ? Hl Hls]; subst.
  pose proof (IH (Datatypes.S i) (tickAll c notifier now i e (dueFires (peSchedule e) l now) st) Hls) as Hi.
  destruct (caughtUp _ _ _ _ es ls _) as [st' ls']. simpl in *. constructor; [|done].
  destruct Hrd as (Hle & Hadv & _).
  destruct (dueFires_spec (peSchedule e) l now Hle Hadv) as [_ Hall].
  destruct (List_last_elem (dueFires (peSchedule e) l now) l) as [->|Hin]; [done|].
  rewrite Forall_forall in Hall. specialize (Hall _ Hin). lia.
Qed.

(** Only a leader enqueues, and it never replays: a turn without the lock leaves the store
    alone; a turn with it starts from the instant the lock was gained if it was not
    leader before, and from its watermarks otherwise, so every fire it enqueues, and every watermark
    it leaves, lies after the beginning [since] of this stint of leadership. *)
Theorem leader_never_replays {S} `{Driver S} c notifier turns answer gained now since ss
    (st : ClientState S) :
  (wasLeader ss = true -> Forall (fun l => since <= l) (lastFire ss)) ->
  let start := if wasLeader ss then since else gained in
  let lasts := if wasLeader ss then lastFire ss else replicate (length (lastFire ss)) gained in
  (answer = LockHeld -> Forall2 (ready (S := S) c notifier turns now) (periodic c) lasts) ->
  exists ss' st' wait,
    scheduleTurn c notifier (fun _ _ => false) turns answer gained now ss st = Some (ss', st', wait) /\
    match answer with
    | LockHeld =>
        wasLeader ss' = true /\ Forall (fun l => start <= l) (lastFire ss') /\
        Forall2 (fun e l => Forall (fun f => start < f <= now) (dueFires (peSchedule e) l now))
          (periodic c) lasts
    | _ => wasLeader ss' = false /\ cStore st' = cStore st
    end.
Proof.
  intros Hw start lasts Hr. destruct answer as [e| |].
  - unfold scheduleTurn, loseLeadership. destruct (wasLeader ss) eqn:El; do 3 eexists; (split; [reflexivity|done]).
  - specialize (Hr eq_refl).
    assert (Forall (fun l => start <= l) lasts) as Hst.
    { unfold start, lasts. destruct (wasLeader ss); [auto|]. apply Forall_replicate. lia. }
    destruct (scheduleTurn_leads c notifier turns gained now ss st Hr) as (ss' & st' & wait & st1 & -> & Hw' & E).
    pose proof (caughtUp_after c notifier turns now 0 (periodic c) lasts st1 start Hr Hst) as Hc.
    unfold lasts in Hc. fold (startMarks ss gained) in Hc. rewrite <- E in Hc. exists ss', st', wait. split; [done|].
    split; [done|]. split; [done|]. clear Hc E.
    induction Hr as [|e l es ls' (Hle & Hadv & _) Hr IH]; constructor.
    + inversion Hst as [|? ? Hl _]; subst.
      destruct (dueFires_spec (peSchedule e) l now Hle Hadv) as [_ Hall].
      eapply Forall_impl; [exact Hall|]. simpl. lia.
    + apply IH. by inversion Hst.
  - unfold scheduleTurn, loseLeadership. destruct (wasLeader ss) eqn:El; do 3 eexists; (split; [reflexivity|done]).
Qed.

(** ** The in-memory store, and a schedule that does not move on *)

Lemma memdriver_healthy c notifier now i entry args encoded :
  pjArgs (peJob entry) = Some args -> argKind args <> "" -> argJSON args = Ok encoded ->
  healthy (S := MemDriver) c notifier now i entry.
Proof.
  intros Ha Hk Hj fire st. unfold insertPeriodicTick, clientInsert. rewrite Ha. simpl.
  destruct (String.eqb_spec (argKind args) ""); [done|]. rewrite Hj. unfold Insert.
  destruct (uniqueConflict _ _ _ _ _); done.
Qed.

(** A schedule that answers with the fire it was asked after keeps the loop going
    for ever. *)
Lemma tickLoop_stuck {S} `{Driver S} c notifier turns now i entry last fire (st : ClientState S) :
  healthy c notifier now i entry -> Next (peSchedule entry) fire = fire -> goesOn fire now = true ->
  tickLoop c notifier (fun _ _ => false) turns now i entry last fire st = None.
Proof.
  intros Hh Hn Hg. revert last st. induction turns as [|turns IH]; intros last st; simpl;
    fold (goesOn fire now); rewrite Hg; [done|].
  pose proof (Hh fire st) as Hok. destruct (insertPeriodicTick _ _ _ _ _ _ _ st) as [st' ok].
  simpl in Hok. subst ok. rewrite Hn. apply IH.
Qed.

Definition nightlyArgs : JobArgs := {| argKind := "report"; argJSON := Ok "{}" |}.

Definition periodicClient (entries : list periodicEntry) : Client :=
  {| workers := NewWorkers; pollInterval := Second; notifyWakeup := false;
     retryPolicy := Exponential; leaseDuration := Minute; heartbeatInterval := 20 * Second;
     rescueInterval := Minute; concurrency := 2; statsInterval := 15 * Second; registry := droverCollectors; opsAddr := "";
     clientMetrics := newCollectors 2; queues := [{| qname := "default"; qweight := 1 |}];
     chain := clientChain "stack" (fun _ => true) NewWorkers []; periodic := entries |}.

Definition periodicOf (cron : string) (l : option Location) (s : Schedule) : periodicEntry :=
  {| peJob := {| pjID := "nightly"; pjCron := cron; pjArgs := Some nightlyArgs; pjOpts := None;
                 pjLocation := l |};
     peSchedule := s |}.

Definition nightly : periodicEntry :=
  periodicOf "30 1 * * *" (Some newYork2026) (CronSchedule halfPastOne).

Lemma nightly_checked : checkedPeriodicJobs [peJob nightly] = Returns [nightly].
Proof. reflexivity. Qed.

Lemma nightly_fires :
  Next (CronSchedule halfPastOne) (atUTC 2026 11 1 5 0 0) = atUTC 2026 11 1 5 30 0 /\
  Next (CronSchedule halfPastOne) (atUTC 2026 11 1 5 30 0) = atUTC 2026 11 1 6 30 0 /\
  Next (CronSchedule halfPastOne) (atUTC 2026 11 1 6 30 0) = atUTC 2026 11 1 6 30 0.
Proof. vm_compute. done. Qed.

(** C40: On the night the clocks go back in New York, a leader with a job at 01:30 local
    time never finishes its turn: whatever the bound on its inner loop, it is reached. *)
Theorem scheduler_never_returns_at_dst_end turns (st : ClientState MemDriver) :
  enqueueDuePeriodic (periodicClient [nightly]) None (fun _ _ => false) turns
    (atUTC 2026 11 1 7 0 0) [atUTC 2026 11 1 5 0 0] st = None.
Proof.
  unfold enqueueDuePeriodic, entryLoop. simpl periodic.
  assert (healthy (S := MemDriver) (periodicClient [nightly]) None (atUTC 2026 11 1 7 0 0) 0 nightly) as Hh
    by (by eapply memdriver_healthy).
  destruct nightly_fires as (H1 & H2 & H3). change (peSchedule nightly) with (CronSchedule halfPastOne).
  rewrite H1. set (now := atUTC 2026 11 1 7 0 0) in *.
  assert (tickLoop (periodicClient [nightly]) None (fun _ _ => false) turns now 0 nightly
            (atUTC 2026 11 1 5 0 0) (atUTC 2026 11 1 5 30 0) st = None) as ->; [|done].
  destruct turns as [|turns]; [reflexivity|]. cbn [tickLoop].
  assert (negb (IsZero (atUTC 2026 11 1 5 30 0)) && negb (After (atUTC 2026 11 1 5 30 0) now) = true)
    as -> by reflexivity.
  pose proof (Hh (atUTC 2026 11 1 5 30 0) st) as Hok.
  destruct (insertPeriodicTick _ _ _ _ _ _ _ st) as [st' ok]. simpl in Hok. subst ok.
  change (peSchedule nightly) with (CronSchedule halfPastOne). rewrite H2.
  apply tickLoop_stuck; [done | exact H3 | reflexivity].
Qed.

(** ** Witnesses *)

Definition quarterly : periodicEntry := periodicOf "@every 15m" None (EverySchedule (15 * Minute)).

Definition periodicState : ClientState MemDriver :=
  MkState New newInflightSet false (MkEnv (MkWorld 0 []) (newCollectors 2) ∅).

Lemma quarterly_ready turns now last :
  last <= now -> (Z.to_nat (now - last) <= turns)%nat ->
  ready (S := MemDriver) (periodicClient [quarterly]) None turns now quarterly last.
Proof.
  intros Hl Ht. unfold ready. split_all; [done | by apply every_advances | |done].
  intros i. by eapply memdriver_healthy.
Qed.

Lemma enqueueDue_catches_up_witness :
  exists wait,
    enqueueDuePeriodic (periodicClient [quarterly]) None (fun _ _ => false)
      (Z.to_nat Hour) (atUTC 2026 1 1 11 0 0) [atUTC 2026 1 1 10 0 0] periodicState
      = Some (caughtUp (periodicClient [quarterly]) None (atUTC 2026 1 1 11 0 0) 0
                (periodic (periodicClient [quarterly])) [atUTC 2026 1 1 10 0 0] periodicState, wait) /\
    0 < wait /\
    forall entry last, ready (S := MemDriver) (periodicClient [quarterly]) None (Z.to_nat Hour)
        (atUTC 2026 1 1 11 0 0) entry last ->
      StronglySorted Z.lt (dueFires (peSchedule entry) last (atUTC 2026 1 1 11 0 0)) /\
      Forall (fun f => last < f <= atUTC 2026 1 1 11 0 0)
        (dueFires (peSchedule entry) last (atUTC 2026 1 1 11 0 0)).
Proof.
  apply (enqueueDue_catches_up (periodicClient [quarterly]) None (Z.to_nat Hour)
    (atUTC 2026 1 1 11 0 0) [atUTC 2026 1 1 10 0 0] periodicState).
  - reflexivity.
  - constructor; [|constructor]. apply quarterly_ready; [vm_compute; discriminate|].
    apply Z2Nat.inj_le; vm_compute; discriminate.
Defined.

Lemma leader_never_replays_witness :
  exists ss' st' wait,
    scheduleTurn (periodicClient [quarterly]) None (fun _ _ => false) (Z.to_nat Hour) LockHeld
      (atUTC 2026 1 1 10 7 0) (atUTC 2026 1 1 10 8 0) (MkSched false [zeroTime]) periodicState
      = Some (ss', st', wait) /\
    wasLeader ss' = true /\ Forall (fun l => atUTC 2026 1 1 10 7 0 <= l) (lastFire ss') /\
    Forall2 (fun e l => Forall (fun f => atUTC 2026 1 1 10 7 0 < f <= atUTC 2026 1 1 10 8 0)
                          (dueFires (peSchedule e) l (atUTC 2026 1 1 10 8 0)))
      [quarterly] [atUTC 2026 1 1 10 7 0].
Proof.
  apply (leader_never_replays (periodicClient [quarterly]) None (Z.to_nat Hour) LockHeld
    (atUTC 2026 1 1 10 7 0) (atUTC 2026 1 1 10 8 0) 0 (MkSched false [zeroTime]) periodicState).
  - discriminate.
  - intros _. constructor; [|constructor]. apply quarterly_ready; [vm_compute; discriminate|].
    apply Z2Nat.inj_le; vm_compute; discriminate.
Defined.
