(* ===== verification/Pool.v ===== *)
(** * Pool: the fetch loop, its slots and workers, and the shutdown

    Models pool.go and [Start] and [Stop] of loop.go.  What a goroutine does between two
    channel operations is a function; the interleaving of the fetch loop, the
    workers, the stop signal and everything else that acts on the shared state is
    the step relation [step].  The slots channel is the number of tokens in
    it; the unbuffered jobs channel is a rendezvous between the fetch loop and an
    idle worker. *)

From S2P Require Import Prelude GoTime GoError GoRuntime DriverSpec Metrics Middleware Inflight.
From S2P Require Import Queues Retry Enqueue Client Loop.
From S2P Require Import Memdriver MemdriverFacts MemdriverProps.

Definition leasesOf (rows : list JobRow) : list Lease := leaseOf <$> rows.

Definition addAll (leases : list Lease) (f : inflightSet) : inflightSet := foldl (flip add) f leases.

Definition removeAll (leases : list Lease) (f : inflightSet) : inflightSet :=
  foldl (flip remove) f leases.

Section Operations.
Context {S : Type} `{Ops : Driver S}.
Variable (c : Client) (jobCtx : Ctx) (tick : Z -> nat -> Time).

(** ** Handing jobs back *)

Definition requeueFailed (lease : Lease) (e : error) (st : ClientState S) : ClientState S :=
  if lostOwnership e
  then logState LevelDebug "drover: job finished before it could be returned to the queue"
         (Some (leaseID lease)) st
  else logState LevelError "drover: return job to the queue" (Some (leaseID lease)) st.

(** Readings of a lease: 0 and 1 of [requeue], 2 when its context starts. *)
Definition requeueOne (lease : Lease) (s : S) : S * option error :=
  let t := tick (leaseID lease) in
  requeue t (WithTimeout (t 2%nat) (WithoutCancel jobCtx) (heartbeatInterval c)) lease s.

Definition requeueStep (st : ClientState S) (lease : Lease) : ClientState S :=
  let '(s', err) := requeueOne lease (cStore st) in
  match err with
  | Some e => requeueFailed lease e (setStore s' st)
  | None => logState LevelWarn "drover: returned an unfinished job to the queue"
              (Some (leaseID lease)) (setStore s' st)
  end.

Definition requeueAll (leases : list Lease) (st : ClientState S) : ClientState S :=
  foldl requeueStep st leases.

(** The rows go back and are tracked no more; the caller returns their slots. *)
Definition abandon (rows : list JobRow) (st : ClientState S) : ClientState S :=
  match rows with
  | [] => st
  | _ =>
      let leases := leasesOf rows in
      let st' := requeueAll leases st in
      setInflight (removeAll leases (cInflight st')) st'
  end.

Definition errDrainIncomplete (n : nat) : error :=
  Wrapf (sentinelText ErrDrainIncomplete +:+ ": " +:+ itoa (Z.of_nat n)
         +:+ " job(s) still running, returned to the queue") [Sent ErrDrainIncomplete].

(** [escalate]: nothing left to run is a clean shutdown. *)
Definition escalate (st : ClientState S) : ClientState S * option error :=
  match snapshot (cInflight st) with
  | [] => (st, None)
  | stranded =>
      let st1 := logState LevelWarn "drover: shutdown deadline reached with jobs still running" None st in
      (requeueAll stranded st1,
       Some (errDrainIncomplete (length stranded)))
  end.

(** ** Claiming *)

(** What one queue gives: the rows kept within [remaining], the surplus handed
    back.  [Err] is a failed fetch. *)
Definition claimQueue (now : Time) (queue : string) (remaining : nat) (st : ClientState S)
    : ClientState S * res error (list JobRow) :=
  let '(s', r) := drvFetchAvailable now queue (leaseDuration c) (Z.of_nat remaining) (cStore st) in
  let st0 := setStore s' st in
  match r with
  | Err e => (st0, Err e)
  | Ok rows =>
      let st1 := setInflight (addAll (leasesOf rows) (cInflight st0)) st0 in
      if (remaining <? length rows)%nat then
        let surplus := leasesOf (drop remaining rows) in
        let st2 := requeueAll surplus
          (logState LevelWarn "drover: driver returned more jobs than requested; returning the surplus"
             None st1) in
        (setInflight (removeAll surplus (cInflight st2)) st2, Ok (take remaining rows))
      else (st1, Ok rows)
  end.

(** The loop over the order; [now i] is when the [i]-th queue is asked, [stopping i]
    what the stop signal says after it. *)
Fixpoint claimQueues (now : nat -> Time) (stopping : nat -> bool) (i : nat) (order : list string)
    (remaining : nat) (claimed : list JobRow) (st : ClientState S) : ClientState S * list JobRow :=
  match order with
  | [] => (st, claimed)
  | queue :: rest =>
      match claimQueue (now i) queue remaining st with
      | (st', Err _) =>
          (if stopping i then st' else logState LevelError "drover: fetch jobs" None st', claimed)
      | (st', Ok rows) =>
          let claimed' := claimed ++ rows in
          let remaining' := (remaining - length rows)%nat in
          if (remaining' =? 0)%nat || stopping i then (st', claimed')
          else claimQueues now stopping (Datatypes.S i) rest remaining' claimed' st'
      end
  end.

(** [None]: the draw of the order panicked. *)
Definition claimRound (draw : nat -> Z -> Z) (now : nat -> Time) (stopping : nat -> bool)
    (capacity : nat) (st : ClientState S) : option (ClientState S * list JobRow) :=
  match weightedOrder draw (queues c) with
  | Err _ => None
  | Ok order => Some (claimQueues now stopping 0 order capacity [] st)
  end.
End Operations.

(** ** The pool *)

(** Where the fetch loop is: taking slots, [n] of them so far; claiming with [n];
    handing over the rows left; waiting; or gone, the jobs channel closed. *)
Inductive fetchPC :=
| FAcquire (n : nat)
| FClaim (n : nat)
| FDispatch (rows : list JobRow)
| FSleep
| FExit.

(** [running]: the rows workers execute; [returning]: the workers that are done and about to
    return their slot. *)
Record Pool (S : Type) := MkPool {
  pst : ClientState S;
  slots : nat;
  pc : fetchPC;
  running : list JobRow;
  returning : nat;
  stopFetch : bool
}.
Arguments MkPool {S} _ _ _ _ _ _.
Arguments pst {S} _.
Arguments slots {S} _.
Arguments pc {S} _.
Arguments running {S} _.
Arguments returning {S} _.
Arguments stopFetch {S} _.

(** The tokens the fetch loop holds, and the rows it has claimed and not handed over. *)
Definition heldTokens (p : fetchPC) : nat :=
  match p with
  | FAcquire n | FClaim n => n
  | FDispatch rows => length rows
  | FSleep | FExit => 0
  end.

Definition undispatched (p : fetchPC) : list JobRow :=
  match p with FDispatch rows => rows | _ => [] end.

(** After the rows of a round are handed over, the loop starts again. *)
Definition dispatching (rows : list JobRow) : fetchPC :=
  match rows with [] => FAcquire 0 | _ => FDispatch rows end.

Section Steps.
Context {S : Type} `{Ops : Driver S}.
Variable (c : Client).

Definition workerCount : nat := Z.to_nat (concurrency c).

Definition newRunner (st : ClientState S) : Pool S :=
  MkPool st workerCount (FAcquire 0) [] 0 false.

Inductive step : Pool S -> Pool S -> Prop :=
| step_first st k run ret stop :
    step (MkPool st (Datatypes.S k) (FAcquire 0) run ret stop) (MkPool st k (FAcquire 1) run ret stop)
| step_first_stop st k run ret :
    step (MkPool st k (FAcquire 0) run ret true) (MkPool st k FExit run ret true)
| step_more st k n run ret stop :
    (Datatypes.S n < workerCount)%nat ->
    step (MkPool st (Datatypes.S k) (FAcquire (Datatypes.S n)) run ret stop)
         (MkPool st k (FAcquire (Datatypes.S (Datatypes.S n))) run ret stop)
| step_acquired st k n run ret stop :
    (workerCount <= Datatypes.S n)%nat \/ k = 0%nat ->
    step (MkPool st k (FAcquire (Datatypes.S n)) run ret stop)
         (MkPool st k (FClaim (Datatypes.S n)) run ret stop)
| step_claim_stop jobCtx tick draw now stopping st st' k n run ret :
    claimRound c jobCtx tick draw now stopping n st = Some (st', []) ->
    step (MkPool st k (FClaim n) run ret true) (MkPool st' (k + n) FExit run ret true)
| step_claim_none jobCtx tick draw now stopping st st' k n run ret :
    claimRound c jobCtx tick draw now stopping n st = Some (st', []) ->
    step (MkPool st k (FClaim n) run ret false) (MkPool st' (k + n) FSleep run ret false)
| step_claim jobCtx tick draw now stopping st st' row rows k n run ret stop :
    claimRound c jobCtx tick draw now stopping n st = Some (st', row :: rows) ->
    step (MkPool st k (FClaim n) run ret stop)
         (MkPool st' (k + (n - length (row :: rows))) (FDispatch (row :: rows)) run ret stop)
| step_sleep_stop st k run ret :
    step (MkPool st k FSleep run ret true) (MkPool st k FExit run ret true)
| step_wake st st' k run ret :
    (* the timer, or a wake-up taken from the channel *)
    st' = st \/ st' = setWake false st ->
    step (MkPool st k FSleep run ret false) (MkPool st' k (FAcquire 0) run ret false)
| step_hand st k row rows run ret stop :
    (length run + ret < workerCount)%nat ->
    step (MkPool st k (FDispatch (row :: rows)) run ret stop)
         (MkPool (setInflight (add (leaseOf row) (cInflight st)) st) k (dispatching rows)
                 (row :: run) ret stop)
| step_abandon jobCtx tick st k rows run ret :
    rows <> [] ->
    step (MkPool st k (FDispatch rows) run ret true)
         (MkPool (abandon c jobCtx tick rows st) (k + length rows) FExit run ret true)
| step_finish st st' k p run1 row run2 ret stop :
    (* the end of [runJob]: its write, whatever it was, and the removal of the lease *)
    cInflight st' = remove (leaseOf row) (cInflight st) ->
    step (MkPool st k p (run1 ++ row :: run2) ret stop) (MkPool st' k p (run1 ++ run2) (Datatypes.S ret) stop)
| step_return st k p run ret stop :
    step (MkPool st k p run (Datatypes.S ret) stop) (MkPool st (Datatypes.S k) p run ret stop)
| step_stop st k p run ret stop :
    step (MkPool st k p run ret stop) (MkPool st k p run ret true)
| step_others st st' k p run ret stop :
    (* heartbeats, sweeps, inserts and other processes *)
    cInflight st' = cInflight st ->
    step (MkPool st k p run ret stop) (MkPool st' k p run ret stop).

Definition reachable (st : ClientState S) (p : Pool S) : Prop := rtc step (newRunner st) p.
End Steps.

(** ** Lemmas *)

Lemma tracked_addAll l ls f : tracked l (addAll ls f) -> l ∈ ls \/ tracked l f.
Proof.
  unfold addAll. revert f. induction ls as [|x ls IH]; intros f; simpl; [by right|].
  intros [Hin|Ht]%IH; [left; by right|].
  unfold flip in Ht. apply tracked_add in Ht as [->|[_ Ht]]; [left; left | by right].
Qed.

Lemma tracked_removeAll l ls f : (tracked l (removeAll ls f) <-> (l ∉ ls) /\ tracked l f).
Proof.
  unfold removeAll. revert f. induction ls as [|x ls IH]; intros f; simpl.
  - split; [|tauto]. intros H. split; [by intros ?%not_elem_of_nil | done].
  - rewrite IH. unfold flip. rewrite tracked_remove, not_elem_of_cons. tauto.
Qed.

(** With distinct ids, everything added is tracked. *)
Lemma tracked_addAll_in l ls f : NoDup (leaseID <$> ls) -> l ∈ ls -> tracked l (addAll ls f).
Proof.
  unfold addAll. revert f. induction ls as [|x ls IH]; intros f Hnd Hin; simpl.
  - by apply not_elem_of_nil in Hin.
  - rewrite fmap_cons in Hnd. apply NoDup_cons in Hnd as [Hx Hnd].
    apply elem_of_cons in Hin as [->|Hin]; [|by apply IH].
    assert (forall f, tracked x f -> tracked x (foldl (flip add) f ls)) as Hk.
    { clear IH Hnd. induction ls as [|y ls IH]; intros g Hg; simpl; [done|].
      rewrite fmap_cons in Hx. apply not_elem_of_cons in Hx as [Hne Hx]. apply IH; [done|].
      unfold flip. apply tracked_add. right. done. }
    apply Hk. unfold flip. apply tracked_add. by left.
Qed.

Lemma tracked_addAll_keep l ls f :
  leaseID l ∉ leaseID <$> ls -> tracked l f -> tracked l (addAll ls f).
Proof.
  unfold addAll. revert f. induction ls as [|x ls IH]; intros f Hn Ht; simpl; [done|].
  rewrite fmap_cons in Hn. apply not_elem_of_cons in Hn as [Hne Hn]. apply IH; [done|].
  unfold flip. apply tracked_add. right. done.
Qed.

Section Facts.
Context {S : Type} `{Ops : Driver S}.
Variable (c : Client) (jobCtx : Ctx) (tick : Z -> nat -> Time).

Lemma requeueStep_inflight (st : ClientState S) l :
  onlyLogged st (requeueStep c jobCtx tick st l).
Proof.
  unfold requeueStep, requeueFailed. destruct (requeueOne _ _ _ _ _) as [s' [e|]]; [|done].
  by destruct (lostOwnership e).
Qed.

Lemma requeueAll_inflight ls (st : ClientState S) : onlyLogged st (requeueAll c jobCtx tick ls st).
Proof.
  unfold requeueAll. revert st. induction ls as [|l ls IH]; intros st; simpl; [done|].
  trans (requeueStep c jobCtx tick st l); [apply requeueStep_inflight | apply IH].
Qed.

Lemma abandon_tracked rows (st : ClientState S) l :
  tracked l (cInflight (abandon c jobCtx tick rows st)) <->
  (l ∉ leasesOf rows) /\ tracked l (cInflight st).
Proof.
  unfold abandon. destruct rows as [|row rows].
  - split; [|tauto]. intros Hx. split; [by intros ?%not_elem_of_nil | done].
  - cbn [cInflight setInflight]. rewrite tracked_removeAll.
    by destruct (requeueAll_inflight (leasesOf (row :: rows)) st) as [-> _].
Qed.

Lemma claimQueue_bounded now q remaining (st st' : ClientState S) rows :
  claimQueue c jobCtx tick now q remaining st = (st', Ok rows) ->
  (length rows <= remaining)%nat /\
  forall l, tracked l (cInflight st') -> l ∈ leasesOf rows \/ tracked l (cInflight st).
Proof.
  unfold claimQueue. destruct (drvFetchAvailable _ _ _ _ _) as [s' [rs|e]]; [|done].
  destruct (Nat.ltb_spec remaining (length rs)) as [Hlt|Hge].
  - intros [= <- <-]. split; [rewrite length_take; lia|]. intros l. simpl.
    rewrite tracked_removeAll. intros [Hn Ht].
    set (st1 := logState _ _ _ _) in Ht.
    destruct (requeueAll_inflight (leasesOf (drop remaining rs)) st1) as [Hi _].
    rewrite Hi in Ht. simpl in Ht. apply tracked_addAll in Ht as [Hin|Ht]; [|by right]. left.
    unfold leasesOf in *. rewrite <- (take_drop remaining rs), fmap_app in Hin.
    apply elem_of_app in Hin as [?|?]; done.
  - intros [= <- <-]. split; [done|]. intros l Ht. simpl in Ht. by apply tracked_addAll.
Qed.

Lemma claimQueue_failed now q remaining (st st' : ClientState S) e :
  claimQueue c jobCtx tick now q remaining st = (st', Err e) -> cInflight st' = cInflight st.
Proof.
  unfold claimQueue. destruct (drvFetchAvailable _ _ _ _ _) as [s' [rs|e']]; [|by intros [= <- _]].
  by destruct (remaining <? length rs)%nat.
Qed.

(** A round never holds more rows than it has slots, whatever the driver hands
    back, and tracks only what it holds. *)
Lemma claimQueues_bounded now stopping i order remaining claimed (st st' : ClientState S) rows :
  claimQueues c jobCtx tick now stopping i order remaining claimed st = (st', rows) ->
  (length rows <= length claimed + remaining)%nat /\
  exists new, rows = claimed ++ new /\
    forall l, tracked l (cInflight st') -> l ∈ leasesOf new \/ tracked l (cInflight st).
Proof.
  revert i remaining claimed st. induction order as [|q order IH]; intros i remaining claimed st; simpl.
  - intros [= <- <-]. split; [lia|]. exists []. rewrite app_nil_r. split; [done|]. by right.
  - destruct (claimQueue _ _ _ _ _ _ _) as [st1 [rs|e]] eqn:E.
    + destruct (claimQueue_bounded _ _ _ _ _ _ E) as [Hb Ht].
      destruct ((remaining - length rs =? 0)%nat || stopping i).
      * intros [= <- <-]. rewrite length_app. split; [lia|]. by exists rs.
      * intros H1. destruct (IH _ _ _ _ H1) as (Hl & new & -> & Hn).
        split; [rewrite !length_app in Hl |- *; lia|]. exists (rs ++ new). rewrite <- app_assoc. split; [done|].
        intros l Hx. unfold leasesOf. rewrite fmap_app, elem_of_app.
        destruct (Hn l Hx) as [?|Hy]; [tauto|]. destruct (Ht l Hy); tauto.
    + intros [= <- <-]. split; [lia|]. exists []. rewrite app_nil_r. split; [done|]. intros l Hx. right.
      rewrite <- (claimQueue_failed _ _ _ _ _ _ E). by destruct (stopping i).
Qed.
End Facts.

(** ** The invariant of the pool *)

Section Invariant.
Context {S : Type} `{Ops : Driver S}.
Variable (c : Client).

(** Every token is in the channel, with the fetch loop, with a running job or on its
    way back; no lease is tracked that no row of the pool holds. *)
Record poolOk (p : Pool S) : Prop := {
  po_tokens : (slots p + heldTokens (pc p) + length (running p) + returning p)%nat = workerCount c;
  po_tracked : forall l, tracked l (cInflight (pst p)) ->
    l ∈ leasesOf (undispatched (pc p) ++ running p)
}.

Lemma newRunner_ok st : cInflight st = newInflightSet -> poolOk (newRunner c st).
Proof.
  intros Hi. split; simpl; [lia|]. intros l. rewrite Hi. unfold tracked, newInflightSet.
  by rewrite lookup_empty.
Qed.

Lemma leasesOf_middle l a row b :
  l ∈ leasesOf (a ++ row :: b) <-> l = leaseOf row \/ l ∈ leasesOf (a ++ b).
Proof.
  unfold leasesOf. rewrite !fmap_app, fmap_cons, !elem_of_app, elem_of_cons. tauto.
Qed.

Lemma claim_ok jobCtx tick draw now stopping st st' n rows k run ret stop p :
  claimRound c jobCtx tick draw now stopping n st = Some (st', rows) ->
  poolOk (MkPool st k (FClaim n) run ret stop) ->
  heldTokens p = length rows -> undispatched p = rows ->
  poolOk (MkPool st' (k + (n - length rows)) p run ret stop).
Proof.
  unfold claimRound. destruct (weightedOrder _ _) as [order|]; [|done]. intros [= Hc] [Ht Htr] Hh Hp.
  destruct (claimQueues_bounded _ _ _ _ _ _ _ _ _ _ _ _ Hc) as (Hl & new & Heq & Hn). simpl in *.
  subst new. split; simpl; [rewrite Hh; lia|]. intros l Hx. rewrite Hp. unfold leasesOf.
  rewrite fmap_app, elem_of_app. destruct (Hn l Hx) as [?|Hy]; [by left|]. right. by apply Htr.
Qed.

Lemma step_ok p p' : step c p p' -> poolOk p -> poolOk p'.
Proof.
  intros Hs Hok. destruct Hs;
    try (destruct Hok as [Ht Htr]; simpl in *; split; simpl; [lia | exact Htr]).
  - replace (k + n)%nat with (k + (n - length (@nil JobRow)))%nat by (simpl; lia).
    by eapply claim_ok.
  - replace (k + n)%nat with (k + (n - length (@nil JobRow)))%nat by (simpl; lia).
    by eapply claim_ok.
  - by eapply claim_ok.
  - destruct Hok as [Ht Htr]. simpl in *. split; simpl; [lia|]. intros l Hx. apply Htr.
    by destruct H as [->| ->].
  - destruct Hok as [Ht Htr]. simpl in *. split; simpl.
    + destruct rows; simpl in *; lia.
    + intros l Hx. assert (undispatched (dispatching rows) = rows) as -> by (by destruct rows).
      apply leasesOf_middle. apply tracked_add in Hx as [->|[_ Hx]]; [by left|].
      specialize (Htr l Hx). by apply elem_of_cons in Htr.
  - destruct Hok as [Ht Htr]. simpl in *. split; simpl; [lia|]. intros l.
    intros [Hn Hx]%abandon_tracked. specialize (Htr l Hx). unfold leasesOf in *.
    rewrite fmap_app, elem_of_app in Htr. by destruct Htr.
  - destruct Hok as [Ht Htr]. simpl in *. rewrite length_app in Ht. simpl in Ht.
    split; simpl; [rewrite length_app; lia|]. intros l. rewrite H, tracked_remove. intros [Hne Hx].
    specialize (Htr l Hx). rewrite app_assoc in Htr |- *. apply leasesOf_middle in Htr as [?|?]; done.
  - destruct Hok as [Ht Htr]. simpl in *. split; simpl; [lia|]. by rewrite H.
Qed.

Lemma reachable_ok st p : cInflight st = newInflightSet -> reachable c st p -> poolOk p.
Proof.
  intros Hi Hr. unfold reachable in Hr. remember (newRunner c st) as p0 eqn:E.
  assert (poolOk p0) as H0 by (subst; by apply newRunner_ok). clear E.
  induction Hr as [|p0 p1 p2 Hs _ IH]; [done|]. apply IH. by eapply step_ok.
Qed.
End Invariant.

(** ** A round against the contract *)

Section Rounds.
Context {S : Type} `{Laws : DriverLaws S}.
Variable (c : Client) (jobCtx : Ctx) (tick : Z -> nat -> Time).

(** What a round that fetches at the instants [now i] has done so far between the first store and
    the current state: exactly the rows [claimed] went from waiting to running, and are tracked. *)
Record claimedSo (now : nat -> Time) (names : list string) (s0 : S) (f0 : inflightSet) (claimed : list JobRow)
    (st : ClientState S) : Prop := {
  cs_wf : drvWf (cStore st);
  cs_ids : NoDup (ID <$> claimed);
  cs_rows : forall r, r ∈ claimed -> rowAt (cStore st) (ID r) = Some r /\ State r = StateRunning /\
    tracked (leaseOf r) (cInflight st) /\
    exists q i r0, q ∈ names /\ rowAt s0 (ID r) = Some r0 /\ dueIn q (drvTime S (now i)) r0 /\
                   r = claimedRow (drvTime S (now i)) (drvSpan S (leaseDuration c)) r0;
  cs_rest : forall id, id ∉ ID <$> claimed -> rowAt (cStore st) id = rowAt s0 id
}.

Lemma leaseIDs rows : leaseID <$> leasesOf rows = ID <$> rows.
Proof. unfold leasesOf. by rewrite <- list_fmap_compose. Qed.

(** One fetch extends it. *)
Lemma claimedSo_fetch now i names s0 f0 claimed st q remaining s' rows :
  claimedSo now names s0 f0 claimed st -> q ∈ names ->
  drvFetchAvailable (now i) q (leaseDuration c) remaining (cStore st) = (s', Ok rows) ->
  claimedSo now names s0 f0 (claimed ++ rows)
    (setInflight (addAll (leasesOf rows) (cInflight st)) (setStore s' st)).
Proof.
  intros [Hwf Hids Hrows Hrest] Hq Hf.
  destruct (fetchAvailable_law _ _ _ _ _ _ _ Hwf Hf) as (Hwf' & Hnd & _ & Hin & Hout).
  assert (forall r, r ∈ rows -> ID r ∉ ID <$> claimed) as Hdisj.
  { intros r Hr (x & Hx & Hxin)%list_elem_of_fmap. destruct (Hin r Hr) as (_ & r0 & Hr0 & Hdue & _).
    destruct (Hrows x Hxin) as (Hxr & Hrun & _). rewrite <- Hx, Hr0 in Hxr. injection Hxr as ->.
    destruct Hdue as ([Hs|[Hs|Hs]] & _); congruence. }
  split; cbn [cStore cInflight setInflight setStore].
  - done.
  - rewrite fmap_app. apply NoDup_app. split_all; [done| |done].
    intros id (x & -> & Hx)%list_elem_of_fmap (r & Hr & Hrin)%list_elem_of_fmap.
    apply (Hdisj r Hrin). rewrite <- Hr. apply list_elem_of_fmap. eauto.
  - intros r Hr. apply elem_of_app in Hr as [Hr|Hr].
    + destruct (Hrows r Hr) as (Hat & Hrun & Htr & Horg).
      assert (ID r ∉ ID <$> rows) as Hni.
      { intros (x & Hx & Hxin)%list_elem_of_fmap. apply (Hdisj x Hxin). rewrite <- Hx.
        apply list_elem_of_fmap. eauto. }
      rewrite (Hout _ Hni). split_all; [done|done| |done]. apply tracked_addAll_keep; [|done].
      by rewrite leaseIDs.
    + destruct (Hin r Hr) as (Hat & r0 & Hr0 & Hdue & Heq). split_all; [done | by rewrite Heq | |].
      * apply tracked_addAll_in; [by rewrite leaseIDs|]. apply list_elem_of_fmap. eauto.
      * exists q, i, r0. split_all; try done. rewrite <- Hrest; [done|]. by apply Hdisj.
  - intros id Hid. rewrite fmap_app, not_elem_of_app in Hid. destruct Hid as [Hc Hr].
    rewrite (Hout id Hr). by apply Hrest.
Qed.

Lemma claimQueues_claims names s0 f0 now stopping i order remaining claimed (st st' : ClientState S) rows :
  claimedSo now names s0 f0 claimed st -> (forall q, q ∈ order -> q ∈ names) ->
  claimQueues c jobCtx tick now stopping i order remaining claimed st = (st', rows) ->
  claimedSo now names s0 f0 rows st'.
Proof.
  revert i remaining claimed st. induction order as [|q order IH]; intros i remaining claimed st Hc Hq; simpl.
  - by intros [= <- <-].
  - unfold claimQueue. destruct (drvFetchAvailable _ _ _ _ _) as [s' [rs|e]] eqn:E.
    + pose proof (claimedSo_fetch _ _ _ _ _ _ _ _ _ _ _ Hc (Hq q ltac:(left)) E) as Hc'.
      destruct (fetchAvailable_law _ _ _ _ _ _ _ (cs_wf _ _ _ _ _ _ Hc) E) as (_ & _ & Hlen & _).
      destruct (Nat.ltb_spec remaining (length rs)) as [Hlt|_]; [lia|].
      destruct ((remaining - length rs =? 0)%nat || stopping i); [by intros [= <- <-]|].
      apply IH; [done|]. intros q' Hq'. apply Hq. by right.
    + apply fetchAvailable_err in E; [|by eapply cs_wf]. subst s'. intros [= <- <-].
      destruct Hc. destruct (stopping i); by split.
Qed.
End Rounds.

(** ** Handing back against the contract *)

Section Requeue.
Context {S : Type} `{Laws : DriverLaws S}.
Variable (c : Client) (jobCtx : Ctx) (tick : Z -> nat -> Time).
Hypothesis years : forall id, jsonYearOk (tick id 0%nat) = true.
Hypothesis inTime : forall id, tick id 1%nat < tick id 2%nat + heartbeatInterval c.

Definition requeueRecord (l : Lease) : AttemptError :=
  {| aeAttempt := leaseAttempt l; aeAt := tick (leaseID l) 0%nat;
     aeError := sentinelText ErrShutdownRequeued; aeTrace := "" |}.

Definition requeueDetail (l : Lease) : json := detailOf (requeueRecord l).

(** A requeued row waits again, at once, with its attempt spent. *)
Definition requeuedRow (l : Lease) (r : JobRow) : JobRow :=
  retryRow (drvTime S (tick (leaseID l) 1%nat)) (drvDoc S (requeueDetail l)) r.

Lemma requeueStep_settles (st : ClientState S) l :
  drvWf (cStore st) ->
  let st' := requeueStep c jobCtx tick st l in
  settles (requeuedRow l) l (cStore st) (cStore st') /\ drvWf (cStore st').
Proof.
  intros Hwf st'. unfold st', requeueStep, requeueOne, requeue.
  rewrite marshal_detail by (simpl; apply years). fold (requeueRecord l). fold (requeueDetail l).
  assert (ctxDone (tick (leaseID l) 1%nat) (WithTimeout (tick (leaseID l) 2%nat)
            (WithoutCancel jobCtx) (heartbeatInterval c)) = false) as Hc.
  { unfold ctxDone. simpl. apply Z.leb_gt. apply inTime. }
  rewrite underCtx_open by exact Hc.
  destruct (markRetryable_law (tick (leaseID l) 1%nat) l (tick (leaseID l) 1%nat) (attemptFields (requeueRecord l))
              (cStore st) Hwf) as [Hheld Hnot].
  pose proof (markRetryable_wf (tick (leaseID l) 1%nat) l (tick (leaseID l) 1%nat) (attemptFields (requeueRecord l))
                (cStore st) Hwf) as Hw.
  destruct (drvMarkRetryable _ _ _ _ _) as [s' err]. simpl in *.
  assert (settles (requeuedRow l) l (cStore st) s') as Hs.
  { split; [intros r Hr; by destruct (Hheld r Hr)|]. intros Hn Ha. by destruct (Hnot Hn Ha). }
  destruct err as [e|]; [|done]. unfold requeueFailed. by destruct (lostOwnership e).
Qed.

Lemma settles_other f l (s s' : S) id :
  (exists r, leaseHeld s l r) \/ (forall r, ~ leaseHeld s l r) ->
  settles f l s s' -> int32Attempt (leaseAttempt l) -> id <> leaseID l -> rowAt s' id = rowAt s id.
Proof.
  intros [[r Hr]|Hn] [Hh Hno] Ha Hid; [by apply (Hh r Hr)|]. by rewrite (Hno Hn Ha).
Qed.

Lemma leaseHeld_dec (s : S) l : (exists r, leaseHeld s l r) \/ (forall r, ~ leaseHeld s l r).
Proof.
  unfold leaseHeld. destruct (rowAt s (leaseID l)) as [r|] eqn:E.
  - destruct (decide (State r = StateRunning /\ Attempt r = leaseAttempt l)) as [[? ?]|Hn].
    + left. by exists r.
    + right. intros r' (Hr & ? & ?). simplify_eq. tauto.
  - right. intros r' (Hr & _). done.
Qed.

(** Every lease still held goes back, and nothing else changes. *)
Lemma requeueAll_returns ls (st : ClientState S) :
  drvWf (cStore st) -> NoDup (leaseID <$> ls) -> Forall (fun l => int32Attempt (leaseAttempt l)) ls ->
  let st' := requeueAll c jobCtx tick ls st in
  drvWf (cStore st') /\
  (forall l r, l ∈ ls -> leaseHeld (cStore st) l r ->
     rowAt (cStore st') (leaseID l) = Some (requeuedRow l r)) /\
  (forall id r, rowAt (cStore st) id = Some r -> (State r <> StateRunning \/ MkLease id (Attempt r) ∉ ls) ->
     rowAt (cStore st') id = Some r).
Proof.
  unfold requeueAll. revert st. induction ls as [|l ls IH]; intros st Hwf Hnd Hfit; simpl.
  { split_all; [done | by intros l r ?%not_elem_of_nil | done]. }
  rewrite fmap_cons in Hnd. apply NoDup_cons in Hnd as [Hni Hnd].
  apply Forall_cons in Hfit as [Hal Hfit].
  destruct (requeueStep_settles st l Hwf) as [Hs Hwf1]. set (st1 := requeueStep _ _ _ st l) in *.
  destruct (IH st1 Hwf1 Hnd Hfit) as (Hwf2 & Hin & Hout).
  assert (forall id, id <> leaseID l -> rowAt (cStore st1) id = rowAt (cStore st) id) as Hoth.
  { intros id Hid. eapply settles_other; [apply leaseHeld_dec | exact Hs | done | done]. }
  split_all; [done| |].
  - intros x r Hx Hr. apply elem_of_cons in Hx as [->|Hx].
    + destruct Hs as [Hh _]. destruct (Hh r Hr) as [Hat _]. apply Hout; [done|].
      left. unfold requeuedRow, retryRow. simpl. done.
    + apply Hin; [done|]. destruct Hr as (Hat & ? & ?). split; [|done]. rewrite Hoth; [done|].
      intros E. apply Hni. rewrite <- E. apply list_elem_of_fmap. eauto.
  - intros id r Hr Hno. destruct (decide (id = leaseID l)) as [->|Hne].
    + destruct Hs as [_ Hnot]. rewrite Hout with (r := r); [done| |].
      * rewrite Hnot; [done| |done]. intros r' (Hr' & Hrun & Hatt). simplify_eq.
        destruct Hno as [?|Hnin]; [done|]. apply Hnin. rewrite Hatt. destruct l. left.
      * destruct Hno as [?|Hnin]; [by left|]. right. intros Hx. apply Hnin. by right.
    + apply Hout; [by rewrite Hoth|]. destruct Hno as [?|Hnin]; [by left|]. right. intros Hx.
      apply Hnin. by right.
Qed.
End Requeue.

Lemma snapshot_ids f : NoDup (leaseID <$> snapshot f).
Proof.
  unfold snapshot. case_bool_decide; [constructor|]. unfold SortFunc.
  eapply NoDup_Permutation_proper; [apply fmap_Permutation, merge_sort_Permutation|].
  rewrite <- list_fmap_compose. apply NoDup_fst_map_to_list.
Qed.

(** What a shutdown that runs out of time does to the rows. *)
Lemma escalate_rows {S} `{DriverLaws S} c jobCtx tick (st : ClientState S) :
  (forall id, jsonYearOk (tick id 0%nat) = true) ->
  (forall id, tick id 1%nat < tick id 2%nat + heartbeatInterval c) -> drvWf (cStore st) ->
  (forall l, tracked l (cInflight st) -> int32Attempt (leaseAttempt l)) ->
  let st' := (escalate c jobCtx tick st).1 in
  drvWf (cStore st') /\ cInflight st' = cInflight st /\
  (forall l r, tracked l (cInflight st) -> leaseHeld (cStore st) l r ->
     rowAt (cStore st') (leaseID l) = Some (requeuedRow tick l r)) /\
  (forall id r, rowAt (cStore st) id = Some r ->
     State r <> StateRunning \/ ~ tracked (MkLease id (Attempt r)) (cInflight st) ->
     rowAt (cStore st') id = Some r).
Proof.
  intros Hy Ht Hwf Hfit. unfold escalate. pose proof (snapshot_elem (cInflight st)) as Hsn.
  pose proof (snapshot_ids (cInflight st)) as Hnd.
  destruct (snapshot (cInflight st)) as [|l0 ls] eqn:E; cbn [fst].
  - split_all; try done. intros l r Htr. apply Hsn in Htr. by apply not_elem_of_nil in Htr.
  - set (st1 := logState _ _ _ st).
    destruct (requeueAll_returns c jobCtx tick Hy Ht (l0 :: ls) st1 Hwf Hnd) as (Hw & Hin & Hout).
    { apply Forall_forall. intros l Hl. apply Hfit. by apply Hsn. }
    destruct (requeueAll_inflight c jobCtx tick (l0 :: ls) st1) as [Hi _].
    split_all; [done | done | |].
    + intros l r Htr Hr. apply Hin; [by apply Hsn | done].
    + intros id r Hr Hno. apply Hout; [done|]. destruct Hno as [?|Hno]; [by left|]. right.
      intros Hx. apply Hno. by apply Hsn.
Qed.

(** ** Starting and stopping *)

(** The lifecycle of a client: [shut] holds the verdict of the one shutdown. *)
Inductive lifecycleState := NotStarted | Started | Shut (verdict : option error).

(** [listenErr] is what binding the ops address [addr] answers. *)
Definition Start (addr : string) (listenErr : option error) (l : lifecycleState) : lifecycleState * option error :=
  match l with
  | NotStarted =>
      match listenErr with
      | Some e => (NotStarted, Some (Wrapf ("drover: listen on ops address " +:+ quote addr +:+ ": "
                                         +:+ errorText e) [e]))
      | None => (Started, None)
      end
  | _ => (l, Some (Sent ErrAlreadyStarted))
  end.

(** [verdict] is what the shutdown would answer if this call is the one that runs it. *)
Definition Stop (verdict : option error) (l : lifecycleState) : lifecycleState * option error :=
  match l with
  | NotStarted => (NotStarted, Some (Sent ErrNotStarted))
  | Started => (Shut verdict, verdict)
  | Shut v => (Shut v, v)
  end.

(** [errors.Join], where the server reported an error. *)
Definition joinErrors (err opsErr : option error) : option error :=
  match err, opsErr with
  | _, None => err
  | None, Some o => Some (Wrapf (errorText o) [o])
  | Some e, Some o => Some (Wrapf (errorText e +:+ String (ascii_of_nat 10) (errorText o)) [e; o])
  end.

(** [drain]: the workers finish in time, or the budget ends first; the ops server's
    own error is joined. *)
Definition drain {S} `{Driver S} (c : Client) (jobCtx : Ctx) (tick : Z -> nat -> Time)
    (inBudget : bool) (opsErr : option error) (st : ClientState S) : ClientState S * option error :=
  let st1 := logState LevelInfo "drover: worker pool stopping" None st in
  let '(st2, err) := if inBudget then (st1, None) else escalate c jobCtx tick st1 in
  let st3 := match opsErr with
             | Some _ => logState LevelError "drover: shut down ops server" None st2
             | None => st2
             end in
  (logState LevelInfo "drover: worker pool stopped" None st3, joinErrors err opsErr).

(** ** Properties *)

(** C9: the pool never takes more than it can run.  In every reachable state the slots add up to
    the number of workers, so returning a slot never blocks; every claimed row waiting to
    be handed over has an idle worker to take it; no lease is tracked (and so renewed) that
    no row of the pool holds; and when the fetch loop has gone and the workers are idle, every slot
    is back and no lease is left tracked. *)
Theorem pool_never_overclaims {S} `{Driver S} c (st : ClientState S) p :
  cInflight st = newInflightSet -> reachable c st p ->
  (slots p + heldTokens (pc p) + length (running p) + returning p)%nat = workerCount c /\
  (forall row rows, pc p = FDispatch (row :: rows) ->
     exists p', step c p p' /\ running p' = row :: running p) /\
  (forall l, l ∈ snapshot (cInflight (pst p)) -> l ∈ leasesOf (undispatched (pc p) ++ running p)) /\
  (pc p = FExit -> running p = [] -> returning p = 0%nat ->
     slots p = workerCount c /\ snapshot (cInflight (pst p)) = []).
Proof.
  intros Hi Hr. destruct (reachable_ok c st p Hi Hr) as [Ht Htr].
  assert (forall l, l ∈ snapshot (cInflight (pst p)) -> l ∈ leasesOf (undispatched (pc p) ++ running p)) as Hs
    by (intros l Hl; apply Htr; by apply snapshot_elem).
  split_all; [done| |done|].
  - intros row rows Hp. destruct p as [cst k fp run ret stop]. simpl in *. subst fp. simpl in *.
    eexists. split; [apply step_hand; lia|]. done.
  - intros Hp Hrun Hret. rewrite Hp, Hrun, Hret in *. simpl in *. split; [lia|].
    destruct (snapshot (cInflight (pst p))) as [|l ls] eqn:E; [done|].
    specialize (Hs l ltac:(left)). by apply not_elem_of_nil in Hs.
Qed.

(** A fetch round against the contract.  It cannot panic on the client's queues; it claims at
    most as many jobs as it has slots, from the configured queues, each waiting and due and
    now running with the next attempt and a lease; each is tracked by the time the round
    ends; and no other row changes. *)
Theorem claimRound_claims {S} `{DriverLaws S} c jobCtx tick draw now stopping capacity (st : ClientState S) :
  (forall i n, 0 < n -> 0 <= draw i n < n) -> weightsOk (queues c) -> fewQueues (queues c) ->
  drvWf (cStore st) ->
  exists st' rows, claimRound c jobCtx tick draw now stopping capacity st = Some (st', rows) /\
    (length rows <= capacity)%nat /\
    claimedSo c now (qname <$> queues c) (cStore st) (cInflight st) rows st'.
Proof.
  intros Hd Hw Hf Hwf. unfold claimRound.
  destruct (weightedOrder_perm draw (queues c) Hd Hw Hf) as (order & -> & Hperm).
  destruct (claimQueues c jobCtx tick now stopping 0 order capacity [] st) as [st' rows] eqn:E.
  exists st', rows. split; [done|].
  destruct (claimQueues_bounded _ _ _ _ _ _ _ _ _ _ _ _ E) as [Hl _]. split; [simpl in Hl; lia|].
  eapply claimQueues_claims; [| |exact E].
  - split; [done | constructor | by intros r ?%not_elem_of_nil | done].
  - intros q Hq. by rewrite <- Hperm.
Qed.

(** C17: a shutdown that runs out of time hands its jobs back.  It reports an error exactly when a
    lease is still tracked; each such job that is still on its attempt becomes claimable at
    once, with the attempt spent, so the abandoned handler stays fenced off; a job that
    finished meanwhile, and every other row, is left as it is. *)
Theorem escalate_returns_jobs {S} `{DriverLaws S} c jobCtx tick (st : ClientState S) :
  (forall id, jsonYearOk (tick id 0%nat) = true) ->
  (forall id, tick id 1%nat < tick id 2%nat + heartbeatInterval c) -> drvWf (cStore st) ->
  (forall l, tracked l (cInflight st) -> int32Attempt (leaseAttempt l)) ->
  let '(st', err) := escalate c jobCtx tick st in
  (err = None <-> snapshot (cInflight st) = []) /\
  (forall e, err = Some e -> errorsIs e ErrDrainIncomplete = true) /\
  drvWf (cStore st') /\ cInflight st' = cInflight st /\
  (forall l r, tracked l (cInflight st) -> leaseHeld (cStore st) l r ->
     exists r', rowAt (cStore st') (leaseID l) = Some r' /\ State r' = StateRetryable /\
       Attempt r' = Attempt r /\ LeasedUntil r' = None /\
       ScheduledAt r' = drvTime S (tick (leaseID l) 1%nat)) /\
  (forall id r, rowAt (cStore st) id = Some r ->
     State r <> StateRunning \/ ~ tracked (MkLease id (Attempt r)) (cInflight st) ->
     rowAt (cStore st') id = Some r).
Proof.
  intros Hy Ht Hwf Hfit. destruct (escalate_rows c jobCtx tick st Hy Ht Hwf Hfit) as (Hw & Hi & Hin & Hout).
  assert ((escalate c jobCtx tick st).2 = None <-> snapshot (cInflight st) = []) as Hnone.
  { unfold escalate. by destruct (snapshot (cInflight st)). }
  assert (forall e, (escalate c jobCtx tick st).2 = Some e -> errorsIs e ErrDrainIncomplete = true) as Herr.
  { unfold escalate. intros e. destruct (snapshot (cInflight st)); [done|]. by intros [= <-]. }
  destruct (escalate c jobCtx tick st) as [st' err]. simpl in *. split_all; try done.
  intros l r Htr Hr. exists (requeuedRow tick l r). rewrite (Hin l r) by done.
  unfold requeuedRow, retryRow, appendDetail. simpl. split_all; try done. by repeat casematch.
Qed.

(** A client's lifecycle runs once: after a successful [Start], every later [Start] is
    refused, also after a stop; a failed bind leaves the client startable; [Stop] before [Start] is
    refused and every [Stop] after the first returns the first one's verdict. *)
Lemma lifecycle_runs_once addr e v v' l :
  Start addr None NotStarted = (Started, None) /\
  (exists e', Start addr (Some e) NotStarted = (NotStarted, Some e') /\
              forall s, errorsIs e' s = errorsIs e s) /\
  Stop v NotStarted = (NotStarted, Some (Sent ErrNotStarted)) /\
  (l <> NotStarted -> forall bind,
     Start addr bind l = (l, Some (Sent ErrAlreadyStarted)) /\
     Stop v' (Stop v l).1 = ((Stop v l).1, (Stop v l).2)).
Proof.
  split_all; [done| |done|].
  - eexists. split; [reflexivity|]. intros s. simpl. by rewrite orb_false_r.
  - intros Hl bind. by destruct l.
Qed.

(** ** Witnesses *)

(** Three jobs wait; the pool has two workers. *)
Definition poolStore : MemDriver :=
  run [(1000, CInsertMany [demoParams "a"; demoParams "b"; demoParams "c"])] New.

Definition poolState : ClientState MemDriver :=
  MkState poolStore newInflightSet false (MkEnv (MkWorld 0 []) (newCollectors 2) ∅).

Definition poolTick (id : Z) (i : nat) : Time := 2000 + Z.of_nat i.

Definition poolRound : option (ClientState MemDriver * list JobRow) :=
  claimRound demoClient Background poolTick (fun _ _ => 0) (fun _ => 2000) (fun _ => false) 2 poolState.

Definition poolAfter : ClientState MemDriver :=
  match poolRound with Some (st, _) => st | None => poolState end.

Definition poolRows : list JobRow := match poolRound with Some (_, rows) => rows | None => [] end.

Lemma poolRound_two : ID <$> poolRows = [1; 2].
Proof. vm_compute. reflexivity. Qed.

Lemma poolRound_eq : poolRound = Some (poolAfter, poolRows).
Proof.
  unfold poolAfter, poolRows. destruct poolRound as [[st rows]|] eqn:E; [done|]. by vm_compute in E.
Qed.

Definition poolDispatching : Pool MemDriver := MkPool poolAfter 0 (FDispatch poolRows) [] 0 false.

Lemma poolDispatching_reachable : reachable demoClient poolState poolDispatching.
Proof.
  unfold reachable, newRunner. change (workerCount demoClient) with 2%nat.
  eapply rtc_l; [apply step_first|]. eapply rtc_l; [apply step_more; vm_compute; lia|].
  eapply rtc_l; [apply step_acquired; left; vm_compute; lia|].
  assert (exists row rest, poolRows = row :: rest /\ length rest = 1%nat) as (row & rest & E & Hl).
  { pose proof poolRound_two as Hx. destruct poolRows as [|row [|row' [|? ?]]]; try done.
    by exists row, [row']. }
  unfold poolDispatching. rewrite E.
  eapply rtc_l; [|apply rtc_refl].
  pose proof poolRound_eq as HR. rewrite E in HR.
  pose proof (step_claim demoClient Background poolTick (fun _ _ => 0) (fun _ => 2000) (fun _ => false)
    poolState poolAfter row rest 0 2 [] 0 false HR) as Hs.
  cbn [length] in Hs. rewrite Hl in Hs. exact Hs.
Qed.

Lemma pool_never_overclaims_witness :
  (0 + length poolRows + 0 + 0)%nat = workerCount demoClient /\
  (forall row rows, FDispatch poolRows = FDispatch (row :: rows) ->
     exists p', step demoClient poolDispatching p' /\ running p' = [row]) /\
  (forall l, l ∈ snapshot (cInflight poolAfter) -> l ∈ leasesOf (poolRows ++ [])) /\
  (FDispatch poolRows = FExit -> @nil JobRow = [] -> 0%nat = 0%nat ->
     0%nat = workerCount demoClient /\ snapshot (cInflight poolAfter) = []).
Proof.
  exact (pool_never_overclaims demoClient poolState poolDispatching eq_refl poolDispatching_reachable).
Defined.

Lemma claimRound_claims_witness :
  exists st' rows,
    claimRound demoClient Background poolTick (fun _ _ => 0) (fun _ => 2000) (fun _ => false) 2 poolState
      = Some (st', rows) /\
    (length rows <= 2)%nat /\
    claimedSo demoClient (fun _ => 2000) (qname <$> queues demoClient) (cStore poolState) (cInflight poolState) rows st'.
Proof.
  apply (claimRound_claims demoClient Background poolTick (fun _ _ => 0) (fun _ => 2000)
           (fun _ => false) 2 poolState).
  - lia.
  - repeat constructor; simpl; unfold maxQueueWeight; lia.
  - vm_compute. discriminate.
  - apply run_wf, New_wf.
Defined.

(** Two claimed jobs are still running when the budget ends. *)
Definition strandedState : ClientState MemDriver :=
  MkState (run [(1000, CInsertMany [demoParams "a"; demoParams "b"; demoParams "c"]);
                (2000, CFetchAvailable "default" Minute 2)] New)
    (add (MkLease 1 1) (add (MkLease 2 1) newInflightSet)) false
    (MkEnv (MkWorld 0 []) (newCollectors 2) ∅).

Lemma escalate_returns_jobs_witness :
  let '(st', err) := escalate demoClient Background poolTick strandedState in
  (err = None <-> snapshot (cInflight strandedState) = []) /\
  (forall e, err = Some e -> errorsIs e ErrDrainIncomplete = true) /\
  drvWf (cStore st') /\ cInflight st' = cInflight strandedState /\
  (forall l r, tracked l (cInflight strandedState) -> leaseHeld (cStore strandedState) l r ->
     exists r', rowAt (cStore st') (leaseID l) = Some r' /\ State r' = StateRetryable /\
       Attempt r' = Attempt r /\ LeasedUntil r' = None /\
       ScheduledAt r' = drvTime MemDriver (poolTick (leaseID l) 1%nat)) /\
  (forall id r, rowAt (cStore strandedState) id = Some r ->
     State r <> StateRunning \/ ~ tracked (MkLease id (Attempt r)) (cInflight strandedState) ->
     rowAt (cStore st') id = Some r).
Proof.
  apply (escalate_returns_jobs demoClient Background poolTick strandedState).
  - intros id. vm_compute. reflexivity.
  - intros id. vm_compute. reflexivity.
  - apply run_wf, New_wf.
  - intros l Hl. apply snapshot_elem in Hl. revert l Hl. apply Forall_forall.
    repeat constructor; vm_compute; discriminate.
Defined.
