(* ===== verification/Example.v ===== *)
(** * Example: the email pipeline

    Models examples/email: the delivery stub of delivery.go, and the payload, worker, middleware,
    enqueueing and life of the program of main.go, over any driver.  The program's own lines on
    the standard logger are records of the log.  [encoding/json] on the payload is the pair
    [marshal] and [unmarshal], of which it is only assumed that decoding gives back what was
    encoded. *)

From S2P Require Import Prelude GoTime GoError GoRuntime GoText DriverSpec Metrics Middleware Inflight.
From S2P Require Import Retry Enqueue Client Queues Loop Pool.
From S2P Require Import Memdriver MemdriverFacts MemdriverProps.

(** ** delivery.go *)

(** The 32-bit FNV-1a hash: [Write] folds the bytes into the state, [Sum32] is the state. *)
Definition fnvOffset32 : Z := 2166136261.
Definition fnvPrime32 : Z := 16777619.

Definition fnvStep (h : Z) (c : ascii) : Z :=
  (Z.lxor h (Z.of_nat (nat_of_ascii c)) * fnvPrime32) mod 2 ^ 32.

Fixpoint fnvWrite (h : Z) (s : string) : Z :=
  match s with
  | EmptyString => h
  | String c r => fnvWrite (fnvStep h c) r
  end.

Definition Sum32a (s : string) : Z := fnvWrite fnvOffset32 s.

Definition isFlaky (to : string) : bool := Sum32a to mod 3 =? 0.

Definition deliver (to : string) (attempt : Z) : option error :=
  if isFlaky to && (attempt <=? 1) then Some (Msg ("delivery: smtp timeout sending to " +:+ to))
  else None.

(** ** main.go *)

Definition recipientCount : nat := 20.
Definition workerConcurrency : Z := 4.
Definition digestQueue : string := "digests".
Definition digestDelay : Duration := 5 * Second.
Definition handlerTimeout : Duration := 10 * Second.

Record SendWelcomeEmail := MkEmail { mailTo : string; mailTemplate : string }.

Definition emailKind : string := "send_welcome_email".

(** [%-24s] *)
Definition padRight (n : nat) (s : string) : string :=
  s +:+ String.concat "" (repeat " " (n - String.length s)).

(** A line on the standard logger. *)
Definition printf (msg : string) (e : Env) : Env := logEnv e LevelInfo msg None.

Definition Work (_ : Ctx) (job : Job SendWelcomeEmail) (e : Env) : Env * outcome (option error) :=
  let a := jobArgs _ job in
  match deliver (mailTo a) (jobAttempt _ job) with
  | Some err =>
      (e, Returns (Some (Wrapf ("send " +:+ mailTemplate a +:+ " to " +:+ mailTo a +:+ " (attempt "
                                +:+ itoa (jobAttempt _ job) +:+ "): " +:+ errorText err) [err])))
  | None =>
      (printf ("delivered " +:+ padRight 24 (mailTo a) +:+ " attempt " +:+ itoa (jobAttempt _ job)) e,
       Returns None)
  end.

(** [queueCounts]: the map behind the mutex is [locals]. *)
Definition newQueueCounts : gmap string Z := ∅.

Definition recordQueue (queue : string) (e : Env) : Env :=
  MkEnv (world e) (metrics e) (<[queue := default 0 (locals e !! queue) + 1]> (locals e)).

Definition total (e : Env) : gmap string Z := locals e.

Definition perQueueCounts : Middleware := fun next ctx job e =>
  match next ctx job e with
  | (e', Returns None) => (recordQueue (Queue job) e', Returns None)
  | r => r
  end.

Section Example.
Variables (marshal : SendWelcomeEmail -> res error string) (unmarshal : string -> res error SendWelcomeEmail).

Definition emailArgs (m : SendWelcomeEmail) : JobArgs := {| argKind := emailKind; argJSON := marshal m |}.

Definition digestMail : SendWelcomeEmail := MkEmail "digest-subscribers@example.com" "digest".

Definition exampleConfig (ws : Workers) : Config :=
  {| cfgWorkers := Some ws; cfgPollInterval := 0; cfgNotifyWakeup := false; cfgRetryPolicy := None;
     cfgMiddleware := [Some (Timeout handlerTimeout); Some perQueueCounts];
     cfgQueues := <["default" := 4]> {[ digestQueue := 1 ]};
     cfgConcurrency := workerConcurrency; cfgLeaseDuration := 0; cfgHeartbeatInterval := 0;
     cfgRescueInterval := 0; cfgMetricsRegistry := None; cfgStatsInterval := 0; cfgOpsAddr := "";
     cfgPeriodicJobs := [{| pjID := "hourly-digest"; pjCron := "@every 1h";
                            pjArgs := Some (emailArgs digestMail);
                            pjOpts := Some {| optQueue := digestQueue; optScheduledAt := zeroTime;
                                              optUniqueKey := "" |};
                            pjLocation := None |}] |}.

Definition recipient (i : nat) : string := "user" +:+ itoa (Z.of_nat i) +:+ "@example.com".

Section Enqueue.
Context {S : Type} `{Driver S}.

Definition printState (msg : string) (st : ClientState S) : ClientState S := setEnv (printf msg (cEnv st)) st.

(** The loop from recipient [i], [left_] of them to go, [flaky] counted; [now i] is when the [i]-th
    is inserted.  The client does not notify. *)
Fixpoint batchLoop (now : nat -> Time) (i left_ flaky : nat) (st : ClientState S)
    : ClientState S * res error nat :=
  match left_ with
  | O => (st, Ok flaky)
  | Datatypes.S left' =>
      let to := recipient i in
      let flaky' := if isFlaky to then Datatypes.S flaky else flaky in
      match clientInsert false None (now i) (Some (emailArgs (MkEmail to "welcome"))) None st with
      | (st', Err e) => (st', Err e)
      | (st', Ok _) => batchLoop now (Datatypes.S i) left' flaky' st'
      end
  end.

Definition enqueueBatch (now : nat -> Time) (st : ClientState S) : ClientState S * option error :=
  match batchLoop now 1 recipientCount 0 st with
  | (st', Err e) => (st', Some e)
  | (st', Ok flaky) =>
      (printState ("enqueued " +:+ itoa (Z.of_nat recipientCount) +:+ " emails; "
         +:+ itoa (Z.of_nat flaky)
         +:+ " of them will fail their first delivery attempt and retry") st', None)
  end.

(** [now] when the options are built, [at_] when the row is inserted. *)
Definition enqueueDigest (now at_ : Time) (st : ClientState S) : ClientState S * option error :=
  match clientInsert false None at_ (Some (emailArgs digestMail))
          (Some {| optQueue := digestQueue; optScheduledAt := now + digestDelay; optUniqueKey := "" |}) st with
  | (st', Err e) => (st', Some e)
  | (st', Ok _) =>
      (printState ("scheduled a digest email on queue " +:+ quote digestQueue +:+ ", claimable in 5s") st', None)
  end.

(** What the program meets: its environment, the answers of the calls it does not make itself, and
    what the pool does between the start and the interrupt, with the verdict of the shutdown. *)
Record exampleWorld := {
  exDatabaseURL : string;
  exConnect : option error;
  exMigrate : option error;
  exNow : nat -> Time;
  exWorked : Client -> ClientState S -> ClientState S;
  exVerdict : option error
}.

Definition failWith (op : string) (e : error) : outcome (option error) :=
  Returns (Some (Wrapf (op +:+ ": " +:+ errorText e) [e])).

(** [for _, queue := range slices.Sorted(maps.Keys(total))] *)
Definition printTotals (st : ClientState S) : ClientState S :=
  let t := total (cEnv st) in
  foldl (fun st queue =>
    printState ("completed " +:+ itoa (default 0 (t !! queue)) +:+ " job(s) on queue " +:+ quote queue) st)
    st (SortFunc compareString (map_to_list t).*1).

Definition run (stack : string) (validLabel : string -> bool)
    (register : Registry -> collector -> option string) (w : exampleWorld) (st : ClientState S)
    : ClientState S * outcome (option error) :=
  if String.eqb (exDatabaseURL w) ""
  then (st, Returns (Some (Msg "DATABASE_URL must be set, e.g. postgres://localhost:5432/drover_example")))
  else match exConnect w with
  | Some e => (st, failWith "connect to postgres" e)
  | None =>
  match exMigrate w with
  | Some e => (st, failWith "migrate" e)
  | None =>
  match Register emailKind unmarshal Work NewWorkers with
  | Panics v => (st, Panics v)
  | Returns ws =>
  match NewClient false stack validLabel register (exampleConfig ws) (world (cEnv st)) with
  | Panics v => (st, Panics v)
  | Returns (Err e) => (st, failWith "build client" e)
  | Returns (Ok (client, lg)) =>
      let st0 := setEnv (MkEnv lg (clientMetrics client) newQueueCounts) st in
      match enqueueBatch (exNow w) st0 with
      | (st1, Some e) => (st1, failWith "enqueue batch" e)
      | (st1, None) =>
      match enqueueDigest (exNow w 21%nat) (exNow w 22%nat) st1 with
      | (st2, Some e) => (st2, failWith "enqueue digest" e)
      | (st2, None) =>
      match Start (opsAddr client) None NotStarted with
      | (_, Some e) => (st2, failWith "start" e)
      | (l, None) =>
          let st3 := exWorked w client
            (printState ("working the queue with " +:+ itoa workerConcurrency
                         +:+ " workers; press ctrl-c to stop") st2) in
          let st4 := printState "received interrupt, draining in-flight jobs (up to 30s)" st3 in
          match Stop (exVerdict w) l with
          | (_, Some e) => (st4, failWith "shutdown incomplete" e)
          | (_, None) =>
              (printTotals (printState
                 "shutdown complete: every in-flight job finished and recorded its outcome" st4),
               Returns None)
          end
      end end end
  end end end end.

(** [log.Fatal] prints the error and exits with 1; a panic ends a program with 2. *)
Definition main (stack : string) (validLabel : string -> bool)
    (register : Registry -> collector -> option string) (w : exampleWorld) (st : ClientState S)
    : ClientState S * Z :=
  match run stack validLabel register w st with
  | (st', Returns None) => (st', 0)
  | (st', Returns (Some e)) => (printState (errorText e) st', 1)
  | (st', Panics _) => (st', 2)
  end.
End Enqueue.
End Example.

(** The addresses the tests of delivery.go pin down. *)
Example isFlaky_ada : isFlaky "ada@example.com" = true. Proof. vm_compute. reflexivity. Qed.
Example isFlaky_grace : isFlaky "grace@example.com" = false. Proof. vm_compute. reflexivity. Qed.
Example isFlaky_user1 : isFlaky "user1@example.com" = true. Proof. vm_compute. reflexivity. Qed.
Example isFlaky_user5 : isFlaky "user5@example.com" = false. Proof. vm_compute. reflexivity. Qed.

(** ** Lemmas *)

Lemma register_email unmarshal :
  Register emailKind unmarshal Work NewWorkers = Returns {[ emailKind := workerHandler unmarshal Work ]}.
Proof. reflexivity. Qed.

Lemma exampleClient_built marshal stack validLabel register ws w :
  registryLaws register ->
  exists c w', newClient stack validLabel register (exampleConfig marshal ws) w = Returns (c, w') /\
    chain c = clientChain stack validLabel ws [Timeout handlerTimeout; perQueueCounts] /\
    retryPolicy c = Exponential /\ opsAddr c = "" /\ concurrency c = 4 /\ leaseDuration c = Minute /\
    (qname <$> queues c) = ["default"; "digests"].
Proof.
  intros Hlaws. unfold newClient, exampleConfig.
  cbn [cfgWorkers cfgQueues cfgMiddleware cfgPeriodicJobs cfgMetricsRegistry default].
  assert (exists qs, checkedQueues (<["default" := 4]> {[ digestQueue := 1 ]}) = Ok qs /\
            (qname <$> qs) = ["default"; "digests"]) as (qs & -> & Hq).
  { eexists. split; [vm_compute; reflexivity | reflexivity]. }
  unfold newMetricSet. destruct (MustRegister_cases register NewRegistry droverCollectors) as [[-> _]|[_ [k Hk]]];
    [|by destruct (fresh_registry_accepts register NewRegistry Hlaws (fun _ _ => not_elem_of_nil _) k)].
  cbn [checkedMiddleware].
  assert (forall jobs, jobs = cfgPeriodicJobs (exampleConfig marshal ws) ->
    exists es, checkedPeriodicJobs jobs = Returns es) as Hp.
  { intros jobs ->. unfold checkedPeriodicJobs. cbn. eexists. reflexivity. }
  destruct (Hp _ eq_refl) as (es & He). cbn [exampleConfig cfgPeriodicJobs] in He. rewrite He.
  eexists _, _. split; [reflexivity|]. by split_all.
Qed.

Lemma email_dispatch unmarshal stack ws mail job :
  ws !! emailKind = Some (workerHandler unmarshal Work) ->
  Kind job = emailKind -> unmarshal (Args job) = Ok mail ->
  forall ctx e, dispatch stack ws ctx job e =
    Work ctx (MkJob (ID job) (Attempt job) (CreatedAt job) mail) e.
Proof.
  intros Hws Hk Hu ctx e. unfold dispatch, handler. rewrite Hk, Hws. unfold workerHandler. rewrite Hu.
  unfold Work. by destruct (deliver _ _).
Qed.

(** What the client's chain makes of an email: the attempt fails exactly where the stub does, and
    a success is counted on the job's queue. *)
Lemma email_verdict unmarshal stack validLabel ws mail ctx job e :
  ws !! emailKind = Some (workerHandler unmarshal Work) ->
  Kind job = emailKind -> unmarshal (Args job) = Ok mail ->
  let out := execute stack (clientChain stack validLabel ws [Timeout handlerTimeout; perQueueCounts]) ctx job e in
  match deliver (mailTo mail) (Attempt job) with
  | Some _ => exists err, out.2 = Some err /\ classifyOutcome err = (outcomeFailed, 0) /\
                locals out.1 = locals e
  | None => out.2 = None /\
      locals out.1 = <[Queue job := default 0 (locals e !! Queue job) + 1]> (locals e)
  end.
Proof.
  intros Hws Hk Hu out. pose proof (email_dispatch unmarshal stack ws mail job Hws Hk Hu) as Hdisp.
  assert (deliver (mailTo mail) (Attempt job) = None \/
          exists t, deliver (mailTo mail) (Attempt job) = Some (Msg t)) as Hcases.
  { unfold deliver. destruct (_ && _); eauto. }
  unfold out, execute, clientChain. simpl app. rewrite !wrap_cons. unfold Logging, metricsMiddleware.
  change (Timeout handlerTimeout) with (fun (next : Handler) ctx job e =>
    next (WithTimeout (clock (world e)) ctx handlerTimeout) job e).
  unfold perQueueCounts. cbv beta zeta. change (wrap (dispatch stack ws) []) with (dispatch stack ws).
  rewrite Hdisp. unfold Work, observeExecution. cbn [jobArgs jobAttempt].
  destruct Hcases as [-> | (t & ->)]; simpl; destruct (validLabel (Queue job)); simpl; try done;
    eexists; (split; [reflexivity|]); by split.
Qed.

(** ** Properties *)

(** Every email is delivered by its second attempt.  Over any store that keeps the contract,
    when the client the program builds runs a claimed email job that has attempts left: the
    first attempt on an address of the flaky subset leaves the job retryable, with its attempt
    spent, and every other attempt completes it; only a completed one is counted, on the queue
    it ran on; and no other job is touched. *)
Theorem email_by_second_attempt {S} `{DriverLaws S} marshal unmarshal mail stack validLabel register lg
    k tick ctx row r (st : ClientState S) :
  registryLaws register ->
  (forall a, marshal mail = Ok a -> unmarshal a = Ok mail) ->
  marshal mail = Ok (Args row) -> Kind row = emailKind -> Attempt row < MaxAttempts row ->
  drvWf (cStore st) -> leaseHeld (cStore st) (leaseOf row) r ->
  jsonYearOk (tick 0%nat) = true -> tick 3%nat < tick 4%nat + Minute ->
  exists ws c lg', Register emailKind unmarshal Work NewWorkers = Returns ws /\
    newClient stack validLabel register (exampleConfig marshal ws) lg = Returns (c, lg') /\
    let st' := runJob c stack k tick id ctx row st in
    let retried := isFlaky (mailTo mail) && (Attempt row <=? 1) in
    exists r', onlyRow (cStore st) (cStore st') (ID row) r' /\
      State r' = (if retried then StateRetryable else StateCompleted) /\ Attempt r' = Attempt row /\
      total (cEnv st') = (if retried then total (cEnv st)
                          else <[Queue row := default 0 (total (cEnv st) !! Queue row) + 1]> (total (cEnv st))).
Proof.
  intros Hlaws Hround Hm Hk Hleft Hwf Hheld Hy Ht.
  set (ws := {[ emailKind := workerHandler unmarshal Work ]} : Workers).
  destruct (exampleClient_built marshal stack validLabel register ws lg Hlaws) as (c & lg' & Hb & Hc & _ & _ & _ & Hd & _).
  exists ws, c, lg'. split; [apply register_email|]. split; [done|]. intros st' retried.
  assert (ws !! emailKind = Some (workerHandler unmarshal Work)) as Hws by apply lookup_singleton_eq.
  pose proof (email_verdict unmarshal stack validLabel ws mail ctx row (cEnv st) Hws Hk (Hround _ Hm)) as Hv.
  rewrite <- Hc in Hv. unfold st', runJob. rewrite rowFromDriver_id.
  change (cEnv (setInflight (add (MkLease (ID row) (Attempt row)) (cInflight st)) st)) with (cEnv st).
  destruct (execute stack (chain c) ctx row (cEnv st)) as [env err]. simpl in Hv.
  set (st1 := id _). rewrite <- Hd in Ht.
  destruct (finishJob_settles c k tick ctx row err st1 Hwf Hy Ht) as ([Hs _] & _).
  unfold total. rewrite finishJob_locals. change (locals (cEnv st1)) with (locals env).
  specialize (Hs r Hheld). destruct Hheld as (_ & _ & Ha). simpl in Ha. eexists. split; [exact Hs|].
  assert (forall j, Attempt (appendDetail j r) = Attempt r) as Hap by (intros j; unfold appendDetail; by repeat casematch).
  unfold deliver in Hv. fold retried in Hv. destruct retried.
  - destruct Hv as (e & -> & He & ->). unfold fate. rewrite He.
    destruct (Z.leb_spec (MaxAttempts row) (Attempt row)); [lia|]. unfold retryRow.
    cbn [State Attempt setLeasedUntil setScheduledAt setState]. rewrite Hap, Ha. split_all; reflexivity.
  - destruct Hv as [-> ->]. rewrite <- Ha. split_all; reflexivity.
Qed.

(** ** Witnesses *)

Definition demoMarshal (m : SendWelcomeEmail) : res error string := Ok (mailTo m +:+ " " +:+ mailTemplate m).
Definition demoUnmarshal (a : string) : res error SendWelcomeEmail :=
  let '(x, y, _) := Cut " " a in Ok (MkEmail x y).

Definition exampleStart : ClientState MemDriver :=
  MkState New newInflightSet false (MkEnv (MkWorld 0 []) (newCollectors 4) ∅).

Definition quietWorld (verdict : option error) : exampleWorld (S := MemDriver) :=
  {| exDatabaseURL := "postgres://localhost:5432/drover_example"; exConnect := None; exMigrate := None;
     exNow := fun i => 1000 + Z.of_nat i; exWorked := fun _ st => st; exVerdict := verdict |}.

Definition exampleRun (verdict : option error) : ClientState MemDriver * Z :=
  main demoMarshal demoUnmarshal "stack" (fun _ => true) registerByName (quietWorld verdict) exampleStart.

(** The program stores its 21 jobs, 20 to run at once and the digest held back on its own
    queue, says how many of them the stub will fail, and exits with the verdict of the shutdown. *)
Example exampleRun_stores :
  (exampleRun None).2 = 0 /\ (exampleRun (Some (Sent ErrDrainIncomplete))).2 = 1 /\
  map_size (jobs (cStore (exampleRun None).1)) = 21%nat.
Proof. vm_compute. auto. Qed.

(** The first of them is claimed: its address is flaky. *)
Definition exampleClaim : ClientState MemDriver * list JobRow :=
  let st := (exampleRun None).1 in
  let '(s, r) := FetchAvailable 2000 "default" Minute 1 (cStore st) in
  (setStore s st, match r with Ok rows => rows | Err _ => [] end).

Definition exampleRow : JobRow := default (witnessRow 1) (head exampleClaim.2).

(** The calls the program made, as a trace of the driver. *)
Definition exampleTrace : list (Time * call) :=
  ((fun i => (1000 + Z.of_nat i, CInsert
      {| ipKind := emailKind; ipQueue := "default"; ipArgs := recipient i +:+ " welcome";
         ipScheduledAt := zeroTime; ipUniqueKey := "" |})) <$> seq 1 20) ++
  [(1022, CInsert {| ipKind := emailKind; ipQueue := digestQueue; ipArgs := mailTo digestMail +:+ " digest";
                     ipScheduledAt := 1021 + digestDelay; ipUniqueKey := "" |});
   (2000, CFetchAvailable "default" Minute 1)].

Lemma exampleStore_wf : wf (cStore exampleClaim.1).
Proof.
  assert (cStore exampleClaim.1 = Memdriver.run exampleTrace New) as -> by (vm_compute; reflexivity).
  apply run_wf, New_wf.
Qed.

Lemma email_by_second_attempt_witness :
  ID <$> exampleClaim.2 = [1] /\
  exists ws c lg', Register emailKind demoUnmarshal Work NewWorkers = Returns ws /\
    newClient "stack" (fun _ => true) registerByName (exampleConfig demoMarshal ws) (MkWorld 0 []) = Returns (c, lg') /\
    let st' := runJob c "stack" 7 demoTick id Background exampleRow exampleClaim.1 in
    exists r', onlyRow (cStore exampleClaim.1) (cStore st') 1 r' /\ State r' = StateRetryable /\ Attempt r' = 1 /\
      total (cEnv st') = total (cEnv exampleClaim.1).
Proof.
  split; [vm_compute; reflexivity|].
  apply (email_by_second_attempt demoMarshal demoUnmarshal (MkEmail "user1@example.com" "welcome") "stack"
    (fun _ => true) registerByName (MkWorld 0 []) 7 demoTick Background exampleRow exampleRow exampleClaim.1).
  - exact registerByName_laws.
  - intros a [= <-]. vm_compute. reflexivity.
  - vm_compute. reflexivity.
  - vm_compute. reflexivity.
  - vm_compute. reflexivity.
  - exact exampleStore_wf.
  - split; [|split]; vm_compute; reflexivity.
  - vm_compute. reflexivity.
  - vm_compute. reflexivity.
Defined.
