(* ===== verification/StatsRefresher.v ===== *)
(** * StatsRefresher: publishing the queue gauges

    Models stats.go and the readiness check of pool.go and ops.go.  A refresh mutates the
    gauges one series at a time while scrapes may read them, so it is modelled
    with every state it passes through.  The walks over Go maps take the order of
    [map_to_list]; the results below do not depend on it. *)

From S2P Require Import Prelude GoTime GoError GoRuntime DriverSpec Metrics Queues.

Definition publishedDepthStates : list string :=
  ["available"; "scheduled"; "retryable"; "running"; "dead"].

Definition depthKey : Type := (string * string)%type.

(** The refresher's own state, beside the metrics and the log. *)
Record statsRefresher := MkRefresher {
  lastSuccess : Time;
  depthKeys : gset (string * string);
  ageKeys : gset string
}.

Section Refresher.
Variables (validLabel : string -> bool) (queues : list weightedQueue).

(** The pairs a refresher seeds for every configured queue. *)
Definition seedKeys : list (string * string) :=
  q ← queues; (fun state => (qname q, state)) <$> publishedDepthStates.

(** [seedConfiguredZeros] *)
Definition seedConfiguredZeros (m : metricSet) (w : World) : metricSet * World :=
  foldl (fun '(m, w) q =>
    let '(m, w) := foldl (fun '(m, w) state => setDepth validLabel (qname q) state fzero m w)
                     (m, w) publishedDepthStates in
    setOldestAge validLabel (qname q) fzero m w) (m, w) queues.

Definition newStatsRefresher (m : metricSet) (w : World) : statsRefresher * (metricSet * World) :=
  (MkRefresher zeroTime (list_to_set seedKeys) (list_to_set (qname <$> queues)),
   seedConfiguredZeros m w).

(** The two maps one reading turns into. *)
Definition seededDepths : gmap (string * string) float64 :=
  foldl (fun d k => <[k := fzero]> d) ∅ seedKeys.

Definition seededAges : gmap string float64 := foldl (fun a q => <[qname q := fzero]> a) ∅ queues.

Definition depthsOf (stats : Stats) : gmap (string * string) float64 :=
  foldl (fun d x => <[(qdQueue x, qdState x) := ofInt (qdCount x)]> d) seededDepths (Depths stats).

Definition agesOf (stats : Stats) : gmap string float64 :=
  let seen := foldl (fun a x => match a !! qdQueue x with Some _ => a | None => <[qdQueue x := fzero]> a end)
                seededAges (Depths stats) in
  foldl (fun a x => <[qaQueue x := AgeSeconds x]> a) seen (Oldest stats).

(** Every state [steps] passes through, the last one last. *)
Fixpoint passes {A} (steps : list (A -> A)) (x : A) : list A :=
  match steps with
  | [] => [x]
  | f :: rest => x :: passes rest (f x)
  end.

(** The mutations of one refresh: every new value first, then the series that
    vanished. *)
Definition mutations (r : statsRefresher) (stats : Stats) : list (metricSet * World -> metricSet * World) :=
  ((fun kv => fun mw => setDepth validLabel kv.1.1 kv.1.2 kv.2 mw.1 mw.2) <$> map_to_list (depthsOf stats)) ++
  ((fun kv => fun mw => setOldestAge validLabel kv.1 kv.2 mw.1 mw.2) <$> map_to_list (agesOf stats)) ++
  ((fun k => fun mw => (deleteDepth k.1 k.2 mw.1, mw.2)) <$>
     List.filter (fun k => bool_decide (depthsOf stats !! k = None)) (elements (depthKeys r))) ++
  ((fun q => fun mw => (deleteOldestAge q mw.1, mw.2)) <$>
     List.filter (fun q => bool_decide (agesOf stats !! q = None)) (elements (ageKeys r))).

(** What a scrape can see during a refresh, and the state after it; [now] is the
    clock at its end.  A failed reading changes nothing. *)
Definition refresh (now : Time) (reading : res error Stats) (r : statsRefresher)
    (mw : metricSet * World) : list (metricSet * World) * statsRefresher * option error :=
  match reading with
  | Err e => ([mw], r, Some e)
  | Ok stats =>
      (passes (mutations r stats) mw,
       MkRefresher now (dom (depthsOf stats)) (dom (agesOf stats)), None)
  end.

(** What the loop in [run] waits for: its ticker, or the end of its context.  A
    tick carries its reading, the clock after it and whether the context has
    ended by then; the first refresh needs no tick. *)
Inductive runEvent :=
  | Tick (now : Time) (reading : res error Stats) (ended : bool)
  | CtxDone.

Definition lastSeen (seen : list (metricSet * World)) (mw : metricSet * World) : metricSet * World :=
  List.last seen mw.

Fixpoint run (events : list runEvent) (r : statsRefresher) (mw : metricSet * World)
    : statsRefresher * (metricSet * World) :=
  match events with
  | [] | CtxDone :: _ => (r, mw)
  | Tick now reading ended :: rest =>
      let '(seen, r', err) := refresh now reading r mw in
      let mw' := lastSeen seen mw in
      match err with
      | None => run rest r' mw'
      | Some _ => if ended then (r', mw')
                  else run rest r' (mw'.1, logTo mw'.2 LevelWarn "drover: refresh queue stats" None)
      end
  end.
End Refresher.

Definition fresh (r : statsRefresher) (now : Time) (bound : Duration) : bool :=
  if IsZero (lastSuccess r) then false else negb (After now (lastSuccess r + bound)).

(** The check behind /readyz. *)
Definition readiness (draining : bool) (r : statsRefresher) (now : Time) (interval : Duration)
    : option error :=
  if draining then Some (Msg "draining")
  else if negb (fresh r now (2 * interval)) then Some (Msg "queue stats stale")
  else None.

(** ** One gauge, abstractly *)

Section Gauge.
Context {K V : Type} `{Countable K}.

Definition gaugeWrite (valid : K -> bool) (g : gmap K V) (kv : K * V) : gmap K V :=
  if valid kv.1 then <[kv.1 := kv.2]> g else g.

Definition gaugeDelete (g : gmap K V) (k : K) : gmap K V := delete k g.

Lemma gaugeWrite_all valid (new : list (K * V)) g k :
  NoDup new.*1 ->
  foldl (gaugeWrite valid) g new !! k =
  (if valid k then match (list_to_map new : gmap K V) !! k with Some v => Some v | None => g !! k end
   else g !! k).
Proof.
  revert g. induction new as [|[k0 v0] new IH]; intros g Hnd; simpl; [by destruct (valid k)|].
  apply NoDup_cons in Hnd as [Hni Hnd]. rewrite (IH _ Hnd). unfold gaugeWrite. simpl.
  destruct (decide (k = k0)) as [->|Hne].
  - rewrite lookup_insert_eq, (not_elem_of_list_to_map_1 new k0) by done.
    destruct (valid k0); [apply lookup_insert_eq | done].
  - rewrite lookup_insert_ne by congruence.
    destruct (valid k0); [|done]. by rewrite lookup_insert_ne by congruence.
Qed.

Lemma gaugeDelete_all (ks : list K) (g : gmap K V) k :
  foldl gaugeDelete g ks !! k = if decide (k ∈ ks) then None else g !! k.
Proof.
  revert g. induction ks as [|k0 ks IH]; intros g.
  - case_decide as Hx; [by apply not_elem_of_nil in Hx | done].
  - simpl foldl. rewrite IH. unfold gaugeDelete.
    destruct (decide (k ∈ ks)) as [Hin|Hni], (decide (k ∈ k0 :: ks)) as [Hin'|Hni']; try done.
    + destruct Hni'. by right.
    + apply elem_of_cons in Hin' as [->|?]; [apply lookup_delete_eq | done].
    + apply lookup_delete_ne. intros ->. destruct Hni'. by left.
Qed.

(** Writing all of [new] and then deleting the old keys outside it leaves the
    valid part of [new], when every series was one of the old keys. *)
Lemma gauge_published valid (new g : gmap K V) (old : list K) k :
  (forall k, is_Some (g !! k) -> k ∈ old /\ valid k = true) ->
  foldl gaugeDelete (foldl (gaugeWrite valid) g (map_to_list new))
    (List.filter (fun k => bool_decide (new !! k = None)) old) !! k =
  if valid k then new !! k else None.
Proof.
  intros Hold.
  rewrite gaugeDelete_all, gaugeWrite_all, list_to_map_to_list by apply NoDup_fst_map_to_list.
  case_decide as Hx.
  - apply list_elem_of_In, filter_In in Hx as [_ Hx]. apply bool_decide_eq_true in Hx.
    rewrite Hx. by destruct (valid k).
  - destruct (g !! k) as [v|] eqn:Hg; [|by destruct (valid k), (new !! k)].
    destruct (Hold k ltac:(eauto)) as [Hin ->]. destruct (new !! k) eqn:Hn; [done|].
    destruct Hx. apply list_elem_of_In, filter_In. split; [by apply list_elem_of_In|].
    by apply bool_decide_eq_true.
Qed.
End Gauge.

(** ** Sequences of mutations *)

Section Passes.
Context {C : Type}.

Definition runAll (steps : list (C -> C)) (c : C) : C := foldl (fun y f => f y) c steps.

Lemma passes_last steps (c : C) : List.last (passes steps c) c = runAll steps c.
Proof.
  enough (Hl : forall d, List.last (passes steps c) d = runAll steps c) by apply Hl.
  revert c. induction steps as [|f steps IH]; intros c d; [done|].
  change (List.last (c :: passes steps (f c)) d = runAll steps (f c)).
  rewrite <- (IH (f c) d). by destruct steps.
Qed.

Lemma passes_keep (P : C -> Prop) steps c :
  P c -> (forall f, f ∈ steps -> forall y, P y -> P (f y)) -> forall y, y ∈ passes steps c -> P y.
Proof.
  revert c. induction steps as [|f steps IH]; simpl; intros c Hc Hf y Hy.
  - by apply list_elem_of_singleton in Hy as ->.
  - apply elem_of_cons in Hy as [->|Hy]; [done|].
    apply (IH (f c)); [apply Hf; [left | done] | | done].
    intros g Hg. apply Hf. by right.
Qed.

Lemma runAll_app s1 s2 (c : C) : runAll (s1 ++ s2) c = runAll s2 (runAll s1 c).
Proof. apply foldl_app. Qed.

(** Running one step per element, seen through a projection. *)
Lemma runAll_proj {A B} (proj : C -> B) (step : A -> C -> C) (f : B -> A -> B) l c :
  (forall a c, proj (step a c) = f (proj c) a) ->
  proj (runAll (step <$> l) c) = foldl f (proj c) l.
Proof.
  intros Hs. revert c. induction l as [|a l IH]; intros c; [done|].
  simpl. change (proj (runAll (step <$> l) (step a c)) = foldl f (f (proj c) a) l).
  by rewrite IH, Hs.
Qed.

Lemma runAll_frame {A B} (proj : C -> B) (step : A -> C -> C) l c :
  (forall a c, proj (step a c) = proj c) -> proj (runAll (step <$> l) c) = proj c.
Proof.
  intros Hs. rewrite (runAll_proj proj step (fun b _ => b) l c) by auto.
  generalize (proj c). induction l; simpl; auto.
Qed.
End Passes.

(** ** What a refresh publishes *)

Section Publishing.
Variables (validLabel : string -> bool) (queues : list weightedQueue).

Definition validPair (k : string * string) : bool := validLabel k.1 && validLabel k.2.

(** Every published series is one the refresher remembers publishing. *)
Definition remembers (r : statsRefresher) (m : metricSet) : Prop :=
  (forall k, is_Some (depth m !! k) -> k ∈ depthKeys r /\ validPair k = true) /\
  (forall q, is_Some (oldestAge m !! q) -> q ∈ ageKeys r /\ validLabel q = true).

(** A reading's value for one series: the last entry that names it, or zero for a
    configured queue. *)
Definition depthReading (stats : Stats) (k : string * string) : option float64 :=
  match List.find (fun x => bool_decide ((qdQueue x, qdState x) = k)) (rev (Depths stats)) with
  | Some x => Some (ofInt (qdCount x))
  | None => if bool_decide (k ∈ seedKeys queues) then Some fzero else None
  end.

Definition ageReading (stats : Stats) (q : string) : option float64 :=
  match List.find (fun x => bool_decide (qaQueue x = q)) (rev (Oldest stats)) with
  | Some x => Some (AgeSeconds x)
  | None => if bool_decide (q ∈ qname <$> queues) || existsb (fun x => bool_decide (qdQueue x = q)) (Depths stats)
            then Some fzero else None
  end.

Lemma setDepth_depth k n (mw : metricSet * World) :
  depth (setDepth validLabel k.1 k.2 n mw.1 mw.2).1 = gaugeWrite validPair (depth mw.1) (k, n).
Proof.
  destruct k as [q s]. unfold setDepth, gaugeWrite, validPair. simpl.
  by destruct (validLabel q && validLabel s).
Qed.

Lemma setDepth_age q s n (mw : metricSet * World) :
  oldestAge (setDepth validLabel q s n mw.1 mw.2).1 = oldestAge mw.1.
Proof. unfold setDepth. by destruct (validLabel q && validLabel s). Qed.

Lemma setOldestAge_age q a (mw : metricSet * World) :
  oldestAge (setOldestAge validLabel q a mw.1 mw.2).1 = gaugeWrite validLabel (oldestAge mw.1) (q, a).
Proof. unfold setOldestAge, gaugeWrite. simpl. by destruct (validLabel q). Qed.

Lemma setOldestAge_depth q a (mw : metricSet * World) :
  depth (setOldestAge validLabel q a mw.1 mw.2).1 = depth mw.1.
Proof. unfold setOldestAge. by destruct (validLabel q). Qed.

(** The insertions of a list of entries into a map, and the last one naming a key. *)
Lemma insertions_lookup {A V} {K} `{Countable K} (key : A -> K) (val : A -> V) l (g : gmap K V) k :
  foldl (fun d x => <[key x := val x]> d) g l !! k =
  match List.find (fun x => bool_decide (key x = k)) (rev l) with
  | Some x => Some (val x)
  | None => g !! k
  end.
Proof.
  induction l as [|x l IH] using rev_ind; [done|].
  rewrite foldl_app, rev_app_distr. simpl. case_bool_decide as Hk.
  - rewrite Hk. apply lookup_insert_eq.
  - by rewrite lookup_insert_ne.
Qed.

Lemma constant_insertions {A V} {K} `{Countable K} (key : A -> K) (v : V) l (g : gmap K V) k :
  foldl (fun d x => <[key x := v]> d) g l !! k =
  if bool_decide (k ∈ key <$> l) then Some v else g !! k.
Proof.
  induction l as [|x l IH] using rev_ind.
  - case_bool_decide as Hk; [by apply not_elem_of_nil in Hk | done].
  - rewrite foldl_app, fmap_app. simpl. destruct (decide (key x = k)) as [Hk|Hk].
    + rewrite Hk, lookup_insert_eq, bool_decide_eq_true_2; [done|]. set_solver.
    + rewrite lookup_insert_ne, IH by done. erewrite bool_decide_ext; [done|]. set_solver.
Qed.

Lemma depthsOf_reading stats k : depthsOf queues stats !! k = depthReading stats k.
Proof.
  unfold depthsOf, depthReading. rewrite insertions_lookup with (key := fun x => (qdQueue x, qdState x)).
  case_match; [done|]. unfold seededDepths.
  rewrite constant_insertions with (key := fun k => k), list_fmap_id. by case_bool_decide.
Qed.

Lemma seen_lookup ds (g : gmap string float64) q :
  foldl (fun a x => match a !! qdQueue x with Some _ => a | None => <[qdQueue x := fzero]> a end) g ds !! q =
  match g !! q with
  | Some a => Some a
  | None => if existsb (fun x => bool_decide (qdQueue x = q)) ds then Some fzero else None
  end.
Proof.
  revert g. induction ds as [|x ds IH]; intros g; simpl; [by case_match|].
  rewrite IH. destruct (g !! qdQueue x) as [a|] eqn:Hx; case_bool_decide as Hq; subst; simpl.
  - by rewrite Hx.
  - done.
  - by rewrite lookup_insert_eq, Hx.
  - by rewrite lookup_insert_ne.
Qed.

Lemma agesOf_reading stats q : agesOf queues stats !! q = ageReading stats q.
Proof.
  unfold agesOf, ageReading. rewrite insertions_lookup with (key := qaQueue).
  case_match; [done|]. rewrite seen_lookup. unfold seededAges.
  rewrite constant_insertions with (key := qname). case_bool_decide; [done|]. simpl. by rewrite lookup_empty.
Qed.

Lemma runAll_depth r stats (mw : metricSet * World) :
  depth (runAll (mutations validLabel queues r stats) mw).1 =
  foldl gaugeDelete (foldl (gaugeWrite validPair) (depth mw.1) (map_to_list (depthsOf queues stats)))
    (List.filter (fun k => bool_decide (depthsOf queues stats !! k = None)) (elements (depthKeys r))).
Proof.
  unfold mutations. rewrite !runAll_app.
  rewrite (runAll_frame (fun mw : metricSet * World => depth mw.1)) by done.
  rewrite (runAll_proj (fun mw : metricSet * World => depth mw.1) _ gaugeDelete)
    by (by intros [? ?] [? ?]).
  rewrite (runAll_frame (fun mw : metricSet * World => depth mw.1)) by (intros; apply setOldestAge_depth).
  rewrite (runAll_proj (fun mw : metricSet * World => depth mw.1) _ (gaugeWrite validPair)); [done|].
  intros [k n] mw'. apply setDepth_depth.
Qed.

Lemma runAll_age r stats (mw : metricSet * World) :
  oldestAge (runAll (mutations validLabel queues r stats) mw).1 =
  foldl gaugeDelete (foldl (gaugeWrite validLabel) (oldestAge mw.1) (map_to_list (agesOf queues stats)))
    (List.filter (fun q => bool_decide (agesOf queues stats !! q = None)) (elements (ageKeys r))).
Proof.
  unfold mutations. rewrite !runAll_app.
  rewrite (runAll_proj (fun mw : metricSet * World => oldestAge mw.1) _ gaugeDelete) by done.
  rewrite (runAll_frame (fun mw : metricSet * World => oldestAge mw.1)) by done.
  rewrite (runAll_proj (fun mw : metricSet * World => oldestAge mw.1) _ (gaugeWrite validLabel)).
  - by rewrite (runAll_frame (fun mw : metricSet * World => oldestAge mw.1)) by (intros; apply setDepth_age).
  - intros [q a] mw'. apply setOldestAge_age.
Qed.

Lemma depth_published r stats (mw : metricSet * World) k :
  remembers r mw.1 ->
  depth (runAll (mutations validLabel queues r stats) mw).1 !! k =
  if validPair k then depthReading stats k else None.
Proof.
  intros [Hd _]. rewrite runAll_depth, gauge_published, depthsOf_reading; [done|].
  intros k' Hk. destruct (Hd k' Hk). split; [by apply elem_of_elements | done].
Qed.

Lemma age_published r stats (mw : metricSet * World) q :
  remembers r mw.1 ->
  oldestAge (runAll (mutations validLabel queues r stats) mw).1 !! q =
  if validLabel q then ageReading stats q else None.
Proof.
  intros [_ Ha]. rewrite runAll_age, gauge_published, agesOf_reading; [done|].
  intros q' Hq. destruct (Ha q' Hq). split; [by apply elem_of_elements | done].
Qed.

(** No mutation removes a series the reading still has. *)
Lemma mutation_keeps_depth r stats k f :
  f ∈ mutations validLabel queues r stats -> is_Some (depthsOf queues stats !! k) ->
  forall mw, is_Some (depth mw.1 !! k) -> is_Some (depth (f mw).1 !! k).
Proof.
  intros Hf [n Hn] mw Hk. unfold mutations in Hf.
  repeat (apply elem_of_app in Hf as [Hf|Hf]); apply list_elem_of_fmap in Hf as [x [-> Hx]].
  - rewrite setDepth_depth. unfold gaugeWrite. case_match; [|done].
    by apply lookup_insert_is_Some'; right.
  - by rewrite setOldestAge_depth.
  - apply list_elem_of_In, filter_In in Hx as [_ Hx]. apply bool_decide_eq_true in Hx.
    destruct x as [q s]. simpl. rewrite lookup_delete_ne; [done|]. congruence.
  - done.
Qed.

Lemma mutation_keeps_age r stats q f :
  f ∈ mutations validLabel queues r stats -> is_Some (agesOf queues stats !! q) ->
  forall mw, is_Some (oldestAge mw.1 !! q) -> is_Some (oldestAge (f mw).1 !! q).
Proof.
  intros Hf [n Hn] mw Hk. unfold mutations in Hf.
  repeat (apply elem_of_app in Hf as [Hf|Hf]); apply list_elem_of_fmap in Hf as [x [-> Hx]].
  - by rewrite setDepth_age.
  - rewrite setOldestAge_age. unfold gaugeWrite. case_match; [|done].
    by apply lookup_insert_is_Some'; right.
  - done.
  - apply list_elem_of_In, filter_In in Hx as [_ Hx]. apply bool_decide_eq_true in Hx.
    simpl. rewrite lookup_delete_ne; [done|]. congruence.
Qed.

Lemma remembers_after now r stats (mw : metricSet * World) :
  remembers r mw.1 ->
  remembers (MkRefresher now (dom (depthsOf queues stats)) (dom (agesOf queues stats)))
    (runAll (mutations validLabel queues r stats) mw).1.
Proof.
  intros Hr. split; intros k; simpl; rewrite elem_of_dom.
  - rewrite depth_published, depthsOf_reading by done. destruct (validPair k); [done | by intros [? [=]]].
  - rewrite age_published, agesOf_reading by done. destruct (validLabel k); [done | by intros [? [=]]].
Qed.

Lemma foldl_keeps {A C} (P : C -> Prop) (f : C -> A -> C) l c :
  P c -> (forall c a, a ∈ l -> P c -> P (f c a)) -> P (foldl f c l).
Proof.
  revert c. induction l as [|a l IH]; simpl; intros c Hc Hf; [done|].
  apply IH; [apply Hf; [left | done]|]. intros c' a' Ha. apply Hf. by right.
Qed.

Lemma gaugeWrite_remembered {K V} `{Countable K} (valid : K -> bool) (S : K -> Prop) (g : gmap K V) kv :
  S kv.1 -> (forall k, is_Some (g !! k) -> S k /\ valid k = true) ->
  forall k, is_Some (gaugeWrite valid g kv !! k) -> S k /\ valid k = true.
Proof.
  intros HS Hg k Hk. unfold gaugeWrite in Hk. destruct (valid kv.1) eqn:Hv; [|by apply Hg].
  apply lookup_insert_is_Some' in Hk as [<-|Hk]; [done | by apply Hg].
Qed.

(** A new refresher remembers the zeros it seeded. *)
Lemma newStatsRefresher_remembers concurrency w r mw :
  newStatsRefresher validLabel queues (newCollectors concurrency) w = (r, mw) -> remembers r mw.1.
Proof.
  injection 1 as <- <-. unfold seedConfiguredZeros.
  set (r := MkRefresher _ _ _).
  apply (foldl_keeps (fun mw : metricSet * World => remembers r mw.1)).
  { split; intros k [? Hk]; simpl in Hk; by rewrite lookup_empty in Hk. }
  intros [m1 w1] q Hq Hr.
  destruct (foldl _ (m1, w1) publishedDepthStates) as [m2 w2] eqn:E.
  assert (remembers r (m2, w2).1) as [Hd Ha].
  { rewrite <- E. apply (foldl_keeps (fun mw : metricSet * World => remembers r mw.1)); [done|].
    intros [m3 w3] st Hst [Hd Ha]. split.
    - pose proof (setDepth_depth (qname q, st) fzero (m3, w3)) as Hs. simpl in Hs. cbn beta iota. rewrite Hs.
      apply (gaugeWrite_remembered _ (fun k => k ∈ depthKeys r)); [|done]. simpl.
      apply elem_of_list_to_set, list_elem_of_bind. exists q. split; [|done].
      by apply (list_elem_of_fmap_2 (fun s => (qname q, s))).
    - pose proof (setDepth_age (qname q) st fzero (m3, w3)) as Hs. simpl in Hs. cbn beta iota. by rewrite Hs. }
  split.
  - pose proof (setOldestAge_depth (qname q) fzero (m2, w2)) as Hs. simpl in Hs. by rewrite Hs.
  - pose proof (setOldestAge_age (qname q) fzero (m2, w2)) as Hs. simpl in Hs. rewrite Hs.
    apply (gaugeWrite_remembered _ (fun k => k ∈ ageKeys r)); [|done]. simpl.
    apply elem_of_list_to_set. by apply list_elem_of_fmap_2.
Qed.

Lemma refresh_remembers now reading r mw :
  remembers r mw.1 ->
  remembers (refresh validLabel queues now reading r mw).1.2
    (lastSeen (refresh validLabel queues now reading r mw).1.1 mw).1.
Proof.
  intros Hr. destruct reading as [stats|e]; simpl; [|done].
  unfold lastSeen. rewrite passes_last. by apply remembers_after.
Qed.

(** The bookkeeping holds after any run of the loop. *)
Lemma run_remembers events r mw :
  remembers r mw.1 ->
  remembers (run validLabel queues events r mw).1 (run validLabel queues events r mw).2.1.
Proof.
  revert r mw. induction events as [|[now reading ended|] events IH]; intros r mw Hr; [done| |done].
  pose proof (refresh_remembers now reading r mw Hr) as Hr'. simpl.
  destruct (refresh validLabel queues now reading r mw) as [[seen r'] [e|]]; simpl in *; [|by apply IH].
  destruct ended; [done | by apply IH].
Qed.

(** Publishing the queue gauges (stats.go).  A refresh whose reading fails leaves
    every gauge, the remembered series and the freshness stamp as they were.  One
    that succeeds ends with the gauges holding exactly the reading: each pair of
    acceptable labels has the value the store reported, zero if the queue is
    configured and the store reported nothing, and no series otherwise, in
    particular none left from a queue that vanished.  A scrape that lands at any
    point of the refresh sees every series that is present both before and after
    it.  The bookkeeping this relies on holds again for the next refresh, and the
    client is fresh from then on for exactly the given bound. *)
Theorem refresh_publishes now reading r mw :
  remembers r mw.1 ->
  let '(seen, r', err) := refresh validLabel queues now reading r mw in
  let final := lastSeen seen mw in
  remembers r' final.1 /\
  match reading with
  | Err e => seen = [mw] /\ r' = r /\ err = Some e
  | Ok stats =>
      err = None /\
      (forall k, depth final.1 !! k = if validPair k then depthReading stats k else None) /\
      (forall q, oldestAge final.1 !! q = if validLabel q then ageReading stats q else None) /\
      (forall mid, mid ∈ seen ->
        (forall k, is_Some (depth mw.1 !! k) -> is_Some (depth final.1 !! k) -> is_Some (depth mid.1 !! k)) /\
        (forall q, is_Some (oldestAge mw.1 !! q) -> is_Some (oldestAge final.1 !! q) ->
                   is_Some (oldestAge mid.1 !! q))) /\
      (now <> zeroTime -> forall at_ bound,
        fresh r' at_ bound = true <-> at_ <= now + bound)
  end.
Proof.
  intros Hr. destruct reading as [stats|e]; simpl; [|done].
  unfold lastSeen. rewrite passes_last. split; [by apply remembers_after|]. split_all.
  - done.
  - intros k. by apply depth_published.
  - intros q. by apply age_published.
  - intros mid Hmid. split; [intros k | intros q]; intros Hb Hf.
    + revert mid Hmid. apply (passes_keep (fun m => is_Some (depth m.1 !! k))); [done|].
      intros f Hin. apply (mutation_keeps_depth r stats); [done|].
      rewrite depth_published in Hf by done. rewrite depthsOf_reading.
      destruct (validPair k); [done | by destruct Hf].
    + revert mid Hmid. apply (passes_keep (fun m => is_Some (oldestAge m.1 !! q))); [done|].
      intros f Hin. apply (mutation_keeps_age r stats); [done|].
      rewrite age_published in Hf by done. rewrite agesOf_reading.
      destruct (validLabel q); [done | by destruct Hf].
  - intros Hnow at_ bound. unfold fresh, IsZero, After. cbn [lastSuccess].
    replace (now =? 0) with false by (symmetry; by apply Z.eqb_neq).
    rewrite negb_true_iff. lia.
Qed.
End Publishing.

(** The readiness check passes exactly while the client is not draining and its
    last successful refresh is at most two intervals old. *)
Lemma readiness_spec draining r now interval :
  lastSuccess r <> zeroTime ->
  readiness draining r now interval = None <->
  draining = false /\ now <= lastSuccess r + 2 * interval.
Proof.
  intros Hz. unfold readiness, fresh, IsZero, After.
  replace (lastSuccess r =? 0) with false by (symmetry; by apply Z.eqb_neq).
  rewrite negb_involutive. destruct draining; [by split; [|intros []]|].
  destruct (_ <? _) eqn:E; split; try done; lia.
Qed.

Definition witnessQueues : list weightedQueue := [{| qname := "default"; qweight := 1 |}].

Definition witnessReading : Stats :=
  {| Depths := [{| qdQueue := "mail"; qdState := "dead"; qdCount := 4 |}]; Oldest := [] |}.

Lemma refresh_publishes_witness :
  let v := fun _ : string => true in
  let '(r, mw) := newStatsRefresher v witnessQueues (newCollectors 4) (MkWorld 0 []) in
  remembers v r mw.1 /\
  let '(seen, r', err) := refresh v witnessQueues 100 (Ok witnessReading) r mw in
  let final := lastSeen seen mw in
  err = None /\ length seen = 9%nat /\ depth final.1 !! ("mail", "dead") = Some (ofInt 4).
Proof.
  intros v.
  pose proof (refresh_publishes v witnessQueues 100 (Ok witnessReading)
                (newStatsRefresher v witnessQueues (newCollectors 4) (MkWorld 0 [])).1
                (newStatsRefresher v witnessQueues (newCollectors 4) (MkWorld 0 [])).2
                (newStatsRefresher_remembers v witnessQueues 4 (MkWorld 0 []) _ _ eq_refl)) as Hp.
  split; [exact (newStatsRefresher_remembers v witnessQueues 4 (MkWorld 0 []) _ _ eq_refl)|].
  destruct Hp as [_ [He [Hd _]]]. split; [exact He|].
  split; [vm_compute; reflexivity|]. exact (Hd ("mail", "dead")).
Defined.
