(* ===== verification/JsonValid.v ===== *)
(** * JsonValid: the JSON texts Go accepts

    [json.Valid] of the standard library, which the inspector asks before it
    stores the args it was given.  A recursive-descent reading of RFC 8259 as the Go scanner has
    it: control characters are refused inside strings, bytes above 0x7f are not
    looked at, and containers nest at most 10000 deep.  Each call of the reader
    either consumes a character or is the first on its input, so twice the
    length of the text is enough fuel. *)

From S2P Require Import Prelude.

Definition maxNestingDepth : nat := 10000.

Definition isSpace (c : ascii) : bool :=
  let n := nat_of_ascii c in
  (n =? 32)%nat || (n =? 9)%nat || (n =? 10)%nat || (n =? 13)%nat.

Fixpoint skipSpace (s : string) : string :=
  match s with
  | String c r => if isSpace c then skipSpace r else s
  | EmptyString => s
  end.

Definition isDigit (c : ascii) : bool :=
  let n := nat_of_ascii c in (48 <=? n)%nat && (n <=? 57)%nat.

Definition isHex (c : ascii) : bool :=
  let n := nat_of_ascii c in
  isDigit c || ((97 <=? n)%nat && (n <=? 102)%nat) || ((65 <=? n)%nat && (n <=? 70)%nat).

(** The rest of a string after its opening quote. *)
Fixpoint readString (s : string) : option string :=
  match s with
  | EmptyString => None
  | String c r =>
      let n := nat_of_ascii c in
      if (n =? 34)%nat then Some r
      else if (n =? 92)%nat then
        match r with
        | String e r' =>
            if (nat_of_ascii e =? 117)%nat then
              match r' with
              | String h1 (String h2 (String h3 (String h4 r''))) =>
                  if isHex h1 && isHex h2 && isHex h3 && isHex h4 then readString r'' else None
              | _ => None
              end
            else if existsb (Nat.eqb (nat_of_ascii e)) [34; 92; 47; 98; 102; 110; 114; 116]%nat
                 then readString r' else None
        | EmptyString => None
        end
      else if (n <? 32)%nat then None
      else readString r
  end.

Fixpoint skipDigits (s : string) : string :=
  match s with
  | String c r => if isDigit c then skipDigits r else s
  | EmptyString => s
  end.

(** One digit or more. *)
Definition readDigits (s : string) : option string :=
  match s with
  | String c r => if isDigit c then Some (skipDigits r) else None
  | EmptyString => None
  end.

Definition readExponent (s : string) : option string :=
  match s with
  | String c r =>
      if (nat_of_ascii c =? 101)%nat || (nat_of_ascii c =? 69)%nat then
        match r with
        | String sign r' =>
            if (nat_of_ascii sign =? 43)%nat || (nat_of_ascii sign =? 45)%nat
            then readDigits r' else readDigits r
        | EmptyString => None
        end
      else Some s
  | EmptyString => Some s
  end.

Definition readFraction (s : string) : option string :=
  match s with
  | String c r => if (nat_of_ascii c =? 46)%nat
                  then match readDigits r with Some r' => readExponent r' | None => None end
                  else readExponent s
  | EmptyString => Some s
  end.

(** A number without its sign: no leading zeros. *)
Definition readUnsigned (s : string) : option string :=
  match s with
  | String c r =>
      if (nat_of_ascii c =? 48)%nat then readFraction r
      else if isDigit c then readFraction (skipDigits r)
      else None
  | EmptyString => None
  end.

Fixpoint readLiteral (word s : string) : option string :=
  match word, s with
  | EmptyString, _ => Some s
  | String a word', String b s' => if Ascii.eqb a b then readLiteral word' s' else None
  | String _ _, EmptyString => None
  end.

Definition readScalar (c : ascii) (r : string) : option string :=
  let n := nat_of_ascii c in
  if (n =? 34)%nat then readString r
  else if (n =? 116)%nat then readLiteral "rue" r
  else if (n =? 102)%nat then readLiteral "alse" r
  else if (n =? 110)%nat then readLiteral "ull" r
  else if (n =? 45)%nat then readUnsigned r
  else readUnsigned (String c r).

(** [nest] containers are open. *)
Fixpoint readValue (fuel nest : nat) (s : string) : option string :=
  match fuel with
  | O => None
  | S f =>
      match skipSpace s with
      | EmptyString => None
      | String c r =>
          let n := nat_of_ascii c in
          if (n =? 123)%nat then
            if (maxNestingDepth <=? nest)%nat then None
            else match skipSpace r with
                 | String c' r' => if (nat_of_ascii c' =? 125)%nat then Some r'
                                   else readMembers f (S nest) r
                 | EmptyString => None
                 end
          else if (n =? 91)%nat then
            if (maxNestingDepth <=? nest)%nat then None
            else match skipSpace r with
                 | String c' r' => if (nat_of_ascii c' =? 93)%nat then Some r'
                                   else readElements f (S nest) r
                 | EmptyString => None
                 end
          else readScalar c r
      end
  end
with readMembers (fuel nest : nat) (s : string) : option string :=
  match fuel with
  | O => None
  | S f =>
      match skipSpace s with
      | String q r =>
          if (nat_of_ascii q =? 34)%nat then
            match readString r with
            | Some r1 =>
                match skipSpace r1 with
                | String colon r2 =>
                    if (nat_of_ascii colon =? 58)%nat then
                      match readValue f nest r2 with
                      | Some r3 =>
                          match skipSpace r3 with
                          | String c r4 =>
                              if (nat_of_ascii c =? 125)%nat then Some r4
                              else if (nat_of_ascii c =? 44)%nat then readMembers f nest r4
                              else None
                          | EmptyString => None
                          end
                      | None => None
                      end
                    else None
                | EmptyString => None
                end
            | None => None
            end
          else None
      | EmptyString => None
      end
  end
with readElements (fuel nest : nat) (s : string) : option string :=
  match fuel with
  | O => None
  | S f =>
      match readValue f nest s with
      | Some r1 =>
          match skipSpace r1 with
          | String c r2 =>
              if (nat_of_ascii c =? 93)%nat then Some r2
              else if (nat_of_ascii c =? 44)%nat then readElements f nest r2
              else None
          | EmptyString => None
          end
      | None => None
      end
  end.

(** [json.Valid] *)
Definition jsonValid (s : string) : bool :=
  match readValue (2 + 2 * String.length s) 0 s with
  | Some r => match skipSpace r with EmptyString => true | _ => false end
  | None => false
  end.

(** ** The fuel is enough *)

Abbreviation len := String.length.

Lemma skipSpace_len s : (len (skipSpace s) <= len s)%nat.
Proof. induction s as [|c s IH]; simpl; [lia|]. destruct (isSpace c); simpl; lia. Qed.

Lemma skipSpace_cons s c r : skipSpace s = String c r -> (len r < len s)%nat.
Proof. intros H. pose proof (skipSpace_len s) as Hl. rewrite H in Hl. simpl in Hl. lia. Qed.

Lemma skipDigits_len s : (len (skipDigits s) <= len s)%nat.
Proof. induction s as [|c s IH]; simpl; [lia|]. destruct (isDigit c); simpl; lia. Qed.

Lemma readString_len s r : readString s = Some r -> (len r < len s)%nat.
Proof.
  remember (len s) as n eqn:Hn. revert s Hn. induction n as [n IH] using lt_wf_ind.
  intros [|c s] ->; [done|]. cbn [readString].
  destruct (_ =? 34)%nat; [intros [= <-]; simpl; lia|].
  destruct (_ =? 92)%nat.
  - destruct s as [|e s]; [done|]. destruct (_ =? 117)%nat.
    + destruct s as [|h1 [|h2 [|h3 [|h4 s]]]]; try done. destruct (isHex h1 && _ && _ && _); [|done].
      intros H. apply (IH (len s)) in H; simpl; lia || done.
    + destruct (existsb _ _); [|done]. intros H. apply (IH (len s)) in H; simpl; lia || done.
  - destruct (_ <? 32)%nat; [done|]. intros H. apply (IH (len s)) in H; simpl; lia || done.
Qed.

Lemma readDigits_len s r : readDigits s = Some r -> (len r < len s)%nat.
Proof.
  destruct s as [|c s]; [done|]. cbn [readDigits]. destruct (isDigit c); [|done]. intros [= <-].
  pose proof (skipDigits_len s). simpl. lia.
Qed.

Lemma readExponent_len s r : readExponent s = Some r -> (len r <= len s)%nat.
Proof.
  destruct s as [|c s]; [by intros [= <-]|]. cbn [readExponent].
  destruct (_ || _); [|by intros [= <-]]. destruct s as [|g s]; [done|].
  destruct (_ || _); intros H%readDigits_len; simpl in *; lia.
Qed.

Lemma readFraction_len s r : readFraction s = Some r -> (len r <= len s)%nat.
Proof.
  destruct s as [|c s]; [by intros [= <-]|]. cbn [readFraction].
  destruct (_ =? 46)%nat; [|apply readExponent_len].
  destruct (readDigits s) as [r1|] eqn:E; [|done]. apply readDigits_len in E.
  intros H%readExponent_len. simpl. lia.
Qed.

Lemma readUnsigned_len s r : readUnsigned s = Some r -> (len r < len s)%nat.
Proof.
  destruct s as [|c s]; [done|]. cbn [readUnsigned].
  destruct (_ =? 48)%nat; [intros H%readFraction_len; simpl; lia|].
  destruct (isDigit c); [|done]. intros H%readFraction_len. pose proof (skipDigits_len s). simpl. lia.
Qed.

Lemma readLiteral_len w s r : readLiteral w s = Some r -> (len r <= len s)%nat.
Proof.
  revert s. induction w as [|a w IH]; intros [|b s]; cbn [readLiteral]; try done; try (by intros [= <-]).
  destruct (Ascii.eqb a b); [|done]. intros H%IH. simpl. lia.
Qed.

Lemma readScalar_len c s r : readScalar c s = Some r -> (len r <= len s)%nat.
Proof.
  unfold readScalar.
  repeat (destruct (_ =? _)%nat;
    [first [intros H%readString_len; lia | apply readLiteral_len | intros H%readUnsigned_len; lia]|]).
  intros H%readUnsigned_len. simpl in H. lia.
Qed.

(** Take the reader's answers apart, keeping what each says about lengths. *)
Ltac readerStep :=
  match goal with
  | H : context [match skipSpace ?s with _ => _ end] |- _ =>
      let E := fresh "E" in
      destruct (skipSpace s) as [|? ?] eqn:E; [try done | apply skipSpace_cons in E]
  | H : context [match readString ?s with _ => _ end] |- _ =>
      let E := fresh "E" in
      destruct (readString s) as [?|] eqn:E; [apply readString_len in E | try done]
  | H : context [if (?a =? ?b)%nat then _ else _] |- _ => destruct (a =? b)%nat; try done
  | H : context [if (?a <=? ?b)%nat then _ else _] |- _ => destruct (a <=? b)%nat; try done
  end.

Lemma readers_consume fuel :
  (forall nest s r, readValue fuel nest s = Some r -> (len r < len s)%nat) /\
  (forall nest s r, readMembers fuel nest s = Some r -> (len r < len s)%nat) /\
  (forall nest s r, readElements fuel nest s = Some r -> (len r < len s)%nat).
Proof.
  induction fuel as [|f (IHv & IHm & IHe)]; [done|].
  split; [|split]; intros nest s r H; cbn [readValue readMembers readElements] in H.
  - repeat readerStep;
      first [injection H as <- | apply IHm in H | apply IHe in H | apply readScalar_len in H]; lia.
  - repeat readerStep.
    destruct (readValue f nest _) as [r3|] eqn:Ev; [apply IHv in Ev | done].
    repeat readerStep; [injection H as <-; lia | apply IHm in H; lia].
  - destruct (readValue f nest s) as [r1|] eqn:Ev; [apply IHv in Ev | done].
    repeat readerStep; [injection H as <-; lia | apply IHe in H; lia].
Qed.

(** One step of each reader. *)
Lemma readMembers_step f nest s :
  readMembers (S f) nest s =
  match skipSpace s with
  | String q r =>
      if (nat_of_ascii q =? 34)%nat then
        match readString r with
        | Some r1 =>
            match skipSpace r1 with
            | String colon r2 =>
                if (nat_of_ascii colon =? 58)%nat then
                  match readValue f nest r2 with
                  | Some r3 =>
                      match skipSpace r3 with
                      | String c r4 =>
                          if (nat_of_ascii c =? 125)%nat then Some r4
                          else if (nat_of_ascii c =? 44)%nat then readMembers f nest r4
                          else None
                      | EmptyString => None
                      end
                  | None => None
                  end
                else None
            | EmptyString => None
            end
        | None => None
        end
      else None
  | EmptyString => None
  end.
Proof. reflexivity. Qed.

Lemma readElements_step f nest s :
  readElements (S f) nest s =
  match readValue f nest s with
  | Some r1 =>
      match skipSpace r1 with
      | String c r2 =>
          if (nat_of_ascii c =? 93)%nat then Some r2
          else if (nat_of_ascii c =? 44)%nat then readElements f nest r2
          else None
      | EmptyString => None
      end
  | None => None
  end.
Proof. reflexivity. Qed.

Lemma readValue_step f nest s :
  readValue (S f) nest s =
  match skipSpace s with
  | EmptyString => None
  | String c r =>
      let n := nat_of_ascii c in
      if (n =? 123)%nat then
        if (maxNestingDepth <=? nest)%nat then None
        else match skipSpace r with
             | String c' r' => if (nat_of_ascii c' =? 125)%nat then Some r'
                               else readMembers f (S nest) r
             | EmptyString => None
             end
      else if (n =? 91)%nat then
        if (maxNestingDepth <=? nest)%nat then None
        else match skipSpace r with
             | String c' r' => if (nat_of_ascii c' =? 93)%nat then Some r'
                               else readElements f (S nest) r
             | EmptyString => None
             end
      else readScalar c r
  end.
Proof. reflexivity. Qed.

(** One more unit of fuel changes nothing once there is enough. *)
Lemma readers_stable f :
  (forall nest s, (2 * len s + 1 <= f)%nat -> readValue (S f) nest s = readValue f nest s) /\
  (forall nest s, (2 * len s + 2 <= f)%nat -> readMembers (S f) nest s = readMembers f nest s) /\
  (forall nest s, (2 * len s + 2 <= f)%nat -> readElements (S f) nest s = readElements f nest s).
Proof.
  induction f as [|f (IHv & IHm & IHe)]; [split; [|split]; intros; lia|].
  destruct (readers_consume f) as (Cv & _ & _).
  split; [|split]; intros nest s Hf.
  - rewrite (readValue_step (S f)), (readValue_step f nest s).
    destruct (skipSpace s) as [|c r] eqn:E; [done|]. apply skipSpace_cons in E.
    by rewrite IHm, IHe by lia.
  - rewrite (readMembers_step (S f)), (readMembers_step f nest s).
    destruct (skipSpace s) as [|q r] eqn:E; [done|]. apply skipSpace_cons in E.
    destruct (_ =? 34)%nat; [|done]. destruct (readString r) as [r1|] eqn:E1; [|done].
    apply readString_len in E1. destruct (skipSpace r1) as [|colon r2] eqn:E2; [done|].
    apply skipSpace_cons in E2. destruct (_ =? 58)%nat; [|done]. rewrite IHv by lia.
    destruct (readValue f nest r2) as [r3|] eqn:E3; [|done]. apply Cv in E3.
    destruct (skipSpace r3) as [|x r4] eqn:E4; [done|]. apply skipSpace_cons in E4.
    by rewrite IHm by lia.
  - rewrite (readElements_step (S f)), (readElements_step f nest s), IHv by lia.
    destruct (readValue f nest s) as [r1|] eqn:E1; [|done]. apply Cv in E1.
    destruct (skipSpace r1) as [|x r2] eqn:E2; [done|]. apply skipSpace_cons in E2.
    by rewrite IHe by lia.
Qed.

(** [jsonValid] never answers for want of fuel. *)
Lemma jsonValid_fuel s k :
  readValue (k + (2 + 2 * len s)) 0 s = readValue (2 + 2 * len s) 0 s.
Proof.
  induction k as [|k IH]; [done|]. rewrite <- IH. apply (readers_stable (k + (2 + 2 * len s))). lia.
Qed.

Example jsonValid_accepts :
  forallb jsonValid ["{}"; " [1, -0.5e+3, 0] "; "null"; "true"; "[[],{}]"; "[{}, [ ] , false]"] = true.
Proof. vm_compute. reflexivity. Qed.

Example jsonValid_refuses :
  existsb jsonValid [""; "{"; "01"; "[1,]"; "nul"; "1 2"; "-"; "1."; "1e"; "tru"; "{1:2}"; "]"] = false.
Proof. vm_compute. reflexivity. Qed.
