(* ===== verification/Inspector.v ===== *)
(** * Inspector: the operator API

    Models inspector.go: reading and changing jobs without running workers.  The
    operations are stated over any driver; the theorems are about the in-memory
    one.  Durations stand for the seconds of the public age. *)

From S2P Require Import Prelude GoTime GoError GoRuntime DriverSpec Memdriver MemdriverFacts.
From S2P Require Import MemdriverProps MemdriverReads Metrics Middleware Inflight Queues Enqueue JsonValid.

Definition defaultListLimit : Z := 100.
Definition maxListLimit : Z := 1000.

Record ListJobsOpts := { loQueue : string; loState : string; loLimit : Z }.

(** The public copies of the readings have the driver's fields. *)
Record QueueStats := { publicDepths : list QueueDepth; publicOldest : list QueueAge }.

Definition depthFromDriver (d : QueueDepth) : QueueDepth :=
  {| qdQueue := qdQueue d; qdState := qdState d; qdCount := qdCount d |}.

Definition ageFromDriver (a : QueueAge) : QueueAge :=
  {| qaQueue := qaQueue a; AgeSeconds := AgeSeconds a |}.

Definition mapDriverErr (e : error) : error :=
  if errorsIs e DrvNotFound
  then Wrapf (sentinelText ErrNotFound +:+ ": " +:+ errorText e) [Sent ErrNotFound]
  else if errorsIs e DrvInvalidTransition
  then Wrapf (sentinelText ErrInvalidTransition +:+ ": " +:+ errorText e) [Sent ErrInvalidTransition]
  else Wrapf ("drover: " +:+ errorText e) [e].

Section Operations.
Context {S : Type} `{Driver S}.

Definition inspectorStats (now : Time) (s : S) : res error QueueStats :=
  match drvStats now s with
  | Err e => Err (Wrapf ("drover: stats: " +:+ errorText e) [e])
  | Ok stats => Ok {| publicDepths := depthFromDriver <$> Depths stats;
                      publicOldest := ageFromDriver <$> Oldest stats |}
  end.

Definition inspectorListJobs (opts : option ListJobsOpts) (s : S) : res error (list JobRow) :=
  let limit := match opts with
               | Some o => if 0 <? loLimit o then loLimit o else defaultListLimit
               | None => defaultListLimit
               end in
  let queue := match opts with Some o => loQueue o | None => "" end in
  let state := match opts with Some o => loState o | None => "" end in
  if maxListLimit <? limit
  then Err (Msg ("drover: list limit " +:+ itoa limit +:+ " exceeds maximum " +:+ itoa maxListLimit))
  else match drvListJobs {| ljQueue := queue; ljState := state; ljLimit := limit |} s with
       | Err e => Err (Wrapf ("drover: list jobs: " +:+ errorText e) [e])
       | Ok rows => Ok (rowsFromDriver rows)
       end.

Definition inspectorGetJob (id : Z) (s : S) : res error JobRow :=
  match drvGetJob id s with
  | Err e => Err (mapDriverErr e)
  | Ok row => Ok (rowFromDriver row)
  end.

Definition inspectorEnqueue (now : Time) (kind args : string) (opts : option InsertOpts) (s : S)
    : S * res error JobRow :=
  if String.eqb kind "" then (s, Err (Sent ErrInvalidKind))
  else if negb (jsonValid args) then (s, Err (Msg "drover: args must be valid JSON"))
  else
    let params :=
      {| ipKind := kind;
         ipQueue := match opts with
                    | Some o => if String.eqb (optQueue o) "" then defaultQueue else optQueue o
                    | None => defaultQueue
                    end;
         ipArgs := args;
         ipScheduledAt := match opts with Some o => optScheduledAt o | None => zeroTime end;
         ipUniqueKey := "" |} in
    let '(s', r) := drvInsert now params s in
    match r with
    | Err e => (s', Err (Wrapf ("drover: enqueue job kind " +:+ quote kind +:+ ": " +:+ errorText e) [e]))
    | Ok row => (s', Ok (rowFromDriver row))
    end.

Definition CancelJob (now : Time) (id : Z) (s : S) : S * res error JobRow :=
  let '(s', r) := drvOperatorCancel now id s in
  match r with
  | Err e => (s', Err (mapDriverErr e))
  | Ok row => (s', Ok (rowFromDriver row))
  end.

Definition RetryJob (now : Time) (id : Z) (s : S) : S * res error JobRow :=
  let '(s', r) := drvRedriveDead now id s in
  match r with
  | Err e => (s', Err (mapDriverErr e))
  | Ok row => (s', Ok (rowFromDriver row))
  end.
End Operations.

(** ** Errors *)

(** An error of the public API names one public sentinel and no driver one. *)
Definition publicError (e : error) (s : sentinel) : Prop :=
  forall s', errorsIs e s' = bool_decide (s = s').

Lemma mapDriverErr_public e s :
  (errorsIs e DrvNotFound = true /\ s = ErrNotFound) \/
  (errorsIs e DrvNotFound = false /\ errorsIs e DrvInvalidTransition = true /\ s = ErrInvalidTransition) ->
  publicError (mapDriverErr e) s.
Proof.
  intros [[H1 ->]|(H1 & H2 & ->)] s'; unfold mapDriverErr; rewrite H1; [|rewrite H2];
    cbn [errorsIs existsb]; by rewrite orb_false_r.
Qed.

(** ** Actions *)

(** The states an action applies to, and what it makes of the row. *)
Definition mayCancel (s : JobState) : Prop :=
  s = StateAvailable \/ s = StateScheduled \/ s = StateRetryable \/ s = StateDead.

Definition mayRedrive (s : JobState) : Prop := s = StateDead.

Definition cancelledByOperator (now : Time) (r : JobRow) : JobRow :=
  {| ID := ID r; Kind := Kind r; Queue := Queue r; Args := Args r; State := StateCancelled;
     Attempt := Attempt r; MaxAttempts := MaxAttempts r; Errors := Errors r;
     ScheduledAt := ScheduledAt r; LeasedUntil := None; CreatedAt := CreatedAt r;
     FinalizedAt := Some now; UniqueKey := UniqueKey r |}.

Definition redrivenByOperator (now : Time) (r : JobRow) : JobRow :=
  {| ID := ID r; Kind := Kind r; Queue := Queue r; Args := Args r; State := StateAvailable;
     Attempt := 0; MaxAttempts := MaxAttempts r; Errors := Errors r;
     ScheduledAt := now; LeasedUntil := None; CreatedAt := CreatedAt r;
     FinalizedAt := None; UniqueKey := UniqueKey r |}.

(** An action on the row of [id]: the row becomes [after] where the state is [eligible], and the
    action is refused without effect elsewhere, with the public reason. *)
Definition actionSpec (eligible : JobState -> Prop) (after : JobRow -> JobRow) (id : Z) (d : MemDriver)
    (out : MemDriver * res error JobRow) : Prop :=
  match jobs d !! id with
  | None => out.1 = d /\ exists e, out.2 = Err e /\ publicError e ErrNotFound
  | Some r =>
      (eligible (State r) -> out = (MkDriver (nextID d) (<[id := after r]> (jobs d)), Ok (after r))) /\
      (~ eligible (State r) -> out.1 = d /\ exists e, out.2 = Err e /\ publicError e ErrInvalidTransition)
  end.

Lemma guardedUpdate_undisturbed eligible f want id d :
  guardedUpdate eligible f want Datatypes.id Datatypes.id id 1 d =
  match jobs d !! id with
  | None => (d, Err (errNotFound id))
  | Some r => if eligible (State r)
              then (MkDriver (nextID d) (<[id := f r]> (jobs d)), Ok (f r))
              else (d, Err (errWant id (State r) want))
  end.
Proof.
  simpl. destruct (jobs d !! id) as [r|] eqn:E; [|done].
  by destruct (eligible (State r)) eqn:He.
Qed.

Lemma action_spec eligible (P : JobState -> Prop) f after want id d :
  (forall s, eligible s = true <-> P s) -> (forall r, f r = after r) ->
  actionSpec P after id d
    (let '(d', r) := guardedUpdate eligible f want Datatypes.id Datatypes.id id 1 d in
     match r with Err e => (d', Err (mapDriverErr e)) | Ok row => (d', Ok (rowFromDriver row)) end).
Proof.
  intros HP Hf. rewrite guardedUpdate_undisturbed. unfold actionSpec.
  destruct (jobs d !! id) as [r|] eqn:E.
  - specialize (HP (State r)). destruct (eligible (State r)).
    + split; [intros _; by rewrite rowFromDriver_id, Hf | tauto].
    + split; [intros Hp; by apply HP in Hp|]. intros _. split; [done|].
      eexists. split; [done|]. apply mapDriverErr_public. by right.
  - split; [done|]. eexists. split; [done|]. apply mapDriverErr_public. by left.
Qed.

Lemma CancelJob_spec now id (d : MemDriver) :
  actionSpec mayCancel (cancelledByOperator now) id d (CancelJob now id d).
Proof.
  refine (action_spec cancellable mayCancel (cancelRow now) _ "cancellable" id d _ _).
  - intros s. unfold mayCancel. destruct s; simpl; intuition congruence.
  - by intros [].
Qed.

Lemma RetryJob_spec now id (d : MemDriver) :
  actionSpec mayRedrive (redrivenByOperator now) id d (RetryJob now id d).
Proof.
  refine (action_spec isDead mayRedrive (redriveRow now) _ "dead" id d isDead_spec _). by intros [].
Qed.

(** C36: the operator's actions, over the in-memory driver.  Cancelling succeeds exactly on an
    available, scheduled, retryable or dead job and makes it cancelled, finalized now and without a lease;
    redriving succeeds exactly on a dead one and makes it available now, on attempt zero,
    its errors kept.  Each changes that row and no other.  A refused action and a failed look-up
    change nothing, and the error is [ErrNotFound] for an unknown id and
    [ErrInvalidTransition] for any other state, with no driver sentinel left in its chain. *)
Theorem inspector_actions now id (d : MemDriver) :
  actionSpec mayCancel (cancelledByOperator now) id d (CancelJob now id d) /\
  actionSpec mayRedrive (redrivenByOperator now) id d (RetryJob now id d) /\
  match jobs d !! id with
  | Some r => inspectorGetJob id d = Ok r
  | None => exists e, inspectorGetJob id d = Err e /\ publicError e ErrNotFound
  end.
Proof.
  split_all; [apply CancelJob_spec | apply RetryJob_spec |].
  unfold inspectorGetJob. simpl. unfold GetJob. destruct (jobs d !! id) as [r|] eqn:E.
  - by rewrite rowFromDriver_id.
  - eexists. split; [done|]. apply mapDriverErr_public. by left.
Qed.

(** ** Listings *)

(** The filters and the bound a caller asks for. *)
Definition effectiveLimit (opts : option ListJobsOpts) : Z :=
  match opts with
  | Some o => if 0 <? loLimit o then loLimit o else defaultListLimit
  | None => defaultListLimit
  end.

Definition passesFilters (opts : option ListJobsOpts) (r : JobRow) : Prop :=
  match opts with
  | Some o => (loQueue o = "" \/ Queue r = loQueue o) /\
              (loState o = "" \/ stateString (State r) = loState o)
  | None => True
  end.

Lemma listKeep_spec q s n r :
  listKeep {| ljQueue := q; ljState := s; ljLimit := n |} r = true <->
  (q = "" \/ Queue r = q) /\ (s = "" \/ stateString (State r) = s).
Proof.
  unfold listKeep. simpl.
  destruct (String.eqb_spec q ""), (String.eqb_spec s ""), (String.eqb_spec (Queue r) q),
    (String.eqb_spec (stateString (State r)) s); simpl; intuition congruence.
Qed.

(** a listing is bounded.  A limit above 1000 is refused; otherwise, with 100 standing
    for a limit that is not positive, the inspector returns stored rows that
    pass the filters, newest id first, each once, no more than the limit and
    hence never more than 1000, and a matching row is left out only when the
    limit is reached and every row returned is newer. *)
Theorem inspector_listing opts (d : MemDriver) :
  wf d ->
  (maxListLimit < effectiveLimit opts <-> exists e, inspectorListJobs opts d = Err e) /\
  forall out, inspectorListJobs opts d = Ok out ->
    StronglySorted (fun a b => ID b <= ID a) out /\ NoDup (ID <$> out) /\
    Z.of_nat (length out) <= effectiveLimit opts <= maxListLimit /\
    (forall r, r ∈ out -> jobs d !! ID r = Some r /\ passesFilters opts r) /\
    (forall r, jobs d !! ID r = Some r -> passesFilters opts r -> r ∉ out ->
       Z.of_nat (length out) = effectiveLimit opts /\ forall r', r' ∈ out -> ID r < ID r').
Proof.
  intros Hd.
  set (p := {| ljQueue := match opts with Some o => loQueue o | None => "" end;
               ljState := match opts with Some o => loState o | None => "" end;
               ljLimit := effectiveLimit opts |}).
  assert (forall r, listKeep p r = true <-> passesFilters opts r) as Hk.
  { intros r. unfold p. rewrite listKeep_spec. destruct opts; simpl; tauto. }
  assert (0 < effectiveLimit opts) as Hpos.
  { unfold effectiveLimit, defaultListLimit. destruct opts as [o|]; [|lia].
    destruct (Z.ltb_spec 0 (loLimit o)); lia. }
  destruct (proj2 (listing_spec p d Hd) Hpos) as (rows & Hr & Hs & Hn & Hl & Hin & Hout).
  assert (inspectorListJobs opts d =
          if maxListLimit <? effectiveLimit opts
          then Err (Msg ("drover: list limit " +:+ itoa (effectiveLimit opts) +:+ " exceeds maximum "
                         +:+ itoa maxListLimit))
          else Ok rows) as ->.
  { unfold inspectorListJobs. fold (effectiveLimit opts). destruct (_ <? _); [done|].
    change (drvListJobs _ d) with (ListJobs p d). by rewrite Hr, rowsFromDriver_id. }
  destruct (Z.ltb_spec maxListLimit (effectiveLimit opts)).
  - split; [|done]. split; [|done]. eauto.
  - split; [split; [lia | by intros [? ?]]|]. intros out [= <-]. split_all; auto.
    + intros r Hri. destruct (Hin r Hri) as [? ?]. split; [done | by apply Hk].
    + intros r H1 H2 H3. apply Hout; [done | by apply Hk | done].
Qed.

(** ** Enqueueing *)

Definition uniqueOpts : InsertOpts :=
  {| optQueue := ""; optScheduledAt := zeroTime; optUniqueKey := "once" |}.

Definition secondEnqueue : MemDriver * res error JobRow :=
  inspectorEnqueue 2000 "mail" "{}" (Some uniqueOpts)
    (inspectorEnqueue 1000 "mail" "{}" (Some uniqueOpts) New).1.

(** [Enqueue] takes [InsertOpts] and does not read its unique key: two live jobs
    of one queue and kind are stored under options that name the same key,
    where the client's [Insert] refuses the second. *)
Theorem enqueue_ignores_unique_key :
  (exists row, secondEnqueue.2 = Ok row /\ UniqueKey row = "") /\
  size (jobs secondEnqueue.1) = 2%nat /\
  let args := Some {| argKind := "mail"; argJSON := Ok "{}" |} in
  let st := MkState New newInflightSet false (MkEnv (MkWorld 0 []) (newCollectors 1) ∅) in
  exists e, (clientInsert false None 2000 args (Some uniqueOpts)
               (clientInsert false None 1000 args (Some uniqueOpts) st).1).2 = Err e /\
            errorsIs e ErrDuplicateJob = true.
Proof. split_all; [eexists; split; vm_compute; reflexivity | vm_compute; reflexivity |].
  eexists. split; [vm_compute; reflexivity|]. vm_compute. reflexivity.
Qed.

(** ** Witness *)

Lemma inspector_listing_witness :
  wf witnessStore /\
  exists out, inspectorListJobs None witnessStore = Ok out /\ ID <$> out = [4; 3; 2; 1] /\
    Z.of_nat (length out) <= effectiveLimit None <= maxListLimit.
Proof.
  split; [exact witnessStore_wf|].
  destruct (inspector_listing None witnessStore witnessStore_wf) as [_ Hl].
  destruct (inspectorListJobs None witnessStore) as [out|e] eqn:E; [|vm_compute in E; discriminate E].
  exists out. split; [reflexivity|]. split; [vm_compute in E; injection E as <-; vm_compute; reflexivity|].
  destruct (Hl out eq_refl) as (_ & _ & Hb & _). exact Hb.
Defined.
