(* ===== verification/Postgres.v ===== *)
(** * Postgres: the database the production driver talks to

    Models internal/dbsqlc: the table of internal/migrate/migrations, and what each statement
    of queries.sql.go does to it.  A statement is atomic: it runs on the whole table at one
    instant, the transaction's [now()], and fails without effect on a type error
    or on a violation of the partial unique index.  A sequence is not rolled back.  Rows locked by other
    sessions matter to SKIP LOCKED only; an UPDATE by id waits for them.

    What belongs to the server and to pgx rather than to a statement's text is the parameter
    [PgEnv]: how much of an instant, an interval and a document is kept, and the order in which rows come back. *)

From S2P Require Import Prelude GoTime GoError GoRuntime DriverSpec.

(** ** Rows and errors *)

Record DroverJob := MkJob {
  jID : Z;
  jKind : string;
  jQueue : string;
  jArgs : string;
  jState : JobState;
  jAttempt : Z;
  jMaxAttempts : Z;
  jErrors : json;
  jScheduledAt : Time;
  jLeasedUntil : option Time;
  jCreatedAt : Time;
  jFinalizedAt : option Time;
  jUniqueKey : option string
}.

(** The columns an UPDATE of this program sets. *)
Definition setColumns (j : DroverJob) (state : JobState) (attempt : Z) (errors : json)
    (scheduled : Time) (leased finalized : option Time) : DroverJob :=
  MkJob (jID j) (jKind j) (jQueue j) (jArgs j) state attempt (jMaxAttempts j) errors
    scheduled leased (jCreatedAt j) finalized (jUniqueKey j).

(** What a call through pgx can fail with: no row, an error of the server with its SQLSTATE
    and constraint, or the connection. *)
Inductive dbErr :=
| ErrNoRows
| PgError (code constraint message : string)
| Transport (e : error).

Definition dbError (e : dbErr) : error :=
  match e with
  | ErrNoRows => Msg "no rows in result set"
  | PgError code _ message => Msg ("ERROR: " +:+ message +:+ " (SQLSTATE " +:+ code +:+ ")")
  | Transport e => e
  end.

Definition uniqueActiveIndex : string := "drover_jobs_unique_active_idx".

Definition outOfRange : dbErr := PgError "22003" "" "integer out of range".
Definition uniqueViolation : dbErr :=
  PgError "23505" uniqueActiveIndex "duplicate key value violates unique constraint".
Definition notNullViolation : dbErr :=
  PgError "23502" "" "null value in column errors violates not-null constraint".
Definition invalidJSON : dbErr := PgError "22P02" "" "invalid input syntax for type json".
Definition invalidEnum : dbErr :=
  PgError "22P02" "" "invalid input value for enum drover_job_state".
Definition sequenceLimit : dbErr := PgError "2200H" "" "nextval: reached maximum value of sequence".

(** ** The server *)

Record PgEnv := MkPgEnv {
  stamp : Time -> Time;
  interval : Duration -> Duration;
  jsonbDoc : json -> json;
  jsonbArgs : string -> option string;
  unordered : forall A, list A -> list A
}.
Arguments unordered _ {A} _.

(** What is documented of them: a timestamptz has microseconds, and so has an interval; a jsonb object stays an
    object; rows come back in some order. *)
Record PgEnvOk (E : PgEnv) : Prop := {
  stamp_near : forall t, t - Microsecond <= stamp E t <= t;
  interval_near : forall d, 0 <= d <= 365 * 24 * Hour -> d - Microsecond <= interval E d;
  jsonbDoc_object : forall fs, exists fs', jsonbDoc E (JObject fs) = JObject fs';
  unordered_perm : forall A (l : list A), unordered E l ≡ₚ l
}.

Record PgDb (E : PgEnv) := MkPg {
  lastID : Z;
  table : gmap Z DroverJob;
  locked : gset Z
}.
Arguments MkPg {E} _ _ _.
Arguments lastID {E} _.
Arguments table {E} _.
Arguments locked {E} _.

(** ** Expressions *)

Definition waitingJob (s : JobState) : bool :=
  match s with
  | StateAvailable | StateRetryable | StateScheduled => true
  | _ => false
  end.

(** The predicate and key of the partial unique index. *)
Definition indexed (j : DroverJob) : bool :=
  match jUniqueKey j, jState j with
  | Some _, (StateAvailable | StateScheduled | StateRetryable | StateRunning) => true
  | _, _ => false
  end.

Definition indexKey (j : DroverJob) : string * string * option string :=
  (jQueue j, jKind j, jUniqueKey j).

Definition conflicts (j k : DroverJob) : bool :=
  negb (jID j =? jID k) && indexed j && indexed k && bool_decide (indexKey j = indexKey k).

(** [errors || x] on jsonb; [E] normalizes a merged object. *)
Definition jsonbConcat (E : PgEnv) (a b : json) : json :=
  match a, b with
  | JArray l, JArray m => JArray (l ++ m)
  | JArray l, x => JArray (l ++ [x])
  | x, JArray m => JArray (x :: m)
  | JObject f, JObject g => jsonbDoc E (JObject (f ++ g))
  | x, y => JArray [x; y]
  end.

(** A parameter cast to jsonb: a nil slice is NULL. *)
Definition castJsonb (E : PgEnv) (detail : option RawMessage) : res dbErr (option json) :=
  match detail with
  | None => Ok None
  | Some (Raw j) => Ok (Some (jsonbDoc E j))
  | Some (Garbage _) => Err invalidJSON
  end.

(** The column [errors] may not become NULL. *)
Definition appendErrors (E : PgEnv) (errors : json) (detail : option json) : res dbErr json :=
  match detail with
  | None => Err notNullViolation
  | Some d => Ok (jsonbConcat E errors d)
  end.

Definition states : list JobState :=
  [StateAvailable; StateScheduled; StateRunning; StateRetryable; StateCompleted; StateCancelled;
   StateDead].

Definition castState (s : string) : option JobState :=
  List.find (fun st => String.eqb (stateString st) s) states.

Definition jobCmp (key : DroverJob -> Time) : DroverJob -> DroverJob -> Z :=
  thenBy (onKey key compareZ) (onKey jID compareZ).

Section Statements.
Context {E : PgEnv}.

Definition rowsOf (db : PgDb E) : list DroverJob := (map_to_list (table db)).*2.

Definition writeAll (news : list DroverJob) (t : gmap Z DroverJob) : gmap Z DroverJob :=
  foldl (fun t j => <[jID j := j]> t) t news.

(** The new versions of some rows, or the first error. *)
Fixpoint evalAll (f : DroverJob -> res dbErr DroverJob) (js : list DroverJob)
    : res dbErr (list DroverJob) :=
  match js with
  | [] => Ok []
  | j :: rest =>
      let? k := f j in
      let? ks := evalAll f rest in
      Ok (k :: ks)
  end.

(** UPDATE of the [chosen] rows, with its RETURNING list. *)
Definition updateRows (chosen : list DroverJob) (f : DroverJob -> res dbErr DroverJob)
    (db : PgDb E) : PgDb E * res dbErr (list DroverJob) :=
  match evalAll f chosen with
  | Err e => (db, Err e)
  | Ok news =>
      let t := writeAll news (table db) in
      if existsb (fun j => existsb (conflicts j) (map_to_list t).*2) news
      then (db, Err uniqueViolation)
      else (MkPg (lastID db) t (locked db), Ok (unordered E news))
  end.

(** ** Claims *)

(** The sub-select of both claims: due rows in the order of [key], without those other
    sessions have locked, at most [maxJobs] of them. *)
Definition lockable (key : DroverJob -> Time) (keep : DroverJob -> bool) (maxJobs : Z) (db : PgDb E)
    : list DroverJob :=
  take (Z.to_nat maxJobs)
    (List.filter (fun j => bool_decide (jID j ∉ locked db))
       (SortFunc (jobCmp key) (List.filter keep (rowsOf db)))).

Definition dueJob (now : Time) (queue : string) (j : DroverJob) : bool :=
  waitingJob (jState j) && String.eqb (jQueue j) queue && (jScheduledAt j <=? now).

Definition sqlFetchAvailable (now : Time) (leaseFor : Duration) (queue : string) (maxJobs : Z)
    (db : PgDb E) : PgDb E * res dbErr (list DroverJob) :=
  let t := stamp E now in
  updateRows (lockable jScheduledAt (dueJob t queue) maxJobs db)
    (fun j => if MaxInt32 <? jAttempt j + 1 then Err outOfRange
              else Ok (setColumns j StateRunning (jAttempt j + 1) (jErrors j) (jScheduledAt j)
                         (Some (t + interval E leaseFor)) (jFinalizedAt j))) db.

(** NULL sorts as no row does: only running rows with a lease are kept. *)
Definition leaseKey (j : DroverJob) : Time := default zeroTime (jLeasedUntil j).

Definition lapsedJob (now : Time) (j : DroverJob) : bool :=
  bool_decide (jState j = StateRunning) &&
  match jLeasedUntil j with Some u => u <=? now | None => false end.

Definition sqlFetchExpired (now : Time) (leaseFor : Duration) (maxJobs : Z) (db : PgDb E)
    : PgDb E * res dbErr (list DroverJob) :=
  let t := stamp E now in
  updateRows (lockable leaseKey (lapsedJob t) maxJobs db)
    (fun j => Ok (setColumns j (jState j) (jAttempt j) (jErrors j) (jScheduledAt j)
                    (Some (t + interval E leaseFor)) (jFinalizedAt j))) db.

(** [held] is the pairwise unnest of the two arrays. *)
Definition heldJob (held : list (Z * Z)) (j : DroverJob) : bool :=
  bool_decide (jState j = StateRunning) &&
  existsb (fun h => (jID j =? h.1) && (jAttempt j =? h.2)) held.

Definition sqlExtendLeases (now : Time) (leaseFor : Duration) (ids attempts : list Z) (db : PgDb E)
    : PgDb E * res dbErr unit :=
  let t := stamp E now in
  let '(db', r) := updateRows (List.filter (heldJob (zip ids attempts)) (rowsOf db))
    (fun j => Ok (setColumns j (jState j) (jAttempt j) (jErrors j) (jScheduledAt j)
                    (Some (t + interval E leaseFor)) (jFinalizedAt j))) db in
  (db', match r with Ok _ => Ok () | Err e => Err e end).

(** ** Reading *)

Definition sqlGetJob (id : Z) (db : PgDb E) : res dbErr DroverJob :=
  match table db !! id with Some j => Ok j | None => Err ErrNoRows end.

(** The cast of the state filter is reached when the filter is not empty. *)
Definition sqlListJobs (queue state : string) (maxJobs : Z) (db : PgDb E)
    : res dbErr (list DroverJob) :=
  let kept (p : JobState -> bool) :=
    Ok (take (Z.to_nat maxJobs)
          (SortFunc (fun a b => compareZ (jID b) (jID a))
             (List.filter (fun j => (String.eqb queue "" || String.eqb (jQueue j) queue) &&
                                    p (jState j)) (rowsOf db)))) in
  if String.eqb state "" then kept (fun _ => true)
  else match castState state with
       | None => Err invalidEnum
       | Some st => kept (fun s => bool_decide (s = st))
       end.

(** GROUP BY: one row per key that occurs. *)
Definition groupBy {K} `{EqDecision K} (key : DroverJob -> K) (js : list DroverJob) : list K :=
  remove_dups (key <$> js).

Definition countedJob (s : JobState) : bool :=
  match s with
  | StateAvailable | StateScheduled | StateRetryable | StateRunning | StateDead => true
  | _ => false
  end.

Definition sqlQueueDepths (db : PgDb E) : list QueueDepth :=
  let js := List.filter (fun j => countedJob (jState j)) (rowsOf db) in
  unordered E ((fun k : string * JobState =>
    {| qdQueue := k.1; qdState := stateString k.2;
       qdCount := Z.of_nat (length (List.filter
         (fun j => bool_decide ((jQueue j, jState j) = k)) js)) |})
    <$> groupBy (fun j => (jQueue j, jState j)) js).

(** [min], of a group that has a row. *)
Definition minOf (ts : list Time) : Time :=
  match ts with [] => zeroTime | t :: ts => foldl Z.min t ts end.

(** EXTRACT(EPOCH ...) is an exact decimal of microseconds, rounded once by the cast to
    float8. *)
Definition epochFloat8 (d : Duration) : float64 := fdiv (ofInt (d / Microsecond)) (ofInt 1000000).

Definition sqlOldestClaimable (now : Time) (db : PgDb E) : list QueueAge :=
  let t := stamp E now in
  let js := List.filter (fun j => waitingJob (jState j) && (jScheduledAt j <=? t)) (rowsOf db) in
  unordered E ((fun q =>
    {| qaQueue := q;
       AgeSeconds := epochFloat8 (t - minOf (jScheduledAt <$> List.filter (fun j => String.eqb (jQueue j) q) js)) |})
    <$> groupBy jQueue js).

(** ** Insertion *)

Record InsertJobParams := {
  ijKind : string;
  ijQueue : string;
  ijArgs : string;
  ijScheduledAt : option Time;
  ijUniqueKey : option string
}.

(** The row of an INSERT whose args are jsonb already, with the defaults of the table. *)
Definition newJob (now : Time) (id : Z) (kind queue args : string) (scheduledAt : option Time)
    (key : option string) : DroverJob :=
  let at_ := default now scheduledAt in
  MkJob id kind queue args (if now <? at_ then StateScheduled else StateAvailable) 0 25 (JArray [])
    at_ None now None key.

(** One row: the sequence moves on whether or not the index takes it. *)
Definition insertRow (now : Time) (kind queue args : string) (scheduledAt : option Time)
    (key : option string) (db : PgDb E) : PgDb E * res dbErr DroverJob :=
  let id := lastID db + 1 in
  if MaxInt64 <? id then (db, Err sequenceLimit)
  else
    let j := newJob now id kind queue args scheduledAt key in
    if existsb (conflicts j) (rowsOf db)
    then (MkPg id (table db) (locked db), Err uniqueViolation)
    else (MkPg id (<[id := j]> (table db)) (locked db), Ok j).

Definition sqlInsertJob (now : Time) (p : InsertJobParams) (db : PgDb E)
    : PgDb E * res dbErr DroverJob :=
  match jsonbArgs E (ijArgs p) with
  | None => (db, Err invalidJSON)
  | Some args =>
      insertRow (stamp E now) (ijKind p) (ijQueue p) args (stamp E <$> ijScheduledAt p)
        (ijUniqueKey p) db
  end.

(** The staging table of one batch. *)
Record DroverInsertBatch := {
  ibOrd : Z;
  ibKind : string;
  ibQueue : string;
  ibArgs : string;
  ibScheduledAt : option Time;
  ibUniqueKey : option string
}.

Fixpoint insertAll (now : Time) (staged : list DroverInsertBatch) (db : PgDb E)
    : PgDb E * res dbErr (list DroverJob) :=
  match staged with
  | [] => (db, Ok [])
  | b :: rest =>
      let '(db1, r) := insertRow now (ibKind b) (ibQueue b) (ibArgs b) (ibScheduledAt b)
                         (ibUniqueKey b) db in
      match r with
      | Err e => (db1, Err e)
      | Ok j =>
          let '(db2, rs) := insertAll now rest db1 in
          (db2, match rs with Ok js => Ok (j :: js) | Err e => Err e end)
      end
  end.

(** A failed statement leaves the table as it was, and the sequence where it got to. *)
Definition rolledBack (db db' : PgDb E) : PgDb E := MkPg (lastID db') (table db) (locked db).

Definition sqlInsertJobsFromStaging (now : Time) (staged : list DroverInsertBatch) (db : PgDb E)
    : PgDb E * res dbErr (list DroverJob) :=
  let '(db', r) := insertAll (stamp E now) (SortFunc (onKey ibOrd compareZ) staged) db in
  match r with
  | Ok js => (db', Ok js)
  | Err e => (rolledBack db db', Err e)
  end.

(** ** Guarded transitions *)

Definition runningOn (id attempt : Z) (j : DroverJob) : bool :=
  (jID j =? id) && (jAttempt j =? attempt) && bool_decide (jState j = StateRunning).

(** The number of rows an UPDATE guarded on a lease affected. *)
Definition guardedUpdateSQL (id attempt : Z) (f : DroverJob -> res dbErr DroverJob) (db : PgDb E)
    : PgDb E * res dbErr Z :=
  let '(db', r) := updateRows (List.filter (runningOn id attempt) (rowsOf db)) f db in
  (db', match r with Ok js => Ok (Z.of_nat (length js)) | Err e => Err e end).

Definition sqlMarkCompleted (now : Time) (id attempt : Z) (db : PgDb E) : PgDb E * res dbErr Z :=
  guardedUpdateSQL id attempt
    (fun j => Ok (setColumns j StateCompleted (jAttempt j) (jErrors j) (jScheduledAt j) None
                    (Some (stamp E now)))) db.

(** The shared text of [MarkDead] and [MarkCancelled]. *)
Definition sqlFinalize (state : JobState) (now : Time) (id attempt : Z) (detail : option RawMessage)
    (db : PgDb E) : PgDb E * res dbErr Z :=
  match castJsonb E detail with
  | Err e => (db, Err e)
  | Ok d =>
      guardedUpdateSQL id attempt
        (fun j => let? errors := appendErrors E (jErrors j) d in
                  Ok (setColumns j state (jAttempt j) errors (jScheduledAt j) None
                        (Some (stamp E now)))) db
  end.

Definition sqlMarkDead (now : Time) (id attempt : Z) (detail : option RawMessage) (db : PgDb E)
    : PgDb E * res dbErr Z := sqlFinalize StateDead now id attempt detail db.

Definition sqlMarkCancelled (now : Time) (id attempt : Z) (detail : option RawMessage) (db : PgDb E)
    : PgDb E * res dbErr Z := sqlFinalize StateCancelled now id attempt detail db.

Definition sqlMarkRetryable (retryAt : Time) (id attempt : Z) (detail : option RawMessage)
    (db : PgDb E) : PgDb E * res dbErr Z :=
  match castJsonb E detail with
  | Err e => (db, Err e)
  | Ok d =>
      guardedUpdateSQL id attempt
        (fun j => let? errors := appendErrors E (jErrors j) d in
                  Ok (setColumns j StateRetryable (jAttempt j) errors (stamp E retryAt) None
                        (jFinalizedAt j))) db
  end.

Definition sqlMarkSnoozed (runAt : Time) (id attempt : Z) (db : PgDb E) : PgDb E * res dbErr Z :=
  guardedUpdateSQL id attempt
    (fun j => Ok (setColumns j StateScheduled (Z.max (jAttempt j - 1) 0) (jErrors j)
                    (stamp E runAt) None (jFinalizedAt j))) db.

(** ** Operator actions *)

(** [:one]: the returned row, or no row. *)
Definition oneRow (r : res dbErr (list DroverJob)) : res dbErr DroverJob :=
  match r with
  | Ok (j :: _) => Ok j
  | Ok [] => Err ErrNoRows
  | Err e => Err e
  end.

Definition cancellableJob (s : JobState) : bool :=
  match s with
  | StateAvailable | StateScheduled | StateRetryable | StateDead => true
  | _ => false
  end.

Definition sqlOperatorCancel (now id : Z) (db : PgDb E) : PgDb E * res dbErr DroverJob :=
  let '(db', r) :=
    updateRows (List.filter (fun j => (jID j =? id) && cancellableJob (jState j)) (rowsOf db))
      (fun j => Ok (setColumns j StateCancelled (jAttempt j) (jErrors j) (jScheduledAt j) None
                      (Some (stamp E now)))) db in
  (db', oneRow r).

Definition sqlRedriveDead (now id : Z) (db : PgDb E) : PgDb E * res dbErr DroverJob :=
  let '(db', r) :=
    updateRows (List.filter (fun j => (jID j =? id) && bool_decide (jState j = StateDead)) (rowsOf db))
      (fun j => Ok (setColumns j StateAvailable 0 (jErrors j) (stamp E now) None None)) db in
  (db', oneRow r).
End Statements.
