(* ===== verification/SqlTypes.v ===== *)
(** * SqlTypes: job states between Go and SQL

    Models the state type of internal/dbsqlc/models.go: [DroverJobState] with its [Scan], and
    [NullDroverJobState] with its [Scan] and [Value]. *)

From S2P Require Import Prelude GoTime GoError DriverSpec.

(** A value of a [database/sql] driver: nil, bytes, a string, or of another Go type. *)
Inductive driverValue := VNil | VBytes (b : string) | VString (s : string) | VOther (typeName : string).

Definition typeNameOf (v : driverValue) : string :=
  match v with
  | VNil => "<nil>"
  | VBytes _ => "[]uint8"
  | VString _ => "string"
  | VOther t => t
  end.

(** The receiver after the call, and the error. *)
Definition scanState (e : string) (src : driverValue) : string * option error :=
  match src with
  | VBytes s | VString s => (s, None)
  | v => (e, Some (Msg ("unsupported scan type for DroverJobState: " +:+ typeNameOf v)))
  end.

Record NullDroverJobState := MkNull { nsState : string; nsValid : bool }.

Definition scanNull (ns : NullDroverJobState) (v : driverValue) : NullDroverJobState * option error :=
  match v with
  | VNil => (MkNull "" false, None)
  | _ => let '(s, err) := scanState (nsState ns) v in (MkNull s true, err)
  end.

Definition valueNull (ns : NullDroverJobState) : driverValue :=
  if nsValid ns then VString (nsState ns) else VNil.

(** The seven states of the enum, as [rowFromDB] reads them back. *)
Definition allStates : list JobState :=
  [StateAvailable; StateScheduled; StateRunning; StateRetryable; StateCompleted; StateCancelled; StateDead].

Definition stateOf (s : string) : option JobState :=
  find (fun st => String.eqb (stateString st) s) allStates.

(** ** Properties *)

(** What a column holds is what was written to it: scanning a stored value gives the value back,
    from its bytes as from its text, whatever the receiver held; NULL comes back as the invalid
    value; and the text of a state names that state alone. *)
Theorem state_roundtrip ns0 ns st :
  (nsValid ns = true -> scanNull ns0 (valueNull ns) = (ns, None)) /\
  (nsValid ns = false -> scanNull ns0 (valueNull ns) = (MkNull "" false, None)) /\
  scanNull ns0 (VBytes (nsState ns)) = scanNull ns0 (VString (nsState ns)) /\
  stateOf (scanState (nsState ns0) (VString (stateString st))).1 = Some st /\
  (forall t, (scanNull ns0 (VOther t)).2 <> None).
Proof.
  split_all.
  - intros Hv. unfold valueNull. rewrite Hv. simpl. destruct ns; simpl in *. by subst.
  - intros Hv. unfold valueNull. by rewrite Hv.
  - done.
  - by destruct st.
  - done.
Qed.
