(* ===== verification/Pgdriver.v ===== *)
(** * Pgdriver: the production driver

    Models internal/pgdriver/pgdriver.go: the driver methods as sequences of the statements of
    Postgres.  Nothing is assumed of the network or of other sessions: a [World] says, for the
    i-th statement a call sends, what becomes of it, what other sessions did before it, and
    what time the server has.  A statement may be refused before it runs, or run and have its answer lost;
    the method sees the same error.  The notification and leadership methods are in PgSession. *)

From S2P Require Import Prelude GoTime GoError GoRuntime DriverSpec Memdriver Postgres.

(** ** Statements on their way *)

Inductive fault :=
| Delivered
| Refused (e : error)
| Unacknowledged (e : error).

Record World (E : PgEnv) := MkWorld {
  net : nat -> fault;
  others : nat -> PgDb E -> PgDb E;
  clock : nat -> Time
}.
Arguments MkWorld {E} _ _ _.
Arguments net {E} _ _.
Arguments others {E} _ _ _.
Arguments clock {E} _ _.

(** No fault, no other session, one instant. *)
Definition undisturbed {E} (now : Time) : World E :=
  MkWorld (fun _ => Delivered) (fun _ db => db) (fun _ => now).

(** ** Conversions *)

(** The zero time and the empty key become NULL. *)
Definition insertParams (p : InsertParams) : InsertJobParams :=
  {| ijKind := ipKind p; ijQueue := ipQueue p; ijArgs := ipArgs p;
     ijScheduledAt := if IsZero (ipScheduledAt p) then None else Some (ipScheduledAt p);
     ijUniqueKey := if String.eqb (ipUniqueKey p) "" then None else Some (ipUniqueKey p) |}.

Definition rowFromDB (j : DroverJob) : JobRow :=
  MkJobRow (jID j) (jKind j) (jQueue j) (jArgs j) (jState j) (jAttempt j) (jMaxAttempts j)
    (Raw (jErrors j)) (jScheduledAt j) (jLeasedUntil j) (jCreatedAt j) (jFinalizedAt j)
    (default "" (jUniqueKey j)).

(** [int(a.ID - b.ID)] *)
Definition idDiff (a b : JobRow) : Z := wrap64 (ID a - ID b).

Definition sortedRows (js : list DroverJob) : list JobRow := SortFunc idDiff (rowFromDB <$> js).

Definition attemptArg (attempt : Z) : Z :=
  if attempt <? 0 then 0 else if MaxInt32 <? attempt then MaxInt32 else attempt.

(** ** Errors *)

Definition wrapOp (op : string) (e : error) : error :=
  Wrapf (op +:+ ": " +:+ errorText e) [e].

Definition isUniqueActiveViolation (e : dbErr) : bool :=
  match e with
  | PgError code constraint _ => String.eqb code "23505" && String.eqb constraint uniqueActiveIndex
  | _ => false
  end.

Definition wrapInsertErr (e : dbErr) (op : string) : error :=
  if isUniqueActiveViolation e then wrapOp op (Sent DrvDuplicateJob) else wrapOp op (dbError e).

(** A transaction handle as the caller passes it: pgx's, or a value of another type. *)
Inductive txHandle :=
| PgxTx
| OtherTx (typeName : string).

Definition errTx (typeName : string) : error :=
  wrapOp ("pgdriver: tx is " +:+ typeName +:+ ", want pgx.Tx") (Sent DrvTxUnsupported).

Definition errFetchLimit (limit : Z) : error :=
  Msg ("fetch limit " +:+ itoa limit +:+ " out of range").

Section Methods.
Context {E : PgEnv}.
Implicit Types (w : World E) (db : PgDb E).

Definition send {A} (f : fault) (stmt : PgDb E -> PgDb E * res dbErr A) db
    : PgDb E * res dbErr A :=
  match f with
  | Delivered => stmt db
  | Refused e => (db, Err (Transport e))
  | Unacknowledged e => ((stmt db).1, Err (Transport e))
  end.

(** The [i]-th statement of a call. *)
Definition ask {A} w (i : nat) (stmt : Time -> PgDb E -> PgDb E * res dbErr A) db
    : PgDb E * res dbErr A :=
  send (net w i) (stmt (clock w i)) (others w i db).

(** The [i]-th statement of a call, inside a transaction that began with the call: [now()] is
    when it began.  What other sessions do meanwhile is counted before or after it, since the
    transaction writes shared rows in one statement only. *)
Definition inTx {A} w (i : nat) (stmt : Time -> PgDb E -> PgDb E * res dbErr A) db
    : PgDb E * res dbErr A :=
  send (net w i) (stmt (clock w 0)) db.

(** A statement that only reads. *)
Definition reading {A} (q : PgDb E -> res dbErr A) (_ : Time) db : PgDb E * res dbErr A :=
  (db, q db).

(** ** Insertion *)

Definition pgInsert w (p : InsertParams) db : PgDb E * res error JobRow :=
  let '(db', r) := ask w 0 (fun now => sqlInsertJob now (insertParams p)) db in
  (db', match r with
        | Err e => Err (wrapInsertErr e ("insert job kind " +:+ quote (ipKind p)))
        | Ok j => Ok (rowFromDB j)
        end).

Definition pgInsertTx w (tx : txHandle) (p : InsertParams) db : PgDb E * res error JobRow :=
  match tx with
  | OtherTx typeName => (db, Err (errTx typeName))
  | PgxTx =>
      let '(db', r) := ask w 0 (fun now => sqlInsertJob now (insertParams p)) db in
      (db', match r with
            | Err e => Err (wrapInsertErr e ("insert job kind " +:+ quote (ipKind p) +:+ " in tx"))
            | Ok j => Ok (rowFromDB j)
            end)
  end.

(** The rows COPY loads into the emptied staging table; an ordinal is an [int4]. *)
Fixpoint stage (i : Z) (batch : list InsertParams) : res dbErr (list DroverInsertBatch) :=
  match batch with
  | [] => Ok []
  | p :: rest =>
      if MaxInt32 <? i then Err outOfRange
      else match jsonbArgs E (ipArgs p) with
           | None => Err invalidJSON
           | Some args =>
               let? staged := stage (i + 1) rest in
               Ok ({| ibOrd := i; ibKind := ipKind p; ibQueue := ipQueue p; ibArgs := args;
                      ibScheduledAt := if IsZero (ipScheduledAt p) then None
                                       else Some (stamp E (ipScheduledAt p));
                      ibUniqueKey := if String.eqb (ipUniqueKey p) "" then None
                                     else Some (ipUniqueKey p) |} :: staged)
           end
  end.

(** Statements 1 to 4: create and empty the session's staging table, load it, and insert from
    it.  The first three touch no shared row. *)
Definition insertMany w (batch : list InsertParams) db : PgDb E * res error (list JobRow) :=
  match inTx w 1 (reading (fun _ => Ok ())) db with
  | (db1, Err e) => (db1, Err (wrapOp "create insert-many staging table" (dbError e)))
  | (db1, Ok _) =>
      match inTx w 2 (reading (fun _ => Ok ())) db1 with
      | (db2, Err e) => (db2, Err (wrapOp "truncate insert-many staging table" (dbError e)))
      | (db2, Ok _) =>
          match inTx w 3 (reading (fun _ => stage 0 batch)) db2 with
          | (db3, Err e) => (db3, Err (wrapOp "copy insert-many batch" (dbError e)))
          | (db3, Ok staged) =>
              match inTx w 4 (fun now => sqlInsertJobsFromStaging now staged) db3 with
              | (db4, Err e) => (db4, Err (wrapInsertErr e "insert many jobs from staging"))
              | (db4, Ok js) => (db4, Ok (rowFromDB <$> js))
              end
          end
      end
  end.

(** The transaction is statements 0 to 5.  Whatever happens after [Begin], the deferred
    [Rollback] undoes it unless the commit was executed. *)
Definition pgInsertMany w (batch : list InsertParams) db : PgDb E * res error (list JobRow) :=
  match batch with
  | [] => (db, Ok [])
  | _ =>
      match ask w 0 (reading (fun _ => Ok ())) db with
      | (db0, Err e) => (db0, Err (wrapOp "begin insert many" (dbError e)))
      | (db0, Ok _) =>
          match insertMany w batch db0 with
          | (db1, Err e) => (rolledBack db0 db1, Err e)
          | (db1, Ok rows) =>
              match net w 5 with
              | Delivered => (db1, Ok rows)
              | Refused e => (rolledBack db0 db1, Err (wrapOp "commit insert many" e))
              | Unacknowledged e => (db1, Err (wrapOp "commit insert many" e))
              end
          end
      end
  end.

Definition pgInsertManyTx w (tx : txHandle) (batch : list InsertParams) db
    : PgDb E * res error (list JobRow) :=
  match tx with
  | OtherTx typeName => (db, Err (errTx typeName))
  | PgxTx => match batch with [] => (db, Ok []) | _ => insertMany w batch db end
  end.

(** ** Claims and heartbeats *)

Definition pgFetchAvailable w (queue : string) (leaseFor : Duration) (limit : Z) db
    : PgDb E * res error (list JobRow) :=
  if (limit <? 0) || (MaxInt32 <? limit) then (db, Err (errFetchLimit limit))
  else
    let '(db', r) := ask w 0 (fun now => sqlFetchAvailable now leaseFor queue limit) db in
    (db', match r with
          | Err e => Err (wrapOp ("fetch available jobs from queue " +:+ quote queue) (dbError e))
          | Ok js => Ok (sortedRows js)
          end).

Definition pgFetchExpired w (leaseFor : Duration) (limit : Z) db
    : PgDb E * res error (list JobRow) :=
  if (limit <? 0) || (MaxInt32 <? limit) then (db, Err (errFetchLimit limit))
  else
    let '(db', r) := ask w 0 (fun now => sqlFetchExpired now leaseFor limit) db in
    (db', match r with
          | Err e => Err (wrapOp "fetch expired jobs" (dbError e))
          | Ok js => Ok (sortedRows js)
          end).

Definition pgExtendLeases w (leases : list Lease) (leaseFor : Duration) db
    : PgDb E * option error :=
  match leases with
  | [] => (db, None)
  | _ =>
      let ids := leaseID <$> leases in
      let attempts := (fun l => attemptArg (leaseAttempt l)) <$> leases in
      let '(db', r) := ask w 0 (fun now => sqlExtendLeases now leaseFor ids attempts) db in
      (db', match r with
            | Err e => Some (wrapOp ("extend leases of " +:+ itoa (Z.of_nat (length leases))
                                     +:+ " jobs") (dbError e))
            | Ok _ => None
            end)
  end.

(** ** Guarded transitions *)

(** The re-read is statement 1. *)
Definition finalizeFailure w (l : Lease) db : PgDb E * option error :=
  let '(db', r) := ask w 1 (reading (sqlGetJob (leaseID l))) db in
  (db', Some match r with
             | Err ErrNoRows => errNotFound (leaseID l)
             | Err e => wrapOp ("inspect job " +:+ itoa (leaseID l)) (dbError e)
             | Ok j =>
                 if negb (bool_decide (jState j = StateRunning))
                 then errWant (leaseID l) (jState j) "running"
                 else errLeaseLost (leaseID l) (jAttempt j) (leaseAttempt l)
             end).

Definition explain w (l : Lease) (affected : Z) db : PgDb E * option error :=
  if affected =? 0 then finalizeFailure w l db else (db, None).

(** The common body of the Mark methods. *)
Definition pgMark w (verb : string) (l : Lease) (stmt : Time -> PgDb E -> PgDb E * res dbErr Z) db
    : PgDb E * option error :=
  match ask w 0 stmt db with
  | (db', Err e) =>
      (db', Some (wrapOp ("mark job " +:+ itoa (leaseID l) +:+ " " +:+ verb) (dbError e)))
  | (db', Ok affected) => explain w l affected db'
  end.

Definition pgMarkCompleted w (l : Lease) : PgDb E -> PgDb E * option error :=
  pgMark w "completed" l (fun now => sqlMarkCompleted now (leaseID l) (attemptArg (leaseAttempt l))).

Definition pgMarkRetryable w (l : Lease) (retryAt : Time) (detail : option RawMessage)
    : PgDb E -> PgDb E * option error :=
  pgMark w "retryable" l (fun _ =>
    sqlMarkRetryable retryAt (leaseID l) (attemptArg (leaseAttempt l)) detail).

Definition pgMarkDead w (l : Lease) (detail : option RawMessage)
    : PgDb E -> PgDb E * option error :=
  pgMark w "dead" l (fun now =>
    sqlMarkDead now (leaseID l) (attemptArg (leaseAttempt l)) detail).

Definition pgMarkCancelled w (l : Lease) (detail : option RawMessage)
    : PgDb E -> PgDb E * option error :=
  pgMark w "cancelled" l (fun now =>
    sqlMarkCancelled now (leaseID l) (attemptArg (leaseAttempt l)) detail).

Definition pgMarkSnoozed w (l : Lease) (runAt : Time) : PgDb E -> PgDb E * option error :=
  pgMark w "snoozed" l (fun _ =>
    sqlMarkSnoozed runAt (leaseID l) (attemptArg (leaseAttempt l))).

(** ** Readings *)

Definition pgStats w db : PgDb E * res error Stats :=
  match ask w 0 (reading (fun db => Ok (sqlQueueDepths db))) db with
  | (db1, Err e) => (db1, Err (wrapOp "count jobs by queue and state" (dbError e)))
  | (db1, Ok depths) =>
      match ask w 1 (fun now => reading (fun db => Ok (sqlOldestClaimable now db)) now) db1 with
      | (db2, Err e) =>
          (db2, Err (wrapOp "age the oldest claimable job of each queue" (dbError e)))
      | (db2, Ok oldest) =>
          (db2, Ok {| Depths := SortFunc depthCmp depths; Oldest := SortFunc ageCmp oldest |})
      end
  end.

Definition pgListJobs w (p : ListJobsParams) db : PgDb E * res error (list JobRow) :=
  if ljLimit p <=? 0
  then (db, Err (Msg ("list limit must be positive, got " +:+ itoa (ljLimit p))))
  else if MaxInt32 <? ljLimit p
  then (db, Err (Msg ("list limit " +:+ itoa (ljLimit p) +:+ " out of range")))
  else
    let '(db', r) := ask w 0 (reading (sqlListJobs (ljQueue p) (ljState p) (ljLimit p))) db in
    (db', match r with
          | Err e => Err (wrapOp "list jobs" (dbError e))
          | Ok js => Ok (rowFromDB <$> js)
          end).

Definition pgGetJob w (id : Z) db : PgDb E * res error JobRow :=
  let '(db', r) := ask w 0 (reading (sqlGetJob id)) db in
  (db', match r with
        | Err ErrNoRows => Err (errNotFound id)
        | Err e => Err (wrapOp ("get job " +:+ itoa id) (dbError e))
        | Ok j => Ok (rowFromDB j)
        end).

(** ** Operator actions *)

Definition operatorEligible (s : JobState) (want : string) : bool :=
  if String.eqb want "cancellable" then
    match s with
    | StateAvailable | StateScheduled | StateRetryable | StateDead => true
    | _ => false
    end
  else if String.eqb want "dead" then bool_decide (s = StateDead)
  else false.

(** The re-read is statement [i]; [retry] is [None] when [allowRetry] is false. *)
Definition pgAfterOperatorMiss w (i : nat) (id : Z) (want : string)
    (retry : option (PgDb E -> PgDb E * res error JobRow)) db : PgDb E * res error JobRow :=
  match ask w i (reading (sqlGetJob id)) db with
  | (db', Err ErrNoRows) => (db', Err (errNotFound id))
  | (db', Err e) => (db', Err (wrapOp ("inspect job " +:+ itoa id) (dbError e)))
  | (db', Ok j) =>
      match retry with
      | Some again =>
          if operatorEligible (jState j) want then again db'
          else (db', Err (errWant id (jState j) want))
      | None => (db', Err (errWant id (jState j) want))
      end
  end.

(** [i] statements were sent before; [retries] is 1 when [allowRetry] is set. *)
Fixpoint pgOperatorCancelFrom w (i : nat) (id : Z) (retries : nat) db
    : PgDb E * res error JobRow :=
  match ask w i (fun now => sqlOperatorCancel now id) db with
  | (db', Err ErrNoRows) =>
      pgAfterOperatorMiss w (i + 1) id "cancellable"
        (match retries with
         | O => None
         | S k => Some (pgOperatorCancelFrom w (i + 2) id k)
         end) db'
  | (db', Err e) => (db', Err (wrapOp ("cancel job " +:+ itoa id) (dbError e)))
  | (db', Ok j) => (db', Ok (rowFromDB j))
  end.

Definition pgOperatorCancel w (id : Z) : PgDb E -> PgDb E * res error JobRow :=
  pgOperatorCancelFrom w 0 id 1.

Fixpoint pgRedriveDeadFrom w (i : nat) (id : Z) (retries : nat) db
    : PgDb E * res error JobRow :=
  match ask w i (fun now => sqlRedriveDead now id) db with
  | (db', Err ErrNoRows) =>
      pgAfterOperatorMiss w (i + 1) id "dead"
        (match retries with
         | O => None
         | S k => Some (pgRedriveDeadFrom w (i + 2) id k)
         end) db'
  | (db', Err e) => (db', Err (wrapOp ("redrive job " +:+ itoa id) (dbError e)))
  | (db', Ok j) => (db', Ok (rowFromDB j))
  end.

Definition pgRedriveDead w (id : Z) : PgDb E -> PgDb E * res error JobRow :=
  pgRedriveDeadFrom w 0 id 1.

(** ** Traces *)

(** The calls of Memdriver's traces, made to this driver. *)
Definition pgExec w (c : call) db : PgDb E :=
  match c with
  | CInsert p => (pgInsert w p db).1
  | CInsertMany batch => (pgInsertMany w batch db).1
  | CFetchAvailable q lf limit => (pgFetchAvailable w q lf limit db).1
  | CFetchExpired lf limit => (pgFetchExpired w lf limit db).1
  | CExtendLeases ls lf => (pgExtendLeases w ls lf db).1
  | CMarkCompleted l => (pgMarkCompleted w l db).1
  | CMarkRetryable l t e => (pgMarkRetryable w l t e db).1
  | CMarkDead l e => (pgMarkDead w l e db).1
  | CMarkCancelled l e => (pgMarkCancelled w l e db).1
  | CMarkSnoozed l t => (pgMarkSnoozed w l t db).1
  | COperatorCancel id => (pgOperatorCancel w id db).1
  | CRedriveDead id => (pgRedriveDead w id db).1
  end.

Definition pgRun (tr : list (World E * call)) db : PgDb E :=
  foldl (fun db wc => pgExec wc.1 wc.2 db) db tr.

(** The table the migrations create. *)
Definition emptyDb : PgDb E := MkPg 0 ∅ ∅.
End Methods.

(** ** The driver as an instance of the contract, when nothing interferes *)

#[export] Instance pgDriverOps (E : PgEnv) : Driver (PgDb E) := {
  rowAt := fun db id => rowFromDB <$> table db !! id;
  drvTime := stamp E;
  drvSpan := interval E;
  drvDoc := jsonbDoc E;
  drvUsesCtx := true;
  drvInsert := fun now => pgInsert (undisturbed now);
  drvInsertTx := fun now => pgInsertTx (undisturbed now) PgxTx;
  drvInsertMany := fun now => pgInsertMany (undisturbed now);
  drvInsertManyTx := fun now => pgInsertManyTx (undisturbed now) PgxTx;
  drvFetchAvailable := fun now => pgFetchAvailable (undisturbed now);
  drvFetchExpired := fun now => pgFetchExpired (undisturbed now);
  drvExtendLeases := fun now => pgExtendLeases (undisturbed now);
  drvMarkCompleted := fun now => pgMarkCompleted (undisturbed now);
  drvMarkRetryable := fun now => pgMarkRetryable (undisturbed now);
  drvMarkDead := fun now => pgMarkDead (undisturbed now);
  drvMarkCancelled := fun now => pgMarkCancelled (undisturbed now);
  drvMarkSnoozed := fun now => pgMarkSnoozed (undisturbed now);
  drvStats := fun now db => (pgStats (undisturbed now) db).2;
  drvListJobs := fun p db => (pgListJobs (undisturbed 0) p db).2;
  drvGetJob := fun id db => (pgGetJob (undisturbed 0) id db).2;
  drvOperatorCancel := fun now => pgOperatorCancel (undisturbed now);
  drvRedriveDead := fun now => pgRedriveDead (undisturbed now)
}.
