(* ===== verification/PgdriverFacts.v ===== *)
(** * PgdriverFacts: the invariants of the production driver

    The table read as the in-memory driver's state ([asMem]), its invariant, and the proof that
    every statement, under any fault, takes each row along one step of the job lifecycle.  The
    lemmas on updates carry the theorems of PgdriverProps. *)

From S2P Require Import Prelude GoTime GoError DriverSpec Memdriver MemdriverFacts Postgres Pgdriver.

Section Facts.
Context {E : PgEnv}.
Implicit Types (db : PgDb E) (w : World E).

(** ** The invariant *)

Definition asMem db : MemDriver := MkDriver (lastID db) (rowFromDB <$> table db).

Record pgWf db : Prop := {
  pg_mem : wf (asMem db);
  pg_last : lastID db <= MaxInt64;
  pg_attempt : forall id j, table db !! id = Some j -> jAttempt j <= MaxInt32;
  pg_key : forall id j, table db !! id = Some j -> jUniqueKey j <> Some "";
  pg_unique : forall id1 id2 j1 j2, table db !! id1 = Some j1 -> table db !! id2 = Some j2 ->
    conflicts j1 j2 = false
}.

Lemma asMem_lookup db id : jobs (asMem db) !! id = rowFromDB <$> table db !! id.
Proof. apply lookup_fmap. Qed.

Lemma pg_row db id j : pgWf db -> table db !! id = Some j ->
  jID j = id /\ 1 <= id <= lastID db /\ rowWf (rowFromDB j).
Proof.
  intros Hd Hj. assert (jobs (asMem db) !! id = Some (rowFromDB j)) as Hr
    by (by rewrite asMem_lookup, Hj).
  split_all; [exact (wf_key _ (pg_mem db Hd) id _ Hr) |
    apply (wf_range _ (pg_mem db Hd) id _ Hr) .. | exact (wf_row _ (pg_mem db Hd) id _ Hr)].
Qed.

Lemma pg_fresh db id : pgWf db -> lastID db < id -> table db !! id = None.
Proof.
  intros Hd Hlt. destruct (table db !! id) as [j|] eqn:Ej; [|done].
  pose proof (pg_row db id j Hd Ej). lia.
Qed.

Lemma emptyDb_wf : pgWf (emptyDb (E := E)).
Proof.
  split; simpl; try (intros *; rewrite lookup_empty; done); [|unfold MaxInt64; lia].
  split; simpl; [lia | intros id r; rewrite lookup_fmap, lookup_empty; done ..].
Qed.

Lemma conflicts_sym j k : conflicts j k = conflicts k j.
Proof.
  unfold conflicts. rewrite (Z.eqb_sym (jID k)). rewrite <- !andb_assoc. f_equal.
  rewrite !andb_assoc, (andb_comm (indexed k)). f_equal. apply bool_decide_ext. split; congruence.
Qed.

(** ** Selected rows *)

Definition selection db (js : list DroverJob) : Prop :=
  (forall j, j ∈ js -> table db !! jID j = Some j) /\ NoDup (jID <$> js).

Lemma elem_of_rowsOf db j : j ∈ rowsOf db <-> exists id, table db !! id = Some j.
Proof.
  unfold rowsOf. rewrite list_elem_of_fmap. split.
  - intros ([id j'] & -> & H). exists id. by apply elem_of_map_to_list in H.
  - intros [id H]. exists (id, j). split; [done|]. by apply elem_of_map_to_list.
Qed.

Lemma elem_of_rowsOf_wf db j : pgWf db -> j ∈ rowsOf db <-> table db !! jID j = Some j.
Proof.
  intros Hd. rewrite elem_of_rowsOf. split; [|eauto]. intros [id Hj].
  by destruct (pg_row db id j Hd Hj) as [-> _].
Qed.

Lemma selection_rowsOf db : pgWf db -> selection db (rowsOf db).
Proof.
  intros Hd. split; [intros j; by apply elem_of_rowsOf_wf|].
  unfold rowsOf. rewrite <- list_fmap_compose.
  rewrite (list_fmap_ext _ fst); [apply NoDup_fst_map_to_list|].
  intros i [id j] H. simpl. apply (pg_row db id j Hd), elem_of_map_to_list, list_elem_of_lookup. eauto.
Qed.

Lemma selection_filter db p js : selection db js -> selection db (List.filter p js).
Proof.
  intros [Hin Hnd]. split; [|by apply NoDup_fmap_filter].
  intros j H. apply list_elem_of_In, List.filter_In in H as [H _]. by apply Hin, list_elem_of_In.
Qed.

Lemma selection_perm db js js' : js ≡ₚ js' -> selection db js -> selection db js'.
Proof. intros Hp [Hin Hnd]. split; [intros j; rewrite <- Hp; apply Hin | by rewrite <- Hp]. Qed.

Lemma selection_take db n js : selection db js -> selection db (take n js).
Proof.
  intros [Hin Hnd]. split; [intros j H; eapply Hin, take_elem, H|].
  rewrite fmap_take. eapply sublist_NoDup; [exact Hnd|]. apply sublist_take.
Qed.

Lemma selection_lockable db key keep n : pgWf db -> selection db (lockable key keep n db).
Proof.
  intros Hd. unfold lockable. apply selection_take, selection_filter.
  eapply selection_perm; [symmetry; apply SortFunc_perm|]. by apply selection_filter, selection_rowsOf.
Qed.

Lemma filter_elem {A} (p : A -> bool) l x : x ∈ List.filter p l <-> x ∈ l /\ p x = true.
Proof. by rewrite list_elem_of_In, List.filter_In, list_elem_of_In. Qed.

Lemma lockable_elem db key keep n j :
  pgWf db -> j ∈ lockable key keep n db ->
  table db !! jID j = Some j /\ keep j = true /\ jID j ∉ locked db.
Proof.
  intros Hd Hj. split; [by apply (selection_lockable db key keep n)|].
  unfold lockable in Hj. apply take_elem, filter_elem in Hj as [Hj Hl].
  apply SortFunc_elem, filter_elem in Hj as [_ Hk]. by apply bool_decide_eq_true_1 in Hl.
Qed.

#[local] Hint Resolve selection_rowsOf selection_filter selection_lockable : drover.

(** ** Updates *)

Definition updates (f : DroverJob -> res dbErr DroverJob) : list DroverJob -> list DroverJob -> Prop :=
  Forall2 (fun j k => f j = Ok k).

Lemma evalAll_ok f js ks : evalAll f js = Ok ks <-> updates f js ks.
Proof.
  unfold updates. revert ks. induction js as [|j js IH]; intros ks; simpl.
  - split; [intros [= <-]; constructor | by inversion 1].
  - split.
    + destruct (f j) as [k|] eqn:Ef; simpl; [|done].
      destruct (evalAll f js) as [ks'|]; simpl; [|done]. intros [= <-].
      constructor; [done|]. by apply IH.
    + inversion 1 as [|? k ? ks' Hk Hks]; subst. rewrite Hk. simpl. apply IH in Hks. by rewrite Hks.
Qed.

Lemma updates_ids f js ks :
  (forall j k, j ∈ js -> f j = Ok k -> jID k = jID j) -> updates f js ks -> jID <$> ks = jID <$> js.
Proof.
  intros Hid H. induction H as [|j k js ks Hk _ IH]; [done|].
  rewrite !fmap_cons, IH by (intros ????; eapply Hid; [set_solver|done]).
  f_equal. apply Hid; [set_solver|done].
Qed.

Lemma updates_elem f js ks j : updates f js ks -> j ∈ js -> exists k, k ∈ ks /\ f j = Ok k.
Proof.
  intros H Hj. induction H as [|j' k js ks Hk _ IH]; [set_solver|].
  apply elem_of_cons in Hj as [->|Hj]; [exists k; set_solver|]. destruct IH as (k' & ? & ?); set_solver.
Qed.

Lemma updates_elem' f js ks k : updates f js ks -> k ∈ ks -> exists j, j ∈ js /\ f j = Ok k.
Proof.
  intros H Hj. induction H as [|j k' js ks Hk _ IH]; [set_solver|].
  apply elem_of_cons in Hj as [->|Hj]; [exists j; set_solver|]. destruct IH as (j' & ? & ?); set_solver.
Qed.

Lemma writeAll_notin ks t id : id ∉ jID <$> ks -> writeAll ks t !! id = t !! id.
Proof.
  unfold writeAll. revert t. induction ks as [|k ks IH]; intros t H; [done|].
  simpl. rewrite IH by set_solver. apply lookup_insert_ne. set_solver.
Qed.

Lemma writeAll_in ks t k : NoDup (jID <$> ks) -> k ∈ ks -> writeAll ks t !! jID k = Some k.
Proof.
  unfold writeAll. revert t. induction ks as [|k' ks IH]; intros t Hnd Hin; [set_solver|].
  simpl in *. apply NoDup_cons in Hnd as [Hn Hnd].
  apply elem_of_cons in Hin as [->|Hin]; [|by apply IH].
  change (foldl _ _ ks) with (writeAll ks (<[jID k' := k']> t)).
  rewrite writeAll_notin by done. apply lookup_insert_eq.
Qed.

(** What an UPDATE may do to a row. *)
Record goodUpdate (j k : DroverJob) : Prop := {
  gu_step : lifecycleStep (rowFromDB j) (rowFromDB k);
  gu_attempt : jAttempt j <= MaxInt32 -> jAttempt k <= MaxInt32;
  gu_key : jUniqueKey k = jUniqueKey j
}.

Definition goodOn (js : list DroverJob) (f : DroverJob -> res dbErr DroverJob) : Prop :=
  forall j k, j ∈ js -> f j = Ok k -> goodUpdate j k.

Lemma goodUpdate_id j k : goodUpdate j k -> jID k = jID j.
Proof. intros [H _ _]. exact (sameJob_id _ _ H). Qed.

(** An executed UPDATE, row by row. *)
Record updated db (js : list DroverJob) (f : DroverJob -> res dbErr DroverJob) db' (out : list DroverJob)
    : Prop := {
  up_last : lastID db' = lastID db;
  up_locked : locked db' = locked db;
  up_out : exists ks, updates f js ks /\ out ≡ₚ ks;
  up_in : forall j, j ∈ js -> exists k, f j = Ok k /\ k ∈ out /\ table db' !! jID j = Some k;
  up_notin : forall id, id ∉ jID <$> js -> table db' !! id = table db !! id;
  up_free : forall k id k', k ∈ out -> table db' !! id = Some k' -> conflicts k k' = false
}.

Lemma unordered_elem A (l : list A) x : PgEnvOk E -> x ∈ unordered E l <-> x ∈ l.
Proof. intros HE. by rewrite (unordered_perm E HE). Qed.

Context (HE : PgEnvOk E).

Lemma updateRows_spec db js f :
  selection db js -> goodOn js f ->
  (exists e, updateRows js f db = (db, Err e)) \/
  (exists db' out, updateRows js f db = (db', Ok out) /\ updated db js f db' out).
Proof.
  intros [Hin Hnd] Hf. unfold updateRows. destruct (evalAll f js) as [ks|e] eqn:Ev; [|left; eauto].
  destruct (existsb _ ks) eqn:Ex; [left; eauto|right]. do 2 eexists. split; [done|].
  apply evalAll_ok in Ev.
  assert (jID <$> ks = jID <$> js) as Hids
    by (eapply updates_ids; [|done]; intros j k Hj Hk; by eapply goodUpdate_id, Hf).
  split; simpl; try done.
  - exists ks. split; [done|]. apply (unordered_perm E HE).
  - intros j Hj. destruct (updates_elem _ _ _ _ Ev Hj) as (k & Hk & Hfj). exists k.
    split_all; [done | by apply unordered_elem|].
    rewrite <- (goodUpdate_id j k) by (by apply Hf).
    apply writeAll_in; [by rewrite Hids|done].
  - intros id Hid. apply writeAll_notin. by rewrite Hids.
  - intros k id k' Hk Hk'. rewrite unordered_elem in Hk by done.
    destruct (conflicts k k') eqn:Ec; [|done]. exfalso.
    assert (existsb (fun j => existsb (conflicts j) (map_to_list (writeAll ks (table db))).*2) ks = true);
      [|congruence].
    apply existsb_exists. exists k. split; [by apply list_elem_of_In|].
    apply existsb_exists. exists k'. split; [|done]. apply list_elem_of_In, list_elem_of_fmap.
    exists (id, k'). split; [done|]. by apply elem_of_map_to_list.
Qed.

Lemma updated_lookup db js f db' out id k :
  selection db js -> updated db js f db' out -> table db' !! id = Some k ->
  exists j, table db !! id = Some j /\ (k = j /\ id ∉ jID <$> js \/ j ∈ js /\ f j = Ok k /\ k ∈ out).
Proof.
  intros [Hin Hnd] Hu Hk. destruct (decide (id ∈ jID <$> js)) as [Hid|Hid].
  - apply list_elem_of_fmap in Hid as (j & -> & Hj). exists j. split; [by apply Hin|].
    destruct (up_in _ _ _ _ _ Hu j Hj) as (k' & Hf & Hout & Hk'). right. split_all; congruence.
  - exists k. rewrite (up_notin _ _ _ _ _ Hu) in Hk by done. auto.
Qed.

Lemma updated_evolvesBy (R : JobRow -> JobRow -> Prop) db js f db' out :
  (forall r, R r r) -> selection db js -> updated db js f db' out ->
  (forall j k, j ∈ js -> f j = Ok k -> R (rowFromDB j) (rowFromDB k)) ->
  evolvesBy R (asMem db) (asMem db').
Proof.
  intros HR Hs Hu Hf. unfold asMem at 2. rewrite (up_last _ _ _ _ _ Hu).
  apply (evolves_pointwise R).
  - intros id r. rewrite asMem_lookup, lookup_fmap, fmap_Some. intros (j & Hj & ->).
    destruct (decide (id ∈ jID <$> js)) as [Hid|Hid].
    + apply list_elem_of_fmap in Hid as (j' & -> & Hj').
      rewrite (proj1 Hs j' Hj') in Hj. injection Hj as ->.
      destruct (up_in _ _ _ _ _ Hu j Hj') as (k & Hk & _ & ->). eexists. split; [done|]. by apply Hf.
    + rewrite (up_notin _ _ _ _ _ Hu) by done. rewrite Hj. eexists. eauto.
  - intros id. rewrite asMem_lookup, lookup_fmap, !fmap_None. intros Hn.
    destruct (table db' !! id) as [k|] eqn:Hk; [|done].
    destruct (updated_lookup _ _ _ _ _ id k Hs Hu Hk) as (j & Hj & _). congruence.
Qed.

Lemma updated_wf db js f db' out :
  pgWf db -> selection db js -> goodOn js f -> updated db js f db' out -> pgWf db'.
Proof.
  intros Hd Hs Hf Hu.
  assert (evolves (asMem db) (asMem db')) as He
    by (eapply updated_evolvesBy; eauto with drover; intros; by apply Hf).
  split.
  - eapply evolves_wf; [apply Hd | exact He].
  - rewrite (up_last _ _ _ _ _ Hu). apply Hd.
  - intros id k Hk. destruct (updated_lookup _ _ _ _ _ id k Hs Hu Hk) as (j & Hj & [[-> _]|(Hin & Hfj & _)]);
      [by eapply pg_attempt|]. apply (gu_attempt j k); [by apply Hf | by eapply pg_attempt].
  - intros id k Hk. destruct (updated_lookup _ _ _ _ _ id k Hs Hu Hk) as (j & Hj & [[-> _]|(Hin & Hfj & _)]);
      [by eapply pg_key|]. rewrite (gu_key j k) by (by apply Hf). by eapply pg_key.
  - intros id1 id2 k1 k2 H1 H2.
    destruct (updated_lookup _ _ _ _ _ id1 k1 Hs Hu H1) as (j1 & Hj1 & [[-> _]|(_ & _ & Ho)]);
      [|by eapply up_free].
    destruct (updated_lookup _ _ _ _ _ id2 k2 Hs Hu H2) as (j2 & Hj2 & [[-> _]|(_ & _ & Ho)]);
      [by eapply pg_unique|]. rewrite conflicts_sym. by eapply up_free.
Qed.

(** An UPDATE that takes no free slot cannot violate the index. *)
Lemma updateRows_ok db js f ks :
  pgWf db -> selection db js -> goodOn js f -> updates f js ks ->
  (forall j k, j ∈ js -> f j = Ok k -> indexed k = true -> indexed j = true) ->
  exists db' out, updateRows js f db = (db', Ok out) /\ updated db js f db' out.
Proof.
  intros Hd Hs Hf Hup Hidx. destruct (updateRows_spec db js f Hs Hf) as [[e He]|?]; [exfalso|done].
  unfold updateRows in He. pose proof (proj2 (evalAll_ok f js ks) Hup) as Ev. rewrite Ev in He.
  assert (jID <$> ks = jID <$> js) as Hids
    by (eapply updates_ids; [|done]; intros j k Hj Hk; by eapply goodUpdate_id, Hf).
  destruct (existsb _ ks) eqn:Ex; [|done].
  apply existsb_exists in Ex as (k & Hk & Ex). apply existsb_exists in Ex as (k' & Hk' & Ec).
  apply list_elem_of_In in Hk, Hk'. apply list_elem_of_fmap in Hk' as ([id k''] & -> & Hk').
  apply elem_of_map_to_list in Hk'. simpl in Ec, Hk'.
  assert (forall id k, writeAll ks (table db) !! id = Some k -> exists j, table db !! id = Some j /\
            (indexed k = true -> indexed j = true) /\ indexKey k = indexKey j /\ jID k = jID j) as Hold.
  { intros i x Hx. destruct (decide (i ∈ jID <$> ks)) as [Hi|Hi].
    - apply list_elem_of_fmap in Hi as (y & -> & Hy). rewrite writeAll_in in Hx by (by rewrite ?Hids; try apply Hs).
      injection Hx as ->. destruct (updates_elem' _ _ _ _ Hup Hy) as (j & Hj & Hjx).
      pose proof (Hf j x Hj Hjx) as Hg. exists j. rewrite (goodUpdate_id _ _ Hg). split_all.
      + by apply Hs.
      + by apply Hidx.
      + destruct Hg as [[Heq|[(_ & Hk1 & Hq & _) _]] _ Hkey]; unfold indexKey; rewrite Hkey;
          simpl in *; [injection Heq|]; intros; congruence.
      + done.
    - rewrite writeAll_notin in Hx by done. eauto. }
  assert (writeAll ks (table db) !! jID k = Some k) as Hkk
    by (apply writeAll_in; [rewrite Hids; apply Hs|done]).
  destruct (Hold _ _ Hkk) as (j1 & Hj1 & Hi1 & Hk1 & Hid1).
  destruct (Hold _ _ Hk') as (j2 & Hj2 & Hi2 & Hk2 & Hid2).
  pose proof (pg_unique db Hd _ _ _ _ Hj1 Hj2) as Hno. unfold conflicts in Ec, Hno.
  rewrite Hid1, Hid2, Hk1, Hk2 in Ec. apply andb_true_iff in Ec as [Ec Hb].
  apply andb_true_iff in Ec as [Ec Hx2]. apply andb_true_iff in Ec as [Hn Hx1].
  by rewrite Hn, (Hi1 Hx1), (Hi2 Hx2), Hb in Hno.
Qed.

(** ** One statement *)

(** The table stays well formed and every row takes one lifecycle step at most. *)
Definition pgStep db db' : Prop := pgWf db' /\ evolves (asMem db) (asMem db').

Lemma pgStep_refl db : pgWf db -> pgStep db db.
Proof. intros Hd. split; [done|]. apply quiet_evolves. auto with drover. Qed.

Lemma updateRows_step db js f :
  pgWf db -> selection db js -> goodOn js f -> pgStep db (updateRows js f db).1.
Proof.
  intros Hd Hs Hf. destruct (updateRows_spec db js f Hs Hf) as [[e ->]|(db' & out & -> & Hu)];
    [by apply pgStep_refl|].
  split; [by eapply updated_wf|]. eapply updated_evolvesBy; eauto with drover. intros. by apply Hf.
Qed.

(** A claim or a renewal touches rows of the table that pass the filter. *)
Lemma goodOn_where db js (p : DroverJob -> bool) f :
  pgWf db -> selection db js -> (forall j, j ∈ js -> p j = true) ->
  (forall j k, rowWf (rowFromDB j) -> p j = true -> f j = Ok k -> goodUpdate j k) -> goodOn js f.
Proof.
  intros Hd [Hin _] Hp Hf j k Hj. apply Hf; [|by apply Hp]. by apply (pg_row db (jID j) j), Hin.
Qed.

Lemma waitingJob_spec s : waitingJob s = true <-> waitingState s.
Proof.
  unfold waitingState. destruct s; simpl; split; intros H; auto; destruct_or?; discriminate.
Qed.

Lemma claim_good t q d j k :
  dueJob t q j = true ->
  (if MaxInt32 <? jAttempt j + 1 then Err outOfRange
   else Ok (setColumns j StateRunning (jAttempt j + 1) (jErrors j) (jScheduledAt j)
              (Some (t + d)) (jFinalizedAt j))) = Ok k -> goodUpdate j k.
Proof.
  unfold dueJob. intros Hdue. unbool. destruct (Z.ltb_spec MaxInt32 (jAttempt j + 1)); [done|].
  intros [= <-]. split; simpl; [|lia|done]. right. split; [done|].
  eapply lc_claim; simpl; try done. by apply waitingJob_spec.
Qed.

Lemma lease_good u j k :
  jState j = StateRunning ->
  Ok (setColumns j (jState j) (jAttempt j) (jErrors j) (jScheduledAt j) (Some u) (jFinalizedAt j))
    = Ok (E := dbErr) k -> goodUpdate j k.
Proof. intros Hs [= <-]. split; simpl; [|lia|done]. right. split; [done|]. by eapply lc_lease. Qed.

Lemma lapsedJob_spec t j :
  lapsedJob t j = true <->
  jState j = StateRunning /\ exists u, jLeasedUntil j = Some u /\ u <= t.
Proof.
  unfold lapsedJob. destruct (jLeasedUntil j) as [u|].
  - rewrite andb_true_iff, bool_decide_eq_true, Z.leb_le. naive_solver.
  - rewrite andb_false_r. naive_solver.
Qed.

Lemma heldJob_running h j : heldJob h j = true -> jState j = StateRunning.
Proof. unfold heldJob. intros H. unbool. done. Qed.

Lemma sqlFetchAvailable_good now d q n db :
  pgWf db ->
  goodOn (lockable jScheduledAt (dueJob (stamp E now) q) n db)
    (fun j => if MaxInt32 <? jAttempt j + 1 then Err outOfRange
              else Ok (setColumns j StateRunning (jAttempt j + 1) (jErrors j) (jScheduledAt j)
                         (Some (stamp E now + interval E d)) (jFinalizedAt j))).
Proof.
  intros Hd. eapply (goodOn_where db _ (dueJob (stamp E now) q)); auto with drover.
  - intros j Hj. by apply lockable_elem in Hj as (_ & ? & _).
  - intros j k _. apply claim_good.
Qed.

Lemma sqlFetchExpired_good now d n db :
  pgWf db ->
  goodOn (lockable leaseKey (lapsedJob (stamp E now)) n db)
    (fun j => Ok (setColumns j (jState j) (jAttempt j) (jErrors j) (jScheduledAt j)
                    (Some (stamp E now + interval E d)) (jFinalizedAt j))).
Proof.
  intros Hd. eapply (goodOn_where db _ (lapsedJob (stamp E now))); auto with drover.
  - intros j Hj. by apply lockable_elem in Hj as (_ & ? & _).
  - intros j k _ Hl. apply lease_good. by apply lapsedJob_spec in Hl as [? _].
Qed.

Lemma sqlExtendLeases_good u h db :
  pgWf db ->
  goodOn (List.filter (heldJob h) (rowsOf db))
    (fun j => Ok (setColumns j (jState j) (jAttempt j) (jErrors j) (jScheduledAt j) (Some u)
                    (jFinalizedAt j))).
Proof.
  intros Hd. eapply (goodOn_where db _ (heldJob h)); auto with drover.
  - intros j Hj. by apply filter_elem in Hj as [_ ?].
  - intros j k _ Hl. apply lease_good. by eapply heldJob_running.
Qed.

Lemma sqlExtendLeases_step now d ids ats db :
  pgWf db -> pgStep db (sqlExtendLeases now d ids ats db).1.
Proof.
  intros Hd. unfold sqlExtendLeases. rewrite (surjective_pairing (updateRows _ _ _)). cbn [fst].
  apply updateRows_step; auto using sqlExtendLeases_good with drover.
Qed.

(** ** Statements on one row *)

Lemma select_one db id (p : DroverJob -> bool) :
  pgWf db ->
  List.filter (fun j => (jID j =? id) && p j) (rowsOf db) =
  match table db !! id with Some j => if p j then [j] else [] | None => [] end.
Proof.
  intros Hd. set (l := List.filter _ _).
  assert (selection db l) as [Hin Hnd] by (unfold l; auto with drover).
  assert (forall j, j ∈ l <-> table db !! id = Some j /\ p j = true) as Hl.
  { intros j. unfold l. rewrite filter_elem, elem_of_rowsOf_wf, andb_true_iff, Z.eqb_eq by done.
    split; [intros (? & <- & ?); done|]. intros [Hj ?].
    destruct (pg_row db id j Hd Hj) as [Hid _]. rewrite Hid. done. }
  clearbody l. destruct l as [|j [|j' l]].
  - destruct (table db !! id) as [j|] eqn:Ej; [|done]. destruct (p j) eqn:Ep; [|done].
    exfalso. apply (not_elem_of_nil j), Hl. done.
  - destruct (proj1 (Hl j) ltac:(set_solver)) as [-> ->]. done.
  - exfalso. destruct (proj1 (Hl j) ltac:(set_solver)) as [H1 _].
    destruct (proj1 (Hl j') ltac:(set_solver)) as [H2 _]. rewrite H1 in H2. injection H2 as <-.
    apply NoDup_cons in Hnd as [Hnd _]. set_solver.
Qed.

Lemma unordered_one {A} (x : A) : unordered E [x] = [x].
Proof. apply Permutation_singleton_r, (unordered_perm E HE). Qed.

Lemma update_none f db : updateRows [] f db = (db, Ok []).
Proof.
  unfold updateRows. simpl. replace (unordered E (@nil DroverJob)) with (@nil DroverJob);
    [by destruct db|].
  symmetry. apply Permutation_nil_r, (unordered_perm E HE).
Qed.

Lemma selection_one db id j : pgWf db -> table db !! id = Some j -> selection db [j].
Proof.
  intros Hd Hj. destruct (pg_row db id j Hd Hj) as [Hid _].
  split; [|apply NoDup_singleton]. intros j'. rewrite list_elem_of_singleton. intros ->. by rewrite Hid.
Qed.

Lemma goodOn_one j f : (forall k, f j = Ok k -> goodUpdate j k) -> goodOn [j] f.
Proof. intros H j' k. rewrite list_elem_of_singleton. intros ->. apply H. Qed.

Lemma update_one db id j k f :
  pgWf db -> table db !! id = Some j -> f j = Ok k -> goodUpdate j k ->
  (indexed k = true -> indexed j = true) ->
  updateRows [j] f db = (MkPg (lastID db) (<[id := k]> (table db)) (locked db), Ok [k]).
Proof.
  intros Hd Hj Hf Hg Hi. destruct (pg_row db id j Hd Hj) as [Hid _].
  destruct (updateRows_ok db [j] f [k]) as (db' & out & He & Hu).
  - done.
  - by eapply selection_one.
  - apply goodOn_one. congruence.
  - by repeat constructor.
  - intros j' k'. rewrite list_elem_of_singleton. intros ->. rewrite Hf. intros [= <-]. done.
  - revert He. unfold updateRows. cbn [evalAll]. rewrite Hf. simpl. rewrite unordered_one.
    destruct (existsb _ _ || false); [done|]. rewrite (goodUpdate_id _ _ Hg), Hid. done.
Qed.

(** ** Guarded transitions *)

Lemma runningOn_select db id a :
  pgWf db ->
  List.filter (runningOn id a) (rowsOf db) =
  match table db !! id with
  | Some j => if (jAttempt j =? a) && bool_decide (jState j = StateRunning) then [j] else []
  | None => []
  end.
Proof.
  intros Hd. rewrite <- (select_one db id) by done. apply List.filter_ext. intros j.
  unfold runningOn. by rewrite andb_assoc.
Qed.

Definition markGood (f : DroverJob -> res dbErr DroverJob) : Prop :=
  forall j k, rowWf (rowFromDB j) -> jState j = StateRunning -> f j = Ok k -> goodUpdate j k.

Lemma guardedUpdateSQL_step id a f db :
  pgWf db -> markGood f -> pgStep db (guardedUpdateSQL id a f db).1.
Proof.
  intros Hd Hf. unfold guardedUpdateSQL. rewrite (surjective_pairing (updateRows _ _ _)). cbn [fst].
  apply updateRows_step; auto with drover.
  eapply (goodOn_where db _ (runningOn id a)); auto with drover.
  - intros j Hj. by apply filter_elem in Hj as [_ ?].
  - intros j k Hr Hp. apply Hf; [done|]. unfold runningOn in Hp. unbool. done.
Qed.

Lemma guarded_miss id a f db :
  pgWf db -> (forall j, table db !! id = Some j -> jAttempt j = a -> jState j <> StateRunning) ->
  guardedUpdateSQL id a f db = (db, Ok 0).
Proof.
  intros Hd Hno. unfold guardedUpdateSQL. rewrite runningOn_select by done.
  replace (match table db !! id with Some j => _ | None => [] end) with (@nil DroverJob);
    [by rewrite update_none|].
  destruct (table db !! id) as [j|] eqn:Ej; [|done]. specialize (Hno j eq_refl).
  destruct (Z.eqb_spec (jAttempt j) a); [|done]. rewrite bool_decide_eq_false_2; auto.
Qed.

Lemma guarded_hit id a f db j k :
  pgWf db -> table db !! id = Some j -> jAttempt j = a -> jState j = StateRunning ->
  f j = Ok k -> goodUpdate j k ->
  guardedUpdateSQL id a f db = (MkPg (lastID db) (<[id := k]> (table db)) (locked db), Ok 1).
Proof.
  intros Hd Hj Ha Hs Hf Hg. unfold guardedUpdateSQL. rewrite runningOn_select, Hj by done.
  rewrite Ha, Z.eqb_refl, bool_decide_eq_true_2 by done. simpl.
  rewrite (update_one db id j k f Hd Hj Hf Hg); [done|].
  unfold indexed. rewrite (gu_key _ _ Hg), Hs. by destruct (jUniqueKey j).
Qed.

(** The details the client records: none, a text that is not JSON, or an object. *)
Definition objectDetail (detail : option RawMessage) : Prop :=
  match detail with Some (Raw j) => exists fs, j = JObject fs | _ => True end.

Lemma castJsonb_object detail d :
  objectDetail detail -> castJsonb E detail = Ok (Some d) -> exists fs, d = JObject fs.
Proof.
  destruct detail as [[j|t]|]; simpl; intros Ho [= <-].
  destruct Ho as [fs ->]. apply (jsonbDoc_object E HE).
Qed.

Lemma appendErrors_grow errors detail d e' :
  (exists l, Raw errors = Raw (JArray l)) -> objectDetail detail -> castJsonb E detail = Ok d ->
  appendErrors E errors d = Ok e' ->
  exists l x, errors = JArray l /\ d = Some x /\ e' = JArray (l ++ [x]).
Proof.
  intros [l [= ->]] Ho Hc. destruct d as [x|]; [|done].
  destruct (castJsonb_object _ _ Ho Hc) as [fs ->]. intros [= <-]. eauto.
Qed.

Lemma completed_good t :
  markGood (fun j => Ok (setColumns j StateCompleted (jAttempt j) (jErrors j) (jScheduledAt j) None
                           (Some t))).
Proof.
  intros j k Hr Hs [= <-]. split; simpl; [|lia|done]. right. split; [done|].
  eapply lc_finalize; simpl; try done; [by left | by left].
Qed.

Lemma finalize_good st t detail d :
  finalState st -> objectDetail detail -> castJsonb E detail = Ok d ->
  markGood (fun j => let? errors := appendErrors E (jErrors j) d in
              Ok (setColumns j st (jAttempt j) errors (jScheduledAt j) None (Some t))).
Proof.
  intros Hst Ho Hc j k Hr Hs. destruct (appendErrors E (jErrors j) d) as [e'|] eqn:Ea; [|done].
  intros [= <-]. destruct (appendErrors_grow _ _ _ _ (rw_errors _ Hr) Ho Hc Ea) as (l & x & Hl & _ & ->).
  split; simpl; [|lia|done]. right. split; [done|].
  eapply lc_finalize; simpl; try done. right. exists l, x. by rewrite Hl.
Qed.

Lemma retry_good t detail d :
  objectDetail detail -> castJsonb E detail = Ok d ->
  markGood (fun j => let? errors := appendErrors E (jErrors j) d in
              Ok (setColumns j StateRetryable (jAttempt j) errors t None (jFinalizedAt j))).
Proof.
  intros Ho Hc j k Hr Hs. destruct (appendErrors E (jErrors j) d) as [e'|] eqn:Ea; [|done].
  intros [= <-]. destruct (appendErrors_grow _ _ _ _ (rw_errors _ Hr) Ho Hc Ea) as (l & x & Hl & _ & ->).
  split; simpl; [|lia|done]. right. split; [done|].
  eapply lc_retry; simpl; try done. right. exists l, x. by rewrite Hl.
Qed.

Lemma snooze_good t :
  markGood (fun j => Ok (setColumns j StateScheduled (Z.max (jAttempt j - 1) 0) (jErrors j) t None
                           (jFinalizedAt j))).
Proof.
  intros j k Hr Hs [= <-]. split; simpl; [|unfold MaxInt32; lia|done]. right. split; [done|].
  by apply lc_snooze.
Qed.

Lemma sqlFinalize_step st now id a detail db :
  pgWf db -> finalState st -> objectDetail detail ->
  pgStep db (sqlFinalize st now id a detail db).1.
Proof.
  intros Hd Hst Ho. unfold sqlFinalize. destruct (castJsonb E detail) eqn:Hc; simpl;
    [|by apply pgStep_refl]. apply guardedUpdateSQL_step; [done|]. by eapply finalize_good.
Qed.

Lemma sqlMarkRetryable_step t id a detail db :
  pgWf db -> objectDetail detail -> pgStep db (sqlMarkRetryable t id a detail db).1.
Proof.
  intros Hd Ho. unfold sqlMarkRetryable. destruct (castJsonb E detail) eqn:Hc; simpl;
    [|by apply pgStep_refl]. apply guardedUpdateSQL_step; [done|]. by eapply retry_good.
Qed.

(** ** Operator actions *)

Lemma cancellableJob_spec s : cancellableJob s = true <-> waitingState s \/ s = StateDead.
Proof.
  unfold waitingState. destruct s; simpl; split; intros H; auto; destruct_or?; discriminate.
Qed.

Lemma cancel_good t j k :
  cancellableJob (jState j) = true ->
  Ok (setColumns j StateCancelled (jAttempt j) (jErrors j) (jScheduledAt j) None (Some t))
    = Ok (E := dbErr) k -> goodUpdate j k.
Proof.
  intros Hc [= <-]. split; simpl; [|lia|done]. right. split; [done|].
  eapply lc_operator_cancel; simpl; try done. by apply cancellableJob_spec.
Qed.

Lemma redrive_good t j k :
  jState j = StateDead ->
  Ok (setColumns j StateAvailable 0 (jErrors j) t None None) = Ok (E := dbErr) k -> goodUpdate j k.
Proof.
  intros Hs [= <-]. split; simpl; [|unfold MaxInt32; lia|done]. right. split; [done|].
  by apply lc_redrive.
Qed.

(** What an operator statement finds and does. *)
Lemma sqlOperatorCancel_eq now id db :
  pgWf db ->
  sqlOperatorCancel now id db =
  match table db !! id with
  | Some j => if cancellableJob (jState j) then
      let k := setColumns j StateCancelled (jAttempt j) (jErrors j) (jScheduledAt j) None
                 (Some (stamp E now)) in
      (MkPg (lastID db) (<[id := k]> (table db)) (locked db), Ok k)
      else (db, Err ErrNoRows)
  | None => (db, Err ErrNoRows)
  end.
Proof.
  intros Hd. unfold sqlOperatorCancel. rewrite select_one by done.
  destruct (table db !! id) as [j|] eqn:Ej; [|by rewrite update_none].
  destruct (cancellableJob (jState j)) eqn:Hc; [|by rewrite update_none].
  match goal with |- context [updateRows _ ?f db] =>
    rewrite (update_one db id j _ f Hd Ej eq_refl) end; [done | by eapply cancel_good|].
  unfold indexed. simpl. by destruct (jUniqueKey j).
Qed.

Lemma sqlOperatorCancel_step now id db : pgWf db -> pgStep db (sqlOperatorCancel now id db).1.
Proof.
  intros Hd. unfold sqlOperatorCancel. rewrite (surjective_pairing (updateRows _ _ _)). cbn [fst].
  apply updateRows_step; auto with drover. intros j k Hj. apply filter_elem in Hj as [_ Hj].
  apply cancel_good. by unbool.
Qed.

Lemma sqlRedriveDead_step now id db : pgWf db -> pgStep db (sqlRedriveDead now id db).1.
Proof.
  intros Hd. unfold sqlRedriveDead. rewrite (surjective_pairing (updateRows _ _ _)). cbn [fst].
  apply updateRows_step; auto with drover. intros j k Hj. apply filter_elem in Hj as [_ Hj].
  apply redrive_good. by unbool.
Qed.

Lemma sqlOperator_miss now id db :
  pgWf db ->
  ((sqlOperatorCancel now id db).2 = Err ErrNoRows -> (sqlOperatorCancel now id db).1 = db) /\
  ((sqlRedriveDead now id db).2 = Err ErrNoRows -> (sqlRedriveDead now id db).1 = db).
Proof.
  intros Hd. split.
  - rewrite sqlOperatorCancel_eq by done. destruct (table db !! id) as [j|]; [|done].
    by destruct (cancellableJob _).
  - unfold sqlRedriveDead. rewrite select_one by done.
    destruct (table db !! id) as [j|]; [|by rewrite update_none].
    destruct (bool_decide (jState j = StateDead)); [|by rewrite update_none].
    unfold updateRows. cbn [evalAll res_bind]. rewrite unordered_one. by destruct (existsb _ _).
Qed.

(** ** Insertion *)

(** [db'] has the rows of [db] as they were, and new ones under new ids. *)
Record grows db db' : Prop := {
  gr_last : lastID db <= lastID db';
  gr_locked : locked db' = locked db;
  gr_old : forall id j, table db !! id = Some j -> table db' !! id = Some j;
  gr_new : forall id j, table db' !! id = Some j -> table db !! id = None ->
    lastID db < id <= lastID db' /\ freshRow id (rowFromDB j)
}.

Lemma grows_refl db : grows db db.
Proof. split; try done. congruence. Qed.

Lemma grows_trans db1 db2 db3 : grows db1 db2 -> grows db2 db3 -> grows db1 db3.
Proof.
  intros [L1 K1 O1 N1] [L2 K2 O2 N2]. split; [lia | congruence | eauto |].
  intros id j H3 H1. destruct (table db2 !! id) as [j2|] eqn:E2.
  - destruct (N1 id j2 E2 H1). split; [lia|]. rewrite (O2 id j2 E2) in H3. congruence.
  - destruct (N2 id j H3 E2). split; [lia|done].
Qed.

Lemma grows_evolves db db' : grows db db' -> evolves (asMem db) (asMem db').
Proof.
  intros [L K O N]. split; [done|]. intros id. rewrite !asMem_lookup.
  destruct (table db !! id) as [j|] eqn:Ej; simpl.
  - rewrite (O id j Ej). simpl. auto with drover.
  - destruct (table db' !! id) as [j'|] eqn:Ej'; simpl; [|done]. by apply N.
Qed.

Lemma newJob_fresh now id kind queue args at_ key :
  freshRow id (rowFromDB (newJob now id kind queue args at_ key)).
Proof. unfold freshRow. simpl. split_all; try done. destruct (now <? _); auto. Qed.

Lemma existsb_false {A} (p : A -> bool) l x : existsb p l = false -> x ∈ l -> p x = false.
Proof.
  intros He Hx. destruct (p x) eqn:Hp; [|done]. rewrite <- He. symmetry. apply existsb_exists.
  exists x. split; [by apply list_elem_of_In|done].
Qed.

Lemma insertRow_spec now kind queue args at_ key db :
  pgWf db -> key <> Some "" ->
  pgWf (insertRow now kind queue args at_ key db).1 /\
  grows db (insertRow now kind queue args at_ key db).1 /\
  ((insertRow now kind queue args at_ key db).2 = Err uniqueViolation \/
   (insertRow now kind queue args at_ key db).2 = Err sequenceLimit \/
   (insertRow now kind queue args at_ key db).2 =
     Ok (newJob now (lastID db + 1) kind queue args at_ key)).
Proof.
  intros Hd Hk. unfold insertRow. destruct (Z.ltb_spec MaxInt64 (lastID db + 1)) as [|Hlt]; simpl.
  { auto using grows_refl. }
  set (j := newJob now (lastID db + 1) kind queue args at_ key).
  assert (table db !! (lastID db + 1) = None) as Hn by (apply pg_fresh; [done|lia]).
  assert (forall db', grows db db' -> lastID db' <= MaxInt64 ->
            (forall id k, table db' !! id = Some k -> table db !! id = Some k \/
               k = j /\ existsb (conflicts j) (rowsOf db) = false) -> pgWf db') as Hwf.
  { intros db' Hg Hl Hin. split.
    - eapply evolves_wf; [apply Hd | by apply grows_evolves].
    - done.
    - intros id k Hkk. destruct (Hin id k Hkk) as [?|[-> _]]; [by eapply pg_attempt|].
      simpl. unfold MaxInt32. lia.
    - intros id k Hkk. destruct (Hin id k Hkk) as [?|[-> _]]; [by eapply pg_key|done].
    - assert (conflicts j j = false) as Hjj by (unfold conflicts; by rewrite Z.eqb_refl).
      intros id1 id2 k1 k2 H1 H2.
      destruct (Hin id1 k1 H1) as [O1|[-> C1]], (Hin id2 k2 H2) as [O2|[-> C2]]; [| | |done].
      + by eapply pg_unique.
      + rewrite conflicts_sym. eapply existsb_false; [done|]. apply elem_of_rowsOf. eauto.
      + eapply existsb_false; [done|]. apply elem_of_rowsOf. eauto. }
  destruct (existsb (conflicts j) (rowsOf db)) eqn:Ex; simpl.
  - assert (grows db (MkPg (lastID db + 1) (table db) (locked db))) as Hg
      by (split; simpl; try done; [lia|congruence]).
    split_all; [apply Hwf; simpl; auto; lia | done | auto].
  - assert (grows db (MkPg (lastID db + 1) (<[lastID db + 1 := j]> (table db)) (locked db))) as Hg.
    { split; simpl; try done; [lia| |].
      - intros id k Hkk. rewrite lookup_insert_ne; [done|congruence].
      - intros id k Hkk Hno. destruct (decide (lastID db + 1 = id)) as [<-|Hne].
        + rewrite lookup_insert_eq in Hkk. injection Hkk as <-. split; [lia|]. apply newJob_fresh.
        + rewrite lookup_insert_ne in Hkk by done. congruence. }
    split_all; [|done|auto]. apply Hwf; simpl; [done|lia|]. intros id k Hkk.
    destruct (decide (lastID db + 1 = id)) as [<-|Hne].
    + rewrite lookup_insert_eq in Hkk. injection Hkk as <-. auto.
    + rewrite lookup_insert_ne in Hkk by done. auto.
Qed.

Lemma grows_step db db' : pgWf db' -> grows db db' -> pgStep db db'.
Proof. intros Hd Hg. split; [done|]. by apply grows_evolves. Qed.

(** A row that asks for the empty key asks for none. *)
Definition keyOf (key : string) : option string := if String.eqb key "" then None else Some key.

Lemma keyOf_ne key : keyOf key <> Some "".
Proof. unfold keyOf. destruct (String.eqb_spec key ""); [done|congruence]. Qed.

Lemma sqlInsertJob_step now p db : pgWf db -> pgStep db (sqlInsertJob now (insertParams p) db).1.
Proof.
  intros Hd. unfold sqlInsertJob. destruct (jsonbArgs E _) as [args|]; [|by apply pgStep_refl].
  simpl. fold (keyOf (ipUniqueKey p)).
  apply grows_step; apply insertRow_spec; auto using keyOf_ne.
Qed.

Lemma insertAll_spec now staged db :
  pgWf db -> Forall (fun b => ibUniqueKey b <> Some "") staged ->
  pgWf (insertAll now staged db).1 /\ grows db (insertAll now staged db).1.
Proof.
  intros Hd Hs. revert db Hd. induction Hs as [|b staged Hb Hs IH]; intros db Hd; simpl;
    [auto using grows_refl|].
  destruct (insertRow_spec now (ibKind b) (ibQueue b) (ibArgs b) (ibScheduledAt b) (ibUniqueKey b) db Hd Hb)
    as (Hw & Hg & _).
  destruct (insertRow now (ibKind b) (ibQueue b) (ibArgs b) (ibScheduledAt b) (ibUniqueKey b) db)
    as [db1 [j|e]]; simpl in *; [|done].
  destruct (IH db1 Hw) as [Hw2 Hg2]. destruct (insertAll now staged db1) as [db2 r]. simpl in *.
  split; [done|]. by eapply grows_trans.
Qed.

Lemma rolledBack_wf db db' :
  pgWf db -> pgWf db' -> grows db db' -> pgWf (rolledBack db db') /\ grows db (rolledBack db db').
Proof.
  intros Hd Hd' Hg. assert (grows db (rolledBack db db')) as Hgr
    by (split; simpl; try done; [apply Hg | congruence]).
  split; [|done]. split; simpl; try apply Hd; [|apply Hd'].
  eapply evolves_wf; [apply Hd | by apply grows_evolves].
Qed.

Lemma stage_keys i batch staged :
  stage (E := E) i batch = Ok staged -> Forall (fun b => ibUniqueKey b <> Some "") staged.
Proof.
  revert i staged. induction batch as [|p batch IH]; intros i staged; simpl.
  - intros [= <-]. constructor.
  - destruct (MaxInt32 <? i); [done|]. destruct (jsonbArgs E (ipArgs p)) as [args|]; [|done].
    destruct (stage (i + 1) batch) as [staged'|e] eqn:Es; simpl; [|done]. intros [= <-].
    constructor; [apply keyOf_ne|]. by eapply IH.
Qed.

Lemma sqlInsertJobsFromStaging_spec now staged db :
  pgWf db -> Forall (fun b => ibUniqueKey b <> Some "") staged ->
  pgWf (sqlInsertJobsFromStaging now staged db).1 /\
  grows db (sqlInsertJobsFromStaging now staged db).1.
Proof.
  intros Hd Hs. unfold sqlInsertJobsFromStaging.
  assert (Forall (fun b => ibUniqueKey b <> Some "") (SortFunc (onKey ibOrd compareZ) staged)) as Hs'
    by (by rewrite SortFunc_perm).
  destruct (insertAll_spec (stamp E now) _ db Hd Hs') as [Hw Hg].
  destruct (insertAll _ _ db) as [db' [js|e]]; simpl in *; [done|]. by apply rolledBack_wf.
Qed.
End Facts.

#[export] Hint Resolve selection_rowsOf selection_filter selection_lockable pgStep_refl
  sqlExtendLeases_step guardedUpdateSQL_step completed_good snooze_good sqlFinalize_step
  sqlMarkRetryable_step sqlOperatorCancel_step sqlRedriveDead_step : drover.

(** ** A server to compute with

    Instants and intervals are cut to the microsecond, documents are kept, and rows come back
    in reverse. *)

Definition demoEnv : PgEnv := {|
  stamp := fun t => t - t mod Microsecond;
  interval := fun d => d - d mod Microsecond;
  jsonbDoc := fun j => j;
  jsonbArgs := fun s => if String.eqb s "" then None else Some s;
  unordered := fun A l => rev l
|}.

Lemma demoEnv_ok : PgEnvOk demoEnv.
Proof.
  split; simpl.
  - intros t. pose proof (Z.mod_pos_bound t Microsecond ltac:(done)). lia.
  - intros d _. pose proof (Z.mod_pos_bound d Microsecond ltac:(done)). lia.
  - eauto.
  - intros A l. symmetry. apply Permutation_rev.
Qed.
