(* ===== verification/PgdriverProps.v ===== *)
(** * PgdriverProps: what the production driver guarantees

    Calls against any network and any other sessions, the driver's instance of the contract,
    and concurrent claims. *)

From S2P Require Import Prelude GoTime GoError DriverSpec Memdriver MemdriverFacts Postgres.
From S2P Require Import Pgdriver PgdriverFacts.

(** ** Calls in any world *)

Section Calls.
Context {E : PgEnv} (HE : PgEnvOk E).
Implicit Types (db : PgDb E) (w : World E).

(** Other sessions keep the table's invariant; nothing else is asked of them. *)
Definition honest w : Prop := forall i db, pgWf db -> pgWf (others w i db).

(** Only other sessions acted. *)
Definition via w : PgDb E -> PgDb E -> Prop := rtc (fun a b => exists i, b = others w i a).

(** Other sessions acted, and the call wrote once in between. *)
Definition moves w db db' : Prop :=
  exists a b, via w db a /\ pgStep a b /\ via w b db'.

Lemma via_wf w db db' : honest w -> pgWf db -> via w db db' -> pgWf db'.
Proof. intros Hw Hd H. induction H as [|a b c [i ->] _ IH]; auto. Qed.

Lemma via_moves w db db' : honest w -> pgWf db -> via w db db' -> moves w db db'.
Proof.
  intros Hw Hd H. exists db', db'. split_all; [done| |apply rtc_refl].
  apply pgStep_refl. by eapply via_wf.
Qed.

Lemma moves_via w a b c : moves w a b -> via w b c -> moves w a c.
Proof. intros (x & y & ? & ? & ?) ?. exists x, y. split_all; [done..|]. by etrans. Qed.

Lemma via_then_moves w a b c : via w a b -> moves w b c -> moves w a c.
Proof. intros ? (x & y & ? & ? & ?). exists x, y. split_all; [by etrans | done..]. Qed.

Lemma moves_wf w db db' : honest w -> moves w db db' -> pgWf db'.
Proof. intros Hw (a & b & _ & [Hb _] & Hv). by eapply via_wf. Qed.

Lemma via_others w i db : via w db (others w i db).
Proof. apply rtc_once. eauto. Qed.

Lemma send_cases {A} (f : fault) (stmt : PgDb E -> PgDb E * res dbErr A) db :
  ((send f stmt db).1 = db /\ exists e, (send f stmt db).2 = Err (Transport e)) \/
  ((send f stmt db).1 = (stmt db).1 /\
   ((send f stmt db).2 = (stmt db).2 \/ exists e, (send f stmt db).2 = Err (Transport e))).
Proof. destruct f; simpl; eauto 6. Qed.

Lemma ask_moves {A} w i (stmt : Time -> PgDb E -> PgDb E * res dbErr A) db :
  honest w -> pgWf db -> (forall t d, pgWf d -> pgStep d (stmt t d).1) ->
  moves w db (ask w i stmt db).1.
Proof.
  intros Hw Hd Hs. unfold ask.
  destruct (send_cases (net w i) (stmt (clock w i)) (others w i db)) as [[-> _]|[-> _]].
  - apply via_moves; [done..|]. apply via_others.
  - eexists _, _. split_all; [apply via_others | by apply Hs, Hw | apply rtc_refl].
Qed.

Lemma send_reading {A} f t (q : PgDb E -> res dbErr A) db : (send f (reading q t) db).1 = db.
Proof. by destruct f. Qed.

Lemma ask_reading {A} w i (q : PgDb E -> res dbErr A) db : via w db (ask w i (reading q) db).1.
Proof. unfold ask. rewrite send_reading. apply via_others. Qed.

Lemma pgMark_moves w verb l stmt db :
  honest w -> pgWf db -> (forall t d, pgWf d -> pgStep d (stmt t d).1) ->
  moves w db (pgMark w verb l stmt db).1.
Proof.
  intros Hw Hd Hs. pose proof (ask_moves w 0 stmt db Hw Hd Hs) as Hm. unfold pgMark.
  destruct (ask w 0 stmt db) as [db' [n|e]]; simpl in *; [|done].
  unfold explain. destruct (n =? 0); [|done]. unfold finalizeFailure.
  pose proof (ask_reading w 1 (sqlGetJob (leaseID l)) db') as Hv.
  destruct (ask w 1 _ db') as [db'' r]. simpl in *. by eapply moves_via.
Qed.

(** Both operator methods: a statement that reports no row wrote nothing, and is re-read. *)
Lemma miss_via {A} w i (stmt : Time -> PgDb E -> PgDb E * res dbErr A) db db' :
  honest w -> pgWf db ->
  (forall t d, pgWf d -> (stmt t d).2 = Err ErrNoRows -> (stmt t d).1 = d) ->
  ask w i stmt db = (db', Err ErrNoRows) -> via w db db'.
Proof.
  intros Hw Hd Hn Ha. unfold ask in Ha.
  destruct (send_cases (net w i) (stmt (clock w i)) (others w i db)) as [[_ [e He]]|[H1 [H2|[e He]]]];
    rewrite Ha in *; simpl in *; try done.
  rewrite (Hn (clock w i)) in H1 by (auto || by apply Hw). subst. apply via_others.
Qed.

Lemma afterOperatorMiss_moves w i id want retry db :
  honest w -> pgWf db ->
  (forall again, retry = Some again -> forall d, pgWf d -> moves w d (again d).1) ->
  moves w db (pgAfterOperatorMiss w i id want retry db).1.
Proof.
  intros Hw Hd Hr. unfold pgAfterOperatorMiss.
  pose proof (ask_reading w i (sqlGetJob id) db) as Hv.
  destruct (ask w i (reading (sqlGetJob id)) db) as [db' [j|[]]]; simpl in *;
    try (by apply via_moves).
  destruct retry as [again|]; [|by apply via_moves].
  destruct (operatorEligible (jState j) want); [|by apply via_moves].
  eapply via_then_moves; [done|]. apply Hr; [done|]. by eapply via_wf.
Qed.

Lemma pgOperatorCancel_moves w id n i db :
  honest w -> pgWf db -> moves w db (pgOperatorCancelFrom w i id n db).1.
Proof.
  intros Hw. revert i db. induction n as [|n IH]; intros i db Hd; simpl.
  all: pose proof (ask_moves w i (fun now => sqlOperatorCancel now id) db Hw Hd) as Hm.
  all: destruct (ask w i _ db) as [db' [j|[]]] eqn:Ea; simpl in *; auto using sqlOperatorCancel_step.
  all: assert (via w db db') as Hv by
    (eapply (miss_via w i (fun now => sqlOperatorCancel now id)); [done.. | | exact Ea]; intros t d Hdd;
     by apply sqlOperator_miss).
  all: eapply via_then_moves; [exact Hv|].
  all: apply afterOperatorMiss_moves; [done | by eapply via_wf |]; intros again [=]; subst.
  intros d Hdd. by apply IH.
Qed.

Lemma pgRedriveDead_moves w id n i db :
  honest w -> pgWf db -> moves w db (pgRedriveDeadFrom w i id n db).1.
Proof.
  intros Hw. revert i db. induction n as [|n IH]; intros i db Hd; simpl.
  all: pose proof (ask_moves w i (fun now => sqlRedriveDead now id) db Hw Hd) as Hm.
  all: destruct (ask w i _ db) as [db' [j|[]]] eqn:Ea; simpl in *; auto using sqlRedriveDead_step.
  all: assert (via w db db') as Hv by
    (eapply (miss_via w i (fun now => sqlRedriveDead now id)); [done.. | | exact Ea]; intros t d Hdd;
     by apply sqlOperator_miss).
  all: eapply via_then_moves; [exact Hv|].
  all: apply afterOperatorMiss_moves; [done | by eapply via_wf |]; intros again [=]; subst.
  intros d Hdd. by apply IH.
Qed.

(** The answer to a reading statement. *)
Definition answer {A} (f : fault) (r : res dbErr A) : res dbErr A :=
  match f with
  | Delivered => r
  | Refused e | Unacknowledged e => Err (Transport e)
  end.

Lemma inTx_reading {A} w i (q : PgDb E -> res dbErr A) db :
  inTx w i (reading q) db = (db, answer (net w i) (q db)).
Proof. unfold inTx. by destruct (net w i). Qed.

(** The transaction of a batch. *)
Lemma insertMany_spec w batch db :
  pgWf db -> pgWf (insertMany w batch db).1 /\ grows db (insertMany w batch db).1.
Proof.
  intros Hd. unfold insertMany. rewrite inTx_reading. pose proof (grows_refl db) as Hg.
  destruct (answer (net w 1) _); [|done]. rewrite inTx_reading.
  destruct (answer (net w 2) _); [|done]. rewrite inTx_reading.
  destruct (answer (net w 3) (stage 0 batch)) as [staged|] eqn:Es; [|done].
  assert (Forall (fun b => ibUniqueKey b <> Some "") staged) as Hst
    by (destruct (net w 3); try done; by eapply stage_keys).
  pose proof (sqlInsertJobsFromStaging_spec (clock w 0) staged db Hd Hst) as [Hw Hgr]. unfold inTx.
  destruct (send_cases (net w 4) (sqlInsertJobsFromStaging (clock w 0) staged) db) as [[H _]|[H _]];
    destruct (send _ _ db) as [db4 [js|e]]; simpl in *; subst; done.
Qed.

Lemma pgInsertMany_moves w batch db :
  honest w -> pgWf db -> moves w db (pgInsertMany w batch db).1.
Proof.
  intros Hw Hd. unfold pgInsertMany.
  destruct batch as [|p batch]; [apply via_moves; [done..|]; apply rtc_refl|].
  pose proof (ask_reading w 0 (fun _ => Ok ()) db) as Hv.
  destruct (ask w 0 _ db) as [db0 [u|e]]; simpl in *; [|by apply via_moves].
  pose proof (via_wf w db db0 Hw Hd Hv) as Hd0.
  destruct (insertMany_spec w (p :: batch) db0 Hd0) as [H1 Hg].
  destruct (insertMany w (p :: batch) db0) as [db1 r]. simpl in *.
  destruct (rolledBack_wf db0 db1 Hd0 H1 Hg) as [Hr Hgr].
  assert (forall d, pgWf d -> grows db0 d -> moves w db d) as Hd'.
  { intros d ??. eapply via_then_moves; [done|]. exists db0, d.
    split_all; [apply rtc_refl | by apply grows_step | apply rtc_refl]. }
  destruct r; simpl; [destruct (net w 5); simpl|]; auto.
Qed.

(** The client records objects. *)
Definition callOk (c : call) : Prop :=
  match c with
  | CMarkRetryable _ _ d | CMarkDead _ d | CMarkCancelled _ d => objectDetail d
  | _ => True
  end.

Lemma fetch_moves w stmt db limit (out : list DroverJob -> list JobRow) (wrap : dbErr -> error) :
  honest w -> pgWf db -> (forall t d, pgWf d -> pgStep d (stmt t d).1) ->
  moves w db
    (if (limit <? 0) || (MaxInt32 <? limit) then (db, Err (errFetchLimit limit))
     else let '(db', r) := ask w 0 stmt db in
          (db', match r with Err e => Err (wrap e) | Ok js => Ok (out js) end)).1.
Proof.
  intros Hw Hd Hs. destruct (_ || _); [apply via_moves; [done..|apply rtc_refl]|].
  pose proof (ask_moves w 0 stmt db Hw Hd Hs). by destruct (ask w 0 stmt db).
Qed.

Lemma sqlFetch_step now d q n db :
  pgWf db -> pgStep db (sqlFetchAvailable now d q n db).1 /\ pgStep db (sqlFetchExpired now d n db).1.
Proof.
  intros Hd. split; apply updateRows_step; auto using sqlFetchAvailable_good, sqlFetchExpired_good with drover.
Qed.

Lemma pgExec_moves w c db :
  honest w -> pgWf db -> callOk c -> moves w db (pgExec w c db).
Proof.
  intros Hw Hd Hc. destruct c; cbn [pgExec callOk] in *.
  - pose proof (ask_moves w 0 (fun now => sqlInsertJob now (insertParams p)) db Hw Hd) as Hm.
    unfold pgInsert. destruct (ask w 0 _ db). apply Hm. intros. by apply sqlInsertJob_step.
  - by apply pgInsertMany_moves.
  - apply fetch_moves; [done..|]. intros. by apply sqlFetch_step.
  - apply fetch_moves; [done..|]. intros. apply (sqlFetch_step t leaseFor ""); done.
  - unfold pgExtendLeases. destruct leases as [|l ls]; [apply via_moves; [done..|]; apply rtc_refl|].
    match goal with |- context [ask w 0 ?s db] => pose proof (ask_moves w 0 s db Hw Hd) as Hm;
      destruct (ask w 0 s db) end.
    apply Hm. intros. by apply sqlExtendLeases_step.
  - apply pgMark_moves; [done..|]. intros. apply guardedUpdateSQL_step; auto using completed_good.
  - apply pgMark_moves; [done..|]. intros. by apply sqlMarkRetryable_step.
  - apply pgMark_moves; [done..|]. intros. apply sqlFinalize_step; auto. unfold finalState. auto.
  - apply pgMark_moves; [done..|]. intros. apply sqlFinalize_step; auto. unfold finalState. auto.
  - apply pgMark_moves; [done..|]. intros. apply guardedUpdateSQL_step; auto using snooze_good.
  - by apply pgOperatorCancel_moves.
  - by apply pgRedriveDead_moves.
Qed.

Definition traceOk (tr : list (World E * call)) : Prop :=
  Forall (fun wc => honest wc.1 /\ callOk wc.2) tr.

Lemma pgRun_wf tr db : pgWf db -> traceOk tr -> pgWf (pgRun tr db).
Proof.
  intros Hd Htr. revert db Hd. unfold pgRun. induction Htr as [|[w c] tr [Hw Hc] _ IH]; intros db Hd; [done|].
  simpl. apply IH. eapply moves_wf; [exact Hw|]. by apply pgExec_moves.
Qed.

(** The index, said of rows. *)
Lemma pg_uniqueSlots db : pgWf db -> uniqueSlots (asMem db).
Proof.
  intros Hd id1 id2 r1 r2. rewrite !asMem_lookup, !fmap_Some.
  intros (j1 & H1 & ->) (j2 & H2 & ->). simpl. intros Hne Hk Hq Hkd Ha1 Ha2.
  destruct (pg_row db id1 j1 Hd H1) as [I1 _], (pg_row db id2 j2 Hd H2) as [I2 _].
  pose proof (pg_unique db Hd _ _ _ _ H1 H2) as Hc. unfold conflicts, indexed, indexKey in Hc.
  destruct (decide (id1 = id2)) as [|Hn]; [done|]. rewrite I1, I2 in Hc.
  rewrite (proj2 (Z.eqb_neq _ _) Hn) in Hc. pose proof (pg_key db Hd id1 j1 H1) as K1.
  pose proof (pg_key db Hd id2 j2 H2) as K2.
  destruct (jUniqueKey j1) as [k1|], (jUniqueKey j2) as [k2|]; simpl in *; try congruence.
  subst. rewrite Hq, Hkd in Hc. rewrite bool_decide_eq_true_2 in Hc by done.
  destruct (jState j1), (jState j2); done.
Qed.

(** C3: The production driver refines the job lifecycle, whatever the network does.  From the
    migrated table, after any calls, each statement of which may be refused or run with its answer
    lost, and with other sessions acting between any two statements, the table is well
    formed, attempts fit their [int4] column, and no two live jobs share a unique slot; and a further
    call writes at one instant only, taking each row one lifecycle step at most. *)
Theorem pg_refines_lifecycle tr w c :
  traceOk tr -> honest w -> callOk c ->
  let db := pgRun tr (emptyDb (E := E)) in
  pgWf db /\ uniqueSlots (asMem db) /\
  exists a b, via w db a /\ (pgWf b /\ evolves (asMem a) (asMem b)) /\ via w b (pgExec w c db).
Proof.
  intros Htr Hw Hc db. assert (pgWf db) as Hd by (apply pgRun_wf; auto using emptyDb_wf).
  split_all; [done | by apply pg_uniqueSlots | by apply pgExec_moves].
Qed.

(** ** The driver under the contract *)

Lemma attemptArg_small a : 0 <= a <= MaxInt32 -> attemptArg a = a.
Proof.
  intros H. unfold attemptArg. destruct (Z.ltb_spec a 0); [lia|].
  destruct (Z.ltb_spec MaxInt32 a); lia.
Qed.

Lemma rowAt_pg db id r : rowAt db id = Some r <-> exists j, table db !! id = Some j /\ r = rowFromDB j.
Proof. simpl. rewrite fmap_Some. naive_solver. Qed.

(** What a Mark method promises in any world: [a] is the table its UPDATE meets.  A refused
    statement changes nothing.  One whose answer is lost was applied, if the lease was held, and
    is reported as an error all the same.  A miss is explained by a second look, which other
    sessions may have got ahead of. *)
Definition pgMarkSpec (apply_ : JobRow -> JobRow) (l : Lease) w db (out : PgDb E * option error) : Prop :=
  let a := others w 0 db in
  match net w 0 with
  | Refused _ => out.1 = a /\ out.2 <> None
  | Unacknowledged _ =>
      out.2 <> None /\
      (forall r, leaseHeld a l r -> onlyRow a out.1 (leaseID l) (apply_ r)) /\
      ((forall r, ~ leaseHeld a l r) -> int32Attempt (leaseAttempt l) -> out.1 = a)
  | Delivered =>
      (forall r, leaseHeld a l r -> out.2 = None /\ onlyRow a out.1 (leaseID l) (apply_ r)) /\
      ((forall r, ~ leaseHeld a l r) -> int32Attempt (leaseAttempt l) ->
         out.1 = others w 1 a /\ exists e, out.2 = Some e /\
           (net w 1 = Delivered ->
              errorsIs e (refusal (rowAt (others w 1 a) (leaseID l)) l) = true))
  end.

Lemma guarded_held l f (g : DroverJob -> DroverJob) (apply_ : JobRow -> JobRow) db r :
  pgWf db -> markGood f -> (forall j, rowWf (rowFromDB j) -> f j = Ok (g j)) ->
  (forall j, rowWf (rowFromDB j) -> rowFromDB (g j) = apply_ (rowFromDB j)) ->
  leaseHeld db l r ->
  exists db', guardedUpdateSQL (leaseID l) (attemptArg (leaseAttempt l)) f db = (db', Ok 1) /\
    onlyRow db db' (leaseID l) (apply_ r).
Proof.
  intros Hd Hg Hf Happ (Hr & Hs & Ha). apply rowAt_pg in Hr as (j & Hj & ->). simpl in Hs, Ha.
  destruct (pg_row db _ j Hd Hj) as (_ & _ & Hrw).
  assert (0 <= jAttempt j <= MaxInt32) as Hb
    by (split; [apply (rw_attempt _ Hrw) | by eapply pg_attempt]).
  rewrite <- Ha, attemptArg_small by done.
  rewrite (guarded_hit HE (leaseID l) (jAttempt j) f db j (g j)) by auto.
  eexists. split; [done|]. split; simpl; [rewrite lookup_insert_eq; simpl; by rewrite Happ|].
  intros id' Hne. by rewrite lookup_insert_ne.
Qed.

Lemma guarded_not_held l f db :
  pgWf db -> (forall r, ~ leaseHeld db l r) -> int32Attempt (leaseAttempt l) ->
  guardedUpdateSQL (leaseID l) (attemptArg (leaseAttempt l)) f db = (db, Ok 0).
Proof.
  intros Hd Hno Hi. rewrite attemptArg_small by done. apply guarded_miss; [done..|].
  intros j Hj Ha Hs. apply (Hno (rowFromDB j)). split; [|done]. apply rowAt_pg. eauto.
Qed.

(** A Mark method whose statement is a guarded update. *)
Lemma pgMark_world w verb l stmt f (g : DroverJob -> DroverJob) (apply_ : JobRow -> JobRow) db :
  honest w -> pgWf db -> markGood f ->
  (forall d, stmt (clock w 0) d = guardedUpdateSQL (leaseID l) (attemptArg (leaseAttempt l)) f d) ->
  (forall j, rowWf (rowFromDB j) -> f j = Ok (g j)) ->
  (forall j, rowWf (rowFromDB j) -> rowFromDB (g j) = apply_ (rowFromDB j)) ->
  pgMarkSpec apply_ l w db (pgMark w verb l stmt db).
Proof.
  intros Hw Hd Hg Hstmt Hf Happ. unfold pgMarkSpec, pgMark, ask.
  pose proof (Hw 0%nat db Hd) as Ha. set (a := others w 0 db) in *. clearbody a.
  destruct (net w 0); simpl; [split | split; done | split_all; [done|..]].
  - intros r Hr. destruct (guarded_held l f g apply_ a r Ha Hg Hf Happ Hr) as (db' & Hu & Ho).
    rewrite Hstmt, Hu. done.
  - intros Hno Hi. rewrite Hstmt, (guarded_not_held l f a Ha Hno Hi).
    unfold explain, finalizeFailure, ask, sqlGetJob, refusal. simpl.
    destruct (net w 1); simpl; [|split; [done|]; eexists; split; [done|]; done ..].
    destruct (table (others w 1 a) !! leaseID l) as [j|]; simpl; [|split; [done|]; eexists; done].
    split; [done|]. eexists. split; [done|]. intros _. case_bool_decide; simpl; by case_decide.
  - intros r Hr. destruct (guarded_held l f g apply_ a r Ha Hg Hf Happ Hr) as (db' & Hu & Ho).
    rewrite Hstmt, Hu. done.
  - intros Hno Hi. by rewrite Hstmt, (guarded_not_held l f a Ha Hno Hi).
Qed.

(** The five of them, when the details are objects. *)
Definition pgMarksSpec w (l : Lease) (t : Time) fs db : Prop :=
  pgMarkSpec (completedRow (stamp E (clock w 0))) l w db (pgMarkCompleted w l db) /\
  pgMarkSpec (retryRow (stamp E t) (jsonbDoc E (JObject fs))) l w db
    (pgMarkRetryable w l t (Some (Raw (JObject fs))) db) /\
  pgMarkSpec (finalizedRow StateDead (stamp E (clock w 0)) (jsonbDoc E (JObject fs))) l w db
    (pgMarkDead w l (Some (Raw (JObject fs))) db) /\
  pgMarkSpec (finalizedRow StateCancelled (stamp E (clock w 0)) (jsonbDoc E (JObject fs))) l w db
    (pgMarkCancelled w l (Some (Raw (JObject fs))) db) /\
  pgMarkSpec (snoozedRow (stamp E t)) l w db (pgMarkSnoozed w l t db).

(** The rest of the Mark methods append a document. *)
Lemma appendErrors_object errors fs :
  (exists l, Raw errors = Raw (JArray l)) ->
  appendErrors E errors (Some (jsonbDoc E (JObject fs))) =
  Ok (match errors with JArray l => JArray (l ++ [jsonbDoc E (JObject fs)]) | e => e end).
Proof. intros [l [= ->]]. destruct (jsonbDoc_object E HE fs) as [fs' ->]. done. Qed.

Definition appended (errors x : json) : json :=
  match errors with JArray l => JArray (l ++ [x]) | e => e end.

Lemma objectDetail_object fs : objectDetail (Some (Raw (JObject fs))).
Proof. simpl. eauto. Qed.

Lemma appended_row j st a x sch lu fin :
  rowWf (rowFromDB j) ->
  rowFromDB (setColumns j st a (appended (jErrors j) x) sch lu fin) =
  setLeasedUntil lu (setFinalizedAt fin (setScheduledAt sch
    (setAttempt a (setState st (appendDetail x (rowFromDB j)))))).
Proof.
  intros Hr. destruct (rw_errors _ Hr) as [l Hl]. simpl in Hl. injection Hl as Hl.
  unfold appendDetail, appended. simpl. by rewrite Hl.
Qed.

Lemma appendDetail_fields x r :
  ScheduledAt (appendDetail x r) = ScheduledAt r /\ Attempt (appendDetail x r) = Attempt r /\
  FinalizedAt (appendDetail x r) = FinalizedAt r.
Proof. unfold appendDetail. destruct (Errors r) as [[]|]; done. Qed.

Lemma finalized_rowFromDB j st t x :
  rowWf (rowFromDB j) ->
  rowFromDB (setColumns j st (jAttempt j) (appended (jErrors j) x) (jScheduledAt j) None (Some t)) =
  finalizedRow st t x (rowFromDB j).
Proof.
  intros Hr. rewrite appended_row by done. unfold finalizedRow.
  destruct (appendDetail_fields x (rowFromDB j)) as (H1 & H2 & _).
  unfold setLeasedUntil, setFinalizedAt, setScheduledAt, setAttempt, setState. simpl.
  by rewrite H1, H2.
Qed.

Lemma retry_rowFromDB j t x :
  rowWf (rowFromDB j) ->
  rowFromDB (setColumns j StateRetryable (jAttempt j) (appended (jErrors j) x) t None (jFinalizedAt j)) =
  retryRow t x (rowFromDB j).
Proof.
  intros Hr. rewrite appended_row by done. unfold retryRow.
  destruct (appendDetail_fields x (rowFromDB j)) as (_ & H2 & H3).
  unfold setLeasedUntil, setFinalizedAt, setScheduledAt, setAttempt, setState. simpl.
  by rewrite H2, H3.
Qed.

Lemma pgFinalize_world w verb st l fs db :
  honest w -> pgWf db -> finalState st ->
  pgMarkSpec (finalizedRow st (stamp E (clock w 0)) (jsonbDoc E (JObject fs))) l w db
    (pgMark w verb l (fun now => sqlFinalize st now (leaseID l)
       (attemptArg (leaseAttempt l)) (Some (Raw (JObject fs)))) db).
Proof.
  intros Hw Hd Hst. pose proof (objectDetail_object fs) as Ho.
  eapply pgMark_world with (g := fun j => setColumns j st (jAttempt j)
    (appended (jErrors j) (jsonbDoc E (JObject fs))) (jScheduledAt j) None
    (Some (stamp E (clock w 0)))); [done | done | by eapply finalize_good | done | |].
  - intros j Hr. cbv beta. rewrite appendErrors_object by apply (rw_errors _ Hr). done.
  - intros j Hr. by apply finalized_rowFromDB.
Qed.

Lemma pgMarkRetryable_world w l at_ fs db :
  honest w -> pgWf db ->
  pgMarkSpec (retryRow (stamp E at_) (jsonbDoc E (JObject fs))) l w db
    (pgMarkRetryable w l at_ (Some (Raw (JObject fs))) db).
Proof.
  intros Hw Hd. pose proof (objectDetail_object fs) as Ho.
  eapply pgMark_world with (g := fun j => setColumns j StateRetryable (jAttempt j)
    (appended (jErrors j) (jsonbDoc E (JObject fs))) (stamp E at_) None (jFinalizedAt j));
    [done | done | by eapply retry_good | done | |].
  - intros j Hr. cbv beta. rewrite appendErrors_object by apply (rw_errors _ Hr). done.
  - intros j Hr. by apply retry_rowFromDB.
Qed.

Lemma pgMarks_world w l t fs db : honest w -> pgWf db -> pgMarksSpec w l t fs db.
Proof.
  intros Hw Hd. unfold pgMarksSpec. split_all.
  - eapply pgMark_world; auto using completed_good.
  - by apply pgMarkRetryable_world.
  - apply pgFinalize_world; unfold finalState; auto.
  - apply pgFinalize_world; unfold finalState; auto.
  - eapply pgMark_world; auto using snooze_good.
Qed.

(** C4: Every Mark method of the production driver, whatever happens to its statements and
    whatever other sessions do around them: delivered, it is applied exactly when the job is running on the
    attempt the lease names, to that row alone, and otherwise changes nothing and reports
    what the second look found; refused, it changes nothing; with its answer lost, it took
    effect under the same guard and is reported as failed. *)
Theorem pg_marks_guarded w l t fs db :
  honest w -> pgWf db -> pgMarksSpec w l t fs db.
Proof. apply pgMarks_world. Qed.

Lemma undisturbed_honest now : honest (undisturbed (E := E) now).
Proof. intros i db. done. Qed.

Lemma pgExec_undisturbed_wf now c db :
  pgWf db -> callOk c -> pgWf (pgExec (undisturbed now) c db).
Proof.
  intros Hd Hc. eapply moves_wf; [apply (undisturbed_honest now)|].
  by apply pgExec_moves; [apply undisturbed_honest|..].
Qed.

(** *** Claims *)

(** The comparator subtracts ids: it does not wrap on ids of the table. *)
Lemma sortedRows_byID js :
  Forall (fun j => 1 <= jID j <= MaxInt64) js ->
  sortedRows js = SortFunc (onKey ID compareZ) (rowFromDB <$> js).
Proof.
  intros Hj. apply (SortFunc_ext _ _ (fun r => 1 <= ID r <= MaxInt64)); [|by apply Forall_fmap].
  intros a b Ha Hb. unfold idDiff, onKey. rewrite compareZ_le. unfold MaxInt64 in *.
  rewrite wrap64_small; lia.
Qed.

Lemma claimed_spec db js f db' out :
  pgWf db -> selection db js -> goodOn js f -> updated db js f db' out ->
  pgWf db' /\ NoDup (ID <$> sortedRows out) /\ length (sortedRows out) = length js /\
  StronglySorted (fun a b => ID a <= ID b) (sortedRows out) /\
  (forall r, r ∈ sortedRows out -> exists j k, j ∈ js /\ f j = Ok k /\ r = rowFromDB k /\
     table db' !! ID r = Some k /\ table db !! ID r = Some j) /\
  (forall id, id ∉ ID <$> sortedRows out -> table db' !! id = table db !! id).
Proof.
  intros Hd Hs Hf Hu. destruct (up_out _ _ _ _ _ Hu) as (ks & Hks & Hout).
  assert (jID <$> ks = jID <$> js) as Hids
    by (eapply updates_ids; [|done]; intros j k Hj Hk; by eapply goodUpdate_id, Hf).
  assert (Forall (fun j => 1 <= jID j <= MaxInt64) out) as Hb.
  { rewrite Hout, Forall_forall. intros k Hk.
    destruct (updates_elem' _ _ _ _ Hks Hk) as (j & Hj & Hjk).
    rewrite (goodUpdate_id j k) by (by apply Hf). pose proof (proj1 Hs j Hj) as Hl.
    pose proof (pg_row db _ j Hd Hl). pose proof (pg_last db Hd). lia. }
  rewrite (sortedRows_byID out Hb).
  assert (ID <$> SortFunc (onKey ID compareZ) (rowFromDB <$> out) ≡ₚ jID <$> js) as Hp.
  { rewrite SortFunc_perm, Hout, <- list_fmap_compose, <- Hids. done. }
  split_all.
  - by eapply updated_wf.
  - rewrite Hp. apply Hs.
  - rewrite <- (length_fmap jID), <- Hp. by rewrite length_fmap.
  - eapply StronglySorted_mono; [|apply SortFunc_sorted, _].
    intros a b. unfold cmp_le, onKey. by rewrite compareZ_le.
  - intros r. rewrite SortFunc_elem, list_elem_of_fmap. intros (k & -> & Hk).
    rewrite Hout in Hk. destruct (updates_elem' _ _ _ _ Hks Hk) as (j & Hj & Hjk).
    exists j, k. pose proof (goodUpdate_id j k (Hf j k Hj Hjk)) as Hid. simpl. rewrite Hid.
    destruct (up_in _ _ _ _ _ Hu j Hj) as (k' & Hk' & _ & Hl). split_all; try done; [congruence|].
    by apply Hs.
  - intros id Hid. apply (up_notin _ _ _ _ _ Hu). by rewrite Hp in Hid.
Qed.

Lemma rowAt_same db db' id : table db' !! id = table db !! id -> rowAt db' id = rowAt db id.
Proof. simpl. congruence. Qed.

Lemma fetchResult now lf q limit db db' rows_ :
  pgFetchAvailable (undisturbed now) q lf limit db = (db', Ok rows_) ->
  0 <= limit <= MaxInt32 /\
  exists out, sqlFetchAvailable now lf q limit db = (db', Ok out) /\ rows_ = sortedRows out.
Proof.
  unfold pgFetchAvailable. destruct (Z.ltb_spec limit 0), (Z.ltb_spec MaxInt32 limit); simpl; try done.
  unfold ask. simpl. destruct (sqlFetchAvailable now lf q limit db) as [d [out|e]]; simpl; [|done].
  intros [= <- <-]. split; [lia|eauto].
Qed.

Lemma expiredResult now lf limit db db' rows_ :
  pgFetchExpired (undisturbed now) lf limit db = (db', Ok rows_) ->
  0 <= limit <= MaxInt32 /\
  exists out, sqlFetchExpired now lf limit db = (db', Ok out) /\ rows_ = sortedRows out.
Proof.
  unfold pgFetchExpired. destruct (Z.ltb_spec limit 0), (Z.ltb_spec MaxInt32 limit); simpl; try done.
  unfold ask. simpl. destruct (sqlFetchExpired now lf limit db) as [d [out|e]]; simpl; [|done].
  intros [= <- <-]. split; [lia|eauto].
Qed.

Lemma updateRows_result db js f db' out :
  selection db js -> goodOn js f -> updateRows js f db = (db', Ok out) -> updated db js f db' out.
Proof.
  intros Hs Hf H. destruct (updateRows_spec HE db js f Hs Hf) as [[e He]|(d & o & Ho & Hu)]; congruence.
Qed.

Lemma pgFetchAvailable_law now q lf limit db rows_ db' :
  pgWf db -> pgFetchAvailable (undisturbed now) q lf limit db = (db', Ok rows_) ->
  pgWf db' /\ NoDup (ID <$> rows_) /\
  (0 <= limit -> Z.of_nat (length rows_) <= limit) /\
  (forall r, r ∈ rows_ -> rowAt db' (ID r) = Some r /\
     exists r0, rowAt db (ID r) = Some r0 /\ dueIn q (stamp E now) r0 /\
       r = claimedRow (stamp E now) (interval E lf) r0) /\
  (forall id, id ∉ ID <$> rows_ -> rowAt db' id = rowAt db id).
Proof.
  intros Hd H. apply fetchResult in H as (Hl & out & Hsql & ->).
  pose proof (selection_lockable db jScheduledAt (dueJob (stamp E now) q) limit Hd) as Hs.
  pose proof (sqlFetchAvailable_good now lf q limit db Hd) as Hg.
  apply updateRows_result in Hsql; [|done..].
  destruct (claimed_spec _ _ _ _ _ Hd Hs Hg Hsql) as (Hw & Hnd & Hlen & _ & Hin & Hout).
  split_all; [done | done | | | intros id Hid; by apply rowAt_same, Hout].
  - intros _. rewrite Hlen. unfold lockable. rewrite length_take. lia.
  - intros r Hr. destruct (Hin r Hr) as (j & k & Hj & Hk & -> & Hl' & Hl0).
    split; [by apply rowAt_pg; eauto|]. exists (rowFromDB j). split; [apply rowAt_pg; eauto|].
    apply lockable_elem in Hj as (_ & Hdue & _); [|done].
    destruct (MaxInt32 <? jAttempt j + 1); [done|]. injection Hk as <-.
    unfold dueJob in Hdue. unbool. split; [|done]. unfold dueIn. simpl.
    split_all; [by apply waitingJob_spec | done | by apply Z.leb_le].
Qed.

Lemma pgFetchExpired_law now lf limit db rows_ db' :
  pgWf db -> pgFetchExpired (undisturbed now) lf limit db = (db', Ok rows_) ->
  let until_ := stamp E now + interval E lf in
  pgWf db' /\ NoDup (ID <$> rows_) /\
  (forall r, r ∈ rows_ -> rowAt db' (ID r) = Some r /\ State r = StateRunning /\
     LeasedUntil r = Some until_ /\
     exists r0 t, rowAt db (ID r) = Some r0 /\ State r0 = StateRunning /\
       LeasedUntil r0 = Some t /\ t <= stamp E now /\ r = setLeasedUntil (Some until_) r0) /\
  (forall id, id ∉ ID <$> rows_ -> rowAt db' id = rowAt db id).
Proof.
  intros Hd H until_. apply expiredResult in H as (Hl & out & Hsql & ->).
  pose proof (selection_lockable db leaseKey (lapsedJob (stamp E now)) limit Hd) as Hs.
  pose proof (sqlFetchExpired_good now lf limit db Hd) as Hg.
  apply updateRows_result in Hsql; [|done..].
  destruct (claimed_spec _ _ _ _ _ Hd Hs Hg Hsql) as (Hw & Hnd & _ & _ & Hin & Hout).
  split_all; [done | done | | intros id Hid; by apply rowAt_same, Hout].
  intros r Hr. destruct (Hin r Hr) as (j & k & Hj & [= <-] & -> & Hl' & Hl0).
  apply lockable_elem in Hj as (_ & Hdue & _); [|done]. apply lapsedJob_spec in Hdue as (Hrun & u & Hu & Hle).
  split_all; [by apply rowAt_pg; eauto | done | done |]. exists (rowFromDB j), u.
  split_all; try done. apply rowAt_pg. eauto.
Qed.

Lemma updateRows_err db js f db' e : updateRows js f db = (db', Err e) -> db' = db.
Proof.
  unfold updateRows. destruct (evalAll f js); [|by intros [= <-]].
  destruct (existsb _ _); [by intros [= <-] | done].
Qed.

Lemma pgFetchAvailable_err now q lf limit db db' e :
  pgFetchAvailable (undisturbed now) q lf limit db = (db', Err e) -> db' = db.
Proof.
  unfold pgFetchAvailable, ask, sqlFetchAvailable. destruct (_ || _); [congruence|]. simpl.
  destruct (updateRows _ _ db) as [d [out|x]] eqn:Eu; [done|]. intros [= <- _]. by eapply updateRows_err.
Qed.

Lemma pgFetchExpired_err now lf limit db db' e :
  pgFetchExpired (undisturbed now) lf limit db = (db', Err e) -> db' = db.
Proof.
  unfold pgFetchExpired, ask, sqlFetchExpired. destruct (_ || _); [congruence|]. simpl.
  destruct (updateRows _ _ db) as [d [out|x]] eqn:Eu; [done|]. intros [= <- _]. by eapply updateRows_err.
Qed.

(** *** Heartbeats *)

Lemma pgExtendLeases_err now ls lf db db' e :
  pgExtendLeases (undisturbed now) ls lf db = (db', Some e) -> db' = db.
Proof.
  unfold pgExtendLeases, ask, sqlExtendLeases. destruct ls; [congruence|]. simpl.
  destruct (updateRows _ _ db) as [d [out|x]] eqn:Eu; [done|]. intros [= <- _]. by eapply updateRows_err.
Qed.

Lemma heldJob_spec ls j :
  Forall (fun l => int32Attempt (leaseAttempt l)) ls ->
  heldJob (zip (leaseID <$> ls) ((fun l => attemptArg (leaseAttempt l)) <$> ls)) j = true <->
  jState j = StateRunning /\ leaseOf (rowFromDB j) ∈ ls.
Proof.
  intros Hls. unfold heldJob. rewrite andb_true_iff, bool_decide_eq_true. apply and_iff_compat_l.
  unfold leaseOf. simpl. induction Hls as [|[i a] ls Hl _ IH]; [simpl; set_solver|].
  simpl. rewrite orb_true_iff, IH, elem_of_cons, andb_true_iff, !Z.eqb_eq, attemptArg_small by done.
  apply or_iff_compat_r. split; [intros [-> ->]; done | by intros [= -> ->]].
Qed.

Lemma pgExtendLeases_renews now ls lf db :
  pgWf db -> Forall (fun l => int32Attempt (leaseAttempt l)) ls ->
  (pgExtendLeases (undisturbed now) ls lf db).2 = None /\ forall id,
    rowAt (pgExtendLeases (undisturbed now) ls lf db).1 id =
    renewedBy (stamp E now) (interval E lf) ls <$> rowAt db id.
Proof.
  intros Hd Hls. assert (forall r, renewedBy (stamp E now) (interval E lf) [] r = r) as Hnil.
  { intros r. unfold renewedBy. rewrite decide_False; [done|]. set_solver. }
  unfold pgExtendLeases. destruct ls as [|l ls].
  { split; [done|]. intros id. simpl. destruct (table db !! id); simpl; [by rewrite Hnil | done]. }
  remember (l :: ls) as leases eqn:Heq. clear Heq. unfold ask. simpl.
  unfold sqlExtendLeases. set (held := heldJob _). set (f := fun j => Ok _).
  assert (selection db (List.filter held (rowsOf db))) as Hs by auto with drover.
  assert (goodOn (List.filter held (rowsOf db)) f) as Hg by (by apply sqlExtendLeases_good).
  destruct (updateRows_ok HE db (List.filter held (rowsOf db)) f
    ((fun j => setColumns j (jState j) (jAttempt j) (jErrors j) (jScheduledAt j)
        (Some (stamp E now + interval E lf)) (jFinalizedAt j)) <$> List.filter held (rowsOf db)))
    as (db' & out & -> & Hu); [done | done | done | | |].
  - unfold updates. apply Forall2_fmap_r, Forall_Forall2_diag, Forall_true. done.
  - intros j k _ [= <-]. done.
  - simpl. split; [done|]. intros id. destruct (table db !! id) as [j|] eqn:Ej; simpl.
    + destruct (pg_row db id j Hd Ej) as [Hid _].
      assert (j ∈ List.filter held (rowsOf db) <-> jState j = StateRunning /\ leaseOf (rowFromDB j) ∈ leases) as Hin.
      { unfold held. rewrite filter_elem, elem_of_rowsOf_wf, Hid, heldJob_spec by done. tauto. }
      unfold renewedBy. case_decide as Hc.
      * destruct (up_in _ _ _ _ _ Hu j (proj2 Hin Hc)) as (k & [= <-] & _ & Hk). rewrite Hid in Hk.
        by rewrite Hk.
      * rewrite (up_notin _ _ _ _ _ Hu), Ej; [done|]. intros Hi.
        apply list_elem_of_fmap in Hi as (j' & -> & Hj'). apply Hc, Hin.
        pose proof (proj1 Hs j' Hj') as Hl. congruence.
    + destruct (table db' !! id) as [k|] eqn:Ek; [|done].
      destruct (updated_lookup _ _ _ _ _ id k Hs Hu Ek) as (j & Hj & _). congruence.
Qed.

Lemma pgExtendLeases_law now ls lf db :
  pgWf db -> Forall (fun l => int32Attempt (leaseAttempt l)) ls ->
  pgWf (pgExtendLeases (undisturbed now) ls lf db).1 /\
  ((pgExtendLeases (undisturbed now) ls lf db).2 = None -> forall id,
     rowAt (pgExtendLeases (undisturbed now) ls lf db).1 id =
     renewedBy (stamp E now) (interval E lf) ls <$> rowAt db id).
Proof.
  intros Hd Hls. split; [by apply (pgExec_undisturbed_wf now (CExtendLeases ls lf))|].
  intros _. by apply pgExtendLeases_renews.
Qed.

Lemma pgMarks_law now l t fs db : pgWf db -> pgMarksSpec (undisturbed now) l t fs db.
Proof. intros Hd. apply pgMarks_world; [apply undisturbed_honest | done]. Qed.

Lemma markSpec_world now apply_ l db out :
  pgMarkSpec apply_ l (undisturbed now) db out -> markSpec apply_ l db out.
Proof.
  unfold pgMarkSpec. simpl. intros [H1 H2]. split; [done|]. intros Hno Hi.
  destruct (H2 Hno Hi) as (? & e & ? & He). eauto.
Qed.

Lemma pg_time_near (t : Time) : t - Microsecond <= drvTime (PgDb E) t <= t.
Proof. apply (stamp_near E HE). Qed.

Lemma pg_span_near (d : Duration) :
  0 <= d <= 365 * 24 * Hour -> d - Microsecond <= drvSpan (PgDb E) d.
Proof. apply (interval_near E HE). Qed.

Lemma rowAt_wf db id r : pgWf db -> rowAt db id = Some r -> ID r = id /\ rowWf r.
Proof.
  intros Hd H. apply rowAt_pg in H as (j & Hj & ->). by destruct (pg_row db id j Hd Hj) as (? & _ & ?).
Qed.
End Calls.

#[export] Instance pgDriverLaws E (HE : PgEnvOk E) : DriverLaws (PgDb E).
Proof.
  refine {| drvWf := pgWf; drvTick := Microsecond |}.
  - apply pg_time_near, HE.
  - apply pg_span_near, HE.
  - intros s id r Hd Hr. by apply (rowAt_wf s id r).
  - intros s id r Hd Hr. by apply (rowAt_wf s id r).
  - intros. apply (markSpec_world now). by destruct (pgMarks_law HE now l 0 [] s) as (? & ? & ? & ? & ?).
  - intros. apply (markSpec_world now). by destruct (pgMarks_law HE now l at_ fs s) as (? & ? & ? & ? & ?).
  - intros. apply (markSpec_world now). by destruct (pgMarks_law HE now l 0 fs s) as (? & ? & ? & ? & ?).
  - intros. apply (markSpec_world now). by destruct (pgMarks_law HE now l 0 fs s) as (? & ? & ? & ? & ?).
  - intros. apply (markSpec_world now). by destruct (pgMarks_law HE now l at_ [] s) as (? & ? & ? & ? & ?).
  - intros. by apply (pgExec_undisturbed_wf HE now (CMarkCompleted l)).
  - intros. apply (pgExec_undisturbed_wf HE now (CMarkRetryable l at_ _)); simpl; eauto.
  - intros. apply (pgExec_undisturbed_wf HE now (CMarkDead l _)); simpl; eauto.
  - intros. apply (pgExec_undisturbed_wf HE now (CMarkCancelled l _)); simpl; eauto.
  - intros. by apply (pgExec_undisturbed_wf HE now (CMarkSnoozed l at_)).
  - intros. by apply (pgFetchExpired_law HE now d limit).
  - intros now d limit s s' e _. apply (pgFetchExpired_err now d limit s s' e).
  - intros. by apply (pgFetchAvailable_law HE now q d limit).
  - intros now q d limit s s' e _. apply (pgFetchAvailable_err now q d limit s s' e).
  - intros. by apply (pgExtendLeases_law HE now ls d s).
  - intros now ls d s s' e. apply (pgExtendLeases_err now ls d s s' e).
Defined.

(** ** Rows fit their columns *)

Section Columns.
Context {E : PgEnv} (HE : PgEnvOk E).

(** C35: Every row the table can hold has the types of the schema and of the Go struct it
    is scanned into: its id is a positive [int8] already drawn from the sequence, its attempt an [int4] of at least 0, and at least 1 while
    running, its errors an array, a lease exactly while running, a finalization time exactly when finalized, and never
    the empty unique key; so the id subtraction of [sortedRows] cannot wrap and puts
    any rows of the table in id order, and [attemptArg] passes their attempts on unchanged. *)
Theorem pg_columns_fit tr (js : list DroverJob) :
  traceOk tr ->
  let db := pgRun tr (emptyDb (E := E)) in
  (forall id j, table db !! id = Some j ->
     jID j = id /\ 1 <= id <= lastID db /\ lastID db <= MaxInt64 /\
     0 <= jAttempt j <= MaxInt32 /\ (jState j = StateRunning -> 1 <= jAttempt j) /\
     attemptArg (jAttempt j) = jAttempt j /\ (exists l, jErrors j = JArray l) /\
     (jState j = StateRunning <-> jLeasedUntil j <> None) /\
     (finalState (jState j) <-> jFinalizedAt j <> None) /\ jUniqueKey j <> Some "") /\
  ((forall j, j ∈ js -> j ∈ rowsOf db) ->
     sortedRows js ≡ₚ rowFromDB <$> js /\ StronglySorted (fun a b => ID a <= ID b) (sortedRows js)).
Proof.
  intros Htr db. assert (pgWf db) as Hd by (apply pgRun_wf; auto using emptyDb_wf). split.
  - intros id j Hj. destruct (pg_row db id j Hd Hj) as (Hid & Hb & [Ha Hra Hl Hf [l He] _]). simpl in *.
    pose proof (pg_attempt db Hd id j Hj). injection He as He.
    split_all; try done; try lia; [apply Hd | apply attemptArg_small; lia | eauto | by eapply pg_key].
  - intros Hin.
    assert (Forall (fun j => 1 <= jID j <= MaxInt64) js) as Hb.
    { apply Forall_forall. intros j Hj. apply Hin, elem_of_rowsOf in Hj as [id Hj].
      destruct (pg_row db id j Hd Hj) as (-> & ? & _). pose proof (pg_last db Hd). lia. }
    rewrite (sortedRows_byID js Hb). split; [apply SortFunc_perm|].
    eapply StronglySorted_mono; [|apply SortFunc_sorted, _].
    intros a b. unfold cmp_le, onKey. by rewrite compareZ_le.
Qed.

(** ** Concurrent claims *)

(** A claim of a worker pool or of a rescuer. *)
Inductive claimRequest :=
| Claim (queue : string) (leaseFor : Duration) (limit : Z)
| Rescue (leaseFor : Duration) (limit : Z).

Definition claimBy (now : Time) (c : claimRequest) (db : PgDb E) : PgDb E * res error (list JobRow) :=
  match c with
  | Claim q lf limit => pgFetchAvailable (undisturbed now) q lf limit db
  | Rescue lf limit => pgFetchExpired (undisturbed now) lf limit db
  end.

Definition lockRows (ids : list Z) (db : PgDb E) : PgDb E :=
  MkPg (lastID db) (table db) (locked db ∪ list_to_set ids).

(** Claims by sessions none of which has committed when the next one runs: each finds the committed table,
    with the rows the others chose locked. *)
Fixpoint concurrentClaims (reqs : list (Time * claimRequest)) (db : PgDb E) : list (list JobRow) :=
  match reqs with
  | [] => []
  | (now, c) :: rest =>
      match (claimBy now c db).2 with
      | Ok rows => rows :: concurrentClaims rest (lockRows (ID <$> rows) db)
      | Err _ => [] :: concurrentClaims rest db
      end
  end.

Lemma lockable_result key keep n f (db db' : PgDb E) out :
  pgWf db -> goodOn (lockable key keep n db) f ->
  updateRows (lockable key keep n db) f db = (db', Ok out) ->
  NoDup (ID <$> sortedRows out) /\ forall r, r ∈ sortedRows out -> ID r ∉ locked db.
Proof.
  intros Hd Hg Hsql. pose proof (selection_lockable db key keep n Hd) as Hs.
  apply updateRows_result in Hsql; [|done..].
  destruct (claimed_spec _ _ _ _ _ Hd Hs Hg Hsql) as (_ & Hnd & _ & _ & Hin & _). split; [done|].
  intros r Hr. destruct (Hin r Hr) as (j & k & Hj & Hk & -> & _).
  rewrite (goodUpdate_id j k (Hg j k Hj Hk) : ID (rowFromDB k) = jID j).
  by apply lockable_elem in Hj as (_ & _ & ?).
Qed.

Lemma claimBy_spec now c db rows :
  pgWf db -> (claimBy now c db).2 = Ok rows ->
  NoDup (ID <$> rows) /\ forall r, r ∈ rows -> ID r ∉ locked db.
Proof.
  intros Hd. destruct (claimBy now c db) as [db' r] eqn:Ec. simpl. intros ->.
  destruct c as [q lf limit|lf limit]; simpl in Ec.
  - apply fetchResult in Ec as (_ & out & Hsql & ->).
    eapply lockable_result; [done | by apply sqlFetchAvailable_good | exact Hsql].
  - apply expiredResult in Ec as (_ & out & Hsql & ->).
    eapply lockable_result; [done | by apply sqlFetchExpired_good | exact Hsql].
Qed.

Lemma lockRows_wf ids db : pgWf db -> pgWf (lockRows ids db).
Proof. by intros []. Qed.

Lemma concurrentClaims_spec reqs db :
  pgWf db ->
  NoDup (ID <$> concat (concurrentClaims reqs db)) /\
  forall r, r ∈ concat (concurrentClaims reqs db) -> ID r ∉ locked db.
Proof.
  revert db. induction reqs as [|[now c] reqs IH]; intros db Hd; simpl; [split; [constructor|set_solver]|].
  destruct (claimBy now c db).2 as [rows|e] eqn:Ec; simpl; [|by apply IH].
  destruct (claimBy_spec now c db rows Hd Ec) as [Hnd Hfree].
  destruct (IH (lockRows (ID <$> rows) db) (lockRows_wf _ _ Hd)) as [Hnd' Hfree']. split.
  - rewrite fmap_app, NoDup_app. split_all; [done| |done]. intros id Hid Hid'.
    apply list_elem_of_fmap in Hid' as (r & -> & Hr). apply (Hfree' r Hr). simpl. set_solver.
  - intros r. rewrite elem_of_app. intros [Hr|Hr]; [by apply Hfree|]. specialize (Hfree' r Hr). simpl in Hfree'. set_solver.
Qed.

(** C12: Claims in flight at the same time, by any number of pools and rescuers, never hand
    out the same job twice, and hand out no row another session holds; so every due row has one
    owner. *)
Theorem concurrent_claims_disjoint reqs db :
  pgWf db ->
  NoDup (ID <$> concat (concurrentClaims reqs db)) /\
  (forall r, r ∈ concat (concurrentClaims reqs db) -> ID r ∉ locked db).
Proof. apply concurrentClaims_spec. Qed.
End Columns.

(** ** Witnesses

    A table behind a bad network: one insert whose answer was lost, one that was refused, a
    claim, and a completion of which the client never heard. *)

Definition badNet (f : fault) (now : Time) : World demoEnv :=
  MkWorld (fun _ => f) (fun _ db => db) (fun _ => now).

Definition demoJob (key : string) : InsertParams :=
  {| ipKind := "email"; ipQueue := "default"; ipArgs := "{}"; ipScheduledAt := 0; ipUniqueKey := key |}.

Definition demoTrace : list (World demoEnv * call) :=
  [(undisturbed 1000000, CInsert (demoJob "k"));
   (badNet (Unacknowledged (Msg "reset")) 2000000, CInsert (demoJob ""));
   (badNet (Refused (Msg "timeout")) 3000000, CInsert (demoJob ""));
   (undisturbed 4000000, CInsert (demoJob "k"));
   (undisturbed 5000000, CInsertMany [demoJob ""; demoJob ""]);
   (undisturbed 6000000, CFetchAvailable "default" 60000000 2);
   (badNet (Unacknowledged (Msg "reset")) 7000000, CMarkCompleted (MkLease 1 1))].

Definition demoDb : PgDb demoEnv := pgRun demoTrace emptyDb.

Lemma demoTrace_ok : traceOk demoTrace.
Proof.
  unfold traceOk, demoTrace. repeat (apply Forall_cons; split; [split; [by intros ? ?|done]|]). done.
Qed.

Lemma demoDb_wf : pgWf demoDb.
Proof. apply pgRun_wf; [exact demoEnv_ok | apply emptyDb_wf | exact demoTrace_ok]. Qed.

Lemma pg_refines_lifecycle_witness :
  (rowAt demoDb 1 ≫= FinalizedAt) = Some 7000000 /\
  pgWf demoDb /\ uniqueSlots (asMem demoDb) /\
  exists a b, via (undisturbed 8000000) demoDb a /\ (pgWf b /\ evolves (asMem a) (asMem b)) /\
    via (undisturbed 8000000) b (pgExec (undisturbed 8000000) (CMarkSnoozed (MkLease 2 1) 9000000) demoDb).
Proof.
  split; [vm_compute; reflexivity|].
  apply (pg_refines_lifecycle demoEnv_ok demoTrace (undisturbed 8000000)
    (CMarkSnoozed (MkLease 2 1) 9000000) demoTrace_ok); [by intros ? ? | done].
Defined.

Lemma pg_marks_guarded_witness :
  pgMarksSpec (badNet (Unacknowledged (Msg "reset")) 8000000) (MkLease 2 1) 9000000 [] demoDb.
Proof. apply (pg_marks_guarded demoEnv_ok); [intros ? ? H; exact H | exact demoDb_wf]. Defined.

Lemma pg_columns_fit_witness :
  (forall id j, table demoDb !! id = Some j ->
     jID j = id /\ 1 <= id <= lastID demoDb /\ lastID demoDb <= MaxInt64 /\
     0 <= jAttempt j <= MaxInt32 /\ (jState j = StateRunning -> 1 <= jAttempt j) /\
     attemptArg (jAttempt j) = jAttempt j /\ (exists l, jErrors j = JArray l) /\
     (jState j = StateRunning <-> jLeasedUntil j <> None) /\
     (finalState (jState j) <-> jFinalizedAt j <> None) /\ jUniqueKey j <> Some "") /\
  ((forall j, j ∈ rowsOf demoDb -> j ∈ rowsOf demoDb) ->
     sortedRows (rowsOf demoDb) ≡ₚ rowFromDB <$> rowsOf demoDb /\
     StronglySorted (fun a b => ID a <= ID b) (sortedRows (rowsOf demoDb))).
Proof. exact (pg_columns_fit demoEnv_ok demoTrace (rowsOf demoDb) demoTrace_ok). Defined.

(** Three sessions, of which the first two get a job each. *)
Definition demoClaims : list (Time * claimRequest) :=
  [(8000000, Claim "default" 60000000 1); (8000001, Claim "default" 60000000 5);
   (99000000, Rescue 60000000 5)].

Lemma concurrent_claims_disjoint_witness :
  List.map (List.map ID) (concurrentClaims demoClaims demoDb) = [[4]; [5]; [2]] /\
  NoDup (ID <$> concat (concurrentClaims demoClaims demoDb)) /\
  (forall r, r ∈ concat (concurrentClaims demoClaims demoDb) -> ID r ∉ locked demoDb).
Proof.
  split; [vm_compute; reflexivity|].
  exact (concurrent_claims_disjoint demoEnv_ok demoClaims demoDb demoDb_wf).
Defined.
