(* ===== verification/Producers.v ===== *)
(** * Producers: what enqueueing and operators promise the workers

    The other side of internal/driver/driver.go: the methods that are not fenced by a lease.
    [DriverLaws] is what a worker relies on for its own writes; the class here is what it relies on
    of everyone else's: none of these calls touches a running job, and only a redrive lowers an
    attempt.  Both drivers discharge it. *)

From S2P Require Import Prelude GoTime GoError DriverSpec.
From S2P Require Import Memdriver MemdriverFacts MemdriverProps.
From S2P Require Import Postgres Pgdriver PgdriverFacts PgdriverProps.

(** Rows are added that nobody has claimed; those there stay as they are. *)
Definition onlyAdds {S} `{Driver S} (s s' : S) : Prop :=
  (forall id r, rowAt s id = Some r -> rowAt s' id = Some r) /\
  (forall id r, rowAt s id = None -> rowAt s' id = Some r -> waitingState (State r) /\ Attempt r = 0).

(** Nothing changes but the row [id], if it was in a state [ok], and it does so by [chg]. *)
Definition mayMove {S} `{Driver S} (ok : JobState -> Prop) (chg : JobRow -> JobRow -> Prop) (id : Z)
    (s s' : S) : Prop :=
  sameRows s s' \/
  exists r r', rowAt s id = Some r /\ ok (State r) /\ chg r r' /\ onlyRow s s' id r'.

Definition cancelledBy (r r' : JobRow) : Prop := State r' = StateCancelled /\ Attempt r' = Attempt r.
Definition redrivenBy (r r' : JobRow) : Prop := State r' = StateAvailable /\ Attempt r' = 0.

Class ProducerLaws (S : Type) `{DriverLaws S} := {
  insert_law : forall now p s, drvWf s ->
    drvWf (drvInsert now p s).1 /\ onlyAdds s (drvInsert now p s).1;
  insertMany_law : forall now batch s, drvWf s ->
    drvWf (drvInsertMany now batch s).1 /\ onlyAdds s (drvInsertMany now batch s).1;
  operatorCancel_law : forall now id s, drvWf s ->
    drvWf (drvOperatorCancel now id s).1 /\
    mayMove (fun st => waitingState st \/ st = StateDead) cancelledBy id s (drvOperatorCancel now id s).1;
  redriveDead_law : forall now id s, drvWf s ->
    drvWf (drvRedriveDead now id s).1 /\
    mayMove (eq StateDead) redrivenBy id s (drvRedriveDead now id s).1
}.

Lemma sameRows_refl {S} `{Driver S} (s : S) : sameRows s s.
Proof. by intros id. Qed.

Lemma onlyAdds_refl {S} `{Driver S} (s : S) : onlyAdds s s.
Proof. split; [done | congruence]. Qed.
#[export] Hint Resolve sameRows_refl onlyAdds_refl : drover.

Lemma freshRow_waiting id r : freshRow id r -> waitingState (State r) /\ Attempt r = 0.
Proof. unfold freshRow, waitingState. naive_solver. Qed.

(** ** The in-memory driver *)

Section Mem.

Lemma mem_insert_adds now p (d : MemDriver) : wf d -> onlyAdds d (Insert now p d).1.
Proof.
  intros Hd. unfold Insert. destruct (uniqueConflict _ _ _ _ _); simpl; [auto with drover|].
  split; simpl; intros id r.
  - intros Hr. rewrite lookup_insert_ne; [done|]. pose proof (wf_range d Hd id r Hr). lia.
  - intros Hn Hr. apply lookup_insert_Some in Hr as [[<- <-]|[_ Hr]]; [|congruence].
    eapply freshRow_waiting, jobFromParams_fresh.
Qed.

Lemma mem_insertMany_adds now batch (d : MemDriver) : wf d -> onlyAdds d (InsertMany now batch d).1.
Proof.
  intros Hd. destruct (InsertMany now batch d) as [d' [out|e]] eqn:E.
  - apply InsertMany_ok in E as [-> ->]. split; simpl; intros id r.
    + intros Hr. rewrite writeRows_notin; [done|]. intros (x & Hx & Hin)%list_elem_of_fmap.
      apply batchRows_ids in Hin as [Hb _]. pose proof (wf_range d Hd id r Hr). lia.
    + intros Hn Hr. destruct (decide (id ∈ ID <$> batchRows now (nextID d) batch)) as [Hin|Hnin].
      * apply list_elem_of_fmap in Hin as (x & -> & Hx).
        rewrite writeRows_in in Hr by (done || apply batchRows_NoDup). injection Hr as <-.
        apply batchRows_ids in Hx as [_ Hf]. by eapply freshRow_waiting.
      * rewrite writeRows_notin in Hr by done. congruence.
  - unfold InsertMany in E. destruct batch; [done|].
    destruct (pendingRows _ _ _ _ _); [done|]. injection E as <- _. apply onlyAdds_refl.
Qed.

Lemma mem_onlyRow (d : MemDriver) id r n :
  onlyRow d (MkDriver n (<[id := r]> (jobs d))) id r.
Proof.
  split; simpl; [apply lookup_insert_eq|]. intros id' Hne. by rewrite lookup_insert_ne.
Qed.

Lemma mem_cancel_moves now id (d : MemDriver) :
  mayMove (fun st => waitingState st \/ st = StateDead) cancelledBy id d
    (OperatorCancel Datatypes.id Datatypes.id now id d).1.
Proof.
  unfold OperatorCancel. simpl. destruct (jobs d !! id) as [r|] eqn:E; [|left; by intros x].
  destruct (cancellable (State r)) eqn:Hc; simpl; [|left; by intros x].
  right. eexists r, _. split_all; [done | by apply cancellable_spec | | apply mem_onlyRow]. done.
Qed.

Lemma mem_redrive_moves now id (d : MemDriver) :
  mayMove (eq StateDead) redrivenBy id d (RedriveDead Datatypes.id Datatypes.id now id d).1.
Proof.
  unfold RedriveDead. simpl. destruct (jobs d !! id) as [r|] eqn:E; [|left; by intros x].
  destruct (isDead (State r)) eqn:Hc; simpl; [|left; by intros x].
  right. eexists r, _. split_all; [done | by destruct (State r) | | apply mem_onlyRow]. done.
Qed.
End Mem.

#[export] Instance memProducerLaws : ProducerLaws MemDriver.
Proof.
  split.
  - intros now p s Hs. split; [by apply (exec_wf now (CInsert p)) | by apply mem_insert_adds].
  - intros now b s Hs. split; [by apply (exec_wf now (CInsertMany b)) | by apply mem_insertMany_adds].
  - intros now id s Hs. split; [by apply (exec_wf now (COperatorCancel id)) | apply mem_cancel_moves].
  - intros now id s Hs. split; [by apply (exec_wf now (CRedriveDead id)) | apply mem_redrive_moves].
Qed.

(** ** The Postgres driver *)

Section Pg.
Context {E : PgEnv} (HE : PgEnvOk E).
Implicit Types db : PgDb E.

Lemma grows_adds db db' : grows db db' -> onlyAdds db db'.
Proof.
  intros [_ _ O N]. split; intros id r.
  - rewrite !rowAt_pg. intros (j & Hj & ->). eauto.
  - intros Hn (j & Hj & ->)%rowAt_pg. simpl in Hn. destruct (table db !! id) eqn:Et; [done|].
    destruct (N id j Hj Et) as [_ Hf]. by eapply freshRow_waiting.
Qed.

Lemma pg_insert_adds now p db : pgWf db -> onlyAdds db (pgInsert (undisturbed now) p db).1.
Proof.
  intros Hd. unfold pgInsert, ask. simpl. apply grows_adds.
  rewrite (surjective_pairing (sqlInsertJob _ _ _)). unfold sqlInsertJob.
  destruct (jsonbArgs E _) as [args|]; [|apply grows_refl]. simpl. fold (keyOf (ipUniqueKey p)).
  apply insertRow_spec; auto using keyOf_ne.
Qed.

Lemma pg_insertMany_adds now batch db : pgWf db -> onlyAdds db (pgInsertMany (undisturbed now) batch db).1.
Proof.
  intros Hd. unfold pgInsertMany. destruct batch as [|p batch]; [apply onlyAdds_refl|].
  unfold ask. simpl. apply grows_adds.
  destruct (insertMany_spec (undisturbed now) (p :: batch) db Hd) as [H1 Hg].
  destruct (insertMany _ (p :: batch) db) as [db1 [rows|e]]; simpl in *; [done|].
  by apply rolledBack_wf.
Qed.

Lemma pg_onlyRow db id j k n :
  pgWf db -> table db !! id = Some j ->
  onlyRow db (MkPg n (<[id := k]> (table db)) (locked db)) id (rowFromDB k).
Proof.
  intros Hd Hj. split; simpl; [by rewrite lookup_insert_eq|]. intros id' Hne.
  by rewrite lookup_insert_ne.
Qed.

Lemma sqlCancel_moves now id db : pgWf db ->
  mayMove (fun st => waitingState st \/ st = StateDead) cancelledBy id db (sqlOperatorCancel now id db).1.
Proof.
  intros Hd. rewrite sqlOperatorCancel_eq by done.
  destruct (table db !! id) as [j|] eqn:Ej; [|left; by intros x].
  destruct (cancellableJob (jState j)) eqn:Hc; simpl; [|left; by intros x].
  right. exists (rowFromDB j). eexists. split_all.
  - apply rowAt_pg. eauto.
  - by apply cancellableJob_spec.
  - shelve.
  - by eapply pg_onlyRow.
  Unshelve. done.
Qed.

Lemma sqlRedrive_moves now id db : pgWf db ->
  mayMove (eq StateDead) redrivenBy id db (sqlRedriveDead now id db).1.
Proof.
  intros Hd. unfold sqlRedriveDead. rewrite select_one by done.
  destruct (table db !! id) as [j|] eqn:Ej; [|rewrite (update_none HE); left; by intros x].
  case_bool_decide as Hc; [|rewrite (update_none HE); left; by intros x].
  unfold updateRows. cbn [evalAll res_bind]. rewrite (unordered_one HE).
  destruct (existsb _ _); simpl; [left; by intros x|].
  destruct (pg_row db id j Hd Ej) as [-> _].
  right. exists (rowFromDB j). eexists. split_all.
  - apply rowAt_pg. eauto.
  - done.
  - shelve.
  - by eapply pg_onlyRow.
  Unshelve. done.
Qed.

(** A call sends its statement once, and once more when a race is suspected; undisturbed, the
    second finds what the first did. *)
Lemma pg_operator_moves ok chg id want db now
    (stmt : Time -> PgDb E -> PgDb E * res dbErr DroverJob)
    (call_ : nat -> nat -> PgDb E -> PgDb E * res error JobRow) wrap :
  pgWf db ->
  (forall i n db, call_ i n db =
     match ask (undisturbed now) i stmt db with
     | (db', Err ErrNoRows) =>
         pgAfterOperatorMiss (undisturbed now) (i + 1) id want
           (match n with O => None | S k => Some (call_ (i + 2)%nat k) end) db'
     | (db', Err e) => (db', Err (wrap e))
     | (db', Ok j) => (db', Ok (rowFromDB j))
     end) ->
  mayMove ok chg id db (stmt now db).1 ->
  ((stmt now db).2 = Err ErrNoRows -> (stmt now db).1 = db) ->
  forall n i, mayMove ok chg id db (call_ i n db).1.
Proof.
  intros Hd Heq Hm Hmiss n. induction n as [|n IH]; intros i; rewrite Heq; unfold ask; simpl;
    destruct (stmt now db) as [db' [j|[]]]; simpl in *; try done;
    rewrite Hmiss by done; unfold pgAfterOperatorMiss, ask; simpl; unfold reading;
    destruct (sqlGetJob id db) as [j|[]]; simpl; try (left; apply sameRows_refl).
  destruct (operatorEligible _ _); simpl; [apply IH | left; apply sameRows_refl].
Qed.

Lemma pg_cancel_moves now id db : pgWf db ->
  mayMove (fun st => waitingState st \/ st = StateDead) cancelledBy id db
    (pgOperatorCancel (undisturbed now) id db).1.
Proof.
  intros Hd. unfold pgOperatorCancel.
  apply (pg_operator_moves _ _ id "cancellable" db now (fun now => sqlOperatorCancel now id)
    (fun i n => pgOperatorCancelFrom (undisturbed now) i id n)
    (fun e => wrapOp ("cancel job " +:+ itoa id) (dbError e)) Hd).
  - intros i n db0. by destruct n.
  - by apply sqlCancel_moves.
  - by apply sqlOperator_miss.
Qed.

Lemma pg_redrive_moves now id db : pgWf db ->
  mayMove (eq StateDead) redrivenBy id db (pgRedriveDead (undisturbed now) id db).1.
Proof.
  intros Hd. unfold pgRedriveDead.
  apply (pg_operator_moves _ _ id "dead" db now (fun now => sqlRedriveDead now id)
    (fun i n => pgRedriveDeadFrom (undisturbed now) i id n)
    (fun e => wrapOp ("redrive job " +:+ itoa id) (dbError e)) Hd).
  - intros i n db0. by destruct n.
  - by apply sqlRedrive_moves.
  - by apply sqlOperator_miss.
Qed.
End Pg.

#[export] Instance pgProducerLaws E (HE : PgEnvOk E) : @ProducerLaws (PgDb E) _ (pgDriverLaws E HE).
Proof.
  split.
  - intros now p s Hs. split; [by apply (pgExec_undisturbed_wf HE now (CInsert p)) | by apply pg_insert_adds].
  - intros now b s Hs.
    split; [by apply (pgExec_undisturbed_wf HE now (CInsertMany b)) | by apply pg_insertMany_adds].
  - intros now id s Hs.
    split; [by apply (pgExec_undisturbed_wf HE now (COperatorCancel id)) | by apply pg_cancel_moves].
  - intros now id s Hs.
    split; [by apply (pgExec_undisturbed_wf HE now (CRedriveDead id)) | by apply pg_redrive_moves].
Qed.
