(* ===== verification/Cluster.v ===== *)
(** * Cluster: several worker processes over one store

    The composition of pool.go, heartbeat.go, rescue.go and loop.go across processes.  The members
    share a store that keeps the contract; each has its set of tracked leases ([inflightSet]), the
    jobs it holds, the beat it may have under way and the rows its rescuer has taken over and not
    yet disposed of.  A step is one store call together with the bookkeeping its caller does next to
    it, made of the definitions the files of the components give them.  What the operating
    system, the network and the operators may do in between is the choice of the next step. *)

From S2P Require Import Prelude GoTime GoError GoRuntime DriverSpec Metrics Middleware Inflight.
From S2P Require Import Retry Enqueue Client Queues Loop Pool Producers.
From S2P Require Import Memdriver MemdriverFacts MemdriverProps.

(** A job a member holds: the row as it was claimed, and when its lease was last taken or
    renewed. *)
Record Held := MkHeld { hRow : JobRow; hBase : Time }.

Record Member := MkMember {
  mInflight : inflightSet;
  mHeld : list Held;
  mBeat : option (list Lease);
  mSweep : list JobRow
}.

Definition newMember : Member := MkMember newInflightSet [] None [].

(** [clStrays]: the handlers of members that shut down without waiting for them. *)
Record Cluster (S : Type) := MkCluster {
  clStore : S;
  clNow : Time;
  clMembers : gmap nat Member;
  clStrays : list JobRow
}.
Arguments MkCluster {S} _ _ _ _.
Arguments clStore {S} _.
Arguments clNow {S} _.
Arguments clMembers {S} _.
Arguments clStrays {S} _.

(** The leases a member's held jobs were claimed under. *)
Definition heldLeases (m : Member) : list Lease := (fun h => leaseOf (hRow h)) <$> mHeld m.

Definition heldNow (now : Time) (rows : list JobRow) : list Held := (fun r => MkHeld r now) <$> rows.

(** A beat that landed for [ls]. *)
Definition beaten (now : Time) (ls : list Lease) (h : Held) : Held :=
  if bool_decide (leaseOf (hRow h) ∈ ls) then MkHeld (hRow h) now else h.

Section Cluster.
Context {S : Type} `{Laws : ProducerLaws S}.
Variables (cfg : nat -> Client) (gap : Duration).

Definition owns (c : Cluster S) (i : nat) (h : Held) : Prop :=
  exists m, clMembers c !! i = Some m /\ h ∈ mHeld m.

(** The rows a rescuer has taken over. *)
Definition sweeping (c : Cluster S) (row : JobRow) : Prop :=
  exists i m, clMembers c !! i = Some m /\ row ∈ mSweep m.

(** The state in which member [m]'s process makes its next call. *)
Definition sees (c : Cluster S) (m : Member) (st : ClientState S) : Prop :=
  cStore st = clStore c /\ cInflight st = mInflight m.

Definition act (i : nat) (s : S) (m : Member) (c : Cluster S) : Cluster S :=
  MkCluster s (clNow c) (<[i := m]> (clMembers c)) (clStrays c).

Definition withStore (s : S) (c : Cluster S) : Cluster S :=
  MkCluster s (clNow c) (clMembers c) (clStrays c).

(** Time passes only as far as every held job has been claimed or renewed within [gap]: the
    heartbeats of the members that are alive land.  Processes die without a word; members that
    shut down hand back what they hold, and the handlers they leave behind may still report. *)
Inductive clusterStep : Cluster S -> Cluster S -> Prop :=
| cl_tick c t :
    clNow c <= t -> (forall i h, owns c i h -> t <= hBase h + gap) ->
    clusterStep c (MkCluster (clStore c) t (clMembers c) (clStrays c))
| cl_join c i :
    clMembers c !! i = None -> clusterStep c (act i (clStore c) newMember c)
| cl_crash c i :
    clusterStep c (MkCluster (clStore c) (clNow c) (delete i (clMembers c)) (clStrays c))
| cl_claim c i m q n jobCtx tick st st' rows :
    clMembers c !! i = Some m -> sees c m st ->
    claimQueue (cfg i) jobCtx tick (clNow c) q n st = (st', Ok rows) ->
    Forall (fun r => int32Attempt (Attempt r)) rows ->
    clusterStep c (act i (cStore st')
      (MkMember (cInflight st') (mHeld m ++ heldNow (clNow c) rows) (mBeat m) (mSweep m)) c)
| cl_snapshot c i m :
    clMembers c !! i = Some m ->
    clusterStep c (act i (clStore c)
      (MkMember (mInflight m) (mHeld m) (Some (snapshot (mInflight m))) (mSweep m)) c)
| cl_beat c i m ls s' :
    clMembers c !! i = Some m -> mBeat m = Some ls ->
    drvExtendLeases (clNow c) ls (leaseDuration (cfg i)) (clStore c) = (s', None) ->
    clusterStep c (act i s' (MkMember (mInflight m) (beaten (clNow c) ls <$> mHeld m) None (mSweep m)) c)
| cl_beat_lost c i m :
    clMembers c !! i = Some m ->
    clusterStep c (act i (clStore c) (MkMember (mInflight m) (mHeld m) None (mSweep m)) c)
| cl_finish c i m h1 h h2 k tick jobCtx err st st' :
    clMembers c !! i = Some m -> mHeld m = h1 ++ h :: h2 -> sees c m st ->
    st' = finishJob (cfg i) k tick jobCtx (hRow h) err st ->
    clusterStep c (act i (cStore st') (MkMember (cInflight st') (h1 ++ h2) (mBeat m) (mSweep m)) c)
| cl_finish_lost c i m h1 h h2 :
    clMembers c !! i = Some m -> mHeld m = h1 ++ h :: h2 ->
    clusterStep c (act i (clStore c)
      (MkMember (remove (leaseOf (hRow h)) (mInflight m)) (h1 ++ h2) (mBeat m) (mSweep m)) c)
| cl_sweep c i m limit s' rows :
    clMembers c !! i = Some m ->
    drvFetchExpired (clNow c) (leaseDuration (cfg i)) limit (clStore c) = (s', Ok rows) ->
    Forall (fun r => int32Attempt (Attempt r)) rows ->
    clusterStep c (act i s' (MkMember (mInflight m) (mHeld m) (mBeat m) (mSweep m ++ rows)) c)
| cl_rescue c i m r1 row r2 k tick st st' :
    clMembers c !! i = Some m -> mSweep m = r1 ++ row :: r2 -> sees c m st ->
    st' = dispose (retryPolicy (cfg i)) k tick Background row errLeaseExpired st ->
    clusterStep c (act i (cStore st') (MkMember (cInflight st') (mHeld m) (mBeat m) (r1 ++ r2)) c)
| cl_stop c i m jobCtx tick st st' verdict :
    clMembers c !! i = Some m -> sees c m st ->
    (forall id, jsonYearOk (tick id 0%nat) = true) ->
    (forall id, tick id 1%nat < tick id 2%nat + heartbeatInterval (cfg i)) ->
    escalate (cfg i) jobCtx tick st = (st', verdict) ->
    clusterStep c (MkCluster (cStore st') (clNow c) (delete i (clMembers c))
                             (clStrays c ++ (hRow <$> mHeld m)))
| cl_stray c s1 row s2 client k tick jobCtx err st st' :
    clStrays c = s1 ++ row :: s2 -> cStore st = clStore c ->
    st' = finishJob client k tick jobCtx row err st ->
    clusterStep c (MkCluster (cStore st') (clNow c) (clMembers c) (s1 ++ s2))
| cl_insert c p : clusterStep c (withStore (drvInsert (clNow c) p (clStore c)).1 c)
| cl_insertMany c ps : clusterStep c (withStore (drvInsertMany (clNow c) ps (clStore c)).1 c)
| cl_cancel c id : clusterStep c (withStore (drvOperatorCancel (clNow c) id (clStore c)).1 c)
| cl_redrive c id :
    (* nobody still holds a lease of the dead job *)
    (forall row, sweeping c row \/ row ∈ clStrays c -> ID row <> id) ->
    clusterStep c (withStore (drvRedriveDead (clNow c) id (clStore c)).1 c).

(** ** What a step may do to the rows *)

(** The highest attempt that is over: no write fenced by it, or by one before it, is accepted. *)
Definition floor (r : JobRow) : Z :=
  if decide (State r = StateRunning) then Attempt r - 1 else Attempt r.

Definition advances (s s' : S) : Prop :=
  forall id r, rowAt s id = Some r -> exists r', rowAt s' id = Some r' /\ floor r <= floor r'.

(** A running job nobody executes: its attempt ends or goes on running. *)
Definition orphanStep (r r' : JobRow) : Prop :=
  Attempt r <= floor r' \/ (State r' = StateRunning /\ Attempt r' = Attempt r).

Definition ownedId (c : Cluster S) (id : Z) : Prop := exists i h, owns c i h /\ ID (hRow h) = id.

Record gentle (owned : Z -> Prop) (s s' : S) : Prop := {
  g_wf : drvWf s';
  g_advances : advances s s';
  g_orphan : forall id r, rowAt s id = Some r -> State r = StateRunning -> ~ owned id ->
    exists r', rowAt s' id = Some r' /\ orphanStep r r'
}.

(** ** The invariant *)

Variable (shortest : Duration).

(** The store has the job running on the attempt it was claimed on, under a lease that outlasts
    the time to the next renewal. *)
Definition liveOk (s : S) (now : Time) (h : Held) : Prop :=
  int32Attempt (Attempt (hRow h)) /\ hBase h <= now <= hBase h + gap /\
  exists r t, leaseHeld s (leaseOf (hRow h)) r /\ LeasedUntil r = Some t /\
    hBase h + shortest - 2 * drvTick <= t.

Definition strayOk (s : S) (row : JobRow) : Prop :=
  int32Attempt (Attempt row) /\ exists r, rowAt s (ID row) = Some r /\ Attempt row <= floor r.

Definition sweptOk (s : S) (owned : Z -> Prop) (row : JobRow) : Prop :=
  int32Attempt (Attempt row) /\ exists r, rowAt s (ID row) = Some r /\
    (Attempt row <= floor r \/
     (State r = StateRunning /\ Attempt r = Attempt row /\ ~ owned (ID row))).

Record memberOk (m : Member) : Prop := {
  mo_ids : NoDup ((fun h => ID (hRow h)) <$> mHeld m);
  mo_tracked : forall l, tracked l (mInflight m) <-> l ∈ heldLeases m;
  mo_beat : forall ls, mBeat m = Some ls -> Forall (fun l => int32Attempt (leaseAttempt l)) ls
}.

Record clusterOk (c : Cluster S) : Prop := {
  co_wf : drvWf (clStore c);
  co_members : forall i m, clMembers c !! i = Some m -> memberOk m;
  co_alone : forall i j h h', owns c i h -> owns c j h' -> ID (hRow h) = ID (hRow h') -> i = j;
  co_live : forall i h, owns c i h -> liveOk (clStore c) (clNow c) h;
  co_strays : forall row, row ∈ clStrays c -> strayOk (clStore c) row;
  co_sweeps : forall row, sweeping c row -> sweptOk (clStore c) (ownedId c) row
}.

Lemma liveOk_running s now h : liveOk s now h ->
  exists r, rowAt s (ID (hRow h)) = Some r /\ State r = StateRunning.
Proof. intros (_ & _ & r & t & (Hr & Hs & _) & _). by exists r. Qed.

Lemma liveOk_same s s' now h :
  rowAt s' (ID (hRow h)) = rowAt s (ID (hRow h)) -> liveOk s now h -> liveOk s' now h.
Proof.
  intros He (Hi & Hn & r & t & (Hr & Hrest) & Ht). split; [done|]. split; [done|]. exists r, t.
  split; [|done]. split; [|done]. simpl in *. by rewrite He.
Qed.

Lemma advances_refl s : advances s s.
Proof. intros id r Hr. exists r. split; [done | lia]. Qed.

Lemma floor_le r : floor r <= Attempt r.
Proof. unfold floor. case_decide; lia. Qed.

Lemma strayOk_advances s s' row : advances s s' -> strayOk s row -> strayOk s' row.
Proof.
  intros Ha (Hi & r & Hr & Hle). split; [done|]. destruct (Ha _ _ Hr) as (r' & Hr' & Hf).
  exists r'. split; [done | lia].
Qed.

(** A lapsed attempt of the job is held by nobody. *)
Lemma strayOk_lost s row r : strayOk s row -> ~ leaseHeld s (leaseOf row) r.
Proof.
  intros (_ & r0 & Hr & Hle) (Hr' & Hs & Ha). simpl in *. rewrite Hr in Hr'. injection Hr' as ->.
  unfold floor in Hle. rewrite decide_True in Hle by done. lia.
Qed.

Lemma sweptOk_gentle s s' (owned owned' : Z -> Prop) row :
  gentle owned s s' ->
  (forall id r, rowAt s id = Some r -> State r = StateRunning -> owned' id -> owned id) ->
  sweptOk s owned row -> sweptOk s' owned' row.
Proof.
  intros [_ Ha Ho] Hown (Hi & r & Hr & Hc). split; [done|]. destruct Hc as [Hle|(Hs & Hat & Hno)].
  - destruct (Ha _ _ Hr) as (r' & Hr' & Hf). exists r'. split; [done|]. left. lia.
  - destruct (Ho _ _ Hr Hs Hno) as (r' & Hr' & [Hle|[Hs' Ha']]); exists r'; (split; [done|]).
    + left. lia.
    + right. split_all; [done | congruence|]. intros Hx. apply Hno. by eapply Hown.
Qed.

(** The step from [c] to [c'] at one instant: what is held was held before by the same member, or
    is claimed now by [i0]. *)
Lemma clusterOk_step i0 c c' :
  clusterOk c -> gentle (ownedId c) (clStore c) (clStore c') -> clNow c' = clNow c ->
  (forall i m, clMembers c' !! i = Some m -> memberOk m) ->
  (forall i h, owns c' i h -> liveOk (clStore c') (clNow c) h /\
     ((exists h0, owns c i h0 /\ hRow h0 = hRow h) \/
      (i = i0 /\ exists r, rowAt (clStore c) (ID (hRow h)) = Some r /\ State r <> StateRunning))) ->
  (forall row, row ∈ clStrays c' -> row ∈ clStrays c \/ strayOk (clStore c') row) ->
  (forall row, sweeping c' row -> sweeping c row \/ sweptOk (clStore c') (ownedId c') row) ->
  clusterOk c'.
Proof.
  intros Hok Hg Hn Hm Hlive Hst Hsw. destruct Hok as [Hwf Hmem Hal Hlv Hs Hsp].
  assert (forall i h h', owns c i h -> ID (hRow h) = ID (hRow h') ->
            forall r, rowAt (clStore c) (ID (hRow h')) = Some r -> State r = StateRunning) as Hrun.
  { intros i h h' Ho Hid r Hr. destruct (liveOk_running _ _ _ (Hlv _ _ Ho)) as (r' & Hr' & Hs').
    rewrite Hid, Hr in Hr'. by injection Hr' as ->. }
  split.
  - apply Hg.
  - done.
  - intros i j h h' Hi Hj Hid.
    destruct (Hlive i h Hi) as [_ [(h0 & Hi0 & E0)|(-> & r & Hr & Hnr)]],
             (Hlive j h' Hj) as [_ [(h1 & Hj1 & E1)|(-> & r' & Hr' & Hnr')]]; [| | |done].
    + eapply Hal; [done | done | congruence].
    + exfalso. apply Hnr'. eapply (Hrun i h0 h'); [done | congruence | done].
    + exfalso. apply Hnr. eapply (Hrun j h1 h); [done | congruence | done].
  - intros i h Ho. rewrite Hn. by destruct (Hlive i h Ho).
  - intros row Hr. destruct (Hst row Hr) as [Hin|?]; [|done].
    eapply strayOk_advances; [apply Hg | by apply Hs].
  - intros row Hr. destruct (Hsw row Hr) as [Hin|?]; [|done].
    eapply sweptOk_gentle; [exact Hg | | by apply Hsp].
    intros id r Hid Hrr (i & h & Ho & E). destruct (Hlive i h Ho) as [_ [(h0 & Ho0 & E0)|(-> & r0 & Hr0 & Hnr)]].
    + exists i, h0. split; [done | congruence].
    + rewrite E, Hid in Hr0. by injection Hr0 as ->.
Qed.

(** ** Gentle store calls *)

(** Where a row is untouched, nothing is to be shown. *)
Lemma gentle_rows owned s s' :
  drvWf s' ->
  (forall id r, rowAt s id = Some r -> rowAt s' id = Some r \/
     exists r', rowAt s' id = Some r' /\ floor r <= floor r' /\
       (State r = StateRunning -> ~ owned id -> orphanStep r r')) ->
  gentle owned s s'.
Proof.
  intros Hwf Hx. split; [done| |].
  - intros id r Hr. destruct (Hx id r Hr) as [?|(r' & ? & ? & _)]; [|by exists r'].
    exists r. split; [done | lia].
  - intros id r Hr Hs Hno. destruct (Hx id r Hr) as [?|(r' & ? & _ & Ho)]; [|exists r'; auto].
    exists r. split; [done|]. by right.
Qed.

Lemma gentle_refl owned s : drvWf s -> gentle owned s s.
Proof. intros Hwf. apply gentle_rows; [done|]. intros id r ?. by left. Qed.

Lemma floor_lease t r : floor (setLeasedUntil t r) = floor r.
Proof. done. Qed.

Lemma floor_claimed now d r : waitingState (State r) -> floor (claimedRow now d r) = floor r.
Proof.
  intros Hw. unfold floor. rewrite decide_True by done. simpl.
  rewrite decide_False; [lia|]. intros E. rewrite E in Hw. by destruct Hw as [?|[?|?]].
Qed.

Lemma fate_floor pol k tick row err r :
  State r = StateRunning -> Attempt r = Attempt row ->
  floor r <= floor (fate S pol k tick row err r) /\
  (err = Some errLeaseExpired -> Attempt r <= floor (fate S pol k tick row err r)).
Proof.
  intros Hs Ha. assert (forall j, Attempt (appendDetail j r) = Attempt r) as Hd.
  { intros j. unfold appendDetail. by repeat casematch. }
  assert (floor r = Attempt r - 1) as -> by (unfold floor; by rewrite decide_True).
  unfold fate. destruct err as [e|].
  - split.
    + destruct (classifyOutcome e) as [[] d]; [destruct (MaxAttempts row <=? _)|..];
        unfold floor; simpl; rewrite ?Hd; lia.
    + intros [= ->]. simpl. destruct (MaxAttempts row <=? _); unfold floor; simpl; rewrite ?Hd; lia.
  - split; [unfold floor; simpl; lia | done].
Qed.

(** A write fenced by the lease of [row]: by its holder, or by a rescuer that gives the
    attempt up. *)
Lemma settles_gentle (owned : Z -> Prop) pol k tick row err s s' :
  drvWf s' -> int32Attempt (Attempt row) ->
  s' = s \/ settles (fate S pol k tick row err) (leaseOf row) s s' ->
  owned (ID row) \/ err = Some errLeaseExpired ->
  gentle owned s s' /\ forall id, id <> ID row -> rowAt s' id = rowAt s id.
Proof.
  intros Hwf Hi [->|Hs] Hown; [split; [by apply gentle_refl | done]|].
  assert (forall id, id <> ID row -> rowAt s' id = rowAt s id) as Hoth.
  { intros id Hne. eapply (settles_other _ (leaseOf row)); [apply leaseHeld_dec | done..]. }
  split; [|done]. destruct (leaseHeld_dec s (leaseOf row)) as [[r0 Hr0]|Hno].
  - destruct Hs as [Hh _]. destruct (Hh r0 Hr0) as [Hat _]. destruct Hr0 as (Hr0 & Hs0 & Ha0). simpl in *.
    destruct (fate_floor pol k tick row err r0 Hs0 Ha0) as [Hf Hg].
    apply gentle_rows; [done|]. intros id r Hr. destruct (decide (id = ID row)) as [->|Hne].
    + rewrite Hr in Hr0. injection Hr0 as ->. right. eexists. split_all; [done | done|].
      intros _ Hno. left. apply Hg. by destruct Hown.
    + left. by rewrite Hoth.
  - destruct Hs as [_ Hn]. rewrite (Hn Hno Hi). apply gentle_rows; [by rewrite <- (Hn Hno Hi)|].
    intros id r ?. by left.
Qed.

(** Claiming takes waiting rows, which it tracks, and leaves the others alone. *)
Lemma claimQueue_takes c jobCtx tick now q n (st st' : ClientState S) rows :
  drvWf (cStore st) -> claimQueue c jobCtx tick now q n st = (st', Ok rows) ->
  drvWf (cStore st') /\ NoDup (ID <$> rows) /\ cInflight st' = addAll (leasesOf rows) (cInflight st) /\
  (forall r, r ∈ rows -> rowAt (cStore st') (ID r) = Some r /\
     exists r0, rowAt (cStore st) (ID r) = Some r0 /\ waitingState (State r0) /\
       r = claimedRow (drvTime S now) (drvSpan S (leaseDuration c)) r0) /\
  (forall id, id ∉ ID <$> rows -> rowAt (cStore st') id = rowAt (cStore st) id).
Proof.
  intros Hwf. unfold claimQueue. destruct (drvFetchAvailable _ _ _ _ _) as [s1 [rs|e]] eqn:E; [|done].
  destruct (fetchAvailable_law _ _ _ _ _ _ _ Hwf E) as (Hwf' & Hnd & Hlen & Hin & Hout).
  destruct (Nat.ltb_spec n (length rs)) as [Hlt|_]; [lia|]. intros [= <- <-].
  split_all; try done. intros r Hr. destruct (Hin r Hr) as (Hat & r0 & Hr0 & (Hw & _) & Heq). eauto 6.
Qed.

Lemma claim_gentle owned c jobCtx tick now q n (st st' : ClientState S) rows :
  drvWf (cStore st) -> claimQueue c jobCtx tick now q n st = (st', Ok rows) ->
  gentle owned (cStore st) (cStore st').
Proof.
  intros Hwf Hc. destruct (claimQueue_takes _ _ _ _ _ _ _ _ _ Hwf Hc) as (Hwf' & _ & _ & Hin & Hout).
  apply gentle_rows; [done|]. intros id r Hr.
  destruct (decide (id ∈ ID <$> rows)) as [(x & -> & Hx)%list_elem_of_fmap|Hni]; [|left; by rewrite Hout].
  destruct (Hin x Hx) as (Hat & r0 & Hr0 & Hw & ->). rewrite Hr in Hr0. injection Hr0 as ->.
  right. eexists. split_all; [done | by rewrite floor_claimed |].
  intros E. rewrite E in Hw. by destruct Hw as [?|[?|?]].
Qed.

(** What is left to assume of the members' configurations: the shortest lease among them outlasts
    the time between two renewals by two ticks of the store's clock. *)
Hypothesis leases : forall i, shortest <= leaseDuration (cfg i) <= 365 * 24 * Hour.
Hypothesis renewals : 0 <= gap /\ gap + 2 * drvTick < shortest.

Lemma tick_nonneg : 0 <= drvTick (S := S).
Proof. pose proof (drvTime_near (S := S) 0). lia. Qed.

(** A lease taken at [now] by any member lasts. *)
Lemma lease_lasts i now :
  now + shortest - 2 * drvTick <= drvTime S now + drvSpan S (leaseDuration (cfg i)).
Proof.
  pose proof (drvTime_near (S := S) now). pose proof (drvSpan_near (S := S) (leaseDuration (cfg i))).
  pose proof (leases i). pose proof tick_nonneg. lia.
Qed.

Lemma renewedBy_floor now d ls r : floor (renewedBy now d ls r) = floor r.
Proof. unfold renewedBy. case_decide; done. Qed.

(** A beat renews, and shortens nobody's lease below what its holder counts on. *)
Lemma beat_live i now ls s s' :
  drvWf s -> (forall id, rowAt s' id =
    renewedBy (drvTime S now) (drvSpan S (leaseDuration (cfg i))) ls <$> rowAt s id) ->
  forall h, liveOk s now h -> liveOk s' now h /\ liveOk s' now (beaten now ls h).
Proof.
  intros Hwf Hrows h (Hi & Hn & r & t & (Hr & Hs & Ha) & Ht & Hle). simpl in *.
  pose proof (lease_lasts i now) as Hlast.
  set (u := drvTime S now + drvSpan S (leaseDuration (cfg i))) in *.
  assert (exists r' t', leaseHeld s' (leaseOf (hRow h)) r' /\ LeasedUntil r' = Some t' /\
            hBase h + shortest - 2 * drvTick <= t' /\
            (leaseOf (hRow h) ∈ ls -> t' = u)) as (r' & t' & Hh & Ht' & Hle' & Hu).
  { assert (leaseOf r = leaseOf (hRow h)) as El.
    { unfold leaseOf. by rewrite (rowAt_id s _ _ Hwf Hr), Ha. }
    exists (renewedBy (drvTime S now) (drvSpan S (leaseDuration (cfg i))) ls r).
    unfold leaseHeld. simpl. rewrite Hrows, Hr. simpl. unfold renewedBy. case_decide as Hc; simpl.
    - exists u. split_all; try done. lia.
    - exists t. split_all; try done. intros Hin. exfalso. apply Hc. by rewrite El. }
  split.
  - split; [done|]. split; [done|]. by exists r', t'.
  - unfold beaten. case_bool_decide as Hin; [|split; [done|]; split; [done|]; by exists r', t'].
    split; [done|]. split; [simpl; lia|]. exists r', t'. split_all; try done. rewrite (Hu Hin). simpl. lia.
Qed.

(** A sweep takes over no job that a living member holds. *)
Lemma sweep_rows i limit now s s' rows :
  drvWf s -> drvFetchExpired now (leaseDuration (cfg i)) limit s = (s', Ok rows) ->
  (forall owned, gentle owned s s') /\
  (forall h, liveOk s now h -> (ID (hRow h) ∉ ID <$> rows) /\ liveOk s' now h) /\
  (forall row, row ∈ rows -> rowAt s' (ID row) = Some row /\ State row = StateRunning).
Proof.
  intros Hwf Hf. destruct (fetchExpired_law _ _ _ _ _ _ Hwf Hf) as (Hwf' & Hnd & Hin & Hout). split_all.
  - intros owned. apply gentle_rows; [done|]. intros id r Hr.
    destruct (decide (id ∈ ID <$> rows)) as [(x & -> & Hx)%list_elem_of_fmap|Hni]; [|left; by rewrite Hout].
    destruct (Hin x Hx) as (Hat & Hrun & _ & r0 & t & Hr0 & Hs0 & _ & _ & ->).
    rewrite Hr in Hr0. injection Hr0 as ->. right. eexists. split_all; [done | by rewrite floor_lease|].
    intros _ _. by right.
  - intros h Hl. assert (ID (hRow h) ∉ ID <$> rows) as Hni.
    { intros (x & Hx & Hxin)%list_elem_of_fmap. destruct Hl as (_ & Hn & r & t & (Hr & _) & Ht & Hle).
      destruct (Hin x Hxin) as (_ & _ & _ & r0 & t0 & Hr0 & _ & Ht0 & Hle0 & _).
      simpl in Hr. rewrite <- Hx, Hr in Hr0. injection Hr0 as <-. rewrite Ht in Ht0. injection Ht0 as <-.
      pose proof (drvTime_near (S := S) now). lia. }
    split; [done|]. eapply liveOk_same; [by apply Hout | done].
  - intros row Hr. by destruct (Hin row Hr) as (? & ? & _).
Qed.

(** Enqueueing and operators. *)
Lemma adds_gentle owned s s' : drvWf s' -> onlyAdds s s' -> gentle owned s s'.
Proof. intros Hwf [Hold _]. apply gentle_rows; [done|]. intros id r Hr. left. by apply Hold. Qed.

Lemma cancel_gentle owned now id s :
  drvWf s -> let s' := (drvOperatorCancel now id s).1 in
  gentle owned s s' /\ forall x r, rowAt s x = Some r -> State r = StateRunning -> rowAt s' x = Some r.
Proof.
  intros Hwf s'. destruct (operatorCancel_law now id s Hwf) as [Hwf' [Hsame|(r & r' & Hr & Hok & [Hs Ha] & Hat & Hoth)]];
    fold s' in Hwf'.
  - split; [apply gentle_rows; [done|]; intros x r0 Hx; left|intros x r0 Hx _]; by rewrite Hsame.
  - assert (State r <> StateRunning) as Hnr.
    { intros E. rewrite E in Hok. by destruct Hok as [[?|[?|?]]|?]. }
    split.
    + apply gentle_rows; [done|]. intros x r0 Hx. destruct (decide (x = id)) as [->|Hne].
      * rewrite Hr in Hx. injection Hx as <-. right. exists r'. split_all; [done | | done].
        unfold floor. rewrite Hs, !decide_False by done. lia.
      * left. by rewrite Hoth.
    + intros x r0 Hx Hrun. destruct (decide (x = id)) as [->|Hne]; [congruence | by rewrite Hoth].
Qed.

(** ** Every step keeps the invariant *)

Lemma owns_act i s m (c : Cluster S) j h :
  owns (act i s m c) j h -> (j = i /\ h ∈ mHeld m) \/ (j <> i /\ owns c j h).
Proof.
  intros (m' & Hm & Hh). cbn [act clMembers] in Hm. apply lookup_insert_Some in Hm as [[-> ->]|[Hne Hm]].
  - by left.
  - right. split; [done|]. by exists m'.
Qed.

(** One member acts. *)
Lemma act_ok i c m m' s' :
  clusterOk c -> clMembers c !! i = Some m -> gentle (ownedId c) (clStore c) s' -> memberOk m' ->
  (forall h, h ∈ mHeld m' -> liveOk s' (clNow c) h /\
     ((exists h0, h0 ∈ mHeld m /\ hRow h0 = hRow h) \/
      exists r, rowAt (clStore c) (ID (hRow h)) = Some r /\ State r <> StateRunning)) ->
  (forall j h, j <> i -> owns c j h -> liveOk s' (clNow c) h) ->
  (forall row, row ∈ mSweep m' -> row ∈ mSweep m \/ sweptOk s' (ownedId (act i s' m' c)) row) ->
  clusterOk (act i s' m' c).
Proof.
  intros Hok Hm Hg Hmo Hheld Hoth Hsw. apply (clusterOk_step i c); [done|done|done| | | |].
  - intros j x Hx. cbn [act clMembers] in Hx. apply lookup_insert_Some in Hx as [[-> <-]|[_ Hx]]; [done|].
    by eapply co_members.
  - intros j h [[-> Hh]|[Hne Ho]]%owns_act.
    + destruct (Hheld h Hh) as [Hl [(h0 & Hin & E)|Hf]]; (split; [done|]); [left|by right].
      exists h0. split; [|done]. by exists m.
    + split; [by eapply Hoth|]. left. by exists h.
  - intros row Hr. by left.
  - intros row (j & x & Hx & Hr). cbn [act clMembers] in Hx.
    apply lookup_insert_Some in Hx as [[<- <-]|[_ Hx]]; [|left; by exists j, x].
    destruct (Hsw row Hr) as [?|?]; [left; by exists i, m | by right].
Qed.

(** The store changes under everyone, the members do not. *)
Lemma withStore_ok c s' :
  clusterOk c -> gentle (ownedId c) (clStore c) s' ->
  (forall i h, owns c i h -> liveOk s' (clNow c) h) -> clusterOk (withStore s' c).
Proof.
  intros Hok Hg Hl. apply (clusterOk_step 0 c); [done|done|done|apply Hok| | |].
  - intros i h Ho. split; [by eapply Hl|]. left. by exists h.
  - by left.
  - by left.
Qed.

(** Some members leave. *)
Lemma leave_ok i c s' strays :
  clusterOk c -> gentle (ownedId c) (clStore c) s' ->
  (forall j h, j <> i -> owns c j h -> liveOk s' (clNow c) h) ->
  (forall row, row ∈ strays -> row ∈ clStrays c \/ strayOk s' row) ->
  clusterOk (MkCluster s' (clNow c) (delete i (clMembers c)) strays).
Proof.
  intros Hok Hg Hl Hst. apply (clusterOk_step i c); [done|done|done| | |done|].
  - intros j m Hm. cbn [clMembers] in Hm; apply lookup_delete_Some in Hm as [_ Hm]. by eapply co_members.
  - intros j h (m & Hm & Hh). cbn [clMembers] in Hm; apply lookup_delete_Some in Hm as [Hne Hm].
    assert (owns c j h) as Ho by (by exists m). split; [by eapply Hl|]. left. by exists h.
  - intros row (j & m & Hm & Hr). cbn [clMembers] in Hm; apply lookup_delete_Some in Hm as [_ Hm]. left. by exists j, m.
Qed.

Lemma owns_alone c i m h j h' :
  clusterOk c -> clMembers c !! i = Some m -> h ∈ mHeld m -> j <> i -> owns c j h' ->
  ID (hRow h') <> ID (hRow h).
Proof.
  intros Hok Hm Hh Hne Ho E. apply Hne. eapply (co_alone c Hok); [done | by exists m | done].
Qed.

Lemma heldIds_app (l1 l2 : list Held) (f : Held -> Z) :
  NoDup (f <$> l1 ++ l2) <-> NoDup (f <$> l1) /\ (forall a b, a ∈ l1 -> b ∈ l2 -> f a <> f b) /\ NoDup (f <$> l2).
Proof.
  rewrite fmap_app, NoDup_app. split; intros (H1 & H2 & H3); split_all; try done.
  - intros a b Ha Hb E. apply (H2 (f a)); [by apply list_elem_of_fmap_2|]. rewrite E. by apply list_elem_of_fmap_2.
  - intros x (a & -> & Ha)%list_elem_of_fmap (b & Hb & Hin)%list_elem_of_fmap. by apply (H2 a b).
Qed.

(** A job leaves the hands of its member. *)
Lemma memberOk_drop m h1 h h2 :
  memberOk m -> mHeld m = h1 ++ h :: h2 ->
  memberOk (MkMember (remove (leaseOf (hRow h)) (mInflight m)) (h1 ++ h2) (mBeat m) (mSweep m)) /\
  forall x, x ∈ h1 ++ h2 -> x ∈ mHeld m /\ ID (hRow x) <> ID (hRow h).
Proof.
  intros [Hnd Htr Hb] Hm. rewrite Hm in Hnd.
  assert (NoDup ((fun h => ID (hRow h)) <$> h1 ++ h2) /\ forall x, x ∈ h1 ++ h2 -> ID (hRow x) <> ID (hRow h))
    as [Hnd' Hne].
  { rewrite fmap_app, fmap_cons in Hnd. apply NoDup_app in Hnd as (N1 & N2 & [N3 N4]%NoDup_cons).
    rewrite fmap_app. split.
    - apply NoDup_app. split_all; [done| |done]. intros x Hx Hx2. apply (N2 x Hx). by right.
    - intros x [Hx|Hx]%elem_of_app E.
      + apply (N2 (ID (hRow x))); [by apply (list_elem_of_fmap_2 (fun h => ID (hRow h)))|]. rewrite E. left.
      + apply N3. rewrite <- E. by apply (list_elem_of_fmap_2 (fun h => ID (hRow h))). }
  assert (forall x, x ∈ h1 ++ h2 -> x ∈ mHeld m) as Hin.
  { intros x. rewrite Hm, !elem_of_app, elem_of_cons. tauto. }
  split; [|intros x Hx; split; auto]. split; cbn [mHeld mInflight mBeat]; [done| |done].
  intros l. rewrite tracked_remove, Htr. unfold heldLeases. cbn [mHeld]. rewrite Hm, !fmap_app, fmap_cons.
  rewrite !elem_of_app, elem_of_cons. split; [tauto|]. intros Hl. split; [|tauto]. intros ->.
  rewrite <- elem_of_app, <- fmap_app in Hl. apply list_elem_of_fmap in Hl as (x & E & Hx).
  apply (Hne x Hx). by injection E.
Qed.

(** Claimed rows come into the hands of a member. *)
Lemma memberOk_take m rows now f :
  memberOk m -> NoDup (ID <$> rows) -> f = addAll (leasesOf rows) (mInflight m) ->
  (forall h r, h ∈ mHeld m -> r ∈ rows -> ID (hRow h) <> ID r) ->
  memberOk (MkMember f (mHeld m ++ heldNow now rows) (mBeat m) (mSweep m)).
Proof.
  intros [Hnd Htr Hb] Hr -> Hdis.
  assert (heldLeases (MkMember (addAll (leasesOf rows) (mInflight m)) (mHeld m ++ heldNow now rows)
            (mBeat m) (mSweep m)) = heldLeases m ++ leasesOf rows) as Hl.
  { unfold heldLeases, heldNow. simpl. rewrite fmap_app. f_equal. by rewrite <- list_fmap_compose. }
  split; [..|done].
  - cbn [mHeld]. apply heldIds_app. split_all; [done| |].
    + intros a b Ha (r & -> & Hin)%list_elem_of_fmap. by apply Hdis.
    + unfold heldNow. by rewrite <- list_fmap_compose.
  - intros l. rewrite Hl, elem_of_app. cbn [mInflight]. split.
    + intros [?|Ht]%tracked_addAll; [by right|]. left. by apply Htr.
    + intros [Hin|Hin].
      * apply tracked_addAll_keep; [|by apply Htr]. rewrite leaseIDs.
        intros (r & Er & Hrin)%list_elem_of_fmap. apply list_elem_of_fmap in Hin as (h & -> & Hh).
        by apply (Hdis h r).
      * apply tracked_addAll_in; [by rewrite leaseIDs | done].
Qed.

Lemma claim_keeps_ok c i m q n jobCtx tick st st' rows :
  clusterOk c -> clMembers c !! i = Some m -> sees c m st ->
  claimQueue (cfg i) jobCtx tick (clNow c) q n st = (st', Ok rows) ->
  Forall (fun r => int32Attempt (Attempt r)) rows ->
  clusterOk (act i (cStore st')
    (MkMember (cInflight st') (mHeld m ++ heldNow (clNow c) rows) (mBeat m) (mSweep m)) c).
Proof.
  intros Hok Hm [Es Ei] Hc Hint. pose proof (co_wf c Hok) as Hwf. rewrite <- Es in Hwf.
  destruct (claimQueue_takes _ _ _ _ _ _ _ _ _ Hwf Hc) as (Hwf' & Hnd & Hinf & Hin & Hout).
  assert (forall j h r, owns c j h -> r ∈ rows -> ID (hRow h) <> ID r) as Hdis.
  { intros j h r Ho Hr E. destruct (liveOk_running _ _ _ (co_live c Hok j h Ho)) as (x & Hx & Hs).
    destruct (Hin r Hr) as (_ & r0 & Hr0 & Hw & _). rewrite <- Es, E, Hr0 in Hx. injection Hx as ->.
    rewrite Hs in Hw. by destruct Hw as [?|[?|?]]. }
  assert (forall j h, owns c j h -> liveOk (cStore st') (clNow c) h) as Hold.
  { intros j h Ho. eapply liveOk_same; [|by eapply co_live]. rewrite <- Es. apply Hout.
    intros (r & E & Hr)%list_elem_of_fmap. by apply (Hdis j h r). }
  apply (act_ok i c m); [done|done| | | | |by left].
  - rewrite <- Es. by eapply claim_gentle.
  - apply memberOk_take; [by eapply co_members | done | by rewrite <- Ei |]. intros h r Hh. apply (Hdis i). by exists m.
  - intros h [Hh|Hh]%elem_of_app.
    + split; [apply (Hold i); by exists m|]. left. by exists h.
    + apply list_elem_of_fmap in Hh as (r & -> & Hr). destruct (Hin r Hr) as (Hat & r0 & Hr0 & Hw & Heq).
      rewrite Forall_forall in Hint. split.
      * split; [by apply Hint|]. simpl. split; [lia|]. eexists r, _.
        split_all; [by rewrite Heq in * | by rewrite Heq | apply lease_lasts].
      * right. exists r0. rewrite <- Es. split; [done|]. intros E. rewrite E in Hw. by destruct Hw as [?|[?|?]].
  - intros j h _. apply Hold.
Qed.

Lemma beat_ok c i m ls s' :
  clusterOk c -> clMembers c !! i = Some m -> mBeat m = Some ls ->
  drvExtendLeases (clNow c) ls (leaseDuration (cfg i)) (clStore c) = (s', None) ->
  clusterOk (act i s' (MkMember (mInflight m) (beaten (clNow c) ls <$> mHeld m) None (mSweep m)) c).
Proof.
  intros Hok Hm Hb He. pose proof (co_wf c Hok) as Hwf. pose proof (co_members c Hok i m Hm) as Hmo.
  destruct (extendLeases_law (clNow c) ls (leaseDuration (cfg i)) (clStore c) Hwf (mo_beat m Hmo ls Hb))
    as [Hwf' Hrows]. rewrite He in Hwf', Hrows. specialize (Hrows eq_refl). simpl in *.
  pose proof (beat_live i (clNow c) ls _ _ Hwf Hrows) as Hlive.
  assert (forall h, hRow (beaten (clNow c) ls h) = hRow h) as Hb'.
  { intros h. unfold beaten. by case_bool_decide. }
  apply (act_ok i c m); [done|done| | | | |by left].
  - apply gentle_rows; [done|]. intros id r Hr. right. rewrite Hrows, Hr. simpl. eexists.
    split_all; [done | by rewrite renewedBy_floor|]. intros Hs _. right.
    unfold renewedBy. by case_decide.
  - destruct Hmo as [Hnd Htr _]. split; [| |done]; cbn [mHeld mInflight].
    + rewrite <- list_fmap_compose. erewrite list_fmap_ext; [exact Hnd|]. intros k h _. simpl. by rewrite Hb'.
    + intros l. rewrite Htr. unfold heldLeases. cbn [mHeld]. rewrite <- list_fmap_compose.
      erewrite (list_fmap_ext (_ ∘ _)); [done|]. intros k h _. simpl. by rewrite Hb'.
  - cbn [mHeld]. intros h (h0 & -> & Hh)%list_elem_of_fmap.
    split; [apply Hlive, (co_live c Hok i); by exists m|]. left. exists h0. by rewrite Hb'.
  - intros j h _ Ho. by apply Hlive, (co_live c Hok j).
Qed.

(** A job leaves its member while the store changes at most that job's row. *)
Lemma drop_ok c i m h1 h h2 s' :
  clusterOk c -> clMembers c !! i = Some m -> mHeld m = h1 ++ h :: h2 ->
  gentle (ownedId c) (clStore c) s' -> (forall id, id <> ID (hRow h) -> rowAt s' id = rowAt (clStore c) id) ->
  clusterOk (act i s' (MkMember (remove (leaseOf (hRow h)) (mInflight m)) (h1 ++ h2) (mBeat m) (mSweep m)) c).
Proof.
  intros Hok Hm Hh Hg Hoth. pose proof (co_members c Hok i m Hm) as Hmo.
  destruct (memberOk_drop m h1 h h2 Hmo Hh) as [Hmo' Hin].
  apply (act_ok i c m); [done|done|done|done| | |by left].
  - intros x Hx. destruct (Hin x Hx) as [Hxm Hne]. split; [|left; by exists x].
    eapply liveOk_same; [by apply Hoth|]. apply (co_live c Hok i). by exists m.
  - intros j x Hne Ho. eapply liveOk_same; [apply Hoth | by apply (co_live c Hok j)].
    eapply owns_alone; [done | done | | done | done]. rewrite Hh. apply elem_of_app. right. left.
Qed.

Lemma finish_ok c i m h1 h h2 k tick jobCtx err st :
  clusterOk c -> clMembers c !! i = Some m -> mHeld m = h1 ++ h :: h2 -> sees c m st ->
  let st' := finishJob (cfg i) k tick jobCtx (hRow h) err st in
  clusterOk (act i (cStore st') (MkMember (cInflight st') (h1 ++ h2) (mBeat m) (mSweep m)) c).
Proof.
  intros Hok Hm Hh [Es Ei] st'. pose proof (co_wf c Hok) as Hwf. rewrite <- Es in Hwf.
  destruct (finishJob_safe (cfg i) k tick jobCtx (hRow h) err st Hwf) as (Hs & Hw & Hi).
  fold st' in Hs, Hw, Hi. rewrite Hi, Ei.
  assert (owns c i h) as Ho by (exists m; rewrite Hh; split; [done|]; apply elem_of_app; right; left).
  destruct (co_live c Hok i h Ho) as (Hint & _). rewrite Es in Hs.
  destruct (settles_gentle (ownedId c) _ _ _ _ _ _ _ Hw Hint Hs) as [Hg Hoth]; [left; by exists i, h|].
  by apply drop_ok.
Qed.

Lemma sweep_ok c i m limit s' rows :
  clusterOk c -> clMembers c !! i = Some m ->
  drvFetchExpired (clNow c) (leaseDuration (cfg i)) limit (clStore c) = (s', Ok rows) ->
  Forall (fun r => int32Attempt (Attempt r)) rows ->
  clusterOk (act i s' (MkMember (mInflight m) (mHeld m) (mBeat m) (mSweep m ++ rows)) c).
Proof.
  intros Hok Hm Hf Hint. pose proof (co_wf c Hok) as Hwf. pose proof (co_members c Hok i m Hm) as Hmo.
  destruct (sweep_rows i limit (clNow c) _ _ _ Hwf Hf) as (Hg & Hlive & Hin).
  apply (act_ok i c m); [done|done|done|by destruct Hmo| | |].
  - intros h Hh. split; [apply Hlive, (co_live c Hok i); by exists m|]. left. by exists h.
  - intros j h _ Ho. by apply Hlive, (co_live c Hok j).
  - intros row [?|Hr]%elem_of_app; [by left|]. right. destruct (Hin row Hr) as [Hat Hs].
    rewrite Forall_forall in Hint. split; [by apply Hint|]. exists row. split; [done|]. right.
    split_all; [done|done|]. intros (j & h & Ho & E).
    assert (liveOk (clStore c) (clNow c) h) as Hl.
    { apply owns_act in Ho as [[-> Hh]|[_ Ho]]; [|by apply (co_live c Hok j)].
      apply (co_live c Hok i). by exists m. }
    destruct (Hlive h Hl) as [Hni _]. apply Hni. rewrite E. by apply list_elem_of_fmap_2.
Qed.

(** A rescuer disposes of a row it took over. *)
Lemma rescue_ok c i m r1 row r2 k tick st :
  clusterOk c -> clMembers c !! i = Some m -> mSweep m = r1 ++ row :: r2 -> sees c m st ->
  let st' := dispose (retryPolicy (cfg i)) k tick Background row errLeaseExpired st in
  clusterOk (act i (cStore st') (MkMember (cInflight st') (mHeld m) (mBeat m) (r1 ++ r2)) c).
Proof.
  intros Hok Hm Hr [Es Ei] st'. pose proof (co_wf c Hok) as Hwf. rewrite <- Es in Hwf.
  destruct (dispose_safe (retryPolicy (cfg i)) k tick Background row errLeaseExpired st Hwf) as (Hs & Hw & Hi).
  fold st' in Hs, Hw, Hi. rewrite Hi, Ei. rewrite Es in Hs.
  assert (sweptOk (clStore c) (ownedId c) row) as (Hint & r & Hrow & Hc).
  { apply (co_sweeps c Hok). exists i, m. split; [done|]. rewrite Hr. apply elem_of_app. right. left. }
  destruct (settles_gentle (ownedId c) _ _ _ _ _ _ _ Hw Hint Hs) as [Hg Hoth]; [by right|].
  assert (forall j h, owns c j h -> liveOk (cStore st') (clNow c) h) as Hlive.
  { intros j h Ho. pose proof (co_live c Hok j h Ho) as Hl. eapply liveOk_same; [|exact Hl].
    destruct Hs as [->|[_ Hs]]; [done|]. destruct (decide (ID (hRow h) = ID row)) as [E|Hne]; [|by apply Hoth].
    rewrite Hs; [done| |done]. intros x (Hx & Hrun & Ha). simpl in *. rewrite Hrow in Hx. injection Hx as <-.
    destruct Hc as [Hle|(_ & _ & Hno)]; [|apply Hno; by exists j, h].
    unfold floor in Hle. rewrite decide_True in Hle by done. lia. }
  apply (act_ok i c m); [done|done|done| | | |].
  - by destruct (co_members c Hok i m Hm).
  - intros h Hh. split; [apply (Hlive i); by exists m|]. left. by exists h.
  - intros j h _. apply Hlive.
  - intros x Hx. left. rewrite Hr. revert Hx. cbn [mSweep]. rewrite !elem_of_app, elem_of_cons. tauto.
Qed.

(** A member hands back everything it holds and leaves; its handlers are strays. *)
Lemma stop_ok c i m jobCtx tick st :
  clusterOk c -> clMembers c !! i = Some m -> sees c m st ->
  (forall id, jsonYearOk (tick id 0%nat) = true) ->
  (forall id, tick id 1%nat < tick id 2%nat + heartbeatInterval (cfg i)) ->
  clusterOk (MkCluster (cStore (escalate (cfg i) jobCtx tick st).1) (clNow c) (delete i (clMembers c))
               (clStrays c ++ (hRow <$> mHeld m))).
Proof.
  intros Hok Hm [Es Ei] Hy Ht. pose proof (co_wf c Hok) as Hwf. pose proof (co_members c Hok i m Hm) as Hmo.
  assert (forall l, tracked l (cInflight st) <-> exists h, h ∈ mHeld m /\ l = leaseOf (hRow h)) as Htr.
  { intros l. rewrite Ei, (mo_tracked m Hmo). unfold heldLeases. rewrite list_elem_of_fmap. split; intros (h & Hx); exists h; tauto. }
  assert (forall h, h ∈ mHeld m -> liveOk (clStore c) (clNow c) h) as Hmine.
  { intros h Hh. apply (co_live c Hok i). by exists m. }
  destruct (escalate_rows (cfg i) jobCtx tick st Hy Ht) as (Hw & _ & Hin & Hout); [by rewrite Es| |].
  { intros l (h & Hh & ->)%Htr. by destruct (Hmine h Hh). }
  set (st' := (escalate (cfg i) jobCtx tick st).1) in *. rewrite Es in Hin, Hout.
  assert (forall l r, floor (requeuedRow tick l r) = Attempt r) as Hfl.
  { intros l r. unfold requeuedRow, floor, retryRow, appendDetail. simpl. by repeat casematch. }
  apply leave_ok; [done| | |].
  - apply gentle_rows; [done|]. intros id r Hr.
    destruct (decide (State r = StateRunning /\ tracked (MkLease id (Attempt r)) (cInflight st))) as [[Hs Htk]|Hno].
    + right. exists (requeuedRow tick (MkLease id (Attempt r)) r). rewrite Hfl. split_all.
      * by apply (Hin (MkLease id (Attempt r))).
      * pose proof (floor_le r). lia.
      * intros _ _. left. rewrite Hfl. lia.
    + left. apply Hout; [done|]. destruct (decide (State r = StateRunning)); [right | by left]. tauto.
  - intros j h Hne Ho. pose proof (co_live c Hok j h Ho) as Hl. eapply liveOk_same; [|exact Hl].
    destruct (liveOk_running _ _ _ Hl) as (r & Hr & _). rewrite Hr. apply Hout; [done|]. right.
    intros (h0 & Hh0 & E)%Htr. eapply (owns_alone c i m h0 j h); [done..|]. by injection E.
  - intros row [?|Hr]%elem_of_app; [by left|]. right. apply list_elem_of_fmap in Hr as (h & -> & Hh).
    destruct (Hmine h Hh) as (Hint & _ & r & t & Hheld & _). split; [done|].
    exists (requeuedRow tick (leaseOf (hRow h)) r). rewrite Hfl. split.
    + apply (Hin (leaseOf (hRow h))); [|done]. apply Htr. by exists h.
    + destruct Hheld as (_ & _ & Ha). simpl in Ha. lia.
Qed.

(** What a stray handler reports is refused. *)
Lemma stray_refused s row client k tick jobCtx err (st : ClientState S) :
  drvWf s -> strayOk s row -> cStore st = s -> cStore (finishJob client k tick jobCtx row err st) = s.
Proof.
  intros Hwf Hs Es. rewrite <- Es in Hwf.
  destruct (finishJob_safe client k tick jobCtx row err st Hwf) as ([Hsame|[_ Hno]] & _); [congruence|].
  rewrite Hno; [done | |by destruct Hs]. intros r. rewrite Es. by apply strayOk_lost.
Qed.

Lemma redrive_ok c id :
  clusterOk c -> (forall row, sweeping c row \/ row ∈ clStrays c -> ID row <> id) ->
  clusterOk (withStore (drvRedriveDead (clNow c) id (clStore c)).1 c).
Proof.
  intros Hok Hnone. pose proof (co_wf c Hok) as Hwf.
  destruct (redriveDead_law (clNow c) id (clStore c) Hwf) as [Hwf' Hmv].
  set (s' := (drvRedriveDead (clNow c) id (clStore c)).1) in *.
  assert (forall x, (x = id -> exists r, rowAt (clStore c) x = Some r /\ State r <> StateDead) ->
            rowAt s' x = rowAt (clStore c) x) as Hsame.
  { destruct Hmv as [Hs|(r & r' & Hr & Hd & _ & _ & Ho)]; [intros x _; apply Hs|].
    intros x Hx. destruct (decide (x = id)) as [->|Hne]; [|by apply Ho].
    destruct (Hx eq_refl) as (r0 & Hr0 & Hn). congruence. }
  destruct Hok as [_ Hmem Hal Hlv Hs Hsp]. split; cbn [withStore clStore clMembers clNow clStrays].
  - done.
  - done.
  - done.
  - intros i h Ho. pose proof (Hlv i h Ho) as Hl. eapply liveOk_same; [|exact Hl].
    apply Hsame. intros _. destruct (liveOk_running _ _ _ Hl) as (r & Hr & Hrun). exists r.
    split; [done | congruence].
  - intros row Hr. destruct (Hs row Hr) as (Hi & r & Hx & Hle). split; [done|]. exists r. split; [|done].
    rewrite Hsame; [done|]. intros E. exfalso. apply (Hnone row); [by right | done].
  - intros row Hr. destruct (Hsp row Hr) as (Hi & r & Hx & Hc). split; [done|]. exists r. split; [|done].
    rewrite Hsame; [done|]. intros E. exfalso. apply (Hnone row); [by left | done].
Qed.

Lemma tick_ok c t :
  clusterOk c -> clNow c <= t -> (forall i h, owns c i h -> t <= hBase h + gap) ->
  clusterOk (MkCluster (clStore c) t (clMembers c) (clStrays c)).
Proof.
  intros [Hwf Hmem Hal Hlv Hst Hsp] Ht Hg. split; cbn [clStore clMembers clNow clStrays]; try done.
  intros i h Ho. destruct (Hlv i h Ho) as (Hi & Hn & Hr). split; [done|]. split; [|done].
  specialize (Hg i h Ho). lia.
Qed.

Lemma join_ok c i : clusterOk c -> clMembers c !! i = None -> clusterOk (act i (clStore c) newMember c).
Proof.
  intros Hok Hi. apply (clusterOk_step i c); [done|apply gentle_refl, Hok|done| | |by left|].
  - intros j m Hm. cbn [act clMembers] in Hm.
    apply lookup_insert_Some in Hm as [[_ <-]|[_ Hm]]; [|by apply Hok in Hm].
    split; [constructor | | done]. intros l. unfold tracked. simpl. unfold newInflightSet. rewrite lookup_empty.
    split; [done | by intros Hl%not_elem_of_nil].
  - intros j h [[_ Hh]|[_ Ho]]%owns_act; [by apply not_elem_of_nil in Hh|].
    split; [by apply (co_live c Hok j)|]. left. by exists h.
  - intros row (j & m & Hm & Hr). cbn [act clMembers] in Hm.
    apply lookup_insert_Some in Hm as [[_ <-]|[_ Hm]]; [by apply not_elem_of_nil in Hr|]. left. by exists j, m.
Qed.

(** A beat starts, from a snapshot of what is tracked, or is given up. *)
Lemma mark_beat_ok c i m b :
  clusterOk c -> clMembers c !! i = Some m -> b = None \/ b = Some (snapshot (mInflight m)) ->
  clusterOk (act i (clStore c) (MkMember (mInflight m) (mHeld m) b (mSweep m)) c).
Proof.
  intros Hok Hm Hb. destruct (co_members c Hok i m Hm) as [Hnd Htr _].
  apply (act_ok i c m); [done|done|apply gentle_refl, Hok| | | |by left].
  - split; [done..|]. cbn [mBeat]. destruct Hb as [->| ->]; [done|]. intros ls [= <-]. apply Forall_forall.
    intros l. rewrite snapshot_elem, Htr. intros (h & -> & Hh)%list_elem_of_fmap.
    destruct (co_live c Hok i h) as [Hi _]; [by exists m | done].
  - intros h Hh. split; [apply (co_live c Hok i); by exists m|]. left. by exists h.
  - intros j h _. apply (co_live c Hok j).
Qed.

Lemma stray_ok c s1 row s2 client k tick jobCtx err st :
  clusterOk c -> clStrays c = s1 ++ row :: s2 -> cStore st = clStore c ->
  clusterOk (MkCluster (cStore (finishJob client k tick jobCtx row err st)) (clNow c) (clMembers c) (s1 ++ s2)).
Proof.
  intros Hok Hs Es. assert (strayOk (clStore c) row) as Hsr.
  { apply Hok. rewrite Hs. apply elem_of_app. right. left. }
  rewrite (stray_refused (clStore c) row client k tick jobCtx err st (co_wf c Hok) Hsr Es).
  apply (clusterOk_step 0 c); [done|apply gentle_refl, Hok|done|apply Hok| | |by left].
  - intros j h Ho. split; [by apply (co_live c Hok j)|]. left. by exists h.
  - intros x Hx. left. rewrite Hs. revert Hx. cbn [clStrays]. rewrite !elem_of_app, elem_of_cons. tauto.
Qed.

(** A call that leaves running rows alone. *)
Lemma unfenced_ok c s' :
  clusterOk c -> gentle (ownedId c) (clStore c) s' ->
  (forall id r, rowAt (clStore c) id = Some r -> State r = StateRunning -> rowAt s' id = Some r) ->
  clusterOk (withStore s' c).
Proof.
  intros Hok Hg Hr. apply withStore_ok; [done|done|]. intros i h Ho.
  pose proof (co_live c Hok i h Ho) as Hl. eapply liveOk_same; [|exact Hl].
  destruct (liveOk_running _ _ _ Hl) as (r & Hx & Hrun). rewrite Hx. by apply Hr.
Qed.

Lemma clusterStep_ok c c' : clusterStep c c' -> clusterOk c -> clusterOk c'.
Proof.
  intros Hs Hok. pose proof (co_wf c Hok) as Hwf. destruct Hs; subst.
  - by apply tick_ok.
  - by apply join_ok.
  - apply leave_ok; [done|by apply gentle_refl| |by left]. intros j h _. apply (co_live c Hok j).
  - by eapply claim_keeps_ok.
  - apply mark_beat_ok; auto.
  - by apply beat_ok.
  - apply mark_beat_ok; auto.
  - by apply (finish_ok c i m h1 h h2).
  - apply drop_ok; [done..|by apply gentle_refl|done].
  - by eapply sweep_ok.
  - by apply (rescue_ok c i m r1 row r2).
  - match goal with He : escalate _ _ _ _ = _ |- _ =>
      pose proof (f_equal fst He) as E; simpl in E; rewrite <- E end. by apply stop_ok.
  - by eapply stray_ok.
  - destruct (insert_law (clNow c) p (clStore c) Hwf) as [Hw Ha].
    apply unfenced_ok; [done | by apply adds_gentle|]. intros id r Hr _. by apply Ha.
  - destruct (insertMany_law (clNow c) ps (clStore c) Hwf) as [Hw Ha].
    apply unfenced_ok; [done | by apply adds_gentle|]. intros id r Hr _. by apply Ha.
  - destruct (cancel_gentle (ownedId c) (clNow c) id (clStore c) Hwf) as [Hg Hr]. by apply unfenced_ok.
  - by apply redrive_ok.
Qed.

(** A cluster starts with no members, over whatever earlier ones left in the store. *)
Definition clusterStart (c : Cluster S) : Prop :=
  drvWf (clStore c) /\ clMembers c = ∅ /\ clStrays c = [].

Lemma clusterStart_ok c : clusterStart c -> clusterOk c.
Proof.
  intros (Hwf & Hm & Hs). assert (forall i h, ~ owns c i h) as Hno.
  { intros i h (m & Hx & _). rewrite Hm, lookup_empty in Hx. done. }
  split; [done|..].
  - intros i m Hx. rewrite Hm, lookup_empty in Hx. done.
  - intros i j h h' Ho. by apply Hno in Ho.
  - intros i h Ho. by apply Hno in Ho.
  - intros row Hr. rewrite Hs in Hr. by apply not_elem_of_nil in Hr.
  - intros row (i & m & Hx & _). rewrite Hm, lookup_empty in Hx. done.
Qed.

Lemma cluster_reachable_ok c0 c : clusterStart c0 -> rtc clusterStep c0 c -> clusterOk c.
Proof.
  intros Hstart%clusterStart_ok Hr. induction Hr as [|c0 c1 c2 Hs _ IH]; [done|]. apply IH. by eapply clusterStep_ok.
Qed.

(** Two jobs of one member with the same id are the same. *)
Lemma held_inj m h h' :
  memberOk m -> h ∈ mHeld m -> h' ∈ mHeld m -> ID (hRow h) = ID (hRow h') -> h = h'.
Proof.
  intros [Hnd _ _] (a & Ha)%list_elem_of_lookup (b & Hb)%list_elem_of_lookup E.
  assert (a = b) as ->; [|congruence]. apply (proj1 (NoDup_alt _) Hnd a b (ID (hRow h)));
    rewrite list_lookup_fmap; [by rewrite Ha | by rewrite Hb, E].
Qed.
End Cluster.

(** ** Properties *)

(** The outcome [err] of the job [h], reported by member [i], settles it in the store. *)
Definition outcomeLands {S} `{Driver S} (cfg : nat -> Client) (c : Cluster S) (i : nat) (h : Held) : Prop :=
  forall k tick jobCtx err st, cStore st = clStore c -> jsonYearOk (tick 0%nat) = true ->
    tick 3%nat < tick 4%nat + leaseDuration (cfg i) ->
    exists r, leaseHeld (clStore c) (leaseOf (hRow h)) r /\
      onlyRow (clStore c) (cStore (finishJob (cfg i) k tick jobCtx (hRow h) err st)) (ID (hRow h))
        (fate S (retryPolicy (cfg i)) k tick (hRow h) err r).

(** C1: no job runs twice.  Over one store that keeps its contract the members of a cluster
    join, crash (by stopping at once), claim, beat, finish, lose writes, sweep and shut down without
    waiting, in any order and with any lease durations; producers insert and operators
    cancel and redrive.  Four things are assumed: a job that a living member holds is renewed
    at most [gap] after its claim or its last renewal, and [gap] is shorter than every lease by more than the
    clock's resolution; a job is redriven only when no rescuer has it in its batch and no handler
    that a shutdown left behind has a lease of it; the writes by which a shutdown hands its jobs back
    land; and attempt numbers fit in 32 bits.  Then a job is held by at most one living member, and by it once; its lease
    lasts beyond the present, so no sweep takes it over; the outcome its holder reports settles
    it and touches nothing else; and the handlers that a shutdown left behind cannot change the
    store at all. *)
Theorem no_job_runs_twice {S} `{ProducerLaws S} cfg gap shortest (c0 c : Cluster S) :
  (forall i, shortest <= leaseDuration (cfg i) <= 365 * 24 * Hour) ->
  0 <= gap /\ gap + 2 * drvTick < shortest ->
  clusterStart c0 -> rtc (clusterStep cfg gap) c0 c ->
  (forall i j h h', owns c i h -> owns c j h' -> ID (hRow h) = ID (hRow h') -> i = j /\ h = h') /\
  (forall i h, owns c i h -> outcomeLands cfg c i h /\ exists r t,
     leaseHeld (clStore c) (leaseOf (hRow h)) r /\ LeasedUntil r = Some t /\ clNow c < t) /\
  (forall row client k tick jobCtx err st, row ∈ clStrays c -> cStore st = clStore c ->
     cStore (finishJob client k tick jobCtx row err st) = clStore c).
Proof.
  intros Hl Hg Hstart Hr. pose proof (cluster_reachable_ok cfg gap shortest Hl Hg c0 c Hstart Hr) as Hok. split_all.
  - intros i j h h' Ho Ho' E. pose proof (co_alone _ _ _ Hok i j h h' Ho Ho' E) as <-. split; [done|].
    destruct Ho as (m & Hm & Hh), Ho' as (m' & Hm' & Hh'). rewrite Hm in Hm'. injection Hm' as <-.
    eapply held_inj; [by eapply co_members | done..].
  - intros i h Ho. destruct (co_live _ _ _ Hok i h Ho) as (_ & Hn & r & t & Hh & Ht & Hle). split.
    + intros k tick jobCtx err st Es Hy Hc. exists r. split; [done|].
      destruct (finishJob_settles (cfg i) k tick jobCtx (hRow h) err st) as ([Hs _] & _);
        [rewrite Es; apply Hok | done | done|]. rewrite Es in Hs. by apply Hs.
    + exists r, t. split_all; [done|done|lia].
  - intros row client k tick jobCtx err st Hin Es. apply stray_refused; [apply Hok | by apply Hok | done].
Qed.

(** ** Witnesses *)

(** The check of [cl_tick] by computation. *)
Lemma inTime_check {S} (c : Cluster S) (t gap : Z) :
  bool_decide (map_Forall (fun (_ : nat) m => Forall (fun h => t <= hBase h + gap) (mHeld m)) (clMembers c))
    = true ->
  forall i h, owns c i h -> t <= hBase h + gap.
Proof.
  intros Hc%bool_decide_eq_true i h (m & Hm & Hh). specialize (Hc i m Hm). simpl in Hc.
  rewrite Forall_forall in Hc. by apply Hc.
Qed.

(** Two members; the first claims a job, beats after 30 seconds, and goes on past the end of the
    lease it claimed under; the second sweeps; the first shuts down without waiting, and the
    second claims the job while the handler of the first still runs. *)
Definition demoView (i : nat) (c : Cluster MemDriver) : ClientState MemDriver :=
  MkState (clStore c) (from_option mInflight ∅ (clMembers c !! i)) false
    (MkEnv (MkWorld 0 []) (newCollectors 2) ∅).

Definition demoMember (i : nat) (c : Cluster MemDriver) : Member :=
  default newMember (clMembers c !! i).

Definition demoStart : Cluster MemDriver := MkCluster New 1000 ∅ [].
Definition demoInserted : Cluster MemDriver :=
  withStore (drvInsert 1000 (demoParams "a") (clStore demoStart)).1 demoStart.
Definition demoJoined : Cluster MemDriver :=
  let c := act 1 (clStore demoInserted) newMember demoInserted in act 2 (clStore c) newMember c.

Definition demoClaim : ClientState MemDriver * res error (list JobRow) :=
  claimQueue demoClient Background poolTick 1000 "default" 2 (demoView 1 demoJoined).
Definition demoRows : list JobRow := match demoClaim.2 with Ok rows => rows | Err _ => [] end.

Definition demoClaimed : Cluster MemDriver :=
  act 1 (cStore demoClaim.1) (MkMember (cInflight demoClaim.1) ([] ++ heldNow 1000 demoRows) None []) demoJoined.

Definition demoLater (t : Time) (c : Cluster MemDriver) : Cluster MemDriver :=
  MkCluster (clStore c) t (clMembers c) (clStrays c).

Definition demoSnapped : Cluster MemDriver :=
  let c := demoLater (1000 + 30 * Second) demoClaimed in let m := demoMember 1 c in
  act 1 (clStore c) (MkMember (mInflight m) (mHeld m) (Some (snapshot (mInflight m))) (mSweep m)) c.

Definition demoBeaten : Cluster MemDriver :=
  let m := demoMember 1 demoSnapped in let ls := snapshot (mInflight m) in
  act 1 (drvExtendLeases (clNow demoSnapped) ls Minute (clStore demoSnapped)).1
    (MkMember (mInflight m) (beaten (clNow demoSnapped) ls <$> mHeld m) None (mSweep m)) demoSnapped.

Definition demoSwept : Cluster MemDriver :=
  let c := demoLater (1000 + 65 * Second) demoBeaten in let m := demoMember 2 c in
  act 2 (drvFetchExpired (clNow c) Minute rescueBatch (clStore c)).1
    (MkMember (mInflight m) (mHeld m) (mBeat m) (mSweep m ++ [])) c.

Lemma demoClaimed_reachable : rtc (clusterStep (fun _ => demoClient) (40 * Second)) demoStart demoClaimed.
Proof.
  eapply rtc_l; [apply (cl_insert _ _ demoStart (demoParams "a"))|].
  eapply rtc_l; [apply (cl_join _ _ demoInserted 1); by vm_compute|].
  eapply rtc_l; [apply (cl_join _ _ (act 1 (clStore demoInserted) newMember demoInserted) 2); by vm_compute|].
  eapply rtc_l; [|apply rtc_refl].
  apply (cl_claim _ _ demoJoined 1 newMember "default" 2 Background poolTick
    (demoView 1 demoJoined) demoClaim.1 demoRows); [by vm_compute | by split; vm_compute | by vm_compute|].
  apply Forall_forall. intros r Hr. vm_compute in Hr. apply list_elem_of_singleton in Hr as ->.
  by vm_compute.
Qed.

Lemma demoSwept_reachable : rtc (clusterStep (fun _ => demoClient) (40 * Second)) demoStart demoSwept.
Proof.
  transitivity demoClaimed; [exact demoClaimed_reachable|].
  eapply rtc_l; [apply (cl_tick _ _ demoClaimed (1000 + 30 * Second)); [by vm_compute|]|].
  { apply inTime_check. by vm_compute. }
  eapply rtc_l; [apply (cl_snapshot _ _ (demoLater (1000 + 30 * Second) demoClaimed) 1); by vm_compute|].
  eapply rtc_l; [apply (cl_beat _ _ demoSnapped 1 (demoMember 1 demoSnapped)); by vm_compute|].
  eapply rtc_l; [apply (cl_tick _ _ demoBeaten (1000 + 65 * Second)); [by vm_compute|]|].
  { apply inTime_check. by vm_compute. }
  eapply rtc_l; [|apply rtc_refl].
  apply (cl_sweep _ _ (demoLater (1000 + 65 * Second) demoBeaten) 2 _ rescueBatch); [by vm_compute.. | constructor].
Qed.

Definition demoStopped : Cluster MemDriver :=
  MkCluster (cStore (escalate demoClient Background poolTick (demoView 1 demoSwept)).1) (clNow demoSwept)
    (delete 1%nat (clMembers demoSwept)) (clStrays demoSwept ++ (hRow <$> mHeld (demoMember 1 demoSwept))).

Definition demoReclaim : ClientState MemDriver * res error (list JobRow) :=
  claimQueue demoClient Background poolTick (clNow demoStopped) "default" 2 (demoView 2 demoStopped).
Definition demoTaken : Cluster MemDriver :=
  act 2 (cStore demoReclaim.1)
    (MkMember (cInflight demoReclaim.1)
       ([] ++ heldNow (clNow demoStopped) (match demoReclaim.2 with Ok rows => rows | Err _ => [] end))
       None []) demoStopped.

Lemma demoTaken_reachable : rtc (clusterStep (fun _ => demoClient) (40 * Second)) demoStart demoTaken.
Proof.
  transitivity demoSwept; [exact demoSwept_reachable|].
  eapply rtc_l; [apply (cl_stop _ _ demoSwept 1 (demoMember 1 demoSwept) Background poolTick (demoView 1 demoSwept)
    (escalate demoClient Background poolTick (demoView 1 demoSwept)).1
    (escalate demoClient Background poolTick (demoView 1 demoSwept)).2);
    [by vm_compute | by split; vm_compute | by intros id; vm_compute | by intros id; vm_compute |
     apply surjective_pairing]|].
  eapply rtc_l; [|apply rtc_refl].
  apply (cl_claim _ _ demoStopped 2 (demoMember 2 demoStopped) "default" 2 Background poolTick
    (demoView 2 demoStopped) demoReclaim.1); [by vm_compute | by split; vm_compute | by vm_compute|].
  apply Forall_forall. intros r Hr. vm_compute in Hr. apply list_elem_of_singleton in Hr as ->.
  by vm_compute.
Qed.

Lemma no_job_runs_twice_witness :
  ID <$> (hRow <$> mHeld (demoMember 2 demoTaken)) = [1] /\ leaseOf <$> clStrays demoTaken = [MkLease 1 1] /\
  (forall i j h h', owns demoTaken i h -> owns demoTaken j h' -> ID (hRow h) = ID (hRow h') -> i = j /\ h = h') /\
  (forall row client k tick jobCtx err st, row ∈ clStrays demoTaken -> cStore st = clStore demoTaken ->
     cStore (finishJob client k tick jobCtx row err st) = clStore demoTaken).
Proof.
  split; [by vm_compute|]. split; [by vm_compute|].
  destruct (no_job_runs_twice (fun _ => demoClient) (40 * Second) Minute demoStart demoTaken) as (H1 & _ & H3).
  - intros i. vm_compute. split; discriminate.
  - vm_compute. split; [discriminate | done].
  - split; [apply New_wf | by split].
  - exact demoTaken_reachable.
  - exact (conj H1 H3).
Defined.
