(* ===== verification/Outcomes.v ===== *)
(** * Outcomes: what becomes of an attempt, whatever clocks and networks do

    The methods of internal/driver/driver.go that write, as requests that any number of processes
    send in any order and at any instants: workers whose leases lapsed long ago, rescuers, producers
    and operators.  Nothing is assumed of heartbeats or of who holds what.  A request that gets lost
    is one that is not in the list; one whose answer gets lost is in it, since the answers here are
    what the store decided. *)

From S2P Require Import Prelude GoTime GoError DriverSpec.
From S2P Require Import Producers Cluster Pool Loop.
From S2P Require Import Memdriver MemdriverFacts MemdriverProps.

(** The five Mark methods; a failure is recorded as the fields of its JSON object. *)
Inductive verdict :=
| VCompleted
| VRetryable (at_ : Time) (fields : list (string * json))
| VDead (fields : list (string * json))
| VCancelled (fields : list (string * json))
| VSnoozed (at_ : Time).

Inductive request :=
| QInsert (p : InsertParams)
| QInsertMany (batch : list InsertParams)
| QClaim (queue : string) (leaseFor : Duration) (limit : Z)
| QRescue (leaseFor : Duration) (limit : Z)
| QExtend (leases : list Lease) (leaseFor : Duration)
| QMark (l : Lease) (v : verdict)
| QCancel (id : Z)
| QRedrive (id : Z).

Inductive answer := Applied | Refused (e : error) | Handed (rows : list JobRow).

Definition answered (e : option error) : answer :=
  match e with None => Applied | Some e => Refused e end.

Definition acknowledged {A} (r : res error A) : answer :=
  match r with Ok _ => Applied | Err e => Refused e end.

Definition handed (r : res error (list JobRow)) : answer :=
  match r with Ok rows => Handed rows | Err e => Refused e end.

(** Attempts are numbers the store can hold. *)
Definition requestOk (q : request) : Prop :=
  match q with
  | QMark l _ => int32Attempt (leaseAttempt l)
  | QExtend ls _ => Forall (fun l => int32Attempt (leaseAttempt l)) ls
  | _ => True
  end.

Definition noRedrive (q : request) : Prop := match q with QRedrive _ => False | _ => True end.

Section Requests.
Context {S : Type} `{Laws : ProducerLaws S}.

Definition drvMark (now : Time) (l : Lease) (v : verdict) : S -> S * option error :=
  match v with
  | VCompleted => drvMarkCompleted now l
  | VRetryable at_ fs => drvMarkRetryable now l at_ (Some (Raw (JObject fs)))
  | VDead fs => drvMarkDead now l (Some (Raw (JObject fs)))
  | VCancelled fs => drvMarkCancelled now l (Some (Raw (JObject fs)))
  | VSnoozed at_ => drvMarkSnoozed now l at_
  end.

Definition serve (now : Time) (q : request) (s : S) : S * answer :=
  match q with
  | QInsert p => let '(s', r) := drvInsert now p s in (s', acknowledged r)
  | QInsertMany batch => let '(s', r) := drvInsertMany now batch s in (s', acknowledged r)
  | QClaim queue d limit => let '(s', r) := drvFetchAvailable now queue d limit s in (s', handed r)
  | QRescue d limit => let '(s', r) := drvFetchExpired now d limit s in (s', handed r)
  | QExtend ls d => let '(s', e) := drvExtendLeases now ls d s in (s', answered e)
  | QMark l v => let '(s', e) := drvMark now l v s in (s', answered e)
  | QCancel id => let '(s', r) := drvOperatorCancel now id s in (s', acknowledged r)
  | QRedrive id => let '(s', r) := drvRedriveDead now id s in (s', acknowledged r)
  end.

(** A request, what the store decided, and the store it met and left. *)
Record event := MkEvent { evAsked : request; evAnswer : answer; evBefore : S; evAfter : S }.

Definition eventAt (now : Time) (q : request) (s : S) : event :=
  MkEvent q (serve now q s).2 s (serve now q s).1.

(** What is asked at which instant, one request after the other. *)
Fixpoint history (tr : list (Time * request)) (s : S) : list event :=
  match tr with
  | [] => []
  | (now, q) :: tr => eventAt now q s :: history tr (serve now q s).1
  end.

(** The leases an event hands out. *)
Definition grants (ev : event) : list Lease :=
  match evAnswer ev with Handed rows => leaseOf <$> rows | _ => [] end.

(** The attempt an event ends: a snooze gives its attempt back instead. *)
Definition concluded (ev : event) : option Lease :=
  match evAsked ev, evAnswer ev with
  | QMark _ (VSnoozed _), _ => None
  | QMark l _, Applied => Some l
  | _, _ => None
  end.

(** The event does not hand out the lease, a verdict under it is refused and changes nothing, and a
    heartbeat that holds no other lease of the job does not touch the job. *)
Definition leavesLease (l : Lease) (ev : event) : Prop :=
  (l ∉ grants ev) /\
  (forall v, evAsked ev = QMark l v -> (exists e, evAnswer ev = Refused e) /\ evAfter ev = evBefore ev) /\
  (forall ls d, evAsked ev = QExtend ls d ->
     (forall l', l' ∈ ls -> leaseID l' = leaseID l -> l' = l) ->
     rowAt (evAfter ev) (leaseID l) = rowAt (evBefore ev) (leaseID l)).

(** The event does not hand out the job, a verdict on it is refused, and its row is left as it
    was, whatever was asked. *)
Definition leavesJob (id : Z) (ev : event) : Prop :=
  (forall g, g ∈ grants ev -> leaseID g <> id) /\
  (forall l v, leaseID l = id -> evAsked ev = QMark l v -> exists e, evAnswer ev = Refused e) /\
  rowAt (evAfter ev) id = rowAt (evBefore ev) id.

(** The row a verdict leaves behind. *)
Definition verdictRow (now : Time) (v : verdict) : JobRow -> JobRow :=
  match v with
  | VCompleted => completedRow (drvTime S now)
  | VRetryable at_ fs => retryRow (drvTime S at_) (drvDoc S (JObject fs))
  | VDead fs => finalizedRow StateDead (drvTime S now) (drvDoc S (JObject fs))
  | VCancelled fs => finalizedRow StateCancelled (drvTime S now) (drvDoc S (JObject fs))
  | VSnoozed at_ => snoozedRow (drvTime S at_)
  end.

Lemma drvMark_law now l v s :
  drvWf s -> markSpec (verdictRow now v) l s (drvMark now l v s) /\ drvWf (drvMark now l v s).1.
Proof.
  intros Hwf. destruct v; simpl; split; first
    [ by apply markCompleted_law | by apply markRetryable_law | by apply markDead_law
    | by apply markCancelled_law | by apply markSnoozed_law | by apply markCompleted_wf
    | by apply markRetryable_wf | by apply markDead_wf | by apply markCancelled_wf
    | by apply markSnoozed_wf ].
Qed.

(** What a request may do to a row. *)
Inductive moves (now : Time) (q : request) (r r' : JobRow) : Prop :=
| mv_same : r' = r -> moves now q r r'
| mv_claim t d : waitingState (State r) -> r' = claimedRow t d r -> moves now q r r'
| mv_lease t : State r = StateRunning -> r' = setLeasedUntil t r -> moves now q r r'
| mv_mark l v : q = QMark l v -> State r = StateRunning -> r' = verdictRow now v r -> moves now q r r'
| mv_cancel : waitingState (State r) \/ State r = StateDead -> cancelledBy r r' -> moves now q r r'
| mv_redrive id : q = QRedrive id -> State r = StateDead -> moves now q r r'.

Lemma adds_moves now q s s' : onlyAdds s s' ->
  forall id r, rowAt s id = Some r -> exists r', rowAt s' id = Some r' /\ moves now q r r'.
Proof. intros [Ha _] id r Hr. exists r. split; [auto | by apply mv_same]. Qed.

Lemma mayMove_moves now q ok chg i s s' : mayMove ok chg i s s' ->
  (forall r r', ok (State r) -> chg r r' -> moves now q r r') ->
  forall id r, rowAt s id = Some r -> exists r', rowAt s' id = Some r' /\ moves now q r r'.
Proof.
  intros [Hs|(r0 & r1 & Hr0 & Hok & Hc & Hat & Hoth)] Hm id r Hr.
  - exists r. split; [by rewrite Hs | by apply mv_same].
  - destruct (decide (id = i)) as [->|Hne].
    + rewrite Hr in Hr0. injection Hr0 as <-. eauto.
    + exists r. split; [by rewrite Hoth | by apply mv_same].
Qed.

Lemma mark_moves now l v s : drvWf s -> int32Attempt (leaseAttempt l) ->
  forall id r, rowAt s id = Some r ->
  exists r', rowAt (drvMark now l v s).1 id = Some r' /\ moves now (QMark l v) r r'.
Proof.
  intros Hwf Hi id r Hr. destruct (drvMark_law now l v s Hwf) as [[Hh Hn] _].
  destruct (leaseHeld_dec s l) as [[r0 Hheld]|Hno].
  - destruct (Hh r0 Hheld) as (_ & Hat & Hoth). destruct Hheld as (Hr0 & Hs & _).
    destruct (decide (id = leaseID l)) as [->|Hne].
    + rewrite Hr in Hr0. injection Hr0 as <-. eauto using mv_mark.
    + exists r. split; [by rewrite Hoth | by apply mv_same].
  - destruct (Hn Hno Hi) as [-> _]. exists r. split; [done | by apply mv_same].
Qed.

Lemma claim_moves now q d limit s : drvWf s ->
  let s' := (drvFetchAvailable now q d limit s).1 in
  drvWf s' /\ forall id r, rowAt s id = Some r ->
    exists r', rowAt s' id = Some r' /\ moves now (QClaim q d limit) r r'.
Proof.
  intros Hwf s'. unfold s'. destruct (drvFetchAvailable now q d limit s) as [s1 [rows|e]] eqn:E; simpl.
  - destruct (fetchAvailable_law _ _ _ _ _ _ _ Hwf E) as (Hwf' & _ & _ & Hin & Hout).
    split; [done|]. intros id r Hr. destruct (decide (id ∈ ID <$> rows)) as [Hid|Hid].
    + apply list_elem_of_fmap in Hid as (x & -> & Hx).
      destruct (Hin x Hx) as (Hat & r0 & Hr0 & (Hw & _) & Heq). rewrite Hr in Hr0. injection Hr0 as <-.
      exists x. split; [done|]. by eapply mv_claim.
    + exists r. split; [by rewrite Hout | by apply mv_same].
  - pose proof (fetchAvailable_err _ _ _ _ _ _ _ Hwf E) as ->. split; [done|].
    intros id r Hr. exists r. split; [done | by apply mv_same].
Qed.

Lemma rescue_moves now d limit s : drvWf s ->
  let s' := (drvFetchExpired now d limit s).1 in
  drvWf s' /\ forall id r, rowAt s id = Some r ->
    exists r', rowAt s' id = Some r' /\ moves now (QRescue d limit) r r'.
Proof.
  intros Hwf s'. unfold s'. destruct (drvFetchExpired now d limit s) as [s1 [rows|e]] eqn:E; simpl.
  - destruct (fetchExpired_law _ _ _ _ _ _ Hwf E) as (Hwf' & _ & Hin & Hout).
    split; [done|]. intros id r Hr. destruct (decide (id ∈ ID <$> rows)) as [Hid|Hid].
    + apply list_elem_of_fmap in Hid as (x & -> & Hx).
      destruct (Hin x Hx) as (Hat & _ & _ & r0 & t & Hr0 & Hs & _ & _ & Heq).
      rewrite Hr in Hr0. injection Hr0 as <-. exists x. split; [done|]. by eapply mv_lease.
    + exists r. split; [by rewrite Hout | by apply mv_same].
  - pose proof (fetchExpired_err _ _ _ _ _ _ Hwf E) as ->. split; [done|].
    intros id r Hr. exists r. split; [done | by apply mv_same].
Qed.

Lemma extend_moves now ls d s : drvWf s -> Forall (fun l => int32Attempt (leaseAttempt l)) ls ->
  let s' := (drvExtendLeases now ls d s).1 in
  drvWf s' /\ forall id r, rowAt s id = Some r ->
    exists r', rowAt s' id = Some r' /\ moves now (QExtend ls d) r r'.
Proof.
  intros Hwf Hls s'. destruct (extendLeases_law now ls d s Hwf Hls) as [Hwf' Hrows]. split; [done|].
  intros id r Hr. unfold s'. destruct (drvExtendLeases now ls d s) as [s1 [e|]] eqn:E; simpl in *.
  - pose proof (extendLeases_err _ _ _ _ _ _ E) as ->. exists r. split; [done | by apply mv_same].
  - rewrite Hrows, Hr by done. eexists. split; [reflexivity|]. unfold renewedBy.
    case_decide as Hd; [destruct Hd; by eapply mv_lease | by apply mv_same].
Qed.

(** Every request keeps the store well formed, and no row ever vanishes. *)
Lemma serve_moves now q s : drvWf s -> requestOk q ->
  let s' := (serve now q s).1 in
  drvWf s' /\ forall id r, rowAt s id = Some r ->
    exists r', rowAt s' id = Some r' /\ moves now q r r'.
Proof.
  intros Hwf Hq s'. unfold s'. destruct q as [p|b|q d n|d n|ls d|l v|i|i]; simpl.
  - destruct (insert_law now p s Hwf) as [Hw Ha]. destruct (drvInsert _ _ _). split; [done|].
    by apply adds_moves.
  - destruct (insertMany_law now b s Hwf) as [Hw Ha]. destruct (drvInsertMany _ _ _). split; [done|].
    by apply adds_moves.
  - pose proof (claim_moves now q d n s Hwf). by destruct (drvFetchAvailable _ _ _ _ _).
  - pose proof (rescue_moves now d n s Hwf). by destruct (drvFetchExpired _ _ _ _).
  - pose proof (extend_moves now ls d s Hwf Hq). by destruct (drvExtendLeases _ _ _ _).
  - destruct (drvMark_law now l v s Hwf) as [_ Hw]. pose proof (mark_moves now l v s Hwf Hq) as Hm.
    by destruct (drvMark _ _ _ _).
  - destruct (operatorCancel_law now i s Hwf) as [Hw Hm]. destruct (drvOperatorCancel _ _ _) as [s1 res].
    split; [done|]. eapply mayMove_moves; [exact Hm|]. intros. by apply mv_cancel.
  - destruct (redriveDead_law now i s Hwf) as [Hw Hm]. destruct (drvRedriveDead _ _ _) as [s1 res].
    split; [done|]. eapply mayMove_moves; [exact Hm|]. intros r r' Hd _. by eapply mv_redrive.
Qed.

(** ** An attempt that is over *)

(** The attempt of [l] is over: the job is past it. *)
Definition past (s : S) (l : Lease) : Prop :=
  exists r, rowAt s (leaseID l) = Some r /\ leaseAttempt l <= floor r.

Definition isCompleted (s : S) (id : Z) : Prop :=
  exists r, rowAt s id = Some r /\ State r = StateCompleted.

Lemma floor_running r : State r = StateRunning -> floor r = Attempt r - 1.
Proof. intros Hs. unfold floor. by rewrite decide_True. Qed.

Lemma floor_settled r : State r <> StateRunning -> floor r = Attempt r.
Proof. intros Hs. unfold floor. by rewrite decide_False. Qed.

Lemma appendDetail_attempt j r : Attempt (appendDetail j r) = Attempt r.
Proof. unfold appendDetail. by repeat casematch. Qed.

(** Every verdict but a snooze ends the attempt; a snooze leaves it free to be taken again. *)
Lemma verdict_floor now v r : State r = StateRunning ->
  floor r <= floor (verdictRow now v r) /\
  ((forall at_, v <> VSnoozed at_) -> floor (verdictRow now v r) = Attempt r).
Proof.
  intros Hs. rewrite (floor_running r Hs).
  destruct v; rewrite floor_settled by done; simpl; rewrite ?appendDetail_attempt; split; try lia; try done.
  intros Hv. by destruct (Hv at_).
Qed.

Lemma waiting_settled st : waitingState st -> st <> StateRunning /\ st <> StateCompleted.
Proof. intros [->|[->| ->]]; done. Qed.

(** Without redrives the number of attempts that are over never falls. *)
Lemma moves_floor now q r r' : noRedrive q -> moves now q r r' -> floor r <= floor r'.
Proof.
  intros Hq [->|t d Hw ->|t Hs ->|l v _ Hs ->|Hw [Hs Ha]|id -> _]; [done | | | | |done].
  - by rewrite floor_claimed.
  - done.
  - by apply verdict_floor.
  - pose proof (floor_le r). rewrite (floor_settled r') by congruence. lia.
Qed.

Lemma moves_completed now q r r' : State r = StateCompleted -> moves now q r r' -> r' = r.
Proof.
  intros E [->|t d Hw ->|t Hs ->|l v _ Hs ->|[Hw|Hw] _|id _ Hs]; try congruence;
    by destruct (waiting_settled _ Hw).
Qed.

Lemma past_lost s l r : past s l -> ~ leaseHeld s l r.
Proof.
  intros (r0 & Hr & Hle) (Hr' & Hs & Ha). rewrite Hr in Hr'. injection Hr' as ->.
  rewrite floor_running in Hle by done. lia.
Qed.

Lemma completed_lost s l r : isCompleted s (leaseID l) -> ~ leaseHeld s l r.
Proof. intros (r0 & Hr & Hc) (Hr' & Hs & _). congruence. Qed.

Lemma lost_refused now l v s :
  drvWf s -> int32Attempt (leaseAttempt l) -> (forall r, ~ leaseHeld s l r) ->
  (exists e, (serve now (QMark l v) s).2 = Refused e) /\ (serve now (QMark l v) s).1 = s.
Proof.
  intros Hwf Hi Hno. destruct (drvMark_law now l v s Hwf) as [[_ Hn] _].
  destruct (Hn Hno Hi) as (Hs & e & He & _). simpl. destruct (drvMark now l v s) as [s' x].
  simpl in *. rewrite He. split; [by exists e | done].
Qed.

(** A heartbeat renews no attempt that is over. *)
Lemma past_not_renewed now ls d s l :
  drvWf s -> Forall (fun l => int32Attempt (leaseAttempt l)) ls -> past s l ->
  (forall l', l' ∈ ls -> leaseID l' = leaseID l -> l' = l) ->
  rowAt (serve now (QExtend ls d) s).1 (leaseID l) = rowAt s (leaseID l).
Proof.
  intros Hwf Hls (r & Hr & Hle) Honly. destruct (extendLeases_law now ls d s Hwf Hls) as [_ Hrows]. simpl.
  destruct (drvExtendLeases now ls d s) as [s1 [e|]] eqn:E; simpl in *;
    [by pose proof (extendLeases_err _ _ _ _ _ _ E) as ->|].
  rewrite Hrows, Hr by done. simpl. f_equal. unfold renewedBy. case_decide as Hd; [|done]. exfalso.
  destruct Hd as [Hs Hin]. pose proof (rowAt_id _ _ _ Hwf Hr) as Hid.
  pose proof (Honly _ Hin Hid) as Hl. rewrite floor_running, <- Hl in Hle by done. simpl in Hle. lia.
Qed.

(** A lease that is handed out names the attempt after those that are over, of a job that is not
    completed. *)
Lemma grant_fresh now q s g : drvWf s -> requestOk q -> g ∈ grants (eventAt now q s) ->
  exists r, rowAt s (leaseID g) = Some r /\ leaseAttempt g = floor r + 1 /\ State r <> StateCompleted.
Proof.
  intros Hwf Hq Hg. unfold grants, eventAt in Hg. destruct q as [p|b|q d n|d n|ls d|l v|i|i]; simpl in Hg.
  - destruct (drvInsert _ _ _) as [? []]; by apply not_elem_of_nil in Hg.
  - destruct (drvInsertMany _ _ _) as [? []]; by apply not_elem_of_nil in Hg.
  - destruct (drvFetchAvailable _ _ _ _ _) as [s' [rows|e]] eqn:E; [|by apply not_elem_of_nil in Hg].
    destruct (fetchAvailable_law _ _ _ _ _ _ _ Hwf E) as (_ & _ & _ & Hin & _).
    apply list_elem_of_fmap in Hg as (x & -> & Hx).
    destruct (Hin x Hx) as (_ & r0 & Hr0 & (Hw & _) & ->). destruct (waiting_settled _ Hw).
    exists r0. split_all; [done | by rewrite floor_settled | done].
  - destruct (drvFetchExpired _ _ _ _) as [s' [rows|e]] eqn:E; [|by apply not_elem_of_nil in Hg].
    destruct (fetchExpired_law _ _ _ _ _ _ Hwf E) as (_ & _ & Hin & _).
    apply list_elem_of_fmap in Hg as (x & -> & Hx).
    destruct (Hin x Hx) as (_ & _ & _ & r0 & t & Hr0 & Hs & _ & _ & ->).
    exists r0. split_all; [done | rewrite floor_running by done; simpl; lia | congruence].
  - destruct (drvExtendLeases _ _ _ _) as [? []]; by apply not_elem_of_nil in Hg.
  - destruct (drvMark _ _ _ _) as [? []]; by apply not_elem_of_nil in Hg.
  - destruct (drvOperatorCancel _ _ _) as [? []]; by apply not_elem_of_nil in Hg.
  - destruct (drvRedriveDead _ _ _) as [? []]; by apply not_elem_of_nil in Hg.
Qed.

(** A verdict that was applied ends the attempt it was given under, which was not over. *)
Lemma applied_concludes now l v s : drvWf s -> int32Attempt (leaseAttempt l) ->
  (serve now (QMark l v) s).2 = Applied ->
  exists r, leaseHeld s l r /\
    rowAt (serve now (QMark l v) s).1 (leaseID l) = Some (verdictRow now v r).
Proof.
  intros Hwf Hi Ha. destruct (drvMark_law now l v s Hwf) as [[Hh Hn] _].
  destruct (leaseHeld_dec s l) as [[r Hr]|Hno].
  - exists r. split; [done|]. destruct (Hh r Hr) as (_ & Hat & _). simpl. by destruct (drvMark _ _ _ _).
  - destruct (lost_refused now l v s Hwf Hi Hno) as [[e He] _]. congruence.
Qed.

(** ** Histories *)

(** What holds of every event, because an invariant of the store says so. *)
Lemma history_all (ok : request -> Prop) (I : S -> Prop) (Q : event -> Prop) :
  (forall now q s, ok q -> I s -> Q (eventAt now q s) /\ I (serve now q s).1) ->
  forall tr s, Forall (fun x => ok x.2) tr -> I s -> Forall Q (history tr s).
Proof.
  intros Hstep tr. induction tr as [|[now q] tr IH]; intros s Hok Hs; [constructor|].
  inversion Hok as [|? ? Hq Htr]; subst. destruct (Hstep now q s Hq Hs) as [HQ HI].
  constructor; [done | by apply IH].
Qed.

(** An event and what follows it: the store it met, and the rest of the requests. *)
Lemma history_split tr s h1 ev h2 :
  drvWf s -> Forall (fun x => requestOk x.2) tr -> history tr s = h1 ++ ev :: h2 ->
  exists now s1 tr2, drvWf s1 /\ requestOk (evAsked ev) /\ ev = eventAt now (evAsked ev) s1 /\
    h2 = history tr2 (evAfter ev) /\ (forall x, x ∈ tr2 -> x ∈ tr).
Proof.
  revert s h1. induction tr as [|[now q] tr IH]; intros s h1 Hwf Hok Hh; [by destruct h1|].
  inversion Hok as [|? ? Hq Htr]; subst. destruct (serve_moves now q s Hwf Hq) as [Hwf' _].
  destruct h1 as [|e1 h1].
  - injection Hh as <- <-. exists now, s, tr. split_all; [done..|].
    intros x Hx. by apply elem_of_cons; right.
  - injection Hh as _ Hh. destruct (IH _ h1 Hwf' Htr Hh) as (n & s1 & tr2 & ? & ? & ? & ? & Hin).
    exists n, s1, tr2. split_all; [done..|]. intros x Hx. apply elem_of_cons. right. by apply Hin.
Qed.

Lemma past_refuses l tr s :
  drvWf s -> past s l -> Forall (fun x => requestOk x.2 /\ noRedrive x.2) tr ->
  Forall (leavesLease l) (history tr s).
Proof.
  intros Hwf Hp Htr. eapply (history_all (fun q => requestOk q /\ noRedrive q)
    (fun s => drvWf s /\ past s l)); [|exact Htr | by split].
  clear -Laws. intros now q s [Hq Hnr] [Hwf (r & Hr & Hle)]. destruct (serve_moves now q s Hwf Hq) as [Hwf' Hm].
  split; [split; [|split]|split; [done|]].
  - intros Hg. destruct (grant_fresh now q s l Hwf Hq Hg) as (r0 & Hr0 & Ha & _).
    rewrite Hr in Hr0. injection Hr0 as <-. lia.
  - simpl. intros v ->. apply lost_refused; [done..|]. intros r0. apply past_lost. by exists r.
  - simpl. intros ls d ->. apply past_not_renewed; [done..|]. by exists r.
  - destruct (Hm _ _ Hr) as (r' & Hr' & Hmv). exists r'. split; [done|].
    pose proof (moves_floor _ _ _ _ Hnr Hmv). lia.
Qed.

Lemma completed_refuses id tr s :
  drvWf s -> isCompleted s id -> Forall (fun x => requestOk x.2) tr ->
  Forall (leavesJob id) (history tr s).
Proof.
  intros Hwf Hp Htr. eapply (history_all requestOk (fun s => drvWf s /\ isCompleted s id)); [|exact Htr | by split].
  clear -Laws. intros now q s Hq [Hwf (r & Hr & Hc)]. destruct (serve_moves now q s Hwf Hq) as [Hwf' Hm].
  destruct (Hm _ _ Hr) as (r' & Hr' & Hmv). rewrite (moves_completed _ _ _ _ Hc Hmv) in Hr'.
  split; [split; [|split]|split; [done|]].
  - intros g Hg <-. destruct (grant_fresh now q s g Hwf Hq Hg) as (r0 & Hr0 & _ & Hn). congruence.
  - simpl. intros l v <- ->. apply lost_refused; [done..|]. intros r0. apply completed_lost. by exists r.
  - simpl. congruence.
  - by exists r.
Qed.

Lemma concluded_inv ev l : concluded ev = Some l ->
  exists v, evAsked ev = QMark l v /\ evAnswer ev = Applied /\ forall at_, v <> VSnoozed at_.
Proof.
  destruct ev as [q a b b']. unfold concluded. simpl.
  destruct q as [| | | | |l' v| |]; try done. destruct v, a; try done; intros [= ->]; eauto.
Qed.

Lemma leavesLease_concluded l ev : leavesLease l ev -> concluded ev <> Some l.
Proof.
  intros (_ & Hr & _) Hc. destruct (concluded_inv ev l Hc) as (v & Hq & Ha & _).
  destruct (Hr v Hq) as [[e He] _]. congruence.
Qed.

(** An event that applies a verdict: the store it met, and the rest of the requests. *)
Lemma history_applied tr s h1 ev l v h2 :
  drvWf s -> Forall (fun x => requestOk x.2) tr -> history tr s = h1 ++ ev :: h2 ->
  evAsked ev = QMark l v -> evAnswer ev = Applied ->
  exists now r tr2, drvWf (evAfter ev) /\ State r = StateRunning /\ Attempt r = leaseAttempt l /\
    rowAt (evAfter ev) (leaseID l) = Some (verdictRow now v r) /\
    h2 = history tr2 (evAfter ev) /\ (forall x, x ∈ tr2 -> x ∈ tr).
Proof.
  intros Hwf Hok Hh Hq Ha.
  destruct (history_split tr s h1 _ h2 Hwf Hok Hh) as (now & s1 & tr2 & Hwf1 & Hrq & Hev & Hh2 & Hin).
  rewrite Hq in Hrq, Hev. rewrite Hev in Ha.
  destruct (applied_concludes now l v s1 Hwf1 Hrq Ha) as (r & (_ & Hs & Hatt) & Hat).
  exists now, r, tr2. split_all; [|done|done| |done|done]; rewrite Hev; [|done].
  by apply (serve_moves now (QMark l v)).
Qed.

Lemma conclusion_final tr s h1 ev l h2 :
  drvWf s -> Forall (fun x => requestOk x.2) tr -> Forall (fun x => noRedrive x.2) tr ->
  history tr s = h1 ++ ev :: h2 -> concluded ev = Some l -> Forall (leavesLease l) h2.
Proof.
  intros Hwf Hok Hnr Hh Hc. destruct (concluded_inv ev l Hc) as (v & Hq & Ha & Hv).
  destruct (history_applied tr s h1 ev l v h2 Hwf Hok Hh Hq Ha)
    as (now & r & tr2 & Hwf' & Hs & Hatt & Hat & -> & Hin).
  apply past_refuses; [done | |].
  - eexists. split; [exact Hat|]. by rewrite (proj2 (verdict_floor now v r Hs) Hv), Hatt.
  - apply Forall_forall. rewrite Forall_forall in Hok, Hnr. auto.
Qed.

Lemma conclusions_distinct (h : list event) :
  (forall h1 ev l h2, h = h1 ++ ev :: h2 -> concluded ev = Some l -> Forall (leavesLease l) h2) ->
  NoDup (omap concluded h).
Proof.
  induction h as [|ev h IH]; intros Hf; simpl; [constructor|].
  assert (NoDup (omap concluded h)) as Hh.
  { apply IH. intros h1 e l h2 ->. by apply (Hf (ev :: h1)). }
  destruct (concluded ev) as [l|] eqn:E; [|done]. constructor; [|done].
  intros (e & He & Hc)%list_elem_of_omap. pose proof (Hf [] ev l h eq_refl E) as Hl.
  rewrite Forall_forall in Hl. by apply (leavesLease_concluded l e (Hl e He)).
Qed.
End Requests.

(** ** Properties *)

(** C7: one outcome per attempt, and completion for good.  Whatever workers, rescuers, producers
    and operators ask of a store that keeps its contract, in whatever order, at whatever instants
    and under whatever leases, their own, lapsed or made up, redrives included: once a job is completed no event
    hands it to anyone, every verdict on it is refused, and its row is never changed again, by an operator or a
    heartbeat either.  Without redrives an attempt is ended at most once, by a completion, a retry, a
    death or a cancellation; and once it is ended its lease is never handed out again, every
    verdict under it is refused and changes nothing, and a heartbeat does not renew it. *)
Theorem one_outcome_per_attempt {S} `{ProducerLaws S} (s : S) tr :
  drvWf s -> Forall (fun x => requestOk x.2) tr ->
  (forall h1 ev l h2, history tr s = h1 ++ ev :: h2 ->
     evAsked ev = QMark l VCompleted -> evAnswer ev = Applied ->
     (exists r, rowAt (evAfter ev) (leaseID l) = Some r /\ State r = StateCompleted) /\
     Forall (leavesJob (leaseID l)) h2) /\
  (Forall (fun x => noRedrive x.2) tr ->
     NoDup (omap concluded (history tr s)) /\
     forall h1 ev l h2, history tr s = h1 ++ ev :: h2 -> concluded ev = Some l ->
       Forall (leavesLease l) h2).
Proof.
  intros Hwf Hok. split.
  - intros h1 ev l h2 Hh Hq Ha.
    destruct (history_applied tr s h1 ev l _ h2 Hwf Hok Hh Hq Ha)
      as (now & r & tr2 & Hwf' & _ & _ & Hat & -> & Hin).
    split; [by eexists|]. apply completed_refuses; [done | by eexists|].
    apply Forall_forall. rewrite Forall_forall in Hok. auto.
  - intros Hnr. split; [apply conclusions_distinct|]; intros h1 ev l h2; by apply conclusion_final.
Qed.

(** A worker outlives its lease: a rescuer gives its job to the queue, another worker claims and
    completes it; the first worker's report comes too late, and so do a second rescue and a redrive. *)
Definition lateTrace : list (Time * request) :=
  [(1000, QInsert {| ipKind := "mail"; ipQueue := "default"; ipArgs := "{}"; ipScheduledAt := zeroTime;
                     ipUniqueKey := "" |});
   (2000, QClaim "default" Minute 10);
   (2000 + Minute, QRescue Minute 100);
   (2000 + Minute, QMark (MkLease 1 1) (VRetryable (3000 + Minute) []));
   (4000 + Minute, QClaim "default" Minute 10);
   (5000 + Minute, QMark (MkLease 1 1) VCompleted);
   (6000 + Minute, QMark (MkLease 1 2) VCompleted);
   (7000 + Minute, QRescue Minute 100);
   (8000 + Minute, QRedrive 1)].

Lemma one_outcome_per_attempt_witness :
  omap concluded (history lateTrace New) = [MkLease 1 1; MkLease 1 2] /\
  (exists h1 e h2, (evAsked <$> history lateTrace New, evAnswer <$> history lateTrace New) =
     (h1.1 ++ QMark (MkLease 1 1) VCompleted :: QMark (MkLease 1 2) VCompleted :: h2.1,
      h1.2 ++ Refused e :: Applied :: h2.2) /\ length h1.1 = length h1.2) /\
  Forall (leavesJob 1) (drop 7 (history lateTrace New)).
Proof.
  split; [vm_compute; reflexivity|].
  split; [exists (take 5 (evAsked <$> history lateTrace New), take 5 (evAnswer <$> history lateTrace New));
          eexists _, (_, _); split; vm_compute; reflexivity|].
  refine (proj2 (proj1 (one_outcome_per_attempt New lateTrace New_wf _) (take 6 (history lateTrace New))
            _ (MkLease 1 2) _ _ _ _)).
  - repeat constructor; vm_compute; discriminate.
  - vm_compute. reflexivity.
  - reflexivity.
  - reflexivity.
Defined.
