(* ===== verification/Attempts.v ===== *)
(** * Attempts: the life of one job, from its first claim to its last

    The composition of pool.go ([claimRound]'s queue step), loop.go ([runJob]'s end, [dispose]) and
    rescue.go over the life of a single job: it is claimed, its handler fails or asks to be called
    back or its worker dies, and it is claimed again, by any client and at any time, while everything
    else in the store moves as it likes. *)

From S2P Require Import Prelude GoTime GoError GoRuntime DriverSpec Metrics Middleware Inflight.
From S2P Require Import Retry Enqueue Client Queues Loop Pool Producers Cluster.
From S2P Require Import Memdriver MemdriverFacts MemdriverProps.

(** The ways from a state that wait, or try for free or at a cost, with the number of
    the latter. *)
Inductive counting {X} (waits : X -> X -> Prop) (tries : X -> bool -> X -> Prop) (x : X) : nat -> X -> Prop :=
| count_start : counting waits tries x 0 x
| count_wait n y z : counting waits tries x n y -> waits y z -> counting waits tries x n z
| count_free n y z : counting waits tries x n y -> tries y false z -> counting waits tries x n z
| count_spent n y z : counting waits tries x n y -> tries y true z -> counting waits tries x (S n) z.

Section Life.
Context {S : Type} `{Laws : ProducerLaws S}.
Variable (id : Z).

(** While a job is held the rest of the store may change, and its lease be renewed. *)
Definition heldAs (row : JobRow) (s : S) : Prop :=
  drvWf s /\ exists t, rowAt s id = Some (setLeasedUntil t row).

(** One claim of the job and what became of it; the flag says whether it cost an attempt. *)
Inductive trial (st : ClientState S) : bool -> ClientState S -> Prop :=
| trial_failed c q n now jobCtx rtick st1 rows row st2 k tick e d :
    claimQueue c jobCtx rtick now q n st = (st1, Ok rows) -> row ∈ rows -> ID row = id ->
    heldAs row (cStore st2) -> classifyOutcome e = (outcomeFailed, d) ->
    jsonYearOk (tick 0%nat) = true -> tick 3%nat < tick 4%nat + leaseDuration c ->
    trial st true (finishJob c k tick jobCtx row (Some e) st2)
| trial_snoozed c q n now jobCtx rtick st1 rows row st2 k tick e d :
    claimQueue c jobCtx rtick now q n st = (st1, Ok rows) -> row ∈ rows -> ID row = id ->
    heldAs row (cStore st2) -> classifyOutcome e = (outcomeSnoozed, d) ->
    jsonYearOk (tick 0%nat) = true -> tick 3%nat < tick 4%nat + leaseDuration c ->
    trial st false (finishJob c k tick jobCtx row (Some e) st2)
| trial_died c q n now jobCtx rtick st1 rows row st2 c' now' limit s3 taken row' st4 k tick :
    claimQueue c jobCtx rtick now q n st = (st1, Ok rows) -> row ∈ rows -> ID row = id ->
    heldAs row (cStore st2) ->
    drvFetchExpired now' (leaseDuration c') limit (cStore st2) = (s3, Ok taken) ->
    row' ∈ taken -> ID row' = id -> heldAs row' (cStore st4) -> jsonYearOk (tick 0%nat) = true ->
    trial st true (dispose (retryPolicy c') k tick Background row' errLeaseExpired st4).

(** While the job waits, anything may happen to the rest of the store. *)
Definition waits (st st' : ClientState S) : Prop :=
  drvWf (cStore st') /\ rowAt (cStore st') id = rowAt (cStore st) id.

(** [life st n st']: from [st] to [st'] the job had [n] trials that cost an attempt. *)
Definition life : ClientState S -> nat -> ClientState S -> Prop := counting waits trial.

(** The job as [n] spent attempts leave it, of the [most] it has. *)
Record spent (most : Z) (n : nat) (r : JobRow) : Prop := {
  sp_attempt : Attempt r = Z.of_nat n;
  sp_most : MaxAttempts r = most;
  sp_errors : exists errs, Errors r = Raw (JArray errs) /\ length errs = n;
  sp_state : (Z.of_nat n < most /\ waitingState (State r)) \/ (Z.of_nat n = most /\ State r = StateDead)
}.

Definition spentAt (most : Z) (n : nat) (s : S) : Prop :=
  drvWf s /\ exists r, rowAt s id = Some r /\ spent most n r.

(** A job that can be claimed has an attempt left, and the claimed row counts the one in
    progress. *)
Lemma claim_spends most n c jobCtx rtick now q k (st st1 : ClientState S) rows row :
  spentAt most n (cStore st) -> claimQueue c jobCtx rtick now q k st = (st1, Ok rows) ->
  row ∈ rows -> ID row = id ->
  Z.of_nat n < most /\ State row = StateRunning /\ Attempt row = Z.of_nat n + 1 /\ MaxAttempts row = most /\
  exists errs, Errors row = Raw (JArray errs) /\ length errs = n.
Proof.
  intros (Hwf & r & Hr & Hs) Hc Hin Hid.
  destruct (claimQueue_takes _ _ _ _ _ _ _ _ _ Hwf Hc) as (_ & _ & _ & Hrows & _).
  destruct (Hrows row Hin) as (_ & r0 & Hr0 & Hw & Hrow). rewrite Hid, Hr in Hr0.
  injection Hr0 as <-. rewrite Hrow. destruct Hs as [Ha Hm He [[Hlt _]|[_ Hd]]].
  - split_all; [done | done | simpl; lia | done | done].
  - rewrite Hd in Hw. by destruct Hw as [?|[?|?]].
Qed.

Lemma heldAs_held row s : State row = StateRunning -> ID row = id -> heldAs row s ->
  exists r, leaseHeld s (leaseOf row) r /\ r = setLeasedUntil (LeasedUntil r) row.
Proof.
  intros Hs Hid (_ & t & Hr). exists (setLeasedUntil t row). split; [|by destruct row].
  split; [simpl; rewrite Hid; exact Hr | by split].
Qed.

(** What a failure, counted on the claimed row, does to the stored one. *)
Lemma failed_spends pol k tick row e d n most t :
  classifyOutcome e = (outcomeFailed, d) -> State row = StateRunning ->
  Z.of_nat n < most -> Attempt row = Z.of_nat n + 1 -> MaxAttempts row = most ->
  (exists errs, Errors row = Raw (JArray errs) /\ length errs = n) ->
  spent most (Datatypes.S n) (fate S pol k tick row (Some e) (setLeasedUntil t row)).
Proof.
  intros He Hs Hlt Ha Hm (errs & Hr & Hlen). unfold fate. rewrite He, Hm, Ha.
  destruct (Z.leb_spec most (Z.of_nat n + 1)); split; unfold finalizedRow, retryRow, appendDetail; cbn;
    rewrite ?Hr; cbn; rewrite ?Hr; cbn; try lia; try done.
  - eexists. split; [done|]. rewrite length_app. simpl. lia.
  - right. split; [lia | done].
  - eexists. split; [done|]. rewrite length_app. simpl. lia.
  - left. split; [lia|]. right. by left.
Qed.

Lemma snoozed_spends pol k tick row e d n most t :
  classifyOutcome e = (outcomeSnoozed, d) ->
  Z.of_nat n < most -> Attempt row = Z.of_nat n + 1 -> MaxAttempts row = most ->
  (exists errs, Errors row = Raw (JArray errs) /\ length errs = n) ->
  spent most n (fate S pol k tick row (Some e) (setLeasedUntil t row)).
Proof.
  intros He Hlt Ha Hm Hr. unfold fate. rewrite He. split; cbn; [lia | done | done|].
  left. split; [done|]. right. by right.
Qed.

Lemma settled_spends most n row f (s s' : S) :
  settles f (leaseOf row) s s' -> drvWf s' -> State row = StateRunning -> ID row = id -> heldAs row s ->
  (forall t, spent most n (f (setLeasedUntil t row))) -> spentAt most n s'.
Proof.
  intros [Hf _] Hwf Hs Hid Hheld Hsp. destruct (heldAs_held row s Hs Hid Hheld) as (r & Hr & E).
  destruct (Hf r Hr) as [Hat _]. split; [done|]. rewrite E in Hat. simpl in Hat. rewrite Hid in Hat. eauto.
Qed.

Lemma trial_spends most n costs (st st' : ClientState S) :
  spentAt most n (cStore st) -> trial st costs st' ->
  Z.of_nat n < most /\ spentAt most (if costs then Datatypes.S n else n) (cStore st').
Proof.
  intros Hsp Ht. destruct Ht as
    [c q m now jobCtx rtick st1 rows row st2 k tick e d Hc Hin Hid Hheld He Hy Hd
    |c q m now jobCtx rtick st1 rows row st2 k tick e d Hc Hin Hid Hheld He Hy Hd
    |c q m now jobCtx rtick st1 rows row st2 c' now' limit s3 taken row' st4 k tick Hc Hin Hid Hheld Hf Hin' Hid' Hheld' Hy];
    destruct (claim_spends _ _ _ _ _ _ _ _ _ _ _ _ Hsp Hc Hin Hid) as (Hlt & Hs & Ha & Hm & He'); split; try done.
  - destruct (finishJob_settles c k tick jobCtx row (Some e) st2 (proj1 Hheld) Hy Hd) as (Hset & Hwf' & _).
    eapply settled_spends; [exact Hset | done..|]. intros t. by eapply failed_spends.
  - destruct (finishJob_settles c k tick jobCtx row (Some e) st2 (proj1 Hheld) Hy Hd) as (Hset & Hwf' & _).
    eapply settled_spends; [exact Hset | done..|]. intros t. by eapply snoozed_spends.
  - destruct Hheld as (Hwf2 & t & Hrow).
    destruct (fetchExpired_law _ _ _ _ _ _ Hwf2 Hf) as (_ & _ & Htaken & _).
    destruct (Htaken row' Hin') as (_ & _ & _ & r0 & t0 & Hr0 & _ & _ & _ & Erow).
    rewrite Hid', Hrow in Hr0. injection Hr0 as <-.
    destruct (dispose_settles (retryPolicy c') k tick Background row' errLeaseExpired st4 (proj1 Hheld') eq_refl Hy)
      as (Hset & Hwf' & _).
    eapply settled_spends; [exact Hset | done | by rewrite Erow | done | done|]. intros t1.
    eapply failed_spends; rewrite ?Erow; done.
Qed.

Lemma life_spends most n (st st' : ClientState S) :
  life st n st' -> spentAt most 0 (cStore st) -> spentAt most n (cStore st').
Proof.
  induction 1 as [|n st1 st2 _ IH [Hwf Hr]|n st1 st2 _ IH Ht|n st1 st2 _ IH Ht]; intros Hsp.
  - done.
  - destruct (IH Hsp) as (_ & r & Hr1 & Hs). split; [done|]. exists r. by rewrite Hr.
  - by apply (trial_spends most n false st1 st2 (IH Hsp)).
  - by apply (trial_spends most n true st1 st2 (IH Hsp)).
Qed.
End Life.

(** ** Properties *)

(** C21: attempts are spent one failure at a time.  Take a new job of at most [most] attempts, in a
    store that keeps its contract, and any life it may have: claimed by any clients, failing,
    snoozing or losing its worker to a crash, with anything else going on in between.  Then
    [n] failures and crashes leave it with attempt [n] and [n] recorded errors, however often it was
    snoozed; it waits to be claimed again while [n] is less than [most], and is dead exactly when
    [n] is [most], which it never exceeds, since a dead job has no further trial. *)
Theorem attempts_spent_one_by_one {S} `{ProducerLaws S} id (st st' : ClientState S) r n :
  drvWf (cStore st) -> rowAt (cStore st) id = Some r -> waitingState (State r) ->
  Attempt r = 0 -> Errors r = Raw (JArray []) -> 0 < MaxAttempts r -> life id st n st' ->
  Z.of_nat n <= MaxAttempts r /\
  exists r' errs, rowAt (cStore st') id = Some r' /\ Attempt r' = Z.of_nat n /\
    Errors r' = Raw (JArray errs) /\ length errs = n /\
    (waitingState (State r') <-> Z.of_nat n < MaxAttempts r) /\
    (State r' = StateDead <-> Z.of_nat n = MaxAttempts r) /\
    (State r' = StateDead -> forall costs st'', ~ trial id st' costs st'').
Proof.
  intros Hwf Hr Hw Ha He Hm Hlife.
  assert (spentAt id (MaxAttempts r) 0 (cStore st)) as Hnew.
  { split; [done|]. exists r. split; [done|]. split; [done | done | by exists [] | by left]. }
  pose proof (life_spends id _ _ _ _ Hlife Hnew) as Hsp. pose proof Hsp as (_ & r' & Hr' & [Ha' _ (errs & He' & Hl) Hs]).
  split; [destruct Hs; lia|]. exists r', errs. split_all; try done.
  - split; [|destruct Hs; [tauto | lia]]. intros Hw'. destruct Hs as [[? _]|[_ Hd]]; [done|].
    rewrite Hd in Hw'. by destruct Hw' as [?|[?|?]].
  - split; [|destruct Hs; [lia | tauto]]. intros Hd. destruct Hs as [[_ Hw']|[? _]]; [|done].
    rewrite Hd in Hw'. by destruct Hw' as [?|[?|?]].
  - intros Hd costs st'' Ht. destruct (trial_spends id _ _ _ _ _ Hsp Ht) as [Hlt _].
    destruct Hs as [[_ Hw']|[? _]]; [|lia]. rewrite Hd in Hw'. by destruct Hw' as [?|[?|?]].
Qed.

(** A job that snoozes once and then fails. *)
Definition newJobView : ClientState MemDriver := demoView 1 demoInserted.

Definition claimOf (now : Time) (st : ClientState MemDriver) : ClientState MemDriver * list JobRow :=
  match claimQueue demoClient Background poolTick now "default" 2 st with
  | (st', Ok rows) => (st', rows)
  | (st', Err _) => (st', [])
  end.

Definition firstOf (rows : list JobRow) : JobRow := default (jobFromParams 0 (demoParams "a") 0) (head rows).

Definition afterTrial (now : Time) (e : error) (st : ClientState MemDriver) : ClientState MemDriver :=
  finishJob demoClient 7 demoTick Background (firstOf (claimOf now st).2) (Some e) (claimOf now st).1.

Definition snoozedOnce : ClientState MemDriver := afterTrial 1000 (Snooze Second) newJobView.
Definition failedOnce : ClientState MemDriver := afterTrial (3000 + Second) (Msg "no route to host") snoozedOnce.

(** The trial [afterTrial] makes, where the claim finds the job. *)
Lemma afterTrial_claims now st row :
  (claimOf now st).2 = [row] -> ID row = 1 -> jobs (cStore (claimOf now st).1) !! 1 = Some row ->
  wf (cStore (claimOf now st).1) ->
  exists rows, claimQueue demoClient Background poolTick now "default" 2 st = ((claimOf now st).1, Ok rows) /\
    firstOf (claimOf now st).2 ∈ rows /\ ID (firstOf (claimOf now st).2) = 1 /\
    heldAs 1 (firstOf (claimOf now st).2) (cStore (claimOf now st).1).
Proof.
  intros Hrows Hid Hat Hwf. rewrite Hrows. unfold claimOf in *.
  destruct (claimQueue _ _ _ _ _ _ st) as [st1 [rows|e]]; [|done]. simpl in *. subst rows.
  exists [row]. split_all; [done | by apply list_elem_of_singleton | done|].
  split; [done|]. exists (LeasedUntil row). simpl. rewrite Hat. by destruct row.
Qed.

Lemma newJobView_wf : wf (cStore newJobView).
Proof. apply (exec_wf 1000 (CInsert (demoParams "a")) New New_wf). Qed.

Lemma claimOf_wf now st : wf (cStore st) -> wf (cStore (claimOf now st).1).
Proof.
  intros Hwf. unfold claimOf. destruct (claimQueue _ _ _ _ _ _ st) as [st1 [rows|e]] eqn:E.
  - pose proof (claimQueue_takes (S := MemDriver) demoClient Background poolTick now "default" 2 st st1 rows) as Ht.
    by destruct (Ht Hwf E) as [? _].
  - unfold claimQueue in E. destruct (drvFetchAvailable _ _ _ _ _) as [s1 [rs|x]] eqn:Ef.
    + by destruct (2 <? length rs)%nat.
    + injection E as <- _. by rewrite (FetchAvailable_no_err _ _ _ _ _ _ _ Hwf Ef).
Qed.

Lemma snoozedOnce_life : life 1 newJobView 0 snoozedOnce.
Proof.
  eapply count_free; [apply count_start|]. destruct (afterTrial_claims 1000 newJobView
    (firstOf (claimOf 1000 newJobView).2)) as (rows & Hc & Hin & Hid & Hheld); [by vm_compute..| |].
  { apply claimOf_wf, newJobView_wf. }
  eapply trial_snoozed; [exact Hc | exact Hin | exact Hid | exact Hheld | reflexivity | by vm_compute..].
Qed.

Lemma snoozedOnce_wf : wf (cStore snoozedOnce).
Proof.
  destruct (finishJob_safe (S := MemDriver) demoClient 7 demoTick Background
    (firstOf (claimOf 1000 newJobView).2) (Some (Snooze Second)) (claimOf 1000 newJobView).1) as (_ & Hw & _);
    [apply claimOf_wf, newJobView_wf | exact Hw].
Qed.

Lemma failedOnce_life : life 1 newJobView 1 failedOnce.
Proof.
  eapply count_spent; [exact snoozedOnce_life|].
  destruct (afterTrial_claims (3000 + Second) snoozedOnce (firstOf (claimOf (3000 + Second) snoozedOnce).2))
    as (rows & Hc & Hin & Hid & Hheld); [by vm_compute..| |].
  { apply claimOf_wf, snoozedOnce_wf. }
  eapply trial_failed; [exact Hc | exact Hin | exact Hid | exact Hheld | reflexivity | by vm_compute..].
Qed.

Lemma attempts_spent_one_by_one_witness :
  life 1 newJobView 1 failedOnce /\ exists r' errs,
    rowAt (cStore failedOnce) 1 = Some r' /\ Attempt r' = 1 /\ Errors r' = Raw (JArray errs) /\
    length errs = 1%nat /\ waitingState (State r').
Proof.
  split; [exact failedOnce_life|].
  destruct (attempts_spent_one_by_one 1 newJobView failedOnce (jobFromParams 1 (demoParams "a") 1000) 1)
    as (_ & r' & errs & Hr & Ha & He & Hl & Hw & _).
  - exact newJobView_wf.
  - by vm_compute.
  - by left.
  - done.
  - done.
  - done.
  - exact failedOnce_life.
  - exists r', errs. split_all; [done..|]. by apply Hw.
Defined.
