(* ===== verification/Progress.v ===== *)
(** * Progress: claims and sweeps leave nothing behind

    [DriverLaws] says what a fetch may take; the class here says what it must: a fetch that comes
    back with fewer rows than it was allowed has taken every row it could, those that other
    sessions have locked excepted.  A fetch may always fail instead.  Both drivers discharge it.  On it rest the liveness of rescue.go
    and of the fetch loop of pool.go. *)

From S2P Require Import Prelude GoTime GoError GoRuntime DriverSpec Metrics Middleware Inflight.
From S2P Require Import Retry Enqueue Client Queues Loop Pool Producers Cluster.
From S2P Require Import Memdriver MemdriverFacts MemdriverProps.
From S2P Require Import Postgres Pgdriver PgdriverFacts PgdriverProps.

(** The lease of the row has lapsed. *)
Definition lapsed (now : Time) (r : JobRow) : Prop :=
  State r = StateRunning /\ exists t, LeasedUntil r = Some t /\ t <= now.

Class FetchCompletes (S : Type) `{DriverLaws S} := {
  drvLocked : S -> gset Z;
  fetchExpired_complete : forall now d limit s s' rows, drvWf s ->
    drvFetchExpired now d limit s = (s', Ok rows) -> Z.of_nat (length rows) < limit ->
    forall id r, rowAt s id = Some r -> lapsed (drvTime S now) r -> id ∉ drvLocked s -> id ∈ ID <$> rows;
  fetchAvailable_complete : forall now q d limit s s' rows, drvWf s ->
    drvFetchAvailable now q d limit s = (s', Ok rows) -> Z.of_nat (length rows) < limit ->
    forall id r, rowAt s id = Some r -> dueIn q (drvTime S now) r -> id ∉ drvLocked s -> id ∈ ID <$> rows;
  fetchExpired_locked : forall now d limit s, drvLocked (drvFetchExpired now d limit s).1 = drvLocked s;
  fetchAvailable_locked : forall now q d limit s, drvLocked (drvFetchAvailable now q d limit s).1 = drvLocked s;
  markDead_locked : forall now l e s, drvLocked (drvMarkDead now l e s).1 = drvLocked s;
  markRetryable_locked : forall now l t e s, drvLocked (drvMarkRetryable now l t e s).1 = drvLocked s
}.

(** A driver none of whose sweeps fails, as both are while nothing disturbs them. *)
Class SweepServes (S : Type) `{DriverLaws S} := {
  fetchExpired_serves : forall now d limit s, drvWf s -> 0 <= limit <= MaxInt32 ->
    exists s' rows, drvFetchExpired now d limit s = (s', Ok rows)
}.

(** ** The in-memory driver *)

(** A budget that was not used up took everything. *)
Lemma take_budget limit (due : list JobRow) :
  Z.of_nat (length (take (budget limit due) due)) < limit -> take (budget limit due) due = due.
Proof.
  unfold budget. rewrite length_take. destruct (Z.ltb_spec limit 0) as [|]; [lia|].
  intros Hlt. apply take_ge. lia.
Qed.

Lemma mem_expired_complete now d limit (s s' : MemDriver) rows :
  wf s -> FetchExpired now d limit s = (s', Ok rows) -> Z.of_nat (length rows) < limit ->
  forall id r, jobs s !! id = Some r -> lapsed now r -> id ∈ ID <$> rows.
Proof.
  intros Hwf Hf Hlt id r Hr [Hs Ht]. unfold FetchExpired in Hf. rewrite claimLoop_eq in Hf.
  injection Hf as _ <-. rewrite length_fmap in Hlt. rewrite take_budget by done.
  rewrite <- list_fmap_compose. rewrite <- (wf_key s Hwf id r Hr). apply list_elem_of_fmap.
  exists r. split; [done|].
  apply selectRows_elem; [done|]. rewrite (wf_key s Hwf id r Hr). split; [done|]. by apply expired_spec.
Qed.

Lemma mem_available_complete now q d limit (s s' : MemDriver) rows :
  wf s -> FetchAvailable now q d limit s = (s', Ok rows) -> Z.of_nat (length rows) < limit ->
  forall id r, jobs s !! id = Some r -> dueIn q now r -> id ∈ ID <$> rows.
Proof.
  intros Hwf Hf Hlt id r Hr Hdue. unfold FetchAvailable in Hf. rewrite claimLoop_eq in Hf.
  injection Hf as _ <-. rewrite length_fmap in Hlt. rewrite take_budget by done.
  rewrite <- list_fmap_compose. rewrite <- (wf_key s Hwf id r Hr). apply list_elem_of_fmap.
  exists r. split; [done|].
  apply selectRows_elem; [done|]. rewrite (wf_key s Hwf id r Hr). split; [done|]. by apply claimable_spec.
Qed.

#[export] Instance memFetchCompletes : FetchCompletes MemDriver.
Proof.
  refine {| drvLocked := fun _ => ∅ |}; try done.
  - intros now d limit s s' rows Hwf Hf Hlt id r Hr Hl _. by eapply mem_expired_complete.
  - intros now q d limit s s' rows Hwf Hf Hlt id r Hr Hl _. by eapply mem_available_complete.
Defined.

#[export] Instance memSweepServes : SweepServes MemDriver.
Proof.
  constructor. intros now d limit s _ _. simpl. unfold FetchExpired. destruct (claimLoop _ _ _ _ _). eauto.
Qed.

(** ** The Postgres driver *)

Section Pg.
Context {E : PgEnv} (HE : PgEnvOk E).
Implicit Types db : PgDb E.

Lemma updateRows_locked js f db : locked (updateRows js f db).1 = locked db.
Proof. unfold updateRows. destruct (evalAll f js); [|done]. by destruct (existsb _ _). Qed.

Lemma guarded_locked id a f db : locked (guardedUpdateSQL id a f db).1 = locked db.
Proof. unfold guardedUpdateSQL. rewrite (surjective_pairing (updateRows _ _ _)). apply updateRows_locked. Qed.

Lemma pgMark_locked now verb l stmt db :
  (forall t, locked (stmt t db).1 = locked db) ->
  locked (pgMark (undisturbed now) verb l stmt db).1 = locked db.
Proof.
  intros Hs. unfold pgMark, ask. simpl. specialize (Hs now). destruct (stmt now db) as [db' [n|e]]; [|done].
  unfold explain. destruct (n =? 0); [|done]. done.
Qed.

Lemma lockable_complete key keep limit db :
  pgWf db -> Z.of_nat (length (lockable key keep limit db)) < limit ->
  forall id j, table db !! id = Some j -> keep j = true -> id ∉ locked db -> j ∈ lockable key keep limit db.
Proof.
  intros Hd Hlt id j Hj Hk Hn. unfold lockable in *. rewrite length_take in Hlt. rewrite take_ge by lia.
  destruct (pg_row db id j Hd Hj) as [Hid _]. apply filter_elem. split; [|by rewrite Hid, bool_decide_eq_true_2].
  apply SortFunc_elem, filter_elem. split; [|done]. apply elem_of_rowsOf. eauto.
Qed.

(** The rows handed back are those the statement chose. *)
Lemma claimed_all db js f db' out id j :
  pgWf db -> selection db js -> goodOn js f -> updated db js f db' out ->
  length (sortedRows out) = length js /\ (table db !! id = Some j -> j ∈ js -> id ∈ ID <$> sortedRows out).
Proof.
  intros Hd Hs Hg Hu. destruct (claimed_spec _ _ _ _ _ Hd Hs Hg Hu) as (_ & Hnd & Hlen & _ & Hin & _).
  split; [done|]. intros Hj Hjs. destruct (pg_row db id j Hd Hj) as [<- _].
  assert (ID <$> sortedRows out ⊆ jID <$> js) as Hsub.
  { intros x (r & -> & Hr)%list_elem_of_fmap. destruct (Hin r Hr) as (j' & k & Hj' & _ & _ & _ & Hl).
    apply list_elem_of_fmap. exists j'. split; [|done]. pose proof (proj1 Hs j' Hj') as Hl'.
    destruct (pg_row db _ j' Hd Hl) as [Hx _]. congruence. }
  assert (ID <$> sortedRows out ≡ₚ jID <$> js) as ->; [|by apply list_elem_of_fmap_2].
  apply submseteq_length_Permutation; [by apply NoDup_submseteq|]. rewrite !length_fmap. lia.
Qed.

Lemma pg_expired_complete now d limit db db' rows :
  pgWf db -> pgFetchExpired (undisturbed now) d limit db = (db', Ok rows) -> Z.of_nat (length rows) < limit ->
  forall id r, rowAt db id = Some r -> lapsed (stamp E now) r -> id ∉ locked db -> id ∈ ID <$> rows.
Proof.
  intros Hd Hf Hlt id r Hr Hl Hn. apply expiredResult in Hf as (_ & out & Hsql & ->).
  pose proof (selection_lockable db leaseKey (lapsedJob (stamp E now)) limit Hd) as Hs.
  pose proof (sqlFetchExpired_good now d limit db Hd) as Hg. apply (updateRows_result HE) in Hsql; [|done..].
  apply rowAt_pg in Hr as (j & Hj & ->).
  destruct (claimed_all _ _ _ _ _ id j Hd Hs Hg Hsql) as [Hlen Hall]. apply Hall; [done|].
  eapply lockable_complete; [done | by rewrite <- Hlen | done | by apply lapsedJob_spec | done].
Qed.

Lemma pg_available_complete now q d limit db db' rows :
  pgWf db -> pgFetchAvailable (undisturbed now) q d limit db = (db', Ok rows) -> Z.of_nat (length rows) < limit ->
  forall id r, rowAt db id = Some r -> dueIn q (stamp E now) r -> id ∉ locked db -> id ∈ ID <$> rows.
Proof.
  intros Hd Hf Hlt id r Hr (Hw & Hq & Ht) Hn. apply fetchResult in Hf as (_ & out & Hsql & ->).
  pose proof (selection_lockable db jScheduledAt (dueJob (stamp E now) q) limit Hd) as Hs.
  pose proof (sqlFetchAvailable_good now d q limit db Hd) as Hg. apply (updateRows_result HE) in Hsql; [|done..].
  apply rowAt_pg in Hr as (j & Hj & ->).
  destruct (claimed_all _ _ _ _ _ id j Hd Hs Hg Hsql) as [Hlen Hall]. apply Hall; [done|].
  eapply lockable_complete; [done | by rewrite <- Hlen | done | | done].
  unfold dueJob. simpl in *. rewrite (proj2 (waitingJob_spec _) Hw), Hq, String.eqb_refl. simpl. lia.
Qed.

(** An UPDATE whose columns all evaluate and that moves no row into the index succeeds. *)
Lemma claim_serves db js (f : DroverJob -> DroverJob) (g : DroverJob -> res dbErr DroverJob) :
  pgWf db -> selection db js -> goodOn js g -> (forall j, j ∈ js -> g j = Ok (f j)) ->
  (forall j, j ∈ js -> indexed (f j) = true -> indexed j = true) ->
  exists db' out, updateRows js g db = (db', Ok out).
Proof.
  intros Hd Hs Hg Hf Hi.
  destruct (updateRows_ok HE db js g (f <$> js)) as (db' & out & -> & _); try done.
  - unfold updates. apply Forall2_fmap_r, Forall_Forall2_diag, Forall_forall. done.
  - intros j k Hj Hk. rewrite Hf in Hk by done. injection Hk as <-. by apply Hi.
  - eauto.
Qed.

Lemma pg_expired_serves now d limit db :
  pgWf db -> 0 <= limit <= MaxInt32 -> exists db' rows, pgFetchExpired (undisturbed now) d limit db = (db', Ok rows).
Proof.
  intros Hd Hl. unfold pgFetchExpired, ask.
  destruct (Z.ltb_spec limit 0), (Z.ltb_spec MaxInt32 limit); try lia. simpl. unfold sqlFetchExpired.
  set (js := lockable _ _ _ _).
  match goal with |- context [updateRows js ?g0 db] => set (g := g0) end.
  destruct (claim_serves db js (fun j => setColumns j (jState j) (jAttempt j) (jErrors j) (jScheduledAt j)
    (Some (stamp E now + interval E d)) (jFinalizedAt j)) g Hd) as (db' & out & ->); [..|eauto].
  - by apply selection_lockable.
  - by apply sqlFetchExpired_good.
  - done.
  - done.
Qed.

End Pg.

#[export] Instance pgFetchCompletes E (HE : PgEnvOk E) : @FetchCompletes (PgDb E) _ (pgDriverLaws E HE).
Proof.
  refine {| drvLocked := locked |}.
  - intros now d limit s s' rows. by apply pg_expired_complete.
  - intros now q d limit s s' rows. by apply pg_available_complete.
  - intros now d limit s. simpl. unfold pgFetchExpired, ask. destruct (_ || _); [done|]. simpl.
    rewrite (surjective_pairing (sqlFetchExpired _ _ _ _)). apply updateRows_locked.
  - intros now q d limit s. simpl. unfold pgFetchAvailable, ask. destruct (_ || _); [done|]. simpl.
    rewrite (surjective_pairing (sqlFetchAvailable _ _ _ _ _)). apply updateRows_locked.
  - intros now l e s. apply pgMark_locked. intros t. unfold sqlMarkDead, sqlFinalize.
    destruct (castJsonb E e); [apply guarded_locked | done].
  - intros now l t e s. apply pgMark_locked. intros t'. unfold sqlMarkRetryable.
    destruct (castJsonb E e); [apply guarded_locked | done].
Defined.

#[export] Instance pgSweepServes E (HE : PgEnvOk E) : @SweepServes (PgDb E) _ (pgDriverLaws E HE).
Proof. constructor. intros now d limit s. by apply pg_expired_serves. Qed.

(** ** The rescuer *)

Section Rescue.
Context {S : Type} `{Comp : FetchCompletes S}.
Variables (c : Client) (k : Z -> Z) (tick : Z -> nat -> Time) (round : nat -> Time).
Hypothesis years : forall id, jsonYearOk (tick id 0%nat) = true.

Lemma dispose_locked pol k0 tick0 ctx row (st : ClientState S) :
  drvLocked (cStore (dispose pol k0 tick0 ctx row errLeaseExpired st)) = drvLocked (cStore st).
Proof.
  assert (forall now op level msg, drvLocked (op (cStore st)).1 = drvLocked (cStore st) ->
    drvLocked (cStore (record now ctx row op level msg st)) = drvLocked (cStore st)) as Hr.
  { intros now op level msg Hop. unfold record. destruct (underCtx_cases now ctx op (cStore st)) as [->| ->];
      [|by destruct (writeFailed_logged row (ctxErr ctx) (setStore (cStore st) st)) as [_ ->]].
    - destruct (op (cStore st)) as [s' [e|]]; [|done].
      by destruct (writeFailed_logged row e (setStore s' st)) as [_ ->]. }
  unfold dispose. simpl. destruct (marshalAttemptError _) as [detail|]; [|done].
  destruct (MaxAttempts row <=? Attempt row); apply Hr; [apply markDead_locked | apply markRetryable_locked].
Qed.

Lemma disposeAll_locked pol rows (st : ClientState S) :
  drvLocked (cStore (disposeAll pol k tick rows st)) = drvLocked (cStore st).
Proof.
  unfold disposeAll. revert st. induction rows as [|row rows IH]; intros st; simpl; [done|].
  by rewrite IH, dispose_locked.
Qed.

(** No row that is free to be taken is lapsed at [t]. *)
Definition noneLapsed (t : Time) (s : S) : Prop :=
  forall id r, rowAt s id = Some r -> id ∉ drvLocked s -> ~ lapsed (drvTime S t) r.

(** A round that comes back short has seen to everything. *)
Lemma round_clears t s s' rows (st : ClientState S) :
  drvWf s -> drvFetchExpired t (leaseDuration c) rescueBatch s = (s', Ok rows) ->
  Z.of_nat (length rows) < rescueBatch -> cStore st = s' ->
  noneLapsed t (cStore (disposeAll (retryPolicy c) k tick rows st)).
Proof.
  intros Hwf Hf Hlt Es. destruct (fetchExpired_law _ _ _ _ _ _ Hwf Hf) as (Hwf' & Hnd & Hin & Hout).
  destruct (disposeAll_rescues (retryPolicy c) k tick years rows st) as (_ & _ & Hr & Hu);
    [by rewrite Es | done | |].
  { intros r Hr. rewrite Es. destruct (Hin r Hr) as (? & ? & _). done. }
  intros id r Hrow Hfree [Hs Hl]. rewrite disposeAll_locked, Es in Hfree.
  assert (drvLocked s' = drvLocked s) as El by (pose proof (fetchExpired_locked t (leaseDuration c) rescueBatch s) as Hx;
    by rewrite Hf in Hx).
  destruct (decide (id ∈ ID <$> rows)) as [(x & -> & Hx)%list_elem_of_fmap|Hni].
  - rewrite (Hr x Hx) in Hrow. injection Hrow as <-.
    destruct (rescuedRow_state (retryPolicy c) k tick x) as (_ & _ & Hn).
    destruct Hl as (u & Hl & _). congruence.
  - rewrite Hu, Es, Hout in Hrow by done. apply Hni.
    eapply (fetchExpired_complete t (leaseDuration c) rescueBatch s); [done..| |by rewrite <- El]. by split.
Qed.

Lemma sweepLoop_locked stopped left_ i n (st : ClientState S) :
  drvLocked (cStore (sweepLoop c k tick round stopped left_ i n st).1.1) = drvLocked (cStore st).
Proof.
  revert i n st. induction left_ as [|left_ IH]; intros i n st; cbn [sweepLoop]; [done|].
  pose proof (fetchExpired_locked (round i) (leaseDuration c) rescueBatch (cStore st)) as Hl.
  destruct (drvFetchExpired _ _ _ _) as [s1 [rows|e]]; [|done]. simpl in Hl.
  destruct (_ || _); [|rewrite IH]; cbn [fst]; by rewrite disposeAll_locked.
Qed.

(** How a sweep ends: with the error of a fetch, told to stop, with as many rows as its rounds may
    take, or with nothing left to rescue. *)
Lemma sweepLoop_ends stopped left_ i n (st : ClientState S) :
  drvWf (cStore st) ->
  let '(st', n', err) := sweepLoop c k tick round stopped left_ i n st in
  match err with
  | Some e => exists j s s', drvWf s /\
      drvFetchExpired (round j) (leaseDuration c) rescueBatch s = (s', Err e)
  | None => (exists j, (i <= j < i + left_)%nat /\ stopped j = true) \/ (n + left_ * Z.to_nat rescueBatch <= n')%nat \/
      exists j, noneLapsed (round j) (cStore st')
  end.
Proof.
  revert i n st. induction left_ as [|left_ IH]; intros i n st Hwf; cbn [sweepLoop].
  { right. left. simpl. lia. }
  destruct (drvFetchExpired (round i) (leaseDuration c) rescueBatch (cStore st)) as [s1 [rows|e]] eqn:Hf;
    [|by exists i, (cStore st), s1].
  destruct (fetchExpired_law _ _ _ _ _ _ Hwf Hf) as (Hwf1 & Hnd & Hin & _).
  set (st1 := setStore s1 st).
  destruct (disposeAll_rescues (retryPolicy c) k tick years rows st1) as (Hwf2 & _); [done | done | |].
  { intros r Hr. destruct (Hin r Hr) as (? & ? & _). done. }
  set (st2 := disposeAll (retryPolicy c) k tick rows st1) in *.
  destruct (Z.ltb_spec (Z.of_nat (length rows)) rescueBatch) as [Hlt|Hge]; cbn [orb].
  - right. right. exists i. by apply (round_clears (round i) (cStore st) s1 rows st1).
  - destruct (stopped i) eqn:Hstop; [left; exists i; split; [lia | done]|].
    specialize (IH (Datatypes.S i) (n + length rows)%nat st2 Hwf2).
    destruct (sweepLoop c k tick round stopped left_ _ _ st2) as [[st' n'] [e|]]; [done|].
    destruct IH as [(j & Hj & ?)|[Hn|?]]; [left; exists j; split; [lia | done] | right; left | by right; right].
    rewrite Nat.mul_succ_l. assert (Z.to_nat rescueBatch <= length rows)%nat by lia. lia.
Qed.

Lemma sweepLoop_serves `{!SweepServes S} stopped left_ i n (st : ClientState S) :
  drvWf (cStore st) -> (sweepLoop c k tick round stopped left_ i n st).2 = None.
Proof.
  intros Hwf. pose proof (sweepLoop_ends stopped left_ i n st Hwf) as He.
  destruct (sweepLoop _ _ _ _ _ _ _ _ st) as [[st' n'] [e|]]; [|done].
  destruct He as (j & s & s' & Hs & Hf).
  destruct (fetchExpired_serves (round j) (leaseDuration c) rescueBatch s Hs) as (? & ? & ?);
    [vm_compute; split; discriminate | congruence].
Qed.
End Rescue.

(** ** The fetch loop *)

Section Claim.
Context {S : Type} `{Comp : FetchCompletes S}.
Variables (c : Client) (jobCtx : Ctx) (tick : Z -> nat -> Time) (now : nat -> Time) (stopping : nat -> bool).

(** No row of [q] that is free to be taken is due at [t]. *)
Definition noneDue (q : string) (t : Time) (s : S) : Prop :=
  forall id r, rowAt s id = Some r -> id ∉ drvLocked s -> ~ dueIn q (drvTime S t) r.

Lemma claimedRow_waiting t d r : ~ waitingState (State (claimedRow t d r)).
Proof. by intros [?|[?|?]]. Qed.

(** Claims make nothing wait. *)
Lemma fetch_keeps t q d limit s s' rows :
  drvWf s -> drvFetchAvailable t q d limit s = (s', Ok rows) ->
  forall q0 t0, noneDue q0 t0 s -> noneDue q0 t0 s'.
Proof.
  intros Hwf Hf. destruct (fetchAvailable_law _ _ _ _ _ _ _ Hwf Hf) as (_ & _ & _ & Hin & Hout).
  pose proof (fetchAvailable_locked t q d limit s) as Hl. rewrite Hf in Hl. simpl in Hl.
  assert (forall id r, rowAt s' id = Some r -> waitingState (State r) -> rowAt s id = Some r) as Hsame.
  { intros id r Hr Hw. destruct (decide (id ∈ ID <$> rows)) as [(x & -> & Hx)%list_elem_of_fmap|Hni].
    - destruct (Hin x Hx) as (Hat & r0 & _ & _ & ->). rewrite Hat in Hr. injection Hr as <-.
      by apply claimedRow_waiting in Hw.
    - by rewrite <- Hout. }
  intros q0 t0 Hno id r Hr Hfree Hdue. rewrite Hl in Hfree. eapply Hno; [|done|done].
  apply Hsame; [done | apply Hdue].
Qed.

(** A queue asked for more than it gave has nothing due left. *)
Lemma fetch_empties t q d limit s s' rows :
  drvWf s -> drvFetchAvailable t q d limit s = (s', Ok rows) -> Z.of_nat (length rows) < limit ->
  noneDue q t s'.
Proof.
  intros Hwf Hf Hlt id r Hr Hfree Hdue.
  destruct (fetchAvailable_law _ _ _ _ _ _ _ Hwf Hf) as (_ & _ & _ & Hin & Hout).
  pose proof (fetchAvailable_locked t q d limit s) as Hl. rewrite Hf in Hl. simpl in Hl. rewrite Hl in Hfree.
  destruct (decide (id ∈ ID <$> rows)) as [(x & -> & Hx)%list_elem_of_fmap|Hni].
  - destruct (Hin x Hx) as (Hat & r0 & _ & _ & ->). rewrite Hat in Hr. injection Hr as <-.
    destruct Hdue as [Hw _]. by apply claimedRow_waiting in Hw.
  - rewrite Hout in Hr by done. apply Hni. by eapply fetchAvailable_complete.
Qed.

Lemma claimQueues_keeps i order remaining claimed (st st' : ClientState S) rows q0 t0 :
  drvWf (cStore st) -> noneDue q0 t0 (cStore st) ->
  claimQueues c jobCtx tick now stopping i order remaining claimed st = (st', rows) ->
  noneDue q0 t0 (cStore st').
Proof.
  revert i remaining claimed st. induction order as [|q order IH]; intros i remaining claimed st Hwf Hno; simpl.
  - by intros [= <- <-].
  - unfold claimQueue. destruct (drvFetchAvailable _ _ _ _ _) as [s1 [rs|e]] eqn:E.
    + destruct (fetchAvailable_law _ _ _ _ _ _ _ Hwf E) as (Hwf1 & _ & Hlen & _).
      pose proof (fetch_keeps _ _ _ _ _ _ _ Hwf E) as Hk.
      destruct (Nat.ltb_spec remaining (length rs)); [lia|].
      destruct (_ || _); [intros [= <- <-]; by apply Hk|]. apply IH; [done | by apply Hk].
    + apply fetchAvailable_err in E; [|done]. subst s1. intros [= <- <-]. by destruct (stopping i).
Qed.

(** A fetch of [q] failed, and the log ends with it. *)
Definition fetchFailed (q : string) (st' : ClientState S) : Prop :=
  (exists j n s s' e, drvWf s /\ drvFetchAvailable (now j) q (leaseDuration c) n s = (s', Err e)) /\
  last (logs (world (cEnv st'))) =
    Some {| logLevel := LevelError; logMsg := "drover: fetch jobs"; logJob := None |}.

Lemma claimQueues_empties i order remaining claimed (st st' : ClientState S) rows :
  drvWf (cStore st) ->
  claimQueues c jobCtx tick now stopping i order remaining claimed st = (st', rows) ->
  (length rows < length claimed + remaining)%nat ->
  (exists j, (i <= j < i + length order)%nat /\ stopping j = true) \/
  (exists q, q ∈ order /\ fetchFailed q st') \/
  forall q, q ∈ order -> exists j, noneDue q (now j) (cStore st').
Proof.
  revert i remaining claimed st. induction order as [|q0 order IH];
    intros i remaining claimed st Hwf; cbn [claimQueues]; [by right; right; intros q ?%not_elem_of_nil|].
  unfold claimQueue. destruct (stopping i) eqn:Hgo; [left; exists i; simpl; split; [lia | done]|].
  destruct (drvFetchAvailable _ _ _ _ _) as [s1 [rs|e]] eqn:E; cycle 1.
  { intros [= <- <-] _. right. left. exists q0. split; [apply elem_of_cons; by left|].
    split; [eauto 10|]. simpl. by rewrite last_snoc. }
  destruct (fetchAvailable_law _ _ _ _ _ _ _ Hwf E) as (Hwf1 & _ & Hlen & _).
  destruct (Nat.ltb_spec remaining (length rs)); [lia|]. rewrite orb_false_r.
  destruct (Nat.eqb_spec (remaining - length rs) 0) as [Hz|Hz].
  { intros [= <- <-]. rewrite length_app. lia. }
  intros Hc Hlt. edestruct IH as [(j & Hj & ?)|[(q & Hq & Hfail)|Hnone]]; [|exact Hc|..].
  - done.
  - rewrite length_app. lia.
  - left. exists j. simpl. split; [lia | done].
  - right. left. exists q. split; [apply elem_of_cons; by right | done].
  - right. right. intros q [->|Hq]%elem_of_cons; [|by apply Hnone].
    exists i. eapply claimQueues_keeps; [| |exact Hc]; [done|]. simpl. apply (fetch_empties _ _ _ _ _ _ _ Hwf E); lia.
Qed.
End Claim.

(** ** Properties *)

(** A sweep of a driver that serves it ends without an error, and unless it was stopped either it
    rescued a full thousand jobs, the most one tick may, or when it ended no job was left
    whose lease had lapsed as its last round began, save those whose rows another session
    has locked. *)
Theorem rescue_clears_lapsed {S} `{FetchCompletes S} `{!SweepServes S} c k tick round stopped
    (st : ClientState S) :
  (forall id, jsonYearOk (tick id 0%nat) = true) -> drvWf (cStore st) ->
  (forall j, (j < rescueRounds)%nat -> stopped j = false) ->
  exists st' rescued, rescueOnce c k tick round stopped st = (st', rescued, None) /\
    ((1000 <= rescued)%nat \/ exists i, noneLapsed (round i) (cStore st')).
Proof.
  intros Hy Hwf Hgo. unfold rescueOnce.
  pose proof (sweepLoop_ends c k tick round Hy stopped rescueRounds 0 0 st Hwf) as He.
  pose proof (sweepLoop_serves c k tick round Hy stopped rescueRounds 0 0 st Hwf) as Hs.
  destruct (sweepLoop _ _ _ _ _ _ _ _ st) as [[st' n] err]. simpl in Hs. subst err. exists st', n.
  split; [done|]. destruct He as [(j & Hj & Hs')|[Hn|Hn]]; [|by left | by right].
  rewrite Hgo in Hs' by lia. done.
Qed.

(** The job is back in the queue for a retry, or dead if that was its last attempt. *)
Definition returned (r r' : JobRow) : Prop :=
  LeasedUntil r' = None /\ Attempt r' = Attempt r /\
  State r' = (if MaxAttempts r <=? Attempt r then StateDead else StateRetryable).

(** C16: the work of a worker that died comes back, and nobody else's is taken.  In every state a
    cluster can reach, whatever a member's sweep meets (fetches that fail, a stop between rounds):
    a row it changes is one whose lease had lapsed, back for a retry, or dead if that was its last
    attempt; a job that a living member holds is as it was; if it ends with an error, a fetch
    failed with it; and if it ends without one, was not stopped, and rescued fewer than a thousand jobs, the most
    one tick may, then every job whose lease had lapsed is back, save those whose rows
    another session has locked. *)
Theorem dead_workers_jobs_return {S} `{Laws : DriverLaws S} `{!ProducerLaws S} `{!FetchCompletes S}
    cfg gap shortest (c0 c : Cluster S) i m st k tick stopped :
  (forall i, shortest <= leaseDuration (cfg i) <= 365 * 24 * Hour) ->
  0 <= gap /\ gap + 2 * drvTick < shortest ->
  clusterStart c0 -> rtc (clusterStep cfg gap) c0 c ->
  clMembers c !! i = Some m -> sees c m st -> (forall id, jsonYearOk (tick id 0%nat) = true) ->
  let '(st', rescued, err) := rescueOnce (cfg i) k tick (fun _ => clNow c) stopped st in
  (forall id, rowAt (cStore st') id = rowAt (clStore c) id \/
     exists r r', rowAt (clStore c) id = Some r /\ lapsed (drvTime S (clNow c)) r /\
       rowAt (cStore st') id = Some r' /\ returned r r') /\
  (forall j h, owns c j h -> rowAt (cStore st') (ID (hRow h)) = rowAt (clStore c) (ID (hRow h))) /\
  (forall e, err = Some e -> exists s s', drvWf s /\
     drvFetchExpired (clNow c) (leaseDuration (cfg i)) rescueBatch s = (s', Err e)) /\
  (err = None -> (forall x, (x < rescueRounds)%nat -> stopped x = false) -> (rescued < 1000)%nat ->
     forall id r, rowAt (clStore c) id = Some r -> lapsed (drvTime S (clNow c)) r ->
       id ∉ drvLocked (clStore c) -> exists r', rowAt (cStore st') id = Some r' /\ returned r r').
Proof.
  intros Hl Hg Hstart Hr Hm [Es _] Hy.
  pose proof (cluster_reachable_ok cfg gap shortest Hl Hg c0 c Hstart Hr) as Hok.
  pose proof (co_wf _ _ _ Hok) as Hwf. rewrite <- Es in Hwf. unfold rescueOnce.
  pose proof (sweepLoop_ends (cfg i) k tick (fun _ => clNow c) Hy stopped rescueRounds 0 0 st Hwf) as Hn.
  pose proof (sweepLoop_locked (cfg i) k tick (fun _ => clNow c) stopped rescueRounds 0 0 st) as Hlk.
  pose proof (sweepLoop_sweeps (cfg i) k tick (fun _ => clNow c) stopped rescueRounds 0 0 st Hy Hwf) as Hsw.
  destruct (sweepLoop _ _ _ _ _ _ _ _ st) as [[st' n] err]. cbn [fst] in Hlk.
  destruct Hsw as (ids & (_ & Hin & Hout) & _ & _). rewrite Es in Hin, Hout, Hlk. split_all.
  - intros id. destruct (decide (id ∈ ids)) as [Hid|Hid]; [right | left; by apply Hout].
    destruct (Hin id Hid) as (r0 & r' & t & Hr0 & Hs & Ht & (_ & Hle) & Hr' & Hst & Ha & Hnone).
    exists r0, r'. split_all; [done | by split; [|exists t] | done | by split_all].
  - intros j h Ho. apply Hout. intros Hid.
    destruct (Hin _ Hid) as (r0 & _ & t & Hr0 & _ & Ht & (_ & Hle) & _).
    destruct (co_live _ _ _ Hok j h Ho) as (_ & Hnow & r & u & (Hrow & _) & Hu & Hlast).
    simpl in Hrow. rewrite Hrow in Hr0. injection Hr0 as <-. rewrite Hu in Ht. injection Ht as <-.
    pose proof (drvTime_near (S := S) (clNow c)). lia.
  - intros e ->. destruct Hn as (_ & s & s' & Hs & Hf). eauto.
  - intros -> Hgo Hfew id r Hrow Hlap Hfree.
    destruct Hn as [(x & Hx & Hs)|[Hn|[x Hn]]]; [rewrite Hgo in Hs by lia; done | |].
    { change (0 + rescueRounds * Z.to_nat rescueBatch)%nat with 1000%nat in Hn. lia. }
    destruct (decide (id ∈ ids)) as [Hid|Hid].
    + destruct (Hin id Hid) as (r0 & r' & t & Hr0 & _ & _ & _ & Hr' & Hst & Ha & Hnone).
      rewrite Hrow in Hr0. injection Hr0 as <-. exists r'. by split_all.
    + exfalso. apply (Hn id r); [by rewrite Hout | by rewrite Hlk | done].
Qed.

(** C22: no worker idles while a job waits.  A fetch round claims at most as many jobs as it has
    slots for.  If it claims fewer, then it was told to stop, or a fetch failed, which its last log record says, or it has
    left no due job behind in any configured queue, whatever order it visited them in, save those
    whose rows another session has locked. *)
Theorem claimRound_leaves_none_due {S} `{FetchCompletes S} c jobCtx tick draw now stopping capacity
    (st : ClientState S) :
  (forall i n, 0 < n -> 0 <= draw i n < n) -> weightsOk (queues c) -> fewQueues (queues c) ->
  drvWf (cStore st) ->
  exists st' rows, claimRound c jobCtx tick draw now stopping capacity st = Some (st', rows) /\
    (length rows <= capacity)%nat /\
    ((length rows < capacity)%nat ->
     (exists i, (i < length (queues c))%nat /\ stopping i = true) \/
     (exists q, q ∈ qname <$> queues c /\ fetchFailed c now q st') \/
     forall q, q ∈ qname <$> queues c -> exists i, noneDue q (now i) (cStore st')).
Proof.
  intros Hd Hw Hf Hwf. unfold claimRound.
  destruct (weightedOrder_perm draw (queues c) Hd Hw Hf) as (order & -> & Hperm).
  destruct (claimQueues c jobCtx tick now stopping 0 order capacity [] st) as [st' rows] eqn:E.
  exists st', rows. split; [done|].
  destruct (claimQueues_bounded _ _ _ _ _ _ _ _ _ _ _ _ E) as [Hlen _]. split; [simpl in Hlen; lia|].
  intros Hlt. assert (length order = length (queues c)) as Hl by (by rewrite Hperm, length_fmap).
  destruct (claimQueues_empties _ _ _ _ _ _ _ _ _ _ _ _ Hwf E) as [(j & Hj & Hs)|Hr]; [done | |].
  - left. exists j. split; [lia | done].
  - right. by setoid_rewrite <- Hperm.
Qed.

(** ** Witnesses *)

(** Three jobs wait and four slots are free. *)
Lemma claimRound_leaves_none_due_witness :
  exists st' rows,
    claimRound demoClient Background poolTick (fun _ _ => 0) (fun _ => 2000) (fun _ => false) 4 poolState
      = Some (st', rows) /\ length rows = 3%nat /\
    forall q, q ∈ qname <$> queues demoClient -> exists i : nat, noneDue q 2000 (cStore st').
Proof.
  destruct (claimRound_leaves_none_due demoClient Background poolTick (fun _ _ => 0) (fun _ => 2000)
    (fun _ => false) 4 poolState) as (st' & rows & Hc & Hle & Hn).
  - lia.
  - repeat constructor; simpl; unfold maxQueueWeight; lia.
  - vm_compute. discriminate.
  - apply run_wf, New_wf.
  - exists st', rows. split; [exact Hc|].
    assert (option_map (fun x => length x.2) (Some (st', rows)) = Some 3%nat) as Hlen
      by (rewrite <- Hc; vm_compute; reflexivity).
    injection Hlen as Hlen. split; [exact Hlen|].
    destruct Hn as [(i & _ & Hi)|[(q & _ & Hf & _)|Hn]]; [rewrite Hlen; lia | discriminate Hi | | exact Hn].
    destruct Hf as (j & n & s & s' & e & _ & He). cbn [drvFetchAvailable memDriverOps] in He. unfold FetchAvailable in He.
    destruct (claimLoop _ _ _ _ _). discriminate He.
Defined.

(** Two members; the first claims a job and dies; a minute later the second sweeps. *)
Definition orphanedCluster : Cluster MemDriver :=
  demoLater (1000 + Minute)
    (MkCluster (clStore demoClaimed) 1000 (delete 1%nat (clMembers demoClaimed)) (clStrays demoClaimed)).

Lemma orphanedCluster_reachable :
  rtc (clusterStep (fun _ => demoClient) (40 * Second)) demoStart orphanedCluster.
Proof.
  transitivity demoClaimed; [exact demoClaimed_reachable|].
  eapply rtc_l; [apply (cl_crash _ _ demoClaimed 1)|]. eapply rtc_l; [|apply rtc_refl].
  apply (cl_tick _ _ (MkCluster (clStore demoClaimed) 1000 (delete 1%nat (clMembers demoClaimed))
    (clStrays demoClaimed)) (1000 + Minute)); [by vm_compute|].
  apply inTime_check. by vm_compute.
Qed.

Lemma dead_workers_jobs_return_witness :
  exists r st', rowAt (clStore orphanedCluster) 1 = Some r /\ lapsed (clNow orphanedCluster) r /\
    rescueOnce demoClient (fun _ => 7) (fun _ => demoTick) (fun _ => clNow orphanedCluster)
      (fun _ => false) (demoView 2 orphanedCluster) = (st', 1%nat, None) /\
    exists r', rowAt (cStore st') 1 = Some r' /\ returned r r'.
Proof.
  destruct (rescueOnce demoClient (fun _ => 7) (fun _ => demoTick) (fun _ => clNow orphanedCluster)
      (fun _ => false) (demoView 2 orphanedCluster)) as [[st' n] err] eqn:E.
  assert (n = 1%nat /\ err = None) as [-> ->]
    by (split; [change n with (st', n, err).1.2 | change err with (st', n, err).2]; rewrite <- E; vm_compute; reflexivity).
  assert (exists r, rowAt (clStore orphanedCluster) 1 = Some r /\ lapsed (clNow orphanedCluster) r) as (r & Hr & Hl).
  { eexists. split; [vm_compute; reflexivity|]. split; [reflexivity|]. eexists. split; [reflexivity|].
    vm_compute. discriminate. }
  exists r, st'. split; [exact Hr|]. split; [exact Hl|]. split; [reflexivity|].
  pose proof (dead_workers_jobs_return (fun _ => demoClient) (40 * Second) Minute demoStart orphanedCluster 2
      newMember (demoView 2 orphanedCluster) (fun _ => 7) (fun _ => demoTick) (fun _ => false)) as H.
  cbv beta in H. rewrite E in H. destruct H as (_ & _ & _ & H).
  - intros i. vm_compute. split; discriminate.
  - vm_compute. split; [discriminate | done].
  - split; [apply New_wf | by split].
  - exact orphanedCluster_reachable.
  - vm_compute. reflexivity.
  - by split; vm_compute.
  - intros id. vm_compute. reflexivity.
  - apply (H eq_refl (fun _ _ => eq_refl)); [lia | exact Hr | exact Hl | apply not_elem_of_empty].
Defined.
