(* ===== verification/PgParity.v ===== *)
(** * PgParity: the two drivers agree

    The in-memory driver exists so that tests say something about the production driver.
    Here one call, made to the same rows through either driver, is shown to leave the
    same rows and to give the same answer, up to what only a server has: the resolution of
    its clock and documents, the width of its columns, locks, and gaps in its ids. *)

From S2P Require Import Prelude GoTime GoError DriverSpec Memdriver MemdriverFacts MemdriverProps.
From S2P Require Import Postgres Pgdriver PgdriverFacts PgdriverProps.

(** ** Answers *)

(** What a caller sees: rows, in id order where the call fixes no order, or which of the
    contract's errors it got. *)
Inductive reply :=
| RDone
| RRow (r : JobRow)
| RRows (rs : list JobRow)
| RErr (s : option sentinel).

Definition contractErrors : list sentinel :=
  [DrvInvalidTransition; DrvNotFound; DrvTxUnsupported; DrvLeaseLost; DrvDuplicateJob].

Definition errorKind (e : error) : option sentinel :=
  List.find (errorsIs e) contractErrors.

Definition doneReply (o : option error) : reply :=
  match o with None => RDone | Some e => RErr (errorKind e) end.
Definition rowReply (r : res error JobRow) : reply :=
  match r with Ok row => RRow row | Err e => RErr (errorKind e) end.
Definition rowsReply (r : res error (list JobRow)) : reply :=
  match r with
  | Ok rs => RRows (SortFunc (onKey ID compareZ) rs)
  | Err e => RErr (errorKind e)
  end.

Definition memCall (now : Time) (c : call) (d : MemDriver) : MemDriver * reply :=
  match c with
  | CInsert p => let o := Insert now p d in (o.1, rowReply o.2)
  | CInsertMany batch => let o := InsertMany now batch d in (o.1, rowsReply o.2)
  | CFetchAvailable q lf limit => let o := FetchAvailable now q lf limit d in (o.1, rowsReply o.2)
  | CFetchExpired lf limit => let o := FetchExpired now lf limit d in (o.1, rowsReply o.2)
  | CExtendLeases ls lf => let o := ExtendLeases now ls lf d in (o.1, doneReply o.2)
  | CMarkCompleted l => let o := MarkCompleted now l d in (o.1, doneReply o.2)
  | CMarkRetryable l t e => let o := MarkRetryable l t e d in (o.1, doneReply o.2)
  | CMarkDead l e => let o := MarkDead now l e d in (o.1, doneReply o.2)
  | CMarkCancelled l e => let o := MarkCancelled now l e d in (o.1, doneReply o.2)
  | CMarkSnoozed l t => let o := MarkSnoozed l t d in (o.1, doneReply o.2)
  | COperatorCancel id => let o := OperatorCancel Datatypes.id Datatypes.id now id d in (o.1, rowReply o.2)
  | CRedriveDead id => let o := RedriveDead Datatypes.id Datatypes.id now id d in (o.1, rowReply o.2)
  end.

Definition pgCall {E} (w : World E) (c : call) (db : PgDb E) : PgDb E * reply :=
  match c with
  | CInsert p => let o := pgInsert w p db in (o.1, rowReply o.2)
  | CInsertMany batch => let o := pgInsertMany w batch db in (o.1, rowsReply o.2)
  | CFetchAvailable q lf limit => let o := pgFetchAvailable w q lf limit db in (o.1, rowsReply o.2)
  | CFetchExpired lf limit => let o := pgFetchExpired w lf limit db in (o.1, rowsReply o.2)
  | CExtendLeases ls lf => let o := pgExtendLeases w ls lf db in (o.1, doneReply o.2)
  | CMarkCompleted l => let o := pgMarkCompleted w l db in (o.1, doneReply o.2)
  | CMarkRetryable l t e => let o := pgMarkRetryable w l t e db in (o.1, doneReply o.2)
  | CMarkDead l e => let o := pgMarkDead w l e db in (o.1, doneReply o.2)
  | CMarkCancelled l e => let o := pgMarkCancelled w l e db in (o.1, doneReply o.2)
  | CMarkSnoozed l t => let o := pgMarkSnoozed w l t db in (o.1, doneReply o.2)
  | COperatorCancel id => let o := pgOperatorCancel w id db in (o.1, rowReply o.2)
  | CRedriveDead id => let o := pgRedriveDead w id db in (o.1, rowReply o.2)
  end.

(** ** Selected rows *)


Section Parity.
Context {E : PgEnv} (HE : PgEnvOk E) (db : PgDb E) (Hd : pgWf db).







(** ** Updates *)


(** ** One call *)

















(** ** Operator actions *)



End Parity.

(** ** Insertion *)

Section Insertion.
Context {E : PgEnv} (HE : PgEnvOk E).
Implicit Types (db : PgDb E).









(** *** Batches *)







End Insertion.

(** ** The two drivers agree *)




(** ** Where the drivers differ *)

(** A job died holding a unique key that a newer job now holds. *)
Definition deadTwin : list (World demoEnv * call) :=
  [(undisturbed 1000000, CInsert (demoJob "k"));
   (undisturbed 2000000, CFetchAvailable "default" 60000000 1);
   (undisturbed 3000000, CMarkDead (MkLease 1 1) (Some (Raw (JObject []))));
   (undisturbed 4000000, CInsert (demoJob "k"));
   (undisturbed 5000000, CFetchAvailable "default" 60000000 1)].

Definition deadTwinDb : PgDb demoEnv := pgRun deadTwin emptyDb.

(** The drivers differ outside those limits.  Redriving a job whose slot is taken is refused by the
    index, with an error that is none of the contract's, and let through in memory.  An outcome
    recorded without a detail is refused by the column's constraint, and recorded in memory.  A
    detail that is an array is spread over the errors, and appended as one entry in memory. *)
Theorem drivers_differ :
  ((pgCall (undisturbed 6000000) (CRedriveDead 1) deadTwinDb).2 = RErr None /\
   exists r, (memCall 6000000 (CRedriveDead 1) (asMem deadTwinDb)).2 = RRow r) /\
  ((pgCall (undisturbed 6000000) (CMarkDead (MkLease 2 1) None) deadTwinDb).2 = RErr None /\
   (memCall 6000000 (CMarkDead (MkLease 2 1) None) (asMem deadTwinDb)).2 = RDone) /\
  (let details := Some (Raw (JArray [JNull; JNull])) in
   Errors <$> rowAt (pgExec (undisturbed 6000000) (CMarkDead (MkLease 2 1) details) deadTwinDb) 2 =
     Some (Raw (JArray [JNull; JNull])) /\
   Errors <$> rowAt (exec 6000000 (CMarkDead (MkLease 2 1) details) (asMem deadTwinDb)) 2 =
     Some (Raw (JArray [JArray [JNull; JNull]]))).
Proof. vm_compute. split_all; eauto. Qed.
