(* ===== verification/PgSession.v ===== *)
(** * PgSession: leadership and wake-ups over dedicated connections

    Models the session-bound half of internal/pgdriver/pgdriver.go: [TryBecomeLeader] and
    [ReleaseLeader], which keep an advisory lock on a connection checked out of the pool; [Notify]
    and [NotifyTx]; [ListenWakeups].  The fleet is the set of driver processes with the server's
    view of their sessions; what the network does is an argument of each operation. *)

From S2P Require Import Prelude GoTime GoError Pgdriver.

(** ** Leadership *)

Definition AdvisoryLockPeriodic : Z := 0x64726f7665720001.

(** Sessions are numbered as they are opened.  [leaderConn] and [idle] are each driver's held
    connection and its pool, [busy] the connections checked out for anything else; [holder] is
    the session that has the advisory lock. *)
Record Fleet := MkFleet {
  leaderConn : gmap nat nat;
  idle : gmap nat (list nat);
  busy : gset nat;
  opened : gset nat;
  holder : option nat;
  nextSession : nat
}.

Definition idleOf (f : Fleet) (i : nat) : list nat := default [] (idle f !! i).

(** The end of a session, with what it holds. *)
Definition endSession (s : nat) (f : Fleet) : Fleet :=
  MkFleet (leaderConn f) (idle f) (busy f) (opened f ∖ {[s]})
    (if bool_decide (holder f = Some s) then None else holder f) (nextSession f).

(** [pg_try_advisory_lock] in session [s]; a session may take its own lock again. *)
Definition tryAdvisoryLock (s : nat) (f : Fleet) : Fleet * bool :=
  match holder f with
  | None => (MkFleet (leaderConn f) (idle f) (busy f) (opened f) (Some s) (nextSession f), true)
  | Some h => (f, bool_decide (h = s))
  end.

(** [pool.Acquire]: an idle connection, which may have died, or a new one. *)
Definition acquire (i : nat) (f : Fleet) : Fleet * nat :=
  match idleOf f i with
  | s :: rest =>
      (MkFleet (leaderConn f) (<[i := rest]> (idle f)) (busy f) (opened f) (holder f)
         (nextSession f), s)
  | [] =>
      (MkFleet (leaderConn f) (idle f) (busy f) ({[nextSession f]} ∪ opened f) (holder f)
         (S (nextSession f)), nextSession f)
  end.

(** [conn.Release]: back to the pool. *)
Definition release (i s : nat) (f : Fleet) : Fleet :=
  MkFleet (leaderConn f) (<[i := s :: idleOf f i]> (idle f)) (busy f) (opened f) (holder f)
    (nextSession f).

Definition setBusy (b : gset nat) (f : Fleet) : Fleet :=
  MkFleet (leaderConn f) (idle f) b (opened f) (holder f) (nextSession f).

Definition setLeader (i : nat) (c : option nat) (f : Fleet) : Fleet :=
  MkFleet (partial_alter (fun _ => c) i (leaderConn f)) (idle f) (busy f) (opened f) (holder f)
    (nextSession f).

(** [closeAcquiredConn]: the connection leaves the pool for good; [closed] says whether the
    server has seen it go, or will find out later. *)
Definition closeAcquiredConn (closed : bool) (s : nat) (f : Fleet) : Fleet :=
  if closed then endSession s f else f.

Definition closeLeaderConnLocked (closed : bool) (i : nat) (f : Fleet) : Fleet :=
  match leaderConn f !! i with
  | None => f
  | Some s => setLeader i None (closeAcquiredConn closed s f)
  end.

Definition ReleaseLeader (closed : bool) (i : nat) (f : Fleet) : Fleet :=
  closeLeaderConnLocked closed i f.

(** What one [TryBecomeLeader] meets: whether its ping is answered, whether each close is seen,
    whether the pool gives a connection, what becomes of the lock query, and whether the
    context is done when an error is looked at.  A session that has ended answers nothing. *)
Record leaderWorld := {
  pinged : bool;
  oldClosed : bool;
  acquired : option error;
  queried : fault;
  newClosed : bool;
  ctxDone : bool
}.

Definition overSession (s : nat) (f : Fleet) (o : fault) : fault :=
  if bool_decide (s ∈ opened f) then o else Refused (Msg "conn closed").

(** From [pool.Acquire] on. *)
Definition takeLock (w : leaderWorld) (i : nat) (f : Fleet) : Fleet * (bool * option error) :=
  match acquired w with
  | Some e =>
      (f, (false, if ctxDone w then None else Some (wrapOp "acquire leader connection" e)))
  | None =>
      let '(f1, s) := acquire i f in
      let '(f2, held) := tryAdvisoryLock s f1 in
      match overSession s f1 (queried w) with
      | Delivered =>
          if held then (setLeader i (Some s) f2, (true, None)) else (release i s f2, (false, None))
      | Refused e =>
          (closeAcquiredConn (newClosed w) s f1,
           (false, if ctxDone w then None else Some (wrapOp "try advisory lock" e)))
      | Unacknowledged e =>
          (closeAcquiredConn (newClosed w) s f2,
           (false, if ctxDone w then None else Some (wrapOp "try advisory lock" e)))
      end
  end.

Definition TryBecomeLeader (w : leaderWorld) (i : nat) (f : Fleet) : Fleet * (bool * option error) :=
  match leaderConn f !! i with
  | Some s =>
      if pinged w && bool_decide (s ∈ opened f) then (f, (true, None))
      else takeLock w i (closeLeaderConnLocked (oldClosed w) i f)
  | None => takeLock w i f
  end.

Definition NewFleet : Fleet := MkFleet ∅ ∅ ∅ ∅ None 0.

(** What happens to the fleet: calls of any driver, the end of any session, and the checkouts
    of everything else, which never asks for the lock. *)
Inductive fleetStep : Fleet -> Fleet -> Prop :=
| FTry w i f : fleetStep f (TryBecomeLeader w i f).1
| FRelease closed i f : fleetStep f (ReleaseLeader closed i f)
| FSessionEnds s f : fleetStep f (endSession s f)
| FCheckout i f : fleetStep f (setBusy ({[(acquire i f).2]} ∪ busy f) (acquire i f).1)
| FCheckin i s f : s ∈ busy f -> fleetStep f (release i s (setBusy (busy f ∖ {[s]}) f)).

(** ** Notifications *)

(** A caller's transaction: what it has done, the notifications its commit will send, whether
    a statement failed, and its savepoints, latest first. *)
Record Tx := MkTx {
  work : list Z;
  notes : nat;
  aborted : bool;
  savepoints : list (string * (list Z * nat))
}.

(** What becomes of a statement on the transaction's connection: it runs, the server rejects
    it, or it is never sent (its context is done). *)
Inductive execOutcome :=
| Ran
| Rejected (e : error)
| NotSent (e : error).

Definition failTx (tx : Tx) : Tx := MkTx (work tx) (notes tx) true (savepoints tx).

Definition errAborted : error :=
  Msg "ERROR: current transaction is aborted, commands ignored until end of transaction block (SQLSTATE 25P02)".

(** A statement that an aborted transaction ignores. *)
Definition execTx (o : execOutcome) (stmt : Tx -> Tx) (tx : Tx) : Tx * option error :=
  match o with
  | NotSent e => (tx, Some e)
  | Rejected e => (failTx tx, Some e)
  | Ran => if aborted tx then (tx, Some errAborted) else (stmt tx, None)
  end.

Definition savepoint (name : string) (tx : Tx) : Tx :=
  MkTx (work tx) (notes tx) (aborted tx) ((name, (work tx, notes tx)) :: savepoints tx).
Definition pgNotify (tx : Tx) : Tx := MkTx (work tx) (S (notes tx)) (aborted tx) (savepoints tx).

Fixpoint dropTo (name : string) (sps : list (string * (list Z * nat)))
    : option ((list Z * nat) * list (string * (list Z * nat))) :=
  match sps with
  | [] => None
  | (n, saved) :: rest => if String.eqb n name then Some (saved, rest) else dropTo name rest
  end.

Definition releaseSavepoint (name : string) (tx : Tx) : Tx :=
  match dropTo name (savepoints tx) with
  | Some (_, rest) => MkTx (work tx) (notes tx) (aborted tx) rest
  | None => failTx tx
  end.

(** ROLLBACK TO runs in an aborted transaction too, and keeps the savepoint. *)
Definition rollbackTo (o : execOutcome) (name : string) (tx : Tx) : Tx * option error :=
  match o with
  | NotSent e => (tx, Some e)
  | Rejected e => (failTx tx, Some e)
  | Ran =>
      match dropTo name (savepoints tx) with
      | Some (saved, rest) => (MkTx saved.1 saved.2 false ((name, saved) :: rest), None)
      | None => (failTx tx, Some (Msg "ERROR: savepoint does not exist (SQLSTATE 3B001)"))
      end
  end.

Definition Notify (sent : option error) : option error :=
  match sent with Some e => Some (wrapOp "notify drover" e) | None => None end.

(** [o i] is the outcome of the i-th statement; the rollback is statement 3. *)
Definition NotifyTx (o : nat -> execOutcome) (tx : Tx) : Tx * option error :=
  match execTx (o 0%nat) (savepoint "drover_notify") tx with
  | (tx1, Some e) => (tx1, Some (wrapOp "notify drover savepoint" e))
  | (tx1, None) =>
      match execTx (o 1%nat) pgNotify tx1 with
      | (tx2, Some e) =>
          match rollbackTo (o 3%nat) "drover_notify" tx2 with
          | (tx3, Some rb) =>
              (tx3, Some (Wrapf ("notify drover in tx: " +:+ errorText e +:+ " (rollback savepoint: "
                                 +:+ errorText rb +:+ ")") [e; rb]))
          | (tx3, None) => (tx3, Some (wrapOp "notify drover in tx" e))
          end
      | (tx2, None) =>
          match execTx (o 2%nat) (releaseSavepoint "drover_notify") tx2 with
          | (tx3, Some e) => (tx3, Some (wrapOp "notify drover release savepoint" e))
          | (tx3, None) => (tx3, None)
          end
      end
  end.

(** ** Listening *)

(** What [WaitForNotification] returns, in order, and whether the context is done when it
    fails. *)
Inductive listenEvent :=
| Notified
| WaitFails (e : error) (done : bool).

(** A session's course: the channel's one slot after each notification, and the end of the
    loop; a list that ends means the session is still waiting. *)
Fixpoint listenLoop (events : list listenEvent) (wake : bool) : bool * option (option error) :=
  match events with
  | [] => (wake, None)
  | Notified :: rest => listenLoop rest true
  | WaitFails e done_ :: _ =>
      (wake, Some (if done_ then None else Some (wrapOp "wait for drover notification" e)))
  end.

(** What the session leaves: the slot, the result, and whether LISTEN was undone and the
    connection released. *)
Record listenEnd := {
  leWake : bool;
  leResult : option (option error);
  leUnlistened : bool;
  leReleased : bool
}.

Definition ListenWakeups (acquired listened : option error) (ctxDone : bool)
    (events : list listenEvent) (wake : bool) : listenEnd :=
  match acquired with
  | Some e =>
      {| leWake := wake;
         leResult := Some (if ctxDone then None else Some (wrapOp "acquire listen connection" e));
         leUnlistened := false; leReleased := false |}
  | None =>
      match listened with
      | Some e =>
          {| leWake := wake;
             leResult := Some (if ctxDone then None else Some (wrapOp "listen drover" e));
             leUnlistened := false; leReleased := true |}
      | None =>
          let '(wake', r) := listenLoop events wake in
          let finished := match r with Some _ => true | None => false end in
          {| leWake := wake'; leResult := r; leUnlistened := finished; leReleased := finished |}
      end
  end.

(** ** The leader is alone *)

Record fleetWf (f : Fleet) : Prop := {
  fw_lock : forall i s, leaderConn f !! i = Some s -> s ∈ opened f -> holder f = Some s;
  fw_inj : forall i j s, leaderConn f !! i = Some s -> leaderConn f !! j = Some s -> i = j;
  fw_leader : forall i s, leaderConn f !! i = Some s ->
    (s ∉ busy f) /\ (forall j, s ∉ idleOf f j) /\ (s < nextSession f)%nat;
  fw_holder : forall s, holder f = Some s ->
    (s ∉ busy f) /\ (forall j, s ∉ idleOf f j) /\ (s ∈ opened f) /\ (s < nextSession f)%nat;
  fw_idle : forall i s, s ∈ idleOf f i -> (s ∉ busy f) /\ (s < nextSession f)%nat;
  fw_apart : forall i, NoDup (idleOf f i) /\
    forall j s, s ∈ idleOf f i -> s ∈ idleOf f j -> i = j;
  fw_busy : forall s, s ∈ busy f -> (s < nextSession f)%nat
}.

Lemma idleOf_insert (i j : nat) (l : list nat) (m : gmap nat (list nat)) :
  default [] (<[i := l]> m !! j) = if decide (i = j) then l else default [] (m !! j).
Proof. case_decide as H; [subst; by rewrite lookup_insert_eq | by rewrite lookup_insert_ne]. Qed.

(** An acquired connection is nobody else's. *)
Record acquiredOk (f f1 : Fleet) (s : nat) : Prop := {
  aq_wf : fleetWf f1;
  aq_leader : leaderConn f1 = leaderConn f;
  aq_holder : holder f1 = holder f;
  aq_notleader : forall i, leaderConn f1 !! i <> Some s;
  aq_notidle : forall i, s ∉ idleOf f1 i;
  aq_notbusy : s ∉ busy f1;
  aq_notholder : holder f1 <> Some s;
  aq_range : (s < nextSession f1)%nat
}.

Lemma acquire_ok i f : fleetWf f -> acquiredOk f (acquire i f).1 (acquire i f).2.
Proof.
  intros [Hlock Hinj Hlead Hhold Hidle Hapart Hbusy]. unfold acquire.
  destruct (idleOf f i) as [|s rest] eqn:Ei; simpl.
  - set (n := nextSession f). split; simpl; try done.
    + split; simpl; try done.
      * intros j s Hj Hs. apply (Hlock j s Hj). destruct (Hlead j s Hj) as (_ & _ & ?). set_unfold.
        destruct Hs as [->|?]; [unfold n in *; lia|done].
      * intros j s Hj. destruct (Hlead j s Hj) as (? & ? & ?). split_all; [done | done | lia].
      * intros s Hs. destruct (Hhold s Hs) as (? & ? & ? & ?). split_all; [done | done | set_solver | lia].
      * intros j s Hs. destruct (Hidle j s Hs). split; [done|lia].
      * intros s Hs. specialize (Hbusy s Hs). lia.
    + intros j Hj. destruct (Hlead j n Hj) as (_ & _ & ?). unfold n in *. lia.
    + intros j Hj. destruct (Hidle j n Hj) as [_ ?]. unfold n in *. lia.
    + intros Hn. specialize (Hbusy n Hn). unfold n in *. lia.
    + intros Hn. destruct (Hhold n Hn) as (_ & _ & _ & ?). unfold n in *. lia.
    + unfold n. lia.
  - set (f1 := MkFleet _ _ _ _ _ _).
    assert (forall j x, x ∈ idleOf f1 j -> x ∈ idleOf f j) as Hsub.
    { intros j x. unfold idleOf at 1, f1. simpl. rewrite idleOf_insert. case_decide; [subst j; rewrite Ei; set_solver|done]. }
    assert (s ∈ idleOf f i) as Hs by (rewrite Ei; set_solver).
    destruct (Hapart i) as [Hnd Hap]. rewrite Ei in Hnd. apply NoDup_cons in Hnd as [Hns Hnd].
    split; simpl; try done.
    + split; simpl; try done.
      * intros j x Hx. destruct (Hlead j x Hx) as (? & Hno & ?). split_all; [done | | done].
        intros k Hk. by apply (Hno k), Hsub.
      * intros x Hx. destruct (Hhold x Hx) as (? & Hno & ? & ?). split_all; [done | | done | done].
        intros k Hk. by apply (Hno k), Hsub.
      * intros j x Hx. by apply Hsub, Hidle in Hx.
      * intros j. split; [|intros k x Hx Hk; destruct (Hapart j) as [_ Ha]; apply (Ha k x); by apply Hsub].
        unfold idleOf, f1. simpl. rewrite idleOf_insert. case_decide; [done|]. apply Hapart.
    + intros j Hj. destruct (Hlead j s Hj) as (_ & Hno & _). by apply (Hno i).
    + intros j Hj. unfold idleOf, f1 in Hj. simpl in Hj. rewrite idleOf_insert in Hj. case_decide as Hij; [done|].
      apply Hij. by apply (Hap j s).
    + by apply (Hidle i s).
    + intros Hn. destruct (Hhold s Hn) as (_ & Hno & _). by apply (Hno i).
    + by apply (Hidle i s).
Qed.

Lemma endSession_wf s f : fleetWf f -> fleetWf (endSession s f).
Proof.
  intros [Hlock Hinj Hlead Hhold Hidle Hapart Hbusy]. split; simpl; try done.
  - intros i x Hx Ho. apply elem_of_difference in Ho as [Ho Hne]. rewrite (Hlock i x Hx Ho).
    rewrite bool_decide_eq_false_2; [done|]. set_solver.
  - intros x. case_bool_decide as Hs; [done|]. intros Hx. destruct (Hhold x Hx) as (? & ? & ? & ?).
    split_all; try done. apply elem_of_difference. split; [done|]. rewrite elem_of_singleton. congruence.
Qed.

Lemma closeAcquiredConn_wf closed s f : fleetWf f -> fleetWf (closeAcquiredConn closed s f).
Proof. destruct closed; [apply endSession_wf | done]. Qed.

Lemma setLeader_None_wf i f : fleetWf f -> fleetWf (setLeader i None f).
Proof.
  intros [Hlock Hinj Hlead Hhold Hidle Hapart Hbusy].
  assert (forall j s, delete i (leaderConn f) !! j = Some s -> leaderConn f !! j = Some s) as Hd
    by (intros j s H; by apply lookup_delete_Some in H as [_ ?]).
  split; simpl; try done.
  - intros j s Hj. by apply (Hlock j s), Hd.
  - intros j k s Hj Hk. by apply (Hinj j k s); apply Hd.
  - intros j s Hj. by apply (Hlead j s), Hd.
Qed.

Lemma closeLeaderConnLocked_wf closed i f : fleetWf f -> fleetWf (closeLeaderConnLocked closed i f).
Proof.
  intros Hf. unfold closeLeaderConnLocked. destruct (leaderConn f !! i); [|done].
  by apply setLeader_None_wf, closeAcquiredConn_wf.
Qed.

Lemma release_wf i s f :
  fleetWf f -> (forall j, leaderConn f !! j <> Some s) -> (forall j, s ∉ idleOf f j) -> s ∉ busy f ->
  holder f <> Some s -> (s < nextSession f)%nat -> fleetWf (release i s f).
Proof.
  intros [Hlock Hinj Hlead Hhold Hidle Hapart Hbusy] Hnl Hni Hnb Hnh Hr.
  assert (forall j x, x ∈ idleOf (release i s f) j <-> x ∈ idleOf f j \/ j = i /\ x = s) as Hin.
  { intros j x. unfold idleOf at 1, release. simpl. rewrite idleOf_insert. fold (idleOf f j).
    case_decide as Hij; [subst j; rewrite elem_of_cons; naive_solver | naive_solver]. }
  split; simpl; try done.
  - intros j x Hx. destruct (Hlead j x Hx) as (? & Hno & ?). split_all; [done| |done].
    intros k [Hk|[-> ->]]%Hin; [by apply (Hno k) | by apply (Hnl j)].
  - intros x Hx. destruct (Hhold x Hx) as (? & Hno & ? & ?). split_all; [done| |done|done].
    intros k [Hk|[-> ->]]%Hin; [by apply (Hno k) | done].
  - intros j x [Hx|[-> ->]]%Hin; [by apply (Hidle j x) | done].
  - intros j. split.
    + unfold idleOf, release. simpl. rewrite idleOf_insert. case_decide as Hij; [subst j|apply Hapart].
      apply NoDup_cons. split; [apply Hni | apply Hapart].
    + intros k x [Hx|[-> ->]]%Hin [Hk|[Hk1 Hk2]]%Hin.
      * destruct (Hapart j) as [_ Ha]. by apply (Ha k x).
      * subst. exfalso. by apply (Hni j).
      * exfalso. by apply (Hni k).
      * done.
Qed.

(** A free lock taken by an acquired, open connection. *)
Lemma lockTaken_wf f f1 s :
  acquiredOk f f1 s -> s ∈ opened f1 -> fleetWf (tryAdvisoryLock s f1).1.
Proof.
  intros [[Hlock Hinj Hlead Hhold Hidle Hapart Hbusy] _ _ Hnl Hni Hnb Hnh Hr] Ho.
  unfold tryAdvisoryLock. destruct (holder f1) as [h|] eqn:Eh; simpl.
  - by split; rewrite ?Eh.
  - split; simpl; try done.
    + intros i x Hx Hxo. specialize (Hlock i x Hx Hxo). congruence.
    + intros x [= <-]. done.
Qed.

Lemma setLeader_Some_wf i s f :
  fleetWf f -> holder f = Some s -> (forall j, leaderConn f !! j <> Some s) ->
  fleetWf (setLeader i (Some s) f).
Proof.
  intros [Hlock Hinj Hlead Hhold Hidle Hapart Hbusy] Hh Hnl.
  assert (forall j x, <[i := s]> (leaderConn f) !! j = Some x ->
            j = i /\ x = s \/ leaderConn f !! j = Some x) as Hd.
  { intros j x. destruct (decide (i = j)) as [<-|Hne]; [rewrite lookup_insert_eq | rewrite lookup_insert_ne by done];
      [intros [= <-]|]; auto. }
  destruct (Hhold s Hh) as (H1 & H2 & H3 & H4).
  split; simpl; try done.
  - intros j x [[-> ->]|Hx]%Hd Ho; [done | by apply (Hlock j x)].
  - intros j k x [[-> ->]|Hx]%Hd [[-> Hxs]|Hk]%Hd; try done.
    + exfalso. by apply (Hnl k).
    + exfalso. subst x. by apply (Hnl j).
    + by apply (Hinj j k x).
  - intros j x [[-> ->]|Hx]%Hd; [done | by apply (Hlead j x)].
Qed.

(** A connection of its own on a live session, which has the lock. *)
Definition leads (f : Fleet) (i : nat) : Prop :=
  exists s, leaderConn f !! i = Some s /\ s ∈ opened f /\ holder f = Some s.

Lemma takeLock_spec w i f :
  fleetWf f -> fleetWf (takeLock w i f).1 /\ ((takeLock w i f).2.1 = true -> leads (takeLock w i f).1 i).
Proof.
  intros Hf. unfold takeLock. destruct (acquired w); [done|].
  pose proof (acquire_ok i f Hf) as Ha. destruct (acquire i f) as [f1 s]. simpl in Ha.
  pose proof (lockTaken_wf f f1 s Ha) as Hl.
  assert ((tryAdvisoryLock s f1).2 = true -> holder (tryAdvisoryLock s f1).1 = Some s) as Hheld.
  { unfold tryAdvisoryLock. destruct (holder f1) as [h|] eqn:Eh; simpl; [|done].
    intros Hb. apply bool_decide_eq_true_1 in Hb. congruence. }
  assert ((tryAdvisoryLock s f1).2 = false -> holder (tryAdvisoryLock s f1).1 <> Some s) as Hmiss.
  { unfold tryAdvisoryLock. destruct (holder f1) as [h|] eqn:Eh; simpl; [|done].
    intros Hb. apply bool_decide_eq_false_1 in Hb. congruence. }
  assert (leaderConn (tryAdvisoryLock s f1).1 = leaderConn f1 /\ opened (tryAdvisoryLock s f1).1 = opened f1 /\
          busy (tryAdvisoryLock s f1).1 = busy f1 /\ (forall j, idleOf (tryAdvisoryLock s f1).1 j = idleOf f1 j) /\
          nextSession (tryAdvisoryLock s f1).1 = nextSession f1) as (Hlc & Hop & Hbu & Hid & Hnx).
  { unfold tryAdvisoryLock, idleOf. by destruct (holder f1). }
  destruct (tryAdvisoryLock s f1) as [f2 held]. simpl in *.
  unfold overSession. case_bool_decide as Ho; [|split; [|done]; apply closeAcquiredConn_wf, Ha].
  specialize (Hl Ho). destruct (queried w); simpl.
  - destruct held; simpl.
    + split; [apply setLeader_Some_wf; [done | auto | rewrite Hlc; apply Ha]|]. intros _. exists s.
      simpl. change (partial_alter _ i (leaderConn f2)) with (<[i := s]> (leaderConn f2)).
      rewrite lookup_insert_eq, Hop. auto.
    + split; [|done]. apply release_wf; rewrite ?Hlc, ?Hbu, ?Hnx; auto.
      * apply (aq_notleader _ _ _ Ha).
      * intros j. rewrite Hid. apply (aq_notidle _ _ _ Ha).
      * apply (aq_notbusy _ _ _ Ha).
      * apply (aq_range _ _ _ Ha).
  - split; [|done]. apply closeAcquiredConn_wf, Ha.
  - split; [|done]. by apply closeAcquiredConn_wf.
Qed.

Lemma TryBecomeLeader_spec w i f :
  fleetWf f ->
  fleetWf (TryBecomeLeader w i f).1 /\
  ((TryBecomeLeader w i f).2.1 = true -> leads (TryBecomeLeader w i f).1 i).
Proof.
  intros Hf. unfold TryBecomeLeader. destruct (leaderConn f !! i) as [s|] eqn:Es; [|by apply takeLock_spec].
  case_bool_decide as Ho; [rewrite andb_true_r | rewrite andb_false_r];
    [|by apply takeLock_spec, closeLeaderConnLocked_wf].
  destruct (pinged w); [|by apply takeLock_spec, closeLeaderConnLocked_wf].
  split; [done|]. intros _. exists s. split_all; [done | done | by eapply fw_lock].
Qed.

Lemma checkout_wf i f :
  fleetWf f -> fleetWf (setBusy ({[(acquire i f).2]} ∪ busy f) (acquire i f).1).
Proof.
  intros Hf. pose proof (acquire_ok i f Hf) as Ha.
  assert (busy (acquire i f).1 = busy f) as Hb by (unfold acquire; by destruct (idleOf f i)).
  destruct (acquire i f) as [f1 s]. simpl in *. rewrite <- Hb.
  destruct Ha as [[Hlock Hinj Hlead Hhold Hidle Hapart Hbusy] _ _ Hnl Hni Hnb Hnh Hr]. split; simpl; try done.
  - intros j x Hx. destruct (Hlead j x Hx) as (? & ? & ?). split_all; [|done|done].
    assert (x <> s) by (intros ->; by apply (Hnl j)). set_solver.
  - intros x Hx. destruct (Hhold x Hx) as (? & ? & ? & ?). split_all; [|done..].
    assert (x <> s) by congruence. set_solver.
  - intros j x Hx. destruct (Hidle j x Hx). split; [|done].
    assert (x <> s) by (intros ->; by apply (Hni j)). set_solver.
  - intros x. rewrite elem_of_union, elem_of_singleton. intros [->|?]; auto.
Qed.

Lemma checkin_wf i s f : fleetWf f -> s ∈ busy f -> fleetWf (release i s (setBusy (busy f ∖ {[s]}) f)).
Proof.
  intros Hf Hs. apply release_wf; simpl.
  - destruct Hf as [Hlock Hinj Hlead Hhold Hidle Hapart Hbusy]. split; simpl; try done.
    + intros j x Hx. destruct (Hlead j x Hx) as (? & ? & ?). split_all; [set_solver|done..].
    + intros x Hx. destruct (Hhold x Hx) as (? & ? & ? & ?). split_all; [set_solver|done..].
    + intros j x Hx. destruct (Hidle j x Hx). split; [set_solver|done].
    + intros x Hx. apply Hbusy. set_solver.
  - intros j Hj. by destruct (fw_leader f Hf j s Hj) as [? _].
  - intros j Hj. by destruct (fw_idle f Hf j s Hj) as [? _].
  - set_solver.
  - intros Hh. by destruct (fw_holder f Hf s Hh) as [? _].
  - by apply (fw_busy f Hf).
Qed.

Lemma NewFleet_wf : fleetWf NewFleet.
Proof.
  split; simpl; try set_solver.
  intros i. unfold idleOf. simpl. rewrite lookup_empty. simpl. split; [constructor|set_solver].
Qed.

Lemma fleetStep_wf f f' : fleetWf f -> fleetStep f f' -> fleetWf f'.
Proof.
  intros Hf Hs. destruct Hs; [by apply TryBecomeLeader_spec | by apply closeLeaderConnLocked_wf |
    by apply endSession_wf | by apply checkout_wf | by apply checkin_wf].
Qed.

Lemma fleet_reachable_wf f : rtc fleetStep NewFleet f -> fleetWf f.
Proof.
  pose proof NewFleet_wf as H0. intros H. induction H as [|a b c Hab _ IH]; [done|].
  apply IH. by eapply fleetStep_wf.
Qed.

(** C11: At most one scheduler leads.  However the fleet got here (elections, releases, lost answers,
    ended sessions, closes the server has not seen, connections reused by everything else), two drivers that both hold a
    leader connection on a live session are the same driver, that session has the advisory
    lock, and no pooled or otherwise checked-out connection has it; and a [TryBecomeLeader] that answers true
    leaves its driver in that position, whatever its ping, its pool and its query met. *)
Theorem leader_is_alone f w i j s t :
  rtc fleetStep NewFleet f ->
  (leaderConn f !! i = Some s -> leaderConn f !! j = Some t -> s ∈ opened f -> t ∈ opened f ->
     i = j /\ s = t /\ holder f = Some s) /\
  (holder f = Some s -> (s ∉ busy f) /\ forall k, s ∉ idleOf f k) /\
  ((TryBecomeLeader w i f).2.1 = true -> leads (TryBecomeLeader w i f).1 i).
Proof.
  intros Hr. pose proof (fleet_reachable_wf f Hr) as Hf. split_all.
  - intros Hi Hj Hs Ht. pose proof (fw_lock f Hf i s Hi Hs) as H1.
    pose proof (fw_lock f Hf j t Hj Ht) as H2. assert (s = t) as -> by congruence.
    split; [by apply (fw_inj f Hf i j t) | done].
  - intros Hh. by destruct (fw_holder f Hf s Hh) as (? & ? & _).
  - by apply TryBecomeLeader_spec.
Qed.

(** A live leader, a rival that is turned away, the end of the leader's session, and the
    rival's success, of which it hears only at the second try. *)
Definition calm : leaderWorld :=
  {| pinged := true; oldClosed := true; acquired := None; queried := Delivered; newClosed := true;
     ctxDone := false |}.
Definition lostAnswer : leaderWorld :=
  {| pinged := true; oldClosed := true; acquired := None; queried := Unacknowledged (Msg "reset");
     newClosed := true; ctxDone := false |}.

Definition electionFleet : Fleet :=
  let f1 := (TryBecomeLeader calm 0 NewFleet).1 in
  let f2 := (TryBecomeLeader calm 1 f1).1 in
  let f3 := endSession 0 f2 in
  (TryBecomeLeader lostAnswer 1 f3).1.

Lemma leader_is_alone_witness :
  ((TryBecomeLeader calm 1 electionFleet).2.1 = true -> leads (TryBecomeLeader calm 1 electionFleet).1 1) /\
  (TryBecomeLeader calm 1 electionFleet).2 = (true, None) /\
  (TryBecomeLeader calm 1 (TryBecomeLeader calm 0 NewFleet).1).2 = (false, None).
Proof.
  split; [|split; vm_compute; reflexivity].
  apply (leader_is_alone electionFleet calm 1 1 0 0).
  eapply rtc_l; [exact (FTry calm 0 NewFleet)|]. eapply rtc_l; [apply (FTry calm 1)|].
  eapply rtc_l; [apply (FSessionEnds 0)|]. eapply rtc_l; [apply (FTry lostAnswer 1)|]. apply rtc_refl.
Defined.

(** The key is the text "drover" shifted left by 16 bits, plus 1; not by 8, as its comment
    has it. *)
Lemma advisory_key_shift :
  AdvisoryLockPeriodic = Z.shiftl 0x64726f766572 16 + 1 /\
  AdvisoryLockPeriodic <> Z.shiftl 0x64726f766572 8 + 1 /\ AdvisoryLockPeriodic <= MaxInt64.
Proof. vm_compute. repeat split; discriminate. Qed.

(** ** A notification cannot cost the caller its transaction *)

Definition rejected (o : execOutcome) : Prop := exists e, o = Rejected e.

(** [NotifyTx] leaves the caller's transaction usable and its work in place whether the
    notification itself runs, is rejected by the server, or is never sent, as long as the server
    accepts the savepoint statements; it adds one notification exactly when the
    statement ran, and answers nil exactly when all three statements did, with the savepoints as they were. *)
Theorem NotifyTx_keeps_the_transaction o tx :
  aborted tx = false -> ~ rejected (o 0%nat) -> ~ rejected (o 2%nat) -> o 3%nat = Ran ->
  let '(tx', r) := NotifyTx o tx in
  aborted tx' = false /\ work tx' = work tx /\
  notes tx' = (notes tx + match o 0%nat, o 1%nat with Ran, Ran => 1 | _, _ => 0 end)%nat /\
  (r = None <-> o 0%nat = Ran /\ o 1%nat = Ran /\ o 2%nat = Ran) /\
  (r = None -> savepoints tx' = savepoints tx).
Proof.
  intros Ha H0 H2 H3. unfold NotifyTx, execTx, rejected in *. destruct tx as [wk n ab sps]. simpl in Ha. subst ab.
  destruct (o 0%nat) as [|e0|e0]; [| naive_solver | simpl; split_all; try done; naive_solver].
  destruct (o 1%nat) as [|e1|e1]; simpl; rewrite ?H3; simpl.
  - destruct (o 2%nat) as [|e2|e2]; simpl; [| naive_solver |]; split_all; try done; try lia; naive_solver.
  - split_all; try done; try lia; naive_solver.
  - split_all; try done; try lia; naive_solver.
Qed.

(** The server rejects the notification. *)
Definition fullQueue (i : nat) : execOutcome :=
  match i with 1%nat => Rejected (Msg "too many notifications in the NOTIFY queue") | _ => Ran end.

Lemma NotifyTx_keeps_the_transaction_witness :
  let tx := MkTx [7] 0 false [] in
  let '(tx', r) := NotifyTx fullQueue tx in
  aborted tx' = false /\ work tx' = work tx /\
  notes tx' = (notes tx + match fullQueue 0, fullQueue 1 with Ran, Ran => 1 | _, _ => 0 end)%nat /\
  (r = None <-> fullQueue 0 = Ran /\ fullQueue 1 = Ran /\ fullQueue 2 = Ran) /\
  (r = None -> savepoints tx' = savepoints tx).
Proof.
  apply (NotifyTx_keeps_the_transaction fullQueue (MkTx [7] 0 false []));
    [reflexivity | intros [e He]; discriminate He | intros [e He]; discriminate He | reflexivity].
Defined.

(** ** A listening session gives its connection back *)

Lemma listenLoop_spec events wake :
  (listenLoop events wake).1 = true -> wake = true \/ Notified ∈ events.
Proof.
  revert wake. induction events as [|[|e d] events IH]; intros wake; simpl; auto.
  intros _. right. set_solver.
Qed.

(** Every ended session that got a connection released it, undid its LISTEN if it had one, and
    ends quietly exactly when its context was done; a wake-up is signalled only after a
    notification, and a full slot stays full. *)
Lemma ListenWakeups_spec acq lis done_ events wake :
  let o := ListenWakeups acq lis done_ events wake in
  (leResult o <> None -> acq = None -> leReleased o = true /\ (lis = None -> leUnlistened o = true)) /\
  (leWake o = true -> wake = true \/ Notified ∈ events) /\ (wake = true -> leWake o = true).
Proof.
  assert (forall evs, (listenLoop evs true).1 = true) as Hfull.
  { intros evs. induction evs as [|[] evs IH]; simpl; auto. }
  unfold ListenWakeups. destruct acq; simpl; [split_all; auto; done|].
  destruct lis; simpl; [split_all; auto; done|].
  pose proof (listenLoop_spec events wake) as Hs. pose proof (Hfull events) as Hf.
  destruct (listenLoop events wake) as [wk [r|]] eqn:El; simpl in *; split_all; try done.
  - intros ->. by rewrite El in Hf.
  - intros ->. by rewrite El in Hf.
Qed.
