(* ===== verification/Ticks.v ===== *)
(** * Ticks: the schedulers of a fleet, one leader after another

    The composition of scheduler.go with the leader lock of internal/pgdriver/pgdriver.go: several
    processes take turns of [schedulePeriodic], each asking [TryBecomeLeader] first, while sessions
    end, connections are used for other things and processes stop.  What is shown is when a fire of a
    schedule is enqueued at most once by all of them together, and how it comes to be enqueued twice. *)

From S2P Require Import Prelude GoTime GoError GoRuntime DriverSpec Metrics Middleware Inflight.
From S2P Require Import Queues Enqueue Cron Client Scheduler.
From S2P Require Import Memdriver MemdriverFacts MemdriverProps.
From S2P Require Import Postgres Pgdriver PgdriverFacts PgSession.

(** What [schedulePeriodic] makes of the two results of [TryBecomeLeader]. *)
Definition answerOf (r : bool * option error) : lockAnswer :=
  match r with
  | (_, Some e) => LockErr e
  | (true, None) => LockHeld
  | (false, None) => LockFree
  end.

(** The fires a turn enqueues, each with the position of its entry. *)
Fixpoint ticksOf (now : Time) (k : nat) (entries : list periodicEntry) (lasts : list Time)
    : list (nat * Time) :=
  match entries, lasts with
  | e :: es, l :: ls => ((fun f => (k, f)) <$> dueFires (peSchedule e) l now) ++ ticksOf now (S k) es ls
  | _, _ => []
  end.

(** [tnClock] is the latest reading a leader has acted on, [tnTicks] all that was enqueued. *)
Record Tenure (S : Type) := MkTenure {
  tnFleet : Fleet;
  tnScheds : gmap nat schedState;
  tnStore : S;
  tnClock : Time;
  tnTicks : list (nat * Time)
}.
Arguments MkTenure {S} _ _ _ _ _.
Arguments tnFleet {S} _.
Arguments tnScheds {S} _.
Arguments tnStore {S} _.
Arguments tnClock {S} _.
Arguments tnTicks {S} _.

Section Tenures.
Context {S : Type} `{Ops : Driver S}.
Variables (c : Client) (notifier : option (option error)).

(** The leader's session is the one it led on before. *)
Definition kept (w : leaderWorld) (i : nat) (f : Fleet) : Prop :=
  exists s, leaderConn f !! i = Some s /\ pinged w = true /\ s ∈ opened f.

(** A turn of the process [i], and what else happens.  A process that has led before leads again only
    on the session it kept, and the readings of leading turns do not go back. *)
Inductive tenureStep (x : Tenure S) : Tenure S -> Prop :=
| tn_starts i :
    tnScheds x !! i = None ->
    tenureStep x (MkTenure (tnFleet x) (<[i := schedInit c]> (tnScheds x)) (tnStore x) (tnClock x) (tnTicks x))
| tn_leads i ss w f' turns gained now st ss' st' wait :
    tnScheds x !! i = Some ss -> TryBecomeLeader w i (tnFleet x) = (f', (true, None)) ->
    (wasLeader ss = true -> kept w i (tnFleet x)) -> tnClock x <= gained -> cStore st = tnStore x ->
    Forall2 (ready (S := S) c notifier turns now) (periodic c) (startMarks ss gained) ->
    scheduleTurn c notifier (fun _ _ => false) turns LockHeld gained now ss st = Some (ss', st', wait) ->
    tenureStep x (MkTenure f' (<[i := ss']> (tnScheds x)) (cStore st') (Z.max gained now)
                    (tnTicks x ++ ticksOf now 0 (periodic c) (startMarks ss gained)))
| tn_follows i ss w f' r turns gained now st ss' st' wait :
    tnScheds x !! i = Some ss -> TryBecomeLeader w i (tnFleet x) = (f', r) -> answerOf r <> LockHeld ->
    cStore st = tnStore x ->
    scheduleTurn c notifier (fun _ _ => false) turns (answerOf r) gained now ss st = Some (ss', st', wait) ->
    tenureStep x (MkTenure f' (<[i := ss']> (tnScheds x)) (cStore st') (tnClock x) (tnTicks x))
| tn_stops i closed :
    tenureStep x (MkTenure (ReleaseLeader closed i (tnFleet x)) (delete i (tnScheds x)) (tnStore x)
                    (tnClock x) (tnTicks x))
| tn_session s :
    tenureStep x (MkTenure (endSession s (tnFleet x)) (tnScheds x) (tnStore x) (tnClock x) (tnTicks x))
| tn_checkout i :
    let f := tnFleet x in
    tenureStep x (MkTenure (setBusy ({[(acquire i f).2]} ∪ busy f) (acquire i f).1) (tnScheds x)
                    (tnStore x) (tnClock x) (tnTicks x))
| tn_checkin i s :
    s ∈ busy (tnFleet x) ->
    tenureStep x (MkTenure (release i s (setBusy (busy (tnFleet x) ∖ {[s]}) (tnFleet x))) (tnScheds x)
                    (tnStore x) (tnClock x) (tnTicks x))
| tn_others s' t :
    (* workers, producers and the clock *)
    tnClock x <= t -> tenureStep x (MkTenure (tnFleet x) (tnScheds x) s' t (tnTicks x)).

(** ** The fires of one turn *)

Lemma StronglySorted_lt_NoDup (l : list Time) : StronglySorted Z.lt l -> NoDup l.
Proof.
  induction 1 as [|x l _ IH Hall]; constructor; [|done]. intros Hx. rewrite Forall_forall in Hall.
  specialize (Hall _ Hx). lia.
Qed.

(** The last of a sorted list is its greatest. *)
Lemma last_greatest (l : list Time) d f :
  StronglySorted Z.lt l -> f ∈ l -> f <= List.last l d.
Proof.
  revert d. induction l as [|x l IH]; intros d Hs Hf; [by apply not_elem_of_nil in Hf|].
  apply StronglySorted_inv in Hs as [Hs Hall]. rewrite last_cons_fires.
  apply elem_of_cons in Hf as [->|Hf]; [|by apply IH].
  destruct (List_last_elem l x) as [->|Hin]; [done|]. rewrite Forall_forall in Hall.
  specialize (Hall _ Hin). lia.
Qed.

Lemma last_bounds (l : list Time) a b : a <= b -> Forall (fun f => a < f <= b) l -> a <= List.last l a <= b.
Proof.
  intros Hab Hl. destruct (List_last_elem l a) as [->|Hin]; [lia|].
  rewrite Forall_forall in Hl. specialize (Hl _ Hin). lia.
Qed.

Lemma ticksOf_spec turns now k es ls :
  Forall2 (ready (S := S) c notifier turns now) es ls ->
  NoDup (ticksOf now k es ls) /\
  forall j f, (j, f) ∈ ticksOf now k es ls ->
    (k <= j)%nat /\ exists e l, es !! (j - k)%nat = Some e /\ ls !! (j - k)%nat = Some l /\
      f ∈ dueFires (peSchedule e) l now /\ l < f <= now.
Proof.
  intros Hr. revert k. induction Hr as [|e l es ls (Hle & Hadv & _) Hr IH]; intros k; simpl.
  - split; [constructor|]. by intros j f ?%not_elem_of_nil.
  - destruct (dueFires_spec (peSchedule e) l now Hle Hadv) as [Hs Hall].
    destruct (IH (Datatypes.S k)) as [Hnd Hin]. split.
    + apply NoDup_app. split_all; [| |done].
      * apply NoDup_fmap_2; [intros ? ? [= ->]; done|]. by apply StronglySorted_lt_NoDup.
      * intros [j f] (f0 & [= -> ->] & _)%list_elem_of_fmap Hj. destruct (Hin k f0 Hj). lia.
    + intros j f [Hj|Hj]%elem_of_app.
      * apply list_elem_of_fmap in Hj as (f0 & [= -> ->] & Hf). split; [done|].
        exists e, l. rewrite Nat.sub_diag. rewrite Forall_forall in Hall.
        destruct (Hall f0 Hf). by split_all.
      * destruct (Hin j f Hj) as (Hk & e0 & l0 & He & Hl & Hf). split; [lia|]. exists e0, l0.
        replace (j - k)%nat with (Datatypes.S (j - Datatypes.S k)) by lia. done.
Qed.

(** The watermarks a turn leaves are past everything it enqueued. *)
Lemma caughtUp_marks turns now k es ls (st : ClientState S) :
  Forall2 (ready (S := S) c notifier turns now) es ls ->
  Forall2 (fun '(e, l) l' => l <= l' <= now /\ forall f, f ∈ dueFires (peSchedule e) l now -> f <= l')
    (zip es ls) (caughtUp c notifier now k es ls st).2.
Proof.
  intros Hr. revert k st. induction Hr as [|e l es ls (Hle & Hadv & _) Hr IH]; intros k st; simpl; [constructor|].
  specialize (IH (Datatypes.S k) (tickAll c notifier now k e (dueFires (peSchedule e) l now) st)).
  destruct (caughtUp _ _ _ _ es ls _) as [st' ls']. simpl in *. constructor; [|done].
  destruct (dueFires_spec (peSchedule e) l now Hle Hadv) as [Hs Hall].
  split; [by apply last_bounds|]. intros f Hf. by apply last_greatest.
Qed.

(** ** What others do to a leader's session *)

Lemma acquire_opened j f s : (s < nextSession f)%nat -> s ∈ opened (acquire j f).1 -> s ∈ opened f.
Proof. unfold acquire. destruct (idleOf f j); simpl; set_unfold; [|done]. intros Hlt [->|?]; [lia|done]. Qed.

Lemma takeLock_others w j f i s :
  fleetWf f -> i <> j -> leaderConn (takeLock w j f).1 !! i = Some s -> s ∈ opened (takeLock w j f).1 ->
  leaderConn f !! i = Some s /\ s ∈ opened f.
Proof.
  intros Hf Hne Hl Ho. unfold takeLock in *. destruct (acquired w); [done|].
  pose proof (acquire_ok j f Hf) as Ha. pose proof (acquire_opened j f s) as Hop.
  destruct (acquire j f) as [f1 t]. simpl in Ha, Hop. pose proof (aq_leader _ _ _ Ha) as Elc.
  assert (leaderConn (tryAdvisoryLock t f1).1 = leaderConn f1 /\ opened (tryAdvisoryLock t f1).1 = opened f1)
    as [El Eo] by (unfold tryAdvisoryLock; by destruct (holder f1)).
  destruct (tryAdvisoryLock t f1) as [f2 held]. simpl in *.
  assert (leaderConn f !! i = Some s /\ s ∈ opened f1) as [Hli Hoi]; [|split; [done|]].
  - rewrite <- Elc. destruct (overSession t f1 (queried w)) as [|e|e]; [destruct held| |]; simpl in *.
    + rewrite lookup_partial_alter_ne in Hl by done. rewrite El in Hl. rewrite Eo in Ho. done.
    + rewrite El in Hl. rewrite Eo in Ho. done.
    + destruct (newClosed w); simpl in *; [|done]. split; [done | set_solver].
    + rewrite <- Eo, <- El. destruct (newClosed w); simpl in *; [|done]. split; [done | set_solver].
  - apply Hop; [|done]. by destruct (fw_leader f Hf i s Hli) as (_ & _ & ?).
Qed.

Lemma closeLeader_others closed j f i s :
  i <> j -> leaderConn (closeLeaderConnLocked closed j f) !! i = Some s ->
  s ∈ opened (closeLeaderConnLocked closed j f) -> leaderConn f !! i = Some s /\ s ∈ opened f.
Proof.
  intros Hne Hl Ho. unfold closeLeaderConnLocked in *. destruct (leaderConn f !! j) as [t|]; [|done].
  simpl in *. rewrite lookup_partial_alter_ne in Hl by done.
  destruct closed; simpl in *; [|done]. split; [done | set_solver].
Qed.

(** A call by another process neither gives nor keeps a session for [i] that it did not have. *)
Lemma TryBecomeLeader_others w j f i s :
  fleetWf f -> i <> j -> leaderConn (TryBecomeLeader w j f).1 !! i = Some s ->
  s ∈ opened (TryBecomeLeader w j f).1 -> leaderConn f !! i = Some s /\ s ∈ opened f.
Proof.
  intros Hf Hne Hl Ho. unfold TryBecomeLeader in *. destruct (leaderConn f !! j) as [t|] eqn:Ej.
  - destruct (pinged w && bool_decide (t ∈ opened f)); [done|].
    destruct (takeLock_others w j _ i s (closeLeaderConnLocked_wf _ _ _ Hf) Hne Hl Ho).
    by eapply closeLeader_others.
  - by eapply takeLock_others.
Qed.

(** ** The invariant *)

(** A process that takes itself for the leader, on a session that is alive, has its watermarks past
    every fire the fleet enqueued. *)
Record tenureOk (x : Tenure S) : Prop := {
  to_fleet : fleetWf (tnFleet x);
  to_once : NoDup (tnTicks x);
  to_past : forall k f, (k, f) ∈ tnTicks x -> (k < length (periodic c))%nat /\ f <= tnClock x;
  to_marks : forall i ss s, tnScheds x !! i = Some ss -> wasLeader ss = true ->
    leaderConn (tnFleet x) !! i = Some s -> s ∈ opened (tnFleet x) ->
    forall k f, (k, f) ∈ tnTicks x -> exists l, lastFire ss !! k = Some l /\ f <= l
}.

(** Steps that enqueue nothing. *)
Lemma tenureOk_quiet x f' scheds' s' t :
  tenureOk x -> fleetWf f' -> tnClock x <= t ->
  (forall i ss s, scheds' !! i = Some ss -> wasLeader ss = true -> leaderConn f' !! i = Some s ->
     s ∈ opened f' -> tnScheds x !! i = Some ss /\ leaderConn (tnFleet x) !! i = Some s /\
                      s ∈ opened (tnFleet x)) ->
  tenureOk (MkTenure f' scheds' s' t (tnTicks x)).
Proof.
  intros [_ Hnd Hpast Hmarks] Hf' Ht Hold. split; simpl; [done | done | |].
  - intros k f Hk. destruct (Hpast k f Hk). split; [done|lia].
  - intros i ss s Hi Hw Hl Ho. destruct (Hold i ss s Hi Hw Hl Ho) as (? & ? & ?). by eapply Hmarks.
Qed.

Lemma scheduleTurn_follows turns answer gained now ss (st : ClientState S) ss' st' wait :
  answer <> LockHeld ->
  scheduleTurn c notifier (fun _ _ => false) turns answer gained now ss st = Some (ss', st', wait) ->
  wasLeader ss' = false.
Proof.
  intros Hn. unfold scheduleTurn, loseLeadership. destruct answer; [| done |];
    destruct (wasLeader ss) eqn:E; intros [= <- _ _]; done.
Qed.

Lemma follows_ok x i w f' r ss' s' :
  tenureOk x -> TryBecomeLeader w i (tnFleet x) = (f', r) -> wasLeader ss' = false ->
  tenureOk (MkTenure f' (<[i := ss']> (tnScheds x)) s' (tnClock x) (tnTicks x)).
Proof.
  intros Hok Ht Hw. pose proof (to_fleet x Hok) as Hf.
  pose proof (TryBecomeLeader_spec w i (tnFleet x) Hf) as [Hf' _]. rewrite Ht in Hf'.
  apply tenureOk_quiet; [done | done | lia|]. intros j ss s Hj Hwj Hl Ho.
  destruct (decide (j = i)) as [->|Hne].
  - rewrite lookup_insert_eq in Hj. injection Hj as <-. congruence.
  - rewrite lookup_insert_ne in Hj by done. split; [done|].
    apply (TryBecomeLeader_others w i (tnFleet x) j s); by rewrite ?Ht.
Qed.

(** A leading turn: its fires are later than its watermarks, and these than everything enqueued
    before, by others or by itself. *)
Lemma startMarks_past x i ss w gained :
  tenureOk x -> tnScheds x !! i = Some ss -> (wasLeader ss = true -> kept w i (tnFleet x)) ->
  tnClock x <= gained -> length (startMarks ss gained) = length (periodic c) ->
  forall k f, (k, f) ∈ tnTicks x -> exists l, startMarks ss gained !! k = Some l /\ f <= l.
Proof.
  intros Hok Hi Hkept Hg Hlen k f Hk. destruct (to_past x Hok k f Hk) as [Hk' Hf].
  unfold startMarks in *. destruct (wasLeader ss) eqn:Ew.
  - destruct (Hkept eq_refl) as (s & Hl & _ & Ho). by eapply (to_marks x Hok).
  - exists gained. split; [|lia]. apply lookup_replicate_2. rewrite length_replicate in Hlen. lia.
Qed.

Lemma leads_ok x i ss w f' turns gained now (st : ClientState S) ss' st' wait :
  tenureOk x -> tnScheds x !! i = Some ss -> TryBecomeLeader w i (tnFleet x) = (f', (true, None)) ->
  (wasLeader ss = true -> kept w i (tnFleet x)) -> tnClock x <= gained ->
  Forall2 (ready (S := S) c notifier turns now) (periodic c) (startMarks ss gained) ->
  scheduleTurn c notifier (fun _ _ => false) turns LockHeld gained now ss st = Some (ss', st', wait) ->
  tenureOk (MkTenure f' (<[i := ss']> (tnScheds x)) (cStore st') (Z.max gained now)
              (tnTicks x ++ ticksOf now 0 (periodic c) (startMarks ss gained))).
Proof.
  intros Hok Hi Ht Hkept Hg Hr Hturn. pose proof (to_fleet x Hok) as Hf.
  pose proof (TryBecomeLeader_spec w i (tnFleet x) Hf) as [Hf' Hlead]. rewrite Ht in Hf', Hlead.
  destruct (Hlead eq_refl) as (t & Hlt & Hot & Hht). clear Hlead. simpl in Hf', Hlt, Hot, Hht.
  pose proof (Forall2_length _ _ _ Hr) as Hlen.
  pose proof (startMarks_past x i ss w gained Hok Hi Hkept Hg (eq_sym Hlen)) as Hpast.
  destruct (ticksOf_spec turns now 0 (periodic c) (startMarks ss gained) Hr) as [Hnd Hin].
  destruct (scheduleTurn_leads c notifier turns gained now ss st Hr) as (ss1 & st0 & wait1 & st1 & Eturn & _ & E).
  rewrite Hturn in Eturn. injection Eturn as <- <- _.
  pose proof (caughtUp_marks turns now 0 (periodic c) (startMarks ss gained) st1 Hr) as Hmarks.
  rewrite <- E in Hmarks. simpl in Hmarks. split; simpl.
  - done.
  - apply NoDup_app. split_all; [apply Hok | | done]. intros [k f] Hk Hk'.
    destruct (Hpast k f Hk) as (l & Hl & Hle). destruct (Hin k f Hk') as (_ & e & l' & _ & Hl' & _ & Hlt' & _).
    rewrite Nat.sub_0_r, Hl in Hl'. injection Hl' as <-. lia.
  - intros k f [Hk|Hk]%elem_of_app.
    + destruct (to_past x Hok k f Hk). split; [done|lia].
    + destruct (Hin k f Hk) as (_ & e & l & He & _ & _ & _ & Hle). rewrite Nat.sub_0_r in He.
      split; [by eapply lookup_lt_Some | lia].
  - intros j ssj s Hj Hw Hl Ho. assert (j = i) as ->.
    { pose proof (fw_lock f' Hf' j s Hl Ho) as Hs. assert (s = t) as -> by congruence.
      by apply (fw_inj f' Hf' j i t). }
    rewrite lookup_insert_eq in Hj. injection Hj as <-. intros k f Hk.
    assert (exists e l, periodic c !! k = Some e /\ startMarks ss gained !! k = Some l /\
              (f <= l \/ f ∈ dueFires (peSchedule e) l now)) as (e & l & He & Hl' & Hfl).
    { apply elem_of_app in Hk as [Hk|Hk].
      - destruct (Hpast k f Hk) as (l & Hl' & Hle). destruct (to_past x Hok k f Hk) as [Hkl _].
        apply lookup_lt_is_Some_2 in Hkl as [e He]. exists e, l. auto.
      - destruct (Hin k f Hk) as (_ & e & l & He & Hl' & Hd & _). rewrite Nat.sub_0_r in He, Hl'. exists e, l. auto. }
    assert (zip (periodic c) (startMarks ss gained) !! k = Some (e, l)) as Hz
      by (apply lookup_zip_with_Some; eauto).
    destruct (Forall2_lookup_l _ _ _ _ _ Hmarks Hz) as (l' & Hll & Hb & Hd). exists l'. split; [done|].
    destruct Hfl as [?|Hfd]; [lia | by apply Hd].
Qed.

Lemma tenureStep_ok x x' : tenureOk x -> tenureStep x x' -> tenureOk x'.
Proof.
  intros Hok Hs. pose proof (to_fleet x Hok) as Hf.
  destruct Hs as [i Hi|i ss w f' turns gained now st ss' st' wait Hi Ht Hk Hg Hst Hr Hturn
    |i ss w f' r turns gained now st ss' st' wait Hi Ht Ha Hst Hturn|i closed|s|i f|i s Hb|s' t Hc].
  - apply tenureOk_quiet; [done | done | lia|]. intros j ss s Hj Hw Hl Ho. destruct (decide (j = i)) as [->|Hne].
    + rewrite lookup_insert_eq in Hj. injection Hj as <-. done.
    + by rewrite lookup_insert_ne in Hj by done.
  - by eapply leads_ok.
  - eapply follows_ok; [done | exact Ht |]. by eapply scheduleTurn_follows.
  - apply tenureOk_quiet; [done | by apply closeLeaderConnLocked_wf | lia|]. intros j ss s Hj Hw Hl Ho.
    apply lookup_delete_Some in Hj as [Hne Hj]. split; [done|]. by eapply closeLeader_others.
  - apply tenureOk_quiet; [done | by apply endSession_wf | lia|]. simpl. intros j ss t Hj Hw Hl Ho.
    split_all; [done | done | set_solver].
  - apply tenureOk_quiet; [done | by apply checkout_wf | lia|]. simpl. intros j ss s Hj Hw Hl Ho.
    pose proof (aq_leader _ _ _ (acquire_ok i f Hf)) as El. rewrite El in Hl. split_all; [done | done|].
    apply (acquire_opened i f s); [|done]. by destruct (fw_leader f Hf j s Hl) as (_ & _ & ?).
  - apply tenureOk_quiet; [done | by apply checkin_wf | lia | done].
  - by apply tenureOk_quiet.
Qed.

(** Nobody is up and nothing was enqueued. *)
Definition tenureStart (x : Tenure S) : Prop :=
  tnFleet x = NewFleet /\ tnScheds x = ∅ /\ tnTicks x = [].

Lemma tenure_reachable_ok x0 x : tenureStart x0 -> rtc tenureStep x0 x -> tenureOk x.
Proof.
  intros (Hf & Hs & Ht) Hr.
  assert (tenureOk x0) as Hok.
  { split; rewrite ?Hf, ?Hs, ?Ht; [apply NewFleet_wf | constructor | |].
    - by intros k f ?%not_elem_of_nil.
    - intros i ss s Hi. by rewrite lookup_empty in Hi. }
  clear Hf Hs Ht. induction Hr as [|x y z Hxy _ IH]; [done|]. apply IH. by eapply tenureStep_ok.
Qed.
End Tenures.

(** ** Properties *)

(** C25: no tick twice.  Whatever the processes of a fleet do, starting, leading, following and
    stopping in any order, with sessions that end and connections that are used for other things,
    all fires of all schedules enqueued by all of them together are different ones, also those
    whose jobs are long completed: provided that the readings of successive leaders do not go back,
    the schedules move on and the store answers, and that a leader whose session has ended does not get
    the lock again in the very call that finds out.  The process that leads and whose session is alive has its
    watermarks past every fire enqueued so far. *)
Theorem periodic_tick_once {S} `{Driver S} c notifier (x0 x : Tenure S) :
  tenureStart x0 -> rtc (tenureStep c notifier) x0 x ->
  NoDup (tnTicks x) /\
  forall i ss, tnScheds x !! i = Some ss -> wasLeader ss = true -> leads (tnFleet x) i ->
    forall k f, (k, f) ∈ tnTicks x -> exists l, lastFire ss !! k = Some l /\ f <= l.
Proof.
  intros H0 Hr. pose proof (tenure_reachable_ok c notifier x0 x H0 Hr) as Hok. split; [apply Hok|].
  intros i ss Hi Hw (s & Hl & Ho & _). by eapply (to_marks c x Hok).
Qed.

(** ** A leader that loses and regains the lock between two turns *)

(** The client and its store, as [periodicClient] of Scheduler sets them up. *)
Definition every15 : Client := periodicClient [quarterly].

Definition viewOf {S} (s : S) : ClientState S :=
  MkState s newInflightSet false (MkEnv (GoRuntime.MkWorld 0 []) (newCollectors 2) ∅).

(** One turn of process [i], as [schedulePeriodic] takes it, at one reading of the clock. *)
Definition turnAt {S} `{Driver S} (now : Time) (i : nat) (x : Fleet * schedState * S)
    : option (Fleet * schedState * S) :=
  let '(f, ss, s) := x in
  let '(f', r) := TryBecomeLeader calm i f in
  match scheduleTurn every15 None (fun _ _ => false) 4 (answerOf r) now now ss (viewOf s) with
  | Some (ss', st', _) => Some (f', ss', cStore st')
  | None => None
  end.

(** The first process leads at 10:05 and waits; its session ends.  The second leads from 10:06,
    enqueues the tick of 10:15, which is run, and stops.  The first takes its next turn at
    10:16. *)
Definition handover : option (Fleet * schedState * PgDb demoEnv) :=
  match turnAt (atUTC 2026 1 1 10 5 0) 0 (NewFleet, schedInit every15, emptyDb) with
  | Some (f1, first, db1) =>
      match turnAt (atUTC 2026 1 1 10 6 0) 1 (endSession 0 f1, schedInit every15, db1) with
      | Some second2 =>
          match turnAt (atUTC 2026 1 1 10 15 0) 1 second2 with
          | Some (f3, _, db3) =>
              let db4 := (drvFetchAvailable (atUTC 2026 1 1 10 15 1) "default" Minute 10 db3).1 in
              let db5 := (drvMarkCompleted (atUTC 2026 1 1 10 15 2) (MkLease 1 1) db4).1 in
              turnAt (atUTC 2026 1 1 10 16 0) 0 (ReleaseLeader true 1 f3, first, db5)
          | None => None
          end
      | None => None
      end
  | None => None
  end.

(** The second job is the same tick again: [TryBecomeLeader] opens a new session and answers true, so
    [schedulePeriodic] goes on from watermarks of before the other's time. *)
Example regained_lock_replays_tick :
  exists f ss db r1 r2, handover = Some (f, ss, db) /\ leads f 0 /\
    rowAt db 1 = Some r1 /\ rowAt db 2 = Some r2 /\
    State r1 = StateCompleted /\ State r2 = StateAvailable /\
    UniqueKey r1 = "nightly/2026-01-01T10:15:00Z" /\ UniqueKey r2 = UniqueKey r1.
Proof.
  eexists _, _, _, _, _. split; [vm_compute; reflexivity|].
  split; [exists 2%nat; vm_compute; repeat split|]. vm_compute. repeat split.
Qed.

(** ** Witness *)

Definition everyTen : periodicEntry := periodicOf "@every 10ns" None (EverySchedule 10).
Definition tenClient : Client := periodicClient [everyTen].

Lemma everyTen_ready turns now last :
  last <= now -> (Z.to_nat (now - last) <= turns)%nat ->
  ready (S := MemDriver) tenClient None turns now everyTen last.
Proof.
  intros Hl Ht. unfold ready. split_all; [done | by apply every_advances | |done].
  intros i. by eapply memdriver_healthy.
Qed.

Definition tenStart : Tenure MemDriver := MkTenure NewFleet ∅ New 0 [].

(** The state after a leading turn of process [i], with both readings at [now]. *)
Definition leadAt (now : Time) (i : nat) (x : Tenure MemDriver) : Tenure MemDriver :=
  let ss := default (schedInit tenClient) (tnScheds x !! i) in
  match scheduleTurn tenClient None (fun _ _ => false) 40 LockHeld now now ss (viewOf (tnStore x)) with
  | Some (ss', st', _) =>
      MkTenure (TryBecomeLeader calm i (tnFleet x)).1 (<[i := ss']> (tnScheds x)) (cStore st') (Z.max now now)
        (tnTicks x ++ ticksOf now 0 (periodic tenClient) (startMarks ss now))
  | None => x
  end.

Lemma leadAt_step now i x ss last :
  tnScheds x !! i = Some ss -> (TryBecomeLeader calm i (tnFleet x)).2 = (true, None) ->
  (wasLeader ss = true -> kept calm i (tnFleet x)) -> tnClock x <= now ->
  startMarks ss now = [last] -> last <= now <= last + 40 ->
  tenureStep tenClient None x (leadAt now i x).
Proof.
  intros Hi Ht Hk Hc Hm Hl. unfold leadAt. rewrite Hi. simpl default.
  assert (Forall2 (ready (S := MemDriver) tenClient None 40 now) (periodic tenClient) (startMarks ss now)) as Hr.
  { rewrite Hm. constructor; [|constructor]. apply everyTen_ready; lia. }
  destruct (scheduleTurn_leads tenClient None 40 now now ss (viewOf (tnStore x)) Hr) as (ss' & st' & wait & _ & E & _).
  rewrite E. eapply (tn_leads tenClient None x i ss calm _ 40 now now (viewOf (tnStore x))); try done.
  destruct (TryBecomeLeader calm i (tnFleet x)) as [f' r]. simpl in *. by rewrite Ht.
Qed.

Definition joins (i : nat) (x : Tenure MemDriver) : Tenure MemDriver :=
  MkTenure (tnFleet x) (<[i := schedInit tenClient]> (tnScheds x)) (tnStore x) (tnClock x) (tnTicks x).

Definition tenLed : Tenure MemDriver := leadAt 125 0 (leadAt 100 0 (joins 1 (joins 0 tenStart))).
Definition tenOrphaned : Tenure MemDriver :=
  MkTenure (endSession 0 (tnFleet tenLed)) (tnScheds tenLed) (tnStore tenLed) (tnClock tenLed) (tnTicks tenLed).
Definition tenHandedOver : Tenure MemDriver := leadAt 155 1 (leadAt 130 1 tenOrphaned).

(** Two processes lead one after the other. *)
Lemma tenHandedOver_reachable : rtc (tenureStep tenClient None) tenStart tenHandedOver.
Proof.
  eapply rtc_l; [by apply (tn_starts tenClient None tenStart 0)|].
  eapply rtc_l; [by apply (tn_starts tenClient None (joins 0 tenStart) 1)|].
  eapply rtc_l; [by eapply (leadAt_step 100 0)|].
  eapply rtc_l; [eapply (leadAt_step 125 0); try (vm_compute; done)|].
  { intros _. exists 0%nat. by vm_compute. }
  eapply rtc_l; [apply (tn_session tenClient None tenLed 0)|].
  eapply rtc_l; [by eapply (leadAt_step 130 1 tenOrphaned); vm_compute|].
  eapply rtc_l; [eapply (leadAt_step 155 1 (leadAt 130 1 tenOrphaned)); try (vm_compute; done)|apply rtc_refl].
  intros _. exists 1%nat. by vm_compute.
Qed.

Lemma periodic_tick_once_witness :
  tnTicks tenHandedOver = [(0%nat, 110); (0%nat, 120); (0%nat, 140); (0%nat, 150)] /\
  NoDup (tnTicks tenHandedOver).
Proof.
  split; [by vm_compute|].
  apply (periodic_tick_once tenClient None tenStart tenHandedOver); [by split | exact tenHandedOver_reachable].
Defined.
