(* ===== verification/Migrate.v ===== *)
(** * Migrate: schema migrations

    Models internal/migrate/migrate.go.  The schema is a parameter, with what the text of a migration
    does to it; [versions] is the table drover_schema_version, which may not exist yet.
    As in Pgdriver, each statement may be refused, or run with its answer lost.  The embedded
    files are listed by name. *)

From S2P Require Import Prelude GoTime GoError GoRuntime GoText Pgdriver.

Record migration := { mgVersion : Z; mgName : string; mgSql : string }.

(** [%03d] *)
Definition format03d (v : Z) : string :=
  let digits := itoa (Z.abs v) in
  let width := if v <? 0 then 2%nat else 3%nat in
  (if v <? 0 then "-" else "") +:+
  String.string_of_list_ascii (repeat "0"%char (width - String.length digits)) +:+ digits.

(** ** Loading *)

Fixpoint loadAll (entries : list (string * res error string)) : res error (list migration) :=
  match entries with
  | [] => Ok []
  | (name, file) :: rest =>
      let '(prefix, _, ok) := Cut "_"%char name in
      if negb ok
      then Err (Msg ("migration " +:+ quote name +:+ ": name must be NNN_description.sql"))
      else match Atoi prefix with
           | None => Err (Msg ("migration " +:+ quote name +:+ ": invalid version prefix"))
           | Some version =>
               match file with
               | Err e => Err (wrapOp ("read migration " +:+ quote name) e)
               | Ok sql =>
                   let? ms := loadAll rest in
                   Ok ({| mgVersion := version; mgName := name; mgSql := sql |} :: ms)
               end
           end
  end.

Definition load (readDir : res error (list (string * res error string)))
    : res error (list migration) :=
  match readDir with
  | Err e => Err (wrapOp "read embedded migrations" e)
  | Ok entries =>
      let? ms := loadAll entries in
      Ok (SortFunc (onKey mgVersion compareZ) ms)
  end.

Section Migrate.
Context {D : Type} (runSQL : string -> D -> res error D).

Record SchemaDb := MkSchema { versions : option (gset Z); schema : D }.

Definition applied (db : SchemaDb) : gset Z := default ∅ (versions db).

(** [COALESCE(MAX(version), 0)] *)
Definition currentVersion (db : SchemaDb) : Z :=
  match elements (applied db) with [] => 0 | v :: vs => foldl Z.max v vs end.

(** What a statement that the server would answer with [r] reports. *)
Definition told {A} (f : fault) (r : res error A) : res error A :=
  match f with
  | Delivered => r
  | Refused e | Unacknowledged e => Err e
  end.

(** Both statements run in one transaction: the commit, statement [i + 3], decides. *)
Definition apply (net : nat -> fault) (i : nat) (m : migration) (db : SchemaDb)
    : SchemaDb * option error :=
  let v := format03d (mgVersion m) in
  match told (net i) (Ok ()) with
  | Err e => (db, Some (wrapOp ("begin migration " +:+ v) e))
  | Ok _ =>
      match told (net (i + 1)%nat) (runSQL (mgSql m) (schema db)) with
      | Err e => (db, Some (wrapOp ("apply migration " +:+ v +:+ " " +:+ mgName m) e))
      | Ok d =>
          match told (net (i + 2)%nat)
                  (if decide (mgVersion m ∈ applied db)
                   then Err (Msg "duplicate key value violates unique constraint") else Ok ()) with
          | Err e => (db, Some (wrapOp ("record migration " +:+ v) e))
          | Ok _ =>
              let db' := MkSchema (Some ({[mgVersion m]} ∪ applied db)) d in
              match net (i + 3)%nat with
              | Delivered => (db', None)
              | Refused e => (db, Some e)
              | Unacknowledged e => (db', Some e)
              end
          end
      end
  end.

(** The loop over the sorted migrations. *)
Fixpoint applyAll (net : nat -> fault) (i : nat) (current : Z) (ms : list migration) (db : SchemaDb)
    : SchemaDb * option error :=
  match ms with
  | [] => (db, None)
  | m :: rest =>
      if mgVersion m <=? current then applyAll net i current rest db
      else match apply net i m db with
           | (db', Some e) => (db', Some e)
           | (db', None) => applyAll net (i + 4) current rest db'
           end
  end.

Definition Migrate (net : nat -> fault) (readDir : res error (list (string * res error string)))
    (db : SchemaDb) : SchemaDb * option error :=
  let created := MkSchema (Some (applied db)) (schema db) in
  match net 0%nat with
  | Refused e => (db, Some (wrapOp "create version table" e))
  | Unacknowledged e => (created, Some (wrapOp "create version table" e))
  | Delivered =>
      match told (net 1%nat) (Ok (currentVersion created)) with
      | Err e => (created, Some (wrapOp "read schema version" e))
      | Ok current =>
          match load readDir with
          | Err e => (created, Some e)
          | Ok all => applyAll net 2 current all created
          end
      end
  end.

(** ** What a run does *)

(** The migrations above the version of the database, in the order of their versions. *)
Definition pending (db : SchemaDb) (all : list migration) : list migration :=
  List.filter (fun m => currentVersion db <? mgVersion m) all.

(** The schema after some migrations, if their statements all succeed. *)
Fixpoint migrated (ms : list migration) (d : D) : res error D :=
  match ms with
  | [] => Ok d
  | m :: rest => let? d' := runSQL (mgSql m) d in migrated rest d'
  end.

(** [db'] is [db] with exactly the migrations [ms] applied. *)
Definition appliedExactly (ms : list migration) (db db' : SchemaDb) : Prop :=
  applied db' = list_to_set (mgVersion <$> ms) ∪ applied db /\ migrated ms (schema db) = Ok (schema db').

Lemma currentVersion_max db v : v ∈ applied db -> v <= currentVersion db.
Proof.
  unfold currentVersion. rewrite <- elem_of_elements. generalize (elements (applied db)). intros l Hv.
  destruct l as [|x l]; [set_solver|].
  assert (forall l x, x <= foldl Z.max x l /\ forall y, y ∈ l -> y <= foldl Z.max x l) as Hmax.
  { clear. induction l as [|a l IH]; intros x; simpl; [split; [lia|set_solver]|].
    destruct (IH (Z.max x a)) as [H1 H2]. split; [lia|]. intros y. rewrite elem_of_cons.
    intros [->|Hy]; [lia | auto]. }
  destruct (Hmax l x) as [H1 H2]. apply elem_of_cons in Hv as [->|Hv]; auto.
Qed.

Lemma currentVersion_in db :
  applied db = ∅ /\ currentVersion db = 0 \/ currentVersion db ∈ applied db.
Proof.
  unfold currentVersion. destruct (elements (applied db)) as [|x l] eqn:El.
  - left. split; [|done]. by apply elements_empty_inv in El; apply leibniz_equiv.
  - right. rewrite <- elem_of_elements, El. clear El. revert x. induction l as [|a l IH]; intros x; simpl; [set_solver|].
    destruct (Z.max_spec x a) as [[_ ->]|[_ ->]]; [specialize (IH a) | specialize (IH x)]; set_solver.
Qed.

Lemma apply_spec net i m db :
  mgVersion m ∉ applied db ->
  (exists e, apply net i m db = (db, Some e)) \/
  (exists db', (apply net i m db).1 = db' /\ appliedExactly [m] db db').
Proof.
  intros Hm. unfold apply. destruct (told (net i) _); [|left; eauto].
  destruct (told (net (i + 1)%nat) _) as [d|e] eqn:Ed; [|left; eauto].
  assert (runSQL (mgSql m) (schema db) = Ok d) as Hrun by (by destruct (net (i + 1)%nat)).
  rewrite decide_False by done. destruct (told (net (i + 2)%nat) _); [|left; eauto].
  assert (appliedExactly [m] db (MkSchema (Some ({[mgVersion m]} ∪ applied db)) d)) as Happ.
  { split; simpl; [by rewrite (right_id_L ∅ (∪)) | by rewrite Hrun]. }
  destruct (net (i + 3)%nat); [right; eauto | left; eauto | right; eauto].
Qed.

Lemma migrated_app ms ms' d d' :
  migrated ms d = Ok d' -> migrated (ms ++ ms') d = migrated ms' d'.
Proof.
  revert d. induction ms as [|m ms IH]; intros d; simpl; [congruence|].
  destruct (runSQL (mgSql m) d) as [d1|]; simpl; [apply IH | done].
Qed.

Lemma appliedExactly_trans ms ms' db1 db2 db3 :
  appliedExactly ms db1 db2 -> appliedExactly ms' db2 db3 -> appliedExactly (ms ++ ms') db1 db3.
Proof.
  intros [A1 M1] [A2 M2]. split.
  - rewrite A2, A1, fmap_app, list_to_set_app_L. set_solver.
  - by rewrite (migrated_app _ _ _ _ M1).
Qed.

Lemma applyAll_spec net i current ms db :
  NoDup (mgVersion <$> ms) -> (forall m, m ∈ ms -> current < mgVersion m -> mgVersion m ∉ applied db) ->
  let todo := List.filter (fun m => current <? mgVersion m) ms in
  exists k db', (applyAll net i current ms db).1 = db' /\ appliedExactly (take k todo) db db' /\
    ((applyAll net i current ms db).2 = None -> k = length todo).
Proof.
  revert i db. induction ms as [|m ms IH]; intros i db Hnd Hnew; simpl.
  { exists 0%nat, db. split_all; try done. split; simpl; [by rewrite (left_id_L ∅ (∪)) | done]. }
  apply NoDup_cons in Hnd as [Hm Hnd].
  destruct (Z.leb_spec (mgVersion m) current) as [Hle|Hgt].
  - destruct (Z.ltb_spec current (mgVersion m)); [lia|]. apply IH; [done|].
    intros m' Hm'. apply Hnew. set_solver.
  - destruct (Z.ltb_spec current (mgVersion m)); [|lia].
    assert (appliedExactly [] db db) as H0 by (split; simpl; [by rewrite (left_id_L ∅ (∪)) | done]).
    destruct (apply_spec net i m db) as [[e He]|(db' & Hdb' & Happ)]; [apply Hnew; [set_solver|lia] | |].
    + rewrite He. exists 0%nat, db. split_all; done.
    + destruct (apply net i m db) as [d r]. simpl in Hdb'. subst d.
      destruct r as [e|]; [exists 1%nat, db'; split_all; [done | | done]; exact Happ|].
      destruct (IH (i + 4)%nat db' Hnd) as (k & db'' & Hk & Hex & Hlen).
      { intros m' Hm' Hc. rewrite (proj1 Happ). cbn [fmap list_fmap list_to_set].
        assert (mgVersion m' <> mgVersion m) by (intros Heq; apply Hm; rewrite <- Heq; apply list_elem_of_fmap; eauto).
        specialize (Hnew m' ltac:(set_solver) Hc). set_solver. }
      exists (S k), db''. split_all; [done | | intros Hn; simpl; f_equal; by apply Hlen].
      exact (appliedExactly_trans [m] _ db db' db'' Happ Hex).
Qed.

Definition reliable (_ : nat) : fault := Delivered.

(** Nothing goes wrong: every pending migration is applied. *)
Lemma applyAll_reliable i current ms db d :
  NoDup (mgVersion <$> ms) -> (forall m, m ∈ ms -> current < mgVersion m -> mgVersion m ∉ applied db) ->
  migrated (List.filter (fun m => current <? mgVersion m) ms) (schema db) = Ok d ->
  (applyAll reliable i current ms db).2 = None.
Proof.
  revert i db. induction ms as [|m ms IH]; intros i db Hnd Hnew; simpl; [done|].
  apply NoDup_cons in Hnd as [Hm Hnd].
  destruct (Z.leb_spec (mgVersion m) current) as [Hle|Hgt].
  - destruct (Z.ltb_spec current (mgVersion m)); [lia|]. apply IH; [done|]. intros m' Hm'. apply Hnew. set_solver.
  - destruct (Z.ltb_spec current (mgVersion m)); [|lia]. simpl.
    destruct (runSQL (mgSql m) (schema db)) as [d1|e] eqn:Er; simpl; [|done]. intros Hd.
    unfold apply. simpl. rewrite Er, decide_False by (apply Hnew; [set_solver|lia]). simpl.
    apply IH; [done | | done]. intros m' Hm' Hc. unfold applied at 1. simpl.
    assert (mgVersion m' <> mgVersion m) by (intros Heq; apply Hm; rewrite <- Heq; apply list_elem_of_fmap; eauto).
    specialize (Hnew m' ltac:(set_solver) Hc). set_solver.
Qed.

Lemma load_sorted readDir all :
  load readDir = Ok all -> StronglySorted (fun a b => mgVersion a <= mgVersion b) all.
Proof.
  unfold load. destruct readDir as [entries|]; [|done]. destruct (loadAll entries) as [ms|]; simpl; [|done].
  intros [= <-]. eapply (StronglySorted_mono (cmp_le (onKey mgVersion compareZ)));
    [|apply SortFunc_sorted, _]. intros a b. unfold cmp_le, onKey. by rewrite compareZ_le.
Qed.

Lemma pending_new db (all : list migration) m : m ∈ all -> currentVersion db < mgVersion m -> mgVersion m ∉ applied db.
Proof. intros _ Hlt Hin. apply currentVersion_max in Hin. lia. Qed.

Lemma pending_elem db all m : m ∈ pending db all <-> m ∈ all /\ currentVersion db < mgVersion m.
Proof. unfold pending. by rewrite list_elem_of_In, List.filter_In, <- list_elem_of_In, Z.ltb_lt. Qed.

(** After a complete run nothing is pending. *)
Lemma pending_done db db' all :
  appliedExactly (pending db all) db db' -> pending db' all = [].
Proof.
  intros [Ha _]. destruct (pending db' all) as [|m ms] eqn:Ep; [done|]. exfalso.
  assert (m ∈ pending db' all) as Hm by (rewrite Ep; set_solver). apply pending_elem in Hm as [Hin Hlt].
  assert (mgVersion m ∈ applied db' -> False) as Hno by (intros Hv; apply currentVersion_max in Hv; lia).
  apply Hno. rewrite Ha. destruct (Z.lt_ge_cases (currentVersion db) (mgVersion m)) as [Hc|Hc].
  - apply elem_of_union_l, elem_of_list_to_set, list_elem_of_fmap. exists m. split; [done|]. by apply pending_elem.
  - exfalso. assert (currentVersion db <= currentVersion db') as Hmono; [|lia].
    destruct (currentVersion_in db) as [[He ->]|Hin']; [|apply currentVersion_max; rewrite Ha; set_solver].
    destruct (currentVersion_in db') as [[_ ->]|Hv]; [lia|]. rewrite Ha, He in Hv.
    apply elem_of_union in Hv as [Hv|Hv]; [|set_solver].
    apply elem_of_list_to_set, list_elem_of_fmap in Hv as (m' & -> & Hm').
    apply pending_elem in Hm' as [_ Hm']. unfold currentVersion in Hm'. rewrite He in Hm'. simpl in Hm'.
    rewrite elements_empty in Hm'. lia.
Qed.

Lemma Migrate_applies net readDir all db :
  load readDir = Ok all -> NoDup (mgVersion <$> all) ->
  exists k, appliedExactly (take k (pending db all)) db (Migrate net readDir db).1 /\
    ((Migrate net readDir db).2 = None -> k = length (pending db all)).
Proof.
  intros Hload Hnd.
  assert (forall d, applied d = applied db -> schema d = schema db -> appliedExactly (take 0 (pending db all)) db d) as H0.
  { intros d Ha Hs. split; simpl; [rewrite (left_id_L ∅ (∪)); done | by rewrite Hs]. }
  unfold Migrate. destruct (net 0%nat); [| exists 0%nat; split; [by apply H0 | done] ..].
  destruct (told (net 1%nat) _) as [current|e] eqn:Ec; [|exists 0%nat; split; [by apply H0 | done]].
  assert (current = currentVersion db) as -> by (destruct (net 1%nat); try done; by injection Ec).
  rewrite Hload. set (created := MkSchema (Some (applied db)) (schema db)).
  destruct (applyAll_spec net 2 (currentVersion db) all created Hnd) as (k & db' & -> & Hex & Hlen).
  { intros m Hm. by apply (pending_new db all). }
  exists k. split; [exact Hex | exact Hlen].
Qed.

Lemma Migrate_reliable readDir all db d :
  load readDir = Ok all -> NoDup (mgVersion <$> all) ->
  migrated (pending db all) (schema db) = Ok d -> (Migrate reliable readDir db).2 = None.
Proof.
  intros Hload Hnd Hd. unfold Migrate. simpl. rewrite Hload.
  eapply (applyAll_reliable 2 (currentVersion db) all (MkSchema (Some (applied db)) (schema db))); [done | | done].
  intros m Hm. by apply (pending_new db all).
Qed.

(** C30: [Migrate] applies, in ascending order of version, the migrations above the version of
    the database.  Whatever is refused or lost on the way, the database is left with a
    prefix of them, each with its record and none without; a nil answer means all of them;
    when nothing goes wrong and their statements succeed the answer is nil; and a run after a
    complete one finds nothing pending and changes nothing. *)
Theorem Migrate_spec net readDir all db :
  load readDir = Ok all -> NoDup (mgVersion <$> all) ->
  let out := Migrate net readDir db in
  StronglySorted (fun a b => mgVersion a <= mgVersion b) all /\
  (exists k, appliedExactly (take k (pending db all)) db out.1 /\
     (out.2 = None -> k = length (pending db all))) /\
  (forall d, migrated (pending db all) (schema db) = Ok d -> (Migrate reliable readDir db).2 = None) /\
  (out.2 = None -> appliedExactly [] out.1 (Migrate reliable readDir out.1).1 /\
     (Migrate reliable readDir out.1).2 = None).
Proof.
  intros Hload Hnd out. destruct (Migrate_applies net readDir all db Hload Hnd) as (k & Hex & Hlen).
  split_all; [by eapply load_sorted | eauto | intros d; by apply Migrate_reliable |].
  intros Hnone. specialize (Hlen Hnone). subst k. rewrite firstn_all in Hex.
  pose proof (pending_done _ _ all Hex) as Hp. fold out in Hp. split.
  - destruct (Migrate_applies reliable readDir all out.1 Hload Hnd) as (k & Hk & _).
    rewrite Hp, take_nil in Hk. exact Hk.
  - apply (Migrate_reliable readDir all out.1 (schema out.1) Hload Hnd). by rewrite Hp.
Qed.
End Migrate.

(** ** The migrations of the repository

    A schema here is the list of the texts that ran. *)

Definition logSQL (sql : string) (d : list string) : res error (list string) := Ok (d ++ [sql]).

Definition embedded : res error (list (string * res error string)) :=
  Ok [("001_create_jobs.sql", Ok "create"); ("002_widen_fetch_predicate.sql", Ok "widen");
      ("003_index_dead_jobs.sql", Ok "index"); ("004_unique_jobs.sql", Ok "unique")].

Definition embeddedAll : list migration :=
  [{| mgVersion := 1; mgName := "001_create_jobs.sql"; mgSql := "create" |};
   {| mgVersion := 2; mgName := "002_widen_fetch_predicate.sql"; mgSql := "widen" |};
   {| mgVersion := 3; mgName := "003_index_dead_jobs.sql"; mgSql := "index" |};
   {| mgVersion := 4; mgName := "004_unique_jobs.sql"; mgSql := "unique" |}].

(** A database at version 1, and a connection lost while migration 3 is recorded. *)
Definition lostAtThree (i : nat) : fault :=
  if decide (i = 8)%nat then Refused (Msg "conn closed") else Delivered.

Definition atOne : SchemaDb (D := list string) := MkSchema (Some {[1]}) ["create"].

Lemma Migrate_spec_witness :
  schema (Migrate logSQL lostAtThree embedded atOne).1 = ["create"; "widen"] /\
  schema (Migrate logSQL reliable embedded atOne).1 = ["create"; "widen"; "index"; "unique"] /\
  let out := Migrate logSQL lostAtThree embedded atOne in
  StronglySorted (fun a b => mgVersion a <= mgVersion b) embeddedAll /\
  (exists k, appliedExactly logSQL (take k (pending atOne embeddedAll)) atOne out.1 /\
     (out.2 = None -> k = length (pending atOne embeddedAll))) /\
  (forall d, migrated logSQL (pending atOne embeddedAll) (schema atOne) = Ok d ->
     (Migrate logSQL reliable embedded atOne).2 = None) /\
  (out.2 = None -> appliedExactly logSQL [] out.1 (Migrate logSQL reliable embedded out.1).1 /\
     (Migrate logSQL reliable embedded out.1).2 = None).
Proof.
  split; [vm_compute; reflexivity|]. split; [vm_compute; reflexivity|].
  apply (Migrate_spec logSQL lostAtThree embedded embeddedAll atOne); [vm_compute; reflexivity|].
  apply (bool_decide_unpack _). vm_compute. exact I.
Defined.
