(* ===== verification/GoFlag.v ===== *)
(** * GoFlag: command-line flags

    What the commands use of the flag package: a [FlagSet] of string, int, duration and bool flags in
    [ContinueOnError] mode.  Integers are read as [strconv.ParseInt] does with base 0: a sign, a base prefix,
    digits, and underscores between digits.  Also [strings.TrimSpace], [HasPrefix] and [TrimPrefix]. *)

From S2P Require Import Prelude GoTime GoError GoRuntime GoText.

(** ** Prefixes and white space *)

Fixpoint TrimPrefixOpt (prefix s : string) : option string :=
  match prefix, s with
  | "", _ => Some s
  | String a p, String b s' => if Ascii.eqb a b then TrimPrefixOpt p s' else None
  | String _ _, "" => None
  end.

Definition HasPrefix (s prefix : string) : bool :=
  match TrimPrefixOpt prefix s with Some _ => true | None => false end.

Definition TrimPrefix (s prefix : string) : string := default s (TrimPrefixOpt prefix s).

Fixpoint trimLeft (s : string) : string :=
  match s with
  | "" => ""
  | String c s' => if isSpace c then trimLeft s' else s
  end.

Fixpoint trimRight (s : string) : string :=
  match s with
  | "" => ""
  | String c s' =>
      let t := trimRight s' in
      if isSpace c && String.eqb t "" then "" else String c t
  end.

Definition TrimSpace (s : string) : string := trimRight (trimLeft s).

(** ** Integers in any base *)

Definition lowerAscii (c : ascii) : ascii :=
  let n := nat_of_ascii c in
  if ((65 <=? n) && (n <=? 90))%nat then ascii_of_nat (n + 32) else c.

Definition digitIn (base : Z) (c : ascii) : option Z :=
  let n := Z.of_nat (nat_of_ascii (lowerAscii c)) in
  let d := if (48 <=? n) && (n <=? 57) then Some (n - 48)
           else if (97 <=? n) && (n <=? 122) then Some (n - 87) else None in
  match d with Some v => if v <? base then Some v else None | None => None end.

(** The digits of a number; underscores are skipped here and judged by [underscoreOK]. *)
Fixpoint digitsIn (base acc : Z) (s : string) : option Z :=
  match s with
  | "" => Some acc
  | String c s' =>
      if Ascii.eqb c "_"%char then digitsIn base acc s'
      else match digitIn base c with
           | Some d => digitsIn base (acc * base + d) s'
           | None => None
           end
  end.

(** The base that a prefix announces, and the rest. *)
Definition basePrefix (s : string) : Z * string :=
  match s with
  | String z (String p (String c s')) =>
      if Ascii.eqb z "0"%char then
        let rest := String c s' in
        let p' := lowerAscii p in
        if Ascii.eqb p' "b"%char then (2, rest)
        else if Ascii.eqb p' "o"%char then (8, rest)
        else if Ascii.eqb p' "x"%char then (16, rest)
        else (8, String p rest)
      else (10, s)
  | String z s' => if Ascii.eqb z "0"%char then (8, s') else (10, s)
  | "" => (10, s)
  end.

(** What [underscoreOK] last saw: a digit, an underscore, or something else. *)
Inductive lastSeen := SawDigit | SawUnderscore | SawOther.

Fixpoint underscoresFrom (hex : bool) (last : lastSeen) (s : string) : bool :=
  match s with
  | "" => match last with SawUnderscore => false | _ => true end
  | String c s' =>
      match digitIn (if hex then 16 else 10) c with
      | Some _ => underscoresFrom hex SawDigit s'
      | None =>
          if Ascii.eqb c "_"%char
          then match last with SawDigit => underscoresFrom hex SawUnderscore s' | _ => false end
          else match last with SawUnderscore => false | _ => underscoresFrom hex SawOther s' end
      end
  end.

Definition underscoreOK (s : string) : bool :=
  match s with
  | String z (String p rest) =>
      let p' := lowerAscii p in
      if Ascii.eqb z "0"%char && (Ascii.eqb p' "b"%char || Ascii.eqb p' "o"%char || Ascii.eqb p' "x"%char)
      then underscoresFrom (Ascii.eqb p' "x"%char) SawDigit rest
      else underscoresFrom false SawOther s
  | _ => underscoresFrom false SawOther s
  end.

(** [strconv.ParseInt(s, 0, 64)] *)
Definition ParseInt0 (s : string) : option Z :=
  let '(neg, body) :=
    match s with
    | String c s' => if Ascii.eqb c "-"%char then (true, s')
                     else if Ascii.eqb c "+"%char then (false, s') else (false, s)
    | "" => (false, s)
    end in
  if String.eqb body "" then None
  else
    let '(base, digits) := basePrefix body in
    if negb (underscoreOK body) then None
    else match digitsIn base 0 digits with
         | None => None
         | Some n =>
             let v := if neg : bool then - n else n in
             if (- 2 ^ 63 <=? v) && (v <? 2 ^ 63) then Some v else None
         end.

(** ** Flag sets *)

Inductive flagKind := FString | FInt | FDuration | FBool.

Inductive flagValue :=
| VString (s : string)
| VInt (n : Z)
| VDuration (d : Duration)
| VBool (b : bool).

(** [strconv.ParseBool] *)
Definition ParseBool (s : string) : option bool :=
  if existsb (String.eqb s) ["1"; "t"; "T"; "TRUE"; "true"; "True"] then Some true
  else if existsb (String.eqb s) ["0"; "f"; "F"; "FALSE"; "false"; "False"] then Some false
  else None.

Definition readValue (k : flagKind) (s : string) : option flagValue :=
  match k with
  | FString => Some (VString s)
  | FInt => VInt <$> ParseInt0 s
  | FDuration => VDuration <$> ParseDuration s
  | FBool => VBool <$> ParseBool s
  end.

(** A parse ends with the assignments made, in order, and the arguments left; or with the
    help text, or with a complaint. *)
Inductive parsed :=
| Parsed (vals : list (string * flagValue)) (rest : list string)
| HelpAsked
| BadFlag (e : error).

Definition lookupFlag (flags : list (string * flagKind)) (name : string) : option flagKind :=
  snd <$> List.find (fun f => String.eqb f.1 name) flags.

(** How [parseOne] reads its first argument. *)
Inductive flagToken :=
| NotFlag
| Terminator
| Malformed
| Named (name : string) (value : option string).

Definition flagTokenOf (s : string) : flagToken :=
  match s with
  | String "-" (String c rest) =>
      let named (body : string) :=
        match body with
        | "" => Malformed
        | String d _ =>
            if Ascii.eqb d "-"%char || Ascii.eqb d "="%char then Malformed
            else let '(name, value, found) := Cut "="%char body in
                 Named name (if found : bool then Some value else None)
        end in
      if Ascii.eqb c "-"%char
      then match rest with "" => Terminator | _ => named rest end
      else named (String c rest)
  | _ => NotFlag
  end.

Definition addValue (name : string) (v : flagValue) (p : parsed) : parsed :=
  match p with Parsed vals rest => Parsed ((name, v) :: vals) rest | _ => p end.

Fixpoint parseFlags (flags : list (string * flagKind)) (args : list string) : parsed :=
  match args with
  | [] => Parsed [] []
  | s :: rest =>
      match flagTokenOf s with
      | NotFlag => Parsed [] args
      | Terminator => Parsed [] rest
      | Malformed => BadFlag (Msg ("bad flag syntax: " +:+ s))
      | Named name value =>
          match lookupFlag flags name with
          | None =>
              if String.eqb name "help" || String.eqb name "h" then HelpAsked
              else BadFlag (Msg ("flag provided but not defined: -" +:+ name))
          | Some k =>
              match value with
              | Some v =>
                  match readValue k v with
                  | Some fv => addValue name fv (parseFlags flags rest)
                  | None => BadFlag (Msg ("invalid value " +:+ quote v +:+ " for flag -" +:+ name))
                  end
              | None =>
                  match k, rest with
                  | FBool, _ => addValue name (VBool true) (parseFlags flags rest)
                  | _, [] => BadFlag (Msg ("flag needs an argument: -" +:+ name))
                  | _, v :: rest' =>
                      match readValue k v with
                      | Some fv => addValue name fv (parseFlags flags rest')
                      | None => BadFlag (Msg ("invalid value " +:+ quote v +:+ " for flag -" +:+ name))
                      end
                  end
              end
          end
      end
  end.

(** The value a flag ends with: its last assignment, or its default. *)
Definition flagString (name dflt : string) (vals : list (string * flagValue)) : string :=
  foldl (fun acc nv => match nv with (n, VString s) => if String.eqb n name then s else acc | _ => acc end)
    dflt vals.
Definition flagInt (name : string) (dflt : Z) (vals : list (string * flagValue)) : Z :=
  foldl (fun acc nv => match nv with (n, VInt z) => if String.eqb n name then z else acc | _ => acc end)
    dflt vals.
Definition flagDuration (name : string) (dflt : Duration) (vals : list (string * flagValue)) : Duration :=
  foldl (fun acc nv => match nv with (n, VDuration z) => if String.eqb n name then z else acc | _ => acc end)
    dflt vals.

Definition flagBool (name : string) (dflt : bool) (vals : list (string * flagValue)) : bool :=
  foldl (fun acc nv => match nv with (n, VBool b) => if String.eqb n name then b else acc | _ => acc end)
    dflt vals.

(** [fmt]'s [%v] of a string slice. *)
Definition showSlice (l : list string) : string := "[" +:+ Join " " l +:+ "]".

(** ** Examples *)

Example ParseInt0_bases :
  ParseInt0 "0x1f" = Some 31 /\ ParseInt0 "017" = Some 15 /\ ParseInt0 "-1_000" = Some (-1000) /\
  ParseInt0 "1__0" = None /\ ParseInt0 "_1" = None /\ ParseInt0 "0b2" = None /\ ParseInt0 "0" = Some 0 /\
  ParseInt0 "9223372036854775808" = None.
Proof. vm_compute. repeat split. Qed.

(** The value of a flag that is not a bool may follow an equals sign or come as the next argument. *)
Lemma parseFlags_forms flags name k v fv rest :
  lookupFlag flags name = Some k -> k <> FBool -> readValue k v = Some fv ->
  flagTokenOf ("--" +:+ name) = Named name None ->
  flagTokenOf ("--" +:+ name +:+ "=" +:+ v) = Named name (Some v) ->
  parseFlags flags (("--" +:+ name) :: v :: rest) = parseFlags flags (("--" +:+ name +:+ "=" +:+ v) :: rest).
Proof. intros Hk Hb Hv H1 H2. cbn [parseFlags]. rewrite H1, H2, Hk. by destruct k; rewrite ?Hv. Qed.
