(* ===== verification/GoURL.v ===== *)
(** * GoURL: query strings

    What the web console uses of net/url: [QueryEscape], [QueryUnescape], [Values] with [Get],
    [Set] and [Encode], and [ParseQuery]; with the round trip of encoding and parsing. *)

From S2P Require Import Prelude GoText.

(** ** Escaping *)

Definition hexDigit (n : nat) : ascii :=
  ascii_of_nat (if (n <? 10)%nat then 48 + n else 55 + n).

Definition unhex (c : ascii) : option nat :=
  let n := nat_of_ascii c in
  if ((48 <=? n) && (n <=? 57))%nat then Some (n - 48)%nat
  else if ((97 <=? n) && (n <=? 102))%nat then Some (n - 87)%nat
  else if ((65 <=? n) && (n <=? 70))%nat then Some (n - 55)%nat
  else None.

(** Letters, digits and [-_.~] stand for themselves. *)
Definition unreserved (c : ascii) : bool :=
  let n := nat_of_ascii c in
  ((48 <=? n) && (n <=? 57))%nat || ((65 <=? n) && (n <=? 90))%nat ||
  ((97 <=? n) && (n <=? 122))%nat ||
  (n =? 45)%nat || (n =? 95)%nat || (n =? 46)%nat || (n =? 126)%nat.

Definition escapeByte (c : ascii) : string :=
  if Ascii.eqb c " "%char then "+"
  else if unreserved c then String c ""
  else String "%"%char (String (hexDigit (nat_of_ascii c / 16)) (String (hexDigit (nat_of_ascii c mod 16)) "")).

Fixpoint QueryEscape (s : string) : string :=
  match s with
  | "" => ""
  | String c s' => escapeByte c +:+ QueryEscape s'
  end.

(** [None] for a percent sign without two hexadecimal digits. *)
Fixpoint QueryUnescape (s : string) : option string :=
  match s with
  | "" => Some ""
  | String c s' =>
      if Ascii.eqb c "%"%char then
        match s' with
        | String h (String l s'') =>
            match unhex h, unhex l with
            | Some a, Some b => String (ascii_of_nat (16 * a + b)) <$> QueryUnescape s''
            | _, _ => None
            end
        | _ => None
        end
      else String (if Ascii.eqb c "+"%char then " "%char else c) <$> QueryUnescape s'
  end.

(** ** Values *)

Abbreviation Values := (gmap string (list string)) (only parsing).

(** The first value of a key, or the empty string. *)
Definition Get (v : Values) (key : string) : string :=
  match v !! key with Some (x :: _) => x | _ => "" end.

Definition Set_ (key value : string) (v : Values) : Values := <[key := [value]]> v.

Definition encodePair (kv : string * string) : string :=
  QueryEscape kv.1 +:+ "=" +:+ QueryEscape kv.2.

Definition keysOf (v : Values) : list string := SortFunc compareString (map_to_list v).*1.

Definition pairsOf (v : Values) : list (string * string) :=
  keysOf v ≫= fun k => (fun x => (k, x)) <$> default [] (v !! k).

(** Keys in order, the values of each in theirs. *)
Definition Encode (v : Values) : string := Join "&" (encodePair <$> pairsOf v).

Definition addPair (m : Values) (kv : string * string) : Values :=
  <[kv.1 := default [] (m !! kv.1) ++ [kv.2]]> m.

(** Whether a text has a byte. *)
Fixpoint hasByte (c : ascii) (s : string) : bool :=
  match s with
  | "" => false
  | String d s' => Ascii.eqb d c || hasByte c s'
  end.

(** One [key=value] of a query: [None] is an error, [Some None] an empty item to skip. *)
Definition parsePair (item : string) : option (option (string * string)) :=
  if hasByte ";"%char item then None
  else if String.eqb item "" then Some None
  else
    let '(k, v, _) := Cut "="%char item in
    match QueryUnescape k, QueryUnescape v with
    | Some k', Some v' => Some (Some (k', v'))
    | _, _ => None
    end.

(** The values that could be read, and whether everything could. *)
Definition ParseQuery (query : string) : Values * bool :=
  foldl (fun (acc : Values * bool) item =>
           match parsePair item with
           | Some (Some kv) => (addPair acc.1 kv, acc.2)
           | Some None => acc
           | None => (acc.1, false)
           end)
    (∅, true) (Split "&"%char query).

(** ** The round trip *)

Lemma append_cons c (s t : string) : String c s +:+ t = String c (s +:+ t).
Proof. reflexivity. Qed.

Lemma append_nil_l (s : string) : "" +:+ s = s.
Proof. reflexivity. Qed.

Lemma append_assoc (s t u : string) : (s +:+ t) +:+ u = s +:+ (t +:+ u).
Proof. induction s as [|c s IH]; [done|]. rewrite !append_cons. by rewrite IH. Qed.

Lemma append_nil_r (s : string) : s +:+ "" = s.
Proof. induction s as [|c s IH]; [done|]. rewrite append_cons. by rewrite IH. Qed.

(** One byte comes back, whatever follows. *)
Lemma unescape_byte c t : QueryUnescape (escapeByte c +:+ t) = String c <$> QueryUnescape t.
Proof. destruct c as [[] [] [] [] [] [] [] []]; reflexivity. Qed.

Lemma unescape_escape s : QueryUnescape (QueryEscape s) = Some s.
Proof. induction s as [|c s IH]; [done|]. cbn [QueryEscape]. by rewrite unescape_byte, IH. Qed.

Lemma hasByte_app c s t : hasByte c (s +:+ t) = hasByte c s || hasByte c t.
Proof. induction s as [|d s IH]; [done|]. rewrite append_cons. cbn [hasByte]. by rewrite IH, orb_assoc. Qed.

(** The bytes that separate items never occur in escaped text. *)
Definition separator (c : ascii) : Prop := c = "&"%char \/ c = ";"%char \/ c = "="%char.

Lemma escapeByte_clean c b : separator c -> hasByte c (escapeByte b) = false.
Proof. intros [->|[->| ->]]; destruct b as [[] [] [] [] [] [] [] []]; reflexivity. Qed.

Lemma escape_clean c s : separator c -> hasByte c (QueryEscape s) = false.
Proof.
  intros Hc. induction s as [|b s IH]; [done|]. cbn [QueryEscape].
  by rewrite hasByte_app, escapeByte_clean, IH.
Qed.

Lemma Cut_clean c s t : hasByte c s = false -> Cut c (s +:+ String c t) = (s, t, true).
Proof.
  induction s as [|b s IH]; intros H.
  - rewrite append_nil_l. cbn [Cut]. by rewrite Ascii.eqb_refl.
  - cbn [hasByte] in H. apply orb_false_iff in H as [Hb Hs]. rewrite append_cons. cbn [Cut].
    rewrite Hb, IH by done. done.
Qed.

Lemma parsePair_encode kv : parsePair (encodePair kv) = Some (Some kv).
Proof.
  destruct kv as [k v]. unfold parsePair, encodePair. cbn [fst snd].
  assert (separator "&" /\ separator ";" /\ separator "=") as (_ & Hsc & Heq) by (unfold separator; auto).
  rewrite !hasByte_app, !(escape_clean ";" _ Hsc). cbn [hasByte orb Ascii.eqb].
  replace (String.eqb (QueryEscape k +:+ "=" +:+ QueryEscape v) "") with false by (by destruct (QueryEscape k)).
  change ("=" +:+ QueryEscape v) with (String "=" (QueryEscape v)).
  rewrite (Cut_clean "=" _ _ (escape_clean "=" k Heq)), !unescape_escape. done.
Qed.

Lemma encodePair_clean kv : hasByte "&" (encodePair kv) = false.
Proof.
  unfold encodePair. rewrite !hasByte_app, !escape_clean by (unfold separator; auto). done.
Qed.

Lemma Split_cons_ne c s : Split c s <> [].
Proof. destruct s as [|b s]; [done|]. cbn [Split]. destruct (Ascii.eqb b c); [done|]. by destruct (Split c s). Qed.

Lemma Split_clean c s t : hasByte c s = false -> Split c (s +:+ String c t) = s :: Split c t.
Proof.
  induction s as [|b s IH]; intros H.
  - rewrite append_nil_l. cbn [Split]. by rewrite Ascii.eqb_refl.
  - cbn [hasByte] in H. apply orb_false_iff in H as [Hb Hs]. rewrite append_cons. cbn [Split].
    by rewrite Hb, IH.
Qed.

Lemma Split_one c s : hasByte c s = false -> Split c s = [s].
Proof.
  induction s as [|b s IH]; intros H; [done|].
  cbn [hasByte] in H. apply orb_false_iff in H as [Hb Hs]. cbn [Split]. by rewrite Hb, IH.
Qed.

Lemma Split_Join parts :
  parts <> [] -> Forall (fun p => hasByte "&" p = false) parts -> Split "&" (Join "&" parts) = parts.
Proof.
  intros Hne H. induction H as [|p parts Hp H IH]; [done|].
  destruct parts as [|q parts]; [by apply Split_one|].
  change (Join "&" (p :: q :: parts)) with (p +:+ String "&" (Join "&" (q :: parts))).
  by rewrite Split_clean, IH.
Qed.

Lemma ParseQuery_pairs l : ParseQuery (Join "&" (encodePair <$> l)) = (foldl addPair ∅ l, true).
Proof.
  unfold ParseQuery. destruct l as [|kv l]; [done|].
  rewrite Split_Join; [|done|by apply Forall_fmap, Forall_true, encodePair_clean].
  generalize (kv :: l) as l'. clear kv l. intros l. generalize (∅ : gmap string (list string)).
  induction l as [|kv l IH]; intros m; [done|]. rewrite fmap_cons. cbn [foldl].
  rewrite parsePair_encode. cbn [fst snd]. apply IH.
Qed.

(** Adding the values of one key. *)
Lemma addPairs_key k vs m :
  vs <> [] -> foldl addPair m ((fun x => (k, x)) <$> vs) = <[k := default [] (m !! k) ++ vs]> m.
Proof.
  revert m. induction vs as [|x vs IH]; intros m Hne; [done|]. rewrite fmap_cons. cbn [foldl].
  unfold addPair at 2. cbn [fst snd]. destruct vs as [|y vs]; [done|].
  rewrite IH by done. rewrite lookup_insert_eq, insert_insert_eq. simpl. by rewrite <- app_assoc.
Qed.

Lemma addPairs_keys ks (v m : gmap string (list string)) :
  NoDup ks -> (forall k, k ∈ ks -> m !! k = None /\ exists x xs, v !! k = Some (x :: xs)) ->
  forall k, foldl addPair m (ks ≫= fun k => (fun x => (k, x)) <$> default [] (v !! k)) !! k =
            if decide (k ∈ ks) then v !! k else m !! k.
Proof.
  intros Hnd. revert m. induction Hnd as [|k ks Hk Hnd IH]; intros m Hm k'; [done|].
  rewrite bind_cons, foldl_app. destruct (Hm k ltac:(set_solver)) as (Hn & x & xs & Hv). rewrite Hv. change (default [] (Some (x :: xs))) with (x :: xs).
  rewrite addPairs_key, Hn by done. change (default [] None ++ x :: xs) with (x :: xs). rewrite IH.
  - destruct (decide (k' ∈ ks)) as [H1|H1], (decide (k' ∈ k :: ks)) as [H2|H2]; rewrite elem_of_cons in H2.
    + done.
    + exfalso. auto.
    + destruct H2 as [->|H2]; [by rewrite lookup_insert_eq, Hv | done].
    + rewrite lookup_insert_ne; [done|]. intros ->. auto.
  - intros k0 Hk0. destruct (Hm k0 ltac:(set_solver)) as [? ?]. split; [|done].
    rewrite lookup_insert_ne; [done|]. set_solver.
Qed.

(** Every key has a value, as after [Set]. *)
Definition proper (v : gmap string (list string)) : Prop := map_Forall (fun _ l => l <> []) v.

Lemma keysOf_spec (v : gmap string (list string)) : NoDup (keysOf v) /\ forall k, k ∈ keysOf v <-> is_Some (v !! k).
Proof.
  unfold keysOf. split; [rewrite SortFunc_perm; apply NoDup_fst_map_to_list|].
  intros k. rewrite SortFunc_elem, list_elem_of_fmap. split.
  - intros ([k' l] & -> & H). apply elem_of_map_to_list in H. simpl. eauto.
  - intros [l H]. exists (k, l). split; [done|]. by apply elem_of_map_to_list.
Qed.

Lemma ParseQuery_Encode v : proper v -> ParseQuery (Encode v) = (v, true).
Proof.
  intros Hv. unfold Encode. rewrite ParseQuery_pairs. f_equal. apply map_eq. intros k.
  destruct (keysOf_spec v) as [Hnd Hin]. unfold pairsOf. rewrite addPairs_keys; [|done|].
  - case_decide as Hk; [done|]. rewrite lookup_empty. rewrite Hin in Hk.
    destruct (v !! k); [exfalso; apply Hk; eauto | done].
  - intros k' Hk'. split; [apply lookup_empty|]. apply Hin in Hk' as [l Hl].
    specialize (Hv k' l Hl). destruct l; [done|]. eauto.
Qed.

Lemma proper_empty : proper ∅.
Proof. apply map_Forall_empty. Qed.

Lemma proper_Set k x v : proper v -> proper (Set_ k x v).
Proof. intros Hv. apply map_Forall_insert_2; done. Qed.

Lemma Get_Set k x v k' : Get (Set_ k x v) k' = if decide (k = k') then x else Get v k'.
Proof.
  unfold Get, Set_. case_decide; [subst; by rewrite lookup_insert_eq | by rewrite lookup_insert_ne].
Qed.

Lemma Get_empty k : Get ∅ k = "".
Proof. unfold Get. by rewrite lookup_empty. Qed.

#[export] Hint Resolve proper_empty proper_Set : drover.
