(* ===== verification/GoHTTP.v ===== *)
(** * GoHTTP: requests, answers and the mux of Go's net/http

    What the web console and the ops server use of it.  A request's path is given as the mux
    matches it: the texts between its slashes, decoded, after the first.  Only the last may be
    empty, for a path that ends in a slash: [/] is [[""]], and [/jobs/7/retry/] is
    [["jobs"; "7"; "retry"; ""]].  (A path with other empty segments, [.] or [..] is redirected by the mux to
    its cleaned form and meets no handler.)  A GET pattern of a [ServeMux] also takes HEAD. *)

From S2P Require Import Prelude GoError GoURL.

Record Response := { rsCode : Z; rsHeaders : list (string * string); rsBody : string }.

Record Request := {
  rqMethod : string;
  rqPath : list string;
  rqHost : string;
  rqOrigin : string;
  rqReferer : string;
  rqQuery : string;
  rqBody : res error string
}.

Definition isGet (r : Request) : bool :=
  String.eqb (rqMethod r) "GET" || String.eqb (rqMethod r) "HEAD".

(** [http.Error]: the text and a newline. *)
Definition httpError (code : Z) (msg : string) : Response :=
  {| rsCode := code;
     rsHeaders := [("Content-Type", "text/plain; charset=utf-8"); ("X-Content-Type-Options", "nosniff")];
     rsBody := msg +:+ String (ascii_of_nat 10) "" |}.

Definition httpNotFound : Response := httpError 404 "404 page not found".

(** The mux on a path it knows for other methods only. *)
Definition httpMethodNotAllowed (allow : string) : Response :=
  let r := httpError 405 "Method Not Allowed" in
  {| rsCode := rsCode r; rsHeaders := ("Allow", allow) :: rsHeaders r; rsBody := rsBody r |}.

(** [http.Request.ParseForm] of a POST: the body's values first, then the query's. *)
Definition ParseForm (r : Request) : res error (gmap string (list string)) :=
  match rqBody r with
  | Err e => Err e
  | Ok body =>
      let '(post, ok1) := ParseQuery body in
      let '(query, ok2) := ParseQuery (rqQuery r) in
      if ok1 && ok2 then Ok (union_with (fun a b => Some (a ++ b)) post query)
      else Err (Msg "invalid form")
  end.
