(* ===== verification/Web.v ===== *)
(** * Web: the status page

    Models cmd/drover/web.go and cmd_web.go: filters and their URL, the page and its buttons, the two
    mutating routes with their origin check, redirects and flash messages, and the server's
    flags and exit status.  [urlHost] is the host that [url.Parse] reads, none when it fails, and
    [render] the execution of webui/page.html; both are parameters. *)

From S2P Require Import Prelude GoTime GoError GoRuntime GoText DriverSpec Memdriver MemdriverFacts.
From S2P Require Import MemdriverProps Inspector GoURL GoHTTP GoFlag.

Definition defaultWebListen : string := "127.0.0.1:7180".
Definition defaultWebRefresh : Duration := 5 * Second.
Definition minWebRefresh : Duration := Second.
Definition htmlContentType : string := "text/html; charset=utf-8".
Definition cspStatusPage : string :=
  "default-src 'none'; style-src 'unsafe-inline'; form-action 'self'; frame-ancestors 'none'; base-uri 'none'".

(** ** Filters *)

Record filterView := MkFilter { fvQueue : string; fvState : string; fvLimit : Z }.

Definition droverDefaultListLimit : Z := 100.

Definition knownJobStates : list string :=
  stateString <$> [StateAvailable; StateScheduled; StateRunning; StateRetryable; StateCompleted;
                   StateCancelled; StateDead].

Definition parsePageFilters (q : gmap string (list string)) : res error filterView :=
  let state := if String.eqb (Get q "state") "" then "dead" else Get q "state" in
  let lim := Get q "limit" in
  let limit :=
    if String.eqb lim "" then Some droverDefaultListLimit
    else match Atoi lim with
         | Some n => if (n <? 1) || (1000 <? n) then None else Some n
         | None => None
         end in
  match limit with
  | None => Err (Msg "limit must be an integer between 1 and 1000")
  | Some n =>
      if negb (String.eqb state "all") && negb (existsb (String.eqb state) knownJobStates)
      then Err (Msg ("invalid job state " +:+ quote state))
      else Ok (MkFilter (Get q "queue") state n)
  end.

Definition listOptsFromFilters (f : filterView) : ListJobsOpts :=
  {| loQueue := fvQueue f; loState := if String.eqb (fvState f) "all" then "" else fvState f;
     loLimit := fvLimit f |}.

Definition setIf (c : bool) (key value : string) (v : gmap string (list string))
    : gmap string (list string) := if c then Set_ key value v else v.

(** The values [refreshURL] encodes. *)
Definition refreshValues (f : filterView) : gmap string (list string) :=
  setIf (negb (fvLimit f =? droverDefaultListLimit)) "limit" (itoa (fvLimit f))
    (setIf (negb (String.eqb (fvState f) "") && negb (String.eqb (fvState f) "dead")) "state" (fvState f)
       (setIf (negb (String.eqb (fvQueue f) "")) "queue" (fvQueue f) ∅)).

Definition refreshURL (f : filterView) : string :=
  let enc := Encode (refreshValues f) in
  if String.eqb enc "" then "/" else "/?" +:+ enc.

Definition refreshSeconds (d : Duration) : Z := if d <=? 0 then 0 else d / Second.

(** ** The page *)

Definition cancellableState (s : JobState) : bool :=
  match s with
  | StateAvailable | StateScheduled | StateRetryable | StateDead => true
  | _ => false
  end.

Record jobView := { jvRow : JobRow; CanRetry : bool; CanCancel : bool }.

Definition viewForJob (r : JobRow) : jobView :=
  {| jvRow := r; CanRetry := bool_decide (State r = StateDead); CanCancel := cancellableState (State r) |}.

Definition flashFromQuery (q : gmap string (list string)) : string * string :=
  match Atoi (Get q "id") with
  | None => ("", "")
  | Some id =>
      if id <=? 0 then ("", "")
      else if String.eqb (Get q "notice") "retried" then ("redrove job " +:+ itoa id, "notice")
      else if String.eqb (Get q "notice") "cancelled" then ("cancelled job " +:+ itoa id, "notice")
      else if String.eqb (Get q "error") "not_found" then ("job " +:+ itoa id +:+ " not found", "error")
      else if String.eqb (Get q "error") "invalid_transition"
      then ("job " +:+ itoa id +:+ " refused the transition", "error")
      else ("", "")
  end.

Record pageData := {
  pdDepths : list QueueDepth;
  pdOldest : list QueueAge;
  pdJobs : list jobView;
  pdFilters : filterView;
  pdRefreshSeconds : Z;
  pdRefreshURL : string;
  pdFlash : string;
  pdFlashKind : string
}.

(** [template.HTMLEscapeString]; NUL becomes the replacement character. *)
Definition htmlEscapeByte (c : ascii) : string :=
  let n := nat_of_ascii c in
  if (n =? 0)%nat then String (ascii_of_nat 239) (String (ascii_of_nat 191) (String (ascii_of_nat 189) ""))
  else if (n =? 34)%nat then "&#34;"
  else if (n =? 39)%nat then "&#39;"
  else if (n =? 38)%nat then "&amp;"
  else if (n =? 60)%nat then "&lt;"
  else if (n =? 62)%nat then "&gt;"
  else String c "".

Fixpoint HTMLEscapeString (s : string) : string :=
  match s with
  | "" => ""
  | String c s' => htmlEscapeByte c +:+ HTMLEscapeString s'
  end.

Definition htmlHeaders : list (string * string) :=
  [("Content-Type", htmlContentType); ("X-Content-Type-Options", "nosniff");
   ("Content-Security-Policy", cspStatusPage)].

Definition htmlBody (msg : string) : string :=
  let q := String (ascii_of_nat 34) "" in
  "<!DOCTYPE html><html><head><meta charset=" +:+ q +:+ "utf-8" +:+ q
  +:+ "><title>drover</title></head><body><p>" +:+ HTMLEscapeString msg +:+ "</p></body></html>".

Definition writeHTML (code : Z) (msg : string) : Response :=
  {| rsCode := code; rsHeaders := htmlHeaders; rsBody := htmlBody msg |}.

(** The values of the redirect after a mutation. *)
Definition redirectValues (form : gmap string (list string)) (notice : string) (mutErr : option error)
    (id : Z) : gmap string (list string) :=
  let v := setIf (negb (String.eqb (Get form "queue") "")) "queue" (Get form "queue") ∅ in
  let v := setIf (negb (String.eqb (Get form "state") "")) "state" (Get form "state") v in
  let v := setIf (negb (String.eqb (Get form "limit") "")) "limit" (Get form "limit") v in
  let v := Set_ "id" (itoa id) v in
  match mutErr with
  | None => Set_ "notice" notice v
  | Some e =>
      if errorsIs e ErrNotFound then Set_ "error" "not_found" v
      else if errorsIs e ErrInvalidTransition then Set_ "error" "invalid_transition" v
      else v
  end.

Definition mutationRedirect (form : gmap string (list string)) (notice : string)
    (mutErr : option error) (id : Z) : string :=
  "/?" +:+ Encode (redirectValues form notice mutErr id).

Definition parseJobID (s : string) : res error Z :=
  match Atoi (TrimSpace s) with
  | Some id => if id <=? 0 then Err (Msg ("invalid job id " +:+ quote s)) else Ok id
  | None => Err (Msg ("invalid job id " +:+ quote s))
  end.

Section Handler.
Context {S : Type} `{Driver S}.
Variable urlHost : string -> option string.
Variable render : pageData -> res error string.
Variable refresh : Duration.

Definition sameOrigin (r : Request) : bool :=
  let matches (u : string) :=
    match urlHost u with Some h => String.eqb h (rqHost r) | None => false end in
  if negb (String.eqb (rqOrigin r) "") then matches (rqOrigin r)
  else if String.eqb (rqReferer r) "" then false
  else matches (rqReferer r).

Definition postMutation (r : Request) (pathID notice : string)
    (mutate : Z -> S -> S * res error JobRow) (s : S) : S * Response :=
  if negb (sameOrigin r) then (s, writeHTML 403 "cross-origin request refused")
  else match parseJobID pathID with
       | Err e => (s, writeHTML 400 (errorText e))
       | Ok id =>
           match ParseForm r with
           | Err e => (s, writeHTML 400 (errorText e))
           | Ok form =>
               let '(s', out) := mutate id s in
               let err := match out with Ok _ => None | Err e => Some e end in
               let unexpected :=
                 match err with
                 | Some e => negb (errorsIs e ErrNotFound) && negb (errorsIs e ErrInvalidTransition)
                 | None => false
                 end in
               if unexpected : bool
               then (s', writeHTML 500 (match err with Some e => errorText e | None => "" end))
               else (s', {| rsCode := 303; rsHeaders := [("Location", mutationRedirect form notice err id)];
                            rsBody := "" |})
           end
       end.

Definition methodNotAllowed : Response :=
  let r := writeHTML 405 "method not allowed" in
  {| rsCode := rsCode r; rsHeaders := ("Allow", "POST") :: rsHeaders r; rsBody := rsBody r |}.

Definition writePage (code : Z) (data : pageData) : Response :=
  match render data with
  | Err e => httpError 500 (errorText e)
  | Ok html => {| rsCode := code; rsHeaders := htmlHeaders; rsBody := html |}
  end.

Definition pageOf (filters : filterView) (q : gmap string (list string)) (stats : QueueStats)
    (jobs : list JobRow) : pageData :=
  let flash := flashFromQuery q in
  {| pdDepths := publicDepths stats; pdOldest := publicOldest stats; pdJobs := viewForJob <$> jobs;
     pdFilters := filters; pdRefreshSeconds := refreshSeconds refresh;
     pdRefreshURL := refreshURL filters; pdFlash := flash.1; pdFlashKind := flash.2 |}.

Definition getPage (now : Time) (r : Request) (s : S) : Response :=
  let q := (ParseQuery (rqQuery r)).1 in
  match parsePageFilters q with
  | Err e => writeHTML 400 (errorText e)
  | Ok filters =>
      match inspectorStats now s with
      | Err e => writeHTML 500 (errorText e)
      | Ok stats =>
          match inspectorListJobs (Some (listOptsFromFilters filters)) s with
          | Err e => writeHTML 500 (errorText e)
          | Ok jobs => writePage 200 (pageOf filters q stats jobs)
          end
      end
  end.

(** [newStatusHandler]: the mux.  A slash at the end makes another path, which only the last
    pattern takes. *)
Definition serve (now : Time) (r : Request) (s : S) : S * Response :=
  match rqPath r with
  | [root] => if String.eqb root "" && isGet r then (s, getPage now r s) else (s, writeHTML 404 "not found")
  | [jobs_; id; action] =>
      if String.eqb jobs_ "jobs" && (String.eqb action "retry" || String.eqb action "cancel") then
        if isGet r then (s, methodNotAllowed)
        else if String.eqb (rqMethod r) "POST" then
          if String.eqb action "retry" then postMutation r id "retried" (RetryJob now) s
          else postMutation r id "cancelled" (CancelJob now) s
        else (s, writeHTML 404 "not found")
      else (s, writeHTML 404 "not found")
  | _ => (s, writeHTML 404 "not found")
  end.
End Handler.

(** ** The command *)

Record webConfig := { wcListen : string; wcRefresh : Duration }.

Definition webFlags : list (string * flagKind) := [("listen", FString); ("refresh", FDuration)].

(** The configuration, or the exit status with what was complained of. *)
Definition parseWebConfig (args : list string) : res (Z * option string) webConfig :=
  match parseFlags webFlags args with
  | HelpAsked => Err (2, None)
  | BadFlag e => Err (2, Some (errorText e))
  | Parsed vals rest =>
      let refresh := flagDuration "refresh" defaultWebRefresh vals in
      match rest with
      | _ :: _ => Err (2, Some ("drover: unexpected arguments " +:+ showSlice rest))
      | [] =>
          if (0 <? refresh) && (refresh <? minWebRefresh)
          then Err (2, Some "drover: --refresh must be 0 or at least 1s")
          else Ok {| wcListen := flagString "listen" defaultWebListen vals; wcRefresh := refresh |}
      end
  end.

(** What ends the server: the context, after which [Serve] returns [late], or [Serve] itself;
    [None] is [http.ErrServerClosed]. *)
Inductive webEnd :=
| Interrupted (late : option error)
| ServeReturned (e : option error).

(** [listen] gives the address bound. *)
Definition runWeb (listen : string -> res error string) (ended : webEnd) (args : list string) : Z :=
  match parseWebConfig args with
  | Err (code, _) => code
  | Ok cfg =>
      match listen (wcListen cfg) with
      | Err _ => 1
      | Ok _ =>
          match ended with
          | Interrupted (Some _) | ServeReturned (Some _) => 1
          | Interrupted None | ServeReturned None => 0
          end
      end
  end.

(** ** Links lead back *)

(** The query of a URL of this site. *)
Definition queryPart (url : string) : string := (Cut "?"%char url).1.2.

Lemma queryPart_path enc : queryPart ("/?" +:+ enc) = enc.
Proof. reflexivity. Qed.

Lemma refreshURL_query f : queryPart (refreshURL f) = Encode (refreshValues f).
Proof.
  unfold refreshURL. destruct (String.eqb_spec (Encode (refreshValues f)) "") as [->|]; reflexivity.
Qed.

Lemma proper_setIf c k x v : proper v -> proper (setIf c k x v).
Proof. destruct c; simpl; auto with drover. Qed.

Lemma Get_Set_eqb k x v k' : Get (Set_ k x v) k' = if String.eqb k k' then x else Get v k'.
Proof. rewrite Get_Set. destruct (String.eqb_spec k k'), (decide (k = k')); done. Qed.

Lemma Get_setIf c k x v k' :
  Get (setIf c k x v) k' = if String.eqb k k' then (if c then x else Get v k') else Get v k'.
Proof. destruct c; simpl; [apply Get_Set_eqb | by destruct (String.eqb k k')]. Qed.

#[local] Hint Resolve proper_setIf : drover.

(** Filters a page can show. *)
Definition shownFilter (f : filterView) : Prop :=
  (fvState f = "all" \/ fvState f ∈ knownJobStates) /\ 1 <= fvLimit f <= 1000.

Lemma known_state s : existsb (String.eqb s) knownJobStates = true <-> s ∈ knownJobStates.
Proof.
  rewrite existsb_exists. split.
  - intros (x & Hx & He). apply String.eqb_eq in He as ->. by apply list_elem_of_In.
  - intros Hs. exists s. split; [by apply list_elem_of_In | apply String.eqb_refl].
Qed.

Lemma parsePageFilters_shown q f : parsePageFilters q = Ok f -> shownFilter f.
Proof.
  unfold parsePageFilters. set (state := if String.eqb (Get q "state") "" then "dead" else Get q "state").
  set (limit := if String.eqb (Get q "limit") "" then _ else _).
  assert (forall n, limit = Some n -> 1 <= n <= 1000) as Hlim.
  { unfold limit. intros n. destruct (String.eqb (Get q "limit") ""); [intros [= <-]; unfold droverDefaultListLimit; lia|].
    destruct (Atoi (Get q "limit")) as [m|]; [|done].
    destruct (Z.ltb_spec m 1); [done|]. destruct (Z.ltb_spec 1000 m); [done|]. intros [= <-]. lia. }
  destruct limit as [n|]; [|done]. specialize (Hlim n eq_refl).
  destruct (String.eqb_spec state "all") as [Hall|Hall]; cbn [negb andb].
  - intros [= <-]. split; simpl; auto.
  - destruct (existsb (String.eqb state) knownJobStates) eqn:Ek; cbn [negb]; [|done].
    intros [= <-]. split; cbn [fvState fvLimit]; [|done]. right. by apply known_state.
Qed.

Lemma shown_state_ne f : shownFilter f -> fvState f <> "".
Proof.
  intros [[->|Hs] _]; [done|]. intros He. rewrite He in Hs. apply known_state in Hs. by vm_compute in Hs.
Qed.

Lemma refresh_values f :
  Get (refreshValues f) "queue" = fvQueue f /\
  Get (refreshValues f) "state" = (if String.eqb (fvState f) "dead" then "" else fvState f) /\
  Get (refreshValues f) "limit" = (if fvLimit f =? droverDefaultListLimit then "" else itoa (fvLimit f)).
Proof.
  unfold refreshValues. rewrite !Get_setIf, !Get_empty. cbn [String.eqb Ascii.eqb Bool.eqb]. split_all.
  - by destruct (String.eqb_spec (fvQueue f) "") as [->|].
  - destruct (String.eqb_spec (fvState f) "") as [->|]; [done|]. by destruct (String.eqb (fvState f) "dead").
  - by destruct (fvLimit f =? droverDefaultListLimit).
Qed.

Lemma refresh_parse f : shownFilter f -> parsePageFilters (refreshValues f) = Ok f.
Proof.
  intros Hf. pose proof (shown_state_ne f Hf) as Hne. destruct Hf as [Hst Hlim].
  destruct (refresh_values f) as (Hq & Hs & Hl). unfold parsePageFilters. rewrite Hq, Hs, Hl.
  destruct f as [q s n]. cbn [fvQueue fvState fvLimit] in *.
  assert ((if String.eqb (if String.eqb s "dead" then "" else s) "" then "dead"
           else if String.eqb s "dead" then "" else s) = s) as ->.
  { destruct (String.eqb_spec s "dead") as [->|]; [done|]. by rewrite (proj2 (String.eqb_neq s "") Hne). }
  assert ((if String.eqb (if n =? droverDefaultListLimit then "" else itoa n) "" then Some droverDefaultListLimit
           else match Atoi (if n =? droverDefaultListLimit then "" else itoa n) with
                | Some n => if (n <? 1) || (1000 <? n) then None else Some n
                | None => None
                end) = Some n) as ->.
  { destruct (Z.eqb_spec n droverDefaultListLimit) as [->|]; [done|].
    rewrite (proj2 (String.eqb_neq _ "") (itoa_ne n)), Atoi_itoa by lia.
    destruct (Z.ltb_spec n 1); [lia|]. destruct (Z.ltb_spec 1000 n); [lia|done]. }
  destruct Hst as [->|Hst]; [done|]. apply known_state in Hst. by rewrite Hst, andb_false_r.
Qed.

Lemma refresh_proper f : proper (refreshValues f).
Proof. unfold refreshValues. auto with drover. Qed.

(** The values of a redirect, read back. *)
Lemma redirect_proper form notice e id : proper (redirectValues form notice e id).
Proof.
  unfold redirectValues. destruct e as [e|]; [|auto 10 with drover].
  destruct (errorsIs e ErrNotFound); [auto 10 with drover|].
  destruct (errorsIs e ErrInvalidTransition); auto 10 with drover.
Qed.

Lemma redirect_values form notice e id :
  let v := redirectValues form notice e id in
  Get v "queue" = Get form "queue" /\ Get v "state" = Get form "state" /\
  Get v "limit" = Get form "limit" /\ Get v "id" = itoa id /\
  Get v "notice" = (match e with None => notice | Some _ => "" end) /\
  Get v "error" = (match e with
                   | Some e => if errorsIs e ErrNotFound then "not_found"
                               else if errorsIs e ErrInvalidTransition then "invalid_transition" else ""
                   | None => ""
                   end).
Proof.
  assert (forall k, (if negb (String.eqb (Get form k) "") then Get form k else "") = Get form k) as Hk
    by (intros k; by destruct (String.eqb_spec (Get form k) "") as [->|]).
  unfold redirectValues. destruct e as [e|]; [destruct (errorsIs e ErrNotFound); [|destruct (errorsIs e ErrInvalidTransition)]|].
  all: rewrite !Get_Set_eqb, !Get_setIf, !Get_empty; cbn [String.eqb Ascii.eqb Bool.eqb].
  all: rewrite !Hk; done.
Qed.

(** What the page says of a mutation. *)
Definition flashOf (notice : string) (e : option error) (id : Z) : string * string :=
  match e with
  | None => ((if String.eqb notice "retried" then "redrove job " else "cancelled job ") +:+ itoa id, "notice")
  | Some e => if errorsIs e ErrNotFound then ("job " +:+ itoa id +:+ " not found", "error")
              else ("job " +:+ itoa id +:+ " refused the transition", "error")
  end.

(** C31: The console's links lead back.  Any filters a page accepts are read back
    unchanged from the page's own refresh link, whatever bytes the queue's name has; and a page reached by the
    redirect after a mutation keeps the form's filters and reports the job and the
    outcome: done, not found, or refused. *)
Theorem web_links_roundtrip q f form notice e id :
  parsePageFilters q = Ok f -> notice = "retried" \/ notice = "cancelled" -> 1 <= id < 2 ^ 63 ->
  match e with
  | Some e => errorsIs e ErrNotFound = true \/ errorsIs e ErrInvalidTransition = true
  | None => True
  end ->
  parsePageFilters (ParseQuery (queryPart (refreshURL f))).1 = Ok f /\
  let q' := (ParseQuery (queryPart (mutationRedirect form notice e id))).1 in
  flashFromQuery q' = flashOf notice e id /\
  Get q' "queue" = Get form "queue" /\ Get q' "state" = Get form "state" /\
  Get q' "limit" = Get form "limit".
Proof.
  intros Hq Hn Hid He. split.
  - rewrite refreshURL_query, ParseQuery_Encode by apply refresh_proper.
    apply refresh_parse. by eapply parsePageFilters_shown.
  - unfold mutationRedirect. rewrite queryPart_path, ParseQuery_Encode by apply redirect_proper. cbn [fst].
    destruct (redirect_values form notice e id) as (H1 & H2 & H3 & H4 & H5 & H6).
    split_all; try done. unfold flashFromQuery. rewrite H4, H5, H6, Atoi_itoa by lia.
    destruct (Z.leb_spec id 0); [lia|]. destruct e as [e|]; [|by destruct Hn as [->| ->]].
    cbn [String.eqb Ascii.eqb]. unfold flashOf. destruct (errorsIs e ErrNotFound); [done|].
    destruct He as [He|He]; [done|]. by rewrite He.
Qed.

(** ** Only same-origin posts change jobs *)

Section Guard.
Context {S : Type} `{Driver S}.
Variable urlHost : string -> option string.
Variable render : pageData -> res error string.
Variable refresh : Duration.

(** The request names an origin, or failing that a referring page, on its own host. *)
Definition ownOrigin (r : Request) : Prop :=
  (rqOrigin r <> "" /\ urlHost (rqOrigin r) = Some (rqHost r)) \/
  (rqOrigin r = "" /\ rqReferer r <> "" /\ urlHost (rqReferer r) = Some (rqHost r)).

Lemma sameOrigin_spec r : sameOrigin urlHost r = true <-> ownOrigin r.
Proof.
  unfold sameOrigin, ownOrigin.
  assert (forall u, (match urlHost u with Some h => String.eqb h (rqHost r) | None => false end) = true <->
                    urlHost u = Some (rqHost r)) as Hm.
  { intros u. destruct (urlHost u) as [h|]; [rewrite String.eqb_eq; naive_solver | naive_solver]. }
  destruct (String.eqb_spec (rqOrigin r) "") as [Ho|Ho]; simpl.
  - destruct (String.eqb_spec (rqReferer r) "") as [Hr|Hr]; [naive_solver|]. rewrite Hm. naive_solver.
  - rewrite Hm. naive_solver.
Qed.

(** The segment is the decimal text of a positive job id. *)
Definition namesJob (seg : string) (id : Z) : Prop := Atoi (TrimSpace seg) = Some id /\ 1 <= id.

Lemma parseJobID_spec seg :
  match parseJobID seg with Ok id => namesJob seg id | Err _ => forall id, ~ namesJob seg id end.
Proof.
  unfold parseJobID, namesJob. destruct (Atoi (TrimSpace seg)) as [n|]; [|naive_solver].
  destruct (Z.leb_spec n 0); [intros id [[= ->] ?]; lia | split; [done | lia]].
Qed.

(** The two actions the console offers: the last segment of the address, what is done, and the notice. *)
Definition consoleAction (now : Time) (action : string) (mutate : Z -> S -> S * res error JobRow)
    (notice : string) : Prop :=
  (action = "retry" /\ mutate = RetryJob now /\ notice = "retried") \/
  (action = "cancel" /\ mutate = CancelJob now /\ notice = "cancelled").

(** The action was taken on a job, and reported: a redirect for an outcome the operator can
    expect, a server error for anything else. *)
Definition acted (mutate : Z -> S -> S * res error JobRow) (notice : string)
    (form : gmap string (list string)) (id : Z) (s : S) (out : S * Response) : Prop :=
  out.1 = (mutate id s).1 /\
  let redirected e := rsCode out.2 = 303 /\
    rsHeaders out.2 = [("Location", mutationRedirect form notice e id)] in
  match (mutate id s).2 with
  | Ok _ => redirected None
  | Err e => if errorsIs e ErrNotFound || errorsIs e ErrInvalidTransition then redirected (Some e)
             else rsCode out.2 = 500
  end.

(** What a post to an action's address gets. *)
Definition posted (mutate : Z -> S -> S * res error JobRow) (notice : string) (r : Request)
    (seg : string) (s : S) (out : S * Response) : Prop :=
  (~ ownOrigin r -> out.1 = s /\ rsCode out.2 = 403) /\
  (ownOrigin r -> forall id form, namesJob seg id -> ParseForm r = Ok form ->
     acted mutate notice form id s out) /\
  (ownOrigin r -> (forall id, ~ namesJob seg id) \/ (exists e, ParseForm r = Err e) ->
     out.1 = s /\ rsCode out.2 = 400).

Lemma postMutation_spec r seg notice mutate s :
  posted mutate notice r seg s (postMutation urlHost r seg notice mutate s).
Proof.
  unfold postMutation, posted. pose proof (sameOrigin_spec r) as Ho. pose proof (parseJobID_spec seg) as Hid.
  destruct (sameOrigin urlHost r); cbn [negb]; [|split; [done|]; split; intros Hr; by apply Ho in Hr].
  split; [intros Hn; destruct Hn; by apply Ho|].
  destruct (parseJobID seg) as [id|e]; [|by split; [intros _ id form Hs; destruct (Hid id)|]].
  destruct (ParseForm r) as [form|e]; [|split; [intros _ id' form _ [=] | done]].
  split; intros _; [|intros [Hn|[e [=]]]; by destruct (Hn id)].
  intros id' form' [Ha _] [= ->]. destruct Hid as [Hi _]. rewrite Hi in Ha. injection Ha as <-.
  unfold acted. destruct (mutate id s) as [s' [row|e]]; simpl; [done|].
  destruct (errorsIs e ErrNotFound), (errorsIs e ErrInvalidTransition); done.
Qed.

Lemma getPage_code now r (s : S) : rsCode (getPage render refresh now r s) <> 303.
Proof.
  unfold getPage, writePage. destruct (parsePageFilters _); [|done].
  destruct (inspectorStats now s); [|done]. destruct (inspectorListJobs _ s); [|done].
  by destruct (render _).
Qed.

Lemma serve_elsewhere now r s :
  (rqMethod r = "POST" -> forall seg, rqPath r <> ["jobs"; seg; "retry"] /\ rqPath r <> ["jobs"; seg; "cancel"]) ->
  let out := serve urlHost render refresh now r s in
  out.1 = s /\ rsCode out.2 <> 303 /\ (rqPath r <> [""] -> rsCode out.2 = 404 \/ rsCode out.2 = 405).
Proof.
  intros Hn. unfold serve. destruct (rqPath r) as [|p [|seg [|action [|]]]]; try by split_all; auto.
  - destruct (String.eqb_spec p "") as [->|]; [|by split_all; auto].
    destruct (isGet r); split_all; simpl; auto; try done. apply getPage_code.
  - destruct (String.eqb_spec p "jobs") as [->|]; [|by split_all; auto].
    destruct (String.eqb_spec (rqMethod r) "POST") as [Hp|]; [specialize (Hn Hp seg)|];
      (destruct (String.eqb_spec action "retry") as [->|]; [|destruct (String.eqb_spec action "cancel") as [->|]]);
      cbn [andb orb]; try (destruct (isGet r); by split_all; auto); naive_solver.
Qed.

(** C27: A post to [/jobs/ID/retry] or [/jobs/ID/cancel] that names an origin (or, without one, a
    referring page) on the console's own host takes exactly that action, once, on the id in the path, and is
    answered with a 303 that carries the outcome, or with a 500 when the action failed for
    a reason that is neither an unknown id nor a refused transition; if the id is not a positive number
    or the form cannot be read, it is answered 400.  From elsewhere, or with neither header, it is
    answered 403.  Every other request (a page view, another method, another path, a slash too many)
    gets a page or a refusal.  In all cases but the first the store is left as it was. *)
Theorem web_mutations_guarded now r s :
  let out := serve urlHost render refresh now r s in
  (forall action mutate notice seg, consoleAction now action mutate notice ->
     rqMethod r = "POST" -> rqPath r = ["jobs"; seg; action] -> posted mutate notice r seg s out) /\
  ((rqMethod r = "POST" -> forall seg, rqPath r <> ["jobs"; seg; "retry"] /\ rqPath r <> ["jobs"; seg; "cancel"]) ->
     out.1 = s /\ rsCode out.2 <> 303 /\
     (rqPath r <> [""] -> rsCode out.2 = 404 \/ rsCode out.2 = 405)).
Proof.
  split.
  - intros action mutate notice seg Ha Hm Hp. unfold serve, isGet. rewrite Hp, Hm.
    destruct Ha as [(-> & -> & ->)|(-> & -> & ->)]; apply postMutation_spec.
  - intros Hn. apply serve_elsewhere. naive_solver.
Qed.
End Guard.

(** ** What the page offers and shows *)

(** A button is shown exactly on the jobs its action would accept. *)
Lemma buttons_match_actions now id (d : MemDriver) r :
  jobs d !! id = Some r ->
  CanRetry (viewForJob r) = is_ok (RetryJob now id d).2 /\
  CanCancel (viewForJob r) = is_ok (CancelJob now id d).2.
Proof.
  intros Hr. unfold RetryJob, CancelJob. simpl.
  unfold drvRedriveDead, drvOperatorCancel. simpl.
  rewrite OperatorCancel_guarded, RedriveDead_guarded, !guardedUpdate_undisturbed, Hr.
  destruct (State r) eqn:Hs; done.
Qed.

(** A message cannot open a tag or an attribute: none of these bytes survives escaping. *)
Lemma escaped_text_is_inert c msg :
  c = "<"%char \/ c = ">"%char \/ c = "'"%char \/ c = ascii_of_nat 34 ->
  hasByte c (HTMLEscapeString msg) = false.
Proof.
  intros Hc. induction msg as [|b msg IH]; [done|]. cbn [HTMLEscapeString]. rewrite hasByte_app, IH, orb_false_r.
  destruct Hc as [->|[->|[->| ->]]]; destruct b as [[] [] [] [] [] [] [] []]; reflexivity.
Qed.

(** A queue whose name needs escaping, and a refused cancellation. *)
Definition oddFilter : filterView := MkFilter "a&b=c; d%" "all" 25.

Lemma web_links_roundtrip_witness :
  let e := Some (Sent ErrInvalidTransition) in
  let form := Set_ "queue" "a&b=c; d%" ∅ in
  refreshURL oddFilter = "/?limit=25&queue=a%26b%3Dc%3B+d%25&state=all" /\
  parsePageFilters (ParseQuery (queryPart (refreshURL oddFilter))).1 = Ok oddFilter /\
  let q' := (ParseQuery (queryPart (mutationRedirect form "cancelled" e 7))).1 in
  flashFromQuery q' = flashOf "cancelled" e 7 /\
  Get q' "queue" = Get form "queue" /\ Get q' "state" = Get form "state" /\
  Get q' "limit" = Get form "limit".
Proof.
  intros e form. split; [vm_compute; reflexivity|].
  apply (web_links_roundtrip (refreshValues oddFilter) oddFilter form "cancelled" e 7);
    [vm_compute; reflexivity | right; reflexivity | lia | right; reflexivity].
Defined.

(** A console on its default address: a cancellation from its own page, the same from elsewhere, and
    the same with a slash at the end. *)
Definition demoHost (u : string) : option string :=
  if String.eqb u "http://127.0.0.1:7180" then Some defaultWebListen else None.

Definition cancelFrom (origin : string) (path : list string) : Request :=
  {| rqMethod := "POST"; rqPath := path; rqHost := defaultWebListen; rqOrigin := origin;
     rqReferer := ""; rqQuery := ""; rqBody := Ok "" |}.

Definition demoServe (r : Request) : MemDriver * Response :=
  serve demoHost (fun _ => Ok "") defaultWebRefresh 5000 r waitingStore.

Lemma web_mutations_guarded_witness :
  let own := demoServe (cancelFrom "http://127.0.0.1:7180" ["jobs"; "1"; "cancel"]) in
  let foreign := demoServe (cancelFrom "http://evil.example" ["jobs"; "1"; "cancel"]) in
  let slashed := demoServe (cancelFrom "http://127.0.0.1:7180" ["jobs"; "1"; "cancel"; ""]) in
  (own.1 = (CancelJob 5000 1 waitingStore).1 /\ rsCode own.2 = 303 /\
   State <$> jobs own.1 !! 1 = Some StateCancelled) /\
  (foreign.1 = waitingStore /\ rsCode foreign.2 = 403) /\
  (slashed.1 = waitingStore /\ rsCode slashed.2 = 404).
Proof.
  pose proof (fun r => web_mutations_guarded demoHost (fun _ => Ok "") defaultWebRefresh 5000 r waitingStore) as H.
  split; [|split].
  - destruct (proj1 (H (cancelFrom "http://127.0.0.1:7180" ["jobs"; "1"; "cancel"])) "cancel" (CancelJob 5000)
      "cancelled" "1" (or_intror (conj eq_refl (conj eq_refl eq_refl))) eq_refl eq_refl) as (_ & Hown & _).
    assert (ownOrigin demoHost (cancelFrom "http://127.0.0.1:7180" ["jobs"; "1"; "cancel"])) as Ho
      by (left; split; [discriminate | vm_compute; reflexivity]).
    assert (namesJob "1" 1) as Hn by (split; [vm_compute; reflexivity | lia]).
    assert (ParseForm (cancelFrom "http://127.0.0.1:7180" ["jobs"; "1"; "cancel"]) = Ok ∅) as Hp
      by (vm_compute; reflexivity).
    pose proof (proj1 (Hown Ho 1 ∅ Hn Hp)) as Hs. split; [exact Hs|]. split; [vm_compute; reflexivity | vm_compute; reflexivity].
  - destruct (proj1 (H (cancelFrom "http://evil.example" ["jobs"; "1"; "cancel"])) "cancel" (CancelJob 5000)
      "cancelled" "1" (or_intror (conj eq_refl (conj eq_refl eq_refl))) eq_refl eq_refl) as (Hf & _).
    apply Hf. intros [[_ Ho]|[Ho _]]; discriminate Ho.
  - destruct (proj2 (H (cancelFrom "http://127.0.0.1:7180" ["jobs"; "1"; "cancel"; ""]))) as (Hs & _).
    + intros _ seg. split; discriminate.
    + split; [exact Hs | vm_compute; reflexivity].
Defined.
