(* ===== verification/Cli.v ===== *)
(** * Cli: the operator's command line

    Models cmd/drover but its web console: global flags, the choice of database, the commands with
    their flags, output and exit status.  Output is a list of pieces: text, usage of a flag set,
    or a value encoded as one line of JSON.  The commands run on any driver, through Inspector;
    opening a pool is an argument that may fail. *)

From S2P Require Import Prelude GoTime GoError GoRuntime GoText DriverSpec Memdriver MemdriverFacts.
From S2P Require Import MemdriverProps Enqueue JsonValid Inspector GoURL GoFlag Web.

(** ** Global flags *)

Record globalConfig := MkGlobal {
  gcDatabase : string;
  gcJson : bool;
  gcVersion : bool;
  gcHelp : bool
}.

Definition noGlobals : globalConfig := MkGlobal "" false false false.

Definition setDatabase (d : string) (c : globalConfig) : globalConfig :=
  MkGlobal d (gcJson c) (gcVersion c) (gcHelp c).
Definition setJson (c : globalConfig) : globalConfig :=
  MkGlobal (gcDatabase c) true (gcVersion c) (gcHelp c).
Definition setVersion (c : globalConfig) : globalConfig :=
  MkGlobal (gcDatabase c) (gcJson c) true (gcHelp c).
Definition setHelp (c : globalConfig) : globalConfig :=
  MkGlobal (gcDatabase c) (gcJson c) (gcVersion c) true.

Definition errDatabaseValue : error := Msg "--database requires a value".

(** The loop of [peelGlobals]; [rest] is what was kept so far. *)
Fixpoint peelLoop (cfg : globalConfig) (rest : list string) (args : list string)
    : res error (globalConfig * list string) :=
  match args with
  | [] => Ok (cfg, rest)
  | a :: more =>
      if String.eqb a "--" then Ok (cfg, rest ++ more)
      else if String.eqb a "--json" then peelLoop (setJson cfg) rest more
      else if String.eqb a "--version" then peelLoop (setVersion cfg) rest more
      else if String.eqb a "-h" || String.eqb a "--help" then peelLoop (setHelp cfg) rest more
      else if String.eqb a "--database" then
        match more with
        | [] => Err errDatabaseValue
        | v :: more' => peelLoop (setDatabase v cfg) rest more'
        end
      else match TrimPrefixOpt "--database=" a with
           | Some v =>
               if String.eqb v "" then Err errDatabaseValue
               else peelLoop (setDatabase v cfg) rest more
           | None => peelLoop cfg (rest ++ [a]) more
           end
  end.

Definition peelGlobals (args : list string) : res error (globalConfig * list string) :=
  peelLoop noGlobals [] args.

Definition resolveDSN (flagValue : string) (getenv : option (string -> string)) : res error string :=
  if negb (String.eqb flagValue "") then Ok flagValue
  else
    let missing := Err (Msg "database URL required: pass --database or set DATABASE_URL") in
    match getenv with
    | None => missing
    | Some env => if String.eqb (env "DATABASE_URL") "" then missing else Ok (env "DATABASE_URL")
    end.

(** ** Output *)

Inductive jsonValue :=
| JVStats (st : QueueStats)
| JVJobs (rs : list JobRow)
| JVJob (r : JobRow).

Inductive piece :=
| Text (s : string)
| FlagUsage (set : string) (complaint : option string)
| JSONLine (v : jsonValue).

Definition nl : string := String (ascii_of_nat 10) "".
Definition tab : string := String (ascii_of_nat 9) "".

Definition line (s : string) : piece := Text (s +:+ nl).
Definition complain (e : error) : piece := line ("drover: " +:+ errorText e).

(** The encoder fails on a raw message that is not JSON and on a year outside 0 to 9999; an
    empty raw message is null. *)
Definition encodableRow (r : JobRow) : bool :=
  (String.eqb (Args r) "" || jsonValid (Args r)) &&
  match Errors r with Raw _ => true | Garbage _ => false end &&
  jsonYearOk (ScheduledAt r) && jsonYearOk (CreatedAt r) &&
  match LeasedUntil r with Some t => jsonYearOk t | None => true end &&
  match FinalizedAt r with Some t => jsonYearOk t | None => true end.

Definition encodable (v : jsonValue) : bool :=
  match v with
  | JVStats _ => true
  | JVJobs rs => forallb encodableRow rs
  | JVJob r => encodableRow r
  end.

Definition writeJSON (v : jsonValue) : res error piece :=
  if encodable v then Ok (JSONLine v) else Err (Msg "json: error calling MarshalJSON").

(** [%.3f], rounded to the nearest, ties to even. *)
Definition fixed3 (f : float64) : string :=
  let m := Z.abs (mant f) * 1000 in
  let n := if 0 <=? expo f then m * 2 ^ expo f else rne m (- expo f) in
  (if mant f <? 0 then "-" else "") +:+ itoa (n / 1000) +:+ "." +:+ digits 3 (n mod 1000).

Definition writeStatsHuman (st : QueueStats) : list piece :=
  [line ("QUEUE" +:+ tab +:+ "STATE" +:+ tab +:+ "COUNT")] ++
  ((fun d => line (qdQueue d +:+ tab +:+ qdState d +:+ tab +:+ itoa (qdCount d))) <$> publicDepths st) ++
  [line ("QUEUE" +:+ tab +:+ "OLDEST_AGE_SECONDS")] ++
  ((fun a => line (qaQueue a +:+ tab +:+ fixed3 (AgeSeconds a))) <$> publicOldest st).

(** RFC 3339 without a fraction, empty for the zero time. *)
Definition formatTime (t : Time) : string :=
  if IsZero t then "" else formatRFC3339Nano (t - t mod Second).

Definition writeJobsHuman (rs : list JobRow) : list piece :=
  line (Join tab ["ID"; "KIND"; "QUEUE"; "STATE"; "ATTEMPT"; "SCHEDULED_AT"; "CREATED_AT"]) ::
  ((fun j => line (Join tab [itoa (ID j); Kind j; Queue j; stateString (State j); itoa (Attempt j);
                             formatTime (ScheduledAt j); formatTime (CreatedAt j)])) <$> rs).

(** [errorsText] renders the recorded errors; null is left out. *)
Definition writeJobHuman (errorsText : RawMessage -> string) (j : JobRow) : list piece :=
  [line ("id=" +:+ itoa (ID j) +:+ " kind=" +:+ Kind j +:+ " queue=" +:+ Queue j +:+ " state="
         +:+ stateString (State j) +:+ " attempt=" +:+ itoa (Attempt j) +:+ "/" +:+ itoa (MaxAttempts j));
   line ("scheduled_at=" +:+ formatTime (ScheduledAt j) +:+ " created_at=" +:+ formatTime (CreatedAt j))] ++
  match LeasedUntil j with Some t => [line ("leased_until=" +:+ formatTime t)] | None => [] end ++
  match FinalizedAt j with Some t => [line ("finalized_at=" +:+ formatTime t)] | None => [] end ++
  [line ("args=" +:+ Args j)] ++
  (let text := errorsText (Errors j) in
   if negb (String.eqb text "") && negb (String.eqb text "null") then [line ("errors=" +:+ text)] else []).

(** What a command leaves: the store, what it printed, and its exit status. *)
Record ended (S : Type) := Ended { eStore : S; eOut : list piece; eErr : list piece; eCode : Z }.
Arguments Ended {S} _ _ _ _.
Arguments eStore {S} _.
Arguments eOut {S} _.
Arguments eErr {S} _.
Arguments eCode {S} _.

Section Commands.
Context {S : Type} `{Driver S}.
Variable errorsText : RawMessage -> string.

Definition fails (s : S) (code : Z) (p : piece) : ended S := Ended s [] [p] code.

(** The end of every command that has a value to show. *)
Definition finish (s : S) (jsonOut : bool) (v : jsonValue) (human : list piece) : ended S :=
  if jsonOut
  then match writeJSON v with
       | Err e => fails s 1 (complain e)
       | Ok p => Ended s [p] [] 0
       end
  else Ended s human [] 0.

Definition runStats (now : Time) (jsonOut : bool) (s : S) : ended S :=
  match inspectorStats now s with
  | Err e => fails s 1 (complain e)
  | Ok st => finish s jsonOut (JVStats st) (writeStatsHuman st)
  end.

Definition jobsListFlags : list (string * flagKind) :=
  [("queue", FString); ("state", FString); ("limit", FInt)].

Definition unexpected (rest : list string) : piece := line ("drover: unexpected arguments " +:+ showSlice rest).

Definition runJobsList (args : list string) (jsonOut : bool) (s : S) : ended S :=
  match parseFlags jobsListFlags args with
  | HelpAsked => fails s 2 (FlagUsage "jobs list" None)
  | BadFlag e => fails s 2 (FlagUsage "jobs list" (Some (errorText e)))
  | Parsed vals rest =>
      let limit := flagInt "limit" 0 vals in
      match rest with
      | _ :: _ => fails s 2 (unexpected rest)
      | [] =>
          if 1000 <? limit
          then fails s 2 (line ("drover: --limit " +:+ itoa limit +:+ " exceeds maximum 1000"))
          else match inspectorListJobs (Some {| loQueue := flagString "queue" "" vals;
                                                 loState := flagString "state" "" vals;
                                                 loLimit := limit |}) s with
               | Err e => fails s 1 (complain e)
               | Ok rs => finish s jsonOut (JVJobs rs) (writeJobsHuman rs)
               end
      end
  end.

(** The shared course of [runRetry] and [runCancel]. *)
Definition runAction (usage : string) (mutate : Z -> S -> S * res error JobRow)
    (headline : JobRow -> string) (args : list string) (jsonOut : bool) (s : S) : ended S :=
  match args with
  | [arg] =>
      match parseJobID arg with
      | Err e => fails s 2 (complain e)
      | Ok id =>
          let '(s', r) := mutate id s in
          match r with
          | Err e => fails s' 1 (complain e)
          | Ok job => finish s' jsonOut (JVJob job) (line (headline job) :: writeJobHuman errorsText job)
          end
      end
  | _ => fails s 2 (line ("drover: usage: " +:+ usage))
  end.

Definition runRetry (now : Time) : list string -> bool -> S -> ended S :=
  runAction "drover retry <id>" (RetryJob now)
    (fun job => "redrove job " +:+ itoa (ID job) +:+ " to state=" +:+ stateString (State job)
                +:+ " attempt=" +:+ itoa (Attempt job)).

Definition runCancel (now : Time) : list string -> bool -> S -> ended S :=
  runAction "drover cancel <id>" (CancelJob now) (fun job => "cancelled job " +:+ itoa (ID job)).

Definition enqueueFlags : list (string * flagKind) :=
  [("kind", FString); ("queue", FString); ("args", FString)].

Definition runEnqueue (now : Time) (args : list string) (jsonOut : bool) (s : S) : ended S :=
  match parseFlags enqueueFlags args with
  | HelpAsked => fails s 2 (FlagUsage "enqueue" None)
  | BadFlag e => fails s 2 (FlagUsage "enqueue" (Some (errorText e)))
  | Parsed vals rest =>
      let kind := flagString "kind" "" vals in
      let queue := flagString "queue" "" vals in
      let raw := flagString "args" "{}" vals in
      match rest with
      | _ :: _ => fails s 2 (unexpected rest)
      | [] =>
          if String.eqb kind "" then fails s 2 (line "drover: --kind is required")
          else if negb (jsonValid raw) then fails s 2 (line "drover: --args must be valid JSON")
          else
            let opts := if String.eqb queue "" then None
                        else Some {| optQueue := queue; optScheduledAt := zeroTime; optUniqueKey := "" |} in
            let '(s', r) := inspectorEnqueue now kind raw opts s in
            match r with
            | Err e => fails s' 1 (complain e)
            | Ok job => finish s' jsonOut (JVJob job)
                [line ("enqueued job id=" +:+ itoa (ID job) +:+ " kind=" +:+ Kind job
                       +:+ " queue=" +:+ Queue job)]
            end
      end
  end.

(** ** Dispatch *)

Definition usageText : string :=
"Usage: drover [global flags] <command> [command flags]

Commands:
  stats              Print per-queue depth and oldest-claimable age
  jobs list          List jobs (optional --queue, --state, --limit)
  retry <id>         Redrive a dead job to available
  cancel <id>        Cancel a waiting or dead job
  enqueue            Insert a job (--kind required; --queue, --args optional)
  web                Serve a server-rendered status page (retry/cancel)
  version            Print the drover version

Global flags:
  --database URL     Postgres URL (default: $DATABASE_URL)
  --json             Machine-readable JSON output
  --version          Print the drover version
  -h, --help         Show this help
".

(** [openInspector]: [connect] is what [pgxpool.New] answers for an address. *)
Definition openInspector (connect : string -> option error) (dsn : string) : option error :=
  match connect dsn with
  | Some e => Some (Wrapf ("connect to postgres: " +:+ errorText e) [e])
  | None => None
  end.

(** The inspector with the closing of its pool, or the error as it is. *)
Definition defaultOpenInspector (connect : string -> option error) (dsn : string) : option error :=
  match openInspector connect dsn with
  | Some e => Some e
  | None => None
  end.

(** What a run meets: the environment, the function it is given to open an inspector, if any, the database, the clock, and for the console its
    socket, its end, and the store its requests leave. *)
Record cliWorld := {
  cwGetenv : option (string -> string);
  cwOpen : option (string -> option error);
  cwConnect : string -> option error;
  cwNow : Time;
  cwVersion : string;
  cwListen : string -> res error string;
  cwEnd : webEnd;
  cwServed : Duration -> S -> S
}.

(** The first lines of [run]. *)
Definition opens (w : cliWorld) : string -> option error :=
  match cwOpen w with Some f => f | None => defaultOpenInspector (cwConnect w) end.

Definition withInspector (w : cliWorld) (cfg : globalConfig) (fn : ended S) (s : S) : ended S :=
  match resolveDSN (gcDatabase cfg) (cwGetenv w) with
  | Err e => fails s 2 (complain e)
  | Ok dsn =>
      match opens w dsn with
      | Some e => fails s 1 (complain e)
      | None => fn
      end
  end.

(** The console serves only once it listens. *)
Definition runWebCommand (w : cliWorld) (args : list string) (s : S) : ended S :=
  match parseWebConfig args with
  | Err (code, msg) => fails s code (FlagUsage "web" msg)
  | Ok cfg =>
      match cwListen w (wcListen cfg) with
      | Err e => fails s 1 (complain e)
      | Ok addr => Ended (cwServed w (wcRefresh cfg) s) [line ("http://" +:+ addr +:+ "/")]
                  match cwEnd w with
                  | Interrupted (Some e) | ServeReturned (Some e) => [complain e]
                  | _ => []
                  end
                  (runWeb (cwListen w) (cwEnd w) args)
      end
  end.

Definition run (w : cliWorld) (args : list string) (s : S) : ended S :=
  match peelGlobals args with
  | Err e => fails s 2 (complain e)
  | Ok (cfg, rest) =>
      if gcHelp cfg then Ended s [Text usageText] [] 0
      else if gcVersion cfg then Ended s [line (cwVersion w)] [] 0
      else
        let inspect := fun fn => withInspector w cfg fn s in
        match rest with
        | [] => fails s 2 (Text usageText)
        | cmd :: more =>
            if String.eqb cmd "version" then Ended s [line (cwVersion w)] [] 0
            else if String.eqb cmd "stats" then inspect (runStats (cwNow w) (gcJson cfg) s)
            else if String.eqb cmd "jobs" then
              match more with
              | sub :: flags =>
                  if String.eqb sub "list" then inspect (runJobsList flags (gcJson cfg) s)
                  else Ended s [] [line ("drover: unknown command " +:+ quote (Join " " rest) +:+ nl);
                                   Text usageText] 2
              | [] => Ended s [] [line ("drover: unknown command " +:+ quote (Join " " rest) +:+ nl);
                                  Text usageText] 2
              end
            else if String.eqb cmd "retry" then inspect (runRetry (cwNow w) more (gcJson cfg) s)
            else if String.eqb cmd "cancel" then inspect (runCancel (cwNow w) more (gcJson cfg) s)
            else if String.eqb cmd "enqueue" then inspect (runEnqueue (cwNow w) more (gcJson cfg) s)
            else if String.eqb cmd "web" then
              if gcJson cfg then fails s 2 (line "drover: --json is not valid with web")
              else inspect (runWebCommand w more s)
            else Ended s [] [line ("drover: unknown command " +:+ quote cmd +:+ nl); Text usageText] 2
        end
  end.

(** [main] exits with the status of [run] on the arguments after the program's name. *)
Definition main (w : cliWorld) (osArgs : list string) (s : S) : Z := eCode (run w (tail osArgs) s).
End Commands.

(** ** Global flags go anywhere *)

Definition globalSetter (g : string) : option (globalConfig -> globalConfig) :=
  if String.eqb g "--json" then Some setJson
  else if String.eqb g "--version" then Some setVersion
  else if String.eqb g "-h" || String.eqb g "--help" then Some setHelp
  else None.

(** Arguments after which a global flag is still one: not behind [--], and not the value of
    [--database]. *)
Fixpoint settled (args : list string) : bool :=
  match args with
  | [] => true
  | a :: more =>
      if String.eqb a "--" then false
      else if String.eqb a "--database"
      then match more with [] => false | _ :: more' => settled more' end
      else settled more
  end.

Definition withGlobals (f : globalConfig -> globalConfig) (r : res error (globalConfig * list string))
    : res error (globalConfig * list string) :=
  match r with Ok (cfg, rest) => Ok (f cfg, rest) | Err e => Err e end.

(** A setter of a boolean commutes with every other setter. *)
Definition commuting (f : globalConfig -> globalConfig) : Prop :=
  forall c d, f (setJson c) = setJson (f c) /\ f (setVersion c) = setVersion (f c) /\
    f (setHelp c) = setHelp (f c) /\ f (setDatabase d c) = setDatabase d (f c).

Lemma globalSetter_commuting g f : globalSetter g = Some f -> commuting f.
Proof.
  unfold globalSetter. repeat (destruct (String.eqb _ _); cbn [orb]; [intros [= <-]; intros [] d; done|]). done.
Qed.

(** The loop takes one argument or two. *)
Lemma args_ind (P : list string -> Prop) :
  P [] -> (forall a more, P more -> (forall v more', more = v :: more' -> P more') -> P (a :: more)) ->
  forall args, P args.
Proof.
  intros H0 Hs args. assert (P args /\ forall v more, args = v :: more -> P more) as [H _]; [|exact H].
  induction args as [|a args [IH1 IH2]]; [done|]. split; [by apply Hs | by intros v more [= _ ->]].
Qed.

Lemma peelLoop_setter f args :
  commuting f -> forall cfg rest, peelLoop (f cfg) rest args = withGlobals f (peelLoop cfg rest args).
Proof.
  intros Hf. induction args as [|a more IH IH2] using args_ind; intros cfg rest; [done|].
  cbn [peelLoop]. destruct (String.eqb a "--"); [done|].
  destruct (String.eqb a "--json"); [destruct (Hf cfg "") as (<- & _); apply IH|].
  destruct (String.eqb a "--version"); [destruct (Hf cfg "") as (_ & <- & _); apply IH|].
  destruct (String.eqb a "-h" || String.eqb a "--help"); [destruct (Hf cfg "") as (_ & _ & <- & _); apply IH|].
  destruct (String.eqb a "--database").
  - destruct more as [|v more']; [done|]. destruct (Hf cfg v) as (_ & _ & _ & <-). by apply (IH2 v more').
  - destruct (TrimPrefixOpt "--database=" a) as [v|]; [|apply IH].
    destruct (String.eqb v ""); [done|]. destruct (Hf cfg v) as (_ & _ & _ & <-). apply IH.
Qed.

(** What the loop does with a settled front is done before it reaches the rest. *)
Lemma peelLoop_settled a :
  settled a = true -> forall cfg rest,
  (exists e, forall b', peelLoop cfg rest (a ++ b') = Err e) \/
  (exists cfg' rest', forall b', peelLoop cfg rest (a ++ b') = peelLoop cfg' rest' b').
Proof.
  induction a as [|x more IH IH2] using args_ind; intros Hs cfg rest; [right; by exists cfg, rest|].
  cbn [settled] in Hs. cbn [app peelLoop].
  destruct (String.eqb x "--"); [done|]. destruct (String.eqb x "--database") eqn:Ed.
  - destruct more as [|v more']; [done|]. apply String.eqb_eq in Ed as ->. cbn [String.eqb Ascii.eqb Bool.eqb orb].
    exact (IH2 v more' eq_refl Hs (setDatabase v cfg) rest).
  - destruct (String.eqb x "--json"); [by apply IH|]. destruct (String.eqb x "--version"); [by apply IH|].
    destruct (String.eqb x "-h" || String.eqb x "--help"); [by apply IH|].
    destruct (TrimPrefixOpt "--database=" x) as [v|]; [|by apply IH].
    destruct (String.eqb v ""); [left; by eexists | by apply IH].
Qed.

Lemma peelLoop_flag g f cfg rest b :
  globalSetter g = Some f -> peelLoop cfg rest (g :: b) = peelLoop (f cfg) rest b.
Proof.
  unfold globalSetter. cbn [peelLoop].
  destruct (String.eqb_spec g "--json") as [->|]; [by intros [= <-]|].
  destruct (String.eqb_spec g "--version") as [->|]; [by intros [= <-]|].
  destruct (String.eqb_spec g "-h") as [->|]; [by intros [= <-]|].
  destruct (String.eqb_spec g "--help") as [->|]; [by intros [= <-]|]. done.
Qed.

Lemma peel_anywhere g f a b :
  globalSetter g = Some f -> settled a = true ->
  peelGlobals (a ++ g :: b) = withGlobals f (peelGlobals (a ++ b)).
Proof.
  intros Hg Ha. pose proof (globalSetter_commuting g f Hg) as Hc. unfold peelGlobals.
  destruct (peelLoop_settled a Ha noGlobals []) as [[e He]|(cfg & rest & He)]; [by rewrite !He|].
  rewrite !He, (peelLoop_flag g f) by done. by apply peelLoop_setter.
Qed.

Section Theorems.
Context {S : Type} `{Driver S}.
Variable errorsText : RawMessage -> string.

(** A global flag (--json, --version, -h or --help) means the same wherever it stands:
    before the command, after it, or among its flags and arguments, as long as no [--] comes
    before it and it is not the value of --database.  The whole run, its
    output, its exit status and its effect on the store, is the same. *)
Theorem cli_flags_anywhere w g a b s :
  globalSetter g <> None -> settled a = true ->
  run errorsText w (a ++ g :: b) s = run errorsText w (g :: a ++ b) s.
Proof.
  intros Hg Ha. destruct (globalSetter g) as [f|] eqn:Eg; [|done]. unfold run.
  rewrite (peel_anywhere g f a b Eg Ha).
  pose proof (peel_anywhere g f [] (a ++ b) Eg eq_refl) as Hg0. cbn [app] in Hg0. by rewrite Hg0.
Qed.

(** *** Exit status *)

Lemma finish_spec (s : S) jsonOut v human :
  let o := finish s jsonOut v human in
  eStore o = s /\ ((eCode o = 0 /\ eErr o = []) \/ (eCode o = 1 /\ eOut o = [] /\ eErr o <> [])).
Proof.
  unfold finish. destruct jsonOut; [|auto]. destruct (writeJSON v); [auto|]. split; [done|]. by right.
Qed.

(** A result that is clean, a failure, or a refusal that touched nothing. *)
Definition orderly (s : S) (o : ended S) : Prop :=
  (eCode o = 0 /\ eErr o = []) \/ (eCode o = 1) \/ (eCode o = 2 /\ eStore o = s /\ eOut o = [] /\ eErr o <> []).

Lemma fails_orderly (s s' : S) code p : code = 1 \/ (code = 2 /\ s' = s) -> orderly s (fails s' code p).
Proof. intros [->|[-> ->]]; [right; by left | right; by right]. Qed.

Lemma finish_orderly (s s' : S) j v h : orderly s (finish s' j v h).
Proof. destruct (finish_spec s' j v h) as (_ & [[? ?]|(? & _)]); [by left | right; by left]. Qed.

#[local] Hint Resolve fails_orderly finish_orderly : core.

Lemma runAction_orderly usage mutate headline args j (s : S) :
  orderly s (runAction errorsText usage mutate headline args j s).
Proof.
  unfold runAction. destruct args as [|arg [|]]; auto. destruct (parseJobID arg); auto.
  destruct (mutate a s) as [s' [row|e]]; auto.
Qed.

Lemma runEnqueue_orderly now args j (s : S) : orderly s (runEnqueue now args j s).
Proof.
  unfold runEnqueue. destruct (parseFlags enqueueFlags args) as [vals [|]| |]; auto.
  destruct (String.eqb _ _); auto. destruct (negb _); auto.
  destruct (inspectorEnqueue _ _ _ _ s) as [s' [row|e]]; auto.
Qed.

Lemma runJobsList_orderly args j (s : S) :
  orderly s (runJobsList args j s) /\ eStore (runJobsList args j s) = s.
Proof.
  unfold runJobsList. destruct (parseFlags jobsListFlags args) as [vals [|]| |]; auto.
  destruct (1000 <? flagInt "limit" 0 vals); auto. destruct (inspectorListJobs _ s); [|auto].
  split; [auto|]. apply finish_spec.
Qed.

Lemma runStats_orderly now j (s : S) : orderly s (runStats now j s) /\ eStore (runStats now j s) = s.
Proof. unfold runStats. destruct (inspectorStats now s); [|auto]. split; [auto|]. apply finish_spec. Qed.

Lemma runWeb_started listen ended_ args cfg addr :
  parseWebConfig args = Ok cfg -> listen (wcListen cfg) = Ok addr ->
  runWeb listen ended_ args = 0 \/ runWeb listen ended_ args = 1.
Proof. intros Hc Hl. unfold runWeb. rewrite Hc, Hl. destruct ended_ as [[]|[]]; auto. Qed.

Lemma parseWebConfig_code args code msg : parseWebConfig args = Err (code, msg) -> code = 2.
Proof.
  unfold parseWebConfig. destruct (parseFlags webFlags args) as [vals [|]| |]; try by intros [= <- _].
  destruct (_ && _); [by intros [= <- _] | done].
Qed.

Lemma withInspector_orderly w cfg fn (s : S) : orderly s fn -> orderly s (withInspector w cfg fn s).
Proof.
  intros Hf. unfold withInspector. destruct (resolveDSN _ _) as [dsn|]; [|auto].
  destruct (opens w dsn); [auto | done].
Qed.

Lemma runWebCommand_orderly w args (s : S) : orderly s (runWebCommand w args s).
Proof.
  unfold runWebCommand. destruct (parseWebConfig args) as [cfg|[code msg]] eqn:Ec.
  - destruct (cwListen w (wcListen cfg)) as [addr|e] eqn:El; [|auto].
    unfold orderly. cbn [eCode eErr eStore eOut]. unfold runWeb. rewrite Ec, El.
    destruct (cwEnd w) as [[]|[]]; auto.
  - apply parseWebConfig_code in Ec as ->. auto.
Qed.

(** The commands that may change jobs. *)
Definition mutatingCommands : list string := ["retry"; "cancel"; "enqueue"; "web"].

(** The run opened the database for one of them. *)
Definition reachedStore (w : cliWorld (S := S)) (args : list string) : Prop :=
  exists cfg cmd more dsn, peelGlobals args = Ok (cfg, cmd :: more) /\ cmd ∈ mutatingCommands /\
    gcHelp cfg = false /\ gcVersion cfg = false /\
    resolveDSN (gcDatabase cfg) (cwGetenv w) = Ok dsn /\ opens w dsn = None.

Lemma withInspector_store w cfg fn (s : S) :
  eStore (withInspector w cfg fn s) = s \/
  (withInspector w cfg fn s = fn /\
   exists dsn, resolveDSN (gcDatabase cfg) (cwGetenv w) = Ok dsn /\ opens w dsn = None).
Proof.
  unfold withInspector. destruct (resolveDSN _ _) as [dsn|]; [|by left].
  destruct (opens w dsn) eqn:Eo; [by left|]. right. eauto.
Qed.

(** C32: The exit status tells what happened.  Every run ends with 0, 1 or 2.  With 0 nothing
    was complained of.  With 2, a mistake in the command line or a missing database address, nothing was printed but the
    complaint and no job was touched.  And whatever the status, jobs can have changed only
    if the command was retry, cancel, enqueue or web, with an address that resolved and a
    database that opened. *)
Theorem cli_exit_codes w args s :
  let o := run errorsText w args s in
  (eCode o = 0 \/ eCode o = 1 \/ eCode o = 2) /\
  (eCode o = 0 -> eErr o = []) /\
  (eCode o = 2 -> eStore o = s /\ eOut o = [] /\ eErr o <> []) /\
  (eStore o = s \/ reachedStore w args).
Proof.
  intros o. assert (orderly s o /\ (eStore o = s \/ reachedStore w args)) as [Ho Hs].
  { unfold o, run. destruct (peelGlobals args) as [[cfg rest]|e] eqn:Ep; [|auto].
    destruct (gcHelp cfg) eqn:Eh; [split; [by left | by left]|].
    destruct (gcVersion cfg) eqn:Ev; [split; [by left | by left]|].
    assert (forall s' err, err <> [] -> orderly s (Ended s [] err 2) /\ (eStore (Ended s [] err 2) = s \/ s')) as Hbad
      by (intros; split; [right; right; done | by left]).
    destruct rest as [|cmd more]; [auto|].
    assert (cmd ∈ mutatingCommands -> forall fn, orderly s fn ->
      orderly s (withInspector w cfg fn s) /\
      (eStore (withInspector w cfg fn s) = s \/ reachedStore w args)) as Hmut.
    { intros Hc fn Hf. split; [by apply withInspector_orderly|].
      destruct (withInspector_store w cfg fn s) as [?|[_ (dsn & ? & ?)]]; [by left|]. right.
      exists cfg, cmd, more, dsn. done. }
    assert (forall fn, orderly s fn /\ eStore fn = s ->
      orderly s (withInspector w cfg fn s) /\
      (eStore (withInspector w cfg fn s) = s \/ reachedStore w args)) as Hread.
    { intros fn [Hf Hfs]. split; [by apply withInspector_orderly|].
      destruct (withInspector_store w cfg fn s) as [?|[-> _]]; by left. }
    destruct (String.eqb_spec cmd "version"); [split; [by left | by left]|].
    destruct (String.eqb_spec cmd "stats"); [apply Hread, runStats_orderly|].
    destruct (String.eqb_spec cmd "jobs").
    { destruct more as [|sub flags]; [by apply Hbad|]. destruct (String.eqb sub "list"); [|by apply Hbad].
      apply Hread, runJobsList_orderly. }
    unfold mutatingCommands in Hmut.
    destruct (String.eqb_spec cmd "retry"); [apply Hmut; [set_solver | apply runAction_orderly]|].
    destruct (String.eqb_spec cmd "cancel"); [apply Hmut; [set_solver | apply runAction_orderly]|].
    destruct (String.eqb_spec cmd "enqueue"); [apply Hmut; [set_solver | apply runEnqueue_orderly]|].
    destruct (String.eqb_spec cmd "web"); [|by apply Hbad].
    destruct (gcJson cfg); [auto|]. apply Hmut; [set_solver | apply runWebCommand_orderly]. }
  unfold orderly in Ho. split_all; [tauto | | | done]; intros Hc; rewrite Hc in Ho; naive_solver.
Qed.
End Theorems.

(** ** The actions *)

(** A text without white space is not trimmed. *)
Fixpoint noSpace (s : string) : bool :=
  match s with "" => true | String c s' => negb (GoText.isSpace c) && noSpace s' end.

Lemma trimRight_noSpace s : noSpace s = true -> trimRight s = s.
Proof.
  induction s as [|c s IH]; [done|]. cbn [noSpace trimRight]. intros Hs.
  apply andb_true_iff in Hs as [Hc Hs]. apply negb_true_iff in Hc. rewrite IH, Hc by done. done.
Qed.

Lemma TrimSpace_noSpace s : noSpace s = true -> TrimSpace s = s.
Proof.
  intros Hs. unfold TrimSpace. rewrite <- (trimRight_noSpace s Hs) at 2. f_equal.
  destruct s as [|c s]; [done|]. cbn [noSpace trimLeft] in *. apply andb_true_iff in Hs as [Hc _].
  apply negb_true_iff in Hc. by rewrite Hc.
Qed.

Lemma pretty_noSpace n s : noSpace s = true -> noSpace (pretty_N_go n s) = true.
Proof.
  revert s. induction (N.lt_wf_0 n) as [n _ IH]. intros s Hs.
  destruct (N.eq_dec n 0) as [->|Hn]; [by rewrite pretty_N_go_0|].
  rewrite pretty_N_go_step by lia. apply IH; [apply N.div_lt; lia|]. cbn [noSpace]. rewrite Hs, andb_true_r.
  assert (n mod 10 < 10)%N as Hd by (apply N.mod_lt; lia).
  revert Hd. generalize (n mod 10)%N as d. intros d Hd.
  assert (d ∈ [0; 1; 2; 3; 4; 5; 6; 7; 8; 9]%N) as Hin by (rewrite !elem_of_cons; lia).
  repeat (apply elem_of_cons in Hin as [->|Hin]; [reflexivity|]). by apply elem_of_nil in Hin.
Qed.

Lemma parseJobID_itoa id : 1 <= id < 2 ^ 63 -> parseJobID (itoa id) = Ok id.
Proof.
  intros Hid. unfold parseJobID. rewrite TrimSpace_noSpace.
  - rewrite Atoi_itoa by lia. destruct (Z.leb_spec id 0); [lia|done].
  - unfold itoa, pretty, pretty_Z, pretty, pretty_positive, pretty, pretty_N.
    destruct id as [|p|p]; [done| |lia]. rewrite decide_False by done. by apply pretty_noSpace.
Qed.

(** Arguments that do not start with a dash are kept. *)
Definition plain (s : string) : Prop :=
  match s with String c _ => Ascii.eqb c "-" = false | "" => True end.

Lemma peelLoop_plain cfg rest args : Forall plain args -> peelLoop cfg rest args = Ok (cfg, rest ++ args).
Proof.
  intros H. revert rest. induction H as [|a args Ha _ IH]; intros rest; [by rewrite app_nil_r|].
  cbn [peelLoop]. destruct a as [|c a].
  - cbn. rewrite IH. by rewrite <- app_assoc.
  - unfold plain in Ha. cbn [String.eqb TrimPrefixOpt]. rewrite Ha, (Ascii.eqb_sym "-" c), Ha. cbn [orb].
    rewrite IH. by rewrite <- app_assoc.
Qed.

Lemma itoa_plain id : 1 <= id -> plain (itoa id).
Proof.
  intros Hid. unfold itoa, pretty, pretty_Z, pretty, pretty_positive, pretty, pretty_N.
  destruct id as [|p|p]; [lia| |lia]. rewrite decide_False by done.
  destruct (pretty_go_digit (N.pos p) "" ltac:(lia)) as (d & t & Hd & ->). by apply char_no_sign.
Qed.

(** The run of an action: what the inspector did, with the status and message for it. *)
Definition reportsAction (headline : JobRow -> string) (out : MemDriver * res error JobRow)
    (o : ended MemDriver) : Prop :=
  eStore o = out.1 /\
  match out.2 with
  | Ok job => eCode o = 0 /\ eErr o = [] /\ exists more, eOut o = line (headline job) :: more
  | Err e => eCode o = 1 /\ eOut o = [] /\ eErr o = [complain e]
  end.

Lemma runAction_reports errorsText usage mutate headline id (d : MemDriver) :
  1 <= id < 2 ^ 63 ->
  reportsAction headline (mutate id d) (runAction errorsText usage mutate headline [itoa id] false d).
Proof.
  intros Hid. unfold runAction. rewrite parseJobID_itoa by done.
  destruct (mutate id d) as [d' [job|e]]; unfold reportsAction; simpl; eauto.
Qed.

(** [drover retry ID] and [drover cancel ID], with any id printed in decimal, do to the
    store what the contract says of the action on that very job: applied on an eligible job, with status 0
    and a headline naming the job; refused without effect otherwise, with status 1 and the
    reason, not found or wrong state, on standard error. *)
Theorem cli_actions errorsText (w : cliWorld (S := MemDriver)) id d dsn :
  resolveDSN "" (cwGetenv w) = Ok dsn -> opens w dsn = None -> 1 <= id < 2 ^ 63 ->
  (exists out, actionSpec mayRedrive (redrivenByOperator (cwNow w)) id d out /\
     reportsAction (fun job => "redrove job " +:+ itoa (ID job) +:+ " to state=" +:+ stateString (State job)
                               +:+ " attempt=" +:+ itoa (Attempt job)) out
       (run errorsText w ["retry"; itoa id] d)) /\
  (exists out, actionSpec mayCancel (cancelledByOperator (cwNow w)) id d out /\
     reportsAction (fun job => "cancelled job " +:+ itoa (ID job)) out
       (run errorsText w ["cancel"; itoa id] d)).
Proof.
  intros Hdsn Hopen Hid.
  assert (peelGlobals ["retry"; itoa id] = Ok (noGlobals, ["retry"; itoa id]) /\
          peelGlobals ["cancel"; itoa id] = Ok (noGlobals, ["cancel"; itoa id])) as [Hr Hc]
    by (split; apply (peelLoop_plain noGlobals []), Forall_cons; (split; [done|]);
        apply Forall_singleton, itoa_plain; lia).
  unfold run. rewrite Hr, Hc. cbn [gcHelp gcVersion noGlobals String.eqb Ascii.eqb Bool.eqb gcJson gcDatabase].
  unfold withInspector. cbn [gcDatabase noGlobals]. rewrite Hdsn, Hopen. split; eexists.
  - split; [|by apply runAction_reports]. apply RetryJob_spec.
  - split; [|by apply runAction_reports]. apply CancelJob_spec.
Qed.

(** ** Witnesses *)

Definition demoWorld : cliWorld (S := MemDriver) :=
  {| cwGetenv := Some (fun k => if String.eqb k "DATABASE_URL" then "postgres://localhost/drover" else "");
     cwOpen := None; cwConnect := fun _ => None; cwNow := 5000; cwVersion := "dev";
     cwListen := fun a => Ok a; cwEnd := Interrupted None; cwServed := fun _ d => d |}.

Definition noErrorsText (m : RawMessage) : string := "[]".

Lemma cli_flags_anywhere_witness :
  eCode (run noErrorsText demoWorld ["jobs"; "list"; "--queue"; "default"; "--json"; "--limit=3"] witnessStore) = 0 /\
  run noErrorsText demoWorld (["jobs"; "list"; "--queue"; "default"] ++ "--json" :: ["--limit=3"]) witnessStore =
  run noErrorsText demoWorld ("--json" :: ["jobs"; "list"; "--queue"; "default"] ++ ["--limit=3"]) witnessStore.
Proof.
  split; [vm_compute; reflexivity|].
  apply (cli_flags_anywhere noErrorsText demoWorld "--json" ["jobs"; "list"; "--queue"; "default"]);
    [discriminate | reflexivity].
Defined.

Lemma cli_actions_witness :
  (exists out, actionSpec mayRedrive (redrivenByOperator (cwNow demoWorld)) 1 witnessStore out /\
     reportsAction (fun job => "redrove job " +:+ itoa (ID job) +:+ " to state=" +:+ stateString (State job)
                               +:+ " attempt=" +:+ itoa (Attempt job)) out
       (run noErrorsText demoWorld ["retry"; itoa 1] witnessStore)) /\
  (exists out, actionSpec mayCancel (cancelledByOperator (cwNow demoWorld)) 1 witnessStore out /\
     reportsAction (fun job => "cancelled job " +:+ itoa (ID job)) out
       (run noErrorsText demoWorld ["cancel"; itoa 1] witnessStore)).
Proof.
  apply (cli_actions noErrorsText demoWorld 1 witnessStore "postgres://localhost/drover");
    [reflexivity | reflexivity | lia].
Defined.

(** A global flag swallows a value that looks like it, and an empty address passes only when
    it is an argument of its own. *)
Example peel_examples :
  peelGlobals ["enqueue"; "--kind"; "--json"] = Ok (setJson noGlobals, ["enqueue"; "--kind"]) /\
  peelGlobals ["--database"; ""; "stats"] = Ok (noGlobals, ["stats"]) /\
  peelGlobals ["--database="; "stats"] = Err errDatabaseValue /\
  peelGlobals ["enqueue"; "--"; "--json"] = Ok (noGlobals, ["enqueue"; "--json"]).
Proof. vm_compute. repeat split. Qed.
