(* ===== verification/Ops.v ===== *)
(** * Ops: the ops server

    Models ops.go: the three routes, what the serving goroutine logs when it ends, and the
    shutdown that joins it.  What promhttp answers is a parameter; a readiness check is the
    answer it gives, or absent. *)

From S2P Require Import Prelude GoError GoRuntime GoURL GoHTTP.

Definition answerOK : Response := {| rsCode := 200; rsHeaders := []; rsBody := "" |}.

(** The mux of [newOpsServer]; [ready] is [None] for a nil function. *)
Definition opsRoutes (metrics : Request -> Response) (ready : option (option error)) (r : Request)
    : Response :=
  match rqPath r with
  | [p] =>
      if String.eqb p "metrics" then
        if isGet r then metrics r else httpMethodNotAllowed "GET, HEAD"
      else if String.eqb p "healthz" then
        if isGet r then answerOK else httpMethodNotAllowed "GET, HEAD"
      else if String.eqb p "readyz" then
        if isGet r then
          match ready with
          | None | Some None => answerOK
          | Some (Some e) => httpError 503 (errorText e)
          end
        else httpMethodNotAllowed "GET, HEAD"
      else httpNotFound
  | _ => httpNotFound
  end.

(** [opsAccepting]: the listener is open.  [opsServed]: [Serve] has returned, so [done] is closed.
    [opsOpen]: the connections with a request still being answered. *)
Record opsServer := MkOps { opsAccepting : bool; opsServed : bool; opsOpen : nat }.

Definition newOpsServer : opsServer := MkOps true false 0.

(** The serving goroutine: [err] is what [Serve] returned, [None] being [ErrServerClosed], which
    is not logged. *)
Definition opsServe (err : option error) (w : World) (s : opsServer) : World * opsServer :=
  (match err with Some _ => logTo w LevelError "drover: ops server" None | None => w end,
   MkOps false true (opsOpen s)).

(** [shutdown]: [deadline] is the error of [Server.Shutdown], which waits for the open requests;
    when there is one, [Close] aborts them.  Either way the listener is closed, so [Serve] returns
    and [done] is closed. *)
Definition opsShutdown (deadline : option error) (s : opsServer) : opsServer * option error :=
  (MkOps false true 0, deadline).

(** The probes: [/healthz] is always answered with 200, [/readyz] with 503 exactly when there
    is a check and it fails, and then with its text; other methods and paths get neither. *)
Lemma probes_answer metrics ready r :
  isGet r = true ->
  (rqPath r = ["healthz"] -> opsRoutes metrics ready r = answerOK) /\
  (rqPath r = ["readyz"] ->
     (rsCode (opsRoutes metrics ready r) = 503 <-> exists e, ready = Some (Some e)) /\
     (forall e, ready = Some (Some e) ->
        rsBody (opsRoutes metrics ready r) = errorText e +:+ String (ascii_of_nat 10) "")) /\
  (rqPath r = ["metrics"] -> opsRoutes metrics ready r = metrics r).
Proof.
  intros Hg. unfold opsRoutes. split_all; intros ->; cbn [String.eqb Ascii.eqb Bool.eqb]; rewrite Hg; try done.
  split; [|by intros e ->]. destruct ready as [[e|]|]; simpl; split; try done; eauto; by intros [? ?].
Qed.

Lemma probes_refuse metrics ready r :
  isGet r = false -> rsCode (opsRoutes metrics ready r) = 405 \/ rsCode (opsRoutes metrics ready r) = 404.
Proof.
  intros Hg. unfold opsRoutes. rewrite Hg. destruct (rqPath r) as [|p [|]]; auto.
  destruct (String.eqb p "metrics"), (String.eqb p "healthz"), (String.eqb p "readyz"); auto.
Qed.
