(* ===== verification/Shutdown.v ===== *)
(** * Shutdown: what a pool launches, and the order in which it ends

    Models [start], [watch], [stop], [drain], [listenForWakeups] and [sleep] of pool.go over the
    pool of Pool.v and the ops server of Ops.v.  The goroutine that runs the shutdown, the
    background goroutines and the pool interleave: each action that another goroutine can
    observe is a step of [runStep].  [Pool.drain] is the schedule without interleaving. *)

From S2P Require Import Prelude GoTime GoError GoRuntime DriverSpec Metrics Middleware Inflight.
From S2P Require Import Queues Retry Enqueue Client Loop Memdriver MemdriverFacts MemdriverProps.
From S2P Require Import Pool StatsRefresher GoURL GoHTTP Ops.

(** ** What [start] launches *)

Inductive goroutine := GHeartbeat | GRescuer | GRefresher | GListener | GScheduler.

#[export] Instance goroutine_eq_dec : EqDecision goroutine.
Proof. solve_decision. Defined.

(** [canListen]: the driver is a [wakeupListener]. *)
Definition backgroundCount (c : Client) (canListen : bool) : nat :=
  let n := 3%nat in
  let n := if notifyWakeup c && canListen then Datatypes.S n else n in
  match periodic c with [] => n | _ => Datatypes.S n end.

Definition launched (c : Client) (canListen : bool) : list goroutine :=
  [GHeartbeat; GRescuer; GRefresher] ++
  (if notifyWakeup c && canListen then [GListener] else []) ++
  match periodic c with [] => [] | _ => [GScheduler] end.

(** The wait group is told of every goroutine that will leave it. *)
Lemma launched_counted c canListen :
  length (launched c canListen) = backgroundCount c canListen /\ NoDup (launched c canListen) /\
  GHeartbeat ∈ launched c canListen.
Proof.
  unfold launched, backgroundCount.
  destruct (notifyWakeup c && canListen), (periodic c); simpl; (split_all; [done| |by left]);
    by apply (bool_decide_unpack _).
Qed.

(** ** Waiting for work *)

Section Waits.
Context {S : Type}.

(** The case of the select in [sleep] that was taken. *)
Inductive awoken := ByStop | ByWake | ByTimer.

(** Whether the case can be taken; a timer always fires in the end. *)
Definition ready (stopping : bool) (st : ClientState S) (a : awoken) : Prop :=
  match a with ByStop => stopping = true | ByWake => cWake st = true | ByTimer => True end.

Definition sleep (a : awoken) (stopping : bool) (st : ClientState S) : ClientState S * bool :=
  match a with
  | ByStop => (st, false)
  | ByWake => (setWake false st, negb stopping)
  | ByTimer => (st, negb stopping)
  end.

(** One turn of [listenForWakeups]: whether the session signalled, how it ended, whether the context
    was done then, and, if it was not, whether the timer came before the context ended. *)
Record listenTurn := {
  ltWoke : bool;
  ltErr : option error;
  ltDone : bool;
  ltTimer : bool
}.

Fixpoint listenForWakeups (turns : list listenTurn) (st : ClientState S) : ClientState S * bool :=
  match turns with
  | [] => (st, false)
  | t :: rest =>
      let st1 := if ltWoke t then nudge st else st in
      if ltDone t then (st1, true)
      else
        let st2 := match ltErr t with
                   | Some _ => logState LevelError "drover: listen for job notifications" None st1
                   | None => st1
                   end in
        if ltTimer t then listenForWakeups rest st2 else (st2, true)
  end.
End Waits.

(** ** The run of a client *)

(** Where the shutdown is.  [DJoining] and later carry whether the workers finished within the
    budget, and the error so far. *)
Inductive drainPC :=
| DNone
| DMarked
| DCancelled
| DWaiting
| DRequeue (stranded todo : list Lease)
| DJoining (inBudget : bool) (err : option error)
| DOps (inBudget : bool) (err : option error)
| DDone (inBudget : bool) (verdict : option error).

Definition phase (d : drainPC) : nat :=
  match d with
  | DNone => 0 | DMarked => 1 | DCancelled => 2 | DWaiting => 3 | DRequeue _ _ => 4
  | DJoining _ _ => 5 | DOps _ _ => 6 | DDone _ _ => 7
  end.

(** [rFetchDone] and [rJobsDone]: the contexts are cancelled; [rStopBeat]: the channel is closed. *)
Record Run (S : Type) := MkRun {
  rPool : Pool S;
  rDraining : bool;
  rFetchDone : bool;
  rJobsDone : bool;
  rStopBeat : bool;
  rBackground : list goroutine;
  rOps : option opsServer;
  rDrain : drainPC
}.
Arguments MkRun {S} _ _ _ _ _ _ _ _.
Arguments rPool {S} _.
Arguments rDraining {S} _.
Arguments rFetchDone {S} _.
Arguments rJobsDone {S} _.
Arguments rStopBeat {S} _.
Arguments rBackground {S} _.
Arguments rOps {S} _.
Arguments rDrain {S} _.

Section Updates.
Context {S : Type}.
Implicit Types (p : Pool S) (r : Run S).

Definition setPst (st : ClientState S) p : Pool S :=
  MkPool st (slots p) (pc p) (running p) (returning p) (stopFetch p).
Definition setStopFetch p : Pool S :=
  MkPool (pst p) (slots p) (pc p) (running p) (returning p) true.
Definition logPool (l : Level) (msg : string) p : Pool S := setPst (logState l msg None (pst p)) p.

(** The fetch loop has gone and no worker has a job: those left range over a closed channel. *)
Definition poolFinished p : Prop := pc p = FExit /\ running p = [] /\ returning p = 0%nat.

Definition withPool p r : Run S :=
  MkRun p (rDraining r) (rFetchDone r) (rJobsDone r) (rStopBeat r) (rBackground r) (rOps r) (rDrain r).
Definition withOps (o : option opsServer) r : Run S :=
  MkRun (rPool r) (rDraining r) (rFetchDone r) (rJobsDone r) (rStopBeat r) (rBackground r) o (rDrain r).
Definition withBackground (b : list goroutine) r : Run S :=
  MkRun (rPool r) (rDraining r) (rFetchDone r) (rJobsDone r) (rStopBeat r) b (rOps r) (rDrain r).
Definition withDrain (d : drainPC) r : Run S :=
  MkRun (rPool r) (rDraining r) (rFetchDone r) (rJobsDone r) (rStopBeat r) (rBackground r) (rOps r) d.

(** The statements of [drain], in its order. *)
Definition markDraining r : Run S :=
  MkRun (logPool LevelInfo "drover: worker pool stopping" (rPool r)) true (rFetchDone r) (rJobsDone r)
    (rStopBeat r) (rBackground r) (rOps r) DMarked.
Definition cancelBackground r : Run S :=
  MkRun (rPool r) (rDraining r) true (rJobsDone r) (rStopBeat r) (rBackground r) (rOps r) DCancelled.
Definition closeStopFetch r : Run S :=
  withDrain DWaiting (withPool (setStopFetch (rPool r)) r).
Definition cancelJobs r : Run S :=
  MkRun (rPool r) (rDraining r) (rFetchDone r) true (rStopBeat r) (rBackground r) (rOps r) (rDrain r).
Definition closeStopHeartbeat (inBudget : bool) (err : option error) r : Run S :=
  MkRun (rPool r) (rDraining r) (rFetchDone r) (rJobsDone r) true (rBackground r) (rOps r)
    (DJoining inBudget err).
Definition stopped (inBudget : bool) (err : option error) r : Run S :=
  withDrain (DDone inBudget err)
    (cancelJobs (withPool (logPool LevelInfo "drover: worker pool stopped" (rPool r)) r)).
End Updates.

Section Runs.
Context {S : Type} `{Ops : Driver S}.
Variables (c : Client) (canListen : bool).

(** [start]: the ops server is there when an address is configured. *)
Definition start (st : ClientState S) : Run S :=
  MkRun (newRunner c st) false false false false (launched c canListen)
    (if String.eqb (opsAddr c) "" then None else Some newOpsServer) DNone.

Inductive runStep : Run S -> Run S -> Prop :=
| run_pool r p' :
    (* the pool, and through [step_others] whatever the background goroutines do to the shared state *)
    step c (rPool r) p' -> stopFetch p' = stopFetch (rPool r) -> runStep r (withPool p' r)
| run_mark r :
    (* a call of Stop, or the watcher when the context of Start ends; the once lets one in *)
    rDrain r = DNone -> runStep r (markDraining r)
| run_cancel r :
    rDrain r = DMarked -> runStep r (cancelBackground r)
| run_close r :
    rDrain r = DCancelled -> runStep r (closeStopFetch r)
| run_finished r :
    rDrain r = DWaiting -> poolFinished (rPool r) -> runStep r (closeStopHeartbeat true None r)
| run_nothing_left r :
    (* the budget has run out *)
    rDrain r = DWaiting -> snapshot (cInflight (pst (rPool r))) = [] ->
    runStep r (closeStopHeartbeat false None r)
| run_escalate r stranded :
    rDrain r = DWaiting -> snapshot (cInflight (pst (rPool r))) = stranded -> stranded <> [] ->
    runStep r
      (withDrain (DRequeue stranded stranded) (cancelJobs
        (withPool (logPool LevelWarn "drover: shutdown deadline reached with jobs still running" (rPool r)) r)))
| run_requeue r jobCtx tick stranded l todo :
    rDrain r = DRequeue stranded (l :: todo) ->
    runStep r (withDrain (DRequeue stranded todo)
                 (withPool (setPst (requeueStep c jobCtx tick (pst (rPool r)) l) (rPool r)) r))
| run_requeued r stranded :
    rDrain r = DRequeue stranded [] ->
    runStep r (closeStopHeartbeat false (Some (errDrainIncomplete (length stranded))) r)
| run_beat_ends r b1 b2 :
    rStopBeat r = true -> rBackground r = b1 ++ GHeartbeat :: b2 ->
    runStep r (withBackground (b1 ++ b2) r)
| run_background_ends r g b1 b2 :
    rFetchDone r = true -> g <> GHeartbeat -> rBackground r = b1 ++ g :: b2 ->
    runStep r (withBackground (b1 ++ b2) r)
| run_joined r b err :
    rDrain r = DJoining b err -> rBackground r = [] -> runStep r (withDrain (DOps b err) r)
| run_no_ops r b err :
    rDrain r = DOps b err -> rOps r = None -> runStep r (stopped b err r)
| run_ops r o b err deadline :
    rDrain r = DOps b err -> rOps r = Some o ->
    runStep r
      (stopped b (joinErrors err (opsShutdown deadline o).2)
         (withOps (Some (opsShutdown deadline o).1)
            (match deadline with
             | Some _ => withPool (logPool LevelError "drover: shut down ops server" (rPool r)) r
             | None => r
             end)))
| run_serve_fails r o e :
    rOps r = Some o -> opsServed o = false ->
    runStep r (withOps (Some (opsServe (Some e) (world (cEnv (pst (rPool r)))) o).2)
                 (withPool (logPool LevelError "drover: ops server" (rPool r)) r))
| run_request r o :
    rOps r = Some o -> opsAccepting o = true ->
    runStep r (withOps (Some (MkOps true (opsServed o) (Datatypes.S (opsOpen o)))) r)
| run_answered r a s n :
    rOps r = Some (MkOps a s (Datatypes.S n)) -> runStep r (withOps (Some (MkOps a s n)) r).

Definition runReachable (st : ClientState S) (r : Run S) : Prop := rtc runStep (start st) r.

(** The verdict [stop] gives to everyone who asks, once there is one. *)
Definition stopVerdict (r : Run S) : option (option error) :=
  match rDrain r with DDone _ v => Some v | _ => None end.

(** What /readyz answers. *)
Definition readyz (metrics : Request -> Response) (rf : statsRefresher) (now : Time) (r : Run S)
    (rq : Request) : Response :=
  opsRoutes metrics (Some (readiness (rDraining r) rf now (statsInterval c))) rq.
End Runs.

(** ** The shutdown as an invariant *)

Section Order.
Context {S : Type} `{Ops : Driver S}.
Variables (c : Client) (canListen : bool).

(** The flags say how far the shutdown is; goroutines leave only when told to; and an
    in-budget shutdown has a finished pool. *)
Record runOk (r : Run S) : Prop := {
  ro_pool : poolOk c (rPool r);
  ro_draining : rDraining r = (1 <=? phase (rDrain r))%nat;
  ro_fetch : rFetchDone r = (2 <=? phase (rDrain r))%nat;
  ro_stop : stopFetch (rPool r) = (3 <=? phase (rDrain r))%nat;
  ro_beat : rStopBeat r = (5 <=? phase (rDrain r))%nat;
  ro_alive : forall g, g ∈ launched c canListen ->
    (if bool_decide (g = GHeartbeat) then rStopBeat r else rFetchDone r) = false -> g ∈ rBackground r;
  ro_joined : (6 <= phase (rDrain r))%nat -> rBackground r = [];
  ro_finished : match rDrain r with
                | DJoining b _ | DOps b _ | DDone b _ => b = true -> poolFinished (rPool r)
                | _ => True
                end;
  ro_ops : forall o, rOps r = Some o -> opsServed o = true -> opsAccepting o = false;
  ro_done : match rDrain r with
            | DDone _ _ => rJobsDone r = true /\
                forall o, rOps r = Some o -> o = MkOps false true 0
            | _ => True
            end
}.

Lemma start_ok st : cInflight st = newInflightSet -> runOk (start c canListen st).
Proof.
  intros Hi. split; simpl; try done; [by apply newRunner_ok | lia |].
  intros o. destruct (String.eqb (opsAddr c) ""); [done|]. by intros [= <-].
Qed.

Lemma setPst_ok st (p : Pool S) : cInflight st = cInflight (pst p) -> poolOk c p -> poolOk c (setPst st p).
Proof. intros Hi [Ht Htr]. split; simpl; [done|]. by rewrite Hi. Qed.

Lemma poolFinished_step (p p' : Pool S) : step c p p' -> poolFinished p -> poolFinished p'.
Proof.
  intros Hs (Hpc & Hrun & Hret). unfold poolFinished. destruct Hs; simpl in *; try done; subst; simplify_eq/=.
  all: by destruct run1.
Qed.

Lemma removed_alive (g h : goroutine) b1 b2 : g ∈ b1 ++ h :: b2 -> g <> h -> g ∈ b1 ++ b2.
Proof. rewrite !elem_of_app, elem_of_cons. tauto. Qed.

Lemma runStep_ok r r' : runStep c r r' -> runOk r -> runOk r'.
Proof.
  intros Hs [Hp H1 H2 H3 H4 Hal Hj Hf Ho Hd].
  destruct Hs; try match goal with Hx : rDrain r = _ |- _ => rewrite Hx in * end; simpl in *.
  - split; simpl; try done; try lia; [by eapply step_ok | congruence |].
    destruct (rDrain r); try done; intros; eapply poolFinished_step; eauto.
  - split; simpl; try done; try lia. by apply setPst_ok.
  - split; simpl; try done; try lia. intros g Hg. specialize (Hal g Hg). case_bool_decide; [done|]. done.
  - split; simpl; try done; try lia. by destruct Hp.
  - split; simpl; try done; try lia. intros g Hg. specialize (Hal g Hg). by case_bool_decide.
  - split; simpl; try done; try lia. intros g Hg. specialize (Hal g Hg). by case_bool_decide.
  - split; simpl; try done; try lia. by apply setPst_ok.
  - split; simpl; try done; try lia. apply setPst_ok; [|done]. by destruct (requeueStep_inflight c jobCtx tick (pst (rPool r)) l).
  - split; simpl; try done; try lia. intros g Hg. specialize (Hal g Hg). by case_bool_decide.
  - split; simpl; try done; try lia.
    + intros g Hg Hx. specialize (Hal g Hg Hx). rewrite H0 in Hal. eapply removed_alive; [done|]. intros ->.
      rewrite bool_decide_eq_true_2 in Hx by done. congruence.
    + intros Hph. apply Hj in Hph. rewrite H0 in Hph. by destruct b1.
  - split; simpl; try done; try lia.
    + intros g' Hg Hx. specialize (Hal g' Hg Hx). rewrite H5 in Hal. eapply removed_alive; [done|]. intros ->.
      rewrite bool_decide_eq_false_2 in Hx by done. congruence.
    + intros Hph. apply Hj in Hph. rewrite H5 in Hph. by destruct b1.
  - split; simpl; try done; try lia.
  - split; simpl; try done; try lia; [by apply setPst_ok | intros _; apply Hj; lia |].
    split; [done|]. rewrite H0. done.
  - destruct deadline; (split; simpl; try done; try lia;
      [repeat apply setPst_ok; done | intros _; apply Hj; lia | by intros ? [= <-] |]);
      (split; [done|]); by intros ? [= <-].
  - split; simpl; try done; try lia; [by apply setPst_ok | by intros ? [= <-] |].
    destruct (rDrain r); try done. destruct Hd as [? Hd]. rewrite (Hd _ H) in H0. done.
  - split; simpl; try done; try lia.
    + intros ? [= <-]. simpl. intros Hs. by rewrite (Ho _ H Hs) in H0.
    + destruct (rDrain r); try done. destruct Hd as [? Hd]. rewrite (Hd _ H) in H0. done.
  - split; simpl; try done; try lia.
    + intros ? [= <-]. simpl. apply (Ho _ H).
    + destruct (rDrain r); try done. destruct Hd as [? Hd]. specialize (Hd _ H). done.
Qed.

Lemma run_ok st r : cInflight st = newInflightSet -> runReachable c canListen st r -> runOk r.
Proof.
  intros Hi Hr. assert (runOk (start c canListen st)) as H0 by by apply start_ok.
  unfold runReachable in Hr. induction Hr as [|a b d Hab _ IH]; [done|]. apply IH. by eapply runStep_ok.
Qed.
Lemma verdict_stable r r' b v : rtc (runStep c) r r' -> rDrain r = DDone b v -> rDrain r' = DDone b v.
Proof.
  induction 1 as [|r1 r2 r3 Hs _ IH]; [done|]. intros Hd. apply IH.
  destruct Hs; simpl; congruence.
Qed.

(** ** A shutdown can always complete *)

(** The pool alone, the stop signal left as it is. *)
Definition poolMoves (p p' : Pool S) : Prop := step c p p' /\ stopFetch p' = stopFetch p.

Lemma poolMoves_run r p' : rtc poolMoves (rPool r) p' -> rtc (runStep c) r (withPool p' r).
Proof.
  remember (rPool r) as p eqn:E. intros Hr. revert r E.
  induction Hr as [p|p p1 p2 [Hs Hk] _ IH]; intros r ->; [by destruct r|].
  eapply rtc_l; [by apply run_pool|]. by apply (IH (withPool p1 r)).
Qed.

(** Nothing is handed over that was not claimed. *)
Lemma dispatches_something p p' : step c p p' -> pc p <> FDispatch [] -> pc p' <> FDispatch [].
Proof. intros Hs. destruct Hs; simpl; try done. by destruct rows. Qed.

Lemma run_dispatches st r : runReachable c canListen st r -> pc (rPool r) <> FDispatch [].
Proof.
  unfold runReachable. remember (start c canListen st) as r0 eqn:E.
  intros Hr. assert (pc (rPool r0) <> FDispatch []) as H0 by by subst. clear E.
  induction Hr as [|r1 r2 r3 Hs _ IH]; [done|]. apply IH.
  destruct Hs; simpl; try done; [by eapply dispatches_something | by destruct deadline].
Qed.

Hypothesis weights : weightsOk (queues c).
Hypothesis few : fewQueues (queues c).

Lemma round_ends n (st : ClientState S) :
  exists st' rows, claimRound c Background (fun _ _ => 0) (fun _ _ => 0) (fun _ => 0) (fun _ => true) n st
                   = Some (st', rows).
Proof.
  unfold claimRound.
  destruct (weightedOrder_perm (fun _ _ => 0) (queues c) ltac:(intros; lia) weights few) as (order & -> & _).
  destruct (claimQueues _ _ _ _ _ _ _ _ _ _) as [st' rows]. eauto.
Qed.

(** Once told to stop, the fetch loop gets to its end, wherever it is. *)
Definition fetchEnds (p : Pool S) : Prop := exists p', rtc poolMoves p p' /\ pc p' = FExit.

Lemma fetchEnds_step (p p' : Pool S) :
  step c p p' -> stopFetch p' = stopFetch p -> fetchEnds p' -> fetchEnds p.
Proof. intros Hs Hk (q & Hq & Hx). exists q. split; [|done]. by eapply rtc_l. Qed.

Lemma fetchEnds_exit (p : Pool S) : pc p = FExit -> fetchEnds p.
Proof. intros Hp. exists p. by split; [apply rtc_refl|]. Qed.

Lemma dispatch_stops st k rows run ret :
  rows <> [] -> fetchEnds (MkPool st k (FDispatch rows) run ret true).
Proof.
  intros Hr. eapply fetchEnds_step; [by apply (step_abandon c Background (fun _ _ => 0)) | done |].
  by apply fetchEnds_exit.
Qed.

Lemma claim_stops st k n run ret : fetchEnds (MkPool st k (FClaim n) run ret true).
Proof.
  destruct (round_ends n st) as (st' & [|row rows] & Hc).
  - eapply fetchEnds_step; [by eapply step_claim_stop | done | by apply fetchEnds_exit].
  - eapply fetchEnds_step; [by eapply step_claim | done | by apply dispatch_stops].
Qed.

Lemma acquire_stops st k n run ret : fetchEnds (MkPool st k (FAcquire (Datatypes.S n)) run ret true).
Proof.
  revert n. induction k as [|k IH]; intros n.
  - eapply fetchEnds_step; [apply step_acquired; by right | done | apply claim_stops].
  - destruct (decide (Datatypes.S n < workerCount c)%nat) as [Hlt|Hge].
    + eapply fetchEnds_step; [by apply step_more | done | apply IH].
    + eapply fetchEnds_step; [apply step_acquired; left; lia | done | apply claim_stops].
Qed.

Lemma fetch_stops (p : Pool S) : stopFetch p = true -> pc p <> FDispatch [] -> fetchEnds p.
Proof.
  destruct p as [st k fp run ret stop]. simpl. intros -> Hd.
  destruct fp as [[|n]|n|rows| |];
    [|apply acquire_stops | apply claim_stops | apply dispatch_stops; congruence | | by apply fetchEnds_exit].
  - eapply fetchEnds_step; [apply step_first_stop | done | by apply fetchEnds_exit].
  - eapply fetchEnds_step; [apply step_sleep_stop | done | by apply fetchEnds_exit].
Qed.

(** Handlers that return give their workers back. *)
Lemma workers_stop (p : Pool S) :
  exists p', rtc poolMoves p p' /\ pc p' = pc p /\ running p' = [] /\ returning p' = 0%nat.
Proof.
  destruct p as [st k fp run ret stop]. revert st k ret. induction run as [|row run IH]; intros st k ret.
  - revert k. induction ret as [|ret IH]; intros k; [eexists; split; [apply rtc_refl|done]|].
    destruct (IH (Datatypes.S k)) as (p' & Hp & Hx). exists p'. split; [|done].
    eapply rtc_l; [split; [apply step_return|done]|done].
  - destruct (IH (setInflight (remove (leaseOf row) (cInflight st)) st) k (Datatypes.S ret)) as (p' & Hp & Hx).
    exists p'. split; [|done]. eapply rtc_l; [|exact Hp].
    split; [|done]. by apply (step_finish c st _ k fp [] row run).
Qed.

Lemma pool_stops (p : Pool S) :
  stopFetch p = true -> pc p <> FDispatch [] -> exists p', rtc poolMoves p p' /\ poolFinished p'.
Proof.
  intros Hs Hd. destruct (fetch_stops p Hs Hd) as (p1 & H1 & Hpc).
  destruct (workers_stop p1) as (p2 & H2 & Hpc' & Hrun & Hret). exists p2.
  split; [by transitivity p1|]. unfold poolFinished. by rewrite Hpc', Hpc.
Qed.

Lemma background_ends r :
  rStopBeat r = true -> rFetchDone r = true -> rtc (runStep c) r (withBackground [] r).
Proof.
  remember (rBackground r) as bg eqn:E. revert r E. induction bg as [|g bg IH]; intros r E Hb Hf.
  - destruct r. simpl in *. subst. apply rtc_refl.
  - eapply rtc_l; [|apply (IH (withBackground bg r)); done].
    destruct (decide (g = GHeartbeat)) as [->|Hg].
    + by apply (run_beat_ends c r [] bg).
    + by apply (run_background_ends c r g [] bg).
Qed.

Lemma joining_ends r b err :
  rStopBeat r = true -> rFetchDone r = true -> rDrain r = DJoining b err ->
  exists r' v, rtc (runStep c) r r' /\ rDrain r' = DDone b v.
Proof.
  intros Hb Hf Hd. pose proof (background_ends r Hb Hf) as H1.
  set (r1 := withBackground [] r) in *.
  assert (rtc (runStep c) r (withDrain (DOps b err) r1)) as H2
    by (eapply rtc_r; [exact H1|]; by apply run_joined).
  destruct (rOps r) as [o|] eqn:Eo.
  - do 2 eexists. split; [eapply rtc_r; [exact H2|]; by apply (run_ops c _ o b err None)|done].
  - do 2 eexists. split; [eapply rtc_r; [exact H2|]; by apply run_no_ops|done].
Qed.
Lemma requeue_ends r stranded todo :
  rFetchDone r = true -> rDrain r = DRequeue stranded todo ->
  exists r' b v, rtc (runStep c) r r' /\ rDrain r' = DDone b v.
Proof.
  revert r. induction todo as [|l todo IH]; intros r Hf Hd.
  - set (err := Some (errDrainIncomplete (length stranded))).
    destruct (joining_ends (closeStopHeartbeat false err r) false err) as (r' & v & Hr & Hx); [done..|].
    exists r', false, v. split; [|done]. eapply rtc_l; [by apply run_requeued|done].
  - set (r1 := withDrain (DRequeue stranded todo)
                 (withPool (setPst (requeueStep c Background (fun _ _ => 0) (pst (rPool r)) l) (rPool r)) r)).
    destruct (IH r1) as (r' & b & v & Hr & Hx); [done..|]. exists r', b, v. split; [|done].
    eapply rtc_l; [by apply (run_requeue c r Background (fun _ _ => 0))|done].
Qed.

Lemma waiting_ends r :
  rFetchDone r = true -> stopFetch (rPool r) = true -> pc (rPool r) <> FDispatch [] -> rDrain r = DWaiting ->
  exists r' v, rtc (runStep c) r r' /\ rDrain r' = DDone true v.
Proof.
  intros Hf Hs Hd Hw. destruct (pool_stops (rPool r) Hs Hd) as (p' & Hp & Hfin).
  set (r1 := withPool p' r).
  destruct (joining_ends (closeStopHeartbeat true None r1) true None) as (r' & v & Hr & Hx); [done..|].
  exists r', v. split; [|done]. transitivity r1; [by apply poolMoves_run|].
  eapply rtc_l; [by apply run_finished|done].
Qed.

(** C26: A shutdown that has begun can always complete, whatever it met so far: from every
    state the rest of the system can reach there are steps to a verdict.  While the budget has
    not run out they need no deadline: it is enough that the handlers return, for then the
    fetch loop gets to its end wherever the stop caught it, every hand-over, slot and
    wait it is in included, and every background goroutine leaves the wait group. *)
Theorem shutdown_completes st r :
  cInflight st = newInflightSet -> runReachable c canListen st r -> rDrain r <> DNone ->
  exists r' b v, rtc (runStep c) r r' /\ stopVerdict r' = Some v /\ rDrain r' = DDone b v /\
    ((phase (rDrain r) <= 3)%nat -> b = true).
Proof.
  intros Hi Hr Hn. pose proof (run_ok st r Hi Hr) as Hok.
  pose proof (run_dispatches st r Hr) as Hd. pose proof (ro_fetch r Hok) as Hf.
  pose proof (ro_stop r Hok) as Hs. pose proof (ro_beat r Hok) as Hb.
  assert (forall r1 r' b v, rtc (runStep c) r r1 -> rtc (runStep c) r1 r' -> rDrain r' = DDone b v ->
    ((phase (rDrain r) <= 3)%nat -> b = true) ->
    exists r' b v, rtc (runStep c) r r' /\ stopVerdict r' = Some v /\ rDrain r' = DDone b v /\
      ((phase (rDrain r) <= 3)%nat -> b = true)) as Hend.
  { intros r1 r' b v H1 H2 Hx Hy. exists r', b, v. unfold stopVerdict. rewrite Hx.
    split_all; try done. by transitivity r1. }
  destruct (rDrain r) eqn:E; simpl in *.
  - done.
  - destruct (waiting_ends (closeStopFetch (cancelBackground r))) as (r' & v & H1 & Hx); [done..|].
    eapply Hend; [|done|done|done]. eapply rtc_l; [by apply run_cancel|].
    by apply rtc_once, run_close.
  - destruct (waiting_ends (closeStopFetch r)) as (r' & v & H1 & Hx); [done..|].
    eapply Hend; [|done|done|done]. by apply rtc_once, run_close.
  - destruct (waiting_ends r) as (r' & v & H1 & Hx); [done..|]. by eapply Hend; [apply rtc_refl|..].
  - destruct (requeue_ends r stranded todo) as (r' & b & v & H1 & Hx); [done..|].
    eapply Hend; [apply rtc_refl|done|done|lia].
  - destruct (joining_ends r inBudget err) as (r' & v & H1 & Hx); [done..|].
    eapply Hend; [apply rtc_refl|done|done|lia].
  - destruct (rOps r) as [o|] eqn:Eo.
    + eapply Hend; [apply rtc_once; by apply (run_ops c r o inBudget err None)|apply rtc_refl|done|lia].
    + eapply Hend; [apply rtc_once; by apply run_no_ops|apply rtc_refl|done|lia].
  - eapply Hend; [apply rtc_refl|apply rtc_refl|done|lia].
Qed.
End Order.

(** Whether the shutdown got to its last part without running out of its budget. *)
Definition inTime (d : drainPC) : Prop :=
  match d with DJoining b _ | DOps b _ | DDone b _ => b = true | _ => False end.

(** C10: A shutdown takes things down in the order that loses nothing.  The heartbeat runs until
    the last worker has recorded its outcome and no lease is left, unless the budget ran
    out; from before the first claimer is told to stop, /readyz answers 503, and it goes on
    doing so; and when there is a verdict, no background goroutine runs, the handlers'
    context is cancelled, the ops server's listener and connections are closed, the pool is empty if the
    budget was kept, and whoever asks later gets the same verdict. *)
Theorem shutdown_in_order {S} `{Driver S} c canListen (st : ClientState S) r :
  cInflight st = newInflightSet -> runReachable c canListen st r ->
  (GHeartbeat ∉ rBackground r -> (5 <= phase (rDrain r))%nat /\
     (inTime (rDrain r) -> poolFinished (rPool r) /\ slots (rPool r) = workerCount c /\
        snapshot (cInflight (pst (rPool r))) = [])) /\
  (rFetchDone r = true \/ stopFetch (rPool r) = true \/ stopVerdict r <> None ->
     forall metrics rf now rq, isGet rq = true -> rqPath rq = ["readyz"] ->
       rsCode (readyz c metrics rf now r rq) = 503) /\
  (forall v, stopVerdict r = Some v ->
     rBackground r = [] /\ rJobsDone r = true /\
     (forall o, rOps r = Some o -> o = MkOps false true 0) /\
     (inTime (rDrain r) -> poolFinished (rPool r)) /\
     (forall r', rtc (runStep c) r r' -> stopVerdict r' = Some v)).
Proof.
  intros Hi Hr. destruct (run_ok c canListen st r Hi Hr) as [Hp H1 H2 H3 H4 Hal Hj Hf Ho Hd]. split_all.
  - intros Hh. assert (rStopBeat r = true) as Hb.
    { destruct (rStopBeat r) eqn:E; [done|]. exfalso. apply Hh, Hal; [apply launched_counted|].
      by rewrite bool_decide_eq_true_2. }
    rewrite Hb in H4. symmetry in H4. apply Nat.leb_le in H4. split; [done|]. intros Ht.
    assert (poolFinished (rPool r)) as (Hpc & Hrun & Hret)
      by (destruct (rDrain r); simpl in *; try done; by apply Hf).
    destruct Hp as [Htok Htr]. rewrite Hpc, Hrun, Hret in *. simpl in *. split_all; [done | lia |].
    destruct (snapshot (cInflight (pst (rPool r)))) as [|l ls] eqn:E; [done|].
    exfalso. eapply not_elem_of_nil, Htr, snapshot_elem. rewrite E. left.
  - intros Hstop metrics rf now rq Hg Hq. assert (rDraining r = true) as Hdr.
    { rewrite H1. apply Nat.leb_le. rewrite H2, H3, !Nat.leb_le in Hstop. unfold stopVerdict in Hstop.
      destruct (rDrain r); simpl in *; intuition (lia || done). }
    unfold readyz. rewrite Hdr. apply (probes_answer metrics); [done|done|]. simpl. eauto.
  - intros v. unfold stopVerdict. destruct (rDrain r) as [| | | | | | |b v0] eqn:E; try done. intros [= ->].
    destruct Hd as [Hjd Hod]. split_all; [by apply Hj; simpl; lia | done | done | done |].
    intros r' Hr'. by rewrite (verdict_stable c r r' b v Hr' E).
Qed.

(** ** [Pool.drain] is the schedule in which nothing interleaves *)

Section Undisturbed.
Context {S : Type} `{Ops : Driver S}.
Variables (c : Client) (jobCtx : Ctx) (tick : Z -> nat -> Time).

Lemma requeue_run (r : Run S) stranded todo :
  rDrain r = DRequeue stranded todo ->
  rtc (runStep c) r (withDrain (DRequeue stranded [])
    (withPool (setPst (requeueAll c jobCtx tick todo (pst (rPool r))) (rPool r)) r)).
Proof.
  revert r. induction todo as [|l todo IH]; intros r Hd.
  - destruct r as [[] dr f j sb bg o d]. simpl in *. subst. apply rtc_refl.
  - eapply rtc_l; [by apply (run_requeue c r jobCtx tick stranded l todo)|].
    by apply (IH (withDrain (DRequeue stranded todo)
      (withPool (setPst (requeueStep c jobCtx tick (pst (rPool r)) l) (rPool r)) r))).
Qed.

Lemma joining_run (r : Run S) b err opsErr :
  rStopBeat r = true -> rFetchDone r = true -> rDrain r = DJoining b err -> (rOps r = None -> opsErr = None) ->
  exists r', rtc (runStep c) r r' /\ stopVerdict r' = Some (joinErrors err opsErr) /\
    pst (rPool r') = logState LevelInfo "drover: worker pool stopped" None
      (match opsErr with
       | Some _ => logState LevelError "drover: shut down ops server" None (pst (rPool r))
       | None => pst (rPool r)
       end).
Proof.
  intros Hb Hf Hd Ho. pose proof (background_ends c r Hb Hf) as H1. set (r1 := withBackground [] r) in *.
  assert (rtc (runStep c) r (withDrain (DOps b err) r1)) as H2
    by (eapply rtc_r; [exact H1|]; by apply run_joined).
  destruct (rOps r) as [o|] eqn:Eo.
  - eexists. split; [eapply rtc_r; [exact H2|]; by apply (run_ops c _ o b err opsErr)|].
    by destruct opsErr.
  - rewrite (Ho eq_refl). eexists. split; [eapply rtc_r; [exact H2|]; by apply run_no_ops|]. by destruct err.
Qed.

(** A drain that is given time finds the pool finished; one that is not hands back what is tracked. *)
Lemma drain_runs (r : Run S) inBudget opsErr :
  rDrain r = DNone -> (inBudget = true -> poolFinished (rPool r)) -> (rOps r = None -> opsErr = None) ->
  exists r', rtc (runStep c) r r' /\
    drain c jobCtx tick inBudget opsErr (pst (rPool r)) = (pst (rPool r'), default None (stopVerdict r')) /\
    stopVerdict r' <> None.
Proof.
  intros Hn Hfin Ho. set (r1 := closeStopFetch (cancelBackground (markDraining r))).
  assert (rtc (runStep c) r r1) as H1.
  { eapply rtc_l; [by apply run_mark|]. eapply rtc_l; [by apply run_cancel|]. by apply rtc_once, run_close. }
  assert (exists r2 b err, rtc (runStep c) r1 r2 /\ rStopBeat r2 = true /\ rFetchDone r2 = true /\
    rDrain r2 = DJoining b err /\ rOps r2 = rOps r /\
    (pst (rPool r2), err) = (if inBudget then (pst (rPool r1), None)
                             else escalate c jobCtx tick (pst (rPool r1)))) as (r2 & b & err & H2 & Hb & Hf & Hd & Hr & He).
  { destruct inBudget.
    - do 3 eexists. split; [apply rtc_once, run_finished; [done|by apply Hfin]|done].
    - unfold escalate. destruct (snapshot (cInflight (pst (rPool r1)))) as [|l ls] eqn:E.
      + do 3 eexists. split; [by apply rtc_once, run_nothing_left|done].
      + do 3 eexists. split; [eapply rtc_l; [by apply (run_escalate c r1 (l :: ls))|];
          eapply rtc_r; [by apply requeue_run | by apply run_requeued]|done]. }
  destruct (joining_run r2 b err opsErr Hb Hf Hd) as (r3 & H3 & Hv & Hp); [by rewrite Hr|].
  exists r3. split; [by transitivity r1; [|transitivity r2]|]. rewrite Hv. split; [|done].
  unfold drain. change (logState LevelInfo "drover: worker pool stopping" None (pst (rPool r))) with (pst (rPool r1)).
  destruct (if inBudget then _ else _) as [st2 err2]. injection He as <- <-. by rewrite Hp.
Qed.
End Undisturbed.

(** ** Waiting, against the steps of the pool *)

(** [sleep] is what the pool does when it has nothing to claim: whichever ready case the select takes, its outcome is reached by the
    pool's own steps, and it never goes on once the stop is seen. *)
Lemma sleep_steps {S} `{Driver S} c (st : ClientState S) k run ret stop a :
  ready stop st a ->
  let '(st', go) := sleep a stop st in
  go = negb stop /\
  rtc (step c) (MkPool st k FSleep run ret stop) (MkPool st' k (if go then FAcquire 0 else FExit) run ret stop).
Proof.
  destruct a; simpl; intros Hr; subst.
  - split; [done|]. apply rtc_once, step_sleep_stop.
  - destruct stop; simpl; (split; [done|]).
    + eapply rtc_l; [by apply (step_others c _ (setWake false st))|]. apply rtc_once, step_sleep_stop.
    + apply rtc_once, step_wake. by right.
  - destruct stop; simpl; (split; [done|]); [apply rtc_once, step_sleep_stop|]. apply rtc_once, step_wake. by left.
Qed.

(** An insert through a client with wake-ups leaves the select something to take at once, so
    the fetch loop looks for the job without waiting out its interval. *)
Lemma insert_ends_the_wait {S} (st : ClientState S) notifier stop :
  ready stop (wakeAfterInsert true notifier st) ByWake.
Proof. exact (proj2 (proj2 (wakeAfterInsert_store true notifier st))). Qed.

(** Listening touches nothing but the wake channel and the log, never takes a wake-up away,
    logs each session that failed before the end, and returns once the context is done. *)
Lemma listenForWakeups_spec {S} turns (st : ClientState S) :
  let '(st', back) := listenForWakeups turns st in
  cStore st' = cStore st /\ cInflight st' = cInflight st /\
  (cWake st = true -> cWake st' = true) /\
  (back = true <-> exists t, t ∈ turns /\ (ltDone t || negb (ltTimer t)) = true).
Proof.
  revert st. induction turns as [|t turns IH]; intros st; simpl.
  - split_all; try done. split; [done|]. intros (t & Ht & _). by apply not_elem_of_nil in Ht.
  - destruct (ltDone t) eqn:Ed.
    { assert (exists t', t' ∈ t :: turns /\ (ltDone t' || negb (ltTimer t')) = true) as Hx
        by (exists t; rewrite Ed; split; [left|done]).
      by destruct (ltWoke t). }
    set (st1 := if ltWoke t then nudge st else st).
    set (st2 := match ltErr t with Some _ => _ | None => _ end).
    assert (cStore st2 = cStore st /\ cInflight st2 = cInflight st /\ (cWake st = true -> cWake st2 = true))
      as (E1 & E2 & E3) by (unfold st2, st1; destruct (ltErr t), (ltWoke t); done).
    destruct (ltTimer t) eqn:Et.
    + specialize (IH st2). destruct (listenForWakeups turns st2) as [st' back].
      destruct IH as (H1 & H2 & H3 & H4). split_all; [congruence | congruence | auto |].
      rewrite H4. split; intros (t' & Ht & Hx); exists t'; (split; [|done]); [by right|].
      apply elem_of_cons in Ht as [->|Ht]; [|done]. by rewrite Ed, Et in Hx.
    + split_all; try done. split; [|done]. intros _. exists t. rewrite Ed, Et. split; [left|done].
Qed.

(** ** Witnesses *)

(** Stopped at once: the fetch loop has taken nothing, and everything leaves in order. *)
Definition demoStart : Run MemDriver := start demoClient false poolState.

Definition demoWaiting : Run MemDriver := closeStopFetch (cancelBackground (markDraining demoStart)).

Definition demoFetchGone : Run MemDriver :=
  withPool (MkPool (pst (rPool demoWaiting)) 2 FExit [] 0 true) demoWaiting.

Definition demoJoined : Run MemDriver := withBackground [] (closeStopHeartbeat true None demoFetchGone).

Definition demoStopped : Run MemDriver := stopped true None (withDrain (DOps true None) demoJoined).

Lemma demoWaiting_reachable : runReachable demoClient false poolState demoWaiting.
Proof.
  eapply rtc_l; [by apply run_mark|]. eapply rtc_l; [by apply run_cancel|]. by apply rtc_once, run_close.
Qed.

Lemma demoStopped_reachable : runReachable demoClient false poolState demoStopped.
Proof.
  unfold runReachable. transitivity demoWaiting; [apply demoWaiting_reachable|].
  eapply (rtc_l _ _ demoFetchGone); [apply run_pool; [apply step_first_stop|done]|].
  eapply rtc_l; [by apply run_finished|].
  etransitivity; [by apply background_ends|].
  eapply rtc_l; [by apply (run_joined _ demoJoined true None)|]. by apply rtc_once, run_no_ops.
Qed.

Lemma shutdown_in_order_witness :
  stopVerdict demoStopped = Some None /\ (GHeartbeat ∉ rBackground demoStopped) /\
  poolFinished (rPool demoStopped) /\ slots (rPool demoStopped) = workerCount demoClient /\
  rBackground demoStopped = [].
Proof.
  assert (GHeartbeat ∉ rBackground demoStopped) as Hb by apply not_elem_of_nil.
  destruct (shutdown_in_order demoClient false poolState demoStopped eq_refl demoStopped_reachable) as (H1 & _ & H3).
  destruct (H1 Hb) as [_ Ht]. destruct (Ht eq_refl) as (Hf & Hs & _).
  destruct (H3 None eq_refl) as (Hg & _). split_all; done.
Defined.

Lemma shutdown_completes_witness :
  exists r' v, rtc (runStep demoClient) demoWaiting r' /\ rDrain r' = DDone true v.
Proof.
  assert (weightsOk (queues demoClient)) as Hw by (repeat constructor; done).
  assert (fewQueues (queues demoClient)) as Hf by done.
  destruct (shutdown_completes demoClient false Hw Hf poolState demoWaiting eq_refl demoWaiting_reachable
              ltac:(done)) as (r' & b & v & Hr & _ & Hd & Hb).
  exists r', v. split; [done|]. rewrite Hd. f_equal. apply Hb. simpl. lia.
Defined.

(** ** A clean verdict over a claim in flight

    The budget ends while the fetch loop is inside its claim: nothing is tracked yet, so
    [escalate] finds nothing stranded and the verdict is nil.  The claim then returns, and the
    hand-over may win against the stop signal: the job runs after [Stop] said that all was
    done, with nobody to renew its lease and its context cancelled. *)

Definition lateClaiming : Run MemDriver :=
  withPool (MkPool poolState 0 (FClaim 2) [] 0 false) demoStart.

Definition lateWaiting : Run MemDriver := closeStopFetch (cancelBackground (markDraining lateClaiming)).

Definition lateJoined : Run MemDriver := withBackground [] (closeStopHeartbeat false None lateWaiting).

Definition lateStopped : Run MemDriver := stopped false None (withDrain (DOps false None) lateJoined).

Definition lateRound : option (ClientState MemDriver * list JobRow) :=
  claimRound demoClient Background poolTick (fun _ _ => 0) (fun _ => 2000) (fun _ => true) 2
    (pst (rPool lateStopped)).

Lemma lateStopped_reachable : runReachable demoClient false poolState lateStopped.
Proof.
  unfold runReachable.
  transitivity lateClaiming.
  { change lateClaiming with (withPool (rPool lateClaiming) demoStart). apply poolMoves_run.
    eapply rtc_l; [split; [apply step_first|done]|].
    eapply rtc_l; [split; [apply step_more; vm_compute; lia|done]|].
    apply rtc_once. split; [apply step_acquired; left; vm_compute; lia|done]. }
  transitivity lateWaiting.
  { eapply rtc_l; [by apply run_mark|]. eapply rtc_l; [by apply run_cancel|]. by apply rtc_once, run_close. }
  eapply rtc_l; [by apply run_nothing_left|].
  etransitivity; [by apply background_ends|].
  eapply rtc_l; [by apply (run_joined _ lateJoined false None)|]. by apply rtc_once, run_no_ops.
Qed.

Theorem stop_says_done_over_a_claim :
  exists r, runReachable demoClient false poolState r /\ stopVerdict r = Some None /\
    ID <$> running (rPool r) = [1] /\ rBackground r = [] /\ rJobsDone r = true.
Proof.
  assert (exists st row rest, lateRound = Some (st, row :: rest) /\ ID row = 1 /\ length rest = 1%nat)
    as (st & row & rest & Hc & Hid & Hl).
  { unfold lateRound. destruct (claimRound _ _ _ _ _ _ _ _) as [[st rows]|] eqn:E; [|by vm_compute in E].
    assert (ID <$> rows = [1; 2]) as Hx by (vm_compute in E; by injection E as <- <-).
    destruct rows as [|row [|row' [|? ?]]]; try done. exists st, row, [row']. by injection Hx as -> _. }
  assert (rtc (poolMoves demoClient) (rPool lateStopped)
    (MkPool (setInflight (add (leaseOf row) (cInflight st)) st) 0 (dispatching rest) [row] 0 true)) as Hp.
  { pose proof (step_claim demoClient Background poolTick (fun _ _ => 0) (fun _ => 2000) (fun _ => true)
      (pst (rPool lateStopped)) st row rest 0 2 [] 0 true Hc) as Hs.
    cbn [length] in Hs. rewrite Hl in Hs.
    eapply rtc_l; [split; [exact Hs|done]|]. apply rtc_once. split; [|done].
    apply (step_hand demoClient). vm_compute. lia. }
  eexists. split_all.
  - unfold runReachable. etransitivity; [apply lateStopped_reachable|]. by apply poolMoves_run.
  - done.
  - simpl. by rewrite Hid.
  - done.
  - done.
Qed.
