(* ===== verification/Percentile.v ===== *)
(** * Percentile: the latency percentiles of the benchmark

    Models [reportPercentiles] and [percentile] of cmd/drover-bench/bench.go in binary64
    arithmetic, and shows that they are nearest-rank percentiles. *)

From S2P Require Import Prelude GoTime GoError GoRuntime GoText.

(** [math.Ceil] *)
Definition fceil (f : float64) : float64 :=
  if 0 <=? expo f then f else MkFloat (- (- mant f / 2 ^ (- expo f))) 0.

Definition percentile (sorted : list Duration) (p : float64) : Duration :=
  match sorted with
  | [] => 0
  | _ =>
      let n := Z.of_nat (length sorted) in
      let rank := toInt64 (fceil (fmul (fdiv p (ofInt 100)) (ofInt n))) - 1 in
      let rank := if rank <? 0 then 0 else rank in
      let rank := if n <=? rank then n - 1 else rank in
      default 0 (sorted !! Z.to_nat rank)
  end.

Definition reportPercentiles (latencies : list Duration) : Duration * Duration * Duration :=
  match latencies with
  | [] => (0, 0, 0)
  | _ =>
      let sorted := SortFunc compareZ latencies in
      (percentile sorted (ofInt 50), percentile sorted (ofInt 95), percentile sorted (ofInt 99))
  end.

(** ** The rank is exact *)

Lemma ceil_bounds v D m : 0 < D -> (m - 1) * D < v <= m * D -> - (- v / D) = m.
Proof. intros HD Hv. assert (- v / D = - m) as ->; [|lia]. symmetry. apply (Z.div_unique_pos _ _ _ (m * D - v)); lia. Qed.

(** Rounding does not cross a number that needs no rounding. *)
Lemma rne_le v k q : 0 < k -> v <= q * 2 ^ k -> rne v k <= q.
Proof.
  intros Hk Hv. pose proof (rne_err v k Hk) as He.
  assert (0 < 2 ^ k) by (apply Z.pow_pos_nonneg; lia). nia.
Qed.

Lemma toInt64_int m : 0 <= m < 2 ^ 63 -> toInt64 (MkFloat m 0) = m.
Proof.
  intros Hm. unfold toInt64. simpl. rewrite Z.mul_1_r.
  destruct (Z.leb_spec (- 2 ^ 63) m), (Z.ltb_spec m (2 ^ 63)); lia || done.
Qed.

(** The product of [n] and a fraction [M / 2^53] that is the nearest below [p / 100] has the ceiling of the
    exact product. *)
Lemma rank_exact M p n :
  0 < n < 2 ^ 45 -> 2 ^ 52 <= M < 2 ^ 53 -> 0 <= p * 2 ^ 53 - 100 * M <= 50 ->
  toInt64 (fceil (fround (MkFloat (M * n) (-53)))) = (p * n + 99) / 100.
Proof.
  intros Hn HM Hp. set (v := M * n). set (m := (p * n + 99) / 100).
  assert (100 * (m - 1) < p * n <= 100 * m) as Hm
    by (unfold m; pose proof (Z.div_mod (p * n + 99) 100); pose proof (Z.mod_pos_bound (p * n + 99) 100); lia).
  assert (0 < v < 2 ^ 98) as Hv
    by (unfold v; change (2 ^ 98) with (2 ^ 53 * 2 ^ 45); nia).
  assert (v <= m * 2 ^ 53) as Hup by (unfold v; nia).
  assert (0 <= m < 2 ^ 46) as Hms by nia.
  assert (forall r j, 0 <= j <= 53 -> (m - 1) * 2 ^ j < r <= m * 2 ^ j ->
    toInt64 (fceil (MkFloat r (- j))) = m) as Hend.
  { intros r j Hj Hr. unfold fceil. cbn [mant expo]. destruct (Z.leb_spec 0 (- j)) as [Hz|Hz].
    - assert (j = 0) as -> by lia. assert (r = m) as -> by (change (2 ^ 0) with 1 in Hr; lia).
      by apply toInt64_int; lia.
    - rewrite Z.opp_involutive, (ceil_bounds r (2 ^ j) m) by (try apply Z.pow_pos_nonneg; lia).
      apply toInt64_int. lia. }
  unfold fround. cbn [mant expo]. rewrite Z.abs_eq by lia.
  destruct (Z.leb_spec (Z.log2 v - 52) 0) as [Hk|Hk].
  - apply (Hend v 53); [lia|]. split; [|done]. unfold v. nia.
  - set (k := Z.log2 v - 52) in *.
    assert (2 ^ (k + 52) <= v) as Hlow by (replace (k + 52) with (Z.log2 v) by lia; apply Z.log2_spec; lia).
    assert (k <= 45) as Hk45 by (assert (Z.log2 v < 98) by (apply Z.log2_lt_pow2; lia); lia).
    assert (2 ^ 53 = 2 ^ (53 - k) * 2 ^ k) as HD by (rewrite <- Z.pow_add_r by lia; f_equal; lia).
    assert (0 < 2 ^ k) as Hpk by (apply Z.pow_pos_nonneg; lia).
    rewrite Z.pow_add_r in Hlow by lia.
    replace (-53 + k) with (- (53 - k)) by lia. apply Hend; [lia|]. split.
    + pose proof (rne_err v k Hk) as He. assert (2 ^ k <= 2 * n) as Hkn by nia.
      apply (Z.mul_lt_mono_pos_r (2 ^ k)); [done|].
      replace ((m - 1) * 2 ^ (53 - k) * 2 ^ k) with ((m - 1) * 2 ^ 53) by (rewrite HD; ring).
      assert (100 * v >= p * n * 2 ^ 53 - 50 * n) as Hv2 by (unfold v; nia).
      assert (100 * ((m - 1) * 2 ^ 53) <= (p * n - 1) * 2 ^ 53) as Hm2 by nia.
      assert (2 * (rne v k * 2 ^ k) >= 2 * v - 2 ^ k) as Hr by lia. lia.
    + apply rne_le; [done|]. rewrite <- Z.mul_assoc, <- HD. done.
Qed.

(** The three percentages the report uses. *)
Definition reported (p : Z) : Prop := p = 50 \/ p = 95 \/ p = 99.

Lemma rank_reported p n :
  reported p -> 0 < n < 2 ^ 45 ->
  toInt64 (fceil (fmul (fdiv (ofInt p) (ofInt 100)) (ofInt n))) = (p * n + 99) / 100.
Proof.
  intros Hp Hn. assert (ofInt n = MkFloat n 0) as -> by (apply fround_exact; simpl; lia).
  assert (exists M, fdiv (ofInt p) (ofInt 100) = MkFloat M (-53) /\ 2 ^ 52 <= M < 2 ^ 53 /\
    0 <= p * 2 ^ 53 - 100 * M <= 50) as (M & -> & HM & He).
  { destruct Hp as [->|[->| ->]]; (eexists; split; [vm_compute; reflexivity|]); vm_compute; split; split; discriminate || done. }
  apply (rank_exact M p n Hn HM He).
Qed.

(** ** Nearest ranks *)

Definition countLe (x : Duration) (l : list Duration) : Z := Z.of_nat (length (filter (fun y => y <= x) l)).
Definition countLt (x : Duration) (l : list Duration) : Z := Z.of_nat (length (filter (fun y => y < x) l)).

(** [x] is in the list, at least [p] per cent of the list is at most [x], and less than
    [p] per cent is below it. *)
Definition nearestRank (p : Z) (l : list Duration) (x : Duration) : Prop :=
  x ∈ l /\ p * Z.of_nat (length l) <= 100 * countLe x l /\ 100 * countLt x l < p * Z.of_nat (length l).

#[export] Instance nearestRank_perm p : Proper ((≡ₚ) ==> eq ==> iff) (nearestRank p).
Proof. intros l l' Hl x x' <-. unfold nearestRank, countLe, countLt. by rewrite Hl. Qed.

Lemma filter_length_all {A} (P : A -> Prop) `{forall x, Decision (P x)} l :
  Forall P l -> length (filter P l) = length l.
Proof. induction 1; [done|]. rewrite filter_cons_True by done. simpl. by f_equal. Qed.

Lemma filter_length_none {A} (P : A -> Prop) `{forall x, Decision (P x)} l :
  Forall (fun x => ~ P x) l -> length (filter P l) = 0%nat.
Proof. induction 1; [done|]. by rewrite filter_cons_False. Qed.

Lemma sorted_around (s : list Duration) i x :
  StronglySorted Z.le s -> s !! i = Some x ->
  Forall (fun y => y <= x) (take i s) /\ Forall (fun y => x <= y) (drop (Datatypes.S i) s).
Proof.
  intros Hs Hx. rewrite <- (take_drop_middle s i x Hx) in Hs.
  apply StronglySorted_app in Hs as (Hc & _ & Hr). apply StronglySorted_inv in Hr as [_ Hr]. split; [|done].
  apply Forall_forall. intros y Hy. apply (Hc y x Hy). left.
Qed.

Lemma sorted_lookup (s : list Duration) i j x y :
  StronglySorted Z.le s -> (i < j)%nat -> s !! i = Some x -> s !! j = Some y -> x <= y.
Proof.
  intros Hs Hij Hx Hy. destruct (sorted_around s i x Hs Hx) as [_ Hge].
  rewrite Forall_forall in Hge. apply Hge, (list_elem_of_lookup_2 _ (j - Datatypes.S i)).
  rewrite lookup_drop. rewrite <- Hy. f_equal. lia.
Qed.

(** In a sorted list the element at position [i] has at least [i + 1] elements at most it, and
    at most [i] below it. *)
Lemma sorted_counts (s : list Duration) i x :
  StronglySorted Z.le s -> s !! i = Some x ->
  Z.of_nat (Datatypes.S i) <= countLe x s /\ countLt x s <= Z.of_nat i.
Proof.
  intros Hs Hx. pose proof (take_drop_middle s i x Hx) as Hsplit.
  assert (i < length s)%nat as Hi by by eapply lookup_lt_Some.
  destruct (sorted_around s i x Hs Hx) as [Hle Hge].
  unfold countLe, countLt. rewrite <- Hsplit at 1 2. rewrite !filter_app, !length_app.
  rewrite filter_cons_True by lia. rewrite filter_cons_False by lia. cbn [length].
  rewrite (filter_length_all (fun y => y <= x) (take i s)) by done.
  rewrite (filter_length_none (fun y => y < x) (drop (S i) s))
    by (eapply Forall_impl; [exact Hge | simpl; lia]).
  pose proof (length_filter (fun y => y < x) (take i s)) as Hf.
  rewrite length_take in *. lia.
Qed.

Lemma percentile_rank s p :
  reported p -> s <> [] -> Z.of_nat (length s) < 2 ^ 45 ->
  exists i, s !! i = Some (percentile s (ofInt p)) /\
    100 * Z.of_nat i < p * Z.of_nat (length s) <= 100 * (Z.of_nat i + 1).
Proof.
  intros Hp Hne Hlen. set (n := Z.of_nat (length s)) in *.
  assert (0 < n) as Hn by (subst n; destruct s; [done|simpl; lia]).
  exists (Z.to_nat ((p * n + 99) / 100 - 1)). set (m := (p * n + 99) / 100).
  assert (100 * (m - 1) < p * n <= 100 * m) as Hm
    by (unfold m; pose proof (Z.div_mod (p * n + 99) 100); pose proof (Z.mod_pos_bound (p * n + 99) 100); lia).
  assert (1 <= m <= n) as Hmn by (destruct Hp as [->|[->| ->]]; lia).
  rewrite Z2Nat.id by lia. split; [|lia].
  assert (percentile s (ofInt p) = default 0 (s !! Z.to_nat (m - 1))) as ->.
  { unfold percentile. destruct s as [|d s']; [done|]. fold n. rewrite rank_reported by done. fold m.
    destruct (Z.ltb_spec (m - 1) 0); [lia|]. destruct (Z.leb_spec n (m - 1)); [lia|done]. }
  destruct (lookup_lt_is_Some_2 s (Z.to_nat (m - 1))) as [x ->]; [subst n; lia|done].
Qed.

(** C38: The percentiles of a report are nearest-rank percentiles, in spite of the floating-point
    rank: each of p50, p95 and p99 is one of the latencies, at least that percentage of them is at
    most it and less than that percentage is below it, whatever the order in which they were
    recorded; and p50 <= p95 <= p99.  Fewer than 2^45 latencies, far more than memory holds, are assumed. *)
Theorem reportPercentiles_nearest latencies p50 p95 p99 :
  latencies <> [] -> Z.of_nat (length latencies) < 2 ^ 45 ->
  reportPercentiles latencies = (p50, p95, p99) ->
  nearestRank 50 latencies p50 /\ nearestRank 95 latencies p95 /\ nearestRank 99 latencies p99 /\
  p50 <= p95 <= p99.
Proof.
  intros Hne Hlen Hr. pose proof (SortFunc_perm compareZ latencies) as Hperm.
  assert (StronglySorted Z.le (SortFunc compareZ latencies)) as Hs.
  { eapply StronglySorted_mono; [|apply SortFunc_sorted, _]. intros a b. unfold cmp_le. by rewrite compareZ_le. }
  unfold reportPercentiles in Hr. destruct latencies as [|d ls] eqn:El; [done|]. rewrite <- El in *. clear d ls El.
  set (s := SortFunc compareZ latencies) in *. injection Hr as <- <- <-.
  assert (s <> []) as Hsn by (intros E; rewrite E in Hperm; by apply Permutation_nil_l in Hperm).
  rewrite <- Hperm in Hlen.
  assert (forall p, reported p -> nearestRank p latencies (percentile s (ofInt p))) as Hnear.
  { intros p Hp. rewrite <- Hperm. destruct (percentile_rank s p Hp Hsn Hlen) as (i & Hi & Hb).
    destruct (sorted_counts s i _ Hs Hi). split; [by eapply list_elem_of_lookup_2|]. lia. }
  assert (forall p q, reported p -> reported q -> p <= q -> percentile s (ofInt p) <= percentile s (ofInt q)) as Hmono.
  { intros p q Hp Hq Hpq. destruct (percentile_rank s p Hp Hsn Hlen) as (i & Hi & Hbi).
    destruct (percentile_rank s q Hq Hsn Hlen) as (j & Hj & Hbj).
    destruct (decide (i = j)) as [->|Hij]; [rewrite Hi in Hj; injection Hj as ->; lia|].
    assert (i < j)%nat as Hlt by nia.
    by apply (sorted_lookup s i j). }
  unfold reported in *. split_all; [apply Hnear | apply Hnear | apply Hnear | apply Hmono | apply Hmono]; lia.
Qed.

Lemma reportPercentiles_nearest_witness :
  reportPercentiles [50; 10; 40; 20; 30] = (30, 50, 50) /\
  nearestRank 50 [50; 10; 40; 20; 30] 30.
Proof.
  split; [vm_compute; reflexivity|].
  apply (reportPercentiles_nearest [50; 10; 40; 20; 30] 30 50 50); [done | done | vm_compute; reflexivity].
Defined.
