(* ===== verification/Bench.v ===== *)
(** * Bench: the benchmark command

    Models cmd/drover-bench: the batched insertion, the no-op worker whose goroutines share
    counters and a slice, one measurement, and the command with its flags, report and exit
    status.  The inserter is any state with an [InsertMany]; what the database, the client and the clock answer
    are arguments.  Each access to the worker's shared fields is a step of [workStep]. *)

From S2P Require Import Prelude GoTime GoError GoRuntime GoText DriverSpec Middleware Enqueue Client.
From S2P Require Import GoFlag Percentile.

Definition noopKind : string := "noop".
Definition modeEnqueue : string := "enqueue".
Definition modeDrain : string := "drain".

Definition noopArgs : JobArgs := {| argKind := noopKind; argJSON := Ok "{}" |}.

Definition namedQueue (queue : string) : bool :=
  negb (String.eqb queue "") && negb (String.eqb queue "default").

(** ** Inserting *)

Section Insert.
Context {X : Type}.
Variable insertMany : X -> list InsertItem -> X * res error (list (option JobRow)).
Variable now : nat -> Time.

(** What a chunk's answer does to the times and the rows; [insertedAt] may be nil. *)
Definition recordRow (t : Time) (acc : option (gmap Z Time) * list (option JobRow)) (row : option JobRow)
    : option (gmap Z Time) * list (option JobRow) :=
  let '(m, out) := acc in
  (match m, row with Some times, Some r => Some (<[ID r := t]> times) | _, _ => m end, out ++ [row]).

(** The loop; [None]: it is still running when [fuel] turns are over. *)
Fixpoint insertLoop (fuel i : nat) (jobs batch : Z) (opts : option InsertOpts) (start : Z) (x : X)
    (acc : option (gmap Z Time) * list (option JobRow))
    : option (X * (option (gmap Z Time) * list (option JobRow)) * option error) :=
  if start <? jobs then
    match fuel with
    | O => None
    | Datatypes.S fuel' =>
        let n := if jobs - start <? batch then jobs - start else batch in
        let items := replicate (Z.to_nat n) {| itemArgs := Some noopArgs; itemOpts := opts |} in
        match insertMany x items with
        | (x', Err e) => Some (x', acc, Some e)
        | (x', Ok rows) =>
            insertLoop fuel' (Datatypes.S i) jobs batch opts (wrap64 (start + batch)) x'
              (foldl (recordRow (now i)) acc rows)
        end
    end
  else Some (x, acc, None).

Definition benchOpts (queue : string) : option InsertOpts :=
  if namedQueue queue
  then Some {| optQueue := queue; optScheduledAt := zeroTime; optUniqueKey := "" |} else None.

Definition insertNoopJobs (fuel : nat) (jobs batch : Z) (queue : string) (insertedAt : option (gmap Z Time))
    (x : X) : option (X * (option (gmap Z Time) * list (option JobRow)) * option error) :=
  insertLoop fuel 0 jobs batch (benchOpts queue) 0 x (insertedAt, []).

(** *** The reference: one call per chunk *)

(** Full batches, and what is left over. *)
Definition chunkSizes (jobs batch : Z) : list nat :=
  replicate (Z.to_nat (jobs / batch)) (Z.to_nat batch) ++
  (if jobs mod batch =? 0 then [] else [Z.to_nat (jobs mod batch)]).

Fixpoint insertChunks (i : nat) (opts : option InsertOpts) (sizes : list nat) (x : X)
    (acc : option (gmap Z Time) * list (option JobRow))
    : X * (option (gmap Z Time) * list (option JobRow)) * option error :=
  match sizes with
  | [] => (x, acc, None)
  | n :: rest =>
      match insertMany x (replicate n {| itemArgs := Some noopArgs; itemOpts := opts |}) with
      | (x', Err e) => (x', acc, Some e)
      | (x', Ok rows) => insertChunks (Datatypes.S i) opts rest x' (foldl (recordRow (now i)) acc rows)
      end
  end.

Lemma chunkSizes_cons jobs batch :
  1 <= batch -> 0 < jobs ->
  chunkSizes jobs batch =
  Z.to_nat (Z.min batch jobs) :: chunkSizes (if jobs <? batch then 0 else jobs - batch) batch.
Proof.
  intros Hb Hj. unfold chunkSizes. destruct (Z.ltb_spec jobs batch) as [Hlt|Hge].
  - rewrite Z.min_r, !Z.div_small, !Z.mod_small by lia. simpl. destruct (Z.eqb_spec jobs 0); [lia|done].
  - rewrite Z.min_l by lia. assert (jobs / batch = (jobs - batch) / batch + 1) as Hd.
    { rewrite <- (Z.div_add (jobs - batch) 1 batch) by lia. f_equal. lia. }
    assert (0 <= (jobs - batch) / batch) by (apply Z.div_pos; lia).
    assert (jobs mod batch = (jobs - batch) mod batch) as ->.
    { rewrite <- (Z_mod_plus_full (jobs - batch) 1 batch). f_equal. lia. }
    rewrite Hd, Z2Nat.inj_add by lia. rewrite Nat.add_comm. done.
Qed.

Lemma insertLoop_chunks fuel i jobs batch opts start x acc :
  1 <= batch -> 0 <= start -> jobs + batch <= MaxInt64 -> jobs - start <= Z.of_nat fuel ->
  insertLoop fuel i jobs batch opts start x acc =
  Some (insertChunks i opts (chunkSizes (Z.max 0 (jobs - start)) batch) x acc).
Proof.
  intros Hb. revert i start x acc. induction fuel as [|fuel IH]; intros i start x acc Hs Hm Hf; simpl.
  - destruct (Z.ltb_spec start jobs); [lia|]. rewrite Z.max_l by lia.
    unfold chunkSizes. by rewrite Z.div_0_l, Z.mod_0_l by lia.
  - destruct (Z.ltb_spec start jobs) as [Hlt|Hge].
    2: { rewrite Z.max_l by lia. unfold chunkSizes. by rewrite Z.div_0_l, Z.mod_0_l by lia. }
    rewrite (Z.max_r 0 (jobs - start)), chunkSizes_cons by lia. cbn [insertChunks].
    replace (if jobs - start <? batch then jobs - start else batch) with (Z.min batch (jobs - start))
      by (destruct (Z.ltb_spec (jobs - start) batch); lia).
    destruct (insertMany x _) as [x' [rows|e]]; [|done].
    rewrite wrap64_small by (unfold MaxInt64 in *; lia). rewrite IH by lia. do 3 f_equal.
    destruct (Z.ltb_spec (jobs - start) batch); lia.
Qed.

(** The sizes add up, and none is empty or above the batch. *)
Lemma chunkSizes_sum jobs batch :
  1 <= batch -> 0 <= jobs ->
  Z.of_nat (sum_list (chunkSizes jobs batch)) = jobs /\
  Forall (fun n => 1 <= Z.of_nat n <= batch) (chunkSizes jobs batch).
Proof.
  intros Hb Hj. unfold chunkSizes. rewrite sum_list_with_app, sum_list_replicate.
  assert (0 <= jobs / batch) by (apply Z.div_pos; lia).
  pose proof (Z.div_mod jobs batch) as Hd. pose proof (Z.mod_pos_bound jobs batch) as Hm. split.
  - destruct (Z.eqb_spec (jobs mod batch) 0); simpl; nia.
  - apply Forall_app. split; [apply Forall_replicate; lia|].
    destruct (Z.eqb_spec (jobs mod batch) 0); constructor; [lia|done].
Qed.

(** Every row so far has a time, if times are kept. *)
Definition timed (acc : option (gmap Z Time) * list (option JobRow)) : Prop :=
  forall times r, acc.1 = Some times -> Some r ∈ acc.2 -> is_Some (times !! ID r).

Lemma recordRow_timed t rows acc :
  timed acc ->
  timed (foldl (recordRow t) acc rows) /\
  length (foldl (recordRow t) acc rows).2 = (length acc.2 + length rows)%nat.
Proof.
  revert acc. induction rows as [|row rows IH]; intros [m out] Ht; cbn [foldl length]; [split; [done|lia]|].
  destruct (IH (recordRow t (m, out) row)) as [H1 H2].
  - intros times r Hm Hr. simpl in *. apply elem_of_app in Hr as [Hr|Hr].
    + destruct m as [m|]; [|by destruct row]. destruct (Ht m r eq_refl Hr) as [t0 Ht0].
      destruct row as [r'|]; injection Hm as <-; [|eauto]. destruct (decide (ID r' = ID r)) as [->|Hne].
      * rewrite lookup_insert_eq. eauto.
      * rewrite lookup_insert_ne by done. eauto.
    + apply list_elem_of_singleton in Hr. subst row. destruct m as [m|]; [|done]. injection Hm as <-.
      rewrite lookup_insert_eq. eauto.
  - split; [done|]. rewrite H2. simpl. rewrite length_app. simpl. lia.
Qed.

Lemma insertChunks_rows i opts sizes x acc :
  (forall x items x' rows, insertMany x items = (x', Ok rows) -> length rows = length items) ->
  timed acc ->
  timed (insertChunks i opts sizes x acc).1.2 /\
  ((insertChunks i opts sizes x acc).2 = None ->
   length (insertChunks i opts sizes x acc).1.2.2 = (length acc.2 + sum_list sizes)%nat).
Proof.
  intros Hone. revert i x acc. induction sizes as [|n sizes IH]; intros i x acc Ht; simpl; [split; [done|lia]|].
  destruct (insertMany x _) as [x' [rows|e]] eqn:E; [|done].
  destruct (recordRow_timed (now i) rows acc Ht) as [Ht' Hl].
  destruct (IH (Datatypes.S i) x' _ Ht') as [H1 H2]. split; [done|]. intros Hn. rewrite (H2 Hn), Hl.
  rewrite (Hone _ _ _ _ E), length_replicate. lia.
Qed.

(** [insertNoopJobs] returns for every batch size of at least 1, and makes exactly the calls of
    the reference: full batches and one for the rest, none empty, adding up to the jobs asked for, up to the first
    that fails.  Without a failure it returns one row per job, and each row it returns has its time
    recorded. *)
Theorem insertNoopJobs_batches fuel jobs batch queue insertedAt x :
  (forall x items x' rows, insertMany x items = (x', Ok rows) -> length rows = length items) ->
  1 <= batch -> 0 <= jobs -> jobs + batch <= MaxInt64 -> jobs <= Z.of_nat fuel ->
  exists x' times out err,
    insertNoopJobs fuel jobs batch queue insertedAt x = Some (x', (times, out), err) /\
    insertChunks 0 (benchOpts queue) (chunkSizes jobs batch) x (insertedAt, []) = (x', (times, out), err) /\
    Z.of_nat (sum_list (chunkSizes jobs batch)) = jobs /\
    Forall (fun n => 1 <= Z.of_nat n <= batch) (chunkSizes jobs batch) /\
    (err = None -> Z.of_nat (length out) = jobs) /\
    (forall m r, times = Some m -> Some r ∈ out -> is_Some (m !! ID r)).
Proof.
  intros Hone Hb Hj Hm Hf. destruct (chunkSizes_sum jobs batch Hb Hj) as [Hsum Hall].
  assert (timed (insertedAt, [])) as Ht by by intros ? ? _ ?%not_elem_of_nil.
  destruct (insertChunks_rows 0 (benchOpts queue) (chunkSizes jobs batch) x _ Hone Ht) as [H1 H2].
  unfold insertNoopJobs. rewrite insertLoop_chunks, Z.sub_0_r, Z.max_r by lia.
  destruct (insertChunks _ _ _ _ _) as [[x' [times out]] err]. exists x', times, out, err.
  simpl in H1, H2. split_all; try done. intros Hn. rewrite (H2 Hn). lia.
Qed.
End Insert.

(** ** The worker *)

(** [wClosed] counts the closes of [allDone]: a second one would panic. *)
Record noopWorker := MkNoop {
  wInsertedAt : gmap Z Time;
  wLatencies : list Duration;
  wLatN : Z;
  wFinished : Z;
  wTarget : Z;
  wClosed : nat
}.

Definition newNoopWorker (jobs : nat) (insertedAt : gmap Z Time) : noopWorker :=
  MkNoop insertedAt (replicate jobs 0) 0 0 (Z.of_nat jobs) 0.

(** Where a call of [Work] is. *)
Inductive workPC :=
| WStart (id : Z)
| WSlot (i : Z) (start : Time)
| WWritten
| WReturned.

Definition takeSlot (w : noopWorker) : noopWorker :=
  MkNoop (wInsertedAt w) (wLatencies w) (wLatN w + 1) (wFinished w) (wTarget w) (wClosed w).

Definition writeLatency (i : Z) (d : Duration) (w : noopWorker) : noopWorker :=
  if (0 <=? i) && (i <? Z.of_nat (length (wLatencies w)))
  then MkNoop (wInsertedAt w) (<[Z.to_nat i := d]> (wLatencies w)) (wLatN w) (wFinished w) (wTarget w) (wClosed w)
  else w.

Definition finishOne (w : noopWorker) : noopWorker :=
  let n := wFinished w + 1 in
  MkNoop (wInsertedAt w) (wLatencies w) (wLatN w) n (wTarget w)
    (if n =? wTarget w then Datatypes.S (wClosed w) else wClosed w).

(** The calls in flight interleave; a job may be worked more than once. *)
Inductive workStep : noopWorker * list workPC -> noopWorker * list workPC -> Prop :=
| work_called w pcs id : workStep (w, pcs) (w, WStart id :: pcs)
| work_unknown w a id b :
    wInsertedAt w !! id = None -> workStep (w, a ++ WStart id :: b) (w, a ++ WReturned :: b)
| work_slot w a id b start :
    wInsertedAt w !! id = Some start ->
    workStep (w, a ++ WStart id :: b) (takeSlot w, a ++ WSlot (wLatN w) start :: b)
| work_write w a i start b now :
    workStep (w, a ++ WSlot i start :: b) (writeLatency i (now - start) w, a ++ WWritten :: b)
| work_finish w a b :
    workStep (w, a ++ WWritten :: b) (finishOne w, a ++ WReturned :: b).

Definition busy (pc : workPC) : nat := match pc with WSlot _ _ | WWritten => 1 | _ => 0 end.
Definition returned (pc : workPC) : nat := match pc with WReturned => 1 | _ => 0 end.

(** Every slot handed out belongs to a call in flight or to one that finished. *)
Record workOk (jobs : nat) (w : noopWorker) (pcs : list workPC) : Prop := {
  wo_target : wTarget w = Z.of_nat jobs;
  wo_length : length (wLatencies w) = jobs;
  wo_count : wLatN w = wFinished w + Z.of_nat (sum_list_with busy pcs);
  wo_finished : 0 <= wFinished w <= Z.of_nat (sum_list_with returned pcs);
  wo_closed : wClosed w = if Z.of_nat jobs <=? wFinished w then 1%nat else 0%nat;
  wo_slots : forall i start, WSlot i start ∈ pcs -> 0 <= i < wLatN w
}.

Lemma busy_returned pcs : (sum_list_with busy pcs + sum_list_with returned pcs <= length pcs)%nat.
Proof. induction pcs as [|[] pcs IH]; simpl; lia. Qed.

Lemma writeLatency_fields i d w :
  let w' := writeLatency i d w in
  wTarget w' = wTarget w /\ wLatN w' = wLatN w /\ wFinished w' = wFinished w /\ wClosed w' = wClosed w /\
  length (wLatencies w') = length (wLatencies w).
Proof. unfold writeLatency. case_match; simpl; [|done]. by rewrite length_insert. Qed.

(** Replacing one call's position by another that is no slot. *)
Lemma other_slots a b (pc pc' : workPC) i start :
  (forall j t, pc' <> WSlot j t) -> WSlot i start ∈ a ++ pc' :: b -> WSlot i start ∈ a ++ pc :: b.
Proof. intros Hn. rewrite !elem_of_app, !elem_of_cons. intros [?|[?|?]]; [tauto | by destruct (Hn i start) | tauto]. Qed.

Lemma workStep_ok jobs w pcs w' pcs' :
  (1 <= jobs)%nat -> workStep (w, pcs) (w', pcs') -> workOk jobs w pcs -> workOk jobs w' pcs'.
Proof.
  intros Hj Hs [Ht Hl Hc Hf Hcl Hsl]. inversion Hs; subst; rewrite ?sum_list_with_app in *; simpl in *.
  - split; simpl; try done. intros i start Hin. apply elem_of_cons in Hin as [?|Hin]; [done|]. by apply (Hsl i start).
  - split; rewrite ?sum_list_with_app; simpl; try done; try lia.
    intros i start Hin. apply (Hsl i start). eapply other_slots; [|exact Hin]. done.
  - split; rewrite ?sum_list_with_app; simpl; try done; try lia.
    intros i start' Hin. rewrite elem_of_app, elem_of_cons in Hin.
    destruct Hin as [Hin|[[= -> ->]|Hin]]; [|lia|];
      (destruct (Hsl i start'); [rewrite elem_of_app, elem_of_cons; auto | lia]).
  - destruct (writeLatency_fields i (now - start) w) as (E1 & E2 & E3 & E4 & E5).
    split; rewrite ?sum_list_with_app, ?E1, ?E2, ?E3, ?E4, ?E5; simpl; try done; try lia.
    intros j start' Hin. apply (Hsl j start'). eapply other_slots; [|exact Hin]. done.
  - split; rewrite ?sum_list_with_app; simpl; try done; try lia.
    + rewrite Ht, Hcl. destruct (Z.eqb_spec (wFinished w + 1) (Z.of_nat (length (wLatencies w)))),
        (Z.leb_spec (Z.of_nat (length (wLatencies w))) (wFinished w)),
        (Z.leb_spec (Z.of_nat (length (wLatencies w))) (wFinished w + 1)); lia.
    + intros i start Hin. apply (Hsl i start). eapply other_slots; [|exact Hin]. done.
Qed.

(** The benchmark's worker, called by any number of goroutines at once.  The signal is given
    at most once, so its channel is never closed twice, and exactly when as many calls have
    finished as jobs were asked for; slots are distinct and in range as long as there are jobs for them; and
    when no job was worked twice, the signal means that every call is over and no latency
    is still to be written. *)
Theorem noopWorker_signals jobs insertedAt w pcs :
  (1 <= jobs)%nat -> rtc workStep (newNoopWorker jobs insertedAt, []) (w, pcs) ->
  (wClosed w <= 1)%nat /\ (wClosed w = 1%nat <-> Z.of_nat jobs <= wFinished w) /\
  length (wLatencies w) = jobs /\
  ((length pcs <= jobs)%nat -> wLatN w <= Z.of_nat jobs /\
     (wClosed w = 1%nat -> forall pc, pc ∈ pcs -> pc = WReturned)).
Proof.
  intros Hj Hr.
  assert (workOk jobs w pcs) as [Ht Hl Hc Hf Hcl Hsl].
  { remember (newNoopWorker jobs insertedAt, @nil workPC) as s0 eqn:E0. remember (w, pcs) as s1 eqn:E1.
    assert (workOk jobs s0.1 s0.2) as H0.
    { subst. split; simpl; try done; try lia; [apply length_replicate| |by intros ? ? ?%not_elem_of_nil].
      destruct (Z.leb_spec (Z.of_nat jobs) 0); [lia|done]. }
    replace w with s1.1 by by subst. replace pcs with s1.2 by by subst. clear E0 E1.
    induction Hr as [|x y z Hs _ IH]; [done|]. apply IH.
    destruct x as [wx px], y as [wy py]. by eapply workStep_ok. }
  pose proof (busy_returned pcs) as Hb. split_all; [| |done|].
  - rewrite Hcl. by case_match; lia.
  - rewrite Hcl. destruct (Z.leb_spec (Z.of_nat jobs) (wFinished w)); split; lia || done.
  - intros Hlen. split; [lia|]. intros Hone pc Hin. rewrite Hcl in Hone.
    destruct (Z.leb_spec (Z.of_nat jobs) (wFinished w)) as [Hle|]; [|done].
    assert (sum_list_with returned pcs = length pcs) as Hall by lia. clear -Hall Hin.
    induction pcs as [|p pcs IH]; [by apply not_elem_of_nil in Hin|]. pose proof (busy_returned pcs).
    apply elem_of_cons in Hin as [->|Hin].
    + destruct p; simpl in *; try lia. done.
    + apply IH; [done|]. destruct p; simpl in *; lia.
Qed.

(** The case of the select in [waitDrain] that was taken: the channel was closed, or the context ended
    with [err]. *)
Inductive drainCase := AllDone | CtxEnded (err : error).

Definition waitDrain (c : drainCase) : option error :=
  match c with AllDone => None | CtxEnded err => Some err end.

(** ** One measurement *)

Record benchConfig := {
  bcDSN : string;
  bcMode : string;
  bcJobs : Z;
  bcBatch : Z;
  bcConcurrency : Z;
  bcQueue : string;
  bcNotify : bool
}.

Record benchOutcome := {
  boVersion : string;
  boElapsed : Duration;
  boLatencies : list Duration
}.

(** The configuration of the client it builds. *)
Definition benchClientConfig (ws : Workers) (cfg : benchConfig) : Config :=
  {| cfgWorkers := Some ws; cfgPollInterval := 0; cfgNotifyWakeup := bcNotify cfg; cfgRetryPolicy := None;
     cfgMiddleware := [];
     cfgQueues := if namedQueue (bcQueue cfg) then {[bcQueue cfg := 1]} else ∅;
     cfgConcurrency := bcConcurrency cfg; cfgLeaseDuration := 0; cfgHeartbeatInterval := 0;
     cfgRescueInterval := 0; cfgMetricsRegistry := None; cfgStatsInterval := 0; cfgOpsAddr := ""; cfgPeriodicJobs := [] |}.

(** What a measurement meets: the errors of connecting, migrating, building, starting, waiting and stopping,
    the server's version, and the latencies the worker recorded.  The instants are those of the readings. *)
Record benchWorld := {
  bwConnect : option error;
  bwMigrate : option error;
  bwVersion : res error string;
  bwBuild : option error;
  bwStart : option error;
  bwDrained : drainCase;
  bwStop : option error;
  bwInsertStart : Time; bwInsertEnd : Time; bwDrainStart : Time; bwDrainEnd : Time;
  bwLatencies : list Duration
}.

Definition benchErr (op : string) (e : error) : error := Wrapf (op +:+ ": " +:+ errorText e) [e].

(** [None]: the insertion is still running when its turns are over. *)
Definition defaultExecute {X} (insertMany : X -> list InsertItem -> X * res error (list (option JobRow)))
    (now : nat -> Time) (w : benchWorld) (cfg : benchConfig) (x : X) : option (X * res error benchOutcome) :=
  match bwConnect w, bwMigrate w, bwVersion w, bwBuild w with
  | Some e, _, _, _ => Some (x, Err (benchErr "connect to postgres" e))
  | None, Some e, _, _ => Some (x, Err (benchErr "migrate" e))
  | None, None, Err e, _ => Some (x, Err (benchErr "postgres version" e))
  | None, None, Ok _, Some e => Some (x, Err (benchErr "build client" e))
  | None, None, Ok version, None =>
      match insertNoopJobs insertMany now (Z.to_nat (bcJobs cfg)) (bcJobs cfg) (bcBatch cfg) (bcQueue cfg)
              (Some ∅) x with
      | None => None
      | Some (x', _, Some e) => Some (x', Err (benchErr "insert jobs" e))
      | Some (x', _, None) =>
          let out := {| boVersion := version; boElapsed := bwInsertEnd w - bwInsertStart w; boLatencies := [] |} in
          Some (x',
            if negb (String.eqb (bcMode cfg) modeDrain) then Ok out
            else match bwStart w, waitDrain (bwDrained w), bwStop w with
                 | Some e, _, _ => Err (benchErr "start" e)
                 | None, Some e, Some s =>
                     Err (Wrapf ("drain: " +:+ errorText e +:+ " (stop: " +:+ errorText s +:+ ")") [e; s])
                 | None, Some e, None => Err (benchErr "drain" e)
                 | None, None, Some e => Err (benchErr "stop" e)
                 | None, None, None =>
                     Ok {| boVersion := version; boElapsed := bwDrainEnd w - bwDrainStart w;
                           boLatencies := bwLatencies w |}
                 end)
      end
  end.

(** ** The command *)

Definition resolveDSN (flagValue : string) (getenv : option (string -> string)) : res error string :=
  if negb (String.eqb flagValue "") then Ok flagValue
  else match getenv with
       | None => Err (Msg "database URL required: pass --database or set DATABASE_URL")
       | Some env =>
           if negb (String.eqb (env "DATABASE_URL") "") then Ok (env "DATABASE_URL")
           else Err (Msg "database URL required: pass --database or set DATABASE_URL")
       end.

(** [%.2f] *)
Definition fixed2 (f : float64) : string :=
  let m := Z.abs (mant f) * 100 in
  let n := if 0 <=? expo f then m * 2 ^ expo f else rne m (- expo f) in
  (if mant f <? 0 then "-" else "") +:+ itoa (n / 100) +:+ "." +:+ digits 2 (n mod 100).

(** The machine the command runs on. *)
Record hostInfo := { hiGOOS : string; hiGOARCH : string; hiNumCPU : Z }.

Definition printReport (h : hostInfo) (cfg : benchConfig) (o : benchOutcome) : list string :=
  let elapsed := if boElapsed o <=? 0 then Nanosecond else boElapsed o in
  ["GOOS=" +:+ hiGOOS h; "GOARCH=" +:+ hiGOARCH h; "NumCPU=" +:+ itoa (hiNumCPU h);
   "postgres_version=" +:+ boVersion o; "jobs=" +:+ itoa (bcJobs cfg); "batch=" +:+ itoa (bcBatch cfg);
   "concurrency=" +:+ itoa (bcConcurrency cfg); "queue=" +:+ bcQueue cfg;
   "notify=" +:+ (if bcNotify cfg then "true" else "false"); "handlers=no-op";
   "jobs/sec=" +:+ fixed2 (fdiv (ofInt (bcJobs cfg)) (Seconds elapsed))] ++
  (if String.eqb (bcMode cfg) modeDrain then
     let '(p50, p95, p99) := reportPercentiles (boLatencies o) in
     ["p50=" +:+ durationString p50; "p95=" +:+ durationString p95; "p99=" +:+ durationString p99]
   else []).

(** What was written to the two streams, line by line, and the exit status.  [usage] stands for
    the text of the flag set. *)
Record benchEnd := BenchEnd { beOut : list string; beErr : list string; beCode : Z }.

Definition benchFlags : list (string * flagKind) :=
  [("database", FString); ("mode", FString); ("jobs", FInt); ("batch", FInt); ("concurrency", FInt);
   ("queue", FString); ("notify", FBool)].

Section Command.
Variables (usage : string) (host : hostInfo) (getenv : option (string -> string)).
Variable execute : benchConfig -> res error benchOutcome.

Definition usageErrorf (msg : string) : benchEnd := BenchEnd [] ["drover-bench: " +:+ msg; usage] 2.

Definition run (args : list string) : benchEnd :=
  match parseFlags benchFlags args with
  | HelpAsked => BenchEnd [] [usage] 0
  | BadFlag e => BenchEnd [] [errorText e; usage] 2
  | Parsed vals rest =>
      let jobs := flagInt "jobs" 10000 vals in
      let batch := flagInt "batch" 256 vals in
      let mode := flagString "mode" modeDrain vals in
      match rest with
      | _ :: _ => usageErrorf ("unexpected arguments " +:+ showSlice rest)
      | [] =>
          if jobs <? 1 then usageErrorf "--jobs must be at least 1"
          else if batch <? 1 then usageErrorf "--batch must be at least 1"
          else if negb (String.eqb mode modeEnqueue) && negb (String.eqb mode modeDrain)
          then usageErrorf "--mode must be enqueue or drain"
          else match resolveDSN (flagString "database" "" vals) getenv with
               | Err e => usageErrorf (errorText e)
               | Ok dsn =>
                   let cfg := {| bcDSN := dsn; bcMode := mode; bcJobs := jobs; bcBatch := batch;
                                 bcConcurrency := flagInt "concurrency" 10 vals;
                                 bcQueue := flagString "queue" "default" vals;
                                 bcNotify := flagBool "notify" false vals |} in
                   match execute cfg with
                   | Err e => BenchEnd [] ["drover-bench: " +:+ errorText e] 1
                   | Ok outcome => BenchEnd (printReport host cfg outcome) [] 0
                   end
               end
      end
  end.

(** [main] exits with the status of [run] on the arguments after the program's name. *)
Definition main (osArgs : list string) : Z := beCode (run (tail osArgs)).
End Command.

(** ** The command runs only what makes sense *)

Definition validConfig (cfg : benchConfig) : Prop :=
  1 <= bcJobs cfg /\ 1 <= bcBatch cfg /\ (bcMode cfg = modeEnqueue \/ bcMode cfg = modeDrain) /\ bcDSN cfg <> "".

Lemma resolveDSN_some flagValue getenv dsn : resolveDSN flagValue getenv = Ok dsn -> dsn <> "".
Proof.
  unfold resolveDSN. destruct (String.eqb_spec flagValue "") as [_|Hf]; [|by intros [= <-]]. simpl.
  destruct getenv as [env|]; [|done]. destruct (String.eqb_spec (env "DATABASE_URL") ""); [done|]. by intros [= <-].
Qed.

(** The measurement is made only with a valid configuration, whatever the arguments: two
    executions that agree there give the same run.  The status is 0 with a report or the help,
    1 when the measurement failed, and 2 with nothing on standard output. *)
Lemma run_valid usage host getenv execute execute' args :
  (forall cfg, validConfig cfg -> execute cfg = execute' cfg) ->
  run usage host getenv execute args = run usage host getenv execute' args /\
  let o := run usage host getenv execute args in
  (beCode o = 0 \/ beCode o = 1 \/ beCode o = 2) /\ (beCode o <> 0 -> beOut o = [] /\ beErr o <> []).
Proof.
  intros He. unfold run. destruct (parseFlags benchFlags args) as [vals rest| |e]; [|by auto|by auto].
  destruct rest; [|by auto]. destruct (Z.ltb_spec (flagInt "jobs" 10000 vals) 1); [by auto|].
  destruct (Z.ltb_spec (flagInt "batch" 256 vals) 1); [by auto|].
  destruct (String.eqb_spec (flagString "mode" modeDrain vals) modeEnqueue),
    (String.eqb_spec (flagString "mode" modeDrain vals) modeDrain); cbn [negb andb]; try by auto.
  all: destruct (resolveDSN _ _) as [dsn|err] eqn:Ed; [|by auto].
  all: rewrite <- He by (pose proof (resolveDSN_some _ _ _ Ed); unfold validConfig; simpl; tauto).
  all: destruct (execute _); [split_all; simpl; auto; done | by auto].
Qed.

(** So the measurement it starts gets past its insertion, unless the numbers come near the top of
    [int64]; and it succeeds exactly when nothing it met failed. *)
Lemma execute_returns {X} (insertMany : X -> list InsertItem -> X * res error (list (option JobRow))) now w cfg x :
  validConfig cfg -> bcJobs cfg + bcBatch cfg <= MaxInt64 ->
  exists x' r, defaultExecute insertMany now w cfg x = Some (x', r) /\
    (is_ok r = true -> bwConnect w = None /\ bwMigrate w = None /\ bwBuild w = None /\
       (bcMode cfg = modeDrain -> bwStart w = None /\ bwDrained w = AllDone /\ bwStop w = None)).
Proof.
  intros (Hj & Hb & _) Hm. unfold defaultExecute, insertNoopJobs.
  pose proof (insertLoop_chunks insertMany now (Z.to_nat (bcJobs cfg)) 0 (bcJobs cfg) (bcBatch cfg)
    (benchOpts (bcQueue cfg)) 0 x (Some ∅, []) Hb ltac:(lia) ltac:(lia) ltac:(lia)) as Hl.
  destruct (bwConnect w); [by do 2 eexists|]. destruct (bwMigrate w); [by do 2 eexists|]. destruct (bwVersion w); [|by do 2 eexists].
  destruct (bwBuild w); [by do 2 eexists|]. rewrite Hl.
  destruct (insertChunks _ _ _ _ _ _ _) as [[x' acc] [e|]]; [by do 2 eexists|]. do 2 eexists. split; [done|].
  destruct (String.eqb_spec (bcMode cfg) modeDrain); simpl; [|done].
  destruct (bwStart w), (bwDrained w), (bwStop w); simpl; done.
Qed.

(** ** Witnesses *)

(** An inserter that hands out consecutive ids. *)
Definition countingInserter (next : Z) (items : list InsertItem) : Z * res error (list (option JobRow)) :=
  (next + Z.of_nat (length items),
   Ok ((fun i => Some {| ID := next + Z.of_nat i; Kind := noopKind; Queue := "default"; Args := "{}";
                         State := StateAvailable; Attempt := 0; MaxAttempts := 25;
                         Errors := Raw (JArray []); ScheduledAt := 0; LeasedUntil := None; CreatedAt := 0;
                         FinalizedAt := None; UniqueKey := "" |}) <$> seq 0 (length items))).

Lemma insertNoopJobs_batches_witness :
  chunkSizes 10 3 = [3; 3; 3; 1]%nat /\
  exists x' times out err,
    insertNoopJobs countingInserter (fun i => Z.of_nat i) 10 10 3 "default" (Some ∅) 1 = Some (x', (times, out), err) /\
    Z.of_nat (sum_list (chunkSizes 10 3)) = 10 /\ (err = None -> Z.of_nat (length out) = 10).
Proof.
  split; [vm_compute; reflexivity|].
  destruct (insertNoopJobs_batches countingInserter (fun i => Z.of_nat i) 10 10 3 "default" (Some ∅) 1)
    as (x' & times & out & err & H1 & _ & H2 & _ & H3 & _); [|lia|lia|done|lia|by exists x', times, out, err].
  intros x items x' rows [= <- <-]. by rewrite length_fmap, length_seq.
Defined.
