(* ===== verification/Testdb.v ===== *)
(** * Testdb: the databases the integration tests run in

    Models internal/testdb: one server for a package of tests, a fresh database for each test.  What
    the container runtime and the server answer are arguments; a [t.Fatalf] ends the test with
    its message, and the function registered with [t.Cleanup] runs when a test ends. *)

From S2P Require Import Prelude GoTime GoError GoRuntime.

(** [dbSeq], the databases on the server, and the pools that are open, each by the database it is
    connected to: the administrative ones to "postgres". *)
Record testServer := MkServer { dbSeq : Z; databases : gset string; openPools : list string }.

(** What a test makes of its call: the pool's database, or the message it dies with. *)
Inductive testResult := Ready (name : string) | Fatal (msg : string).

(** The answers: nil, or the error. *)
Record dbAnswers := MkAnswers {
  aConnectAdmin : option error;
  aCreate : option error;
  aParseURL : option error;
  aConnect : option error
}.

Definition adminDb : string := "postgres".

Definition openPool (name : string) (s : testServer) : testServer :=
  MkServer (dbSeq s) (databases s) (name :: openPools s).

(** The first pool on [name] is closed. *)
Fixpoint dropFirst (name : string) (l : list string) : list string :=
  match l with
  | [] => []
  | x :: r => if String.eqb x name then r else x :: dropFirst name r
  end.

Definition closePool (name : string) (s : testServer) : testServer :=
  MkServer (dbSeq s) (databases s) (dropFirst name (openPools s)).

Definition dbName (n : Z) : string := "drover_test_" +:+ itoa n.

Definition NewDB (a : dbAnswers) (s : testServer) : testServer * testResult :=
  match aConnectAdmin a with
  | Some e => (s, Fatal ("testdb: connect admin pool: " +:+ errorText e))
  | None =>
      let s1 := openPool adminDb s in
      let n := dbSeq s1 + 1 in
      let name := dbName n in
      let s2 := MkServer n (databases s1) (openPools s1) in
      match aCreate a with
      | Some e => (closePool adminDb s2, Fatal ("testdb: create database " +:+ name +:+ ": " +:+ errorText e))
      | None =>
          let s3 := MkServer n ({[ name ]} ∪ databases s2) (openPools s2) in
          match aParseURL a with
          | Some e => (closePool adminDb s3, Fatal ("testdb: parse admin url: " +:+ errorText e))
          | None =>
              match aConnect a with
              | Some e => (closePool adminDb s3, Fatal ("testdb: connect to " +:+ name +:+ ": " +:+ errorText e))
              | None => (openPool name s3, Ready name)
              end
          end
      end
  end.

(** The function [t.Cleanup] runs; the message is what [t.Errorf] reports. *)
Definition cleanupDB (name : string) (dropErr : option error) (s : testServer) : testServer * option string :=
  let s1 := closePool name s in
  match dropErr with
  | Some e => (closePool adminDb s1, Some ("testdb: drop database " +:+ name +:+ ": " +:+ errorText e))
  | None => (closePool adminDb (MkServer (dbSeq s1) (databases s1 ∖ {[ name ]}) (openPools s1)), None)
  end.

(** [RunMain]: its exit status and what it prints on stderr; [code] is what the tests return. *)
Definition RunMain (start connString terminate : option error) (code : Z) : Z * list string :=
  match start with
  | Some e => (1, ["testdb: start postgres container: " +:+ errorText e])
  | None =>
      let late := match terminate with
                  | Some e => ["testdb: terminate container: " +:+ errorText e]
                  | None => []
                  end in
      match connString with
      | Some e => (1, ("testdb: connection string: " +:+ errorText e) :: late)
      | None => (code, late)
      end
  end.

(** ** Properties *)

(** The databases there are were made by earlier calls. *)
Definition serverOk (s : testServer) : Prop :=
  forall name, name ∈ databases s -> exists n, name = dbName n /\ n <= dbSeq s.

Lemma itoa_inj a b : itoa a = itoa b -> a = b.
Proof. apply (inj pretty). Qed.

Lemma dbName_inj a b : dbName a = dbName b -> a = b.
Proof. unfold dbName. intros E. injection E. apply itoa_inj. Qed.

(** Each test has a database of its own: a call that succeeds returns a database that was not
    there, with its two pools open, and the cleanup of the test leaves the server as it was but for
    the counter, if the server drops the database; every call that fails closes the pools it opened, and
    keeps the database only when it was created and could not be connected to. *)
Theorem NewDB_isolated a s :
  serverOk s ->
  let '(s', r) := NewDB a s in
  serverOk s' /\
  match r with
  | Ready name =>
      (name ∉ databases s) /\ databases s' = {[ name ]} ∪ databases s /\
      openPools s' = name :: adminDb :: openPools s /\
      let '(s'', msg) := cleanupDB name None s' in
      databases s'' = databases s /\ openPools s'' = openPools s /\ msg = None
  | Fatal _ => openPools s' = openPools s /\
      (databases s' <> databases s -> aCreate a = None /\ (aParseURL a <> None \/ aConnect a <> None))
  end.
Proof.
  intros Hok. unfold NewDB. destruct (aConnectAdmin a); [done|].
  assert (dbName (dbSeq s + 1) ∉ databases s) as Hfresh.
  { intros (n & E%dbName_inj & Hn)%Hok. lia. }
  assert (forall n dbs pools, dbs = databases s \/ dbs = {[ dbName (dbSeq s + 1) ]} ∪ databases s ->
            n = dbSeq s + 1 -> serverOk (MkServer n dbs pools)) as Hok'.
  { intros n dbs pools Hd -> name Hn. simpl in *. assert (name = dbName (dbSeq s + 1) \/ name ∈ databases s) as
      [->|Hin] by (destruct Hd; set_solver).
    - exists (dbSeq s + 1). split; [done | lia].
    - destruct (Hok name Hin) as (k & -> & Hk). exists k. split; [done | lia]. }
  destruct (aCreate a); [split; [apply Hok'; auto | done]|].
  destruct (aParseURL a) as [e|]; [split; [apply Hok'; auto|]; split; [done|]; intros _; split; [done|]; by left|].
  destruct (aConnect a) as [e|]; [split; [apply Hok'; auto|]; split; [done|]; intros _; split; [done|]; by right|].
  split; [apply Hok'; auto|]. cbn [dbSeq databases openPools openPool]. split_all; [done | done | done|].
  unfold cleanupDB, closePool. cbn [dbSeq databases openPools openPool dropFirst].
  rewrite String.eqb_refl. cbn [dropFirst]. split_all; [|done|done]. set_solver.
Qed.
